(* ===== verification/_CoqProject ===== *)
-Q . S2P
Prelude.v
Errors.v
Flags.v
Structures.v
Heapify.v
QueueSpec.v
TaskQueue.v
PoolAllocator.v
DLQueue.v
Platform.v
Scheduler.v
SchedulerFacts.v
Examples.v
SchedulerSubmit.v
Lifecycle.v
Waiting.v
Creation.v
Running.v
Executor.v
ExecutorFacts.v
Sleeping.v
Unlocking.v
Sync.v
Concurrency.v
Threads.v
Potential.v
System.v
SystemQueue.v
SystemInv.v
SystemLife.v
SystemTracks.v
SystemCalls.v
SystemSafe.v
SystemBounds.v
SystemEnds.v
SystemRuns.v
SystemStart.v
Kept.v
Races.v
SystemAlone.v
Restart.v
Session.v
