(* ===== verification/Prelude.v ===== *)
(** * Verification of the task-scheduler library

    The library (include/taskSch.h, src/) runs tasks on a set of pools.  A scheduler
    object holds an array of pools; each pool has a thread and a queue of tasks.  The
    caller creates the object ([schCreateTaskPool]), starts the threads ([schRunTaskSch]),
    submits tasks ([schSubmitTask]), waits until the queues are empty ([schWaitTask]), and
    terminates and releases ([schTerminateTaskSch], [schReleaseTaskSch]).  A submit takes
    the pool the caller names or the root of a heap of pools ordered by work ahead
    ([schHeapify]), puts the task into the ring of the pool under the scheduler's spin
    lock ([schQueueMutexEnDeQueue]), and signals the thread if it sleeps.  A pool thread
    ([schPoolExecutor]) takes tasks from its ring, calls them, and sleeps in [sigwait] when
    the ring is empty.  The threads, locks and signals are those of POSIX, behind the
    wrappers of src/unix/.

    ** The files

    The code, from the data upwards:
    - Prelude (this file): machine integers, outcomes of C code, arrays with bounds, the
      state-passing monad [M] with its total ([wp]) and partial ([wlp]) correctness rules,
      automation.
    - Errors: the error codes and [schErrorMsg] (taskSch.h, taskSch.c), the translations
      of errno values (taskSch.c, unix/thread.c).
    - Flags: the flag words (taskSch.h) and both families of pool state functions, those
      of sch.c ([SchC]) and the unused ones of taskSch.c ([TaskSchC]).
    - Structures: [sch_task_package_t], [sch_task_pool_t] and [sch_task_scheduler_t] with
      every field (taskSch.h, internal_structures.h).
    - Heapify: all of heapify.c.
    - QueueSpec: what a pool's queue promises, as the class [BoundedQueue], with the list
      that is its reference.
    - TaskQueue: the critical section of [schQueueMutexEnDeQueue] (taskSch.c), an instance
      of that class.
    - PoolAllocator, DLQueue: poolAllocator.c on a memory of blocks and words, and queue.c
      on top of it.  The scheduler uses neither.
    - Platform: unix/thread.c and unix/time.c, every function.  POSIX is the class
      [Posix]; the calls and their answers are recorded in [trace].
    - Scheduler: taskSch.c, every function, on the object and the environment ([sched]).
    - Executor: [schPoolExecutor] of sch.c.
    - Concurrency: the accesses of the submitting threads and of a worker to one pool, as
      a step relation.
    - Threads: threads as programs of single accesses, their interleavings, and three
      logics for them: [tracks] (invariants with a ghost state per thread), [costs] (bounds
      on the steps of one thread), [alone] (no interruption, with [doomed] for a thread that
      then reaches undefined behaviour); [exec] runs a schedule.  Potential has the fourth,
      [pays] (bounds on the steps of all threads together).
    - System: any number of client threads that call [schSubmitTask], [schWaitTask],
      [schStopTaskSch] and [schTerminateTaskSch], and all the pool threads, on one object,
      interleaved access by access: the heap, the queues, the spin lock, the mutex, the
      condition and the barrier with their misuses, the flag words, the handles and the lives
      of the threads, the CONTINUE and SIGTERM signals, and the receiver of DONE.

    The theorems about the scheduler are in files of their own: SchedulerFacts (rules and
    the invariant [sched_ok] of the object), Examples (concrete objects), SchedulerSubmit,
    Lifecycle, Waiting, Creation, Running, ExecutorFacts, Sleeping and Unlocking; Sync is about
    the semaphores of Platform, on any system with the class [PosixSem].  Those about System are
    in SystemQueue (one queue: its ring, its history, its worker), SystemInv (all queues and
    the lock), SystemLife (the threads and a termination), SystemTracks (the whole invariant,
    with the heap, the priorities and the waiting client; what each access does to it),
    SystemCalls (the programs keep it), SystemSafe (what follows for every interleaving),
    SystemBounds (a submit ends), SystemEnds (all threads come to rest), SystemAlone (without
    interruption System and Scheduler agree), SystemRuns (a small scheduler, and runs of it by
    computation), SystemStart (creation and running, as Scheduler has them, lead to it),
    Kept (invariants that clients and pool threads keep for the asking), Races (the runs that
    no caller wants), Restart (a second run after a termination) and Session (creation, run,
    use, termination and release, end to end).

    ** How the model stands for the code

    A definition has the name of its C function.  Where a body is split, the parts have
    names of their own and the comment or the order of the calls shows where they belong:
    [submit_to] and [wake_pool] of [schSubmitTask], [create_objects], [create_pool] and
    [init_pool] of [schCreateTaskPool], [run_turn] and [continue_pools] of
    [schRunTaskSch], [terminate_pool], [wait_pools], [release_pool]; [run_task], [go_idle]
    and [wait_continue] of [schPoolExecutor].

    A C function on the object is a function on [sched W], where [W] is the state of the
    operating system: it returns [Done], or [Abort] for a failed [assert], [Undef] for
    undefined behaviour, [OutOfFuel] for a loop that needs more turns.  Integers are [Z]
    with the reductions of their width written out ([u32], [u64], [s32], LP64) and
    signed overflow undefined ([checked]).  An array is a list, a read or write outside
    it is [Undef], and a freed array is empty.  Memory that nothing wrote yet, and what
    other threads do meanwhile ([others]), are section variables: theorems hold
    for all of them, or state the condition they need.  The same holds for the answers of
    the operating system.  [others] is applied after each wait of the source that is not for a
    lock: the condition and the polls of [schWaitTaskWait], the join of a thread in
    [schTerminateTaskSch], and in [schPoolExecutor] the alignment, the functions of the caller
    and [sigwait].

    System has a second translation of the functions that the interleaving is about, since
    there each access is a step: [enqueue] and [dequeue] are the two branches of
    [schQueueMutexEnDeQueue], [heapify_all] is [schHeapify], [submit] and [submit_pool] are
    [schSubmitTask], [wait_all] is [schWaitTaskWait], [stop_turn] and [stop_all] are
    [schStopTaskSch], [terminate_turn], [destroy] and [terminate_all] are
    [schTerminateTaskSch], [align], [hook], [worker_turn], [notify], [sleep_turn] and
    [pool_thread] are [schPoolExecutor] once its signals are masked.  [mutex_lock],
    [mutex_unlock], [cond_signal], [conditional_wait] and [barrier_init] are the calls of
    unix/thread.c on [sch->mutex], [sch->conditional] and [sch->barrier]; each does what the C
    library makes of it, and adds what POSIX leaves undefined to a list of misuses.  A local
    variable of the C code is a variable of the program, and what is read twice in the source
    is two steps.  [submit_alone] shows that the two translations of a submit are the same
    function.

    ** Fuel

    Loops with a bound known beforehand are structural.  The others take fuel, and the
    theorems about them say how much is enough.  [schHeapify] gives [restoreDown] one
    unit more than the heap has cells, each turn of the loop descends a level, and
    [schHeapify_correct] has no fuel in it.  No amount is enough for [wait_pools] when a
    pool is never seen idle ([schWaitTask_stuck]); that a wait does return is a question of what
    the pool threads do, so it is asked of System ([system_no_deadlock], [wait_never_returns]),
    whose loops have no fuel.  [terminate_pools] needs one unit per pool
    ([schTerminateTaskSch_running]); [executor_loop] needs one per task and per signal, and two
    more ([schPoolExecutor_runs_queue]).

    ** What the theorems show

    - Queue: the ring refines the bounded first-in first-out queue ([task_queue_fifo]);
      what happens outside the guard of its callers ([task_queue_out_of_guard]); when the cell
      of a dequeued task is reused ([dequeued_cell_reused]).
    - Heap: [schHeapify] returns, permutes, and establishes the heap with a least pool at the
      root ([schHeapify_correct]), and leaves a heap alone ([schHeapify_idempotent]).
    - Submitting: every branch ([schSubmitTask_correct], [schSubmitTask_errors]), and that
      submits spread evenly over the pools ([submits_are_spread]).
    - Life cycle: every history of calls is one of an abstract machine of three states, for
      every operating system and every worker ([lifecycle_refinement]).
    - Creation, running, waiting, termination, release: effects, calls and failures
      ([schCreateTaskPool_creates], [failed_creation_frees_old_pointers],
      [schRunTaskSch_outcomes], [schWaitTask_stuck], [schTerminateTaskSch_running],
      [schReleaseTaskSch_frees]).
    - Pool threads: a thread whose pool nobody else touches runs its queue, each task once
      and in order, whatever finite number of signals it gets before one that ends it
      ([schPoolExecutor_runs_queue]); the signals that end it and the flag word it sleeps
      with ([worker_signals], [pool_flag_values]); the wake-up that is lost
      ([lost_wakeup]); that it unlocks a mutex it never locked ([worker_only_unlocks]).
    - One queue, interleaved: with one submitter nothing is lost between the submitter and
      the worker's dequeue ([single_submitter_safe]); with any number of them every task is
      started once, while the queue does not fill up ([tasks_start_once]); two submitters
      can overflow the queue ([two_submitters_overflow]), and a queue that fills up between
      a dequeue and the read of the cell loses a task ([task_repeated_when_full]).
    - The whole scheduler, interleaved, for any number of clients and pools, from what a
      creation and a run leave ([create_run_ready]): no access is undefined, and the only
      undefined calls are the unlock of a mutex that a pool thread never locked, with what
      follows from it, and the second initialisation of the barrier ([system_safe]); the
      object keeps its shape ([system_wf]) and its
      bounds ([system_sizes]); tasks are neither lost nor repeated ([system_conserves],
      [system_fifo]), and a running task keeps its package ([task_keeps_package]).  When
      no thread can move, none waits for the spin lock, the mutex or a join, only pool threads
      for a signal ([system_no_deadlock]); a submit or a stop ends within a number of its own
      steps ([submit_bounded]), and clients that do not wait, with all the pool threads, come
      to rest within a number of steps of all of them ([system_terminates]).
    - With one client: the heap keeps its pools ([one_client_heap]), a wait ends with empty
      queues ([one_client_waited]), and a termination has run every task and joined every
      thread ([terminate_runs_all]).  Both models together: from a creation to a release,
      every task that was accepted is run and all that the creation took for the queues, the
      arrays, the signal set and the spin lock is given back ([session_complete]).
    - What goes wrong, by runs from a fresh scheduler: two submits can lose a pool from the
      heap for ever ([heap_race]), or both fail to wake a sleeping pool, whose tasks are then
      never run ([two_submits_lost]); a wait can return too early ([wait_returns_early]) or
      never ([wait_never_returns]); a submit beside a termination can signal a thread that was
      joined ([terminate_race]).  After a termination the scheduler can be run again, but no
      pool of it works as it should ([restart_broken]).
    - Pool allocator: it builds a well-formed chain ([schInitPool_correct]), behaves as a
      stack of free items ([pool_allocator_is_stack]), whose items are disjoint and inside
      the block ([pool_items_disjoint]), one fewer than asked for ([pool_capacity]).
    - Platform: the wrappers with a behaviour of their own (masks, threads, timeouts), the
      translations of errors, and the semaphores as counters ([semaphore_refines]).

    ** Not modelled

    - src/windows/: unfinished, most bodies are empty and the file does not compile.
    - The tests, the build files and the documentation.
    - Messages on stderr; the handler [hdl] of SIGINT, which prints; [sigsetjmp], since
      nothing jumps to its buffer.
    - Weak memory: Concurrency.v and System.v interleave sequentially consistent accesses.
      The fields of a pool other than the flag are plain in the source, so that an unlocked
      read beside a write is a data race for the C standard.
    - In System.v: creation, running and release, which a caller must not make beside other
      calls ([create_run_ready], [restart_broken] and [session_complete] put them before and
      after); the signal mask and the handler that a pool thread sets first (in Executor.v); a
      signal that cannot be sent; the mutex of each pool but for its use in the alignment; the
      effect of the DONE signal, which only wakes a client that polls anyway; what a task or an [init]
      or [deinit] function
      does to the memory besides returning.  The copy of a task into its cell is one access.
    - The pool threads during the run that starts them.  [schRunTaskSch] in Scheduler does not
      let a thread that it has already created go on before the run ends, and System starts
      with every thread at its beginning and the CONTINUE of the run pending.  This is an
      idealisation: the first steps of a thread (its mask, [init], a first look at its empty
      queue, its flag word, the unlock and the signal of the condition) and what is left of the
      run (the objects and handles of other pools, the CONTINUE signals, RUNNING) touch
      different fields; the [set] of the pool and the inherited mask, which the thread uses,
      are made before it is.
    - The caller's package as shared memory: [schSubmitTask] writes its [index] before it is
      copied, and a pool thread writes the [index] of the copy again before the task sees it.
    - In the theorems on System.v: several clients of which one terminates the scheduler.  The
      model has them, but [terminate_race] shows that nothing good holds of them.
    - What blocks for ever outside the scheduler: [sem_wait] on an empty semaphore, and locks of
      the library that the scheduler itself does not use. *)
From stdpp Require Export prelude gmap list strings pretty relations.
From coqutil Require Export Datatypes.RecordSettersUsingExistingGetters.

#[export] Set Default Goal Selector "!".
#[global] Arguments const {_} _ _ /.
#[global] Arguments set {_ _} _ {_} _ _ /.
#[global] Arguments tset {_ _} _ {_} _ /.

Declare Scope csem_scope.
Delimit Scope csem_scope with csem.
Open Scope Z_scope.

(** ** Machine integers (LP64: int is 32 bits, long and size_t are 64 bits) *)

Definition UINT_MOD : Z := 2 ^ 32.
Definition SIZE_MOD : Z := 2 ^ 64.
Definition INT_MAX : Z := 2 ^ 31 - 1.
Definition INT_MIN : Z := - 2 ^ 31.
Definition LONG_MAX : Z := 2 ^ 63 - 1.
Definition LONG_MIN : Z := - 2 ^ 63.

(** Conversion to [unsigned int] and to [size_t]: reduction modulo the width. *)
Definition u32 (z : Z) : Z := z mod UINT_MOD.
Definition u64 (z : Z) : Z := z mod SIZE_MOD.
(** Conversion to [int] (two's complement, as every supported compiler does). *)
Definition s32 (z : Z) : Z := (z + 2 ^ 31) mod UINT_MOD - 2 ^ 31.

Definition is_int (z : Z) : bool := (INT_MIN <=? z) && (z <=? INT_MAX).
Definition is_long (z : Z) : bool := (LONG_MIN <=? z) && (z <=? LONG_MAX).
Definition is_uint (z : Z) : bool := (0 <=? z) && (z <? UINT_MOD).

(** C's [&&]-free truth test of an integer. *)
Definition truthy (z : Z) : bool := negb (z =? 0).

(** The null pointer. *)
Definition NULL : Z := 0.

Lemma u32_small z : 0 <= z < UINT_MOD → u32 z = z.
Proof. intros; apply Z.mod_small; done. Qed.

Lemma u32_range z : 0 <= u32 z < UINT_MOD.
Proof. apply Z.mod_pos_bound; done. Qed.

Lemma u64_small z : 0 <= z < SIZE_MOD → u64 z = z.
Proof. intros; apply Z.mod_small; done. Qed.

Lemma s32_small z : INT_MIN <= z <= INT_MAX → s32 z = z.
Proof. unfold s32, INT_MIN, INT_MAX, UINT_MOD. intros. rewrite Z.mod_small; lia. Qed.

Lemma is_int_spec z : is_int z = true ↔ INT_MIN <= z <= INT_MAX.
Proof. unfold is_int. rewrite andb_true_iff, !Z.leb_le. done. Qed.

Lemma is_long_spec z : is_long z = true ↔ LONG_MIN <= z <= LONG_MAX.
Proof. unfold is_long. rewrite andb_true_iff, !Z.leb_le. done. Qed.

Lemma truthy_spec z : truthy z = true ↔ z ≠ 0.
Proof. unfold truthy. destruct (Z.eqb_spec z 0); naive_solver. Qed.

(** *** Bit masks *)

Lemma testbit_above c k n : 0 <= c < 2 ^ k → 0 <= k <= n → Z.testbit c n = false.
Proof.
  intros Hc Hn. destruct (decide (c = 0)) as [->|]; [apply Z.bits_0|].
  apply Z.bits_above_log2; [lia|]. apply Z.log2_lt_pow2; [lia|].
  pose proof (Z.pow_le_mono_r 2 k n). lia.
Qed.

(** Two integers with the same low three bits and the same higher bits are equal. *)
Lemma low3_ext x y :
  Z.testbit x 0 = Z.testbit y 0 → Z.testbit x 1 = Z.testbit y 1 →
  Z.testbit x 2 = Z.testbit y 2 → (∀ n, 3 <= n → Z.testbit x n = Z.testbit y n) → x = y.
Proof.
  intros H0 H1 H2 H3. apply Z.bits_inj'. intros n Hn.
  destruct (decide (n = 0)) as [->|]; [done|]. destruct (decide (n = 1)) as [->|]; [done|].
  destruct (decide (n = 2)) as [->|]; [done|]. apply H3. lia.
Qed.

(** The mask [1 << b] selects bit [b]. *)
Lemma land_pow2_0 x b : 0 <= b → Z.land x (2 ^ b) = 0 ↔ Z.testbit x b = false.
Proof.
  intros Hb. split.
  - intros H. apply (f_equal (λ z, Z.testbit z b)) in H. revert H.
    by rewrite Z.land_spec, Z.pow2_bits_true, Z.bits_0, andb_true_r by done.
  - intros H. apply Z.bits_inj'. intros n Hn.
    rewrite Z.land_spec, Z.bits_0, Z.pow2_bits_eqb by done.
    destruct (Z.eqb_spec b n) as [->|]; [by rewrite H|by rewrite andb_false_r].
Qed.

(** ** Outcomes of running C code *)

(** [Done]: the code returns; [Abort]: an [assert] failed; [Undef]: the code
    reaches undefined behaviour (an access outside an object, a division by
    zero, signed overflow); [OutOfFuel]: a loop did not finish in the fuel given
    to the model. *)
Inductive outcome (A : Type) : Type :=
  | Done (a : A)
  | Abort
  | Undef
  | OutOfFuel.
Arguments Done {_} _.
Arguments Abort {_}.
Arguments Undef {_}.
Arguments OutOfFuel {_}.

#[export] Instance outcome_ret : MRet outcome := @Done.
#[export] Instance outcome_bind : MBind outcome := λ A B f o,
  match o with
  | Done a => f a
  | Abort => Abort
  | Undef => Undef
  | OutOfFuel => OutOfFuel
  end.
#[export] Instance outcome_fmap : FMap outcome := λ A B f o,
  match o with
  | Done a => Done (f a)
  | Abort => Abort
  | Undef => Undef
  | OutOfFuel => OutOfFuel
  end.

(** A partial read: [None] is an access outside the object. *)
Definition deref {A} (o : option A) : outcome A :=
  match o with Some a => Done a | None => Undef end.

(** A computation that must stay in the range of its signed type. *)
Definition checked (ok : Z → bool) (z : Z) : outcome Z :=
  if ok z then Done z else Undef.

Lemma outcome_bind_Done {A B} (o : outcome A) (k : A → outcome B) b :
  (a ← o; k a) = Done b ↔ ∃ a, o = Done a ∧ k a = Done b.
Proof.
  destruct o; cbn; split; try discriminate; try (intros (? & ? & ?); congruence).
  intros; eauto.
Qed.

Lemma deref_Done {A} (o : option A) a : deref o = Done a ↔ o = Some a.
Proof. destruct o; cbn; split; congruence. Qed.

Lemma checked_Done ok z z' : checked ok z = Done z' ↔ ok z = true ∧ z' = z.
Proof. unfold checked. destruct (ok z); split; try discriminate; intuition congruence. Qed.

Lemma mapM_Done {A B} (f : A → outcome B) (g : A → B) (l : list A) :
  (∀ x, x ∈ l → f x = Done (g x)) → mapM f l = Done (g <$> l).
Proof.
  induction l as [|x l IH]; intros H; [done|]. cbn.
  rewrite (H x) by (left; done). cbn. rewrite IH; [done|]. intros; apply H. by right.
Qed.

(** *** Arrays indexed by C integers *)

(** [a[i]]: [None] outside the array. *)
Definition at_index {A} (l : list A) (i : Z) : option A :=
  if 0 <=? i then l !! Z.to_nat i else None.

Lemma at_index_nat {A} (l : list A) (i : Z) : 0 <= i → at_index l i = l !! Z.to_nat i.
Proof. intros. unfold at_index. by rewrite (proj2 (Z.leb_le 0 i)). Qed.

Lemma at_index_Some {A} (l : list A) i a :
  at_index l i = Some a ↔ 0 <= i ∧ l !! Z.to_nat i = Some a.
Proof. unfold at_index. destruct (Z.leb_spec 0 i); split; intuition (congruence || lia). Qed.

Lemma at_index_lt {A} (l : list A) i a :
  at_index l i = Some a → 0 <= i < Z.of_nat (length l).
Proof. rewrite at_index_Some. intros [? H%lookup_lt_Some]. lia. Qed.

Lemma at_index_is_Some {A} (l : list A) i :
  0 <= i < Z.of_nat (length l) → ∃ a, at_index l i = Some a.
Proof.
  intros H. rewrite at_index_nat by lia. apply lookup_lt_is_Some. lia.
Qed.

(** [a[i] = x]. *)
Definition store {A} (l : list A) (i : Z) (x : A) : outcome (list A) :=
  if decide (0 <= i < Z.of_nat (length l)) then Done (<[Z.to_nat i := x]> l) else Undef.

Lemma store_in {A} (l : list A) i x :
  0 <= i < Z.of_nat (length l) → store l i x = Done (<[Z.to_nat i := x]> l).
Proof. intros. unfold store. by rewrite decide_True. Qed.

Lemma store_Done {A} (l l' : list A) i x :
  store l i x = Done l' ↔ 0 <= i < Z.of_nat (length l) ∧ l' = <[Z.to_nat i := x]> l.
Proof. unfold store. case_decide; split; intuition congruence. Qed.

(** Unsigned [a % b]; [b = 0] is undefined. *)
Definition umod (a b : Z) : outcome Z := if decide (b = 0) then Undef else Done (a mod b).

(** *** Positions on a ring of [r] cells *)

Lemma ring_pos_inj r h a b :
  0 <= a < r → 0 <= b < r → (h + a) mod r = (h + b) mod r → a = b.
Proof.
  intros Ha Hb H. pose proof (Z.div_mod (h + a) r). pose proof (Z.div_mod (h + b) r).
  assert (r * ((h + a) / r - (h + b) / r) = a - b) by lia.
  assert ((h + a) / r - (h + b) / r = 0) by nia. lia.
Qed.

(** ** State-passing C code *)

(** A C function that reads and writes a state [S]. *)
Definition M (S A : Type) : Type := S → outcome (A * S).

#[export] Instance M_ret {S} : MRet (M S) := λ A a s, Done (a, s).
#[export] Instance M_bind {S} : MBind (M S) := λ A B k m s,
  match m s with
  | Done (a, s') => k a s'
  | Abort => Abort
  | Undef => Undef
  | OutOfFuel => OutOfFuel
  end.

Definition get {S} : M S S := λ s, Done (s, s).
Definition put {S} (s : S) : M S () := λ _, Done ((), s).
Definition gets {S A} (f : S → A) : M S A := λ s, Done (f s, s).
Definition modify {S} (f : S → S) : M S () := λ s, Done ((), f s).
Definition undef {S A} : M S A := λ _, Undef.
Definition abort {S A} : M S A := λ _, Abort.
Definition out_of_fuel {S A} : M S A := λ _, OutOfFuel.
Definition liftO {S A} (o : outcome A) : M S A := λ s, a ← o; Done (a, s).

Lemma M_bind_Done {S A B} (m : M S A) (k : A → M S B) s b s'' :
  (m ≫= k) s = Done (b, s'') ↔ ∃ a s', m s = Done (a, s') ∧ k a s' = Done (b, s'').
Proof.
  unfold mbind, M_bind. destruct (m s) as [[a s']| | |].
  - split; [eauto|]. by intros (? & ? & [= <- <-] & ?).
  - split; [done|]. by intros (? & ? & ? & ?).
  - split; [done|]. by intros (? & ? & ? & ?).
  - split; [done|]. by intros (? & ? & ? & ?).
Qed.

Lemma liftO_Done {S A} (o : outcome A) (s s' : S) a :
  liftO o s = Done (a, s') ↔ o = Done a ∧ s' = s.
Proof. destruct o; cbn; split; intuition congruence. Qed.

(** *** Total correctness *)

(** Run from [s], [m] returns, in a state and with a value that satisfy [Q]. *)
Definition wp {S A} (m : M S A) (Q : A → S → Prop) (s : S) : Prop :=
  match m s with Done (a, s') => Q a s' | _ => False end.

Lemma wp_Done {S A} (m : M S A) Q s : wp m Q s ↔ ∃ a s', m s = Done (a, s') ∧ Q a s'.
Proof.
  unfold wp. destruct (m s) as [[a s']| | |]; split; try done.
  - by exists a, s'.
  - by intros (? & ? & [= <- <-] & ?).
  - by intros (? & ? & ? & ?).
  - by intros (? & ? & ? & ?).
  - by intros (? & ? & ? & ?).
Qed.

Lemma wp_ret {S A} (a : A) Q (s : S) : Q a s → wp (mret a) Q s.
Proof. done. Qed.

Lemma wp_bind {S A B} (m : M S A) (k : A → M S B) Q s :
  wp m (λ a s', wp (k a) Q s') s → wp (m ≫= k) Q s.
Proof. unfold wp, mbind, M_bind. by destruct (m s) as [[a s']| | |]. Qed.

Lemma wp_mono {S A} (m : M S A) (Q R : A → S → Prop) s :
  wp m Q s → (∀ a s', Q a s' → R a s') → wp m R s.
Proof. unfold wp. destruct (m s) as [[a s']| | |]; auto. Qed.

Lemma wp_gets {S A} (f : S → A) Q s : Q (f s) s → wp (gets f) Q s.
Proof. done. Qed.

Lemma wp_modify {S} (f : S → S) Q s : Q () (f s) → wp (modify f) Q s.
Proof. done. Qed.

Lemma wp_liftO {S A} (o : outcome A) a Q (s : S) : o = Done a → Q a s → wp (liftO o) Q s.
Proof. by intros ->. Qed.

(** *** Partial correctness *)

(** If [m] returns from [s], the value and the state satisfy [Q]. *)
Definition wlp {S A} (m : M S A) (Q : A → S → Prop) (s : S) : Prop :=
  match m s with Done (a, s') => Q a s' | _ => True end.

Lemma wlp_intro {S A} (m : M S A) (Q : A → S → Prop) s :
  (∀ a s', m s = Done (a, s') → Q a s') → wlp m Q s.
Proof. unfold wlp. destruct (m s) as [[a s']| | |]; auto. Qed.

Lemma wlp_elim {S A} (m : M S A) (Q : A → S → Prop) s a s' :
  wlp m Q s → m s = Done (a, s') → Q a s'.
Proof. unfold wlp. intros H Hm. by rewrite Hm in H. Qed.

Lemma wlp_ret {S A} (a : A) Q (s : S) : Q a s → wlp (mret a) Q s.
Proof. done. Qed.

Lemma wlp_bind {S A B} (m : M S A) (k : A → M S B) Q s :
  wlp m (λ a s', wlp (k a) Q s') s → wlp (m ≫= k) Q s.
Proof. unfold wlp, mbind, M_bind. by destruct (m s) as [[a s']| | |]. Qed.

Lemma wlp_mono {S A} (m : M S A) (Q R : A → S → Prop) s :
  wlp m Q s → (∀ a s', Q a s' → R a s') → wlp m R s.
Proof. unfold wlp. destruct (m s) as [[a s']| | |]; auto. Qed.

Lemma wlp_gets {S A} (f : S → A) Q s : Q (f s) s → wlp (gets f) Q s.
Proof. done. Qed.

Lemma wlp_modify {S} (f : S → S) Q s : Q () (f s) → wlp (modify f) Q s.
Proof. done. Qed.

Lemma wlp_liftO {S A} (o : outcome A) Q (s : S) :
  (∀ a, o = Done a → Q a s) → wlp (liftO o) Q s.
Proof. destruct o; cbn; auto. Qed.

(** ** Swapping two cells of an array *)

Section swap.
Context {A : Type}.

(** [arr[i] = b; arr[j] = a] where [a] is the old [arr[i]] and [b] the old
    [arr[j]]. *)
Definition swap (i j : nat) (a b : A) (l : list A) : list A :=
  <[j := a]> (<[i := b]> l).

Lemma length_swap i j a b (l : list A) : length (swap i j a b l) = length l.
Proof. unfold swap. by rewrite !length_insert. Qed.

Lemma swap_lookup_l i j a b (l : list A) :
  i ≠ j → l !! i = Some a → swap i j a b l !! i = Some b.
Proof.
  intros Hij Hi. unfold swap. rewrite list_lookup_insert_ne by done.
  apply list_lookup_insert_eq. by eapply lookup_lt_Some.
Qed.

Lemma swap_lookup_r i j a b (l : list A) :
  l !! j = Some b → swap i j a b l !! j = Some a.
Proof.
  intros Hj. unfold swap. apply list_lookup_insert_eq.
  rewrite length_insert. by eapply lookup_lt_Some.
Qed.

Lemma swap_lookup_ne i j a b (l : list A) n :
  n ≠ i → n ≠ j → swap i j a b l !! n = l !! n.
Proof. intros. unfold swap. by rewrite !list_lookup_insert_ne by done. Qed.

Lemma swap_Permutation i j a b (l : list A) :
  i ≠ j → l !! i = Some a → l !! j = Some b → swap i j a b l ≡ₚ l.
Proof.
  intros Hij Hi Hj. apply Permutation_inj. split; [by rewrite length_swap|].
  exists (λ n, if decide (n = i) then j else if decide (n = j) then i else n). split.
  - intros x y. repeat case_decide; naive_solver.
  - intros n. repeat case_decide; subst.
    + by rewrite (swap_lookup_l i j a b l Hij Hi).
    + by rewrite (swap_lookup_r i j a b l Hj).
    + apply (swap_lookup_ne i j a b l); done.
Qed.
End swap.

Lemma insert_middle {A} (pre suf : list A) x y :
  <[length pre := y]> (pre ++ x :: suf) = pre ++ y :: suf.
Proof. induction pre as [|z pre IH]; [done|]. cbn. f_equal. exact IH. Qed.

Lemma sum_list_with_insert {A} (f : A → nat) (l : list A) i x y :
  l !! i = Some x → (sum_list_with f (<[i := y]> l) + f x = sum_list_with f l + f y)%nat.
Proof.
  revert i. induction l as [|z l IH]; intros [|i] Hi; try done; cbn in *.
  - simplify_eq. lia.
  - specialize (IH _ Hi). unfold insert in *. lia.
Qed.

(** ** Automation *)

Create HintDb sch discriminated.
Create Rewrite HintDb sch.
#[export] Hint Resolve u32_range : sch.
#[export] Hint Rewrite @length_insert @length_swap @length_replicate @length_fmap : sch.

(** Take apart hypotheses that say that a computation returned. *)
Ltac inv_done :=
  repeat match goal with
  | H : Done _ = Done _ |- _ => injection H as H; subst
  | H : (_, _) = (_, _) |- _ => injection H as ?H ?H; subst
  | H : Undef = Done _ |- _ => discriminate H
  | H : Abort = Done _ |- _ => discriminate H
  | H : OutOfFuel = Done _ |- _ => discriminate H
  | H : deref _ = Done _ |- _ => apply deref_Done in H
  | H : checked _ _ = Done _ |- _ => apply checked_Done in H as [? ->]
  | H : (mbind (M:=outcome) _ _) = Done _ |- _ =>
      apply outcome_bind_Done in H as (? & ? & H)
  | H : (mbind (M:=M _) _ _) _ = Done _ |- _ =>
      apply M_bind_Done in H as (? & ? & ? & H)
  end.
