(* ===== verification/Errors.v ===== *)
(** * Error codes

    [SchErrCode] (include/taskSch.h), the translations from [errno] values
    (src/taskSch.c and src/unix/thread.c) and [schErrorMsg]. *)
From S2P Require Import Prelude.

(** The enumeration; [err_code] gives the integer of each enumerator. *)
Inductive SchErrCode : Type :=
  | SCH_OK
  | SCH_ERROR_UNKNOWN
  | SCH_ERROR_INVALID_ARG
  | SCH_ERROR_INVALID_SCH
  | SCH_ERROR_INVALID_STATE
  | SCH_ERROR_INTERNAL
  | SCH_ERROR_POOL_FULL
  | SCH_ERROR_SIGNAL
  | SCH_ERROR_SYNC_OBJECT
  | SCH_ERROR_TIMEOUT
  | SCH_ERROR_BUSY
  | SCH_ERROR_NOMEM
  | SCH_ERROR_LACK_OF_RESOURCES
  | SCH_ERROR_PERMISSION_DENIED.

#[export] Instance SchErrCode_eq_dec : EqDecision SchErrCode.
Proof. solve_decision. Defined.

Definition err_code (e : SchErrCode) : Z :=
  match e with
  | SCH_OK => 1
  | SCH_ERROR_UNKNOWN => 0
  | SCH_ERROR_INVALID_ARG => -1
  | SCH_ERROR_INVALID_SCH => -2
  | SCH_ERROR_INVALID_STATE => -3
  | SCH_ERROR_INTERNAL => -4
  | SCH_ERROR_POOL_FULL => -5
  | SCH_ERROR_SIGNAL => -6
  | SCH_ERROR_SYNC_OBJECT => -7
  | SCH_ERROR_TIMEOUT => -8
  | SCH_ERROR_BUSY => -9
  | SCH_ERROR_NOMEM => -10
  | SCH_ERROR_LACK_OF_RESOURCES => -11
  | SCH_ERROR_PERMISSION_DENIED => -12
  end.
Coercion err_code : SchErrCode >-> Z.

(** ** The [errno] values the code names (errno.h, Linux) *)
Definition EPERM : Z := 1.
Definition ESRCH : Z := 3.
Definition EINTR : Z := 4.
Definition EAGAIN : Z := 11.
Definition ENOMEM : Z := 12.
Definition EBUSY : Z := 16.
Definition EINVAL : Z := 22.
Definition EDEADLK : Z := 35.
Definition ENOSYS : Z := 38.
Definition ETIMEDOUT : Z := 110.

(** [switch (errorCode)] of src/taskSch.c. *)
Definition translate_errno_to_sch_error (errorCode : Z) : Z :=
  if decide (errorCode = ENOMEM) then SCH_ERROR_NOMEM else SCH_OK.

(** [switch (error)] of src/unix/thread.c; the labels are tried in order. *)
Definition pthread_error_code2sch_error_code (error : Z) : Z :=
  if decide (error = ESRCH ∨ error = 0) then SCH_OK
  else if decide (error = ETIMEDOUT) then SCH_ERROR_TIMEOUT
  else if decide (error = EBUSY) then SCH_ERROR_BUSY
  else if decide (error = EINVAL) then SCH_ERROR_INVALID_ARG
  else if decide (error = EPERM) then SCH_ERROR_PERMISSION_DENIED
  else if decide (error = EAGAIN) then SCH_ERROR_LACK_OF_RESOURCES
  else if decide (error = ENOMEM) then SCH_ERROR_NOMEM
  else SCH_ERROR_UNKNOWN.

(** ** Messages *)
Definition msgErr : list string :=
  [ "unknown error"; "invalid argument"; "invalid schedular object";
    "schedular/pool bad state"; "internal error"; "pool queue is full";
    "internal signal error"; "Synchronization error"; "Timeout error";
    "Busy error"; "No Memory"; "OS lacking resources"; "Permission denied" ]%string.

(** The result is the returned pointer, [None] being [NULL]; reading [msgErr]
    out of its bounds is undefined. *)
Definition schErrorMsg (errMsg : Z) : outcome (option string) :=
  if decide (errMsg = SCH_OK) then Done (Some "no error"%string)
  else if decide (errMsg > SCH_OK) then Done None
  else if decide (errMsg < SCH_ERROR_PERMISSION_DENIED) then Done None
  else
    let i := errMsg * -1 in
    if decide (0 <= i) then Some <$> deref (msgErr !! Z.to_nat i) else Undef.

(** ** Properties *)

Lemma err_code_inj e1 e2 : err_code e1 = err_code e2 → e1 = e2.
Proof. destruct e1, e2; done. Qed.

Lemma err_code_range e : -12 <= err_code e <= 1.
Proof. destruct e; cbn; lia. Qed.

(** Every integer of the range of the enumeration is an enumerator. *)
Lemma err_code_surj z : -12 <= z <= 1 → ∃ e, err_code e = z.
Proof.
  intros Hz.
  assert (z = -12 ∨ z = -11 ∨ z = -10 ∨ z = -9 ∨ z = -8 ∨ z = -7 ∨ z = -6 ∨ z = -5
    ∨ z = -4 ∨ z = -3 ∨ z = -2 ∨ z = -1 ∨ z = 0 ∨ z = 1) as Hc by lia.
  repeat destruct Hc as [->|Hc];
    [exists SCH_ERROR_PERMISSION_DENIED|exists SCH_ERROR_LACK_OF_RESOURCES
    |exists SCH_ERROR_NOMEM|exists SCH_ERROR_BUSY|exists SCH_ERROR_TIMEOUT
    |exists SCH_ERROR_SYNC_OBJECT|exists SCH_ERROR_SIGNAL|exists SCH_ERROR_POOL_FULL
    |exists SCH_ERROR_INTERNAL|exists SCH_ERROR_INVALID_STATE|exists SCH_ERROR_INVALID_SCH
    |exists SCH_ERROR_INVALID_ARG|exists SCH_ERROR_UNKNOWN|exists SCH_OK]; done.
Qed.

Lemma schErrorMsg_code e : ∃ s, schErrorMsg (err_code e) = Done (Some s).
Proof. destruct e; eexists; reflexivity. Qed.

(** [schErrorMsg] never reads outside its table; it answers a message for exactly the
    integers of the enumeration ([NULL] for the others), and different codes have
    different messages. *)
Theorem schErrorMsg_table z :
  (∃ r, schErrorMsg z = Done r ∧ (is_Some r ↔ ∃ e, err_code e = z)) ∧
  (∀ e1 e2, schErrorMsg (err_code e1) = schErrorMsg (err_code e2) → e1 = e2).
Proof.
  split.
  - destruct (decide (-12 <= z <= 1)) as [Hz|Hz].
    + destruct (err_code_surj z Hz) as [e <-]. destruct (schErrorMsg_code e) as [s ->].
      eexists. split; [done|]. split; eauto.
    + exists None. split.
      * unfold schErrorMsg. cbn. repeat case_decide; (done || lia).
      * split; [by intros []|]. intros [e <-]. by pose proof (err_code_range e).
  - by intros [] [].
Qed.

(** The translations of [errno] values always give an enumerator, and report success
    for more than the value 0: [pthread_error_code2sch_error_code] also for [ESRCH] (no
    such thread), [translate_errno_to_sch_error] for everything but [ENOMEM]. *)
Theorem errno_translation n :
  (∃ e, pthread_error_code2sch_error_code n = err_code e ∧ (e = SCH_OK ↔ n = 0 ∨ n = ESRCH)) ∧
  (∃ e, translate_errno_to_sch_error n = err_code e ∧ (e = SCH_OK ↔ n ≠ ENOMEM)).
Proof.
  split.
  - unfold pthread_error_code2sch_error_code.
    repeat case_decide; eexists; (split; [reflexivity|split; [done||tauto|]]); tauto.
  - unfold translate_errno_to_sch_error.
    case_decide; eexists; (split; [reflexivity|split; [done||tauto|]]); tauto.
Qed.

(** The sign of a code: only [SCH_OK] is positive. *)
Lemma err_code_positive e : 0 < err_code e ↔ e = SCH_OK.
Proof. destruct e; cbn; split; (done || lia || congruence). Qed.
