(* ===== verification/Flags.v ===== *)
(** * Scheduler and pool flags

    The flag words of include/taskSch.h and the functions that set the state of
    a pool.  The source has two families of these functions under the same names:
    the ones of src/sch.c, which the pool threads call ([Module SchC]), and the
    static ones of src/taskSch.c, which nothing calls ([Module TaskSchC]).  A flag
    word is the value of an [atomic_uint]. *)
From S2P Require Import Prelude.

Definition SCH_FLAG_NO_AFM : Z := 0x80000000.
Definition SCH_FLAG_INIT : Z := 0x1.
Definition SCH_FLAG_RUNNING : Z := 0x2.
Definition SCH_FLAG_IDLE : Z := 0x4.

Definition SCH_POOL_TERMINATE : Z := 0x1.
Definition SCH_POOL_RUNNING : Z := 0x2.
Definition SCH_POOL_SLEEP : Z := 0x4.

(** [flag & mask], used as a truth value. *)
Definition has (flag mask : Z) : bool := truthy (Z.land flag mask).

(** The state functions of src/sch.c: the new value of [pool->flag]. *)
Module SchC.
Definition setPoolRunning (flag : Z) : Z :=
  Z.lxor flag (Z.lor SCH_POOL_SLEEP SCH_FLAG_RUNNING).

Definition setPoolIdle (flag : Z) : Z :=
  Z.lxor flag (Z.lor SCH_POOL_RUNNING SCH_POOL_SLEEP).

Definition setPoolTerminated (flag : Z) : Z :=
  Z.lxor flag (Z.lor (Z.lor SCH_POOL_RUNNING SCH_POOL_SLEEP) SCH_POOL_TERMINATE).

Definition isRunning (flag : Z) : Z := Z.land flag SCH_POOL_RUNNING.
End SchC.

(** The state functions of src/taskSch.c. *)
Module TaskSchC.
Definition setPoolRunning (flag : Z) : Z :=
  let flag := Z.lor flag SCH_POOL_RUNNING in
  Z.land flag (Z.lnot SCH_POOL_SLEEP).

Definition setPoolIdle (flag : Z) : Z :=
  Z.lor (Z.land flag (Z.lnot SCH_POOL_RUNNING)) SCH_POOL_SLEEP.

Definition setPoolTerminated (flag : Z) : Z :=
  Z.lor (Z.land flag (Z.lnot (Z.lor SCH_POOL_RUNNING SCH_POOL_SLEEP))) SCH_POOL_TERMINATE.
End TaskSchC.

(** ** Reading flags bit by bit *)

Lemma has_bit flag b : 0 <= b → has flag (2 ^ b) = Z.testbit flag b.
Proof.
  intros Hb. pose proof (land_pow2_0 flag b Hb) as H. unfold has, truthy.
  destruct (Z.eqb_spec (Z.land flag (2 ^ b)) 0) as [E|E], (Z.testbit flag b); cbn; intuition congruence.
Qed.

Lemma has_1 flag : has flag 1 = Z.testbit flag 0.
Proof. by apply (has_bit flag 0). Qed.
Lemma has_2 flag : has flag 2 = Z.testbit flag 1.
Proof. by apply (has_bit flag 1). Qed.
Lemma has_4 flag : has flag 4 = Z.testbit flag 2.
Proof. by apply (has_bit flag 2). Qed.

(** RUNNING cleared. *)
Lemma has_clear f : has (Z.land f (Z.lnot SCH_FLAG_RUNNING)) SCH_FLAG_RUNNING = false.
Proof. unfold has. by rewrite <-Z.land_assoc, (Z.land_comm (Z.lnot _)), Z.land_lnot_diag, Z.land_0_r. Qed.

Create Rewrite HintDb bits.
(** Bits of the results of the bit operations, for [autorewrite]. *)
#[export] Hint Rewrite Z.lxor_spec Z.lor_spec Z.land_spec : bits.
Lemma lnot_bit a n : 0 <= n → Z.testbit (Z.lnot a) n = negb (Z.testbit a n).
Proof. apply Z.lnot_spec. Qed.

(** Compare two flag words whose operations have masks below 8; [tac] rewrites
    with what is known of the bits. *)
Ltac split_bits :=
  repeat match goal with
  | |- context [Z.testbit ?x ?n] => is_var x; destruct (Z.testbit x n)
  end.
Ltac flag_bits tac :=
  apply low3_ext;
  [ | | | let n := fresh "n" in let Hn := fresh "Hn" in
    intros n Hn; autorewrite with bits; rewrite ?lnot_bit by lia;
    autorewrite with bits;
    repeat match goal with
    | |- context [Z.testbit (Zpos ?p) n] => rewrite (testbit_above (Zpos p) 3 n) by lia
    end ];
  [ autorewrite with bits; rewrite ?lnot_bit by lia; autorewrite with bits; tac ..
  | ]; split_bits; reflexivity.

(** Read one bit of an equation between flag words. *)
Ltac flag_bit_of H b :=
  apply (f_equal (λ z, Z.testbit z b)) in H;
  autorewrite with bits in H; rewrite ?lnot_bit in H by lia;
  autorewrite with bits in H; revert H; split_bits; done.

(** ** The flag state machine of a pool thread *)

(** The changes a pool thread makes to [pool->flag] before it terminates. *)
Inductive flag_step : Z → Z → Prop :=
  | flag_running f : flag_step f (SchC.setPoolRunning f)
  | flag_idle f : flag_step f (SchC.setPoolIdle f).

Lemma setPoolIdle_setPoolRunning f : SchC.setPoolIdle f = SchC.setPoolRunning f.
Proof. reflexivity. Qed.

Lemma setPoolIdle_twice f : SchC.setPoolIdle (SchC.setPoolIdle f) = f.
Proof. unfold SchC.setPoolIdle. by rewrite Z.lxor_assoc, Z.lxor_nilpotent, Z.lxor_0_r. Qed.

Lemma flag_step_values f f' : flag_step f f' → f = 0 ∨ f = 6 → f' = 0 ∨ f' = 6.
Proof. intros [] [-> | ->]; auto. Qed.

(** ** Properties *)

(** Over any sequence of [setPoolRunning] and [setPoolIdle] calls from the value
    [schCreateTaskPool] writes, the word is 0 or 6: the RUNNING and the SLEEP bit are
    always equal, so no test of the word tells a running pool from a sleeping one. *)
Theorem pool_flag_values f :
  rtc flag_step 0 f →
  (f = 0 ∨ f = 6) ∧ has f SCH_POOL_RUNNING = has f SCH_POOL_SLEEP.
Proof.
  intros H. assert (f = 0 ∨ f = 6) as Hf.
  { assert (∀ a b, rtc flag_step a b → a = 0 ∨ a = 6 → b = 0 ∨ b = 6) as Hinv.
    { induction 1; eauto using flag_step_values. }
    eauto. }
  split; [done|]. by destruct Hf as [-> | ->].
Qed.

Lemma pool_flag_values_witness :
  (6 = 0 ∨ 6 = 6) ∧ has 6 SCH_POOL_RUNNING = has 6 SCH_POOL_SLEEP.
Proof. apply (pool_flag_values 6). apply rtc_once. apply (flag_idle 0). Defined.

(** The exclusive-or versions of src/sch.c agree with the state functions of
    src/taskSch.c exactly on the words in which the pool is in the state the change
    starts from. *)
Theorem sch_flag_functions_agree f :
  (SchC.setPoolRunning f = TaskSchC.setPoolRunning f
     ↔ has f SCH_POOL_RUNNING = false ∧ has f SCH_POOL_SLEEP = true) ∧
  (SchC.setPoolIdle f = TaskSchC.setPoolIdle f
     ↔ has f SCH_POOL_RUNNING = true ∧ has f SCH_POOL_SLEEP = false) ∧
  (SchC.setPoolTerminated f = TaskSchC.setPoolTerminated f
     ↔ has f SCH_POOL_RUNNING = true ∧ has f SCH_POOL_SLEEP = true
       ∧ has f SCH_POOL_TERMINATE = false).
Proof.
  unfold SCH_POOL_RUNNING, SCH_POOL_SLEEP, SCH_POOL_TERMINATE, SCH_FLAG_RUNNING.
  rewrite has_1, has_2, has_4.
  unfold SchC.setPoolRunning, SchC.setPoolIdle, SchC.setPoolTerminated,
    TaskSchC.setPoolRunning, TaskSchC.setPoolIdle, TaskSchC.setPoolTerminated,
    SCH_POOL_RUNNING, SCH_POOL_SLEEP, SCH_POOL_TERMINATE, SCH_FLAG_RUNNING.
  split_and!; split.
  - intros H. split; [flag_bit_of H 1|flag_bit_of H 2].
  - intros [H1 H2]. flag_bits ltac:(rewrite ?H1, ?H2).
  - intros H. split; [flag_bit_of H 1|flag_bit_of H 2].
  - intros [H1 H2]. flag_bits ltac:(rewrite ?H1, ?H2).
  - intros H. split_and!; [flag_bit_of H 1|flag_bit_of H 2|flag_bit_of H 0].
  - intros (H1 & H2 & H0). flag_bits ltac:(rewrite ?H0, ?H1, ?H2).
Qed.
