(* ===== verification/Structures.v ===== *)
(** * The data of the scheduler

    The structures of include/taskSch.h and include/internal/internal_structures.h.
    A field keeps its name, behind the tag of its structure: [pk_] for
    [sch_task_package_t], [tp_] for [sch_task_pool_t], [ts_] for
    [sch_task_scheduler_t].  A pointer is its address; the array a pointer leads to
    is a list beside it ([tp_packages] for [tp_package], [ts_pools] for [ts_pool],
    [ts_dheaps] for [ts_dheap]).  A pointer into [sch->pool], as the cells of [dheap]
    are, is the index of the pool it points to. *)
From S2P Require Import Prelude.

(** A task; [pk_callback] is the address of the function. *)
Record schTaskPackage : Type := mkPackage {
  pk_flag : Z;
  pk_index : Z;
  pk_callback : Z;
  pk_size : Z;
  pk_offset : Z;
  pk_begin : Z;
  pk_end : Z;
  pk_puser : Z;
}.

#[export] Instance schTaskPackage_eq_dec : EqDecision schTaskPackage.
Proof. solve_decision. Defined.

#[export] Instance schTaskPackage_inhabited : Inhabited schTaskPackage :=
  populate (mkPackage 0 0 0 0 0 0 0 0).

(** A pool: a worker thread with its queue of tasks. *)
Record schTaskPool : Type := mkPool {
  tp_thread : Z;
  tp_schRefThread : Z;
  tp_mutex : Z;
  tp_set : Z;
  tp_size : Z;
  tp_tail : Z;
  tp_head : Z;
  tp_reserved : Z;
  tp_package : Z;
  tp_packages : list schTaskPackage;
  tp_userdata : Z;
  tp_init : Z;
  tp_deinit : Z;
  tp_avergeDeque : Z;
  tp_dheapPriority : Z;
  tp_sch : Z;
  tp_index : Z;
  tp_flag : Z;
}.

(** The scheduler. *)
Record schTaskSch : Type := mkSch {
  ts_num : Z;
  ts_pool : Z;
  ts_pools : list schTaskPool;
  ts_flag : Z;
  ts_dheap : Z;
  ts_dheaps : list nat;
  ts_spinlock : Z;
  ts_mutex : Z;
  ts_conditional : Z;
  ts_barrier : Z;
  ts_set : Z;
}.

(** [sizeof] of the structures under LP64. *)
Definition sizeof_schTaskPackage : Z := 56.
Definition sizeof_schTaskPool : Z := 112.
Definition sizeof_schTaskSch : Z := 72.
Definition sizeof_pointer : Z := 8.
