(* ===== verification/Heapify.v ===== *)
(** * The priority queue of pools (src/heapify.c)

    [restoreDown] and [schHeapify] arrange [sch->dheap], an array of pointers to
    pools, as a [SCH_HEAP_BREATH]-ary heap on [dheapPriority].  The definitions keep
    the C arithmetic: an [int] computation that overflows and a read outside an array
    are undefined. *)
From S2P Require Import Prelude Structures.

Definition SCH_HEAP_BREATH : Z := 4.

Definition getParentIndex (index depth : Z) : Z := (index - 1) `quot` depth.

Definition getChildIndex (parent nthChild depth : Z) : Z := depth * parent + nthChild + 1.

(** [arr[i]->dheapPriority]. *)
Definition heap_key (pools : list schTaskPool) (arr : list nat) (i : Z) : outcome Z :=
  p ← deref (at_index arr i);
  pool ← deref (pools !! p);
  mret (tp_dheapPriority pool).

(** The loop that fills [child[1..k]]. *)
Definition fill_children (len index k : Z) : outcome (list Z) :=
  mapM (λ i,
    ki ← checked is_int (k * index);
    c ← checked is_int (ki + i);
    mret (if c <? len then c else -1)) (seqZ 1 k).

(** The loop that looks for the smallest child; [min_child_index] starts
    uninitialised ([None]). *)
Fixpoint find_min_child (pools : list schTaskPool) (arr : list nat) (child : list Z)
    (min_child : Z) (min_child_index : option Z) : outcome (Z * option Z) :=
  match child with
  | [] => mret (min_child, min_child_index)
  | c :: child =>
      if decide (c ≠ -1) then
        key ← heap_key pools arr c;
        if key <? min_child then find_min_child pools arr child key (Some c)
        else find_min_child pools arr child min_child min_child_index
      else find_min_child pools arr child min_child min_child_index
  end.

(** The body of [restoreDown]: every turn of the [while (1)] moves [index] to its
    smallest child. *)
Fixpoint restoreDown (fuel : nat) (pools : list schTaskPool) (arr : list nat)
    (len index k : Z) : outcome (list nat) :=
  match fuel with
  | O => OutOfFuel
  | S fuel =>
      child ← fill_children len index k;
      '(min_child, min_child_index) ← find_min_child pools arr child LONG_MAX None;
      if min_child =? LONG_MAX then mret arr
      else
        m ← deref min_child_index;
        a ← deref (at_index arr index);
        b ← deref (at_index arr m);
        ka ← heap_key pools arr index;
        kb ← heap_key pools arr m;
        let arr := if kb <? ka then swap (Z.to_nat index) (Z.to_nat m) a b arr else arr in
        restoreDown fuel pools arr len m k
  end.

(** The loop [for (i = d; i >= 0; i--)] over the given indices. *)
Fixpoint heapify_loop (fuel : nat) (pools : list schTaskPool) (n : Z) (idxs : list Z)
    (arr : list nat) : outcome (list nat) :=
  match idxs with
  | [] => mret arr
  | i :: idxs =>
      arr ← restoreDown fuel pools arr n i SCH_HEAP_BREATH;
      heapify_loop fuel pools n idxs arr
  end.

(** [d, d-1, .., 0] *)
Definition heapify_indices (d : Z) : list Z := reverse (seqZ 0 (d + 1)).

(** The new contents of [sch->dheap].  [fuel] bounds the turns of each call of
    [restoreDown]. *)
Definition schHeapify_fuel (fuel : nat) (pools : list schTaskPool) (num : Z)
    (arr : list nat) : outcome (list nat) :=
  let n := s32 num in
  n1 ← checked is_int (n - 1);
  let d := n1 `quot` SCH_HEAP_BREATH in
  heapify_loop fuel pools n (heapify_indices d) arr.

Definition schHeapify (sch : schTaskSch) : outcome schTaskSch :=
  arr ← schHeapify_fuel (S (length (ts_dheaps sch))) (ts_pools sch) (ts_num sch)
          (ts_dheaps sch);
  mret (sch <| ts_dheaps := arr |>).

(** ** Specification *)

(** Position [c] of a [k]-ary heap is a child of position [p]. *)
Definition is_child (k p c : Z) : Prop := ∃ i, 1 <= i <= k ∧ c = k * p + i.

(** The keys of the heap, by position. *)
Definition key_at (pools : list schTaskPool) (arr : list nat) (i : Z) : Z :=
  match heap_key pools arr i with Done z => z | _ => 0 end.

(** Every cell of [arr] points to a pool, whose key is a [long]. *)
Definition heap_wf (pools : list schTaskPool) (arr : list nat) : Prop :=
  Forall (λ p, ∃ pool, pools !! p = Some pool ∧ is_long (tp_dheapPriority pool) = true) arr.

(** Every parent from position [lo] on has a key at most its children's. *)
Definition heap_from (pools : list schTaskPool) (arr : list nat) (k lo : Z) : Prop :=
  ∀ p c, lo <= p → is_child k p c → c < Z.of_nat (length arr) →
    key_at pools arr p <= key_at pools arr c.

Definition is_heap pools arr k : Prop := heap_from pools arr k 0.

Lemma is_child_parent k p c : 0 < k → is_child k p c → (c - 1) / k = p.
Proof.
  intros Hk (i & Hi & ->). symmetry. apply Z.div_unique with (i - 1); lia.
Qed.

Lemma is_child_unique k p p' c : 0 < k → is_child k p c → is_child k p' c → p = p'.
Proof. intros Hk H H'. apply is_child_parent in H, H'; lia. Qed.

Lemma is_child_lt k p c : 0 < k → 0 <= p → is_child k p c → p < c.
Proof. intros Hk Hp (i & Hi & ->). nia. Qed.

Lemma parent_is_child k c : 0 < k → 0 < c → is_child k ((c - 1) / k) c.
Proof.
  intros Hk Hc. exists ((c - 1) mod k + 1).
  pose proof (Z.mod_pos_bound (c - 1) k). pose proof (Z.div_mod (c - 1) k). lia.
Qed.

Section keys.
Context (pools : list schTaskPool).

Lemma heap_key_Done arr i :
  heap_wf pools arr → 0 <= i < Z.of_nat (length arr) →
  heap_key pools arr i = Done (key_at pools arr i) ∧ key_at pools arr i <= LONG_MAX.
Proof.
  intros Hwf Hi. unfold key_at, heap_key.
  destruct (at_index_is_Some arr i Hi) as [p Hp]. rewrite Hp. cbn.
  apply at_index_Some in Hp as [_ Hp].
  destruct (proj1 (Forall_lookup _ _) Hwf _ _ Hp) as (pool & -> & Hl%is_long_spec).
  cbn. split; [done|lia].
Qed.

Lemma key_at_lookup arr arr' i j :
  at_index arr i = at_index arr' j → key_at pools arr i = key_at pools arr' j.
Proof. unfold key_at, heap_key. by intros ->. Qed.

Lemma heap_wf_Permutation arr arr' :
  arr ≡ₚ arr' → heap_wf pools arr → heap_wf pools arr'.
Proof. intros Hp. unfold heap_wf. by rewrite Hp. Qed.
End keys.

(** *** One turn of the loop *)

Lemma fill_children_spec len index k :
  0 <= k → 0 <= index → k * index + k <= INT_MAX →
  fill_children len index k
  = Done ((λ i, if k * index + i <? len then k * index + i else -1) <$> seqZ 1 k).
Proof.
  intros Hk Hi Hmax. apply mapM_Done. intros i Hin%elem_of_seqZ.
  unfold checked. unfold INT_MAX in *.
  rewrite (proj2 (is_int_spec (k * index))) by (unfold INT_MAX, INT_MIN; nia). cbn.
  by rewrite (proj2 (is_int_spec (k * index + i))) by (unfold INT_MAX, INT_MIN; nia).
Qed.

(** The children of [index], as the loop fills them in. *)
Lemma elem_of_children len index k c :
  0 <= index → 0 <= k → c ≠ -1 →
  c ∈ ((λ i, if k * index + i <? len then k * index + i else -1) <$> seqZ 1 k)
  ↔ is_child k index c ∧ c < len.
Proof.
  intros Hi Hk Hc. rewrite list_elem_of_fmap. split.
  - intros (i & Hci & Hin%elem_of_seqZ). revert Hci.
    destruct (Z.ltb_spec (k * index + i) len); [|by intros ->].
    intros ->. split; [|done]. exists i. lia.
  - intros [(i & Hik & ->) Hlt]. exists i. split.
    + by rewrite (proj2 (Z.ltb_lt _ _) Hlt).
    + apply elem_of_seqZ. lia.
Qed.

Lemma find_min_child_spec pools arr cs m0 mi0 :
  heap_wf pools arr →
  (∀ c, c ∈ cs → c ≠ -1 → 0 <= c < Z.of_nat (length arr)) →
  ∃ m mi, find_min_child pools arr cs m0 mi0 = Done (m, mi) ∧ m <= m0 ∧
    (∀ c, c ∈ cs → c ≠ -1 → m <= key_at pools arr c) ∧
    ((m = m0 ∧ mi = mi0) ∨
     (∃ c, mi = Some c ∧ c ∈ cs ∧ c ≠ -1 ∧ m = key_at pools arr c ∧ m < m0)).
Proof.
  intros Hwf. revert m0 mi0. induction cs as [|c cs IH]; intros m0 mi0 Hin.
  { exists m0, mi0. split_and!; [done|lia| |by left]. intros c Hc. by apply elem_of_nil in Hc. }
  assert (∀ c', c' ∈ cs → c' ≠ -1 → 0 <= c' < Z.of_nat (length arr)) as Hin'.
  { intros c' Hc'. apply Hin. by right. }
  cbn [find_min_child]. destruct (decide (c ≠ -1)) as [Hc|Hc].
  - destruct (heap_key_Done pools arr c Hwf (Hin c (list_elem_of_here _ _) Hc)) as [Hk _].
    rewrite Hk. cbn. destruct (Z.ltb_spec (key_at pools arr c) m0) as [Hlt|Hge].
    + destruct (IH (key_at pools arr c) (Some c) Hin') as (m & mi & Hf & Hle & Hall & Hcase).
      exists m, mi. split_and!; [done|lia| |].
      * intros c' [->|Hc']%elem_of_cons ?; [lia|eauto].
      * right. destruct Hcase as [[-> ->]|(c' & -> & ? & ? & -> & ?)].
        -- exists c. split_and!; try done. by left.
        -- exists c'. split_and!; try done; [by right|lia].
    + destruct (IH m0 mi0 Hin') as (m & mi & Hf & Hle & Hall & Hcase).
      exists m, mi. split_and!; [done|lia| |].
      * intros c' [->|Hc']%elem_of_cons ?; [lia|eauto].
      * destruct Hcase as [?|(c' & ? & ? & ? & ? & ?)]; [by left|right].
        exists c'. split_and!; try done. by right.
  - destruct (IH m0 mi0 Hin') as (m & mi & Hf & Hle & Hall & Hcase).
    exists m, mi. split_and!; [done|lia| |].
    + intros c' [->|Hc']%elem_of_cons ?; [done|eauto].
    + destruct Hcase as [?|(c' & ? & ? & ? & ? & ?)]; [by left|right].
      exists c'. split_and!; try done. by right.
Qed.

(** The array after the comparison of a parent with its smallest child. *)
Definition sift (pools : list schTaskPool) (arr : list nat) (index m : Z) (a b : nat) : list nat :=
  if key_at pools arr m <? key_at pools arr index
  then swap (Z.to_nat index) (Z.to_nat m) a b arr else arr.

(** A turn either meets a leaf (no child has a key below [LONG_MAX]) or goes on
    from the smallest child. *)
Lemma restoreDown_turn fuel pools arr index k :
  heap_wf pools arr → 0 < k → 0 <= index < Z.of_nat (length arr) →
  k * index + k <= INT_MAX →
  (restoreDown (S fuel) pools arr (Z.of_nat (length arr)) index k = Done arr ∧
   ∀ c, is_child k index c → c < Z.of_nat (length arr) → key_at pools arr c = LONG_MAX) ∨
  (∃ m a b, is_child k index m ∧ m < Z.of_nat (length arr) ∧
     at_index arr index = Some a ∧ at_index arr m = Some b ∧
     (∀ c, is_child k index c → c < Z.of_nat (length arr) →
        key_at pools arr m <= key_at pools arr c) ∧
     restoreDown (S fuel) pools arr (Z.of_nat (length arr)) index k
     = restoreDown fuel pools (sift pools arr index m a b) (Z.of_nat (length arr)) m k).
Proof.
  intros Hwf Hk Hi Hmax. set (n := Z.of_nat (length arr)). cbn [restoreDown].
  rewrite fill_children_spec by lia. cbn [mbind outcome_bind].
  set (cs := _ <$> seqZ 1 k).
  assert (∀ c, c ≠ -1 → c ∈ cs ↔ is_child k index c ∧ c < n) as Hcs.
  { intros c Hc. apply elem_of_children; lia. }
  assert (∀ c, is_child k index c → c ≠ -1 ∧ 0 <= c) as Hpos.
  { intros c Hc%is_child_lt; lia. }
  destruct (find_min_child_spec pools arr cs LONG_MAX None Hwf) as (m & mi & -> & Hle & Hall & Hcase).
  { intros c Hc Hc1. apply Hcs in Hc as [? ?]; [|done]. split; [by apply Hpos|done]. }
  cbn. destruct (Z.eqb_spec m LONG_MAX) as [->|Hm].
  - left. split; [done|]. intros c Hc Hlt. destruct (Hpos c Hc) as [Hc1 Hc0].
    destruct (heap_key_Done pools arr c Hwf) as [_ ?]; [lia|].
    assert (LONG_MAX <= key_at pools arr c); [|lia]. apply Hall; [by apply Hcs|done].
  - right. destruct Hcase as [[-> ->]|(c & -> & Hc & Hc1 & Hmc & Hlt)]; [done|].
    apply Hcs in Hc as [Hc Hcn]; [|done]. destruct (Hpos c Hc) as [_ Hc0].
    destruct (at_index_is_Some arr index) as [a Ha]; [lia|].
    destruct (at_index_is_Some arr c) as [b Hb]; [lia|].
    exists c, a, b. split_and!; try done.
    + intros c' Hc' Hlt'. destruct (Hpos c' Hc'). rewrite <-Hmc. apply Hall; [by apply Hcs|done].
    + cbn. rewrite Ha, Hb. cbn.
      destruct (heap_key_Done pools arr index Hwf Hi) as [-> _].
      destruct (heap_key_Done pools arr c Hwf) as [-> _]; [lia|]. done.
Qed.

(** *** The invariant of the loop *)

(** Only the children of [idx] may be out of order, and they are above the parent of
    [idx]. *)
Record heap_hole (pools : list schTaskPool) (arr : list nat) (k lo idx : Z) : Prop := {
  hole_others : ∀ p c, lo <= p → p ≠ idx → is_child k p c →
    c < Z.of_nat (length arr) → key_at pools arr p <= key_at pools arr c;
  hole_grand : ∀ p c, lo <= p → is_child k p idx → is_child k idx c →
    c < Z.of_nat (length arr) → key_at pools arr p <= key_at pools arr c;
}.

Section sift.
Context (pools : list schTaskPool) (arr : list nat) (k lo idx m : Z) (a b : nat).
Hypothesis (Hk : 0 < k) (Hlo : 0 <= lo <= idx).
Hypothesis (Hm : is_child k idx m) (Hmlt : m < Z.of_nat (length arr)).
Hypothesis (Ha : at_index arr idx = Some a) (Hb : at_index arr m = Some b).

Lemma sift_length : length (sift pools arr idx m a b) = length arr.
Proof. unfold sift. case_match; [apply length_swap|done]. Qed.

Lemma sift_Permutation : sift pools arr idx m a b ≡ₚ arr.
Proof.
  pose proof (is_child_lt k idx m Hk ltac:(lia) Hm). unfold sift. case_match; [|done].
  apply at_index_Some in Ha as [? ?]. apply at_index_Some in Hb as [? ?].
  apply swap_Permutation; [lia|done|done].
Qed.

Lemma sift_key_idx :
  key_at pools (sift pools arr idx m a b) idx
  = Z.min (key_at pools arr m) (key_at pools arr idx).
Proof.
  pose proof (is_child_lt k idx m Hk ltac:(lia) Hm). unfold sift. destruct (Z.ltb_spec (key_at pools arr m) (key_at pools arr idx)); [|lia].
  rewrite Z.min_l by lia. apply key_at_lookup. rewrite Hb, at_index_nat by lia.
  apply at_index_Some in Ha as [? ?]. apply swap_lookup_l; [lia|done].
Qed.

Lemma sift_key_m :
  key_at pools (sift pools arr idx m a b) m
  = Z.max (key_at pools arr m) (key_at pools arr idx).
Proof.
  pose proof (is_child_lt k idx m Hk ltac:(lia) Hm). unfold sift. destruct (Z.ltb_spec (key_at pools arr m) (key_at pools arr idx)); [|lia].
  rewrite Z.max_r by lia. apply key_at_lookup. rewrite Ha, at_index_nat by lia.
  apply at_index_Some in Hb as [? ?]. by apply swap_lookup_r.
Qed.

Lemma sift_key_ne j :
  0 <= j → j ≠ idx → j ≠ m → key_at pools (sift pools arr idx m a b) j = key_at pools arr j.
Proof.
  pose proof (is_child_lt k idx m Hk ltac:(lia) Hm). intros. unfold sift. case_match; [|done].
  apply key_at_lookup. rewrite !at_index_nat by lia. apply swap_lookup_ne; lia.
Qed.

(** Going on from the smallest child keeps the invariant. *)
Lemma sift_hole :
  heap_hole pools arr k lo idx →
  (∀ c, is_child k idx c → c < Z.of_nat (length arr) →
     key_at pools arr m <= key_at pools arr c) →
  heap_hole pools (sift pools arr idx m a b) k lo m.
Proof.
  intros [Ho Hg] Hmin. pose proof (is_child_lt k idx m Hk ltac:(lia) Hm) as Hlt.
  split; rewrite ?sift_length; intros p c Hp Hpm Hc Hcn.
  - pose proof (is_child_lt k p c Hk ltac:(lia) Hc) as Hpc.
    destruct (decide (p = idx)) as [->|Hpi].
    + rewrite sift_key_idx. destruct (decide (c = m)) as [->|]; [rewrite sift_key_m; lia|].
      rewrite sift_key_ne by lia. specialize (Hmin c Hc Hcn). lia.
    + rewrite (sift_key_ne p) by lia.
      destruct (decide (c = m)) as [->|].
      { by destruct Hpi; apply (is_child_unique k _ _ m). }
      destruct (decide (c = idx)) as [->|]; [|rewrite sift_key_ne by lia; auto].
      rewrite sift_key_idx. specialize (Ho p idx Hp Hpi Hc ltac:(lia)).
      specialize (Hg p m Hp Hc Hm Hmlt). lia.
  - rename Hpm into Hpmc. assert (p = idx) as -> by by apply (is_child_unique k _ _ m).
    pose proof (is_child_lt k m c Hk ltac:(lia) Hc) as Hmc.
    rewrite sift_key_idx, sift_key_ne by lia.
    specialize (Ho m c ltac:(lia) ltac:(lia) Hc Hcn). lia.
Qed.
End sift.

Lemma hole_leaf pools arr k lo idx :
  heap_wf pools arr → 0 <= idx < Z.of_nat (length arr) →
  heap_hole pools arr k lo idx →
  (∀ c, is_child k idx c → c < Z.of_nat (length arr) → key_at pools arr c = LONG_MAX) →
  heap_from pools arr k lo.
Proof.
  intros Hwf Hi [Ho _] Hleaf p c Hp Hc Hcn. destruct (decide (p = idx)) as [->|]; [|by apply Ho].
  rewrite (Hleaf c Hc Hcn). by apply heap_key_Done.
Qed.

Lemma heap_from_hole pools arr k idx :
  0 < k → 0 <= idx → heap_from pools arr k (idx + 1) → heap_hole pools arr k idx idx.
Proof.
  intros Hk Hi H. split.
  - intros p c Hp Hpi Hc Hcn. apply H; [lia|done|done].
  - intros p c Hp Hpc. pose proof (is_child_lt k p idx Hk ltac:(lia) Hpc). lia.
Qed.

(** [restoreDown] returns, permutes the array and extends the heap to [lo]. *)
Lemma restoreDown_hole fuel pools arr k lo idx :
  heap_wf pools arr → 0 < k → 0 <= lo <= idx → idx < Z.of_nat (length arr) →
  k * Z.of_nat (length arr) <= INT_MAX →
  Z.of_nat (length arr) - idx <= Z.of_nat fuel →
  heap_hole pools arr k lo idx →
  ∃ arr', restoreDown fuel pools arr (Z.of_nat (length arr)) idx k = Done arr' ∧
    arr' ≡ₚ arr ∧ heap_from pools arr' k lo.
Proof.
  revert arr idx. induction fuel as [|fuel IH]; intros arr idx Hwf Hk Hlo Hi Hmax Hfuel Hhole; [lia|].
  destruct (restoreDown_turn fuel pools arr idx k Hwf Hk ltac:(lia) ltac:(nia))
    as [[-> Hleaf]|(m & a & b & Hm & Hmlt & Ha & Hb & Hmin & ->)].
  - exists arr. split_and!; [done|done|]. eapply hole_leaf; eauto; lia.
  - pose proof (is_child_lt k idx m Hk ltac:(lia) Hm) as Hlt.
    assert (sift pools arr idx m a b ≡ₚ arr) as Hperm by (eapply sift_Permutation; eauto).
    pose proof (sift_length pools arr idx m a b) as Hlen. rewrite <-Hlen.
    destruct (IH (sift pools arr idx m a b) m) as (arr' & Heq & Hp & Hh);
      rewrite ?Hlen; try lia; try done.
    + eapply heap_wf_Permutation; [|exact Hwf]. done.
    + by eapply sift_hole; eauto.
    + rewrite Hlen in Heq. exists arr'. split_and!; [done|by rewrite Hp|done].
Qed.

(** *** The loop over the layers *)

Lemma heapify_loop_spec fuel pools arr j :
  heap_wf pools arr → 0 < Z.of_nat (length arr) →
  SCH_HEAP_BREATH * Z.of_nat (length arr) <= INT_MAX →
  (length arr <= fuel)%nat → Z.of_nat j <= Z.of_nat (length arr) →
  heap_from pools arr SCH_HEAP_BREATH (Z.of_nat j) →
  ∃ arr', heapify_loop fuel pools (Z.of_nat (length arr)) (reverse (seqZ 0 (Z.of_nat j))) arr
          = Done arr' ∧ arr' ≡ₚ arr ∧ is_heap pools arr' SCH_HEAP_BREATH.
Proof.
  revert arr. induction j as [|j IH]; intros arr Hwf Hpos Hmax Hfuel Hj Hheap.
  { exists arr. split_and!; [done|done|]. exact Hheap. }
  rewrite seqZ_S, reverse_app, reverse_singleton. cbn [app heapify_loop].
  rewrite Z.add_0_l.
  destruct (restoreDown_hole fuel pools arr SCH_HEAP_BREATH (Z.of_nat j) (Z.of_nat j))
    as (arr' & -> & Hperm & Hheap'); try lia; try done.
  { apply heap_from_hole; [done|lia|]. by replace (Z.of_nat j + 1) with (Z.of_nat (S j)) by lia. }
  cbn [mbind outcome_bind]. pose proof (Permutation_length Hperm) as Hlen. rewrite <-Hlen.
  destruct (IH arr') as (arr'' & -> & Hp & Hh); rewrite ?Hlen; try lia; try done.
  { by eapply heap_wf_Permutation; [symmetry|]. }
  exists arr''. split_and!; [done|by rewrite Hp|done].
Qed.

Lemma heap_from_leaves pools arr k lo :
  0 < k → Z.of_nat (length arr) <= k * lo + 1 → heap_from pools arr k lo.
Proof. intros Hk Hlen p c Hp (i & Hi & ->) Hc. nia. Qed.

Lemma schHeapify_fuel_spec fuel pools arr :
  heap_wf pools arr → SCH_HEAP_BREATH * Z.of_nat (length arr) <= INT_MAX →
  (length arr < fuel)%nat →
  ∃ arr', schHeapify_fuel fuel pools (Z.of_nat (length arr)) arr = Done arr' ∧
    arr' ≡ₚ arr ∧ is_heap pools arr' SCH_HEAP_BREATH.
Proof.
  intros Hwf Hmax Hfuel. unfold schHeapify_fuel. unfold SCH_HEAP_BREATH, INT_MAX in *.
  rewrite s32_small by (unfold INT_MIN, INT_MAX; lia). unfold checked.
  rewrite (proj2 (is_int_spec _)) by (unfold INT_MIN, INT_MAX; lia). cbn [mbind outcome_bind].
  destruct arr as [|p arr].
  { destruct fuel as [|fuel]; [cbn in Hfuel; lia|]. exists []. split_and!; [done|done|].
    intros q c Hq (i & Hi & ->) Hc. cbn in Hc. lia. }
  set (arr0 := p :: arr) in *. assert (0 < Z.of_nat (length arr0)) as Hpos by (cbn; lia).
  rewrite Z.quot_div_nonneg by lia.
  set (d := (Z.of_nat (length arr0) - 1) / 4).
  assert (0 <= d /\ 4 * d <= Z.of_nat (length arr0) - 1 < 4 * d + 4) as (Hd0 & Hd1 & Hd2).
  { unfold d. pose proof (Z.div_mod (Z.of_nat (length arr0) - 1) 4).
    pose proof (Z.mod_pos_bound (Z.of_nat (length arr0) - 1) 4).
    pose proof (Z.div_pos (Z.of_nat (length arr0) - 1) 4). lia. }
  unfold heapify_indices. replace (d + 1) with (Z.of_nat (Z.to_nat (d + 1))) by lia.
  apply heapify_loop_spec; try done; try (unfold SCH_HEAP_BREATH, INT_MAX; lia).
  rewrite Z2Nat.id by lia. apply heap_from_leaves; [done|unfold SCH_HEAP_BREATH; lia].
Qed.

(** The root of a heap is a minimum. *)
Lemma heap_root_min pools arr k i :
  0 < k → is_heap pools arr k → 0 <= i < Z.of_nat (length arr) →
  key_at pools arr 0 <= key_at pools arr i.
Proof.
  intros Hk Hh. remember (Z.to_nat i) as j eqn:Hj. revert i Hj.
  induction j as [j IH] using lt_wf_ind. intros i -> Hi.
  destruct (decide (i = 0)) as [->|]; [lia|].
  pose proof (parent_is_child k i Hk ltac:(lia)) as Hc.
  assert (0 <= (i - 1) / k) as Hp0 by (apply Z.div_pos; lia).
  pose proof (is_child_lt k _ _ Hk Hp0 Hc) as Hlt.
  etransitivity; [apply (IH (Z.to_nat ((i - 1) / k))); [lia|done|lia]|].
  by apply Hh; [done|done|lia].
Qed.

(** *** On a heap, nothing moves *)

Lemma restoreDown_heap fuel pools arr k idx :
  heap_wf pools arr → 0 < k → 0 <= idx < Z.of_nat (length arr) →
  k * Z.of_nat (length arr) <= INT_MAX → Z.of_nat (length arr) - idx <= Z.of_nat fuel →
  is_heap pools arr k →
  restoreDown fuel pools arr (Z.of_nat (length arr)) idx k = Done arr.
Proof.
  revert idx. induction fuel as [|fuel IH]; intros idx Hwf Hk Hi Hmax Hfuel Hheap; [lia|].
  destruct (restoreDown_turn fuel pools arr idx k Hwf Hk ltac:(lia) ltac:(nia))
    as [[-> _]|(m & a & b & Hm & Hmlt & _ & _ & _ & ->)]; [done|].
  pose proof (is_child_lt k idx m Hk ltac:(lia) Hm) as Hlt.
  pose proof (Hheap idx m ltac:(lia) Hm Hmlt) as Hle. unfold sift.
  rewrite (proj2 (Z.ltb_ge _ _)) by lia. apply IH; try done; lia.
Qed.

(** ** Properties *)

(** C15: [schHeapify] returns for every scheduler of at most 2^29 - 1 pools whose [dheap]
    cells point to pools; it touches only [dheap], which it permutes into a 4-ary
    min-heap on [dheapPriority], so that [dheap[0]] is a pool of least priority. *)
Theorem schHeapify_correct sch :
  heap_wf (ts_pools sch) (ts_dheaps sch) →
  ts_num sch = Z.of_nat (length (ts_dheaps sch)) →
  SCH_HEAP_BREATH * ts_num sch <= INT_MAX →
  ∃ arr, schHeapify sch = Done (sch <| ts_dheaps := arr |>) ∧
    arr ≡ₚ ts_dheaps sch ∧
    is_heap (ts_pools sch) arr SCH_HEAP_BREATH ∧
    (∀ i, 0 <= i < ts_num sch →
       key_at (ts_pools sch) arr 0 <= key_at (ts_pools sch) arr i).
Proof.
  intros Hwf Hnum Hmax. unfold schHeapify. rewrite Hnum in *.
  destruct (schHeapify_fuel_spec (S (length (ts_dheaps sch))) (ts_pools sch) (ts_dheaps sch))
    as (arr & -> & Hperm & Hheap); try done; [lia|].
  exists arr. split_and!; try done. intros i Hi. eapply heap_root_min; [|done|]; [done|].
  by rewrite (Permutation_length Hperm).
Qed.

Definition ex_pool (prio : Z) : schTaskPool :=
  mkPool 0 0 0 0 0 0 0 0 0 [] 0 0 0 0 prio 0 0 0.
Definition ex_sch (prios : list Z) : schTaskSch :=
  mkSch (Z.of_nat (length prios)) 0 (ex_pool <$> prios) 0 0 (seq 0 (length prios)) 0 0 0 0 0.

Lemma schHeapify_correct_witness :
  ∃ arr, schHeapify (ex_sch [50; 3; 8; 1; 9; 2; 7; 0; 4; 6])
         = Done ((ex_sch [50; 3; 8; 1; 9; 2; 7; 0; 4; 6]) <| ts_dheaps := arr |>) ∧
    arr ≡ₚ seq 0 10 ∧ is_heap (ex_pool <$> [50; 3; 8; 1; 9; 2; 7; 0; 4; 6]) arr 4 ∧
    (∀ i, 0 <= i < 10 →
       key_at (ex_pool <$> [50; 3; 8; 1; 9; 2; 7; 0; 4; 6]) arr 0
       <= key_at (ex_pool <$> [50; 3; 8; 1; 9; 2; 7; 0; 4; 6]) arr i).
Proof.
  apply (schHeapify_correct (ex_sch [50; 3; 8; 1; 9; 2; 7; 0; 4; 6])).
  - repeat (apply List.Forall_cons; [eexists; split; reflexivity|]). apply List.Forall_nil.
  - reflexivity.
  - vm_compute. discriminate.
Defined.

(** On a [dheap] that is already a heap, [schHeapify] moves nothing. *)
Theorem schHeapify_idempotent sch :
  heap_wf (ts_pools sch) (ts_dheaps sch) →
  ts_num sch = Z.of_nat (length (ts_dheaps sch)) → 0 < ts_num sch →
  SCH_HEAP_BREATH * ts_num sch <= INT_MAX →
  is_heap (ts_pools sch) (ts_dheaps sch) SCH_HEAP_BREATH →
  schHeapify sch = Done sch.
Proof.
  intros Hwf Hnum Hpos Hmax Hheap. unfold schHeapify, schHeapify_fuel.
  rewrite Hnum in *. unfold SCH_HEAP_BREATH, INT_MAX in Hmax.
  rewrite s32_small by (unfold INT_MIN, INT_MAX; lia). unfold checked.
  rewrite (proj2 (is_int_spec _)) by (unfold INT_MIN, INT_MAX; lia). cbn [mbind outcome_bind].
  assert (∀ idxs, (∀ i, i ∈ idxs → 0 <= i < Z.of_nat (length (ts_dheaps sch))) →
    heapify_loop (S (length (ts_dheaps sch))) (ts_pools sch)
      (Z.of_nat (length (ts_dheaps sch))) idxs (ts_dheaps sch) = Done (ts_dheaps sch)) as Hloop.
  { induction idxs as [|i idxs IH]; intros Hin; [done|]. cbn [heapify_loop].
    assert (0 <= i < Z.of_nat (length (ts_dheaps sch))) by (apply Hin; left).
    rewrite restoreDown_heap; try done; try (unfold SCH_HEAP_BREATH, INT_MAX; lia).
    apply IH. intros. apply Hin. by right. }
  rewrite Hloop.
  - by destruct sch.
  - intros i. unfold heapify_indices. rewrite elem_of_reverse, elem_of_seqZ.
    unfold SCH_HEAP_BREATH. rewrite Z.quot_div_nonneg by lia.
    pose proof (Z.div_mod (Z.of_nat (length (ts_dheaps sch)) - 1) 4).
    pose proof (Z.mod_pos_bound (Z.of_nat (length (ts_dheaps sch)) - 1) 4). lia.
Qed.

Lemma schHeapify_idempotent_witness : schHeapify (ex_sch [1; 5; 2]) = Done (ex_sch [1; 5; 2]).
Proof.
  apply schHeapify_idempotent; [|done|done|vm_compute; discriminate|].
  - repeat (apply List.Forall_cons; [eexists; split; reflexivity|]). apply List.Forall_nil.
  - intros p c Hp (i & Hi & ->) Hc. unfold SCH_HEAP_BREATH in *. cbn in Hc.
    assert (p = 0 ∧ (i = 1 ∨ i = 2)) as [-> [-> | ->]] by lia; vm_compute; discriminate.
Defined.

(** The index computations of the heap agree: the parent of the [n]-th child is the
    node it was computed from, and the children [restoreDown] visits are the ones
    [getChildIndex] gives. *)
Theorem heap_index_roundtrip p n k c :
  0 <= p → 0 <= n < k →
  getParentIndex (getChildIndex p n k) k = p ∧
  (is_child k p c ↔ ∃ n', 0 <= n' < k ∧ c = getChildIndex p n' k).
Proof.
  intros Hp Hn. unfold getParentIndex, getChildIndex. split.
  - rewrite Z.quot_div_nonneg by nia. symmetry. apply Z.div_unique with n; lia.
  - split.
    + intros (i & Hi & ->). exists (i - 1). lia.
    + intros (n' & Hn' & ->). exists (n' + 1). lia.
Qed.

Lemma heap_index_roundtrip_witness :
  getParentIndex (getChildIndex 2 3 4) 4 = 2 ∧
  (is_child 4 2 12 ↔ ∃ n', 0 <= n' < 4 ∧ 12 = getChildIndex 2 n' 4).
Proof. apply (heap_index_roundtrip 2 3 4 12); lia. Defined.
