(* ===== verification/QueueSpec.v ===== *)
(** * What a pool promises of its queue

    [BoundedQueue] is the contract between the queue of a pool (TaskQueue.v) and the
    code that submits and runs tasks: first in, first out, at most [bq_capacity]
    elements.  [FifoSpec] is the reference queue, a list; [queue_refines] says that any
    implementation of the contract answers every sequence of operations as the
    reference queue does. *)
From S2P Require Import Prelude.

Class BoundedQueue (Q E : Type) := {
  bq_ok : Q → Prop;
  bq_contents : Q → list E;
  bq_capacity : Q → nat;
  bq_push : E → Q → outcome Q;
  bq_pop : Q → outcome (E * Q);
  bq_bounded q : bq_ok q → (length (bq_contents q) <= bq_capacity q)%nat;
  bq_push_ok q x : bq_ok q → (length (bq_contents q) < bq_capacity q)%nat →
    ∃ q', bq_push x q = Done q' ∧ bq_ok q' ∧ bq_contents q' = bq_contents q ++ [x] ∧
      bq_capacity q' = bq_capacity q;
  bq_pop_ok q x xs : bq_ok q → bq_contents q = x :: xs →
    ∃ q', bq_pop q = Done (x, q') ∧ bq_ok q' ∧ bq_contents q' = xs ∧
      bq_capacity q' = bq_capacity q;
}.

(** The operations a client performs: it submits a task or takes the next one. *)
Inductive queue_op (E : Type) : Type :=
  | Push (x : E)
  | Pop.
Arguments Push {_} _.
Arguments Pop {_}.

(** ** The reference queue *)
Module FifoSpec.
Section spec.
Context {E : Type} (capacity : nat).

(** The answers ([Some x] for a [Pop]) and the final contents; [None] when a [Push]
    meets a full queue or a [Pop] an empty one. *)
Fixpoint run (ops : list (queue_op E)) (l : list E) : option (list E * list E) :=
  match ops with
  | [] => Some ([], l)
  | Push x :: ops =>
      if decide (length l < capacity)%nat then run ops (l ++ [x]) else None
  | Pop :: ops =>
      match l with
      | [] => None
      | y :: l => '(out, l') ← run ops l; Some (y :: out, l')
      end
  end.

Definition pushes (ops : list (queue_op E)) : list E :=
  omap (λ op, match op with Push x => Some x | Pop => None end) ops.

(** First in, first out: what came out, followed by what is left, is what was there
    followed by what came in. *)
Lemma run_fifo ops l out l' : run ops l = Some (out, l') → out ++ l' = l ++ pushes ops.
Proof.
  revert l out l'. induction ops as [|[x|] ops IH]; intros l out l'; cbn.
  - intros [= <- <-]. by rewrite app_nil_r.
  - case_decide; [|done]. intros ->%IH. by rewrite <-app_assoc.
  - destruct l as [|y l]; [done|]. destruct (run ops l) as [[out0 l0]|] eqn:Hr; [|done].
    cbn. intros [= <- <-]. cbn. f_equal. by apply IH.
Qed.
End spec.
End FifoSpec.

(** ** Clients of the contract *)
Section client.
Context {Q E : Type} `{BQ : BoundedQueue Q E}.

(** The same operations on an implementation. *)
Fixpoint queue_run (ops : list (queue_op E)) (q : Q) : outcome (list E * Q) :=
  match ops with
  | [] => Done ([], q)
  | Push x :: ops => q ← bq_push x q; queue_run ops q
  | Pop :: ops =>
      '(y, q) ← bq_pop q;
      '(out, q') ← queue_run ops q;
      Done (y :: out, q')
  end.

Lemma queue_run_refines ops q out l' :
  bq_ok q → FifoSpec.run (bq_capacity q) ops (bq_contents q) = Some (out, l') →
  ∃ q', queue_run ops q = Done (out, q') ∧ bq_ok q' ∧ bq_contents q' = l' ∧
    bq_capacity q' = bq_capacity q.
Proof.
  revert q out. induction ops as [|[x|] ops IH]; intros q out Hq; cbn.
  - intros [= <- <-]. eauto.
  - case_decide as Hlt; [|done]. intros Hr.
    destruct (bq_push_ok q x Hq Hlt) as (q1 & -> & Hq1 & Hc & Hcap). cbn.
    destruct (IH q1 out Hq1) as (q' & -> & ? & ? & ?); [by rewrite Hc, Hcap|].
    exists q'. split_and!; [done..|congruence].
  - destruct (bq_contents q) as [|y l] eqn:Hl; [done|].
    destruct (FifoSpec.run (bq_capacity q) ops l) as [[out0 l0]|] eqn:Hr; [|done].
    cbn. intros [= <- <-]. destruct (bq_pop_ok q y l Hq Hl) as (q1 & -> & Hq1 & Hc & Hcap).
    cbn. destruct (IH q1 out0 Hq1) as (q' & -> & ? & ? & ?); [by rewrite Hc, Hcap|].
    cbn. exists q'. split_and!; [done..|congruence].
Qed.
End client.
