(* ===== verification/TaskQueue.v ===== *)
(** * The task queue of a pool ([schQueueMutexEnDeQueue] of src/taskSch.c)

    The queue of a pool is the ring [package[head .. head + size)] of [reserved]
    cells.  [queue_critical] is the code between the lock and the unlock of the spin
    lock; the locked function is in Scheduler.v and the interleavings of its accesses
    in Concurrency.v. *)
From S2P Require Import Prelude Structures QueueSpec.

(** The pointer the function returns: the address of a cell of [package], or the
    argument [enqueue]. *)
Inductive queue_ptr : Type :=
  | Cell (i : Z)
  | Argument.

Definition queue_critical (taskPool : schTaskPool) (dequeue : Z)
    (enqueue : option schTaskPackage) : outcome (queue_ptr * schTaskPool) :=
  if truthy dequeue then
    let taskPool := taskPool <| tp_size := u32 (tp_size taskPool - 1) |> in
    let package := Cell (tp_head taskPool) in
    head ← umod (u32 (tp_head taskPool + 1)) (tp_reserved taskPool);
    mret (package, taskPool <| tp_head := head |>)
  else
    package ← deref enqueue;
    packages ← store (tp_packages taskPool) (tp_tail taskPool) package;
    let taskPool := taskPool <| tp_packages := packages |> in
    tail ← umod (u32 (tp_tail taskPool + 1)) (tp_reserved taskPool);
    let taskPool := taskPool <| tp_tail := tail |> in
    mret (Argument, taskPool <| tp_size := u32 (tp_size taskPool + 1) |>).

(** The queue operations touch the queue only. *)
Lemma queue_critical_flag pool d x ptr pool' :
  queue_critical pool d x = Done (ptr, pool') → tp_flag pool' = tp_flag pool.
Proof.
  unfold queue_critical. destruct (truthy d); intros Hq; inv_done; unfold mret, outcome_ret in *;
    by simplify_eq.
Qed.

(** ** Specification *)

Record ring_wf (p : schTaskPool) : Prop := {
  ring_reserved : 0 < tp_reserved p < UINT_MOD;
  ring_length : Z.of_nat (length (tp_packages p)) = tp_reserved p;
  ring_head : 0 <= tp_head p < tp_reserved p;
  ring_size : 0 <= tp_size p <= tp_reserved p;
  ring_tail : tp_tail p = (tp_head p + tp_size p) mod tp_reserved p;
}.

(** The queued tasks, oldest first. *)
Definition ring_contents (p : schTaskPool) : list schTaskPackage :=
  (λ i, tp_packages p !!! Z.to_nat ((tp_head p + i) mod tp_reserved p)) <$> seqZ 0 (tp_size p).

Lemma length_ring_contents p : length (ring_contents p) = Z.to_nat (tp_size p).
Proof. unfold ring_contents. by rewrite length_fmap, length_seqZ. Qed.

Section ring.
Context (p : schTaskPool) (Hp : ring_wf p).

Lemma ring_tail_range : 0 <= tp_tail p < tp_reserved p.
Proof. destruct Hp as [? ? ? ? ->]. apply Z.mod_pos_bound. lia. Qed.

(** The position after [i], as the code computes it. *)
Lemma ring_next i :
  0 <= i < tp_reserved p → umod (u32 (i + 1)) (tp_reserved p) = Done ((i + 1) mod tp_reserved p).
Proof.
  intros Hi. destruct Hp. rewrite u32_small by lia. unfold umod. by rewrite decide_False by lia.
Qed.

(** Enqueuing, on a queue that is not full. *)
Definition pushed (x : schTaskPackage) : schTaskPool :=
  p <| tp_packages := <[Z.to_nat (tp_tail p) := x]> (tp_packages p) |>
    <| tp_tail := (tp_tail p + 1) mod tp_reserved p |>
    <| tp_size := tp_size p + 1 |>.

Lemma queue_enqueue x :
  tp_size p < tp_reserved p → queue_critical p 0 (Some x) = Done (Argument, pushed x).
Proof.
  intros Hs. pose proof ring_tail_range as Ht. destruct Hp as [Hr Hl Hh Hsz _].
  unfold queue_critical. cbn. rewrite store_in by lia. cbn. rewrite ring_next by lia. cbn.
  rewrite u32_small by lia. done.
Qed.

Lemma pushed_wf x : tp_size p < tp_reserved p → ring_wf (pushed x).
Proof.
  intros Hs. destruct Hp as [Hr Hl Hh Hsz Ht]. split; cbn; try lia.
  - by rewrite length_insert.
  - rewrite Ht, Zplus_mod_idemp_l. f_equal. lia.
Qed.

Lemma pushed_contents x :
  tp_size p < tp_reserved p → ring_contents (pushed x) = ring_contents p ++ [x].
Proof.
  intros Hs. pose proof ring_tail_range. destruct Hp as [Hr Hl Hh Hsz Ht].
  unfold ring_contents. cbn [tp_packages tp_head tp_reserved tp_size pushed set const].
  cbn. replace (tp_size p + 1) with (Z.of_nat (S (Z.to_nat (tp_size p)))) by lia.
  rewrite seqZ_S, fmap_app, Z2Nat.id, Z.add_0_l by lia. f_equal.
  - apply list_fmap_ext. intros j i [-> Hi]%lookup_seqZ.
    rewrite list_lookup_total_insert_ne; [done|].
    intros Heq%Z2Nat.inj; [|lia|apply Z.mod_pos_bound; lia].
    rewrite Ht in Heq. apply ring_pos_inj in Heq; lia.
  - cbn. rewrite <-Ht, list_lookup_total_insert_eq; [done|]. lia.
Qed.

(** Dequeuing, on a queue that is not empty. *)
Definition popped : schTaskPool :=
  p <| tp_size := tp_size p - 1 |> <| tp_head := (tp_head p + 1) mod tp_reserved p |>.

Lemma queue_dequeue arg :
  0 < tp_size p → queue_critical p 1 arg = Done (Cell (tp_head p), popped).
Proof.
  intros Hs. destruct Hp as [Hr Hl Hh Hsz Ht]. unfold queue_critical. cbn.
  rewrite ring_next by lia. cbn. rewrite u32_small by lia. done.
Qed.

Lemma popped_wf : 0 < tp_size p → ring_wf popped.
Proof.
  intros Hs. destruct Hp as [Hr Hl Hh Hsz Ht]. split; cbn; try lia.
  - apply Z.mod_pos_bound. lia.
  - rewrite Ht, Zplus_mod_idemp_l. f_equal. lia.
Qed.

Lemma popped_contents :
  0 < tp_size p →
  ∃ x, at_index (tp_packages p) (tp_head p) = Some x ∧ ring_contents p = x :: ring_contents popped.
Proof.
  intros Hs. destruct Hp as [Hr Hl Hh Hsz Ht].
  destruct (at_index_is_Some (tp_packages p) (tp_head p)) as [x Hx]; [lia|].
  exists x. split; [done|]. unfold ring_contents. cbn.
  rewrite seqZ_cons by lia. cbn. f_equal.
  - apply at_index_Some in Hx as [_ Hx]. rewrite Z.add_0_r, Z.mod_small by lia.
    by apply list_lookup_total_correct.
  - replace (Z.succ 0) with (1 + 0) by lia. rewrite <-Z.sub_1_r, <-fmap_add_seqZ.
    rewrite <-list_fmap_compose. apply list_fmap_ext. intros j i _. cbn. do 2 f_equal.
    rewrite Zplus_mod_idemp_l. f_equal. lia.
Qed.
End ring.

(** ** The contract *)

(** Taking a task: [schQueueMutexEnDeQueue(pool, 1, NULL)], and the read of the cell it
    returns before any other access. *)
Definition ring_take (p : schTaskPool) : outcome (schTaskPackage * schTaskPool) :=
  '(ptr, p') ← queue_critical p 1 None;
  match ptr with
  | Cell i => x ← deref (at_index (tp_packages p') i); mret (x, p')
  | Argument => Undef
  end.

Definition ring_put (x : schTaskPackage) (p : schTaskPool) : outcome schTaskPool :=
  '(_, p') ← queue_critical p 0 (Some x); mret p'.

Lemma ring_take_Done p x xs :
  ring_wf p → ring_contents p = x :: xs →
  ring_take p = Done (x, popped p) ∧ ring_wf (popped p) ∧ ring_contents (popped p) = xs.
Proof.
  intros Hp Hc. assert (0 < tp_size p) as Hs.
  { pose proof (length_ring_contents p) as Hl. rewrite Hc in Hl. cbn in Hl. lia. }
  destruct (popped_contents p Hp Hs) as (y & Hy & Hc'). rewrite Hc in Hc'.
  injection Hc' as -> ->. unfold ring_take. rewrite (queue_dequeue p Hp) by done. cbn.
  rewrite Hy. cbn. split_and!; [done|by apply popped_wf|done].
Qed.

Lemma ring_put_Done p x :
  ring_wf p → tp_size p < tp_reserved p →
  ring_put x p = Done (pushed p x) ∧ ring_wf (pushed p x) ∧
  ring_contents (pushed p x) = ring_contents p ++ [x].
Proof.
  intros Hp Hs. unfold ring_put. rewrite (queue_enqueue p Hp) by done.
  split_and!; [done|by apply pushed_wf|by apply pushed_contents].
Qed.

#[export] Program Instance task_queue : BoundedQueue schTaskPool schTaskPackage := {|
  bq_ok := ring_wf;
  bq_contents := ring_contents;
  bq_capacity p := Z.to_nat (tp_reserved p);
  bq_push := ring_put;
  bq_pop := ring_take;
|}.
Next Obligation. intros p Hp. rewrite length_ring_contents. destruct Hp. lia. Qed.
Next Obligation.
  intros p x Hp Hs. destruct (ring_put_Done p x Hp) as (? & ? & ?); [|by eauto].
  revert Hs. cbn [bq_contents bq_capacity]. rewrite length_ring_contents. destruct Hp. lia.
Qed.
Next Obligation.
  intros p x xs Hp Hc. destruct (ring_take_Done p x xs Hp Hc) as (? & ? & ?). by exists (popped p).
Qed.

(** ** The cell a dequeue returns *)

(** A push writes the cell at [tail] and leaves the others. *)
Lemma pushed_cell p x j :
  ring_wf p → 0 <= j < tp_reserved p →
  at_index (tp_packages (pushed p x)) j
  = if decide (j = tp_tail p) then Some x else at_index (tp_packages p) j.
Proof.
  intros Hp Hj. pose proof (ring_tail_range p Hp). pose proof (ring_length p Hp).
  unfold pushed. cbn. rewrite !at_index_nat by lia. case_decide as Hjt.
  - subst. apply list_lookup_insert_eq. lia.
  - apply list_lookup_insert_ne. lia.
Qed.

(** Writing the cell a dequeue returned, before it is reused, leaves the queue alone. *)
Definition write_cell (i : Z) (x : schTaskPackage) (p : schTaskPool) : schTaskPool :=
  p <| tp_packages ::= <[Z.to_nat i := x]> |>.

Lemma popped_write p x :
  ring_wf p → 0 < tp_size p →
  ring_wf (write_cell (tp_head p) x (popped p)) ∧
  ring_contents (write_cell (tp_head p) x (popped p)) = ring_contents (popped p).
Proof.
  intros Hp Hs. destruct (popped_wf p Hp Hs) as [Hr Hl Hh Hsz Ht]. split.
  - split; try done. cbn in *. by rewrite length_insert.
  - unfold ring_contents. cbn in *. apply list_fmap_ext. intros j i [-> Hi]%lookup_seqZ.
    apply list_lookup_total_insert_ne. destruct Hp as [Hr' Hl' Hh' Hsz' Ht'].
    rewrite Zplus_mod_idemp_l. intros Heq%Z2Nat.inj; [|lia|apply Z.mod_pos_bound; lia].
    rewrite <-(Z.mod_small (tp_head p) (tp_reserved p)) in Heq at 1 by lia.
    rewrite <-Z.add_assoc in Heq. rewrite <-(Z.add_0_r (tp_head p)) in Heq at 1.
    apply ring_pos_inj in Heq; lia.
Qed.

Lemma queue_run_push x ops (p p1 : schTaskPool) :
  ring_put x p = Done p1 → queue_run (Push x :: ops) p = queue_run ops p1.
Proof. intros H. cbn [queue_run]. change (bq_push x p) with (ring_put x p). by rewrite H. Qed.

(** [s] is the distance from the cell [h] to [tail]: pushes that do not reach [h] again
    leave it. *)
Lemma pushes_keep_cell xs p h s :
  ring_wf p → 0 <= h < tp_reserved p → tp_tail p = (h + s) mod tp_reserved p →
  1 <= s → s + Z.of_nat (length xs) <= tp_reserved p →
  tp_size p + Z.of_nat (length xs) <= tp_reserved p →
  ∃ p', queue_run (Push <$> xs) p = Done ([], p') ∧ ring_wf p' ∧
    tp_reserved p' = tp_reserved p ∧ tp_size p' = tp_size p + Z.of_nat (length xs) ∧
    tp_tail p' = (h + s + Z.of_nat (length xs)) mod tp_reserved p ∧
    at_index (tp_packages p') h = at_index (tp_packages p) h.
Proof.
  revert p s. induction xs as [|x xs IH]; intros p s Hp Hh Ht Hs Hd Hsz.
  { exists p. cbn. rewrite !Z.add_0_r. done. }
  cbn [length] in *. destruct (ring_put_Done p x Hp) as (Hput & Hp1 & _); [lia|].
  destruct (IH (pushed p x) (s + 1) Hp1) as (p' & Hrun & Hp' & Hr & Hsz' & Ht' & Hcell).
  { done. }
  { cbn. rewrite Ht, Zplus_mod_idemp_l. f_equal. lia. }
  { lia. }
  { cbn. lia. }
  { cbn. lia. }
  exists p'. cbn [fmap list_fmap]. rewrite (queue_run_push _ _ _ _ Hput). split_and!; [done..| | | ].
  - rewrite Hsz'. cbn. lia.
  - rewrite Ht'. cbn. f_equal. lia.
  - rewrite Hcell, pushed_cell by done. rewrite decide_False; [done|].
    rewrite Ht. intros Heq. assert (0 = s); [|lia].
    apply (ring_pos_inj (tp_reserved p) h); [lia|lia|].
    by rewrite <-Heq, Z.add_0_r, Z.mod_small.
Qed.

(** ** Properties *)

(** C18: from any well-formed ring, every sequence of enqueues and dequeues that never
    meets a full or an empty queue runs without undefined behaviour, answers exactly as
    a first-in first-out list of at most [reserved] tasks, and ends in a well-formed
    ring: no task is lost, duplicated or reordered. *)
Theorem task_queue_fifo p ops out l :
  ring_wf p →
  FifoSpec.run (Z.to_nat (tp_reserved p)) ops (ring_contents p) = Some (out, l) →
  ∃ p', queue_run ops p = Done (out, p') ∧ ring_wf p' ∧ ring_contents p' = l ∧
    out ++ ring_contents p' = ring_contents p ++ FifoSpec.pushes ops.
Proof.
  intros Hp Hrun. destruct (queue_run_refines (BQ := task_queue) ops p out l Hp Hrun) as (p' & ? & ? & Hc & _).
  change (ring_contents p' = l) in Hc. exists p'. split_and!; [done..|].
  rewrite Hc. by eapply FifoSpec.run_fifo.
Qed.

Definition ex_task (callback : Z) : schTaskPackage := mkPackage 0 0 callback 0 0 0 0 0.
(** A pool of three cells that starts at cell 2. *)
Definition ex_ring : schTaskPool :=
  mkPool 0 0 0 0 0 2 2 3 0 [ex_task 0; ex_task 0; ex_task 0] 0 0 0 0 0 0 0 0.
Lemma ex_ring_wf : ring_wf ex_ring.
Proof. split; vm_compute; intuition discriminate. Qed.

Lemma task_queue_fifo_witness :
  ∃ p', queue_run [Push (ex_task 1); Push (ex_task 2); Pop; Push (ex_task 3)] ex_ring
        = Done ([ex_task 1], p') ∧ ring_wf p' ∧ ring_contents p' = [ex_task 2; ex_task 3] ∧
    [ex_task 1] ++ ring_contents p' = [ex_task 1; ex_task 2; ex_task 3].
Proof.
  apply (task_queue_fifo ex_ring [Push (ex_task 1); Push (ex_task 2); Pop; Push (ex_task 3)]).
  - exact ex_ring_wf.
  - reflexivity.
Defined.

(** Outside its guard the ring goes wrong without noticing.  An enqueue on a full
    queue overwrites the oldest task and counts one more than there are cells; a dequeue
    on an empty queue leaves a size of 2^32 - 1; with no cells at all, both are
    undefined. *)
Theorem task_queue_out_of_guard p x :
  ring_wf p →
  (tp_size p = tp_reserved p →
     ∃ p', queue_critical p 0 (Some x) = Done (Argument, p') ∧
       at_index (tp_packages p') (tp_head p) = Some x ∧
       tp_size p' = u32 (tp_reserved p + 1) ∧ ¬ ring_wf p') ∧
  (tp_size p = 0 →
     ∃ p', queue_critical p 1 None = Done (Cell (tp_head p), p') ∧
       tp_size p' = UINT_MOD - 1 ∧ ¬ ring_wf p') ∧
  queue_critical (p <| tp_reserved := 0 |>) 1 None = Undef ∧
  queue_critical (p <| tp_reserved := 0 |> <| tp_packages := [] |>) 0 (Some x) = Undef.
Proof.
  intros Hp. pose proof (ring_tail_range p Hp) as Htr. pose proof (ring_next p Hp) as Hnext.
  pose proof Hp as [Hr Hl Hh Hs Ht]. split_and!.
  - intros Hfull. unfold queue_critical. cbn. rewrite store_in by lia. cbn.
    rewrite Hnext by lia. cbn. eexists. split_and!; [done| | |].
    + assert (tp_tail p = tp_head p) as ->.
      { rewrite Ht, Hfull, <-Zplus_mod_idemp_r, Z.mod_same, Z.add_0_r by lia.
        by apply Z.mod_small. }
      rewrite at_index_nat by lia. apply (list_lookup_insert_eq (tp_packages p)). lia.
    + cbn. by rewrite Hfull.
    + intros [_ _ _ Hs' Ht']. cbn in *. rewrite Hfull in *.
      destruct (decide (tp_reserved p + 1 = UINT_MOD)) as [He|].
      * rewrite He in Ht'. replace (u32 UINT_MOD) with 0 in Ht' by done.
        rewrite Z.add_0_r, (Z.mod_small (tp_head p)) in Ht' by lia.
        rewrite Ht, Zplus_mod_idemp_l in Ht'.
        assert (1 = 0); [|lia]. apply (ring_pos_inj (tp_reserved p) (tp_head p)); try lia.
        -- unfold UINT_MOD in *. lia.
        -- rewrite Z.add_0_r, (Z.mod_small (tp_head p)) by lia. rewrite <-Ht' at 2.
           replace (tp_head p + tp_reserved p + 1) with (tp_head p + 1 + 1 * tp_reserved p) by lia.
           by rewrite Z_mod_plus_full.
      * rewrite u32_small in Hs' by lia. lia.
  - intros Hempty. unfold queue_critical. cbn. rewrite Hnext by lia. cbn. eexists.
    split_and!; [done|by cbn; rewrite Hempty|]. intros [_ _ _ Hs' Ht'].
    change (0 <= u32 (tp_size p - 1) <= tp_reserved p) in Hs'.
    change (tp_tail p = ((tp_head p + 1) mod tp_reserved p + u32 (tp_size p - 1))
      mod tp_reserved p) in Ht'.
    rewrite Hempty in *. replace (u32 (0 - 1)) with (UINT_MOD - 1) in * by done.
    assert (tp_reserved p = UINT_MOD - 1) as Hmax by lia. rewrite <-Hmax in Ht'.
    rewrite Ht, Zplus_mod_idemp_l in Ht'.
    replace (tp_head p + 1 + tp_reserved p) with (tp_head p + 1 + 1 * tp_reserved p) in Ht' by lia.
    rewrite Z_mod_plus_full in Ht'.
    assert (0 = 1); [|lia]. eapply (ring_pos_inj (tp_reserved p)); [| |exact Ht'];
      unfold UINT_MOD in *; lia.
  - done.
  - unfold queue_critical. cbn. unfold store. rewrite decide_False; [done|]. cbn. lia.
Qed.

Lemma task_queue_out_of_guard_witness :
  ∃ p', queue_critical ex_ring 1 None = Done (Cell 2, p') ∧ tp_size p' = UINT_MOD - 1 ∧
    ¬ ring_wf p'.
Proof. apply (task_queue_out_of_guard ex_ring (ex_task 9) ex_ring_wf). reflexivity. Defined.

(** The cell a dequeue returns stays part of the ring.  The task in it survives while
    later enqueues leave one cell free, and the enqueue that fills the queue again, which
    the size check of [schSubmitTask] lets through, writes over it. *)
Theorem dequeued_cell_reused p xs y x :
  ring_wf p → 0 < tp_size p → at_index (tp_packages p) (tp_head p) = Some x →
  tp_size p + Z.of_nat (length xs) = tp_reserved p →
  ∃ p1 p2 p3,
    queue_critical p 1 None = Done (Cell (tp_head p), p1) ∧
    queue_run (Push <$> xs) p1 = Done ([], p2) ∧
    at_index (tp_packages p2) (tp_head p) = Some x ∧
    tp_size p2 < tp_reserved p2 ∧
    queue_critical p2 0 (Some y) = Done (Argument, p3) ∧
    at_index (tp_packages p3) (tp_head p) = Some y.
Proof.
  intros Hp Hs Hx Hlen. pose proof Hp as [Hr Hl Hh Hsz Ht].
  destruct (pushes_keep_cell xs (popped p) (tp_head p) (tp_size p))
    as (p2 & Hrun & Hp2 & Hr2 & Hs2 & Ht2 & Hcell).
  { by apply popped_wf. }
  { done. }
  { done. }
  { lia. }
  { cbn. lia. }
  { cbn. lia. }
  change (tp_reserved (popped p)) with (tp_reserved p) in *.
  change (tp_size (popped p)) with (tp_size p - 1) in *.
  change (tp_packages (popped p)) with (tp_packages p) in *.
  assert (tp_size p2 < tp_reserved p2) as Hlt by lia.
  exists (popped p), p2, (pushed p2 y). split_and!; [by rewrite queue_dequeue|done| |done| |].
  - by rewrite Hcell.
  - by apply queue_enqueue.
  - rewrite pushed_cell by (done || lia). rewrite decide_True; [done|].
    rewrite Ht2. replace (tp_head p + tp_size p + Z.of_nat (length xs))
      with (tp_head p + 1 * tp_reserved p) by lia.
    by rewrite Z_mod_plus_full, Z.mod_small.
Qed.

(** A full queue of one cell: the task being run is overwritten by the next submit. *)
Definition ex_full : schTaskPool := mkPool 0 0 0 0 1 0 0 1 0 [ex_task 7] 0 0 0 0 0 0 0 0.

Lemma dequeued_cell_reused_witness :
  ∃ p1 p2 p3,
    queue_critical ex_full 1 None = Done (Cell 0, p1) ∧ queue_run [] p1 = Done ([], p2) ∧
    at_index (tp_packages p2) 0 = Some (ex_task 7) ∧ tp_size p2 < tp_reserved p2 ∧
    queue_critical p2 0 (Some (ex_task 8)) = Done (Argument, p3) ∧
    at_index (tp_packages p3) 0 = Some (ex_task 8).
Proof.
  apply (dequeued_cell_reused ex_full []); [|done..].
  split; vm_compute; intuition discriminate.
Defined.
