(* ===== verification/PoolAllocator.v ===== *)
(** * The pool allocator (src/poolAllocator.c)

    A pool is one block obtained from [calloc], cut in [num] nodes of
    [itemsize + sizeof(SchPoolNode)] bytes; a node starts with the pointer [next] of the
    free list, and the rest is the item.  The first node is the head of the free list
    and is never handed out.

    Memory is a map from addresses to the pointers stored there, with the live blocks of
    the heap; a pointer is read and written at a multiple of its size, inside a live
    block, and anything else is undefined.  The heap itself is the C library's: the class
    [LibcHeap] gives [calloc] and [malloc] by the properties their documentation
    promises. *)
From S2P Require Import Prelude.

Record mem : Type := mkMem {
  words : gmap Z Z;
  blocks : gmap Z Z; (* start of a live block ↦ its size in bytes *)
}.

(** The [n] bytes from [a] are inside one live block. *)
Definition live (m : mem) (a n : Z) : bool :=
  bool_decide (map_Exists (λ b sz, b <= a ∧ a + n <= b + sz) (blocks m)).

Definition sizeof_ptr : Z := 8.

Definition access_ok (m : mem) (a : Z) : bool := (a mod sizeof_ptr =? 0) && live m a sizeof_ptr.

Definition load (m : mem) (a : Z) : outcome Z :=
  if access_ok m a then deref (words m !! a) else Undef.

Definition store_ptr (m : mem) (a v : Z) : outcome mem :=
  if access_ok m a then Done (m <| words ::= <[a := v]> |>) else Undef.

Definition free (p : Z) (m : mem) : outcome mem :=
  if decide (p = NULL) then Done m
  else match blocks m !! p with
       | Some _ => Done (m <| blocks ::= delete p |>)
       | None => Undef
       end.

(** No byte of [p, p + n) is in a live block. *)
Definition fresh_block (m : mem) (p n : Z) : Prop :=
  map_Forall (λ b sz, b + sz <= p ∨ p + n <= b) (blocks m) ∧ blocks m !! p = None.

(** A new block at [p], the other blocks and their contents as they were. *)
Record allocated (m : mem) (p n : Z) (m' : mem) : Prop := {
  alloc_pos : 0 < p;
  alloc_aligned : p mod 16 = 0;
  alloc_range : p + n <= SIZE_MOD;
  alloc_fresh : fresh_block m p n;
  alloc_blocks : blocks m' = <[p := n]> (blocks m);
  alloc_words : ∀ a, ¬ (p <= a < p + n) → words m' !! a = words m !! a;
}.

Class LibcHeap : Type := {
  calloc : Z → Z → mem → Z * mem;
  malloc : Z → mem → Z * mem;
  calloc_spec n sz m p m' : calloc n sz m = (p, m') → p ≠ NULL →
    allocated m p (n * sz) m' ∧
    (∀ a, p <= a → a + sizeof_ptr <= p + n * sz → a mod sizeof_ptr = 0 → words m' !! a = Some 0);
  malloc_spec sz m p m' : malloc sz m = (p, m') → p ≠ NULL → allocated m p sz m';
  malloc_null sz m m' : malloc sz m = (NULL, m') → m' = m;
}.

(** [sch_pool_node_t] has one pointer before its flexible array member. *)
Definition sizeof_SchPoolNode : Z := 8.
Definition sizeof_SchPool : Z := 16.

(** [sch_pool_allocator_t]. *)
Record SchPool : Type := mkSchPool {
  sp_num : Z;
  sp_itemsize : Z;
  sp_pool : Z;
}.

Section allocator.
Context `{LibcHeap} (NDEBUG : bool).

(** [assert(e)] of <assert.h>. *)
Definition assert_c (e : bool) : outcome () := if NDEBUG || e then Done () else Abort.

(** The loop that links the nodes; the result is [tmp] after the loop. *)
Fixpoint link_nodes (n : nat) (tmp itemsize : Z) (m : mem) : outcome (Z * mem) :=
  match n with
  | O => Done (tmp, m)
  | S n =>
      m ← store_ptr m tmp (tmp + sizeof_SchPoolNode + itemsize);
      link_nodes n (tmp + (itemsize + sizeof_SchPoolNode)) itemsize m
  end.

(** The descriptor [alloc] is written field by field; its old contents do not matter. *)
Definition schInitPool (alloc : SchPool) (num itemsize : Z) (m : mem) : outcome (SchPool * mem) :=
  let size := s32 (u64 (itemsize + sizeof_SchPool)) in
  let '(p, m) := calloc num (u64 size) m in
  let alloc := alloc <| sp_pool := p |> <| sp_num := num |> <| sp_itemsize := itemsize |> in
  _ ← assert_c (truthy (sp_pool alloc));
  '(tmp, m) ← link_nodes (Z.to_nat num) (sp_pool alloc) itemsize m;
  let tmp := tmp - (itemsize + sizeof_SchPoolNode) in
  m ← store_ptr m tmp NULL;
  Done (alloc, m).

(** The result is the address of the descriptor and its contents. *)
Definition schPoolCreate (garbage : SchPool) (num itemsize : Z) (m : mem) :
    outcome (Z * SchPool * mem) :=
  let '(alloc, m) := malloc sizeof_SchPool m in
  _ ← assert_c (truthy alloc);
  '(desc, m) ← (if decide (alloc = NULL) then Undef else schInitPool garbage num itemsize m);
  Done (alloc, desc, m).

Definition schPoolObtain (allocator : SchPool) (m : mem) : outcome (Z * mem) :=
  next ← load m (sp_pool allocator);
  if decide (next = NULL) then Done (NULL, m)
  else
    tmp ← load m (sp_pool allocator);
    tmp_next ← load m tmp;
    m ← store_ptr m (sp_pool allocator) tmp_next;
    let block := tmp + sizeof_SchPoolNode in
    Done (block, m).

Definition schPoolReturn (allocator : SchPool) (data : Z) (m : mem) : outcome (Z * mem) :=
  let tmp := data - sizeof_ptr in
  next ← load m (sp_pool allocator);
  m ← store_ptr m tmp next;
  m ← store_ptr m (sp_pool allocator) tmp;
  Done (tmp, m).

Definition schPoolResize (allocator : SchPool) (num itemsize : Z) : Z := NULL.

Definition schPoolNumNodes (pool : SchPool) : Z := sp_num pool.

Definition schPoolItemSize (pool : SchPool) : Z := sp_itemsize pool.

Definition schPoolGetIndex (pool : SchPool) (data : Z) : outcome Z :=
  let offset := data - sp_pool pool in
  if decide (sp_itemsize pool = 0) then Undef
  else Done (s32 (u64 offset / sp_itemsize pool)).

Definition sntPoolItemByIndex (pool : SchPool) (index : Z) : Z :=
  sp_pool pool + u64 (u64 ((sp_itemsize pool + sizeof_ptr) * index) + sizeof_ptr).

(** [pool] is the address of the descriptor [desc]. *)
Definition schPoolFree (pool : Z) (desc : SchPool) (m : mem) : outcome mem :=
  m ← free (sp_pool desc) m;
  free pool m.
End allocator.

(** ** Memory *)

Lemma live_intro m b sz a n :
  blocks m !! b = Some sz → b <= a → a + n <= b + sz → live m a n = true.
Proof. intros Hb ? ?. apply bool_decide_eq_true. exists b, sz. done. Qed.

Lemma access_ok_intro m b sz a :
  blocks m !! b = Some sz → b <= a → a + sizeof_ptr <= b + sz → a mod sizeof_ptr = 0 →
  access_ok m a = true.
Proof.
  intros Hb H1 H2 H3. unfold access_ok. rewrite H3, (live_intro m b sz) by done. done.
Qed.

Lemma load_ok m a v : access_ok m a = true → words m !! a = Some v → load m a = Done v.
Proof. intros H1 H2. unfold load. by rewrite H1, H2. Qed.

Lemma store_ptr_ok m a v :
  access_ok m a = true → store_ptr m a v = Done (m <| words ::= <[a := v]> |>).
Proof. intros H1. unfold store_ptr. by rewrite H1. Qed.

(** ** Specification *)

(** The bytes from one node to the next. *)
Definition stride (alloc : SchPool) : Z := sp_itemsize alloc + sizeof_SchPoolNode.

(** The address of a node; node 0 is the head of the free list. *)
Definition node (alloc : SchPool) (i : Z) : Z := sp_pool alloc + i * stride alloc.

(** From the node [a], the [next] pointers lead through [l] and end with [NULL]. *)
Fixpoint chain (m : mem) (a : Z) (l : list Z) : Prop :=
  match l with
  | [] => words m !! a = Some NULL
  | b :: l => words m !! a = Some b ∧ chain m b l
  end.

(** The pool [alloc] in memory [m]: [free] is the free list, [used] the nodes handed
    out. *)
Record pool_ok (alloc : SchPool) (m : mem) (free used : list Z) : Prop := {
  pok_sizes : 0 < sp_num alloc < UINT_MOD ∧ 0 <= sp_itemsize alloc < UINT_MOD;
  pok_aligned : sp_pool alloc mod sizeof_ptr = 0 ∧ sp_itemsize alloc mod sizeof_ptr = 0;
  pok_base : 0 < sp_pool alloc;
  pok_block : ∃ sz, blocks m !! sp_pool alloc = Some sz ∧ sp_num alloc * stride alloc <= sz;
  pok_nodes : free ++ used ≡ₚ node alloc <$> seqZ 1 (sp_num alloc - 1);
  pok_chain : chain m (sp_pool alloc) free;
}.

Lemma chain_head m a l : chain m a l → words m !! a = Some (default NULL (head l)).
Proof. by destruct l as [|b l]; [|intros []]. Qed.

(** Writing a node that is not on the chain keeps the chain. *)
Lemma chain_store m a l x v :
  x ≠ a → x ∉ l → chain m a l → chain (m <| words ::= <[x := v]> |>) a l.
Proof.
  revert a. induction l as [|b l IH]; intros a Hxa Hxl; cbn.
  - intros H. by rewrite lookup_insert_ne.
  - intros [H Hc]. apply not_elem_of_cons in Hxl as [Hxb Hxl].
    rewrite lookup_insert_ne by done. split; [done|]. by apply IH.
Qed.

Section pool.
Context (alloc : SchPool) (m : mem) (free used : list Z).
Context (Hok : pool_ok alloc m free used).

Lemma pok_stride : 8 <= stride alloc.
Proof. destruct Hok as [[_ ?] _ _ _ _ _]. unfold stride, sizeof_SchPoolNode. lia. Qed.

Lemma node_inj i j : node alloc i = node alloc j → i = j.
Proof. pose proof pok_stride. unfold node. nia. Qed.

Lemma pok_node x : x ∈ free ++ used → ∃ i, 1 <= i < sp_num alloc ∧ x = node alloc i.
Proof.
    rewrite (pok_nodes _ _ _ _ Hok). intros (i & -> & Hi%elem_of_seqZ)%list_elem_of_fmap.
    exists i. lia.
Qed.

Lemma pok_nodup : NoDup (free ++ used).
Proof.
    rewrite (pok_nodes _ _ _ _ Hok). apply NoDup_fmap_2_strong; [|apply NoDup_seqZ].
    intros i j _ _. apply node_inj.
Qed.

(** Every node may be read and written, and is not [NULL]. *)
Lemma node_access i :
    0 <= i < sp_num alloc → access_ok m (node alloc i) = true ∧ 0 < node alloc i.
Proof.
    intros Hi. pose proof pok_stride. pose proof Hok as [_ [Ha Hs] Hb (sz & Hsz & Hle) _ _].
    split; [|unfold node; nia].
    apply (access_ok_intro m (sp_pool alloc) sz); [done| | |].
    - unfold node. nia.
    - unfold node, sizeof_ptr. nia.
    - unfold node, stride, sizeof_SchPoolNode, sizeof_ptr in *.
      apply Z.mod_divide in Ha as [x Hx]; [|done]. apply Z.mod_divide in Hs as [y Hy]; [|done].
      apply Z.mod_divide; [done|]. exists (x + i * (y + 1)). rewrite Hx, Hy. lia.
Qed.

Lemma head_access : access_ok m (sp_pool alloc) = true.
Proof.
    destruct (node_access 0) as [H _]; [destruct Hok; lia|].
    revert H. unfold node. by rewrite Z.mul_0_l, Z.add_0_r.
Qed.

Lemma pok_not_head x : x ∈ free ++ used → x ≠ sp_pool alloc ∧ x ≠ NULL ∧ access_ok m x = true.
Proof.
    intros (i & Hi & ->)%pok_node. destruct (node_access i) as [Hacc Hpos]; [lia|].
    pose proof pok_stride. split_and!; [unfold node; nia|unfold NULL; lia|done].
Qed.
End pool.

(** The operations as a client performs them, and the reference: the free nodes are a
    stack. *)
Inductive pool_op : Type :=
  | Obtain
  | Return (data : Z).

Section ops.
Context `{LibcHeap}.

(** The pointers the operations return, in order. *)
Fixpoint pool_run (alloc : SchPool) (ops : list pool_op) (m : mem) : outcome (list Z * mem) :=
    match ops with
    | [] => Done ([], m)
    | Obtain :: ops =>
        '(p, m) ← schPoolObtain alloc m;
        '(out, m) ← pool_run alloc ops m;
        Done (p :: out, m)
    | Return d :: ops =>
        '(p, m) ← schPoolReturn alloc d m;
        '(out, m) ← pool_run alloc ops m;
        Done (p :: out, m)
    end.
End ops.

(** Remove the first [x]. *)
Fixpoint remove1 (x : Z) (l : list Z) : list Z :=
  match l with
  | [] => []
  | y :: l => if decide (x = y) then l else y :: remove1 x l
  end.

Lemma remove1_split x l : x ∈ l → ∃ l1 l2, l = l1 ++ x :: l2 ∧ remove1 x l = l1 ++ l2.
Proof.
  induction l as [|y l IH]; cbn; [by intros ?%elem_of_nil|].
  case_decide as Hxy; [subst; by exists [], l|].
  intros [?|Hin]%elem_of_cons; [done|]. destruct (IH Hin) as (l1 & l2 & -> & ->).
  by exists (y :: l1), l2.
Qed.

(** [Obtain] pops the stack of free nodes and hands out its item, or answers [NULL];
    [Return] pushes the node of an item that was handed out.  [None]: the client returns
    an item it does not hold. *)
Fixpoint stack_run (ops : list pool_op) (free used : list Z) :
    option (list Z * list Z * list Z) :=
  match ops with
  | [] => Some ([], free, used)
  | Obtain :: ops =>
      match free with
      | [] => '(out, free', used') ← stack_run ops [] used; Some (NULL :: out, free', used')
      | x :: free =>
          '(out, free', used') ← stack_run ops free (x :: used);
          Some (x + sizeof_SchPoolNode :: out, free', used')
      end
  | Return d :: ops =>
      let x := d - sizeof_SchPoolNode in
      if decide (x ∈ used) then
        '(out, free', used') ← stack_run ops (x :: free) (remove1 x used);
        Some (x :: out, free', used')
      else None
  end.

(** ** The operations on a well-formed pool *)

Lemma obtain_empty alloc m used :
  pool_ok alloc m [] used → schPoolObtain alloc m = Done (NULL, m).
Proof.
  intros Hok. unfold schPoolObtain.
  rewrite (load_ok _ _ NULL (head_access _ _ _ _ Hok) (pok_chain _ _ _ _ Hok)). done.
Qed.

Lemma obtain_cons alloc m x free used :
  pool_ok alloc m (x :: free) used →
  ∃ m', schPoolObtain alloc m = Done (x + sizeof_SchPoolNode, m') ∧ blocks m' = blocks m ∧
    pool_ok alloc m' free (x :: used).
Proof.
  intros Hok. pose proof (head_access _ _ _ _ Hok) as Hh.
  destruct (pok_not_head _ _ _ _ Hok x) as (Hx & Hx0 & Hxa); [by left|].
  pose proof (pok_nodup _ _ _ _ Hok) as Hnd. pose proof (pok_chain _ _ _ _ Hok) as [Hw Hc].
  unfold schPoolObtain. rewrite (load_ok _ _ _ Hh Hw). cbn. rewrite decide_False by done.
  rewrite (load_ok _ _ _ Hxa (chain_head _ _ _ Hc)). cbn.
  rewrite store_ptr_ok by done. cbn. eexists. split_and!; [done|done|].
  destruct Hok as [H1 H2 H3 H4 H5 _]. split; try done.
  - by rewrite <-Permutation_middle.
  - assert (∀ y, y ∈ free → y ≠ sp_pool alloc) as Hne.
    { intros y Hy. eapply (pok_not_head alloc m (x :: free) used); [by split|].
      right. apply elem_of_app. by left. }
    assert (sp_pool alloc ∉ free) as Hnot by (intros Hin; by apply (Hne _ Hin)).
    destruct free as [|y free]; cbn.
    + by rewrite lookup_insert_eq.
    + rewrite lookup_insert_eq. split; [done|]. destruct Hc as [_ Hc].
      apply not_elem_of_cons in Hnot as [? ?]. by apply chain_store.
Qed.

Lemma return_used alloc m x free used1 used2 :
  pool_ok alloc m free (used1 ++ x :: used2) →
  ∃ m', schPoolReturn alloc (x + sizeof_SchPoolNode) m = Done (x, m') ∧ blocks m' = blocks m ∧
    pool_ok alloc m' (x :: free) (used1 ++ used2).
Proof.
  intros Hok. pose proof (head_access _ _ _ _ Hok) as Hh.
  destruct (pok_not_head _ _ _ _ Hok x) as (Hx & Hx0 & Hxa); [set_solver|].
  pose proof (pok_nodup _ _ _ _ Hok) as Hnd. pose proof (pok_chain _ _ _ _ Hok) as Hc.
  unfold schPoolReturn. replace (x + sizeof_SchPoolNode - sizeof_ptr) with x
    by (unfold sizeof_SchPoolNode, sizeof_ptr; lia).
  rewrite (load_ok _ _ _ Hh (chain_head _ _ _ Hc)). cbn. rewrite store_ptr_ok by done. cbn.
  rewrite store_ptr_ok by done. cbn. eexists. split_and!; [done|done|].
  assert (x ∉ free) as Hxf.
  { rewrite NoDup_app in Hnd. destruct Hnd as (_ & Hd & _). intros Hin. apply (Hd _ Hin). set_solver. }
  assert (sp_pool alloc ∉ free) as Hnot.
  { intros Hin. destruct (pok_not_head _ _ _ _ Hok (sp_pool alloc)); [set_solver|done]. }
  destruct Hok as [H1 H2 H3 H4 H5 _]. split; try done.
  - cbn. rewrite <-H5. by rewrite !app_assoc, Permutation_middle.
  - cbn. rewrite lookup_insert_eq. split; [done|].
    destruct free as [|y free]; cbn in Hc |- *.
    + by rewrite lookup_insert_ne, lookup_insert_eq.
    + rewrite lookup_insert_ne, lookup_insert_eq by done. destruct Hc as [Hy Hc].
      split; [done|]. apply not_elem_of_cons in Hnot as [? ?], Hxf as [? ?].
      change (chain ((m <| words ::= <[x := y]> |>) <| words ::= <[sp_pool alloc := x]> |>) y free).
      by apply chain_store; [..|apply chain_store].
Qed.

Lemma pool_run_refines `{LibcHeap} alloc ops m free used out free' used' :
  pool_ok alloc m free used → stack_run ops free used = Some (out, free', used') →
  ∃ m', pool_run alloc ops m = Done (out, m') ∧ blocks m' = blocks m ∧
    pool_ok alloc m' free' used'.
Proof.
  revert m free used out. induction ops as [|[|d] ops IH]; intros m free used out Hok; cbn.
  { intros [= <- <- <-]. eauto. }
  - destruct free as [|x free].
    + destruct (stack_run ops [] used) as [[[out0 f0] u0]|] eqn:Hr; [|done].
      cbn. intros [= <- <- <-]. rewrite (obtain_empty _ _ _ Hok). cbn.
      destruct (IH m [] used out0 Hok Hr) as (m' & -> & ? & ?). eauto.
    + destruct (stack_run ops free (x :: used)) as [[[out0 f0] u0]|] eqn:Hr; [|done].
      cbn. intros [= <- <- <-]. destruct (obtain_cons _ _ _ _ _ Hok) as (m1 & -> & Hb & Hok1).
      cbn. destruct (IH m1 _ _ out0 Hok1 Hr) as (m' & -> & Hb' & ?). cbn.
      exists m'. by rewrite Hb', Hb.
  - case_decide as Hin; [|done].
    destruct (stack_run ops _ _) as [[[out0 f0] u0]|] eqn:Hr; [|done].
    cbn. intros [= <- <- <-]. apply remove1_split in Hin as (u1 & u2 & -> & Hrm).
    rewrite Hrm in Hr. destruct (return_used _ _ _ _ _ _ Hok) as (m1 & Hret & Hb & Hok1).
    replace (d - sizeof_SchPoolNode + sizeof_SchPoolNode) with d in Hret by lia.
    rewrite Hret. cbn. destruct (IH m1 _ _ out0 Hok1 Hr) as (m' & -> & Hb' & ?). cbn.
    exists m'. by rewrite Hb', Hb.
Qed.

(** ** Initialisation *)

Lemma link_nodes_spec alloc n j m :
  (∀ k, j <= k < j + Z.of_nat n → access_ok m (node alloc k) = true) → 8 <= stride alloc →
  ∃ m', link_nodes n (node alloc j) (sp_itemsize alloc) m = Done (node alloc (j + Z.of_nat n), m') ∧
    blocks m' = blocks m ∧
    (∀ k, j <= k < j + Z.of_nat n → words m' !! node alloc k = Some (node alloc (k + 1))) ∧
    (∀ a, (∀ k, j <= k < j + Z.of_nat n → a ≠ node alloc k) → words m' !! a = words m !! a).
Proof.
  intros Hacc Hst. revert j m Hacc. induction n as [|n IH]; intros j m Hacc.
  { exists m. rewrite Z.add_0_r. split_and!; [done|done| |done]. intros k Hk. lia. }
  cbn [link_nodes]. rewrite store_ptr_ok by (apply Hacc; lia). cbn [mbind outcome_bind].
  set (m1 := _ <| words ::= _ |>).
  replace (node alloc j + (sp_itemsize alloc + sizeof_SchPoolNode)) with (node alloc (j + 1))
    by (unfold node, stride; lia).
  destruct (IH (j + 1) m1) as (m' & -> & Hb & Hw & Hrest).
  { intros k Hk. apply (Hacc k). lia. }
  exists m'. split_and!.
  - do 3 f_equal. lia.
  - done.
  - intros k Hk. destruct (decide (k = j)) as [->|]; [|apply Hw; lia].
    rewrite Hrest by (unfold node; intros; nia). unfold m1. cbn.
    rewrite lookup_insert_eq. f_equal. unfold node, stride. lia.
  - intros a Ha. rewrite Hrest by (intros k Hk; apply Ha; lia). unfold m1. cbn.
    apply lookup_insert_ne. symmetry. apply Ha. lia.
Qed.

Lemma chain_nodes alloc m j n :
  (∀ k, j <= k < j + Z.of_nat n → words m !! node alloc k = Some (node alloc (k + 1))) →
  words m !! node alloc (j + Z.of_nat n) = Some NULL →
  chain m (node alloc j) (node alloc <$> seqZ (j + 1) (Z.of_nat n)).
Proof.
  revert j. induction n as [|n IH]; intros j Hw He.
  { cbn. by rewrite Z.add_0_r in He. }
  rewrite seqZ_cons by lia. cbn [fmap list_fmap chain]. split; [apply Hw; lia|].
  replace (Z.pred (Z.of_nat (S n))) with (Z.of_nat n) by lia. apply (IH (j + 1)).
  - intros k Hk. apply Hw. lia.
  - rewrite <-He. do 2 f_equal. lia.
Qed.

Section init.
Context `{LibcHeap} (NDEBUG : bool).

Lemma schInitPool_ok alloc0 num itemsize m p m0 :
  1 <= num < UINT_MOD → 0 <= itemsize → itemsize + sizeof_SchPool <= INT_MAX →
  itemsize mod sizeof_ptr = 0 →
  calloc num (itemsize + sizeof_SchPool) m = (p, m0) → p ≠ NULL →
  ∃ m', schInitPool NDEBUG alloc0 num itemsize m = Done (mkSchPool num itemsize p, m') ∧
    blocks m' = <[p := num * (itemsize + sizeof_SchPool)]> (blocks m) ∧
    pool_ok (mkSchPool num itemsize p) m'
      (node (mkSchPool num itemsize p) <$> seqZ 1 (num - 1)) [] ∧
    ∀ a, a < p ∨ p + num * (itemsize + sizeof_SchPool) <= a → words m' !! a = words m !! a.
Proof.
  intros Hnum Hi0 Himax Hal Hcalloc Hp. set (al := mkSchPool num itemsize p).
  unfold schInitPool, sizeof_SchPool, INT_MAX, UINT_MOD, SIZE_MOD in *.
  assert (s32 (u64 (itemsize + 16)) = itemsize + 16) as ->.
  { rewrite u64_small, s32_small by (unfold SIZE_MOD, INT_MIN, INT_MAX; lia). done. }
  rewrite u64_small by (unfold SIZE_MOD; lia). rewrite Hcalloc. cbn [set const sp_pool sp_num sp_itemsize].
  destruct (calloc_spec _ _ _ _ _ Hcalloc Hp) as [[Hpos Hpa Hrange _ Hblk Hold] _].
  assert (assert_c NDEBUG (truthy p) = Done ()) as Hassert.
  { unfold assert_c. by rewrite (proj2 (truthy_spec p) Hp), orb_true_r. }
  cbn. rewrite Hassert. cbn [mbind outcome_bind].
  assert (p mod 8 = 0) as Hp8.
  { apply Z.mod_divide in Hpa as [q ->]; [|done]. apply Z.mod_divide; [done|]. exists (q * 2). lia. }
  assert (∀ m', blocks m' = blocks m0 → ∀ k, 0 <= k < num → access_ok m' (node al k) = true) as Hacc.
  { intros m' Hm' k Hk. apply (access_ok_intro m' p (num * (itemsize + 16))).
    - by rewrite Hm', Hblk, lookup_insert_eq.
    - unfold node, stride, sizeof_SchPoolNode. cbn. nia.
    - unfold node, stride, sizeof_SchPoolNode, sizeof_ptr. cbn. nia.
    - unfold sizeof_ptr in *. apply Z.mod_divide in Hp8 as [x Hx]; [|done].
      apply Z.mod_divide in Hal as [y Hy]; [|done]. apply Z.mod_divide; [done|].
      unfold node, stride, sizeof_SchPoolNode. cbn.
      exists (x + k * (y + 1)). rewrite Hx, Hy. lia. }
  destruct (link_nodes_spec al (Z.to_nat num) 0 m0) as (m1 & Hlink & Hb1 & Hw1 & Hrest).
  { intros k Hk. apply Hacc; [done|lia]. }
  { unfold stride, sizeof_SchPoolNode. cbn. lia. }
  assert (node al 0 = p) as Hn0 by (unfold node; cbn; lia).
  rewrite Hn0 in Hlink. cbn [sp_itemsize al] in Hlink. rewrite Hlink. cbn [mbind outcome_bind].
  rewrite Z2Nat.id, Z.add_0_l in * by lia.
  replace (node al num - (itemsize + sizeof_SchPoolNode)) with (node al (num - 1))
    by (unfold node, stride; cbn; lia).
  rewrite store_ptr_ok by (apply Hacc; [done|lia]). cbn [mbind outcome_bind].
  eexists. split_and!; [done|cbn; congruence| |].
  2:{ intros a Ha. assert (∀ k, 0 <= k < num → a ≠ node al k) as Hk.
      { intros k Hk. unfold node, stride, sizeof_SchPoolNode. cbn. nia. }
      cbn. rewrite lookup_insert_ne by (symmetry; apply Hk; lia). rewrite Hrest by (intros; apply Hk; lia).
      apply Hold. lia. }
  split; try done.
  - unfold UINT_MOD. cbn. lia.
  - exists (num * (itemsize + 16)). cbn. rewrite Hb1, Hblk, lookup_insert_eq.
    split; [done|]. unfold stride, sizeof_SchPoolNode. cbn. nia.
  - by rewrite app_nil_r.
  - cbn [sp_pool al]. rewrite <-Hn0 at 1.
    replace (num - 1) with (Z.of_nat (Z.to_nat (num - 1))) by lia.
    apply (chain_nodes al _ 0).
    + intros k Hk. cbn. rewrite lookup_insert_ne; [apply Hw1; lia|].
      unfold node, stride, sizeof_SchPoolNode. cbn. nia.
    + cbn. rewrite Z.add_0_l. by rewrite lookup_insert_eq.
Qed.
End init.

(** ** A heap for the witnesses: a bump allocator *)
Module BumpHeap.
(** The first address above every live block. *)
Definition top (bs : gmap Z Z) : Z := map_fold (λ b sz t, Z.max t (b + Z.max 0 sz)) 16 bs.

Definition next_block (m : mem) : Z := (top (blocks m) / 16 + 1) * 16.

Definition zeros (p n : Z) (w : gmap Z Z) : gmap Z Z :=
  foldr (λ i w, <[p + 8 * i := 0]> w) w (seqZ 0 (n / 8)).

Definition bump_malloc (n : Z) (m : mem) : Z * mem :=
  let p := next_block m in
  if decide (0 <= n ∧ p + n <= SIZE_MOD) then (p, m <| blocks ::= <[p := n]> |>) else (NULL, m).

Definition bump_calloc (n sz : Z) (m : mem) : Z * mem :=
  let p := next_block m in
  if decide (0 <= n * sz ∧ p + n * sz <= SIZE_MOD)
  then (p, mkMem (zeros p (n * sz) (words m)) (<[p := n * sz]> (blocks m)))
  else (NULL, m).

Lemma top_spec (bs : gmap Z Z) :
  16 <= top bs ∧ map_Forall (λ b sz, b + Z.max 0 sz <= top bs) bs.
Proof.
  unfold top. apply (map_fold_weak_ind (λ t bs, 16 <= t ∧ map_Forall (λ b sz, b + Z.max 0 sz <= t) bs)).
  - split; [lia|]. apply map_Forall_empty.
  - intros b sz bs' t Hb [H16 Hall]. split; [lia|]. apply map_Forall_insert_2; [lia|].
    intros b' sz' Hb'. specialize (Hall b' sz' Hb'). cbn in Hall. lia.
Qed.

Lemma zeros_in p n w i : 0 <= i < n / 8 → zeros p n w !! (p + 8 * i) = Some 0.
Proof.
  intros Hi. assert (i ∈ seqZ 0 (n / 8)) as Hin by (apply elem_of_seqZ; lia).
  unfold zeros. revert Hin. generalize (seqZ 0 (n / 8)) as l. clear Hi.
  induction l as [|j l IH]; cbn; [by intros ?%elem_of_nil|].
  intros Hin. destruct (decide (i = j)) as [->|Hne]; [apply lookup_insert_eq|].
  rewrite lookup_insert_ne by lia. apply IH. apply elem_of_cons in Hin as [?|?]; done.
Qed.

Lemma zeros_out p n w a :
  ¬ (p <= a < p + n) → zeros p n w !! a = w !! a.
Proof.
  intros Ha. assert (∀ j, j ∈ seqZ 0 (n / 8) → a ≠ p + 8 * j) as Hne.
  { intros j Hj%elem_of_seqZ. pose proof (Z.mul_div_le n 8). lia. }
  unfold zeros. revert Hne. generalize (seqZ 0 (n / 8)) as l.
  induction l as [|j l IH]; intros Hne; cbn; [done|].
  rewrite lookup_insert_ne by (symmetry; apply Hne; left). apply IH. intros k Hk. apply Hne. by right.
Qed.

Lemma next_block_pos m : next_block m ≠ NULL.
Proof.
  destruct (top_spec (blocks m)) as [H16 _]. unfold next_block, NULL.
  pose proof (Z.div_pos (top (blocks m)) 16). lia.
Qed.

Lemma next_block_allocated m n w :
  0 <= n → next_block m + n <= SIZE_MOD →
  (∀ a, ¬ (next_block m <= a < next_block m + n) → w !! a = words m !! a) →
  allocated m (next_block m) n (mkMem w (<[next_block m := n]> (blocks m))).
Proof.
  intros Hn Hmax Hw. destruct (top_spec (blocks m)) as [H16 Hall].
  assert (top (blocks m) < next_block m) as Hlt.
  { unfold next_block. pose proof (Z.div_mod (top (blocks m)) 16).
    pose proof (Z.mod_pos_bound (top (blocks m)) 16). lia. }
  split; try done.
  - lia.
  - apply Z_mod_mult.
  - split.
    + intros b sz Hb. left. specialize (Hall b sz Hb). cbn in Hall. lia.
    + destruct (blocks m !! next_block m) as [sz|] eqn:Hb; [|done].
      specialize (Hall _ _ Hb). cbn in Hall. lia.
Qed.

#[export] Program Instance bump_heap : LibcHeap := {|
  calloc := bump_calloc;
  malloc := bump_malloc;
|}.
Next Obligation.
  intros n sz m p m'. unfold bump_calloc. case_decide as Hd; [|naive_solver].
  intros [= <- <-] _. destruct Hd as [Hn Hmax].
  pose proof (Z.mul_div_le (n * sz) 8). split.
  - apply next_block_allocated; [done..|]. intros a Ha. by apply zeros_out.
  - intros a Ha1 Ha2 Ha3. cbn. unfold sizeof_ptr in *. unfold next_block in *.
    apply Z.mod_divide in Ha3 as [q ->]; [|done]. set (t := top (blocks m) / 16 + 1) in *.
    replace (q * 8) with (t * 16 + 8 * (q - t * 2)) by lia. apply zeros_in.
    pose proof (Z.div_le_mono ((q - t * 2 + 1) * 8) (n * sz) 8 ltac:(lia) ltac:(lia)) as Hd.
    rewrite Z_div_mult in Hd by lia. lia.
Qed.
Next Obligation.
  intros sz m p m'. unfold bump_malloc. case_decide as Hd; [|naive_solver].
  intros [= <- <-] _. destruct Hd. by apply next_block_allocated.
Qed.
Next Obligation.
  intros sz m m'. unfold bump_malloc. case_decide; [intros [= Hp <-]|by intros [= <-]].
  destruct (next_block_pos m). by rewrite Hp.
Qed.
End BumpHeap.
Import BumpHeap.

(** ** Properties *)

(** C38: [schInitPool] with at least one node and an item size that is a multiple of the
    pointer size returns, changes nothing outside the block [calloc] gave it, and makes a
    well-formed pool: the free list runs through the nodes 1 to [num - 1] in order. *)
Theorem schInitPool_correct `{LibcHeap} NDEBUG alloc0 num itemsize m p m0 :
  1 <= num < UINT_MOD → 0 <= itemsize → itemsize + sizeof_SchPool <= INT_MAX →
  itemsize mod sizeof_ptr = 0 →
  calloc num (itemsize + sizeof_SchPool) m = (p, m0) → p ≠ NULL →
  ∃ m', schInitPool NDEBUG alloc0 num itemsize m = Done (mkSchPool num itemsize p, m') ∧
    blocks m' = <[p := num * (itemsize + sizeof_SchPool)]> (blocks m) ∧
    pool_ok (mkSchPool num itemsize p) m'
      (node (mkSchPool num itemsize p) <$> seqZ 1 (num - 1)) [] ∧
    ∀ a, a < p ∨ p + num * (itemsize + sizeof_SchPool) <= a → words m' !! a = words m !! a.
Proof. apply schInitPool_ok. Qed.

Definition empty_mem : mem := mkMem ∅ ∅.
Definition ex_garbage : SchPool := mkSchPool 77 78 79.

Lemma schInitPool_correct_witness :
  ∃ m', schInitPool false ex_garbage 4 24 empty_mem = Done (mkSchPool 4 24 32, m') ∧
    blocks m' = <[32 := 160]> ∅ ∧
    pool_ok (mkSchPool 4 24 32) m' (node (mkSchPool 4 24 32) <$> seqZ 1 3) [] ∧
    ∀ a, a < 32 ∨ 192 <= a → words m' !! a = words empty_mem !! a.
Proof.
  apply (schInitPool_correct false ex_garbage 4 24 empty_mem 32
    (snd (BumpHeap.bump_calloc 4 40 empty_mem))).
  - done.
  - done.
  - done.
  - done.
  - reflexivity.
  - done.
Defined.

(** C37: on a well-formed pool, any sequence of obtains and returns of items that are held
    stays inside the pool's block, answers as a stack of the free nodes does (the last
    item returned is the next one obtained, [NULL] when no node is free), and leaves a
    well-formed pool: a node is never both free and handed out, and none is lost. *)
Theorem pool_allocator_is_stack `{LibcHeap} alloc ops m free used out free' used' :
  pool_ok alloc m free used → stack_run ops free used = Some (out, free', used') →
  ∃ m', pool_run alloc ops m = Done (out, m') ∧ blocks m' = blocks m ∧
    pool_ok alloc m' free' used' ∧ NoDup (free' ++ used') ∧
    free' ++ used' ≡ₚ free ++ used.
Proof.
  intros Hok Hrun. destruct (pool_run_refines alloc ops m free used out free' used' Hok Hrun)
    as (m' & Hr & Hb & Hok'). exists m'. split_and!; [done..| |].
  - by eapply pok_nodup.
  - by rewrite (pok_nodes _ _ _ _ Hok), (pok_nodes _ _ _ _ Hok').
Qed.

Definition ex_pool_mem : mem :=
  match schInitPool false ex_garbage 3 8 empty_mem with Done (_, m) => m | _ => empty_mem end.

Lemma ex_pool_ok : pool_ok (mkSchPool 3 8 32) ex_pool_mem [48; 64] [].
Proof.
  destruct (schInitPool_ok false ex_garbage 3 8 empty_mem 32
    (snd (BumpHeap.bump_calloc 3 24 empty_mem))) as (m' & Hinit & _ & Hok & _); try done.
  unfold ex_pool_mem. rewrite Hinit. exact Hok.
Qed.

Lemma pool_allocator_is_stack_witness :
  ∃ m', pool_run (mkSchPool 3 8 32) [Obtain; Obtain; Obtain; Return 56; Obtain] ex_pool_mem
        = Done ([56; 72; 0; 48; 56], m') ∧
    blocks m' = blocks ex_pool_mem ∧ pool_ok (mkSchPool 3 8 32) m' [] [48; 64] ∧
    NoDup ([] ++ [48; 64]) ∧ [] ++ [48; 64] ≡ₚ [48; 64] ++ [].
Proof.
  apply (pool_allocator_is_stack (mkSchPool 3 8 32) [Obtain; Obtain; Obtain; Return 56; Obtain]
    ex_pool_mem [48; 64] []).
  - exact ex_pool_ok.
  - reflexivity.
Defined.

(** Obtaining until nothing is left. *)
Lemma stack_run_obtain_all free used :
  stack_run (replicate (S (length free)) Obtain) free used
  = Some (((λ x, x + sizeof_SchPoolNode) <$> free) ++ [NULL], [], reverse free ++ used).
Proof.
  revert used. induction free as [|x free IH]; intros used; [done|].
  change (replicate (S (length (x :: free))) Obtain)
    with (Obtain :: replicate (S (length free)) Obtain). cbn [stack_run].
  by rewrite IH, reverse_cons, <-app_assoc.
Qed.

(** C39: a pool of [num] nodes, fresh from [schInitPool], hands out [num - 1] items, one fewer
    than its parameter says, all different and non-null; the next request is answered
    [NULL]. *)
Theorem pool_capacity `{LibcHeap} NDEBUG alloc0 num itemsize m p m0 :
  1 <= num < UINT_MOD → 0 <= itemsize → itemsize + sizeof_SchPool <= INT_MAX →
  itemsize mod sizeof_ptr = 0 →
  calloc num (itemsize + sizeof_SchPool) m = (p, m0) → p ≠ NULL →
  ∃ alloc m' m'' items,
    schInitPool NDEBUG alloc0 num itemsize m = Done (alloc, m') ∧
    pool_run alloc (replicate (Z.to_nat num) Obtain) m' = Done (items ++ [NULL], m'') ∧
    Z.of_nat (length items) = schPoolNumNodes alloc - 1 ∧ NoDup items ∧ NULL ∉ items.
Proof.
  intros Hnum Hi0 Himax Hal Hc Hp.
  destruct (schInitPool_ok NDEBUG alloc0 num itemsize m p m0 Hnum Hi0 Himax Hal Hc Hp)
    as (m' & Hinit & _ & Hok & _).
  set (al := mkSchPool num itemsize p) in *. set (free := node al <$> seqZ 1 (num - 1)) in *.
  assert (Z.to_nat num = S (length free)) as Hlen.
  { unfold free. rewrite length_fmap, length_seqZ. lia. }
  destruct (pool_run_refines al (replicate (S (length free)) Obtain) m' free [] _ _ _ Hok
    (stack_run_obtain_all free [])) as (m'' & Hrun & _ & _).
  exists al, m', m'', ((λ x, x + sizeof_SchPoolNode) <$> free). rewrite Hlen. split_and!; [done..| | |].
  - rewrite length_fmap. cbn. lia.
  - apply NoDup_fmap_2_strong; [intros; unfold sizeof_SchPoolNode in *; lia|].
    pose proof (pok_nodup _ _ _ _ Hok) as Hnd. by rewrite app_nil_r in Hnd.
  - intros (x & Hx & Hin)%list_elem_of_fmap.
    destruct (pok_node _ _ _ _ Hok x) as (i & Hi & ->); [by rewrite app_nil_r|].
    destruct (node_access _ _ _ _ Hok i) as [_ ?]; [lia|]. unfold NULL, sizeof_SchPoolNode in *. lia.
Qed.

Lemma pool_capacity_witness :
  ∃ alloc m' m'' items,
    schInitPool true ex_garbage 5 24 empty_mem = Done (alloc, m') ∧
    pool_run alloc (replicate (Z.to_nat 5) Obtain) m' = Done (items ++ [NULL], m'') ∧
    Z.of_nat (length items) = schPoolNumNodes alloc - 1 ∧ NoDup items ∧ NULL ∉ items.
Proof.
  apply (pool_capacity true ex_garbage 5 24 empty_mem 32
    (snd (BumpHeap.bump_calloc 5 40 empty_mem))); done.
Defined.

(** The items of a pool lie inside its block, the items of two nodes do not overlap,
    and no item overlaps the [next] pointer of a node: writing an item breaks neither
    another item nor the free list. *)
Theorem pool_items_disjoint alloc m free used i j :
  pool_ok alloc m free used → 0 <= i < sp_num alloc → 0 <= j < sp_num alloc →
  let item k := node alloc k + sizeof_SchPoolNode in
  (∃ sz, blocks m !! sp_pool alloc = Some sz ∧
     sp_pool alloc <= item i ∧ item i + sp_itemsize alloc <= sp_pool alloc + sz) ∧
  (i ≠ j → item i + sp_itemsize alloc <= item j ∨ item j + sp_itemsize alloc <= item i) ∧
  (item i + sp_itemsize alloc <= node alloc j ∨ node alloc j + sizeof_ptr <= item i).
Proof.
  intros Hok Hi Hj. pose proof Hok as [Hs _ _ (sz & Hsz & Hle) _ _].
  unfold node, stride, sizeof_SchPoolNode, sizeof_ptr in *. cbn. split_and!.
  - exists sz. split_and!; [done|nia|nia].
  - intros Hij. assert (i < j ∨ j < i) as [?|?] by lia; [left|right]; nia.
  - assert (i < j ∨ j <= i) as [?|?] by lia; [left|right]; nia.
Qed.

Lemma pool_items_disjoint_witness :
  (∃ sz, blocks ex_pool_mem !! 32 = Some sz ∧ 32 <= 56 ∧ 56 + 8 <= 32 + sz) ∧
  (1 ≠ 2 → 56 + 8 <= 72 ∨ 72 + 8 <= 56) ∧ (56 + 8 <= 64 ∨ 64 + 8 <= 56).
Proof. apply (pool_items_disjoint _ _ _ _ 1 2 ex_pool_ok); done. Defined.

(** [schPoolGetIndex] divides by the item size instead of the distance between nodes:
    for the item of node [i], [itemsize] bytes each, it answers [i] exactly when
    [8 * (i + 1) < itemsize]. *)
Theorem schPoolGetIndex_of_item alloc i :
  0 < sp_itemsize alloc → 0 <= i →
  (i + 1) * stride alloc <= INT_MAX →
  schPoolGetIndex alloc (sntPoolItemByIndex alloc i)
  = Done (i + 8 * (i + 1) / sp_itemsize alloc) ∧
  (schPoolGetIndex alloc (sntPoolItemByIndex alloc i) = Done i ↔ 8 * (i + 1) < sp_itemsize alloc).
Proof.
  intros Hs Hi Hmax.
  assert (schPoolGetIndex alloc (sntPoolItemByIndex alloc i)
    = Done (i + 8 * (i + 1) / sp_itemsize alloc)) as ->.
  { unfold schPoolGetIndex, sntPoolItemByIndex, stride, sizeof_ptr, sizeof_SchPoolNode, INT_MAX in *.
    rewrite decide_False by lia. f_equal.
    rewrite (u64_small ((_ + _) * _)) by (unfold SIZE_MOD; nia).
    rewrite (u64_small (_ * _ + _)) by (unfold SIZE_MOD; nia).
    replace (_ - sp_pool alloc) with (i * sp_itemsize alloc + 8 * (i + 1)) by lia.
    rewrite u64_small by (unfold SIZE_MOD; nia). rewrite Z.div_add_l by lia.
    apply s32_small. pose proof (Z.div_pos (8 * (i + 1)) (sp_itemsize alloc)).
    pose proof (Z.div_le_upper_bound (8 * (i + 1)) (sp_itemsize alloc) (8 * (i + 1))).
    unfold INT_MIN, INT_MAX. nia. }
  split; [done|]. split.
  - intros [= Heq]. assert (8 * (i + 1) / sp_itemsize alloc = 0) as Hd by lia.
    apply Z.div_small_iff in Hd; lia.
  - intros Hlt. rewrite Z.div_small by lia. f_equal. lia.
Qed.

(** The nodes of a [DLQueue] have 24 bytes: the index of the third item is wrong. *)
Lemma schPoolGetIndex_of_item_witness :
  schPoolGetIndex (mkSchPool 8 24 32) (sntPoolItemByIndex (mkSchPool 8 24 32) 2)
  = Done (2 + 8 * (2 + 1) / 24) ∧
  (schPoolGetIndex (mkSchPool 8 24 32) (sntPoolItemByIndex (mkSchPool 8 24 32) 2) = Done 2
   ↔ 8 * (2 + 1) < 24).
Proof. apply (schPoolGetIndex_of_item (mkSchPool 8 24 32) 2); done. Defined.

(** With [num = 0] the code writes the terminator one node before the block it
    allocated, which is undefined. *)
Theorem schInitPool_no_nodes `{LibcHeap} NDEBUG alloc0 itemsize m p m0 :
  0 <= itemsize → itemsize + sizeof_SchPool <= INT_MAX →
  calloc 0 (itemsize + sizeof_SchPool) m = (p, m0) → p ≠ NULL →
  live m (p - (itemsize + sizeof_SchPoolNode)) sizeof_ptr = false →
  schInitPool NDEBUG alloc0 0 itemsize m = Undef.
Proof.
  intros Hi0 Himax Hcalloc Hp Hlive. unfold schInitPool, sizeof_SchPool, INT_MAX in *.
  assert (s32 (u64 (itemsize + 16)) = itemsize + 16) as ->.
  { rewrite u64_small, s32_small by (unfold SIZE_MOD, INT_MIN, INT_MAX; lia). done. }
  rewrite u64_small by (unfold SIZE_MOD; lia). rewrite Hcalloc.
  assert (assert_c NDEBUG (truthy p) = Done ()) as Hassert.
  { unfold assert_c. by rewrite (proj2 (truthy_spec p) Hp), orb_true_r. }
  assert (live m0 (p - (itemsize + sizeof_SchPoolNode)) sizeof_ptr = false) as Hl0.
  { destruct (calloc_spec _ _ _ _ _ Hcalloc Hp) as [[_ _ _ _ Hblk _] _].
    apply bool_decide_eq_false. intros (b & sz & Hb & Hb1 & Hb2).
    rewrite Hblk in Hb. apply lookup_insert_Some in Hb as [[<- <-]|[_ Hb]].
    - unfold sizeof_SchPoolNode in *. lia.
    - by rewrite (live_intro m b sz) in Hlive. }
  cbn. rewrite Hassert. cbn. change (Z.to_nat 0) with 0%nat. cbn.
  unfold store_ptr, access_ok. by rewrite Hl0, andb_false_r.
Qed.

Lemma schInitPool_no_nodes_witness : schInitPool false ex_garbage 0 24 empty_mem = Undef.
Proof.
  apply (schInitPool_no_nodes false ex_garbage 24 empty_mem 32
    (snd (BumpHeap.bump_calloc 0 40 empty_mem))); done.
Defined.
