(* ===== verification/DLQueue.v ===== *)
(** * The linked queue (src/queue.c, include/internal/queue.h)

    [schCreateQueue] prepares a queue whose nodes come from a pool of the allocator of
    PoolAllocator.v; the other operations of the source are empty, and are translated as
    such.  Nothing in the scheduler calls this component. *)
From S2P Require Import Prelude Errors PoolAllocator.

(** [struct linked_node]: an [atomic_int] and two pointers. *)
Definition sizeof_linked_node : Z := 24.

(** [struct queue_sync_double_linked_t]. *)
Record DLQueue : Type := mkDLQueue {
  dl_size : Z;
  dl_tail : Z;
  dl_head : Z;
  dl_reserved : Z;
  dl_typeSize : Z;
  dl_data : Z;
  dl_nodes : Z;
  dl_pool : SchPool;
}.

Section dlqueue.
Context `{LibcHeap} (NDEBUG : bool).

(** [q] is the object the caller passes, with whatever it holds. *)
Definition schCreateQueue (q : DLQueue) (nr_reserved type_size : Z) (m : mem) :
    outcome (Z * DLQueue * mem) :=
  let q := q <| dl_size := 0 |> <| dl_tail := 0 |> <| dl_head := 0 |>
             <| dl_reserved := s32 nr_reserved |> <| dl_typeSize := s32 type_size |> in
  '(pool, m) ← schInitPool NDEBUG (dl_pool q) nr_reserved sizeof_linked_node m;
  let q := q <| dl_pool := pool |> in
  let queue_data_size := u64 (type_size * nr_reserved) in
  let '(data, m) := malloc queue_data_size m in
  Done (0, q <| dl_data := data |>, m).

Definition schDequeue (q : DLQueue) : Z := 0.
Definition schEnqueue (q : DLQueue) : Z := 0.
Definition schClear (q : DLQueue) : Z := 0.
Definition schQueueGetSize (q : DLQueue) : Z := 0.
Definition schQueueGetReserved (q : DLQueue) : Z := 0.
End dlqueue.

(** ** Properties *)

(** Allocating another block leaves a pool as it is. *)
Lemma pool_ok_allocated alloc m m' free used p n :
  pool_ok alloc m free used → allocated m p n m' →
  pool_ok alloc m' free used.
Proof.
  intros Hok [Hp _ _ [Hfresh Hnone] Hblk Hw]. pose proof Hok as [H1 H2 H3 (sz & Hsz & Hle) H5 Hc].
  assert (∀ i, 0 <= i < sp_num alloc → words m' !! node alloc i = words m !! node alloc i) as Hsame.
  { intros i Hi. apply Hw. intros Hin. pose proof (pok_stride _ _ _ _ Hok).
    specialize (Hfresh _ _ Hsz). cbn in Hfresh. unfold node in *. nia. }
  split; try done.
  - exists sz. rewrite Hblk, lookup_insert_ne; [done|]. intros ->. congruence.
  - assert (∀ a, (a = sp_pool alloc ∨ a ∈ free) → words m' !! a = words m !! a) as Hfree.
    { intros a [->|Ha].
      - replace (sp_pool alloc) with (node alloc 0) by (unfold node; lia). apply Hsame. lia.
      - destruct (pok_node _ _ _ _ Hok a) as (i & Hi & ->); [apply elem_of_app; by left|]. apply Hsame. lia. }
    clear Hok H5 Hsame. revert Hc Hfree. generalize (sp_pool alloc) as a.
    induction free as [|b free IH]; intros a; cbn.
    + intros Hc Hfree. rewrite Hfree; [done|by left].
    + intros [Hb Hc] Hfree. rewrite Hfree by (by left). split; [done|]. apply IH; [done|].
      intros a' [->|Ha']; apply Hfree; right; [left|by right].
Qed.

(** [schCreateQueue] resets the counters, builds a pool of [nr_reserved] nodes, of
    which [nr_reserved - 1] can be obtained, and returns 0, which is
    [SCH_ERROR_UNKNOWN] and not [SCH_OK], on success; [nodes] keeps what it held. *)
Theorem schCreateQueue_correct `{LibcHeap} NDEBUG q nr_reserved type_size m p m0 :
  1 <= nr_reserved < UINT_MOD →
  calloc nr_reserved (sizeof_linked_node + sizeof_SchPool) m = (p, m0) → p ≠ NULL →
  ∃ q' m' free, schCreateQueue NDEBUG q nr_reserved type_size m = Done (err_code SCH_ERROR_UNKNOWN, q', m') ∧
    (dl_size q' = 0 ∧ dl_head q' = 0 ∧ dl_tail q' = 0 ∧ dl_nodes q' = dl_nodes q) ∧
    pool_ok (dl_pool q') m' free [] ∧ Z.of_nat (length free) = nr_reserved - 1.
Proof.
  intros Hnr Hc Hp.
  destruct (schInitPool_ok NDEBUG (dl_pool q) nr_reserved sizeof_linked_node m p m0)
    as (m1 & Hinit & Hb1 & Hok & _); try done.
  unfold schCreateQueue. cbn. rewrite Hinit. cbn.
  destruct (malloc (u64 (type_size * nr_reserved)) m1) as [data m'] eqn:Hm.
  eexists _, m', _. split_and!; [done|done..| |].
  - cbn. destruct (decide (data = NULL)) as [->|Hd].
    + pose proof (malloc_null _ _ _ Hm) as ->. exact Hok.
    + eapply pool_ok_allocated; [exact Hok|]. by eapply malloc_spec.
  - rewrite length_fmap, length_seqZ. lia.
Qed.

Import BumpHeap.
Lemma schCreateQueue_correct_witness :
  ∃ q' m' free, schCreateQueue false (mkDLQueue 9 9 9 9 9 9 9 ex_garbage) 6 4 empty_mem
      = Done (err_code SCH_ERROR_UNKNOWN, q', m') ∧
    (dl_size q' = 0 ∧ dl_head q' = 0 ∧ dl_tail q' = 0 ∧ dl_nodes q' = 9) ∧
    pool_ok (dl_pool q') m' free [] ∧ Z.of_nat (length free) = 6 - 1.
Proof.
  apply (schCreateQueue_correct false (mkDLQueue 9 9 9 9 9 9 9 ex_garbage) 6 4 empty_mem 32
    (snd (BumpHeap.bump_calloc 6 40 empty_mem))); done.
Defined.
