(* ===== verification/Platform.v ===== *)
(** * The Unix platform layer (src/unix/thread.c and src/unix/time.c)

    Every function of the layer is a wrapper of one or a few POSIX calls.  POSIX itself is
    a parameter, the class [Posix]: [sys c w] is the answer of call [c] in the state [w]
    of the operating system, and the state after it.  An answer is the returned integer
    with what the call stored through its pointer arguments, in order.  The model records
    the calls with their answers ([trace]), so theorems can say what the library asked of
    the system, for every behaviour of the system.  Messages printed with [fprintf] are
    left out. *)
From S2P Require Import Prelude Errors Structures.

(** The calls of the layer, with the arguments that matter to it, and the calls of the
    functions the user of the library registers ([c_task], [c_pool_callback]).  Objects ([set],
    [mutex], ...) are addresses, threads are [pthread_t] values. *)
Inductive syscall : Type :=
  | c_malloc (size : Z)
  | c_free (p : Z)
  | c_memset (p size : Z)
  | c_gettimeofday
  | c_clock_gettime_raw
  | c_clock_getres
  | c_sysconf_nprocessors
  | c_attr_init
  | c_attr_setaffinity (cpu : Z)
  | c_attr_destroy
  | c_pthread_create (pfunc arg : Z)
  | c_pthread_detach (t : Z)
  | c_pthread_join (t : Z)
  | c_pthread_self
  | c_pthread_setname (t : Z) (name : string)
  | c_pthread_kill (t sig : Z)
  | c_mutex_init (p : Z)
  | c_mutex_destroy (p : Z)
  | c_mutex_lock (p : Z)
  | c_mutex_timedlock (p sec nsec : Z)
  | c_mutex_unlock (p : Z)
  | c_spin_init (p : Z)
  | c_spin_destroy (p : Z)
  | c_spin_lock (p : Z)
  | c_spin_trylock (p : Z)
  | c_spin_unlock (p : Z)
  | c_sem_init (p : Z)
  | c_sem_destroy (p : Z)
  | c_sem_wait (p : Z)
  | c_sem_trywait (p : Z)
  | c_sem_timedwait (p sec nsec : Z)
  | c_sem_post (p : Z)
  | c_sem_getvalue (p : Z)
  | c_barrier_init (p count : Z)
  | c_barrier_destroy (p : Z)
  | c_barrier_wait (p : Z)
  | c_cond_init (p : Z)
  | c_cond_destroy (p : Z)
  | c_cond_wait (p mutex : Z)
  | c_cond_signal (p : Z)
  | c_rwlock_init (p : Z)
  | c_rwlock_destroy (p : Z)
  | c_rwlock_rdlock (p : Z)
  | c_rwlock_wrlock (p : Z)
  | c_rwlock_unlock (p : Z)
  | c_sigemptyset (set : Z)
  | c_sigaddset (set sig : Z)
  | c_sigmask_block (set : Z)
  | c_sigwait (set : Z)
  | c_sigtimedwait (set sec nsec : Z)
  | c_sigaction_int
  | c_task (pool cell : Z) (package : schTaskPackage)
  | c_pool_callback (callback pool : Z).

#[export] Instance syscall_eq_dec : EqDecision syscall.
Proof. solve_decision. Defined.

Record answer : Type := mkAnswer {
  ans_ret : Z;
  ans_out : list Z;
}.

(** [errno w] is the value of [errno] after the last call, [indet w] the value an
    object holds that nothing has written. *)
Class Posix (W : Type) : Type := {
  sys : syscall → W → answer * W;
  errno : W → Z;
  indet : W → Z;
}.

Record env (W : Type) : Type := mkEnv {
  world : W;
  trace : list (syscall * answer);
}.
Arguments mkEnv {W} _ _.
Arguments world {W} _.
Arguments trace {W} _.

(** ** Constants *)
Definition PTHREAD_BARRIER_SERIAL_THREAD : Z := -1.
Definition SIGINT : Z := 2.
Definition SIGQUIT : Z := 3.
Definition SIGUSR1 : Z := 10.
Definition SIGTERM : Z := 15.
Definition NSEC : Z := 1000000000.

Definition sizeof_mutex : Z := 40.
Definition sizeof_spinlock : Z := 4.
Definition sizeof_sem : Z := 32.
Definition sizeof_barrier : Z := 32.
Definition sizeof_cond : Z := 48.
Definition sizeof_rwlock : Z := 56.
Definition sizeof_sigset : Z := 128.

(** [schBaseSignal] and the signals of include/taskSch.h. *)
Definition schBaseSignal : Z := SIGUSR1.
Definition SCH_SIGNAL_IDLE : Z := schBaseSignal + 0.
Definition SCH_SIGNAL_RUNNING : Z := schBaseSignal + 1.
Definition SCH_SIGNAL_DONE : Z := schBaseSignal + 2.
Definition SCH_SIGNAL_CONTINUE : Z := schBaseSignal + 3.
Definition SCH_SIGNAL_QUIT : Z := schBaseSignal + 4.

Section platform.
Context {W : Type} `{Posix W}.
(** [NDEBUG]: the library is built for release, where [assert(e)] does not evaluate [e]. *)
Variable NDEBUG : bool.

#[local] Abbreviation ME := (M (env W)).

Definition call (c : syscall) : ME answer := λ e,
  let '(a, w) := sys c (world e) in
  Done (a, mkEnv w (trace e ++ [(c, a)])).

(** The returned integer. *)
Definition ret_of (c : syscall) : ME Z := a ← call c; mret (ans_ret a).

(** What the call stored through its [i]-th output argument. *)
Definition out_of (a : answer) (i : nat) : ME Z := liftO (deref (ans_out a !! i)).

Definition get_errno : ME Z := gets (λ e, errno (world e)).

(** [assert(e)]: the expression is evaluated in debug builds only. *)
Definition assert_e (e : ME bool) : ME () :=
  if NDEBUG then mret () else b ← e; if (b : bool) then mret () else abort.

(** [pthread_error_code2sch_error_code(call)]. *)
Definition checked_call (c : syscall) : ME Z :=
  r ← ret_of c; mret (pthread_error_code2sch_error_code r).

(** A call that reports its failure in [errno]. *)
Definition errno_call (c : syscall) : ME Z :=
  r ← ret_of c;
  if decide (r = 0) then mret (err_code SCH_OK)
  else err ← get_errno; mret (pthread_error_code2sch_error_code err).

(** *** Time *)

(** A [struct timespec]: seconds and nanoseconds. *)
Definition timespec : Type := Z * Z.

(** The conversion the timed waits share. *)
Definition timespec_of (timeout : Z) : timespec := (timeout `quot` NSEC, timeout `rem` NSEC).

Definition maketimeout (nanoseconds : Z) : ME timespec :=
  now ← call c_gettimeofday;
  sec ← out_of now 0;
  usec ← out_of now 1;
  nsec ← liftO (checked is_long (usec * 1000));
  sec ← liftO (checked is_long (sec + nanoseconds `quot` NSEC));
  nsec ← liftO (checked is_long (nsec + nanoseconds `rem` NSEC));
  mret (sec, nsec).

Definition schGetTime : ME Z :=
  a ← call c_gettimeofday;
  if decide (ans_ret a = 0) then
    sec ← out_of a 0;
    usec ← out_of a 1;
    t ← liftO (checked is_long (sec * 1000000));
    t ← liftO (checked is_long (t + usec));
    liftO (checked is_long (t * 1000))
  else
    now ← call c_clock_gettime_raw;
    sec ← out_of now 0;
    nsec ← out_of now 1;
    t ← liftO (checked is_long (sec * NSEC));
    liftO (checked is_long (t + nsec)).

Definition schTimeResolution : ME Z :=
  spec ← call c_clock_getres;
  nsec ← out_of spec 1;
  if decide (nsec = 0) then undef else mret (NSEC `quot` nsec).

(** *** Threads *)

(** [CPU_SET] of a negative core selects none; the set is used for a core only. *)
Definition schCreateThread (affinity pfunc userData : Z) : ME Z :=
  _ ← call c_attr_init;
  failed ← (if decide (0 <= affinity) then
              r ← ret_of (c_attr_setaffinity affinity); mret (truthy r)
            else mret false);
  if (failed : bool) then mret NULL
  else
    a ← call (c_pthread_create pfunc userData);
    if decide (ans_ret a ≠ 0) then mret NULL
    else
      t0 ← out_of a 0;
      _ ← call c_attr_destroy;
      mret t0.

Definition schDeleteThread (thread : Z) : ME Z := checked_call (c_pthread_detach thread).

(** The status and, when the join stored one, the value of the thread. *)
Definition schWaitThread (thread : Z) : ME (Z * option Z) :=
  a ← call (c_pthread_join thread);
  mret (pthread_error_code2sch_error_code (ans_ret a), ans_out a !! 0%nat).

Definition schCurrentThread : ME Z := ret_of c_pthread_self.

Definition schGetNumCPUCores : ME Z := r ← ret_of c_sysconf_nprocessors; mret (s32 r).

Definition schSetThreadName (thread : Z) (threadName : string) : ME Z :=
  checked_call (c_pthread_setname thread threadName).

Definition schRaiseThreadSignal (thread signal : Z) : ME Z :=
  checked_call (c_pthread_kill thread signal).

(** *** Creation and release of synchronisation objects: status and pointer *)

Definition schCreateMutex : ME (Z * Z) :=
  mutex ← ret_of (c_malloc sizeof_mutex);
  _ ← assert_e (mret (truthy mutex));
  s ← checked_call (c_mutex_init mutex);
  mret (s, mutex).

Definition schCreateSpinLock : ME (Z * Z) :=
  spinlock ← ret_of (c_malloc sizeof_spinlock);
  _ ← assert_e (mret (truthy spinlock));
  s ← checked_call (c_spin_init spinlock);
  mret (s, spinlock).

Definition schCreateSemaphore : ME (Z * Z) :=
  sem ← ret_of (c_malloc sizeof_sem);
  _ ← assert_e (mret (truthy sem));
  s ← errno_call (c_sem_init sem);
  mret (s, sem).

Definition schCreateBarrier : ME (Z * Z) :=
  barrier ← ret_of (c_malloc sizeof_barrier);
  _ ← (if decide (barrier = NULL) then undef else call (c_memset barrier sizeof_barrier));
  mret (err_code SCH_OK, barrier).

Definition schInitBarrier (pBarrier count : Z) : ME Z :=
  checked_call (c_barrier_init pBarrier (u32 count)).

Definition schDeleteBarrier (barrier : Z) : ME Z :=
  s ← checked_call (c_barrier_destroy barrier);
  _ ← call (c_free barrier);
  mret s.

Definition schWaitBarrier (barrier : Z) : ME Z :=
  status ← ret_of (c_barrier_wait barrier);
  if decide (status = PTHREAD_BARRIER_SERIAL_THREAD) then mret (err_code SCH_OK)
  else mret (pthread_error_code2sch_error_code status).

Definition schCreateConditional : ME (Z * Z) :=
  cond ← ret_of (c_malloc sizeof_cond);
  s ← checked_call (c_cond_init cond);
  mret (s, cond).

Definition schDeleteConditional (conditional : Z) : ME Z :=
  checked_call (c_cond_destroy conditional).

Definition schConditionalWait (conditional mutex : Z) : ME Z :=
  checked_call (c_cond_wait conditional mutex).

Definition schConditionalSignal (conditional : Z) : ME Z :=
  checked_call (c_cond_signal conditional).

Definition schCreateRWLock : ME (Z * Z) :=
  rwLock ← ret_of (c_malloc sizeof_rwlock);
  s ← checked_call (c_rwlock_init rwLock);
  mret (s, rwLock).

Definition schDeleteRWLock (rwLock : Z) : ME Z :=
  s ← checked_call (c_rwlock_destroy rwLock);
  _ ← call (c_free rwLock);
  mret s.

Definition schRWLockRead (rwLock : Z) : ME Z := checked_call (c_rwlock_rdlock rwLock).
Definition schRWLockWrite (rwLock : Z) : ME Z := checked_call (c_rwlock_wrlock rwLock).
Definition schRWLocUnLock (rwLock : Z) : ME Z := checked_call (c_rwlock_unlock rwLock).

Definition schDeleteMutex (mutex : Z) : ME Z :=
  s ← checked_call (c_mutex_destroy mutex);
  _ ← call (c_free mutex);
  mret s.

Definition schDeleteSpinLock (spinlock : Z) : ME Z :=
  s ← checked_call (c_spin_destroy spinlock);
  _ ← call (c_free spinlock);
  mret s.

Definition schDeleteSemaphore (pSemaphore : Z) : ME Z :=
  s ← checked_call (c_sem_destroy pSemaphore);
  _ ← call (c_free pSemaphore);
  mret s.

(** *** Locking *)

Definition schLockSpinLock (spinlock : Z) : ME Z := checked_call (c_spin_lock spinlock).
Definition schTryLockSpinLock (spinLock : Z) : ME Z := checked_call (c_spin_trylock spinLock).
Definition schUnlockSpinLock (spinlock : Z) : ME Z := checked_call (c_spin_unlock spinlock).

Definition schMutexLock (mutex : Z) : ME Z := checked_call (c_mutex_lock mutex).

Definition schMutexTryLock (mutex timeout : Z) : ME Z :=
  let spec := timespec_of timeout in
  checked_call (c_mutex_timedlock mutex (fst spec) (snd spec)).

Definition schMutexUnLock (mutex : Z) : ME Z :=
  error ← ret_of (c_mutex_unlock mutex);
  if decide (error = 0) then mret (err_code SCH_OK)
  else mret (pthread_error_code2sch_error_code error).

Definition schSemaphoreWait (pSemaphore : Z) : ME Z := errno_call (c_sem_wait pSemaphore).
Definition schSemaphoreTryWait (semaphore : Z) : ME Z := errno_call (c_sem_trywait semaphore).

Definition schSemaphoreTimedWait (pSemaphore timeout : Z) : ME Z :=
  let spec := timespec_of timeout in
  errno_call (c_sem_timedwait pSemaphore (fst spec) (snd spec)).

Definition schSemaphorePost (pSemaphore : Z) : ME Z := errno_call (c_sem_post pSemaphore).

(** The status and, on success, the value stored. *)
Definition schSemaphoreValue (pSemaphore : Z) : ME (Z * option Z) :=
  a ← call (c_sem_getvalue pSemaphore);
  if decide (ans_ret a = 0) then mret (err_code SCH_OK, ans_out a !! 0%nat)
  else err ← get_errno; mret (pthread_error_code2sch_error_code err, ans_out a !! 0%nat).

(** *** Signals *)

Definition schCreateSignal : ME Z :=
  sig ← ret_of (c_malloc sizeof_sigset);
  _ ← assert_e (mret (truthy sig));
  mret sig.

Definition schDeleteSignal (signal : Z) : ME Z :=
  _ ← call (c_free signal);
  mret (err_code SCH_OK).

Definition schSignalWait (sig : Z) : ME Z :=
  a ← call (c_sigwait sig);
  if decide (ans_ret a = 0) then out_of a 0 else mret (-1).

(** [info] is not initialised, and [sigtimedwait] stores a signal in it only when it
    returns one. *)
Definition schSignalWaitTimeOut (sig nano : Z) : ME Z :=
  info ← gets (λ e, indet (world e));
  let spec := timespec_of nano in
  a ← call (c_sigtimedwait sig (fst spec) (snd spec));
  mret (default info (ans_out a !! 0%nat)).

(** The loop of [schSetSignalThreadMask]: the first error it meets. *)
Fixpoint add_signals (set : Z) (signals : list Z) : ME (option Z) :=
  match signals with
  | [] => mret None
  | s :: signals =>
      err ← ret_of (c_sigaddset set s);
      if decide (err ≠ 0) then
        _ ← call (c_sigemptyset set);
        mret (Some (pthread_error_code2sch_error_code err))
      else add_signals set signals
  end.

(** [signals] holds the [nr] signals of the array. *)
Definition schSetSignalThreadMask (set : Z) (signals : list Z) : ME Z :=
  _ ← assert_e (r ← ret_of (c_sigemptyset set); mret (bool_decide (r = 0)));
  failed ← add_signals set signals;
  match failed with
  | Some e => mret e
  | None =>
      err ← ret_of (c_sigmask_block set);
      if decide (err ≠ 0) then mret (-1)
      else mret (pthread_error_code2sch_error_code err)
  end.
End platform.

(** ** Reasoning about calls *)

(** The calls a state has made. *)
Definition calls {W} (e : env W) : list syscall := fst <$> trace e.

(** Calls that touch signal sets. *)
Definition is_signal_call (c : syscall) : bool :=
  match c with c_sigemptyset _ | c_sigaddset _ _ | c_sigmask_block _ => true | _ => false end.

Section facts.
Context {W : Type} `{Posix W}.

(** The environment after a call. *)
Definition after (c : syscall) (e : env W) : env W :=
  mkEnv (snd (sys c (world e))) (trace e ++ [(c, fst (sys c (world e)))]).

Lemma call_eq c (e : env W) : call c e = Done (fst (sys c (world e)), after c e).
Proof. unfold call, after. by destruct (sys c (world e)). Qed.

Lemma ret_of_eq c (e : env W) : ret_of c e = Done (ans_ret (fst (sys c (world e))), after c e).
Proof. unfold ret_of, mbind, M_bind. by rewrite call_eq. Qed.

Lemma checked_call_eq c (e : env W) :
  checked_call c e
  = Done (pthread_error_code2sch_error_code (ans_ret (fst (sys c (world e)))), after c e).
Proof. unfold checked_call, mbind, M_bind. by rewrite ret_of_eq. Qed.

Lemma calls_after c (e : env W) : calls (after c e) = calls e ++ [c].
Proof. unfold calls, after. cbn. by rewrite fmap_app. Qed.

Lemma M_bind_eq {S A B} (m : M S A) (k : A → M S B) s a s' :
  m s = Done (a, s') → (m ≫= k) s = k a s'.
Proof. intros Hm. unfold mbind, M_bind. by rewrite Hm. Qed.

Lemma add_signals_ok set signals (e : env W) :
  (∀ c w, is_signal_call c = true → ans_ret (fst (sys c w)) = 0) →
  ∃ e', add_signals set signals e = Done (None, e') ∧
    calls e' = calls e ++ (c_sigaddset set <$> signals).
Proof.
  intros Hok. revert e. induction signals as [|s signals IH]; intros e.
  { exists e. cbn. by rewrite app_nil_r. }
  cbn [add_signals]. erewrite M_bind_eq by apply ret_of_eq.
  rewrite Hok, decide_False by (done || intros []; done).
  destruct (IH (after (c_sigaddset set s) e)) as (e' & -> & Hc). exists e'. split; [done|].
  rewrite Hc, calls_after, <-app_assoc. done.
Qed.
End facts.

(** ** A system for the witnesses

    Requests succeed, but for the calls of [os_answers], which get the answer listed
    there.  [malloc] and [pthread_create] hand out increasing numbers. *)
Record simple_os : Type := mkOS {
  os_next : Z;
  os_answers : list (syscall * answer);
  os_errno : Z;
  os_indet : Z;
}.

Fixpoint find_answer (c : syscall) (l : list (syscall * answer)) : option answer :=
  match l with
  | [] => None
  | (c', a) :: l => if decide (c = c') then Some a else find_answer c l
  end.

Definition os_sys (c : syscall) (w : simple_os) : answer * simple_os :=
  match find_answer c (os_answers w) with
  | Some a => (a, w)
  | None =>
      match c with
      | c_malloc n => (mkAnswer (os_next w) [], w <| os_next ::= Z.add (16 * (n / 16 + 1)) |>)
      | c_pthread_create _ _ => (mkAnswer 0 [os_next w], w <| os_next ::= Z.add 16 |>)
      | c_pthread_self => (mkAnswer 7 [], w)
      | c_sysconf_nprocessors => (mkAnswer 4 [], w)
      | c_gettimeofday => (mkAnswer 0 [100; 250], w)
      | c_clock_gettime_raw => (mkAnswer 0 [100; 250], w)
      | c_clock_getres => (mkAnswer 0 [0; 1], w)
      | c_sigwait _ => (mkAnswer 0 [SCH_SIGNAL_CONTINUE], w)
      | c_sigtimedwait _ _ _ => (mkAnswer SCH_SIGNAL_DONE [SCH_SIGNAL_DONE], w)
      | _ => (mkAnswer 0 [], w)
      end
  end.

#[export] Instance simple_posix : Posix simple_os := {|
  sys := os_sys;
  errno := os_errno;
  indet := os_indet;
|}.

(** Every call answers 0. *)
Definition zero_posix : Posix () := {|
  sys _ w := (mkAnswer 0 [], w);
  errno _ := 0;
  indet _ := 0;
|}.

(** Everything succeeds. *)
Definition good_os : env simple_os := mkEnv (mkOS 4096 [] 0 0) [].
(** Some calls are answered as given. *)
Definition os_with (l : list (syscall * answer)) (err : Z) : env simple_os :=
  mkEnv (mkOS 4096 l err 55) [].

(** ** Properties *)

(** When the system grants every request, [schSetSignalThreadMask] adds the given
    signals and blocks the set.  The set is emptied first in debug builds only: the call
    of [sigemptyset] is inside an [assert], so a release build adds the signals to
    whatever the freshly allocated set holds. *)
Theorem schSetSignalThreadMask_calls {W} `{Posix W} NDEBUG set signals (e : env W) :
  (∀ c w, is_signal_call c = true → ans_ret (fst (sys c w)) = 0) →
  ∃ e', schSetSignalThreadMask NDEBUG set signals e = Done (err_code SCH_OK, e') ∧
    calls e' = calls e ++ (if NDEBUG then [] else [c_sigemptyset set])
      ++ (c_sigaddset set <$> signals) ++ [c_sigmask_block set].
Proof.
  intros Hok. unfold schSetSignalThreadMask.
  assert (∃ e1, assert_e NDEBUG (r ← ret_of (c_sigemptyset set); mret (bool_decide (r = 0))) e
    = Done ((), e1) ∧ calls e1 = calls e ++ (if NDEBUG then [] else [c_sigemptyset set]))
    as (e1 & He1 & Hc1).
  { destruct NDEBUG; [exists e; by rewrite app_nil_r|]. exists (after (c_sigemptyset set) e).
    unfold assert_e, mbind, M_bind. rewrite ret_of_eq, Hok by done. by rewrite calls_after. }
  rewrite (M_bind_eq _ _ _ _ _ He1).
  destruct (add_signals_ok set signals e1 Hok) as (e2 & He2 & Hc2).
  rewrite (M_bind_eq _ _ _ _ _ He2). erewrite M_bind_eq by apply ret_of_eq.
  rewrite Hok, decide_False by (done || intros []; done).
  eexists. split; [done|]. by rewrite calls_after, Hc2, Hc1, <-!app_assoc.
Qed.

Lemma schSetSignalThreadMask_calls_witness :
  ∃ e', schSetSignalThreadMask (H := zero_posix) true 8 [13; 12] (mkEnv () [])
        = Done (err_code SCH_OK, e') ∧
    calls e' = [] ++ [] ++ [c_sigaddset 8 13; c_sigaddset 8 12] ++ [c_sigmask_block 8].
Proof.
  apply (schSetSignalThreadMask_calls (H := zero_posix) true 8 [13; 12] (mkEnv () [])).
  intros c w _. reflexivity.
Defined.

(** The timed waits split a non-negative number of nanoseconds into a valid
    [timespec] without loss.  [maketimeout] adds such a [timespec] to the current time and
    does not carry: the nanoseconds it returns are a valid [tv_nsec] exactly when the two
    nanosecond parts do not add up to a second. *)
Theorem timeouts {W} `{Posix W} ns sec usec a w (e : env W) :
  0 <= ns <= LONG_MAX → 0 <= usec < 1000000 → 0 <= sec <= INT_MAX →
  sys c_gettimeofday (world e) = (mkAnswer a [sec; usec], w) →
  (fst (timespec_of ns) * NSEC + snd (timespec_of ns) = ns ∧ 0 <= snd (timespec_of ns) < NSEC) ∧
  ∃ e' s n, maketimeout ns e = Done ((s, n), e') ∧
    s * NSEC + n = (sec * NSEC + usec * 1000) + ns ∧ 0 <= n < 2 * NSEC ∧
    (n < NSEC ↔ usec * 1000 + ns mod NSEC < NSEC).
Proof.
  intros Hns Husec Hsec Hsys. unfold timespec_of, NSEC, LONG_MAX, INT_MAX in *. cbn [fst snd].
  rewrite Z.quot_div_nonneg, Z.rem_mod_nonneg by lia.
  pose proof (Z.div_mod ns 1000000000). pose proof (Z.mod_pos_bound ns 1000000000).
  pose proof (Z.div_pos ns 1000000000).
  split; [lia|]. unfold maketimeout.
  erewrite M_bind_eq by apply call_eq. rewrite Hsys. unfold NSEC.
  rewrite Z.quot_div_nonneg, Z.rem_mod_nonneg by lia.
  assert (∀ z, LONG_MIN <= z <= LONG_MAX → checked is_long z = Done z) as Hlong.
  { intros z Hz%is_long_spec. unfold checked. by rewrite Hz. }
  unfold LONG_MIN, LONG_MAX in Hlong. unfold mbind, M_bind, out_of, liftO. cbn -[is_long].
  rewrite Hlong by lia. cbn -[is_long]. rewrite Hlong by lia. cbn -[is_long].
  rewrite Hlong by lia. cbn -[is_long]. eexists _, _, _. split; [done|]. lia.
Qed.

Lemma timeouts_witness :
  (fst (timespec_of 1999999999) * NSEC + snd (timespec_of 1999999999) = 1999999999 ∧
   0 <= snd (timespec_of 1999999999) < NSEC) ∧
  ∃ e' s n, maketimeout 1999999999 good_os = Done ((s, n), e') ∧
    s * NSEC + n = (100 * NSEC + 250 * 1000) + 1999999999 ∧ 0 <= n < 2 * NSEC ∧
    (n < NSEC ↔ 250 * 1000 + 1999999999 mod NSEC < NSEC).
Proof.
  apply (timeouts 1999999999 100 250 0 (world good_os)); try reflexivity;
    vm_compute; intuition discriminate.
Defined.

(** When [sigtimedwait] stores no signal, because it timed out or failed,
    [schSignalWaitTimeOut] returns the value of an uninitialised variable, whatever
    [sigtimedwait] returned: its callers cannot see the failure. *)
Theorem schSignalWaitTimeOut_unset {W} `{Posix W} sig nano r w (e : env W) :
  sys (c_sigtimedwait sig (fst (timespec_of nano)) (snd (timespec_of nano))) (world e)
    = (mkAnswer r [], w) →
  ∃ e', schSignalWaitTimeOut sig nano e = Done (indet (world e), e').
Proof.
  intros Hsys. unfold schSignalWaitTimeOut, mbind, M_bind, gets. rewrite call_eq, Hsys. cbn. eauto.
Qed.

Lemma schSignalWaitTimeOut_unset_witness :
  ∃ e', schSignalWaitTimeOut 8 10000 (os_with [(c_sigtimedwait 8 0 10000, mkAnswer (-1) [])] EAGAIN)
        = Done (55, e').
Proof.
  exact (schSignalWaitTimeOut_unset 8 10000 (-1)
    (world (os_with [(c_sigtimedwait 8 0 10000, mkAnswer (-1) [])] EAGAIN))
    (os_with [(c_sigtimedwait 8 0 10000, mkAnswer (-1) [])] EAGAIN) eq_refl).
Defined.

(** [schCreateThread] answers a thread only when [pthread_create] made one, with the
    requested core set in its attributes; when it answers [NULL] on failure it leaves the
    attribute object it initialised without destroying it. *)
Theorem schCreateThread_branches {W} `{Posix W} affinity pfunc arg (e e' : env W) t :
  schCreateThread affinity pfunc arg e = Done (t, e') →
  let pre := c_attr_init :: (if decide (0 <= affinity) then [c_attr_setaffinity affinity] else []) in
  (t = NULL ∧ (calls e' = calls e ++ pre ∨ calls e' = calls e ++ pre ++ [c_pthread_create pfunc arg]))
  ∨ (calls e' = calls e ++ pre ++ [c_pthread_create pfunc arg; c_attr_destroy] ∧
     ∃ out, (c_pthread_create pfunc arg, mkAnswer 0 (t :: out)) ∈ trace e').
Proof.
  unfold schCreateThread. erewrite M_bind_eq by apply call_eq.
  set (e1 := after c_attr_init e).
  assert (∃ failed e2, (if decide (0 <= affinity) then
      r ← ret_of (c_attr_setaffinity affinity); mret (truthy r) else mret false) e1
      = Done (failed, e2) ∧ calls e2 = calls e1 ++
      (if decide (0 <= affinity) then [c_attr_setaffinity affinity] else []))
    as (failed & e2 & He2 & Hc2).
  { case_decide.
    - eexists _, _. unfold mbind, M_bind. rewrite ret_of_eq. split; [done|apply calls_after].
    - exists false, e1. by rewrite app_nil_r. }
  rewrite (M_bind_eq _ _ _ _ _ He2). unfold e1 in Hc2. rewrite calls_after, <-app_assoc in Hc2.
  cbn [app] in Hc2. destruct failed.
  { intros [= <- <-]. left. split; [done|]. left. done. }
  erewrite M_bind_eq by apply call_eq.
  destruct (sys (c_pthread_create pfunc arg) (world e2)) as [[r out] w2] eqn:Hcr. cbn [fst ans_ret].
  destruct (decide (r ≠ 0)) as [Hr|Hr].
  - intros [= <- <-]. left. split; [done|]. right. by rewrite calls_after, Hc2, <-app_assoc.
  - destruct out as [|t0 out]; [done|]. unfold mbind, M_bind, out_of. cbn. rewrite call_eq.
    intros [= <- <-]. right. rewrite !calls_after, Hc2, <-!app_assoc. split; [done|].
    assert (r = 0) as -> by lia. exists out. unfold after. cbn. rewrite Hcr. cbn.
    apply elem_of_app. left. apply elem_of_app. right. left.
Qed.

Lemma schCreateThread_branches_witness :
  let e := os_with [(c_pthread_create 3 5, mkAnswer EAGAIN [])] EAGAIN in
  ∃ e', schCreateThread 2 3 5 e = Done (NULL, e') ∧
  let pre := c_attr_init :: (if decide (0 <= 2) then [c_attr_setaffinity 2] else []) in
  ((NULL = NULL ∧ (calls e' = calls e ++ pre ∨ calls e' = calls e ++ pre ++ [c_pthread_create 3 5]))
  ∨ (calls e' = calls e ++ pre ++ [c_pthread_create 3 5; c_attr_destroy] ∧
     ∃ out, (c_pthread_create 3 5, mkAnswer 0 (NULL :: out)) ∈ trace e')).
Proof.
  intros e. eexists. split; [reflexivity|].
  apply (schCreateThread_branches 2 3 5 e). reflexivity.
Defined.
