(* ===== verification/Scheduler.v ===== *)
(** * The scheduler (src/taskSch.c)

    The public operations of the library, as state-passing code: the state is the
    scheduler object with the environment of Platform.v.  The memory of the object is the
    record [schTaskSch]; freeing an array empties the list that stands for it, so that a
    later access is undefined.  Contents of memory that nothing has written yet are
    section variables, so theorems hold for all of them.

    The pool threads run while the caller waits.  What they do to the shared object is
    the section variable [others], applied whenever the caller blocks; the threads
    themselves are in Executor.v and Concurrency.v. *)
From S2P Require Import Prelude Errors Flags Structures Heapify TaskQueue Platform.

Record sched (W : Type) : Type := mkSched {
  sc_addr : Z; (* the address of the object; [NULL] when the caller passes none *)
  sc_ts : schTaskSch;
  sc_env : env W;
}.
Arguments mkSched {W} _ _ _.
Arguments sc_addr {W} _.
Arguments sc_ts {W} _.
Arguments sc_env {W} _.

(** The address of the code the pool threads run. *)
Definition schPoolExecutor_addr : Z := 0x4000.

Section scheduler.
Context {W : Type} `{Posix W}.
Variable NDEBUG : bool.
(** Uninitialised memory: the pools, the cells of [dheap], the cells of the queues. *)
Variable uninit_pool : nat → schTaskPool.
Variable uninit_cell : nat → nat.
Variable uninit_package : nat → schTaskPackage.
(** The pool threads, while the caller is blocked. *)
Variable others : schTaskSch → W → schTaskSch.

#[local] Abbreviation ME := (M (env W)).
#[local] Abbreviation MS := (M (sched W)).

(** A platform function, called by the scheduler. *)
Definition plat {A} (m : ME A) : MS A := λ s,
  '(a, e) ← m (sc_env s); Done (a, s <| sc_env := e |>).

(** Fields of the object. *)
Definition get_ts {A} (f : schTaskSch → A) : MS A := gets (λ s, f (sc_ts s)).
Definition set_ts (f : schTaskSch → schTaskSch) : MS () := modify (λ s, s <| sc_ts ::= f |>).

(** [sch->pool[i]]: reading it, and updating it. *)
Definition get_pool (i : Z) : MS schTaskPool :=
  pools ← get_ts ts_pools; liftO (deref (at_index pools i)).
Definition set_pool (i : Z) (f : schTaskPool → schTaskPool) : MS () :=
  pool ← get_pool i;
  set_ts (λ ts, ts <| ts_pools ::= <[Z.to_nat i := f pool]> |>).

(** The other threads run. *)
Definition interfere : MS () := modify (λ s, s <| sc_ts ::= λ ts, others ts (world (sc_env s)) |>).

(** [sch->flag & mask] as a condition. *)
Definition flag_has (mask : Z) : MS bool := get_ts (λ ts, has (ts_flag ts) mask).

(** ** Creation and release *)

Definition sch_release_scheduler_resources : MS () :=
  pool ← get_ts ts_pool;
  _ ← (if decide (pool ≠ NULL) then
         _ ← plat (call (c_free pool)); set_ts (λ ts, ts <| ts_pools := [] |>)
       else mret ());
  dheap ← get_ts ts_dheap;
  _ ← (if decide (dheap ≠ NULL) then
         _ ← plat (call (c_free dheap)); set_ts (λ ts, ts <| ts_dheaps := [] |>)
       else mret ());
  set ← get_ts ts_set;
  _ ← (if decide (set ≠ NULL) then _ ← plat (schDeleteSignal set); mret () else mret ());
  spinlock ← get_ts ts_spinlock;
  if decide (spinlock ≠ NULL) then _ ← plat (schDeleteSpinLock spinlock); mret () else mret ().

(** The new object's address and the status. *)
Definition schAllocateTaskPool : ME (Z * Z) :=
  p ← ret_of (c_malloc sizeof_schTaskSch);
  err ← get_errno;
  mret (p, translate_errno_to_sch_error err).

(** The label [error] of [schCreateTaskPool]. *)
Definition create_failed (status : Z) : MS Z := _ ← sch_release_scheduler_resources; mret status.

(** The assignments of the loop of [schCreateTaskPool] to the fields of pool [i]. *)
Definition init_pool (package thread sch i maxPackagesPool : Z) (pool : schTaskPool) : schTaskPool :=
  pool <| tp_package := package |>
       <| tp_packages := if decide (package = NULL) then []
                         else uninit_package <$> seq 0 (Z.to_nat maxPackagesPool) |>
       <| tp_head := 0 |> <| tp_tail := 0 |>
       <| tp_size := 0 |> <| tp_reserved := maxPackagesPool |>
       <| tp_avergeDeque := 0 |> <| tp_dheapPriority := 0 |>
       <| tp_init := NULL |> <| tp_deinit := NULL |> <| tp_userdata := NULL |>
       <| tp_thread := NULL |> <| tp_set := NULL |> <| tp_mutex := NULL |>
       <| tp_schRefThread := thread |> <| tp_sch := sch |>
       <| tp_index := i |> <| tp_flag := 0 |>.

(** The body of that loop. *)
Definition create_pool (i : Z) (maxPackagesPool : Z) : MS () :=
  dheaps ← get_ts ts_dheaps;
  dheaps ← liftO (store dheaps i (Z.to_nat i));
  _ ← set_ts (λ ts, ts <| ts_dheaps := dheaps |>);
  package ← plat (ret_of (c_malloc (u64 (sizeof_schTaskPackage * maxPackagesPool))));
  thread ← plat schCurrentThread;
  sch ← gets sc_addr;
  set_pool i (init_pool package thread sch i maxPackagesPool).

(** [for (i = first; i < first + n; i++) body(i)]. *)
Fixpoint for_loop (n : nat) (first : Z) (body : Z → MS ()) : MS () :=
  match n with
  | O => mret ()
  | S n => _ ← body first; for_loop n (first + 1) body
  end.

(** From the creation of the signal set on. *)
Definition create_objects (maxPackagesPool : Z) : MS Z :=
  set ← plat (schCreateSignal NDEBUG);
  _ ← set_ts (λ ts, ts <| ts_set := set |>);
  if decide (set = NULL) then create_failed SCH_ERROR_UNKNOWN else
  '(status, spinlock) ← plat (schCreateSpinLock NDEBUG);
  _ ← set_ts (λ ts, ts <| ts_spinlock := spinlock |>);
  if decide (status ≠ err_code SCH_OK) then create_failed status else
  '(status, mutex) ← plat (schCreateMutex NDEBUG);
  _ ← set_ts (λ ts, ts <| ts_mutex := mutex |>);
  if decide (status ≠ err_code SCH_OK) then create_failed status else
  '(status, conditional) ← plat schCreateConditional;
  _ ← set_ts (λ ts, ts <| ts_conditional := conditional |>);
  if decide (status ≠ err_code SCH_OK) then create_failed status else
  '(status, barrier) ← plat schCreateBarrier;
  _ ← set_ts (λ ts, ts <| ts_barrier := barrier |>);
  if decide (status ≠ err_code SCH_OK) then create_failed status else
  num ← get_ts ts_num;
  status ← plat (schInitBarrier barrier (s32 num));
  if decide (status ≠ err_code SCH_OK) then create_failed status else
  _ ← for_loop (Z.to_nat num) 0 (λ i, create_pool i maxPackagesPool);
  _ ← set_ts (λ ts, ts <| ts_flag ::= λ f, Z.lor f SCH_FLAG_INIT |>);
  mret status.

Definition schCreateTaskPool (cores flag maxPackagesPool : Z) : MS Z :=
  sch ← gets sc_addr;
  if decide (sch = NULL) then mret (err_code SCH_ERROR_INVALID_SCH) else
  ncores ← plat schGetNumCPUCores;
  if decide (cores > ncores) then mret (err_code SCH_ERROR_INVALID_ARG) else
  cores ← (if decide (cores = -1) then plat schGetNumCPUCores else mret cores);
  let num := u32 cores in
  _ ← set_ts (λ ts, ts <| ts_num := num |>
                       <| ts_flag := Z.land flag (Z.lnot (Z.lor SCH_FLAG_INIT SCH_FLAG_RUNNING)) |>);
  pool ← plat (ret_of (c_malloc (u64 (sizeof_schTaskPool * num))));
  _ ← set_ts (λ ts, ts <| ts_pool := pool |>
                       <| ts_pools := if decide (pool = NULL) then []
                                      else uninit_pool <$> seq 0 (Z.to_nat num) |>);
  if decide (pool = NULL) then
    err ← plat get_errno; create_failed (translate_errno_to_sch_error err)
  else
  dheap ← plat (ret_of (c_malloc (u64 (sizeof_pointer * num))));
  _ ← set_ts (λ ts, ts <| ts_dheap := dheap |>
                       <| ts_dheaps := if decide (dheap = NULL) then []
                                       else uninit_cell <$> seq 0 (Z.to_nat num) |>);
  if decide (dheap = NULL) then
    err ← plat get_errno; create_failed (translate_errno_to_sch_error err)
  else create_objects maxPackagesPool.

(** ** Attributes of the pools *)

(** Loops over every pool: [for (i = 0; i < sch->num; i++)]. *)
Definition for_pools (body : Z → MS ()) : MS () :=
  num ← get_ts ts_num; for_loop (Z.to_nat num) 0 body.

Definition schSetInitCallBack (callback : Z) : MS () :=
  for_pools (λ i, set_pool i (λ pool, pool <| tp_init := callback |>)).

Definition schSetDeInitCallBack (callback : Z) : MS () :=
  for_pools (λ i, set_pool i (λ pool, pool <| tp_deinit := callback |>)).

Definition schSetPoolUserData (index user : Z) : MS () :=
  set_pool index (λ pool, pool <| tp_userdata := user |>).

Definition schSetSchUserData (user : Z) : MS () := for_pools (λ i, schSetPoolUserData i user).

Definition schGetPoolUserData (index : Z) : MS Z := pool ← get_pool index; mret (tp_userdata pool).

(** The pool's address, as an index of [sch->pool]: the index is not checked. *)
Definition schGetPool (index : Z) : MS Z := mret index.

(** ** Waiting *)

(** [while (!(sch->flag & SCH_FLAG_RUNNING)) schConditionalWait(..)] *)
Fixpoint wait_running (fuel : nat) : MS () :=
  running ← flag_has SCH_FLAG_RUNNING;
  if (running : bool) then mret () else
  match fuel with
  | O => out_of_fuel
  | S fuel =>
      conditional ← get_ts ts_conditional;
      mutex ← get_ts ts_mutex;
      _ ← plat (schConditionalWait conditional mutex);
      _ ← interfere;
      wait_running fuel
  end.

(** The pool has no task and its SLEEP bit is set. *)
Definition pool_idle (pool : schTaskPool) : bool :=
  has (tp_flag pool) SCH_POOL_SLEEP && (tp_size pool <=? 0).

(** The loop over the pools; an idle pool is passed, another one is polled again after
    a wait of 10 microseconds for a signal. *)
Fixpoint wait_pools (fuel : nat) (i : Z) : MS () :=
  num ← get_ts ts_num;
  if decide (num <= i) then mret () else
  match fuel with
  | O => out_of_fuel
  | S fuel =>
      pool ← get_pool i;
      if pool_idle pool then wait_pools fuel (i + 1)
      else
        set ← get_ts ts_set;
        _ ← plat (schSignalWaitTimeOut set 10000);
        _ ← interfere;
        wait_pools fuel i
  end.

(** [wait] is not used. *)
Definition schWaitTaskWait (fuel : nat) (wait : Z) : MS Z :=
  running ← flag_has SCH_FLAG_RUNNING;
  if negb running then mret (err_code SCH_ERROR_INVALID_STATE) else
  mutex ← get_ts ts_mutex;
  _ ← plat (schMutexLock mutex);
  _ ← wait_running fuel;
  _ ← plat (schMutexUnLock mutex);
  _ ← wait_pools fuel 0;
  mret (err_code SCH_OK).

Definition schWaitTask (fuel : nat) : MS Z := schWaitTaskWait fuel (-1).

(** ** Termination *)

(** One turn of the loop of [schTerminateTaskSch]: the new [status].  The threads go on while the
    caller waits for one of them. *)
Definition terminate_pool (x status : Z) : MS Z :=
  pool ← get_pool x;
  if decide (tp_thread pool = NULL) then mret status
  else
    r ← plat (schRaiseThreadSignal (tp_thread pool) SIGTERM);
    let status := Z.land status r in
    '(r, _) ← plat (schWaitThread (tp_thread pool));
    let status := Z.land status r in
    _ ← interfere;
    _ ← set_pool x (λ pool, pool <| tp_thread := NULL |> <| tp_schRefThread := NULL |>);
    pool ← get_pool x;
    status ← (if decide (tp_mutex pool ≠ NULL) then
                r ← plat (schDeleteMutex (tp_mutex pool)); mret (Z.land status r)
              else mret status);
    status ← (if decide (tp_set pool ≠ NULL) then
                r ← plat (schDeleteSignal (tp_set pool)); mret (Z.land status r)
              else mret status);
    _ ← set_pool x (λ pool, pool <| tp_mutex := NULL |> <| tp_set := NULL |>);
    mret status.

Fixpoint terminate_pools (fuel : nat) (x status : Z) : MS Z :=
  num ← get_ts ts_num;
  if decide (num <= x) then mret status else
  match fuel with
  | O => out_of_fuel
  | S fuel => status ← terminate_pool x status; terminate_pools fuel (x + 1) status
  end.

Definition schTerminateTaskSch (fuel : nat) : MS Z :=
  init ← flag_has SCH_FLAG_INIT;
  if negb init then mret (err_code SCH_OK) else
  running ← flag_has SCH_FLAG_RUNNING;
  if negb running then mret (err_code SCH_OK) else
  status ← schWaitTask fuel;
  status ← terminate_pools fuel 0 status;
  _ ← set_ts (λ ts, ts <| ts_flag ::= λ f, Z.land f (Z.lnot SCH_FLAG_RUNNING) |>);
  mret (if truthy status then err_code SCH_OK else err_code SCH_ERROR_UNKNOWN).

Definition release_pool (x : Z) : MS () :=
  pool ← get_pool x;
  _ ← plat (call (c_free (tp_package pool)));
  set_pool x (λ pool, pool <| tp_package := NULL |> <| tp_packages := [] |> <| tp_flag := 0 |>).

Definition schReleaseTaskSch (fuel : nat) : MS Z :=
  status ← schTerminateTaskSch fuel;
  if decide (status ≠ err_code SCH_OK ∧ status ≠ err_code SCH_ERROR_INVALID_STATE) then mret status
  else
    _ ← for_pools release_pool;
    _ ← sch_release_scheduler_resources;
    mret status.

(** ** Running *)

(** How a turn of the loop of [schRunTaskSch] ends: it goes on, returns, or goes to the
    label [failed]. *)
Inductive run_turn : Type :=
  | Continue
  | ReturnWith (status : Z)
  | Failed (status : Z).

(** [sprintf(buf, "task_schedule%d", i); buf[15] = 0] *)
Definition thread_name (i : Z) : string :=
  String.substring 0 15 (String.append "task_schedule" (pretty i)).

Definition run_pool (i : Z) : MS run_turn :=
  '(ok, mutex) ← plat (schCreateMutex NDEBUG);
  _ ← set_pool i (λ pool, pool <| tp_mutex := mutex |>);
  if negb (truthy ok) then mret (ReturnWith SCH_ERROR_INTERNAL) else
  set ← plat (schCreateSignal NDEBUG);
  _ ← set_pool i (λ pool, pool <| tp_set := set |>);
  no_afm ← flag_has SCH_FLAG_NO_AFM;
  let ncoreIndex := if (no_afm : bool) then -1 else i in
  thread ← plat (schCreateThread ncoreIndex schPoolExecutor_addr i);
  _ ← set_pool i (λ pool, pool <| tp_thread := thread |>);
  if decide (thread = NULL) then mret (Failed SCH_ERROR_INVALID_SCH) else
  _ ← plat (schSetThreadName thread (thread_name i));
  mret Continue.

Fixpoint run_pools (n : nat) (i : Z) : MS run_turn :=
  match n with
  | O => mret Continue
  | S n =>
      turn ← run_pool i;
      match turn with Continue => run_pools n (i + 1) | _ => mret turn end
  end.

(** Send CONTINUE to every pool; [false]: a signal could not be sent. *)
Fixpoint continue_pools (n : nat) (i : Z) : MS bool :=
  match n with
  | O => mret true
  | S n =>
      pool ← get_pool i;
      status ← plat (schRaiseThreadSignal (tp_thread pool) SCH_SIGNAL_CONTINUE);
      if decide (status ≠ err_code SCH_OK) then mret false else continue_pools n (i + 1)
  end.

Definition schRunTaskSch (fuel : nat) : MS Z :=
  init ← flag_has SCH_FLAG_INIT;
  if negb init then mret (err_code SCH_ERROR_INVALID_STATE) else
  set ← get_ts ts_set;
  status ← plat (schSetSignalThreadMask NDEBUG set
                   [SCH_SIGNAL_CONTINUE; SCH_SIGNAL_DONE; SCH_SIGNAL_RUNNING]);
  if decide (status ≠ err_code SCH_OK) then mret (err_code SCH_ERROR_INTERNAL) else
  num ← get_ts ts_num;
  turn ← run_pools (Z.to_nat num) 0;
  match turn with
  | ReturnWith status => mret status
  | Failed status => _ ← schTerminateTaskSch fuel; mret status
  | Continue =>
      num ← get_ts ts_num;
      ok ← continue_pools (Z.to_nat num) 0;
      if negb ok then mret (err_code SCH_ERROR_INTERNAL) else
      _ ← set_ts (λ ts, ts <| ts_flag ::= λ f, Z.lor f SCH_FLAG_RUNNING |>);
      mret (err_code SCH_OK)
  end.

(** [timeout] is not used. *)
Definition schStopTaskSch (timeout : Z) : MS Z :=
  init ← flag_has SCH_FLAG_INIT;
  if negb init then mret (err_code SCH_ERROR_INVALID_STATE) else
  running ← flag_has SCH_FLAG_RUNNING;
  if negb running then mret (err_code SCH_ERROR_INVALID_STATE) else
  num ← get_ts ts_num;
  ok ← continue_pools (Z.to_nat num) 0;
  mret (if (ok : bool) then err_code SCH_OK else err_code SCH_ERROR_INTERNAL).

(** ** Tasks *)

(** [taskPool] is [&sch->pool[p]]; its [sch] must be this object. *)
Definition schQueueMutexEnDeQueue (p dequeue : Z) (enqueue : option schTaskPackage) :
    MS queue_ptr :=
  taskPool ← get_pool p;
  self ← gets sc_addr;
  if decide (tp_sch taskPool ≠ self) then undef else
  spinlock ← get_ts ts_spinlock;
  _ ← plat (schLockSpinLock spinlock);
  taskPool ← get_pool p;
  '(package, taskPool) ← liftO (queue_critical taskPool dequeue enqueue);
  _ ← set_pool p (λ _, taskPool);
  _ ← plat (schUnlockSpinLock spinlock);
  mret package.

(** [schHeapify(sch)]. *)
Definition heapify : MS () :=
  ts ← get_ts id; ts ← liftO (schHeapify ts); set_ts (λ _, ts).

(** The end of [schSubmitTask]: a pool that sleeps on a queue that was empty is signalled;
    the status the function returns. *)
Definition wake_pool (p : Z) : MS Z :=
  pool ← get_pool p;
  if (tp_size pool <=? 1) && has (tp_flag pool) SCH_POOL_SLEEP then
    sent ← plat (schRaiseThreadSignal (tp_thread pool) SCH_SIGNAL_CONTINUE);
    if negb (truthy sent) then mret (err_code SCH_ERROR_SIGNAL) else
    barrier ← get_ts ts_barrier;
    num ← get_ts ts_num;
    _ ← plat (schInitBarrier barrier (s32 num));
    mret (err_code SCH_OK)
  else mret (err_code SCH_OK).

(** [schSubmitTask] from the test for a full queue on, for the pool chosen. *)
Definition submit_to (p : Z) (pkg : schTaskPackage) : MS (Z * option schTaskPackage) :=
  pool ← get_pool p;
  if decide (tp_size pool >= tp_reserved pool) then
    mret (err_code SCH_ERROR_POOL_FULL, Some pkg)
  else
    let pkg := pkg <| pk_index := tp_index pool |> in
    _ ← schQueueMutexEnDeQueue p 0 (Some pkg);
    pool ← get_pool p;
    prio ← liftO (checked is_long (tp_dheapPriority pool + 1000));
    _ ← set_pool p (λ pool, pool <| tp_dheapPriority := prio |>);
    status ← wake_pool p;
    mret (status, Some pkg).

(** [package] is the caller's package, [None] for [NULL]; the result is the status and the
    package after the call.  [pPool] is a pool of this scheduler. *)
Definition schSubmitTask (package : option schTaskPackage) (pPool : option nat) :
    MS (Z * option schTaskPackage) :=
  running ← flag_has SCH_FLAG_RUNNING;
  init ← flag_has SCH_FLAG_INIT;
  if negb running || negb init then mret (err_code SCH_ERROR_INVALID_STATE, package) else
  match package with
  | None => mret (err_code SCH_ERROR_INVALID_ARG, package)
  | Some pkg =>
      if decide (pk_callback pkg = NULL) then mret (err_code SCH_ERROR_INVALID_ARG, package) else
      _ ← heapify;
      p ← (match pPool with
           | None => dheaps ← get_ts ts_dheaps; liftO (deref (dheaps !! 0%nat))
           | Some p => mret p
           end);
      submit_to (Z.of_nat p) pkg
  end.

Definition schClearTask (pool : option nat) : MS Z := mret (err_code SCH_OK).
Definition schClearAllTask : MS Z := mret (err_code SCH_OK).
End scheduler.
