(* ===== verification/SchedulerFacts.v ===== *)
(** * Reasoning about scheduler code

    Rules for the state-passing code of Scheduler.v, and the well-formedness invariant of
    a scheduler object. *)
From S2P Require Import Prelude Errors Flags Structures Heapify TaskQueue Platform.
From S2P Require Import Scheduler.

(** ** The invariant *)

(** A scheduler of [ts_num] pools whose queues are well formed, at address [addr];
    [dheap] points once to every pool. *)
Record sched_ok (addr : Z) (ts : schTaskSch) : Prop := {
  ok_num : ts_num ts = Z.of_nat (length (ts_pools ts));
  ok_small : SCH_HEAP_BREATH * ts_num ts <= INT_MAX;
  ok_dheaps : ts_dheaps ts ≡ₚ seq 0 (length (ts_pools ts));
  ok_rings : Forall ring_wf (ts_pools ts);
  ok_prios : Forall (λ pool, is_long (tp_dheapPriority pool) = true) (ts_pools ts);
  ok_backptr : Forall (λ pool, tp_sch pool = addr) (ts_pools ts);
}.

Lemma sched_ok_heap_wf addr ts : sched_ok addr ts → heap_wf (ts_pools ts) (ts_dheaps ts).
Proof.
  intros Hok. unfold heap_wf. rewrite (ok_dheaps _ _ Hok). apply Forall_forall. intros p Hp%elem_of_seq.
  destruct (lookup_lt_is_Some_2 (ts_pools ts) p) as [pool Hpool]; [lia|].
  exists pool. split; [done|]. by apply (Forall_lookup_1 _ _ _ _ (ok_prios _ _ Hok) Hpool).
Qed.

Lemma sched_ok_length addr ts : sched_ok addr ts → length (ts_dheaps ts) = length (ts_pools ts).
Proof. intros Hok. by rewrite (ok_dheaps _ _ Hok), length_seq. Qed.

(** Reordering [dheap] keeps the invariant. *)
Lemma sched_ok_dheaps addr ts arr :
  sched_ok addr ts → arr ≡ₚ ts_dheaps ts → sched_ok addr (ts <| ts_dheaps := arr |>).
Proof. intros [] Hp. split; cbn; try done. by rewrite Hp. Qed.

(** Replacing a pool by one that fits keeps the invariant. *)
Lemma sched_ok_pool addr ts p pool :
  sched_ok addr ts → ring_wf pool → is_long (tp_dheapPriority pool) = true →
  tp_sch pool = addr → sched_ok addr (ts <| ts_pools ::= <[p := pool]> |>).
Proof.
  intros [] ???. split; cbn; rewrite ?length_insert; try done; by apply Forall_insert.
Qed.

(** ** What code leaves alone *)

Section keeps.
Context {S B : Type} (f : S → B).

(** When [m] returns, the value of [f] is as before. *)
Definition keeps {A} (m : M S A) : Prop := ∀ s, wlp m (λ _ s', f s' = f s) s.

Lemma keeps_ret {A} (a : A) : keeps (mret a).
Proof. done. Qed.

Lemma keeps_bind {A C} (m : M S A) (k : A → M S C) :
  keeps m → (∀ a, keeps (k a)) → keeps (m ≫= k).
Proof.
  intros Hm Hk s. apply wlp_bind. eapply wlp_mono; [apply Hm|].
  intros a s' Hs'. eapply wlp_mono; [apply Hk|]. cbn. congruence.
Qed.

Lemma keeps_liftO {A} (o : outcome A) : keeps (liftO o).
Proof. intros s. by apply wlp_liftO. Qed.

Lemma keeps_gets {A} (g : S → A) : keeps (gets g).
Proof. done. Qed.

Lemma keeps_undef {A} : keeps (A := A) undef.
Proof. done. Qed.

Lemma keeps_abort {A} : keeps (A := A) abort.
Proof. done. Qed.

Lemma keeps_out_of_fuel {A} : keeps (A := A) out_of_fuel.
Proof. done. Qed.

Lemma keeps_modify g : (∀ s, f (g s) = f s) → keeps (modify g).
Proof. intros Hg s. apply Hg. Qed.

Lemma keeps_wlp {A} (m : M S A) Q s :
  keeps m → (∀ a s', f s' = f s → Q a s') → wlp m Q s.
Proof. intros Hm HQ. eapply wlp_mono; [apply Hm|]. cbn. auto. Qed.
End keeps.

Lemma keeps_plat {W B A} (f : sched W → B) (m : M (env W) A) :
  (∀ s e, f (s <| sc_env := e |>) = f s) → keeps f (plat m).
Proof. intros Hf s. unfold plat, wlp. destruct (m (sc_env s)) as [[a e]| | |]; [apply (Hf s e)|done..]. Qed.

Section rules.
Context {W : Type} `{Posix W}.
Implicit Types (s : sched W).

Lemma wp_plat {A} (m : M (env W) A) Q s :
  wp m (λ a e, Q a (s <| sc_env := e |>)) (sc_env s) → wp (plat m) Q s.
Proof. unfold wp, plat. by destruct (m (sc_env s)) as [[a e]| | |]. Qed.

Lemma wlp_plat {A} (m : M (env W) A) Q s :
  wlp m (λ a e, Q a (s <| sc_env := e |>)) (sc_env s) → wlp (plat m) Q s.
Proof. unfold wlp, plat. by destruct (m (sc_env s)) as [[a e]| | |]. Qed.

Lemma wp_call c Q (e : env W) : Q (fst (sys c (world e))) (after c e) → wp (call c) Q e.
Proof. unfold wp. by rewrite call_eq. Qed.

Lemma wp_ret_of c Q (e : env W) : Q (ans_ret (fst (sys c (world e)))) (after c e) → wp (ret_of c) Q e.
Proof. unfold wp. by rewrite ret_of_eq. Qed.

Lemma wp_checked_call c Q (e : env W) :
  Q (pthread_error_code2sch_error_code (ans_ret (fst (sys c (world e))))) (after c e) →
  wp (checked_call c) Q e.
Proof. unfold wp. by rewrite checked_call_eq. Qed.

Lemma mutex_unlock_eq mutex (e : env W) :
  ∃ r, schMutexUnLock mutex e = Done (r, after (c_mutex_unlock mutex) e).
Proof. unfold schMutexUnLock. erewrite M_bind_eq by apply ret_of_eq. case_decide; by eexists. Qed.

Lemma wp_mutex_unlock mutex (Q : Z → env W → Prop) (e : env W) :
  (∀ r, Q r (after (c_mutex_unlock mutex) e)) → wp (schMutexUnLock mutex) Q e.
Proof. intros HQ. unfold wp. destruct (mutex_unlock_eq mutex e) as [r ->]. apply HQ. Qed.

Lemma wp_get_ts {A} (f : schTaskSch → A) Q s : Q (f (sc_ts s)) s → wp (get_ts f) Q s.
Proof. done. Qed.

Lemma wp_set_ts f Q s : Q () (s <| sc_ts ::= f |>) → wp (set_ts f) Q s.
Proof. done. Qed.

Lemma wp_get_pool i pool Q s :
  at_index (ts_pools (sc_ts s)) i = Some pool → Q pool s → wp (get_pool i) Q s.
Proof. intros Hp HQ. unfold wp, get_pool, mbind, M_bind. cbn. by rewrite Hp. Qed.

Lemma wp_set_pool i f pool Q s :
  at_index (ts_pools (sc_ts s)) i = Some pool →
  Q () (s <| sc_ts ::= λ ts, ts <| ts_pools ::= <[Z.to_nat i := f pool]> |> |>) →
  wp (set_pool i f) Q s.
Proof. intros Hp HQ. unfold set_pool. apply wp_bind. by eapply wp_get_pool. Qed.

Lemma wlp_get_pool i Q s :
  (∀ pool, at_index (ts_pools (sc_ts s)) i = Some pool → Q pool s) → wlp (get_pool i) Q s.
Proof.
  intros HQ. unfold get_pool. apply wlp_bind. unfold get_ts. apply wlp_gets, wlp_liftO.
  intros pool Hp%deref_Done. by apply HQ.
Qed.

Lemma wlp_set_pool i f Q s :
  (∀ pool, at_index (ts_pools (sc_ts s)) i = Some pool →
     Q () (s <| sc_ts ::= λ ts, ts <| ts_pools ::= <[Z.to_nat i := f pool]> |> |>)) →
  wlp (set_pool i f) Q s.
Proof.
  intros HQ. unfold set_pool. apply wlp_bind, wlp_get_pool. intros pool Hp.
  unfold set_ts. by apply wlp_modify, HQ.
Qed.

(** *** Symbolic execution *)

Lemma bind_get_ts {A B} (f : schTaskSch → A) (k : A → M (sched W) B) s :
  (get_ts f ≫= k) s = k (f (sc_ts s)) s.
Proof. reflexivity. Qed.

Lemma bind_plat {A B} (m : M (env W) A) (k : A → M (sched W) B) s a e :
  m (sc_env s) = Done (a, e) → (plat m ≫= k) s = k a (s <| sc_env := e |>).
Proof. intros Hm. apply M_bind_eq. unfold plat. by rewrite Hm. Qed.

Lemma bind_get_pool {B} i pool (k : schTaskPool → M (sched W) B) s :
  at_index (ts_pools (sc_ts s)) i = Some pool → (get_pool i ≫= k) s = k pool s.
Proof. intros Hp. apply M_bind_eq. unfold get_pool. by rewrite bind_get_ts, Hp. Qed.
End rules.

(** Run one more instruction of a total computation. *)
Ltac wp_step :=
  first
    [ apply wp_bind
    | apply wp_plat
    | apply wp_checked_call
    | apply wp_ret_of
    | apply wp_call
    | apply wp_get_ts
    | apply wp_set_ts
    | apply wp_gets
    | apply wp_modify
    | apply wp_ret ].
Ltac wp_steps := repeat (wp_step; cbv beta).
