(* ===== verification/Examples.v ===== *)
(** * Concrete schedulers

    Small scheduler objects and behaviours of the pool threads, on which the properties
    of the scheduler are evaluated. *)
From S2P Require Import Prelude Errors Flags Structures Heapify TaskQueue Platform.
From S2P Require Import Scheduler SchedulerFacts.

(** A running scheduler at address 512 with two idle pools of two cells. *)
Definition idle_pool (i : nat) (prio size : Z) : schTaskPool :=
  mkPool (900 + Z.of_nat i) 7 600 601 size (size mod 2) 0 2 700
    (replicate 2 (mkPackage 0 0 0 0 0 0 0 0)) 0 0 0 0 prio 512 (Z.of_nat i) SCH_POOL_SLEEP.
Definition running_sch : schTaskSch :=
  mkSch 2 640 [idle_pool 0 3000 1; idle_pool 1 1000 0]
    (Z.lor SCH_FLAG_INIT SCH_FLAG_RUNNING) 650 [0; 1]%nat 660 661 662 663 664.
Definition running_sched : sched simple_os := mkSched 512 running_sch good_os.
Definition some_task : schTaskPackage := mkPackage 0 0 77 1 0 0 0 0.

Lemma running_sch_ok : sched_ok 512 running_sch.
Proof.
  assert (∀ i prio size, 0 <= size <= 1 → ring_wf (idle_pool i prio size)) as Hwf.
  { intros i prio size Hs. split; cbn; (lia || done). }
  split; [done|done|done| |by repeat constructor|by repeat constructor].
  repeat constructor; apply Hwf; lia.
Qed.

(** The same scheduler with priorities that count the tasks. *)
Definition counting_sched : sched simple_os :=
  mkSched 512 (running_sch <| ts_pools := [idle_pool 0 3000 1; idle_pool 1 2000 0] |>) good_os.

(** The pool threads of the witnesses finish their tasks and sleep with the SLEEP bit set. *)
Definition all_idle {W} (ts : schTaskSch) (w : W) : schTaskSch :=
  ts <| ts_pools ::= fmap (λ pool, pool <| tp_size := 0 |> <| tp_flag := SCH_POOL_SLEEP |>) |>.
(** A scheduler object nothing has initialised. *)
Definition raw_pool (i : nat) : schTaskPool := mkPool 3 3 3 3 3 3 3 3 3 [] 3 3 3 3 3 3 3 3.
Definition raw_package (i : nat) : schTaskPackage := mkPackage 9 9 9 9 9 9 9 9.
Definition raw_sched : sched simple_os :=
  mkSched 512 (mkSch 0 0 [] 0 0 [] 0 0 0 0 0) good_os.
