(* ===== verification/SchedulerSubmit.v ===== *)
(** * Submitting tasks: the theorems about [schSubmitTask] *)
From S2P Require Import Prelude Errors Flags Structures Heapify TaskQueue Platform.
From S2P Require Import Scheduler SchedulerFacts Examples.

(** The package as it is queued, and the pool after the submit. *)
Definition queued_package (pool : schTaskPool) (pkg : schTaskPackage) : schTaskPackage :=
  pkg <| pk_index := tp_index pool |>.
Definition submitted_pool (pool : schTaskPool) (pkg : schTaskPackage) : schTaskPool :=
  (pushed pool (queued_package pool pkg)) <| tp_dheapPriority := tp_dheapPriority pool + 1000 |>.

(** The pool a submit goes to: the one the caller names, or the root of the heap. *)
Definition submit_target (pPool : option nat) (arr : list nat) : option nat :=
  match pPool with None => arr !! 0%nat | Some p => Some p end.

(** The calls of [schQueueMutexEnDeQueue]. *)
Definition queue_calls (ts : schTaskSch) : list syscall :=
  [c_spin_lock (ts_spinlock ts); c_spin_unlock (ts_spinlock ts)].

Section submit.
Context {W : Type} `{Posix W}.
Implicit Types (s : sched W).

Lemma wp_heapify Q s arr :
  schHeapify (sc_ts s) = Done ((sc_ts s) <| ts_dheaps := arr |>) →
  Q () (s <| sc_ts ::= λ ts, ts <| ts_dheaps := arr |> |>) → wp heapify Q s.
Proof.
  intros Hh HQ. unfold heapify. wp_steps. eapply wp_liftO; [exact Hh|]. wp_steps. exact HQ.
Qed.

(** Enqueuing under the lock. *)
Lemma wp_enqueue p pool x Q s :
  at_index (ts_pools (sc_ts s)) p = Some pool → tp_sch pool = sc_addr s →
  ring_wf pool → tp_size pool < tp_reserved pool →
  (∀ e, calls e = calls (sc_env s) ++ queue_calls (sc_ts s) →
        Q Argument (s <| sc_env := e |>
                      <| sc_ts ::= λ ts, ts <| ts_pools ::= <[Z.to_nat p := pushed pool x]> |> |>)) →
  wp (schQueueMutexEnDeQueue p 0 (Some x)) Q s.
Proof.
  intros Hp Hsch Hwf Hs HQ. unfold schQueueMutexEnDeQueue.
  apply wp_bind. eapply wp_get_pool; [done|]. wp_steps.
  rewrite decide_False by (intros Hn; by apply Hn). wp_steps.
  eapply wp_get_pool; [done|]. apply wp_bind.
  eapply wp_liftO; [by apply queue_enqueue|]. apply wp_bind.
  eapply wp_set_pool; [exact Hp|]. wp_steps.
  lazymatch goal with |- Q _ ?t => apply (HQ (sc_env t)) end.
  cbn [sc_env set tset const]. by rewrite !calls_after, <-app_assoc.
Qed.

(** The heap and the pool chosen. *)
Lemma schHeapify_target ts addr pPool :
  sched_ok addr ts → 0 < ts_num ts → (∀ p, pPool = Some p → (p < length (ts_pools ts))%nat) →
  ∃ arr p pool, schHeapify ts = Done (ts <| ts_dheaps := arr |>) ∧
    arr ≡ₚ ts_dheaps ts ∧ is_heap (ts_pools ts) arr SCH_HEAP_BREATH ∧
    submit_target pPool arr = Some p ∧ ts_pools ts !! p = Some pool ∧
    (pPool = None → Forall (λ q, tp_dheapPriority pool <= tp_dheapPriority q) (ts_pools ts)).
Proof.
  intros Hok Hn HpPool. pose proof (sched_ok_length _ _ Hok) as Hlen.
  pose proof (ok_num _ _ Hok) as Hnum. pose proof (ok_small _ _ Hok).
  destruct (schHeapify_fuel_spec (S (length (ts_dheaps ts))) (ts_pools ts) (ts_dheaps ts))
    as (arr & Harr & Hperm & Hheap); [by eapply sched_ok_heap_wf|lia|lia|].
  exists arr. pose proof (Permutation_length Hperm) as Hl.
  pose proof (heap_wf_Permutation (ts_pools ts) _ arr (symmetry Hperm)
    (sched_ok_heap_wf _ _ Hok)) as Hwf.
  assert (∃ p, submit_target pPool arr = Some p ∧ (p < length (ts_pools ts))%nat) as (p & Hp & Hlt).
  { destruct pPool as [p|]; [exists p; auto|]. cbn.
    destruct (lookup_lt_is_Some_2 arr 0) as [p Hp]; [lia|]. exists p. split; [done|].
    eapply Forall_lookup_1 in Hwf as (pool & ?%lookup_lt_Some & _); [|exact Hp]. done. }
  destruct (lookup_lt_is_Some_2 _ _ Hlt) as [pool Hpool]. exists p, pool. split_and!; try done.
  - unfold schHeapify. rewrite Hnum, <-Hlen, Harr. done.
  - intros ->. apply Forall_lookup. intros q poolq Hq. cbn in Hp.
    assert (q ∈ arr) as [i Hi]%list_elem_of_lookup.
    { rewrite Hperm, (ok_dheaps _ _ Hok). apply elem_of_seq. apply lookup_lt_Some in Hq. lia. }
    pose proof (lookup_lt_Some _ _ _ Hi).
    pose proof (heap_root_min (ts_pools ts) arr SCH_HEAP_BREATH (Z.of_nat i) eq_refl Hheap
      ltac:(lia)) as Hmin.
    unfold key_at, heap_key in Hmin. rewrite !at_index_nat, Nat2Z.id in Hmin by lia.
    change (Z.to_nat 0) with 0%nat in Hmin.
    rewrite Hi, Hp in Hmin. cbn in Hmin. by rewrite Hq, Hpool in Hmin.
Qed.
End submit.

(** A worker that has gone to sleep on an empty queue is woken. *)
Definition wake_needed (pool : schTaskPool) : bool :=
  (tp_size pool <=? 1) && has (tp_flag pool) SCH_POOL_SLEEP.

(** The calls of [schSubmitTask] that wake a pool, with the status it returns. *)
Definition wake_calls (ts : schTaskSch) (pool : schTaskPool) (status : Z) : list syscall :=
  if wake_needed pool then
    c_pthread_kill (tp_thread pool) SCH_SIGNAL_CONTINUE ::
    (if decide (status = err_code SCH_OK) then [c_barrier_init (ts_barrier ts) (u32 (s32 (ts_num ts)))]
     else [])
  else [].

(** The status, given the calls made: what the signal's sender answered. *)
Definition wake_status (tr : list (syscall * answer)) (pool : schTaskPool) (status : Z) : Prop :=
  if wake_needed pool then
    ∃ a, (c_pthread_kill (tp_thread pool) SCH_SIGNAL_CONTINUE, a) ∈ tr ∧
      status = if truthy (pthread_error_code2sch_error_code (ans_ret a))
               then err_code SCH_OK else err_code SCH_ERROR_SIGNAL
  else status = err_code SCH_OK.

(** The effect of a submit on the pool chosen. *)
Record submitted (ts ts' : schTaskSch) (arr : list nat) (p : nat) (pool : schTaskPool)
    (pkg : schTaskPackage) : Prop := {
  sub_state : ts' = ts <| ts_dheaps := arr |>
                       <| ts_pools ::= <[p := submitted_pool pool pkg]> |>;
  sub_contents : ring_contents (submitted_pool pool pkg)
                 = ring_contents pool ++ [queued_package pool pkg];
  sub_prio : tp_dheapPriority (submitted_pool pool pkg) = tp_dheapPriority pool + 1000;
}.

Lemma submitted_pool_wf pool pkg :
  ring_wf pool → tp_size pool < tp_reserved pool → ring_wf (submitted_pool pool pkg).
Proof. intros Hwf Hs. destruct (pushed_wf pool Hwf (queued_package pool pkg) Hs). by split. Qed.

Lemma submitted_intro ts arr p pool pkg :
  ring_wf pool → tp_size pool < tp_reserved pool →
  submitted ts (ts <| ts_dheaps := arr |> <| ts_pools ::= <[p := submitted_pool pool pkg]> |>)
    arr p pool pkg.
Proof.
  intros Hwf Hs. split; [done| |done].
  exact (pushed_contents pool Hwf (queued_package pool pkg) Hs).
Qed.

Lemma submitted_ok addr ts ts' arr p pool pkg :
  sched_ok addr ts → arr ≡ₚ ts_dheaps ts → ts_pools ts !! p = Some pool →
  tp_size pool < tp_reserved pool → is_long (tp_dheapPriority pool + 1000) = true →
  submitted ts ts' arr p pool pkg → sched_ok addr ts'.
Proof.
  intros Hok Harr Hp Hs Hprio [-> _ _]. apply sched_ok_pool.
  - by apply sched_ok_dheaps.
  - apply submitted_pool_wf; [|done]. by apply (Forall_lookup_1 _ _ _ _ (ok_rings _ _ Hok) Hp).
  - exact Hprio.
  - by apply (Forall_lookup_1 _ _ _ _ (ok_backptr _ _ Hok) Hp).
Qed.

Section submit_to.
Context {W : Type} `{Posix W}.
Implicit Types (s : sched W).

(** What [wake_pool] does: nothing, or one signal and, when it went through, the barrier. *)
Lemma wp_wake_pool p pool Q s :
  at_index (ts_pools (sc_ts s)) p = Some pool →
  (∀ e status, calls e = calls (sc_env s) ++ wake_calls (sc_ts s) pool status →
     wake_status (trace e) pool status → Q status (s <| sc_env := e |>)) →
  wp (wake_pool p) Q s.
Proof.
  intros Hp HQ. unfold wake_pool. apply wp_bind. eapply wp_get_pool; [exact Hp|].
  fold (wake_needed pool). unfold wake_calls, wake_status in HQ.
  destruct (wake_needed pool) eqn:Hwake; cycle 1.
  { wp_steps. specialize (HQ (sc_env s) (err_code SCH_OK)). destruct s.
    apply HQ; [by rewrite app_nil_r|done]. }
  wp_steps. set (c := c_pthread_kill _ _) in *. set (a := fst (sys c (world (sc_env s)))) in *.
  destruct (truthy (pthread_error_code2sch_error_code (ans_ret a))) eqn:Ht; cbn [negb]; wp_steps.
  - lazymatch goal with |- Q ?st ?t => apply (HQ (sc_env t) st) end.
    + rewrite decide_True by done. cbn [sc_env set tset const]. by rewrite !calls_after, <-app_assoc.
    + exists a. rewrite Ht. split; [|done]. cbn. apply elem_of_app. left.
      apply elem_of_app. right. by left.
  - lazymatch goal with |- Q ?st ?t => apply (HQ (sc_env t) st) end.
    + rewrite decide_False by done. cbn [sc_env set tset const]. by rewrite calls_after.
    + exists a. rewrite Ht. split; [|done]. cbn. apply elem_of_app. right. by left.
Qed.

(** The rest of a submit, for a pool that is not full. *)
Lemma wp_submit_to p pool pkg Q s :
  ts_pools (sc_ts s) !! p = Some pool → tp_sch pool = sc_addr s → ring_wf pool →
  tp_size pool < tp_reserved pool → is_long (tp_dheapPriority pool + 1000) = true →
  (∀ e status,
     calls e = calls (sc_env s) ++ queue_calls (sc_ts s)
                 ++ wake_calls (sc_ts s) (submitted_pool pool pkg) status →
     wake_status (trace e) (submitted_pool pool pkg) status →
     Q (status, Some (queued_package pool pkg))
       (s <| sc_env := e |>
          <| sc_ts ::= λ ts, ts <| ts_pools ::= <[p := submitted_pool pool pkg]> |> |>)) →
  wp (submit_to (Z.of_nat p) pkg) Q s.
Proof.
  intros Hpool Hback Hwf Hs Hprio HQ. pose proof (lookup_lt_Some _ _ _ Hpool).
  assert (at_index (ts_pools (sc_ts s)) (Z.of_nat p) = Some pool) as Hat.
  { by rewrite at_index_nat, Nat2Z.id by lia. }
  unfold submit_to. apply wp_bind. eapply wp_get_pool; [exact Hat|].
  rewrite decide_False by lia. fold (queued_package pool pkg). apply wp_bind.
  eapply wp_enqueue; [exact Hat|done|done|done|]. intros e He. rewrite Nat2Z.id.
  apply wp_bind. eapply wp_get_pool.
  { cbn [sc_ts ts_pools set tset const]. rewrite at_index_nat, Nat2Z.id by lia.
    by apply list_lookup_insert_eq. }
  apply wp_bind. eapply wp_liftO; [unfold checked; cbn [tp_dheapPriority pushed set tset const];
    by rewrite Hprio|].
  apply wp_bind. eapply wp_set_pool.
  { cbn [sc_ts ts_pools set tset const]. rewrite at_index_nat, Nat2Z.id by lia.
    by apply list_lookup_insert_eq. }
  rewrite Nat2Z.id. apply wp_bind. eapply wp_wake_pool.
  { cbn [sc_ts ts_pools set tset const]. rewrite at_index_nat, Nat2Z.id by lia.
    rewrite list_insert_insert_eq. by apply list_lookup_insert_eq. }
  intros e' status Hc Hst. wp_steps. cbn. rewrite list_insert_insert_eq.
  apply HQ; [|exact Hst]. rewrite Hc. cbn [sc_env set tset const]. by rewrite He, <-app_assoc.
Qed.
End submit_to.

(** What a submit of [pkg] may do in a well-formed running scheduler. *)
Definition submit_post {W} (s : sched W) (pkg : schTaskPackage) (pPool : option nat)
    (r : Z * option schTaskPackage) (s' : sched W) : Prop :=
  ∃ arr p pool, arr ≡ₚ ts_dheaps (sc_ts s) ∧ is_heap (ts_pools (sc_ts s)) arr SCH_HEAP_BREATH ∧
    submit_target pPool arr = Some p ∧ ts_pools (sc_ts s) !! p = Some pool ∧
    (pPool = None →
       Forall (λ q, tp_dheapPriority pool <= tp_dheapPriority q) (ts_pools (sc_ts s))) ∧
    sc_addr s' = sc_addr s ∧ sched_ok (sc_addr s) (sc_ts s') ∧
    ((tp_size pool = tp_reserved pool ∧ r = (err_code SCH_ERROR_POOL_FULL, Some pkg) ∧
      s' = s <| sc_ts ::= λ ts, ts <| ts_dheaps := arr |> |>) ∨
     (tp_size pool < tp_reserved pool ∧ r.2 = Some (queued_package pool pkg) ∧
      submitted (sc_ts s) (sc_ts s') arr p pool pkg ∧
      calls (sc_env s') = calls (sc_env s) ++ queue_calls (sc_ts s)
                            ++ wake_calls (sc_ts s) (submitted_pool pool pkg) r.1 ∧
      wake_status (trace (sc_env s')) (submitted_pool pool pkg) r.1)).

(** When a submit is past its checks. *)
Record submit_pre {W} (s : sched W) (pkg : schTaskPackage) (pPool : option nat) : Prop := {
  pre_ok : sched_ok (sc_addr s) (sc_ts s);
  pre_num : 0 < ts_num (sc_ts s);
  pre_running : has (ts_flag (sc_ts s)) SCH_FLAG_RUNNING = true;
  pre_init : has (ts_flag (sc_ts s)) SCH_FLAG_INIT = true;
  pre_callback : pk_callback pkg ≠ NULL;
  pre_pool : ∀ p, pPool = Some p → (p < length (ts_pools (sc_ts s)))%nat;
  pre_prio : Forall (λ pool, tp_dheapPriority pool + 1000 <= LONG_MAX) (ts_pools (sc_ts s));
}.

Lemma wp_schSubmitTask {W} `{Posix W} (s : sched W) pkg pPool :
  submit_pre s pkg pPool → wp (schSubmitTask (Some pkg) pPool) (submit_post s pkg pPool) s.
Proof.
  intros [Hok Hn Hrun Hinit Hcb Hp Hprio].
  destruct (schHeapify_target _ _ _ Hok Hn Hp) as (arr & p & pool & Hh & Harr & Hheap & Ht & Hpool & Hmin).
  pose proof (Forall_lookup_1 _ _ _ _ (ok_rings _ _ Hok) Hpool) as Hwf.
  pose proof (Forall_lookup_1 _ _ _ _ (ok_backptr _ _ Hok) Hpool) as Hback.
  pose proof (Forall_lookup_1 _ _ _ _ Hprio Hpool) as Hpr.
  pose proof (Forall_lookup_1 _ _ _ _ (ok_prios _ _ Hok) Hpool) as Hlong.
  assert (is_long (tp_dheapPriority pool + 1000) = true) as Hlong'.
  { apply is_long_spec in Hlong. apply is_long_spec. cbn in Hpr. lia. }
  unfold submit_post, schSubmitTask, flag_has. wp_steps. rewrite Hrun, Hinit. cbn [negb orb].
  rewrite decide_False by done. apply wp_bind. eapply wp_heapify; [exact Hh|].
  set (s1 := s <| sc_ts ::= _ |>). apply wp_bind.
  assert (at_index (ts_pools (sc_ts s1)) (Z.of_nat p) = Some pool) as Hat.
  { rewrite at_index_nat, Nat2Z.id by lia. exact Hpool. }
  apply (wp_mono _ (λ q t, q = p ∧ t = s1)).
  { destruct pPool as [p'|].
    - apply wp_ret. cbn in Ht. by simplify_eq.
    - wp_steps. cbn in Ht. apply wp_liftO with p; [|done]. cbn. by rewrite Ht. }
  intros ? ? [-> ->]. destruct (decide (tp_size pool < tp_reserved pool)) as [Hs|Hs].
  - eapply wp_submit_to; [exact Hpool|done|done|done|done|]. intros e status Hc Hst.
    pose proof (submitted_intro (sc_ts s) arr p pool pkg Hwf Hs) as Hsub.
    exists arr, p, pool. split_and!; try done; [by eapply submitted_ok|].
    right. split_and!; done.
  - unfold submit_to. apply wp_bind. eapply wp_get_pool; [exact Hat|].
    destruct Hwf as [_ _ _ ? _]. rewrite decide_True by lia. wp_steps.
    exists arr, p, pool. split_and!; try done; [by apply sched_ok_dheaps|].
    left. split_and!; [lia|done|done].
Qed.

(** C12: a submit of a task with a function to a running scheduler returns.  It goes to the
    pool the caller names, or else to a pool of least priority.  If that pool is full, the
    answer is [SCH_ERROR_POOL_FULL] and only [dheap] was reordered, without a call to the
    system.  Otherwise the task, stamped with the index of the pool, is behind the pool's
    queue, nothing else is lost, the pool's priority has grown by 1000 and the scheduler is
    well formed.  The pool is signalled exactly when its queue was empty and its SLEEP bit
    set; then the status is the sender's: [SCH_ERROR_SIGNAL] when the answer of
    [pthread_kill] translates to 0, although the task is queued, else [SCH_OK]. *)
Theorem schSubmitTask_correct {W} `{Posix W} (s : sched W) pkg pPool :
  submit_pre s pkg pPool → wp (schSubmitTask (Some pkg) pPool) (submit_post s pkg pPool) s.
Proof. apply wp_schSubmitTask. Qed.

Lemma schSubmitTask_correct_witness :
  wp (schSubmitTask (Some some_task) None) (submit_post running_sched some_task None) running_sched.
Proof.
  apply (schSubmitTask_correct running_sched some_task None).
  split; [exact running_sch_ok|reflexivity|reflexivity|reflexivity|discriminate|discriminate|].
  repeat (apply List.Forall_cons; [vm_compute; discriminate|]). apply List.Forall_nil.
Defined.

(** C40: a submit to a scheduler that is not initialised or does not run is answered
    [SCH_ERROR_INVALID_STATE], and one without a package or without a function
    [SCH_ERROR_INVALID_ARG]; neither changes the scheduler, the package or calls the
    system. *)
Theorem schSubmitTask_errors {W} `{Posix W} (s : sched W) package pPool :
  let ready := has (ts_flag (sc_ts s)) SCH_FLAG_RUNNING && has (ts_flag (sc_ts s)) SCH_FLAG_INIT in
  (ready = false →
     schSubmitTask package pPool s = Done ((err_code SCH_ERROR_INVALID_STATE, package), s)) ∧
  (ready = true → (∀ pkg, package = Some pkg → pk_callback pkg = NULL) →
     schSubmitTask package pPool s = Done ((err_code SCH_ERROR_INVALID_ARG, package), s)).
Proof.
  cbn zeta. unfold schSubmitTask, flag_has, get_ts, gets, mbind, M_bind. cbn beta iota.
  rewrite <-negb_andb. split; intros ->; [done|]. cbn. intros Hcb.
  destruct package as [pkg|]; [|done]. by rewrite decide_True by auto.
Qed.

Lemma schSubmitTask_errors_witness :
  schSubmitTask (Some (some_task <| pk_callback := NULL |>)) None running_sched
  = Done ((err_code SCH_ERROR_INVALID_ARG, Some (some_task <| pk_callback := NULL |>)), running_sched).
Proof.
  apply (proj2 (schSubmitTask_errors running_sched (Some (some_task <| pk_callback := NULL |>)) None)).
  - reflexivity.
  - intros pkg [= <-]. reflexivity.
Defined.

(** ** Spreading tasks over the pools *)

(** [for (...) schSubmitTask(sch, package, NULL)]: the statuses. *)
Fixpoint submit_all {W} `{Posix W} (pkgs : list schTaskPackage) : M (sched W) (list Z) :=
  match pkgs with
  | [] => mret []
  | pkg :: pkgs => '(r, _) ← schSubmitTask (Some pkg) None; rs ← submit_all pkgs; mret (r :: rs)
  end.

(** The tasks queued in all pools. *)
Definition total_size (pools : list schTaskPool) : Z := foldr (λ pool n, tp_size pool + n) 0 pools.

(** Pools of [R] cells whose priority counts their tasks, and of which none has two tasks
    more than another. *)
Record balanced (R c : Z) (pools : list schTaskPool) : Prop := {
  bal_cells : Forall (λ pool, tp_reserved pool = R) pools;
  bal_prio : Forall (λ pool, tp_dheapPriority pool = c + 1000 * tp_size pool) pools;
  bal_even : ∀ i j pi pj, pools !! i = Some pi → pools !! j = Some pj → tp_size pi <= tp_size pj + 1;
}.

Lemma total_size_insert pools p pool pool' :
  pools !! p = Some pool →
  total_size (<[p := pool']> pools) = total_size pools - tp_size pool + tp_size pool'.
Proof.
  revert p. induction pools as [|q pools IH]; intros [|p] Hp; cbn in *; try done.
  - injection Hp as ->. lia.
  - change (tp_size q + total_size (<[p:=pool']> pools)
      = tp_size q + total_size pools - tp_size pool + tp_size pool'). rewrite (IH p Hp). lia.
Qed.

Lemma total_size_ge pools n :
  Forall (λ q, n <= tp_size q) pools → n * Z.of_nat (length pools) <= total_size pools.
Proof.
  induction 1 as [|q pools Hq _ IH]; [cbn; lia|].
  cbn [length total_size foldr]. fold (total_size pools). lia.
Qed.

(** A task for a pool that has the fewest keeps the balance. *)
Lemma balanced_submit R c pools p pool pkg :
  balanced R c pools → pools !! p = Some pool →
  Forall (λ q, tp_size pool <= tp_size q) pools →
  balanced R c (<[p := submitted_pool pool pkg]> pools).
Proof.
  intros [Hc Hp Hev] Hpool Hmin.
  pose proof (Forall_lookup_1 _ _ _ _ Hc Hpool) as Hcp.
  pose proof (Forall_lookup_1 _ _ _ _ Hp Hpool) as Hpp. cbn in Hcp, Hpp.
  split.
  - apply Forall_insert; done.
  - apply Forall_insert; [done|]. change (tp_dheapPriority pool + 1000 = c + 1000 * (tp_size pool + 1)). lia.
  - assert (∀ i q, <[p := submitted_pool pool pkg]> pools !! i = Some q →
      (tp_size q = tp_size pool + 1) ∨ pools !! i = Some q ∧ i ≠ p) as Hcase.
    { intros i q. destruct (decide (i = p)) as [->|].
      - rewrite list_lookup_insert_eq by (by eapply lookup_lt_Some). intros [= <-]. by left.
      - rewrite list_lookup_insert_ne by done. auto. }
    intros i j pi pj Hi Hj.
    destruct (Hcase i pi Hi) as [->|[Hi' _]], (Hcase j pj Hj) as [->|[Hj' _]]; [lia| | |].
    + pose proof (Forall_lookup_1 _ _ _ _ Hmin Hj'). cbn in *. lia.
    + pose proof (Hev _ _ _ _ Hi' Hpool). lia.
    + by eapply Hev.
Qed.

Section spread.
Context {W : Type} `{Posix W}.
Context (R c : Z) (Hbound : c + 1000 * (R + 1) <= LONG_MAX).

(** A scheduler that accepts tasks. *)
Definition accepting (s : sched W) : Prop :=
  sched_ok (sc_addr s) (sc_ts s) ∧ 0 < ts_num (sc_ts s) ∧
  has (ts_flag (sc_ts s)) SCH_FLAG_RUNNING = true ∧ has (ts_flag (sc_ts s)) SCH_FLAG_INIT = true.

Lemma wp_submit_spread (s : sched W) pkg :
  accepting s → balanced R c (ts_pools (sc_ts s)) → pk_callback pkg ≠ NULL →
  total_size (ts_pools (sc_ts s)) < R * ts_num (sc_ts s) →
  wp (schSubmitTask (Some pkg) None) (λ r s',
    r.1 ≠ err_code SCH_ERROR_POOL_FULL ∧ accepting s' ∧ ts_num (sc_ts s') = ts_num (sc_ts s) ∧
    balanced R c (ts_pools (sc_ts s')) ∧
    total_size (ts_pools (sc_ts s')) = total_size (ts_pools (sc_ts s)) + 1) s.
Proof.
  intros (Hok & Hn & Hrun & Hinit) Hbal Hcb Hroom.
  pose proof Hbal as [Hcells Hprios _].
  assert (submit_pre s pkg None) as Hpre.
  { split; [done..|]. apply Forall_forall. intros q Hq. rewrite Forall_forall in Hcells, Hprios.
    pose proof (proj1 (Forall_forall _ _) (ok_rings _ _ Hok) q Hq) as [_ _ _ ? _].
    rewrite (Hprios q Hq). rewrite (Hcells q Hq) in *. lia. }
  eapply wp_mono; [by apply wp_schSubmitTask|].
  intros r s' (arr & p & pool & _ & _ & _ & Hpool & Hmin & Haddr & Hok' & Hcases).
  specialize (Hmin eq_refl).
  assert (Forall (λ q, tp_size pool <= tp_size q) (ts_pools (sc_ts s))) as Hfew.
  { apply Forall_forall. intros q Hq. rewrite Forall_forall in Hmin, Hprios. specialize (Hmin q Hq).
    cbn beta in Hmin. rewrite (Hprios q Hq) in Hmin.
    rewrite (Hprios pool) in Hmin by (by eapply list_elem_of_lookup_2). lia. }
  pose proof (ok_num _ _ Hok) as Hnum. pose proof (total_size_ge _ _ Hfew) as Htotal.
  pose proof (Forall_lookup_1 _ _ _ _ Hcells Hpool) as Hcell. cbn beta in Hcell.
  destruct Hcases as [(Hfull & _)|(Hs & _ & [Hst _ _] & _ & Hwake)]; [nia|].
  unfold accepting. rewrite Hst, Haddr in *. split_and!; try done.
  - unfold wake_status in Hwake. case_match; [|by rewrite Hwake].
    destruct Hwake as (a & _ & ->). by case_match.
  - by apply balanced_submit.
  - change (total_size (<[p := submitted_pool pool pkg]> (ts_pools (sc_ts s)))
      = total_size (ts_pools (sc_ts s)) + 1).
    rewrite (total_size_insert _ _ _ _ Hpool).
    change (tp_size (submitted_pool pool pkg)) with (tp_size pool + 1). lia.
Qed.
End spread.

(** C17: tasks submitted without naming a pool, while no worker takes one, are spread
    evenly: from any balanced state, a sequence of submits that fits into the queues is
    accepted task by task, no call is answered [SCH_ERROR_POOL_FULL] while any queue of
    any pool has room, and no pool ends up with two tasks more than another. *)
Theorem submits_are_spread {W} `{Posix W} R c pkgs (s : sched W) :
  c + 1000 * (R + 1) <= LONG_MAX →
  accepting s → balanced R c (ts_pools (sc_ts s)) → Forall (λ pkg, pk_callback pkg ≠ NULL) pkgs →
  total_size (ts_pools (sc_ts s)) + Z.of_nat (length pkgs) <= R * ts_num (sc_ts s) →
  wp (submit_all pkgs) (λ rs s', length rs = length pkgs ∧
    Forall (λ r, r ≠ err_code SCH_ERROR_POOL_FULL) rs ∧
    balanced R c (ts_pools (sc_ts s')) ∧ accepting s' ∧
    total_size (ts_pools (sc_ts s')) = total_size (ts_pools (sc_ts s)) + Z.of_nat (length pkgs)) s.
Proof.
  intros Hbound. revert s. induction pkgs as [|pkg pkgs IH]; intros s Hacc Hbal Hcb Hroom.
  { apply wp_ret. split_and!; try done. cbn. lia. }
  apply Forall_cons in Hcb as [Hcb Hcbs]. cbn [length submit_all] in *. apply wp_bind.
  eapply wp_mono; [by eapply (wp_submit_spread R c Hbound); [..|lia]|].
  intros [r ?] s1 (Hr & Hacc1 & Hn1 & Hbal1 & Htot1). apply wp_bind.
  eapply wp_mono; [apply IH; [done..|]|].
  { rewrite Htot1, Hn1. lia. }
  intros rs s2 (Hlen & Hrs & Hbal2 & Hacc2 & Htot2). apply wp_ret.
  split_and!; [by cbn; rewrite Hlen|by constructor|done|done|lia].
Qed.

Lemma submits_are_spread_witness :
  wp (submit_all [some_task; some_task; some_task]) (λ rs s', length rs = 3%nat ∧
    Forall (λ r, r ≠ err_code SCH_ERROR_POOL_FULL) rs ∧
    balanced 2 2000 (ts_pools (sc_ts s')) ∧ accepting s' ∧
    total_size (ts_pools (sc_ts s')) = total_size (ts_pools (sc_ts counting_sched)) + 3) counting_sched.
Proof.
  apply (submits_are_spread 2 2000 [some_task; some_task; some_task] counting_sched).
  - vm_compute. discriminate.
  - split; [|split; [reflexivity|split; reflexivity]].
    apply (sched_ok_pool 512 running_sch 1%nat (idle_pool 1 2000 0)).
    + exact running_sch_ok.
    + split; cbn; (lia || done).
    + reflexivity.
    + reflexivity.
  - split.
    + repeat constructor.
    + repeat constructor.
    + intros [|[|i]] [|[|j]] pi pj [= <-] [= <-]; vm_compute; discriminate.
  - repeat constructor; discriminate.
  - vm_compute. discriminate.
Defined.
