(* ===== verification/Lifecycle.v ===== *)
(** * The life of a scheduler: the contract of the public operations

    The operations of include/taskSch.h with the status each may return and the state it
    leaves the scheduler in, as an abstract state machine, and the proof that the code of
    Scheduler.v is an implementation of it, for every behaviour of the operating system
    and of the pool threads. *)
From S2P Require Import Prelude Errors Flags Structures Heapify TaskQueue Platform.
From S2P Require Import Scheduler SchedulerFacts Examples.

(** ** The abstract machine *)

(** [Blank]: not initialised; [Ready]: initialised, without running threads. *)
Inductive life : Type := Blank | Ready | Running.

Inductive sch_op : Type :=
  | OpCreate (cores flag maxPackagesPool : Z)
  | OpRun
  | OpStop (timeout : Z)
  | OpSubmit (package : option schTaskPackage) (pPool : option nat)
  | OpWait (wait : Z)
  | OpTerminate
  | OpRelease
  | OpSetUserData (user : Z)
  | OpClear.

(** [life_step l o r l']: called in [l], [o] may return [r] and leave the scheduler in [l']. *)
Inductive life_step : life → sch_op → Z → life → Prop :=
  | create_refused l c f m r :
      r = err_code SCH_ERROR_INVALID_SCH ∨ r = err_code SCH_ERROR_INVALID_ARG →
      life_step l (OpCreate c f m) r l
  | create_fails l c f m r : life_step l (OpCreate c f m) r Blank
  | create_works l c f m : life_step l (OpCreate c f m) (err_code SCH_OK) Ready
  | run_blank : life_step Blank OpRun (err_code SCH_ERROR_INVALID_STATE) Blank
  | run_works l : l ≠ Blank → life_step l OpRun (err_code SCH_OK) Running
  | run_fails l : l ≠ Blank → life_step l OpRun (err_code SCH_ERROR_INTERNAL) l
  | run_no_thread l : l ≠ Blank → life_step l OpRun (err_code SCH_ERROR_INVALID_SCH) Ready
  | stop_refused l t : l ≠ Running → life_step l (OpStop t) (err_code SCH_ERROR_INVALID_STATE) l
  | stop_signals t r :
      r = err_code SCH_OK ∨ r = err_code SCH_ERROR_INTERNAL → life_step Running (OpStop t) r Running
  | submit_refused l x p :
      l ≠ Running → life_step l (OpSubmit x p) (err_code SCH_ERROR_INVALID_STATE) l
  | submit_invalid p x :
      (∀ pkg, x = Some pkg → pk_callback pkg = NULL) →
      life_step Running (OpSubmit x p) (err_code SCH_ERROR_INVALID_ARG) Running
  | submit_answers pkg p r :
      pk_callback pkg ≠ NULL →
      r = err_code SCH_OK ∨ r = err_code SCH_ERROR_POOL_FULL ∨ r = err_code SCH_ERROR_SIGNAL →
      life_step Running (OpSubmit (Some pkg) p) r Running
  | wait_refused l t : l ≠ Running → life_step l (OpWait t) (err_code SCH_ERROR_INVALID_STATE) l
  | wait_ends t : life_step Running (OpWait t) (err_code SCH_OK) Running
  | terminate_idle l : l ≠ Running → life_step l OpTerminate (err_code SCH_OK) l
  | terminate_ends r :
      r = err_code SCH_OK ∨ r = err_code SCH_ERROR_UNKNOWN → life_step Running OpTerminate r Ready
  | release_idle l : l ≠ Running → life_step l OpRelease (err_code SCH_OK) l
  | release_ends r :
      r = err_code SCH_OK ∨ r = err_code SCH_ERROR_UNKNOWN → life_step Running OpRelease r Ready
  | set_user_data l u : life_step l (OpSetUserData u) 0 l
  | clear_nothing l : life_step l OpClear (err_code SCH_OK) l.

(** A history: the operations called with their answers. *)
Inductive life_steps : life → list (sch_op * Z) → life → Prop :=
  | steps_nil l : life_steps l [] l
  | steps_cons l o r l' h l'' :
      life_step l o r l' → life_steps l' h l'' → life_steps l ((o, r) :: h) l''.

(** ** What an operation leaves alone *)

Section frame.
Context {W : Type} `{Posix W}.
Variable NDEBUG : bool.
Variable uninit_pool : nat → schTaskPool.
Variable uninit_cell : nat → nat.
Variable uninit_package : nat → schTaskPackage.
Variable others : schTaskSch → W → schTaskSch.
(** The pool threads do not write the flags of the scheduler. *)
Hypothesis others_flag : ∀ ts w, ts_flag (others ts w) = ts_flag ts.

(** The flags of the scheduler. *)
Definition flag_of (s : sched W) : Z := ts_flag (sc_ts s).

#[local] Abbreviation keeps_flag := (keeps flag_of).

Lemma keeps_flag_plat {A} (m : M (env W) A) : keeps_flag (plat m).
Proof. by apply keeps_plat. Qed.
Lemma keeps_flag_gets {A} (g : sched W → A) : keeps_flag (gets g).
Proof. done. Qed.
Lemma keeps_flag_get_ts {A} (g : schTaskSch → A) : keeps_flag (get_ts g).
Proof. done. Qed.
Lemma keeps_flag_get_pool i : keeps_flag (get_pool i).
Proof. apply keeps_bind; [done|]. intros. apply keeps_liftO. Qed.
Lemma keeps_flag_set_pool i g : keeps_flag (set_pool i g).
Proof. apply keeps_bind; [apply keeps_flag_get_pool|]. intros. by apply keeps_modify. Qed.
Lemma keeps_flag_interfere : keeps_flag (interfere others).
Proof. apply keeps_modify. intros s. apply others_flag. Qed.

(** Walk through code that leaves the flags alone. *)
Ltac keep :=
  repeat first
    [ apply keeps_ret | apply keeps_flag_plat | apply keeps_flag_get_pool | apply keeps_flag_set_pool
    | apply keeps_flag_get_ts | apply keeps_flag_gets | apply keeps_liftO | apply keeps_undef
    | apply keeps_out_of_fuel
    | apply keeps_flag_interfere
    | apply keeps_modify; intros ?; reflexivity
    | apply keeps_bind; [|intros ?]
    | progress case_match | progress case_decide | assumption ].

Lemma keeps_flag_loop n first body :
  (∀ i, keeps_flag (body i)) → keeps_flag (for_loop n first body).
Proof. intros Hb. revert first. induction n; intros; cbn [for_loop]; keep; auto. Qed.

Lemma keeps_flag_release : keeps_flag sch_release_scheduler_resources.
Proof. unfold sch_release_scheduler_resources, set_ts. keep. Qed.

Lemma keeps_flag_create_pool i n : keeps_flag (create_pool uninit_package i n).
Proof. unfold create_pool, set_ts. keep. Qed.

Lemma keeps_flag_wait_running fuel : keeps_flag (wait_running others fuel).
Proof. induction fuel; cbn [wait_running]; unfold flag_has; keep. Qed.

Lemma keeps_flag_wait_pools fuel i : keeps_flag (wait_pools others fuel i).
Proof. revert i. induction fuel; intros; cbn [wait_pools]; keep; auto. Qed.

Lemma keeps_flag_wait fuel t : keeps_flag (schWaitTaskWait others fuel t).
Proof.
  unfold schWaitTaskWait, flag_has. keep; [apply keeps_flag_wait_running|apply keeps_flag_wait_pools].
Qed.

Lemma keeps_flag_terminate_pool x st : keeps_flag (terminate_pool others x st).
Proof. unfold terminate_pool. keep. Qed.

Lemma keeps_flag_terminate_pools n x st : keeps_flag (terminate_pools others n x st).
Proof.
  revert x st. induction n as [|n IH]; intros x st; cbn [terminate_pools];
    (apply keeps_bind; [apply keeps_flag_get_ts|intros num; case_decide; [apply keeps_ret|]]).
  - apply keeps_out_of_fuel.
  - apply keeps_bind; [apply keeps_flag_terminate_pool|intros r; apply IH].
Qed.

Lemma keeps_flag_run_pools n i : keeps_flag (run_pools NDEBUG n i).
Proof.
  revert i. induction n; intros; cbn [run_pools]; [keep|].
  apply keeps_bind; [unfold run_pool, flag_has; keep|]. intros []; [auto|keep|keep].
Qed.

Lemma keeps_flag_continue n i : keeps_flag (continue_pools n i).
Proof. revert i. induction n; intros; cbn [continue_pools]; keep; auto. Qed.

Lemma keeps_flag_queue p d x : keeps_flag (schQueueMutexEnDeQueue p d x).
Proof. unfold schQueueMutexEnDeQueue. keep. Qed.

Lemma keeps_flag_heapify : keeps_flag heapify.
Proof.
  unfold heapify. intros s. apply wlp_bind, wlp_gets. apply wlp_bind, wlp_liftO. intros ts Hts.
  by apply outcome_bind_Done in Hts as (arr & _ & [= <-]).
Qed.

(** ** The state of a scheduler, as its flags tell it *)

Definition life_of (flag : Z) : life :=
  if has flag SCH_FLAG_INIT then if has flag SCH_FLAG_RUNNING then Running else Ready else Blank.

(** Only an initialised scheduler runs. *)
Definition flag_ok (flag : Z) : Prop :=
  has flag SCH_FLAG_RUNNING = true → has flag SCH_FLAG_INIT = true.

(** The code of an operation. *)
Definition exec (fuel : nat) (o : sch_op) : M (sched W) Z :=
  match o with
  | OpCreate cores flag maxPackagesPool =>
      schCreateTaskPool NDEBUG uninit_pool uninit_cell uninit_package cores flag maxPackagesPool
  | OpRun => schRunTaskSch NDEBUG others fuel
  | OpStop timeout => schStopTaskSch timeout
  | OpSubmit package pPool => '(r, _) ← schSubmitTask package pPool; mret r
  | OpWait wait => schWaitTaskWait others fuel wait
  | OpTerminate => schTerminateTaskSch others fuel
  | OpRelease => schReleaseTaskSch others fuel
  | OpSetUserData user => _ ← schSetSchUserData user; mret 0
  | OpClear => schClearAllTask
  end.

(** Run [m], whose effect on the flags is none, and go on. *)
Ltac skip := apply wlp_bind; eapply (keeps_wlp flag_of); [try (keep; fail)|intros ? ? ?].

(** *** The changes of the flags *)

Ltac has_bits :=
  unfold life_of, flag_ok, SCH_FLAG_INIT, SCH_FLAG_RUNNING in *;
  rewrite ?has_1, ?has_2 in *; autorewrite with bits; rewrite ?lnot_bit by lia;
  autorewrite with bits;
  repeat match goal with H : context [Z.testbit _ _] |- _ => revert H end;
  split_bits; vm_compute; intuition congruence.

Lemma flag_created f :
  life_of (Z.lor (Z.land f (Z.lnot (Z.lor SCH_FLAG_INIT SCH_FLAG_RUNNING))) SCH_FLAG_INIT) = Ready ∧
  flag_ok (Z.lor (Z.land f (Z.lnot (Z.lor SCH_FLAG_INIT SCH_FLAG_RUNNING))) SCH_FLAG_INIT).
Proof. has_bits. Qed.

Lemma flag_not_created f :
  life_of (Z.land f (Z.lnot (Z.lor SCH_FLAG_INIT SCH_FLAG_RUNNING))) = Blank ∧
  flag_ok (Z.land f (Z.lnot (Z.lor SCH_FLAG_INIT SCH_FLAG_RUNNING))).
Proof. has_bits. Qed.

Lemma flag_started f :
  has f SCH_FLAG_INIT = true →
  life_of (Z.lor f SCH_FLAG_RUNNING) = Running ∧ flag_ok (Z.lor f SCH_FLAG_RUNNING).
Proof. has_bits. Qed.

Lemma flag_stopped f :
  has f SCH_FLAG_INIT = true →
  life_of (Z.land f (Z.lnot SCH_FLAG_RUNNING)) = Ready ∧ flag_ok (Z.land f (Z.lnot SCH_FLAG_RUNNING)).
Proof. has_bits. Qed.

(** A status and flags that a creation can end with. *)
Definition create_ends (flag : Z) (r : Z) (s' : sched W) : Prop :=
  flag_of s' = flag ∨ r = err_code SCH_OK ∧ flag_of s' = Z.lor flag SCH_FLAG_INIT.

Lemma create_failed_flag r s flag : flag_of s = flag → wlp (create_failed r) (create_ends flag) s.
Proof.
  intros <-. eapply keeps_wlp; [|intros ? ? ?; by left].
  unfold create_failed. keep.
Qed.

(** The next step of a creation: a failure, or the rest. *)
Ltac create_step :=
  first
    [ case_decide; [by apply create_failed_flag; unfold flag_of in *; cbn in *; congruence|]
    | apply wlp_bind; eapply keeps_wlp; [first [apply keeps_flag_plat | apply keeps_flag_get_ts]|];
      intros ? ? ?
    | apply wlp_bind; apply wlp_modify
    | progress case_match ].

Lemma create_objects_flag n s flag :
  flag_of s = flag → wlp (create_objects NDEBUG uninit_package n) (create_ends flag) s.
Proof.
  intros Hs. unfold create_objects. repeat create_step.
  apply wlp_bind. eapply keeps_wlp; [apply keeps_flag_loop; intros; apply keeps_flag_create_pool|].
  intros ? ? ?. apply wlp_bind, wlp_modify, wlp_ret. right.
  split; [done|]. unfold flag_of in *. cbn in *. congruence.
Qed.

(** What an operation may do, as the abstract machine says. *)
Definition refines (o : sch_op) (s : sched W) (r : Z) (s' : sched W) : Prop :=
  life_step (life_of (flag_of s)) o r (life_of (flag_of s')) ∧ flag_ok (flag_of s').

Lemma create_ends_refines c f n flag s r s' :
  create_ends (Z.land flag (Z.lnot (Z.lor SCH_FLAG_INIT SCH_FLAG_RUNNING))) r s' →
  refines (OpCreate c f n) s r s'.
Proof.
  unfold refines. intros [->|[-> ->]].
  - destruct (flag_not_created flag) as [-> ?]. split; [apply create_fails|done].
  - destruct (flag_created flag) as [-> ?]. split; [apply create_works|done].
Qed.

Lemma create_refines c f n s :
  flag_ok (flag_of s) →
  wlp (schCreateTaskPool NDEBUG uninit_pool uninit_cell uninit_package c f n)
    (refines (OpCreate c f n) s) s.
Proof.
  intros Hs. unfold schCreateTaskPool. apply wlp_bind, wlp_gets. case_decide.
  { apply wlp_ret. split; [apply create_refused; by left|done]. }
  skip. assert (flag_of s' = flag_of s) as Heq by done. case_decide.
  { apply wlp_ret. unfold refines. rewrite Heq. split; [apply create_refused; by right|done]. }
  skip. apply wlp_bind, wlp_modify. skip. apply wlp_bind, wlp_modify.
  eapply wlp_mono; [|intros; by apply (create_ends_refines c f n f)].
  case_decide.
  { skip. by apply create_failed_flag; unfold flag_of in *; cbn in *; congruence. }
  skip. apply wlp_bind, wlp_modify. case_decide.
  { skip. by apply create_failed_flag; unfold flag_of in *; cbn in *; congruence. }
  apply create_objects_flag. unfold flag_of in *. cbn in *. congruence.
Qed.

(** The two tests at the entry of most operations. *)
Lemma life_of_cases flag :
  (has flag SCH_FLAG_INIT = false ∧ life_of flag = Blank) ∨
  (has flag SCH_FLAG_INIT = true ∧ has flag SCH_FLAG_RUNNING = false ∧ life_of flag = Ready) ∨
  (has flag SCH_FLAG_INIT = true ∧ has flag SCH_FLAG_RUNNING = true ∧ life_of flag = Running).
Proof. unfold life_of. destruct (has _ SCH_FLAG_INIT), (has _ SCH_FLAG_RUNNING); auto. Qed.

Lemma wlp_flag_has mask (Q : bool → sched W → Prop) s b :
  has (flag_of s) mask = b → Q b s → wlp (flag_has mask) Q s.
Proof. intros <-. done. Qed.

(** A status that a termination of a running scheduler may have. *)
Definition terminate_status (r : Z) : Prop := r = err_code SCH_OK ∨ r = err_code SCH_ERROR_UNKNOWN.

Lemma terminate_idle_eq fuel s :
  life_of (flag_of s) ≠ Running → schTerminateTaskSch others fuel s = Done (err_code SCH_OK, s).
Proof.
  intros Hl. unfold schTerminateTaskSch, flag_has, get_ts, gets, mbind, M_bind. unfold life_of, flag_of in Hl.
  destruct (has (ts_flag (sc_ts s)) SCH_FLAG_INIT); [cbn|done].
  by destruct (has (ts_flag (sc_ts s)) SCH_FLAG_RUNNING).
Qed.

Lemma terminate_running_flag fuel s :
  life_of (flag_of s) = Running →
  wlp (schTerminateTaskSch others fuel) (λ r s',
    terminate_status r ∧ flag_of s' = Z.land (flag_of s) (Z.lnot SCH_FLAG_RUNNING)) s.
Proof.
  destruct (life_of_cases (flag_of s)) as [(_ & ->)|[(_ & _ & ->)|(Hi & Hr & _)]]; [done..|intros _].
  unfold schTerminateTaskSch. apply wlp_bind. eapply wlp_flag_has; [exact Hi|]. cbn [negb].
  apply wlp_bind. eapply wlp_flag_has; [exact Hr|]. cbn [negb].
  apply wlp_bind. eapply keeps_wlp; [apply keeps_flag_wait|intros ? s1 H1].
  apply wlp_bind. eapply keeps_wlp; [apply keeps_flag_terminate_pools|intros status s3 H3].
  apply wlp_bind, wlp_modify, wlp_ret. unfold flag_of in *. cbn.
  split; [|congruence]. unfold terminate_status. destruct (truthy status); auto.
Qed.

Lemma terminate_refines fuel s :
  flag_ok (flag_of s) → wlp (schTerminateTaskSch others fuel) (refines OpTerminate s) s.
Proof.
  intros Hs. unfold refines. destruct (life_of_cases (flag_of s)) as [(Hi & Hl)|[(Hi & Hr & Hl)|(Hi & Hr & Hl)]].
  1, 2: unfold wlp; rewrite terminate_idle_eq by (by rewrite Hl); split; [|done]; apply terminate_idle;
    by rewrite Hl.
  eapply wlp_mono; [by apply terminate_running_flag|]. intros r s' [Hst ->].
  destruct (flag_stopped _ Hi) as [-> ?]. split; [|done]. rewrite Hl. by apply terminate_ends.
Qed.

Lemma keeps_flag_release_pools : keeps_flag (for_pools release_pool).
Proof.
  unfold for_pools. keep. apply keeps_flag_loop. intros. unfold release_pool. keep.
Qed.

Lemma release_rest_flag (r : Z) s :
  wlp (_ ← for_pools release_pool; _ ← sch_release_scheduler_resources; mret r)
    (λ r' s', r' = r ∧ flag_of s' = flag_of s) s.
Proof.
  apply wlp_bind. eapply keeps_wlp; [apply keeps_flag_release_pools|intros ? s1 H1].
  apply wlp_bind. eapply keeps_wlp; [apply keeps_flag_release|intros ? s2 H2].
  apply wlp_ret. split; [done|congruence].
Qed.

Lemma release_refines fuel s :
  flag_ok (flag_of s) → wlp (schReleaseTaskSch others fuel) (refines OpRelease s) s.
Proof.
  intros Hs. unfold refines, schReleaseTaskSch.
  destruct (life_of_cases (flag_of s)) as [(Hi & Hl)|[(Hi & Hr & Hl)|(Hi & Hr & Hl)]].
  1, 2: apply wlp_bind; unfold wlp at 1; rewrite terminate_idle_eq by (by rewrite Hl);
    rewrite decide_False by (intros []; done);
    (eapply wlp_mono; [apply release_rest_flag|]); intros ? ? [-> ->];
    split; [apply release_idle; by rewrite Hl|done].
  apply wlp_bind. eapply wlp_mono; [by apply terminate_running_flag|]. intros r s1 [Hst H1].
  destruct (flag_stopped _ Hi) as [Hready Hok]. rewrite <-H1 in Hready, Hok. rewrite Hl.
  case_decide.
  - apply wlp_ret. rewrite Hready. split; [by apply release_ends|done].
  - eapply wlp_mono; [apply release_rest_flag|]. intros ? ? [-> ->]. rewrite Hready.
    split; [by apply release_ends|done].
Qed.

(** How the loop of [schRunTaskSch] can end. *)
Definition run_ends (flag : Z) (t : run_turn) (s' : sched W) : Prop :=
  flag_of s' = flag ∧
  (t = Continue ∨ t = ReturnWith (err_code SCH_ERROR_INTERNAL) ∨ t = Failed (err_code SCH_ERROR_INVALID_SCH)).

Lemma run_pool_ends i s : wlp (run_pool NDEBUG i) (run_ends (flag_of s)) s.
Proof.
  assert (∀ t flag s1, flag_of s1 = flag → (t = Continue ∨ t = ReturnWith (err_code SCH_ERROR_INTERNAL) ∨
    t = Failed (err_code SCH_ERROR_INVALID_SCH)) → wlp (mret t) (run_ends flag) s1) as Hend by done.
  unfold run_pool, flag_has. skip. case_match. skip. case_match; [apply Hend; [congruence|auto]|].
  skip. skip. skip. skip. skip. case_decide; [apply Hend; [congruence|auto]|].
  skip. apply Hend; [congruence|auto].
Qed.

Lemma run_pools_ends n i s : wlp (run_pools NDEBUG n i) (run_ends (flag_of s)) s.
Proof.
  revert i s. induction n as [|n IH]; intros i s; cbn [run_pools]; [by split; auto|].
  apply wlp_bind. eapply wlp_mono; [apply run_pool_ends|]. intros t s1 [<- Ht].
  destruct Ht as [->|[->| ->]]; [apply IH|split; auto|split; auto].
Qed.

Lemma run_refines fuel s :
  flag_ok (flag_of s) → wlp (schRunTaskSch NDEBUG others fuel) (refines OpRun s) s.
Proof.
  intros Hs. unfold refines, schRunTaskSch. apply wlp_bind.
  destruct (has (flag_of s) SCH_FLAG_INIT) eqn:Hi; (eapply wlp_flag_has; [exact Hi|]); cbn [negb]; cycle 1.
  { apply wlp_ret. split; [|done]. unfold life_of. rewrite Hi. apply run_blank. }
  assert (life_of (flag_of s) ≠ Blank) as Hl by (unfold life_of; rewrite Hi; by case_match).
  skip. skip. case_decide as Hmask.
  { apply wlp_ret. replace (flag_of s'0) with (flag_of s) by congruence.
    split; [by apply run_fails|done]. }
  skip. apply wlp_bind. eapply wlp_mono; [apply run_pools_ends|].
  intros t s2 [Hs2 Ht]. assert (flag_of s2 = flag_of s) as Heq by congruence.
  destruct Ht as [->|[->| ->]].
  - skip. apply wlp_bind. eapply keeps_wlp; [apply keeps_flag_continue|intros ok s4 Hs4].
    destruct ok; cbn [negb].
    + apply wlp_bind, wlp_modify, wlp_ret. destruct (flag_started _ Hi) as [Hrun Hok].
      replace (flag_of s) with (flag_of s4) in Hrun, Hok by congruence.
      split; [|exact Hok]. unfold flag_of in *. cbn. rewrite Hrun. by apply run_works.
    + apply wlp_ret. replace (flag_of s4) with (flag_of s) by congruence.
      split; [by apply run_fails|done].
  - apply wlp_ret. rewrite Heq. split; [by apply run_fails|done].
  - apply wlp_bind. destruct (life_of_cases (flag_of s)) as [(? & ?)|[(_ & Hr & Hlr)|(_ & Hr & Hlr)]]; [done| |].
    + unfold wlp at 1. rewrite terminate_idle_eq by (by rewrite Heq, Hlr). apply wlp_ret.
      rewrite Heq, Hlr. split; [by apply run_no_thread|done].
    + eapply wlp_mono; [apply terminate_running_flag; by rewrite Heq|]. intros r s3 [_ Hs3].
      apply wlp_ret. rewrite Hs3, Heq. destruct (flag_stopped _ Hi) as [-> ?].
      split; [by apply run_no_thread|done].
Qed.

Lemma stop_refines t s :
  flag_ok (flag_of s) → wlp (schStopTaskSch t) (refines (OpStop t) s) s.
Proof.
  intros Hs. unfold refines, schStopTaskSch.
  destruct (life_of_cases (flag_of s)) as [(Hi & Hl)|[(Hi & Hr & Hl)|(Hi & Hr & Hl)]];
    apply wlp_bind; (eapply wlp_flag_has; [exact Hi|]); cbn [negb].
  - apply wlp_ret. rewrite Hl. split; [by apply stop_refused|done].
  - apply wlp_bind. eapply wlp_flag_has; [exact Hr|]. apply wlp_ret. rewrite Hl.
    split; [by apply stop_refused|done].
  - apply wlp_bind. eapply wlp_flag_has; [exact Hr|]. cbn [negb]. skip.
    apply wlp_bind. eapply keeps_wlp; [apply keeps_flag_continue|intros ok s2 Hs2].
    apply wlp_ret. replace (flag_of s2) with (flag_of s) by congruence. rewrite Hl.
    split; [|done]. apply stop_signals. destruct ok; auto.
Qed.

Lemma wait_refines fuel t s :
  flag_ok (flag_of s) → wlp (schWaitTaskWait others fuel t) (refines (OpWait t) s) s.
Proof.
  intros Hs. unfold refines. destruct (has (flag_of s) SCH_FLAG_RUNNING) eqn:Hr; cycle 1.
  { unfold schWaitTaskWait. apply wlp_bind. eapply wlp_flag_has; [exact Hr|]. apply wlp_ret.
    split; [|done]. apply wait_refused. unfold life_of. rewrite Hr. by case_match. }
  assert (life_of (flag_of s) = Running) as Hl by (unfold life_of; by rewrite Hr, (Hs Hr)).
  apply wlp_intro. intros r s' Hw.
  pose proof (wlp_elim _ _ _ _ _ (keeps_flag_wait fuel t s) Hw) as ->. rewrite Hl. split; [|done].
  unfold schWaitTaskWait, flag_has, get_ts, gets in Hw. unfold flag_of in Hr.
  apply M_bind_Done in Hw as (b & s1 & [= <- <-] & Hw). rewrite Hr in Hw. cbn [negb] in Hw.
  inv_done. injection Hw as <- <-. apply wait_ends.
Qed.

(** The answers of a submit that passed the checks. *)
Definition submit_status (r : Z) : Prop :=
  r = err_code SCH_OK ∨ r = err_code SCH_ERROR_POOL_FULL ∨ r = err_code SCH_ERROR_SIGNAL.

Lemma wake_pool_flag p s :
  wlp (wake_pool p) (λ r s', submit_status r ∧ flag_of s' = flag_of s) s.
Proof.
  unfold wake_pool, submit_status. skip. case_match; [|by apply wlp_ret; auto].
  skip. case_match; [by apply wlp_ret; split; [auto|congruence]|].
  skip. skip. skip. apply wlp_ret. split; [auto|congruence].
Qed.

Lemma submit_to_flag p pkg s :
  wlp (submit_to p pkg) (λ r s', submit_status r.1 ∧ flag_of s' = flag_of s) s.
Proof.
  unfold submit_to. skip. case_decide; [apply wlp_ret; split; [right; by left|done]|].
  apply wlp_bind. eapply keeps_wlp; [apply keeps_flag_queue|intros ? s2 Hs2].
  skip. skip. skip. apply wlp_bind. eapply wlp_mono; [apply wake_pool_flag|].
  intros r s3 [Hr Hs3]. apply wlp_ret. split; [done|congruence].
Qed.

Lemma submit_refines x p s :
  flag_ok (flag_of s) →
  wlp ('(r, _) ← schSubmitTask x p; mret r) (refines (OpSubmit x p) s) s.
Proof.
  intros Hs. unfold refines, schSubmitTask. apply wlp_bind.
  destruct (life_of_cases (flag_of s)) as [(Hi & Hl)|[(Hi & Hr & Hl)|(Hi & Hr & Hl)]].
  - apply wlp_bind, wlp_gets. apply wlp_bind. eapply wlp_flag_has; [exact Hi|].
    rewrite orb_true_r. apply wlp_ret, wlp_ret. rewrite Hl. split; [by apply submit_refused|done].
  - apply wlp_bind. eapply wlp_flag_has; [exact Hr|]. apply wlp_bind, wlp_gets.
    apply wlp_ret, wlp_ret. rewrite Hl. split; [by apply submit_refused|done].
  - apply wlp_bind. eapply wlp_flag_has; [exact Hr|]. apply wlp_bind. eapply wlp_flag_has; [exact Hi|].
    cbn [negb orb]. destruct x as [pkg|].
    + case_decide as Hcb.
      { apply wlp_ret, wlp_ret. rewrite Hl. split; [|done]. apply submit_invalid. by intros ? [= <-]. }
      apply wlp_bind. eapply keeps_wlp; [apply keeps_flag_heapify|intros ? s1 Hs1].
      skip. eapply wlp_mono; [apply submit_to_flag|]. intros [r ?] s3 [Hst Hs3]. apply wlp_ret.
      replace (flag_of s3) with (flag_of s) by congruence. rewrite Hl.
      split; [by apply submit_answers|done].
    + apply wlp_ret, wlp_ret. rewrite Hl. split; [by apply submit_invalid|done].
Qed.

Lemma exec_refines fuel o s : flag_ok (flag_of s) → wlp (exec fuel o) (refines o s) s.
Proof.
  intros Hs. destruct o; cbn [exec].
  - by apply create_refines.
  - by apply run_refines.
  - by apply stop_refines.
  - by apply submit_refines.
  - by apply wait_refines.
  - by apply terminate_refines.
  - by apply release_refines.
  - apply wlp_bind. eapply keeps_wlp.
    + unfold schSetSchUserData, for_pools. keep. apply keeps_flag_loop. intros. apply keeps_flag_set_pool.
    + intros ? s1 Hs1. apply wlp_ret. unfold refines. rewrite Hs1. split; [constructor|done].
  - apply wlp_ret. split; [constructor|done].
Qed.

(** Operations called one after the other, with their answers. *)
Inductive runs (fuel : nat) : sched W → list (sch_op * Z) → sched W → Prop :=
  | runs_nil s : runs fuel s [] s
  | runs_cons s o r s' h s'' :
      exec fuel o s = Done (r, s') → runs fuel s' h s'' → runs fuel s ((o, r) :: h) s''.

Lemma runs_refine fuel s h s' :
  runs fuel s h s' → flag_ok (flag_of s) →
  life_steps (life_of (flag_of s)) h (life_of (flag_of s')) ∧ flag_ok (flag_of s').
Proof.
  induction 1 as [s|s o r s' h s'' Ho _ IH]; intros Hs; [by split; [constructor|]|].
  destruct (wlp_elim _ _ _ _ _ (exec_refines fuel o s Hs) Ho) as [Hstep Hs'].
  destruct (IH Hs') as [Hsteps ?]. split; [|done]. by econstructor.
Qed.
End frame.

(** ** Properties of histories *)

(** Nothing that ends the running of a scheduler: no termination, no release, and no
    creation that succeeded. *)
Definition quiet (ev : sch_op * Z) : Prop :=
  match ev with
  | (OpTerminate, _) | (OpRelease, _) => False
  | (OpCreate _ _ _, r) => r ≠ err_code SCH_OK
  | _ => True
  end.

(** A history that ends running either ran from the start or has a successful run. *)
Lemma life_steps_running l h l' :
  life_steps l h l' → l' = Running →
  (l = Running ∧ Forall quiet h) ∨
  ∃ h1 h2, h = h1 ++ (OpRun, err_code SCH_OK) :: h2 ∧ Forall quiet h2.
Proof.
  induction 1 as [l|l o r l1 h l' Hstep _ IH]; intros Hrun; [by left; split|].
  destruct (IH Hrun) as [[-> Hq]|(h1 & h2 & -> & Hq)]; [|right; by exists ((o, r) :: h1), h2].
  inversion Hstep; subst;
    try (left; split; [done|]; constructor; [done|exact Hq]).
  - left. split; [done|]. constructor; [|done]. by match goal with H : _ ∨ _ |- _ => destruct H as [->| ->] end.
  - right. by exists [], h.
Qed.

Section histories.
Context {W : Type} `{Posix W}.
Context (NDEBUG : bool) (uninit_pool : nat → schTaskPool) (uninit_cell : nat → nat).
Context (uninit_package : nat → schTaskPackage) (others : schTaskSch → W → schTaskSch).

Abbreviation history := (runs NDEBUG uninit_pool uninit_cell uninit_package others).

(** C6: whatever the operating system answers, every history of calls of the library, each
    with its status, is one of the abstract machine [life_step], from the state the flags
    show before it to the state they show after it; and a scheduler never runs without
    being initialised. *)
Theorem lifecycle_refinement fuel (s s' : sched W) h :
  (∀ ts w, ts_flag (others ts w) = ts_flag ts) → flag_ok (flag_of s) →
  history fuel s h s' →
  life_steps (life_of (flag_of s)) h (life_of (flag_of s')) ∧ flag_ok (flag_of s').
Proof. intros Hothers Hs Hruns. by eapply runs_refine. Qed.

(** A submit that got past the state check, with any answer but
    [SCH_ERROR_INVALID_STATE], was preceded by a run answered [SCH_OK], with no
    termination, no release and no successful creation in between. *)
Theorem accepted_submit_was_run fuel (s s' : sched W) h x p r :
  (∀ ts w, ts_flag (others ts w) = ts_flag ts) → flag_ok (flag_of s) →
  life_of (flag_of s) ≠ Running →
  history fuel s (h ++ [(OpSubmit x p, r)]) s' → r ≠ err_code SCH_ERROR_INVALID_STATE →
  ∃ h1 h2, h = h1 ++ (OpRun, err_code SCH_OK) :: h2 ∧ Forall quiet h2.
Proof.
  intros Hothers Hs Hl Hruns Hr.
  destruct (runs_refine _ _ _ _ _ Hothers _ _ _ _ Hruns Hs) as [Hsteps _].
  assert (∃ l', life_steps (life_of (flag_of s)) h l' ∧ l' = Running) as (l' & Hh & Hl').
  { clear Hruns Hs Hl. revert Hsteps. generalize (life_of (flag_of s)) (life_of (flag_of s')).
    induction h as [|[o q] h IH]; intros l l2 Hsteps; inversion Hsteps; subst.
    - exists l. split; [constructor|]. by match goal with H : life_step _ _ _ _ |- _ => inversion H end.
    - match goal with H : life_steps _ (h ++ _) _ |- _ => destruct (IH _ _ H) as (l3 & ? & ->) end.
      exists Running. split; [|done]. by econstructor. }
  by destruct (life_steps_running _ _ _ Hh Hl') as [[? _]|?].
Qed.
End histories.

(** A history of the whole interface: the last submit names a pool whose worker is awake. *)
Definition demo : list (sch_op * Z) :=
  [(OpWait 0, err_code SCH_ERROR_INVALID_STATE); (OpCreate 2 0 8, err_code SCH_OK);
   (OpCreate 9 0 8, err_code SCH_ERROR_INVALID_ARG); (OpSetUserData 5, 0); (OpRun, err_code SCH_OK);
   (OpStop 0, err_code SCH_OK); (OpSubmit None None, err_code SCH_ERROR_INVALID_ARG)].
Definition demo_end : list (sch_op * Z) :=
  [(OpWait 0, err_code SCH_OK); (OpTerminate, err_code SCH_OK); (OpRelease, err_code SCH_OK)].

Lemma lifecycle_refinement_witness :
  ∃ s' : sched simple_os, life_steps (life_of (flag_of raw_sched))
    (demo ++ [(OpSubmit (Some some_task) None, err_code SCH_OK)] ++ demo_end) (life_of (flag_of s')) ∧
    flag_ok (flag_of s').
Proof.
  eexists.
  apply (lifecycle_refinement true raw_pool id raw_package all_idle 20 raw_sched).
  - reflexivity.
  - discriminate.
  - repeat (eapply runs_cons; [vm_compute; reflexivity|]). apply runs_nil.
Defined.

Lemma accepted_submit_was_run_witness :
  ∃ h1 h2, demo = h1 ++ (OpRun, err_code SCH_OK) :: h2 ∧ Forall quiet h2.
Proof.
  eapply (accepted_submit_was_run true raw_pool id raw_package all_idle 20 raw_sched _ demo
    (Some some_task) None (err_code SCH_OK)).
  - reflexivity.
  - discriminate.
  - discriminate.
  - repeat (eapply runs_cons; [vm_compute; reflexivity|]). apply runs_nil.
  - discriminate.
Defined.
