(* ===== verification/Waiting.v ===== *)
(** * Waiting for the pools and terminating them

    The loops of [schWaitTaskWait] and [schTerminateTaskSch] of src/taskSch.c: what they ask
    of the operating system and what they leave behind, whatever the pool threads do while
    the caller is blocked, and when a wait never ends. *)
From S2P Require Import Prelude Errors Flags Structures Platform Scheduler SchedulerFacts.
From S2P Require Import Examples.

(** An idle pool: bit 2, SLEEP, is set and the queue is empty. *)
Definition is_idle (pool : schTaskPool) : bool :=
  Z.testbit (tp_flag pool) 2 && bool_decide (tp_size pool <= 0).

(** The test of the loop is the one of the specification. *)
Lemma pool_idle_eq pool : pool_idle pool = is_idle pool.
Proof.
  unfold pool_idle, is_idle, SCH_POOL_SLEEP. rewrite has_4. f_equal.
  case_bool_decide; [by apply Z.leb_le|by apply Z.leb_gt; lia].
Qed.

Lemma wait_running_eq {W} `{Posix W} others fuel (s : sched W) :
  has (ts_flag (sc_ts s)) SCH_FLAG_RUNNING = true → wait_running others fuel s = Done ((), s).
Proof.
  intros Hrun. destruct fuel; cbn; unfold flag_has, get_ts, gets, mbind, M_bind; by rewrite Hrun.
Qed.

(** ** Waiting that never ends *)

Section stuck.
Context {W : Type} `{Posix W}.
Variable others : schTaskSch → W → schTaskSch.
(** A pool that is never seen idle. *)
Variable p : nat.
Hypothesis others_num : ∀ ts w, ts_num (others ts w) = ts_num ts.
Hypothesis others_length : ∀ ts w, length (ts_pools (others ts w)) = length (ts_pools ts).

Definition never_idle (ts : schTaskSch) : Prop :=
  ∃ pool, ts_pools ts !! p = Some pool ∧ is_idle pool = false.

Hypothesis others_never : ∀ ts w, never_idle ts → never_idle (others ts w).

Lemma wait_pools_stuck fuel i (s : sched W) :
  ts_num (sc_ts s) = Z.of_nat (length (ts_pools (sc_ts s))) → 0 <= i <= Z.of_nat p →
  never_idle (sc_ts s) → wait_pools others fuel i s = OutOfFuel.
Proof.
  revert i s. induction fuel as [|fuel IH]; intros i s Hnum Hi (pool & Hp & Hbusy);
    pose proof (lookup_lt_Some _ _ _ Hp); cbn [wait_pools];
    rewrite bind_get_ts, decide_False by lia; [done|].
  destruct (at_index_is_Some (ts_pools (sc_ts s)) i) as [pool' Hpool']; [lia|].
  rewrite (bind_get_pool _ _ _ _ Hpool').
  rewrite pool_idle_eq. destruct (is_idle pool') eqn:Hidle.
  - apply IH; [done| |by exists pool].
    assert (i ≠ Z.of_nat p); [|lia]. intros ->.
    rewrite at_index_nat, Nat2Z.id in Hpool' by lia. congruence.
  - rewrite bind_get_ts. unfold schSignalWaitTimeOut. erewrite bind_plat; cycle 1.
    { rewrite (M_bind_eq _ _ _ _ _ eq_refl). erewrite M_bind_eq by apply call_eq. done. }
    rewrite (M_bind_eq _ _ _ _ _ eq_refl). apply IH; cbn [sc_ts set tset const].
    + by rewrite others_num, others_length.
    + done.
    + apply others_never. by exists pool.
Qed.

Lemma wait_stuck fuel (s : sched W) :
  ts_num (sc_ts s) = Z.of_nat (length (ts_pools (sc_ts s))) →
  has (ts_flag (sc_ts s)) SCH_FLAG_RUNNING = true → never_idle (sc_ts s) →
  schWaitTask others fuel s = OutOfFuel.
Proof.
  intros Hnum Hrun Hp. unfold schWaitTask, schWaitTaskWait, flag_has.
  rewrite bind_get_ts, Hrun. cbn [negb]. rewrite bind_get_ts.
  erewrite bind_plat by apply checked_call_eq.
  erewrite M_bind_eq by (apply wait_running_eq; exact Hrun).
  lazymatch goal with |- (plat _ ≫= _) ?t = _ =>
    destruct (mutex_unlock_eq (ts_mutex (sc_ts s)) (sc_env t)) as [r Hu] end.
  erewrite bind_plat by exact Hu. unfold mbind, M_bind.
  by rewrite wait_pools_stuck by (done || (cbn; lia)).
Qed.
End stuck.

(** ** Terminating the pools *)

(** The handles of a pool: its thread, the thread it reports to, its mutex, its signal set. *)
Definition handles_of (pool : schTaskPool) : Z * Z * Z * Z :=
  (tp_thread pool, tp_schRefThread pool, tp_mutex pool, tp_set pool).
Definition handles (ts : schTaskSch) : list (Z * Z * Z * Z) := handles_of <$> ts_pools ts.

(** What [schTerminateTaskSch] asks for one pool. *)
Definition terminate_calls (h : Z * Z * Z * Z) : list syscall :=
  let '(thread, _, mutex, set) := h in
  if decide (thread = NULL) then []
  else [c_pthread_kill thread SIGTERM; c_pthread_join thread]
    ++ (if decide (mutex ≠ NULL) then [c_mutex_destroy mutex; c_free mutex] else [])
    ++ (if decide (set ≠ NULL) then [c_free set] else []).

(** What it leaves of the handles. *)
Definition forgotten (h : Z * Z * Z * Z) : Z * Z * Z * Z :=
  let '(thread, _, _, _) := h in if decide (thread = NULL) then h else (NULL, NULL, NULL, NULL).

(** The statuses of the calls that have one, as the platform layer translates them. *)
Definition call_status (ev : syscall * answer) : option Z :=
  match ev.1 with
  | c_pthread_kill _ _ | c_pthread_join _ | c_mutex_destroy _ =>
      Some (pthread_error_code2sch_error_code (ans_ret ev.2))
  | _ => None
  end.
Definition statuses (tr : list (syscall * answer)) : list Z := omap call_status tr.

Lemma statuses_app tr tr' : statuses (tr ++ tr') = statuses tr ++ statuses tr'.
Proof. apply omap_app. Qed.

(** [status &= s] keeps 1 exactly when [s] is odd. *)
Lemma land_status b l :
  foldl Z.land (Z.b2z b) l = Z.b2z (b && forallb Z.odd l).
Proof.
  revert b. induction l as [|x l IH]; intros b; cbn [foldl forallb]; [by rewrite andb_true_r|].
  replace (Z.land (Z.b2z b) x) with (Z.b2z (b && Z.odd x)); [by rewrite IH, andb_assoc|].
  destruct b; [|done]. cbn [Z.b2z andb]. rewrite Z.land_comm.
  change 1 with (Z.ones 1). rewrite Z.land_ones, Zmod_odd by done. by destruct (Z.odd x).
Qed.

#[local] Opaque get_pool set_pool.

Section terminate.
Context {W : Type} `{Posix W}.
Implicit Types (s : sched W).

(** The calls [cs] have been made, and the status is the old one with theirs. *)
Definition emits (cs : list syscall) (status : Z) (e : env W) (r : Z) (e' : env W) : Prop :=
  ∃ tr, trace e' = trace e ++ tr ∧ fst <$> tr = cs ∧ r = foldl Z.land status (statuses tr).

Lemma emits_nil status e : emits [] status e status e.
Proof. exists []. by rewrite app_nil_r. Qed.

Lemma emits_app cs1 cs2 status e r1 e1 r2 e2 :
  emits cs1 status e r1 e1 → emits cs2 r1 e1 r2 e2 → emits (cs1 ++ cs2) status e r2 e2.
Proof.
  intros (tr1 & He1 & <- & ->) (tr2 & He2 & <- & ->). exists (tr1 ++ tr2).
  split_and!; [by rewrite He2, He1, app_assoc|by rewrite fmap_app|].
  by rewrite statuses_app, foldl_app.
Qed.

(** A call, with or without a status. *)
Lemma emits_call c status e :
  emits [c] status e (foldl Z.land status (option_list (call_status (c, fst (sys c (world e)))))) (after c e).
Proof.
  eexists [_]. split_and!; [done|done|]. unfold statuses. cbn [omap list_omap].
  by destruct (call_status _).
Qed.

Lemma wp_delete_mutex_emits m status (e : env W) :
  wp (schDeleteMutex m) (λ r e', emits [c_mutex_destroy m; c_free m] status e (Z.land status r) e') e.
Proof.
  unfold schDeleteMutex. wp_steps. apply (emits_app [_] [_] _ _ _ _ _ _ (emits_call _ _ _)).
  apply (emits_call (c_free m)).
Qed.

(** The optional releases of the loop. *)
Lemma wp_terminate_mutex m status s :
  wp (if decide (m ≠ NULL) then r ← plat (schDeleteMutex m); mret (Z.land status r) else mret status)
    (λ r s', s' = s <| sc_env := sc_env s' |> ∧
       emits (if decide (m ≠ NULL) then [c_mutex_destroy m; c_free m] else [])
         status (sc_env s) r (sc_env s')) s.
Proof.
  case_decide; [|apply wp_ret; split; [by destruct s|apply emits_nil]].
  apply wp_bind, wp_plat. eapply wp_mono; [apply wp_delete_mutex_emits|].
  intros r e He. apply wp_ret. split; [done|exact He].
Qed.

(** A status of one bit. *)
Definition one_bit (status : Z) : Prop := Z.land status 1 = status.

Lemma emits_one_bit cs status e r e' : emits cs status e r e' → one_bit status → one_bit r.
Proof.
  intros (tr & _ & _ & ->). revert status. generalize (statuses tr). unfold one_bit.
  intros l. induction l as [|x l IH]; intros status Hs; [done|]. apply IH.
  by rewrite <-Z.land_assoc, (Z.land_comm x), Z.land_assoc, Hs.
Qed.

Lemma wp_terminate_set p status s :
  one_bit status →
  wp (if decide (p ≠ NULL) then r ← plat (schDeleteSignal p); mret (Z.land status r) else mret status)
    (λ r s', s' = s <| sc_env := sc_env s' |> ∧
       emits (if decide (p ≠ NULL) then [c_free p] else []) status (sc_env s) r (sc_env s')) s.
Proof.
  intros Hs. case_decide; [|apply wp_ret; split; [by destruct s|apply emits_nil]].
  unfold schDeleteSignal. wp_steps. change (Z.land status (err_code SCH_OK)) with (Z.land status 1).
  rewrite Hs. split; [done|]. apply (emits_call (c_free p)).
Qed.

End terminate.

(** What the pool threads keep while the caller is blocked: they may do anything to the
    queues, the priorities and the flag words, but they leave the handles alone, and the flags of
    the scheduler. *)
Record thread_manners {W} (others : schTaskSch → W → schTaskSch) : Prop := {
  tm_num ts w : ts_num (others ts w) = ts_num ts;
  tm_flag ts w : ts_flag (others ts w) = ts_flag ts;
  tm_handles ts w : handles (others ts w) = handles ts;
}.

Section termination.
Context {W : Type} `{Posix W} (others : schTaskSch → W → schTaskSch).
Hypothesis manners : thread_manners others.
Implicit Types (s : sched W).

Definition view s : Z * Z * Z * list (Z * Z * Z * Z) :=
  (sc_addr s, ts_num (sc_ts s), ts_flag (sc_ts s), handles (sc_ts s)).

Lemma keeps_view_interfere : keeps view (interfere others).
Proof. apply keeps_modify. intros s. unfold view. cbn. by rewrite (tm_num _ manners), (tm_flag _ manners), (tm_handles _ manners). Qed.

Lemma keeps_view_plat {A} (m : M (env W) A) : keeps view (plat m).
Proof. by apply keeps_plat. Qed.

Lemma keeps_view_get_ts {A} (g : schTaskSch → A) : keeps view (get_ts g).
Proof. done. Qed.

Lemma keeps_view_get_pool i : keeps view (get_pool i).
Proof. intros s. by apply wlp_get_pool. Qed.

(** The poll loop, if it ends. *)
Lemma keeps_view_wait_pools fuel i : keeps view (wait_pools others fuel i).
Proof.
  revert i. induction fuel as [|fuel IH]; intros i; cbn [wait_pools].
  all: apply keeps_bind; [apply keeps_view_get_ts|intros num]; case_decide; [apply keeps_ret|].
  { apply keeps_out_of_fuel. }
  apply keeps_bind; [apply keeps_view_get_pool|intros pool]. destruct (pool_idle pool); [apply IH|].
  apply keeps_bind; [apply keeps_view_get_ts|intros set].
  apply keeps_bind; [apply keeps_view_plat|intros _].
  apply keeps_bind; [apply keeps_view_interfere|intros _]. apply IH.
Qed.

Lemma wlp_wait fuel s :
  has (ts_flag (sc_ts s)) SCH_FLAG_RUNNING = true →
  wlp (schWaitTask others fuel) (λ r s', r = err_code SCH_OK ∧ view s' = view s) s.
Proof.
  intros Hrun. unfold schWaitTask, schWaitTaskWait, flag_has.
  apply wlp_bind, wlp_gets. rewrite Hrun. cbn [negb]. apply wlp_bind, wlp_gets.
  apply wlp_bind. eapply (keeps_wlp view); [apply keeps_view_plat|]. intros r s1 H1.
  apply wlp_bind. unfold wlp at 1. rewrite wait_running_eq; cycle 1.
  { rewrite (f_equal (λ v, v.1.2) H1 : ts_flag (sc_ts s1) = _). exact Hrun. }
  apply wlp_bind. eapply (keeps_wlp view); [apply keeps_view_plat|]. intros r2 s2 H2.
  apply wlp_bind. eapply (keeps_wlp view); [apply keeps_view_wait_pools|]. intros [] s3 H3.
  apply wlp_ret. split; [done|]. by rewrite H3, H2, H1.
Qed.

(** A pool at a position of the list of handles. *)
Lemma handles_at s pre h suf :
  handles (sc_ts s) = pre ++ h :: suf →
  ∃ pool, at_index (ts_pools (sc_ts s)) (Z.of_nat (length pre)) = Some pool ∧ handles_of pool = h.
Proof.
  intros Hh. assert (handles (sc_ts s) !! length pre = Some h) as Hl by (rewrite Hh; by apply list_lookup_middle).
  unfold handles in Hl. rewrite list_lookup_fmap in Hl.
  destruct (ts_pools (sc_ts s) !! length pre) as [pool|] eqn:Hp; [|done]. apply (inj Some) in Hl.
  exists pool. split; [|done]. by rewrite at_index_nat, Nat2Z.id by lia.
Qed.

Lemma wp_set_handles pre h suf f Q s :
  handles (sc_ts s) = pre ++ h :: suf →
  (∀ pool s', handles_of pool = h → sc_env s' = sc_env s →
     view s' = (sc_addr s, ts_num (sc_ts s), ts_flag (sc_ts s), pre ++ handles_of (f pool) :: suf) → Q () s') →
  wp (set_pool (Z.of_nat (length pre)) f) Q s.
Proof.
  intros Hh HQ. destruct (handles_at s pre h suf Hh) as (pool & Hp & Heq).
  eapply wp_set_pool; [exact Hp|]. apply (HQ pool); [done|done|]. unfold view, handles in *. cbn.
  by rewrite Nat2Z.id, list_fmap_insert, Hh, insert_middle.
Qed.

(** One turn of the loop. *)
Lemma wp_terminate_pool pre h suf status s :
  one_bit status → handles (sc_ts s) = pre ++ h :: suf →
  wp (terminate_pool others (Z.of_nat (length pre)) status) (λ r s',
    emits (terminate_calls h) status (sc_env s) r (sc_env s') ∧
    view s' = (sc_addr s, ts_num (sc_ts s), ts_flag (sc_ts s), pre ++ forgotten h :: suf)) s.
Proof.
  intros Hs Hh. unfold terminate_pool. destruct (handles_at s pre h suf Hh) as (pool & Hp & <-).
  apply wp_bind. eapply wp_get_pool; [exact Hp|]. unfold terminate_calls, forgotten. cbn [handles_of].
  case_decide as Hth.
  { apply wp_ret. split; [apply emits_nil|]. unfold view. by rewrite Hh. }
  unfold schWaitThread. wp_steps. set (st1 := Z.land (Z.land status _) _).
  lazymatch goal with |- wp _ _ ?t => set (s1 := t) end.
  assert (emits [c_pthread_kill (tp_thread pool) SIGTERM; c_pthread_join (tp_thread pool)]
    status (sc_env s) st1 (sc_env s1)) as H1.
  { apply (emits_app [_] [_] _ _ _ _ _ _ (emits_call _ _ _)).
    apply (emits_call (c_pthread_join (tp_thread pool))). }
  assert (view s1 = view s) as Hv1.
  { unfold view, s1. cbn. by rewrite (tm_num _ manners), (tm_flag _ manners), (tm_handles _ manners). }
  clearbody s1 st1.
  eapply (wp_set_handles pre (handles_of pool) suf); [rewrite <-Hh; exact (f_equal snd Hv1)|].
  intros pool1 s2 Hpool1 He2 Hv2. cbn [handles_of tp_thread tp_schRefThread tp_mutex tp_set set tset const] in Hv2.
  assert (tp_mutex pool1 = tp_mutex pool) as Hm by exact (f_equal (λ h, h.1.2) Hpool1).
  assert (tp_set pool1 = tp_set pool) as Hst by exact (f_equal snd Hpool1).
  destruct (handles_at s2 pre (NULL, NULL, tp_mutex pool1, tp_set pool1) suf (f_equal snd Hv2)) as (pool2 & Hp2 & Hh2).
  apply wp_bind. eapply wp_get_pool; [exact Hp2|].
  assert (tp_mutex pool2 = tp_mutex pool) as -> by (rewrite <-Hm; exact (f_equal (λ h, h.1.2) Hh2)).
  assert (tp_set pool2 = tp_set pool) as -> by (rewrite <-Hst; exact (f_equal snd Hh2)).
  apply wp_bind. eapply wp_mono; [apply wp_terminate_mutex|]. intros st2 s3 [Hs3 H2].
  apply wp_bind. eapply wp_mono; [apply wp_terminate_set|].
  { eapply emits_one_bit; [exact H2|]. eapply emits_one_bit; [exact H1|exact Hs]. }
  intros st3 s4 [Hs4 H3].
  assert (view s4 = view s2) as Hv4 by by rewrite Hs4, Hs3.
  apply wp_bind. eapply (wp_set_handles pre _ suf); [rewrite (f_equal snd Hv4 : handles (sc_ts s4) = _); exact (f_equal snd Hv2)|].
  intros pool4 s5 Hpool4 He5 Hv5. apply wp_ret. rewrite He5. split.
  - eapply emits_app; [exact H1|]. rewrite He2 in H2. by eapply emits_app.
  - cbn [handles_of tp_thread tp_schRefThread tp_mutex tp_set set tset const] in Hv5.
    assert (tp_thread pool4 = NULL) as E1 by exact (f_equal (λ h, h.1.1.1) Hpool4).
    assert (tp_schRefThread pool4 = NULL) as E2 by exact (f_equal (λ h, h.1.1.2) Hpool4).
    rewrite Hv5. unfold view in *. rewrite E1, E2.
    rewrite (f_equal (λ v, v.1.1.1) Hv4 : sc_addr s4 = _), (f_equal (λ v, v.1.1.1) Hv2 : sc_addr s2 = _), (f_equal (λ v, v.1.1.1) Hv1 : sc_addr s1 = _).
    rewrite (f_equal (λ v, v.1.1.2) Hv4 : ts_num (sc_ts s4) = _), (f_equal (λ v, v.1.1.2) Hv2 : ts_num (sc_ts s2) = _), (f_equal (λ v, v.1.1.2) Hv1 : ts_num (sc_ts s1) = _).
    by rewrite (f_equal (λ v, v.1.2) Hv4 : ts_flag (sc_ts s4) = _), (f_equal (λ v, v.1.2) Hv2 : ts_flag (sc_ts s2) = _), (f_equal (λ v, v.1.2) Hv1 : ts_flag (sc_ts s1) = _).
Qed.

Lemma wp_terminate_pools fuel suf pre status s :
  one_bit status → handles (sc_ts s) = pre ++ suf → ts_num (sc_ts s) = Z.of_nat (length (pre ++ suf)) →
  (length suf <= fuel)%nat →
  wp (terminate_pools others fuel (Z.of_nat (length pre)) status) (λ r s',
    emits (concat (terminate_calls <$> suf)) status (sc_env s) r (sc_env s') ∧
    view s' = (sc_addr s, ts_num (sc_ts s), ts_flag (sc_ts s), pre ++ (forgotten <$> suf))) s.
Proof.
  revert pre status s fuel. induction suf as [|h suf IH]; intros pre status s fuel Hs Hh Hn Hfuel.
  { rewrite app_nil_r in *. assert (wp (mret status) (λ r s',
      emits [] status (sc_env s) r (sc_env s') ∧
      view s' = (sc_addr s, ts_num (sc_ts s), ts_flag (sc_ts s), pre)) s) as Hret.
    { apply wp_ret. split; [apply emits_nil|]. unfold view. by rewrite Hh. }
    destruct fuel; cbn [terminate_pools]; apply wp_bind, wp_get_ts; rewrite decide_True by lia; exact Hret. }
  destruct fuel as [|fuel]; cbn [length] in Hfuel; [lia|]. cbn [terminate_pools].
  rewrite length_app in Hn. cbn [length] in Hn.
  apply wp_bind, wp_get_ts. rewrite decide_False by lia.
  apply wp_bind. eapply wp_mono; [by apply (wp_terminate_pool pre h suf)|]. intros r s1 (He1 & Hv1).
  replace (Z.of_nat (length pre) + 1) with (Z.of_nat (length (pre ++ [forgotten h])))
    by (rewrite length_app; cbn; lia).
  assert (handles (sc_ts s1) = (pre ++ [forgotten h]) ++ suf) as Hh1 by (rewrite <-app_assoc; exact (f_equal snd Hv1)).
  assert (ts_num (sc_ts s1) = ts_num (sc_ts s)) as Hn1 by exact (f_equal (λ v, v.1.1.2) Hv1).
  eapply wp_mono; [apply IH; [by eapply emits_one_bit|exact Hh1| |lia]|].
  { rewrite Hn1, Hn, !length_app. cbn. lia. }
  intros r' s2 (He2 & Hv2). split; [cbn [fmap list_fmap concat]; by eapply emits_app|].
  rewrite Hv2, Hn1. cbn [fmap list_fmap]. rewrite <-app_assoc.
  by rewrite (f_equal (λ v, v.1.1.1) Hv1 : sc_addr s1 = _), (f_equal (λ v, v.1.2) Hv1 : ts_flag (sc_ts s1) = _).
Qed.
End termination.

(** ** Properties *)

Section properties.
Context {W : Type} `{Posix W}.

(** If some pool of a running scheduler is never seen with its SLEEP bit set and its
    queue empty, [schWaitTask] polls for ever: no number of polls suffices.  A worker that
    sleeps with its flag word 0, as every second sleep of a worker does, is such a pool. *)
Theorem schWaitTask_stuck others p fuel (s : sched W) :
  (∀ ts w, ts_num (others ts w) = ts_num ts) →
  (∀ ts w, length (ts_pools (others ts w)) = length (ts_pools ts)) →
  (∀ ts w, never_idle p ts → never_idle p (others ts w)) →
  ts_num (sc_ts s) = Z.of_nat (length (ts_pools (sc_ts s))) →
  has (ts_flag (sc_ts s)) SCH_FLAG_RUNNING = true → never_idle p (sc_ts s) →
  schWaitTask others fuel s = OutOfFuel.
Proof. intros. by eapply wait_stuck. Qed.

(** C30: terminating a running scheduler, once its wait has returned, sends SIGTERM to every
    thread, joins it, and releases its mutex and its signal set, pool by pool and in this
    order; then it has forgotten all these handles, and cleared the RUNNING flag.  Until it is
    joined each thread goes on: it may clean up, change its flag word or its queue,
    everything but the handles and the flags of the scheduler.  The answer is [SCH_OK]
    exactly when every status that was collected is odd: [status &= ...] keeps the lowest
    bit of the statuses, so the errors with an odd code pass for a success. *)
Theorem schTerminateTaskSch_running others fuel (s w : sched W) st :
  thread_manners others →
  ts_num (sc_ts s) = Z.of_nat (length (ts_pools (sc_ts s))) → (length (ts_pools (sc_ts s)) <= fuel)%nat →
  has (ts_flag (sc_ts s)) SCH_FLAG_INIT = true → has (ts_flag (sc_ts s)) SCH_FLAG_RUNNING = true →
  schWaitTask others fuel s = Done (st, w) →
  wp (schTerminateTaskSch others fuel) (λ r s', ∃ tr,
    trace (sc_env s') = trace (sc_env w) ++ tr ∧
    fst <$> tr = concat (terminate_calls <$> handles (sc_ts s)) ∧
    r = (if forallb Z.odd (statuses tr) then err_code SCH_OK else err_code SCH_ERROR_UNKNOWN) ∧
    handles (sc_ts s') = forgotten <$> handles (sc_ts s) ∧ ts_num (sc_ts s') = ts_num (sc_ts s) ∧
    ts_flag (sc_ts s') = Z.land (ts_flag (sc_ts s)) (Z.lnot SCH_FLAG_RUNNING)) s.
Proof.
  intros Hm Hnum Hfuel Hi Hr Hwait. pose proof (wlp_wait others Hm fuel s Hr) as Hw.
  unfold wlp in Hw. rewrite Hwait in Hw. destruct Hw as [-> Hv].
  unfold schTerminateTaskSch, flag_has. wp_steps. rewrite Hi. cbn [negb]. wp_steps. rewrite Hr. cbn [negb].
  apply wp_bind. unfold wp at 1. rewrite Hwait.
  assert (handles (sc_ts w) = handles (sc_ts s)) as Hh by exact (f_equal snd Hv).
  assert (ts_num (sc_ts w) = ts_num (sc_ts s)) as Hn by exact (f_equal (λ v, v.1.1.2) Hv).
  apply wp_bind. eapply wp_mono; [apply (wp_terminate_pools others Hm _ (handles (sc_ts s)) []); [done|exact Hh| |]|].
  { cbn. unfold handles. by rewrite Hn, Hnum, length_fmap. }
  { unfold handles. by rewrite length_fmap. }
  intros r s1 ((tr & Htr & Hcs & ->) & Hv1). wp_steps. exists tr. split_and!; [exact Htr|exact Hcs|..].
  - change (err_code SCH_OK) with (Z.b2z true). rewrite land_status. cbn [andb].
    by destruct (forallb _ _).
  - exact (f_equal snd Hv1).
  - rewrite <-Hn. exact (f_equal (λ v, v.1.1.2) Hv1).
  - cbn. rewrite (f_equal (λ v, v.1.2) Hv1 : ts_flag (sc_ts s1) = _).
    by rewrite (f_equal (λ v, v.1.2) Hv : ts_flag (sc_ts w) = _).
Qed.
End properties.

(** *** Witnesses *)

(** A pool whose worker sleeps with the flag word 0, and nobody wakes it. *)
Definition lost_sched : sched simple_os :=
  running_sched <| sc_ts ::= λ ts, ts <| ts_pools := [idle_pool 0 0 0; (idle_pool 1 0 0) <| tp_flag := 0 |>] |> |>.

Lemma schWaitTask_stuck_witness : schWaitTask (λ ts _, ts) 1000 lost_sched = OutOfFuel.
Proof.
  apply (schWaitTask_stuck (λ ts _, ts) 1 1000 lost_sched).
  - reflexivity.
  - reflexivity.
  - intros ts w Hn. exact Hn.
  - reflexivity.
  - reflexivity.
  - eexists. split; reflexivity.
Defined.

(** Pool threads that finish their tasks at the first poll; when the first thread that is left is
    joined, it cleans up: its flag word is updated as [setPoolTerminated] does it. *)
Fixpoint leave_first (pools : list schTaskPool) : list schTaskPool :=
  match pools with
  | [] => []
  | pool :: pools =>
      if decide (tp_thread pool = NULL) then pool :: leave_first pools
      else pool <| tp_flag ::= SchC.setPoolTerminated |> :: pools
  end.
Definition at_work (pool : schTaskPool) : bool := negb (tp_thread pool =? NULL) && negb (is_idle pool).
Definition leaving {W} (ts : schTaskSch) (w : W) : schTaskSch :=
  ts <| ts_pools ::= λ pools,
    if existsb at_work pools
    then (λ pool, if at_work pool then pool <| tp_size := 0 |> <| tp_flag := SCH_POOL_SLEEP |> else pool) <$> pools
    else leave_first pools |>.

Lemma leaving_manners {W} : thread_manners (W := W) leaving.
Proof.
  split; try done. intros ts w. unfold handles, leaving. cbn. destruct (existsb _ _).
  - rewrite <-list_fmap_compose. apply list_fmap_ext. intros i pool _. cbn. by destruct (at_work pool).
  - generalize (ts_pools ts). intros pools. induction pools as [|pool pools IH]; [done|]. cbn.
    case_decide; cbn; by rewrite ?IH.
Qed.

(** The flag words that it leaves: those of [setPoolTerminated], not those of the sleep. *)
Example leaving_flags :
  match schTerminateTaskSch leaving 5 running_sched with
  | Done (r, s) => (r, tp_flag <$> ts_pools (sc_ts s))
  | _ => (0, [])
  end = (err_code SCH_OK, [3; 3]).
Proof. vm_compute. reflexivity. Qed.

Lemma schTerminateTaskSch_running_witness :
  wp (schTerminateTaskSch leaving 5) (λ r s',
    handles (sc_ts s') = [(NULL, NULL, NULL, NULL); (NULL, NULL, NULL, NULL)]) running_sched.
Proof.
  destruct (schWaitTask leaving 5 running_sched) as [[st w]| | |] eqn:Hw; [|vm_compute in Hw; discriminate Hw..].
  eapply wp_mono.
  - apply (schTerminateTaskSch_running leaving 5 running_sched w st leaving_manners).
    + reflexivity.
    + apply Nat.leb_le. reflexivity.
    + reflexivity.
    + reflexivity.
    + exact Hw.
  - intros r s' (tr & _ & _ & _ & Hh & _). exact Hh.
Defined.
