(* ===== verification/Creation.v ===== *)
(** * Creating and releasing a scheduler

    [schCreateTaskPool] and [schReleaseTaskSch] of src/taskSch.c: the object a creation
    leaves, what a failed creation frees, and what a release frees. *)
From S2P Require Import Prelude Errors Flags Structures Heapify TaskQueue Platform.
From S2P Require Import Scheduler SchedulerFacts Examples Lifecycle.

#[local] Opaque get_pool set_pool.

(** ** Creation *)

(** The thread that makes the scheduler. *)
Definition is_self {W} `{Posix W} (thread : Z) : Prop := ∃ w, thread = ans_ret (fst (sys c_pthread_self w)).

(** Pool [i] of a new scheduler at [addr], with [n] empty cells, made by a thread [self]. *)
Record created (self : Z → Prop) (addr n : Z) (i : nat) (pool : schTaskPool) : Prop := {
  cr_length : Z.of_nat (length (tp_packages pool)) = n;
  cr_head : tp_head pool = 0;
  cr_tail : tp_tail pool = 0;
  cr_size : tp_size pool = 0;
  cr_reserved : tp_reserved pool = n;
  cr_prio : tp_dheapPriority pool = 0;
  cr_callbacks : tp_init pool = NULL ∧ tp_deinit pool = NULL ∧ tp_userdata pool = NULL;
  cr_thread : tp_thread pool = NULL ∧ tp_set pool = NULL ∧ tp_mutex pool = NULL;
  cr_sch : tp_sch pool = addr;
  cr_index : tp_index pool = Z.of_nat i;
  cr_flag : tp_flag pool = 0;
  cr_ref : self (tp_schRefThread pool);
}.

Lemma created_ring_wf self addr n i pool : 0 < n < UINT_MOD → created self addr n i pool → ring_wf pool.
Proof.
  intros Hn [Hl Hh Ht Hs Hr _ _ _ _ _ _ _]. split; rewrite ?Hr, ?Hh, ?Hs, ?Ht, ?Hl; try lia.
  by rewrite Z.mod_0_l by lia.
Qed.

Lemma created_empty self addr n i pool : created self addr n i pool → ring_contents pool = [].
Proof. intros Hc. unfold ring_contents. by rewrite (cr_size _ _ _ _ _ Hc). Qed.

Section creation.
Context {W : Type} `{Posix W}.
Context (NDEBUG : bool) (uninit_pool : nat → schTaskPool) (uninit_cell : nat → nat).
Context (uninit_package : nat → schTaskPackage).
(** The system has memory. *)
Hypothesis malloc_works : ∀ n w, ans_ret (fst (sys (c_malloc n) w)) ≠ NULL.
Implicit Types (s : sched W).

Lemma init_pool_created package thread sch i n pool :
  0 <= n → package ≠ NULL → is_self thread →
  created is_self sch n i (init_pool uninit_package package thread sch (Z.of_nat i) n pool).
Proof.
  intros Hn Hp Hself. destruct pool. unfold init_pool. rewrite decide_False by done.
  split; try done. cbn. rewrite length_fmap, length_seq. lia.
Qed.

#[local] Opaque init_pool.

(** One turn of the loop. *)
Lemma wp_create_pool pre (dpre : list nat) pool psuf (d : nat) dsuf n s :
  0 <= n → length dpre = length pre → ts_pools (sc_ts s) = pre ++ pool :: psuf →
  ts_dheaps (sc_ts s) = dpre ++ d :: dsuf →
  wp (create_pool uninit_package (Z.of_nat (length pre)) n) (λ _ s', ∃ pool',
    created is_self (sc_addr s) n (length pre) pool' ∧ sc_addr s' = sc_addr s ∧
    sc_ts s' = (sc_ts s) <| ts_pools := pre ++ pool' :: psuf |>
                         <| ts_dheaps := dpre ++ length pre :: dsuf |>) s.
Proof.
  intros Hn Hlen Hpools Hdheaps. unfold create_pool. wp_steps.
  apply wp_liftO with (dpre ++ length pre :: dsuf).
  { rewrite Nat2Z.id, Hdheaps, store_in; [by rewrite Nat2Z.id, <-Hlen, insert_middle|].
    rewrite length_app. cbn. lia. }
  wp_steps. eapply wp_set_pool.
  { cbn [sc_ts ts_pools set tset const]. rewrite at_index_nat, Nat2Z.id, Hpools by lia.
    by apply list_lookup_middle. }
  eexists. cbn [sc_addr sc_ts set tset const]. split_and!; [|done|].
  2: { rewrite Nat2Z.id. cbn. rewrite Hpools, insert_middle. reflexivity. }
  by apply init_pool_created; [..|by eexists].
Qed.

(** The pools of a new scheduler, from position [k] on. *)
Definition all_created (self : Z → Prop) (addr n : Z) (k : nat) (pools : list schTaskPool) : Prop :=
  ∀ i pool, pools !! i = Some pool → created self addr n (k + i) pool.

Lemma wp_create_pools psuf pre dpre dsuf n s :
  0 <= n → length dpre = length pre → length dsuf = length psuf →
  ts_pools (sc_ts s) = pre ++ psuf → ts_dheaps (sc_ts s) = dpre ++ dsuf →
  wp (for_loop (length psuf) (Z.of_nat (length pre)) (λ i, create_pool uninit_package i n)) (λ _ s',
    ∃ news, length news = length psuf ∧ all_created is_self (sc_addr s) n (length pre) news ∧
      sc_addr s' = sc_addr s ∧
      sc_ts s' = (sc_ts s) <| ts_pools := pre ++ news |>
                           <| ts_dheaps := dpre ++ seq (length pre) (length psuf) |>) s.
Proof.
  intros Hn. revert pre dpre dsuf s. induction psuf as [|pool psuf IH]; intros pre dpre dsuf s Hlen Hl Hp Hd.
  { apply wp_ret. exists []. destruct dsuf; [|done]. rewrite app_nil_r in *. split_and!; try done.
    destruct s as [? [] ?]. cbn in *. by rewrite Hp, Hd, !app_nil_r. }
  destruct dsuf as [|d dsuf]; [done|]. cbn [length for_loop]. apply wp_bind.
  eapply wp_mono; [by apply (wp_create_pool pre dpre pool psuf d dsuf)|].
  intros _ s1 (pool' & Hc & Ha1 & Hts1).
  replace (Z.of_nat (length pre) + 1) with (Z.of_nat (length (pre ++ [pool'])))
    by (rewrite length_app; cbn; lia).
  eapply wp_mono; [apply (IH (pre ++ [pool']) (dpre ++ [length pre]) dsuf)|].
  - rewrite !length_app. cbn. lia.
  - cbn in Hl. lia.
  - rewrite Hts1. cbn. by rewrite <-app_assoc.
  - rewrite Hts1. cbn. by rewrite <-app_assoc.
  - intros _ s2 (news & Hnews & Hall & Ha2 & Hts2). exists (pool' :: news). split_and!.
    + cbn. by rewrite Hnews.
    + intros [|i] q Hq; cbn in Hq.
      * injection Hq as <-. by rewrite Nat.add_0_r.
      * rewrite Ha1 in Hall. rewrite length_app in Hall. cbn in Hall.
        replace (length pre + S i)%nat with (length pre + 1 + i)%nat by lia. by apply Hall.
    + congruence.
    + rewrite Hts2, Hts1. rewrite length_app, Nat.add_comm. cbn. by rewrite <-!app_assoc.
Qed.

(** The system grants every request of [schCreateTaskPool]. *)
Definition create_request (c : syscall) : bool :=
  match c with c_spin_init _ | c_mutex_init _ | c_cond_init _ | c_barrier_init _ _ => true | _ => false end.
Hypothesis init_works : ∀ c w, create_request c = true → ans_ret (fst (sys c w)) = 0.

(** The object as [schCreateTaskPool] leaves it. *)
Record fresh (self : Z → Prop) (addr num flag n : Z) (ts : schTaskSch) : Prop := {
  fr_num : ts_num ts = num;
  fr_length : Z.of_nat (length (ts_pools ts)) = num;
  fr_pools : all_created self addr n 0 (ts_pools ts);
  fr_dheaps : ts_dheaps ts = seq 0 (length (ts_pools ts));
  fr_flag : ts_flag ts = Z.lor flag SCH_FLAG_INIT;
}.

(** A granted allocation passes its assertion. *)
Lemma wp_assert_truthy p Q (e : env W) : p ≠ NULL → Q () e → wp (assert_e NDEBUG (mret (truthy p))) Q e.
Proof. intros Hp%truthy_spec HQ. unfold assert_e. rewrite Hp. by destruct NDEBUG. Qed.

Lemma wp_granted c Q (e : env W) :
  create_request c = true → (∀ e', Q (err_code SCH_OK) e') → wp (checked_call c) Q e.
Proof. intros Hc HQ. apply wp_checked_call. rewrite init_works by done. apply HQ. Qed.

Ltac granted :=
  repeat first
    [ apply wp_bind; apply wp_assert_truthy; [apply malloc_works|]
    | apply wp_bind; apply wp_granted; [reflexivity|intros ?]
    | apply wp_bind; apply wp_ret_of
    | apply wp_ret; auto ].

Lemma wp_create_signal (Q : Z → env W → Prop) (e : env W) :
  (∀ p e', p ≠ NULL → Q p e') → wp (schCreateSignal NDEBUG) Q e.
Proof. intros HQ. unfold schCreateSignal. granted. Qed.

Lemma wp_create_spinlock (Q : Z * Z → env W → Prop) (e : env W) :
  (∀ p e', Q (err_code SCH_OK, p) e') → wp (schCreateSpinLock NDEBUG) Q e.
Proof. intros HQ. unfold schCreateSpinLock. granted. Qed.

Lemma wp_create_mutex (Q : Z * Z → env W → Prop) (e : env W) :
  (∀ p e', Q (err_code SCH_OK, p) e') → wp (schCreateMutex NDEBUG) Q e.
Proof. intros HQ. unfold schCreateMutex. granted. Qed.

Lemma wp_create_conditional (Q : Z * Z → env W → Prop) (e : env W) :
  (∀ p e', Q (err_code SCH_OK, p) e') → wp schCreateConditional Q e.
Proof. intros HQ. unfold schCreateConditional. granted. Qed.

Lemma wp_create_barrier (Q : Z * Z → env W → Prop) (e : env W) :
  (∀ p e', Q (err_code SCH_OK, p) e') → wp schCreateBarrier Q e.
Proof.
  intros HQ. unfold schCreateBarrier. granted. rewrite decide_False by apply malloc_works.
  apply wp_bind, wp_call. granted.
Qed.

Lemma wp_create_objects n flag num s :
  0 <= n → ts_num (sc_ts s) = num → ts_flag (sc_ts s) = flag → 0 <= num →
  length (ts_pools (sc_ts s)) = Z.to_nat num → length (ts_dheaps (sc_ts s)) = Z.to_nat num →
  wp (create_objects NDEBUG uninit_package n) (λ r s',
    r = err_code SCH_OK ∧ sc_addr s' = sc_addr s ∧ fresh is_self (sc_addr s) num flag n (sc_ts s')) s.
Proof.
  intros Hn Hnum Hflag Hnum0 Hlp Hld. unfold create_objects.
  apply wp_bind, wp_plat, wp_create_signal. intros set0 e1 Hset. apply wp_bind, wp_set_ts.
  rewrite decide_False by done.
  apply wp_bind, wp_plat, wp_create_spinlock. intros spin e2. apply wp_bind, wp_set_ts.
  rewrite decide_False by (intros []; done).
  apply wp_bind, wp_plat, wp_create_mutex. intros mutex e3. apply wp_bind, wp_set_ts.
  rewrite decide_False by (intros []; done).
  apply wp_bind, wp_plat, wp_create_conditional. intros cond e4. apply wp_bind, wp_set_ts.
  rewrite decide_False by (intros []; done).
  apply wp_bind, wp_plat, wp_create_barrier. intros barrier e5. apply wp_bind, wp_set_ts.
  rewrite decide_False by (intros []; done).
  apply wp_bind, wp_get_ts, wp_bind, wp_plat. unfold schInitBarrier. apply wp_granted; [done|intros e6].
  rewrite decide_False by (intros []; done). lazymatch goal with |- wp _ _ ?t => set (s1 := t) end.
  apply wp_bind. replace (Z.to_nat _) with (length (ts_pools (sc_ts s1))) by (cbn; by rewrite Hlp, Hnum).
  eapply wp_mono; [apply (wp_create_pools (ts_pools (sc_ts s1)) [] [] (ts_dheaps (sc_ts s1)))|].
  1-5: done || (cbn; congruence).
  intros _ s2 (news & Hlen & Hall & Ha2 & Hts2). apply wp_bind, wp_set_ts, wp_ret.
  split; [done|]. split; [by cbn; rewrite Ha2|].
  cbn [sc_ts set tset const]. rewrite Hts2. split; cbn; try done.
  - rewrite Hlen. cbn. rewrite Hlp. lia.
  - by rewrite Hlen.
  - by rewrite Hflag.
Qed.
End creation.

Lemma fresh_sched_ok self addr num flag n ts :
  0 < n < UINT_MOD → SCH_HEAP_BREATH * num <= INT_MAX → fresh self addr num flag n ts → sched_ok addr ts.
Proof.
  intros Hn Hsmall [Hnum Hlen Hall Hd Hf].
  assert (∀ P : schTaskPool → Prop, (∀ i pool, created self addr n i pool → P pool) → Forall P (ts_pools ts)) as HP.
  { intros P HP. apply Forall_lookup. intros i pool Hi. eapply HP, Hall, Hi. }
  split.
  - by rewrite Hnum.
  - by rewrite Hnum.
  - by rewrite Hd.
  - apply HP. intros i pool. by apply created_ring_wf.
  - apply HP. intros i pool Hc. by rewrite (cr_prio _ _ _ _ _ Hc).
  - apply HP. intros i pool Hc. by apply (cr_sch _ _ _ _ _ Hc).
Qed.

(** ** What a failed creation frees *)

(** The calls of [sch_release_scheduler_resources] on the object [ts]. *)
Definition release_calls (ts : schTaskSch) : list syscall :=
  (if decide (ts_pool ts ≠ NULL) then [c_free (ts_pool ts)] else []) ++
  (if decide (ts_dheap ts ≠ NULL) then [c_free (ts_dheap ts)] else []) ++
  (if decide (ts_set ts ≠ NULL) then [c_free (ts_set ts)] else []) ++
  (if decide (ts_spinlock ts ≠ NULL) then [c_spin_destroy (ts_spinlock ts); c_free (ts_spinlock ts)] else []).

Section release.
Context {W : Type} `{Posix W}.
Implicit Types (s : sched W).

(** The object after the arrays are freed. *)
Definition freed (ts : schTaskSch) : schTaskSch :=
  ts <| ts_pools := if decide (ts_pool ts ≠ NULL) then [] else ts_pools ts |>
     <| ts_dheaps := if decide (ts_dheap ts ≠ NULL) then [] else ts_dheaps ts |>.

(** The four optional releases. *)
Lemma wp_free_array p f Q s :
  (∀ e, calls e = calls (sc_env s) ++ (if decide (p ≠ NULL) then [c_free p] else []) →
     Q () (mkSched (sc_addr s) (if decide (p ≠ NULL) then f (sc_ts s) else sc_ts s) e)) →
  wp (if decide (p ≠ NULL) then _ ← plat (call (c_free p)); set_ts f else mret ()) Q s.
Proof.
  intros HQ. destruct (decide (p ≠ NULL)).
  - wp_steps. apply HQ. apply calls_after.
  - apply wp_ret. destruct s. apply HQ. by rewrite app_nil_r.
Qed.

Lemma wp_free_set p Q s :
  (∀ e, calls e = calls (sc_env s) ++ (if decide (p ≠ NULL) then [c_free p] else []) →
     Q () (mkSched (sc_addr s) (sc_ts s) e)) →
  wp (if decide (p ≠ NULL) then _ ← plat (schDeleteSignal p); mret () else mret ()) Q s.
Proof.
  intros HQ. destruct (decide (p ≠ NULL)).
  - unfold schDeleteSignal. wp_steps. apply HQ. apply calls_after.
  - apply wp_ret. destruct s. apply HQ. by rewrite app_nil_r.
Qed.

Lemma wp_free_spinlock p Q s :
  (∀ e, calls e = calls (sc_env s) ++ (if decide (p ≠ NULL) then [c_spin_destroy p; c_free p] else []) →
     Q () (mkSched (sc_addr s) (sc_ts s) e)) →
  wp (if decide (p ≠ NULL) then _ ← plat (schDeleteSpinLock p); mret () else mret ()) Q s.
Proof.
  intros HQ. destruct (decide (p ≠ NULL)).
  - unfold schDeleteSpinLock. wp_steps. apply HQ.
    cbn [sc_env set tset const]. by rewrite !calls_after, <-app_assoc.
  - apply wp_ret. destruct s. apply HQ. by rewrite app_nil_r.
Qed.

Lemma wp_release_resources Q s :
  (∀ e, calls e = calls (sc_env s) ++ release_calls (sc_ts s) →
     Q () (mkSched (sc_addr s) (freed (sc_ts s)) e)) →
  wp sch_release_scheduler_resources Q s.
Proof.
  intros HQ. unfold sch_release_scheduler_resources.
  apply wp_bind, wp_get_ts, wp_bind, wp_free_array. intros e1 H1.
  apply wp_bind, wp_get_ts, wp_bind, wp_free_array. intros e2 H2.
  apply wp_bind, wp_get_ts, wp_bind, wp_free_set. intros e3 H3.
  apply wp_bind, wp_get_ts, wp_free_spinlock. intros e4 H4.
  destruct s as [addr [] e]. unfold release_calls, freed in HQ. cbn [sc_ts sc_addr sc_env] in *.
  repeat (case_decide; cbn in *; try done); apply HQ; rewrite H4, H3, H2, H1, <-?app_assoc; done.
Qed.

(** The loop of [schReleaseTaskSch]. *)
Definition released (pool : schTaskPool) : schTaskPool :=
  pool <| tp_package := NULL |> <| tp_packages := [] |> <| tp_flag := 0 |>.

Lemma wp_release_pools suf pre Q s :
  ts_pools (sc_ts s) = pre ++ suf →
  (∀ e, calls e = calls (sc_env s) ++ ((λ pool, c_free (tp_package pool)) <$> suf) →
     Q () (mkSched (sc_addr s) ((sc_ts s) <| ts_pools := pre ++ (released <$> suf) |>) e)) →
  wp (for_loop (length suf) (Z.of_nat (length pre)) release_pool) Q s.
Proof.
  revert pre s. induction suf as [|pool suf IH]; intros pre s Hp HQ; cbn [length for_loop].
  { apply wp_ret. specialize (HQ (sc_env s)). destruct s as [addr [] e]. cbn in *. subst.
    rewrite !app_nil_r in *. by apply HQ. }
  assert (at_index (ts_pools (sc_ts s)) (Z.of_nat (length pre)) = Some pool) as Hat.
  { rewrite at_index_nat, Nat2Z.id, Hp by lia. by apply list_lookup_middle. }
  unfold release_pool at 1. wp_steps. eapply wp_get_pool; [exact Hat|]. wp_steps.
  eapply wp_set_pool; [exact Hat|]. fold (released pool). rewrite Nat2Z.id.
  replace (Z.of_nat (length pre) + 1) with (Z.of_nat (length (pre ++ [released pool])))
    by (rewrite length_app; cbn; lia).
  apply IH; [cbn; by rewrite Hp, insert_middle, <-app_assoc|].
  intros e He. assert (calls e = calls (sc_env s) ++
    ((λ pool, c_free (tp_package pool)) <$> pool :: suf)) as Hc.
  { rewrite He. cbn [sc_env set tset const]. by rewrite calls_after, <-app_assoc. }
  specialize (HQ e Hc). destruct s as [addr [] e0]. cbn in *. by rewrite Hp, <-app_assoc in *.
Qed.

(** A scheduler that does not run is released: the queues of the pools, then the rest. *)
Lemma wp_release others fuel Q s :
  life_of (flag_of s) ≠ Running → ts_num (sc_ts s) = Z.of_nat (length (ts_pools (sc_ts s))) →
  (∀ e, calls e = calls (sc_env s)
      ++ ((λ pool, c_free (tp_package pool)) <$> ts_pools (sc_ts s)) ++ release_calls (sc_ts s) →
     Q (err_code SCH_OK) (mkSched (sc_addr s)
       (freed ((sc_ts s) <| ts_pools := released <$> ts_pools (sc_ts s) |>)) e)) →
  wp (schReleaseTaskSch others fuel) Q s.
Proof.
  intros Hl Hnum HQ. unfold schReleaseTaskSch. apply wp_bind. unfold wp at 1.
  rewrite terminate_idle_eq by done. rewrite decide_False by (intros []; done).
  unfold for_pools. wp_steps. rewrite Hnum, Nat2Z.id.
  apply (wp_release_pools (ts_pools (sc_ts s)) []); [done|]. intros e1 H1. apply wp_bind.
  apply wp_release_resources. intros e2 H2. apply wp_ret, HQ.
  cbn [sc_env] in *. rewrite H2. cbn [sc_env] in *. by rewrite H1, <-app_assoc.
Qed.
End release.

(** ** Properties *)

Section properties.
Context {W : Type} `{Posix W}.
Context (NDEBUG : bool) (uninit_pool : nat → schTaskPool) (uninit_cell : nat → nat).
Context (uninit_package : nat → schTaskPackage).

Abbreviation create := (schCreateTaskPool NDEBUG uninit_pool uninit_cell uninit_package).

(** The object that a creation leaves. *)
Lemma wp_create ncpu cores flag n (s : sched W) :
  (∀ m w, ans_ret (fst (sys (c_malloc m) w)) ≠ NULL) →
  (∀ c w, create_request c = true → ans_ret (fst (sys c w)) = 0) →
  (∀ w, ans_ret (fst (sys c_sysconf_nprocessors w)) = ncpu) → SCH_HEAP_BREATH * ncpu <= INT_MAX →
  sc_addr s ≠ NULL → cores = -1 ∧ 0 < ncpu ∨ 0 < cores <= ncpu → 0 < n < UINT_MOD →
  let num := if decide (cores = -1) then ncpu else cores in
  wp (create cores flag n) (λ r s', r = err_code SCH_OK ∧ sc_addr s' = sc_addr s ∧
    fresh is_self (sc_addr s) num (Z.land flag (Z.lnot (Z.lor SCH_FLAG_INIT SCH_FLAG_RUNNING))) n (sc_ts s')) s.
Proof.
  intros Hmalloc Hinit Hcpu Hsmall Haddr Hcores Hn num. unfold SCH_HEAP_BREATH, INT_MAX in *.
  assert (0 < num <= ncpu) as Hnum by (unfold num; case_decide; lia).
  assert (s32 ncpu = ncpu) as Hs32 by (apply s32_small; unfold INT_MIN, INT_MAX; lia).
  unfold schCreateTaskPool. wp_steps. rewrite decide_False by done.
  unfold schGetNumCPUCores. wp_steps. rewrite Hcpu, Hs32, decide_False by lia.
  apply wp_bind. apply (wp_mono _ (λ c s1, c = num ∧ sc_addr s1 = sc_addr s)).
  { unfold num. case_decide; wp_steps; [by rewrite Hcpu, Hs32|done]. }
  intros ? s1 [-> Ha]. rewrite u32_small by (unfold UINT_MOD; lia). wp_steps.
  rewrite decide_False by apply Hmalloc. wp_steps. rewrite decide_False by apply Hmalloc.
  eapply wp_mono.
  { apply (wp_create_objects NDEBUG uninit_package Hmalloc Hinit n
      (Z.land flag (Z.lnot (Z.lor SCH_FLAG_INIT SCH_FLAG_RUNNING))) num); try done || lia.
    all: cbn [sc_ts ts_pools ts_dheaps set tset const]; rewrite decide_False by apply Hmalloc;
      by rewrite length_fmap, length_seq. }
  cbn [sc_addr set tset const]. intros r s2 (-> & Ha2 & Hfr). rewrite Ha in *.
  by split_and!.
Qed.

(** C28: on a system that grants every request, [schCreateTaskPool] succeeds for every
    number of cores the machine has, and -1 for all of them, whatever the memory of the
    object and of the new arrays held: it makes one pool per core, each idle, with an empty
    queue of [maxPackagesPool] cells, without a thread, a mutex or callbacks and pointing
    back to the scheduler; the INIT flag is set, RUNNING clear, and the object is well
    formed.  The size may be any number but zero that fits an [unsigned int].  The test
    [MissUse] of test/unit-test/main.c expects otherwise: it asks for (unsigned int)-2 cells,
    which is one of these sizes, and wants [SCH_ERROR_INVALID_ARG]; the code has no such
    check, and that many cells are refused by nothing but a [malloc] that fails, whose answer
    for the queues it does not look at. *)
Theorem schCreateTaskPool_creates ncpu cores flag n (s : sched W) :
  (∀ m w, ans_ret (fst (sys (c_malloc m) w)) ≠ NULL) →
  (∀ c w, create_request c = true → ans_ret (fst (sys c w)) = 0) →
  (∀ w, ans_ret (fst (sys c_sysconf_nprocessors w)) = ncpu) → SCH_HEAP_BREATH * ncpu <= INT_MAX →
  sc_addr s ≠ NULL → cores = -1 ∧ 0 < ncpu ∨ 0 < cores <= ncpu → 0 < n < UINT_MOD →
  let num := if decide (cores = -1) then ncpu else cores in
  wp (create cores flag n) (λ r s', r = err_code SCH_OK ∧ sc_addr s' = sc_addr s ∧
    fresh is_self (sc_addr s) num (Z.land flag (Z.lnot (Z.lor SCH_FLAG_INIT SCH_FLAG_RUNNING))) n (sc_ts s') ∧
    life_of (flag_of s') = Ready ∧ sched_ok (sc_addr s) (sc_ts s')) s.
Proof.
  intros Hmalloc Hinit Hcpu Hsmall Haddr Hcores Hn num. eapply wp_mono; [by apply (wp_create ncpu)|].
  intros r s' (Hr & Ha & Hfr). split_and!; try done.
  - unfold flag_of. rewrite (fr_flag _ _ _ _ _ _ Hfr). by apply flag_created.
  - eapply fresh_sched_ok; [exact Hn| |exact Hfr]. unfold SCH_HEAP_BREATH, INT_MAX, num in *. case_decide; lia.
Qed.

(** When the allocation of the pools fails, [schCreateTaskPool] returns what [errno]
    translates to and releases the scheduler's resources, although it has created none:
    the pointers [dheap], [set] and [spinlock] it frees are those the object held before
    the call. *)
Theorem failed_creation_frees_old_pointers cores flag n (s : sched W) :
  let e1 := after c_sysconf_nprocessors (sc_env s) in
  let request := c_malloc (u64 (sizeof_schTaskPool * u32 cores)) in
  sc_addr s ≠ NULL → cores ≠ -1 →
  cores <= s32 (ans_ret (fst (sys c_sysconf_nprocessors (world (sc_env s))))) →
  ans_ret (fst (sys request (world e1))) = NULL →
  wp (create cores flag n) (λ r s',
    r = translate_errno_to_sch_error (errno (world (after request e1))) ∧
    calls (sc_env s') = calls (sc_env s) ++ [c_sysconf_nprocessors; request]
                          ++ release_calls ((sc_ts s) <| ts_pool := NULL |>) ∧
    life_of (flag_of s') = Blank) s.
Proof.
  intros e1 request Haddr Hcores Hn Hnull. unfold schCreateTaskPool. wp_steps.
  rewrite decide_False by done. unfold schGetNumCPUCores. wp_steps.
  rewrite decide_False by lia. apply wp_bind. rewrite decide_False by done. apply wp_ret.
  wp_steps. fold request. cbn [sc_env set tset const]. fold e1. rewrite Hnull, decide_True by done.
  unfold get_errno, create_failed. apply wp_bind, wp_plat, wp_gets, wp_bind.
  apply wp_release_resources. intros e He.
  apply wp_ret. split_and!; [done| |].
  - cbn [sc_env]. rewrite He. cbn [sc_env set tset const]. unfold e1. by rewrite !calls_after, <-!app_assoc.
  - unfold flag_of. cbn [sc_ts]. by apply (flag_not_created flag).
Qed.

(** C34: releasing a scheduler that does not run frees the queue of every pool, the two
    arrays, the signal set and the spin lock, and nothing else: the mutex, the condition
    and the barrier of the scheduler, which its creation allocated, are not released.  The
    pointers stay in the object, so that a second release is undefined. *)
Theorem schReleaseTaskSch_frees others fuel (s : sched W) :
  life_of (flag_of s) ≠ Running → ts_num (sc_ts s) = Z.of_nat (length (ts_pools (sc_ts s))) →
  0 < ts_num (sc_ts s) → ts_pool (sc_ts s) ≠ NULL →
  wp (schReleaseTaskSch others fuel) (λ r s', r = err_code SCH_OK ∧
    calls (sc_env s') = calls (sc_env s)
      ++ ((λ pool, c_free (tp_package pool)) <$> ts_pools (sc_ts s)) ++ release_calls (sc_ts s) ∧
    life_of (flag_of s') = life_of (flag_of s) ∧
    schReleaseTaskSch others fuel s' = Undef) s.
Proof.
  intros Hl Hnum Hpos Hpool. apply wp_release; [done..|]. intros e He.
  split_and!; [done|exact He|done|].
  - unfold schReleaseTaskSch. erewrite M_bind_eq by (apply terminate_idle_eq; exact Hl).
    rewrite decide_False by (intros []; done). unfold for_pools, mbind, M_bind, get_ts, gets.
    cbn [sc_ts]. unfold freed. cbn [ts_num ts_pool set tset const]. rewrite decide_True by done.
    destruct (Z.to_nat (ts_num (sc_ts s))) as [|k] eqn:Hk; [lia|]. done.
Qed.
End properties.

(** *** Witnesses *)

(** A machine of four cores whose system grants everything. *)
Definition granting_posix : Posix () := {|
  sys c w := (mkAnswer (match c with c_malloc _ => 4096 | c_sysconf_nprocessors => 4 | _ => 0 end) [], w);
  errno _ := 0;
  indet _ := 0;
|}.
Definition raw_unit : sched () := mkSched 512 (mkSch 7 7 [] 7 7 [] 7 7 7 7 7) (mkEnv () []).

Lemma schCreateTaskPool_creates_witness :
  wp (schCreateTaskPool (H := granting_posix) true raw_pool id raw_package (-1) SCH_FLAG_NO_AFM 8)
    (λ r s', r = err_code SCH_OK ∧ sc_addr s' = 512 ∧
      fresh (is_self (H := granting_posix)) 512 4 (Z.land SCH_FLAG_NO_AFM (Z.lnot (Z.lor SCH_FLAG_INIT SCH_FLAG_RUNNING))) 8 (sc_ts s') ∧
      life_of (flag_of s') = Ready ∧ sched_ok 512 (sc_ts s')) raw_unit.
Proof.
  eapply wp_mono.
  - apply (schCreateTaskPool_creates (H := granting_posix) true raw_pool id raw_package 4 (-1)
      SCH_FLAG_NO_AFM 8 raw_unit).
    + discriminate.
    + intros [] w; (discriminate || reflexivity).
    + reflexivity.
    + vm_compute. discriminate.
    + discriminate.
    + left. split; reflexivity.
    + split; reflexivity.
  - intros r s' (Hr & Ha & Hf & Hl & Hok).
    split; [exact Hr|split; [exact Ha|split; [exact Hf|split; [exact Hl|exact Hok]]]].
Defined.

(** An object whose pointers are left from an earlier use, and a system without memory. *)
Definition stale_sched : sched simple_os :=
  mkSched 512 (mkSch 7 7 [] 7 801 [] 802 7 7 7 803) (os_with [(c_malloc 224, mkAnswer 0 [])] ENOMEM).

Lemma failed_creation_frees_old_pointers_witness :
  wp (schCreateTaskPool true raw_pool id raw_package 2 0 8) (λ r s',
    r = translate_errno_to_sch_error ENOMEM ∧
    calls (sc_env s') = [] ++ [c_sysconf_nprocessors; c_malloc 224]
      ++ [c_free 801; c_free 803; c_spin_destroy 802; c_free 802] ∧
    life_of (flag_of s') = Blank) stale_sched.
Proof.
  eapply wp_mono.
  - apply (failed_creation_frees_old_pointers true raw_pool id raw_package 2 0 8 stale_sched).
    + discriminate.
    + discriminate.
    + vm_compute. discriminate.
    + reflexivity.
  - intros r s' (Hr & Hc & Hl). split; [exact Hr|split; [exact Hc|exact Hl]].
Defined.

Definition ready_sched : sched simple_os :=
  running_sched <| sc_ts ::= λ ts, ts <| ts_flag := SCH_FLAG_INIT |> |>.

Lemma schReleaseTaskSch_frees_witness :
  wp (schReleaseTaskSch all_idle 3) (λ r s', r = err_code SCH_OK ∧
    calls (sc_env s') = [] ++ [c_free 700; c_free 700]
      ++ [c_free 640; c_free 650; c_free 664; c_spin_destroy 660; c_free 660] ∧
    life_of (flag_of s') = life_of (flag_of ready_sched) ∧
    schReleaseTaskSch all_idle 3 s' = Undef) ready_sched.
Proof.
  eapply wp_mono.
  - apply (schReleaseTaskSch_frees all_idle 3 ready_sched).
    + discriminate.
    + reflexivity.
    + reflexivity.
    + discriminate.
  - intros r s' (Hr & Hc & Hl & Hu). split; [exact Hr|split; [exact Hc|split; [exact Hl|exact Hu]]].
Defined.
