(* ===== verification/Running.v ===== *)
(** * Starting the pools

    [schRunTaskSch] of src/taskSch.c: the threads it starts, the signals it sends, and what
    it leaves when it fails. *)
From S2P Require Import Prelude Errors Flags Structures Heapify TaskQueue Platform.
From S2P Require Import Scheduler SchedulerFacts Examples Lifecycle.

#[local] Opaque get_pool set_pool.

(** Calls that start, signal or end threads. *)
Definition is_thread_call (c : syscall) : bool :=
  match c with
  | c_pthread_create _ _ | c_pthread_kill _ _ | c_pthread_join _ | c_pthread_detach _ => true
  | _ => false
  end.

(** A request that the system refused: an answer other than 0 where 0 means success. *)
Definition refused (ev : syscall * answer) : Prop :=
  match ev.1 with
  | c_sigaddset _ _ | c_sigmask_block _ | c_mutex_init _ | c_attr_setaffinity _
  | c_pthread_create _ _ | c_pthread_kill _ _ => ans_ret ev.2 ≠ 0
  | _ => False
  end.

Section running.
Context {W : Type} `{Posix W}.
Variable NDEBUG : bool.
Implicit Types (s : sched W) (e : env W).

(** Between [e] and [e'] the calls about threads were [ts]; if [fail] holds, some request
    was refused. *)
Definition went (ts : list syscall) (fail : Prop) e e' : Prop :=
  ∃ tr, trace e' = trace e ++ tr ∧ filter is_thread_call (fst <$> tr) = ts ∧ (fail → Exists refused tr).

Lemma went_nil e : went [] False e e.
Proof. exists []. by rewrite app_nil_r. Qed.

Lemma went_app t1 f1 t2 f2 e e1 e2 :
  went t1 f1 e e1 → went t2 f2 e1 e2 → went (t1 ++ t2) (f1 ∨ f2) e e2.
Proof.
  intros (tr1 & H1 & <- & F1) (tr2 & H2 & <- & F2). exists (tr1 ++ tr2). split_and!.
  - by rewrite H2, H1, app_assoc.
  - by rewrite fmap_app, filter_app.
  - intros [?|?]; apply Exists_app; auto.
Qed.

Lemma went_weaken t f f' e e' : (f' → f) → went t f e e' → went t f' e e'.
Proof. intros Hf (tr & ? & ? & ?). exists tr. auto. Qed.

Lemma went_call c e (a := fst (sys c (world e))) :
  went (if is_thread_call c then [c] else []) (refused (c, a)) e (after c e).
Proof.
  exists [(c, a)]. split_and!; [done| |intros ?; by constructor].
  cbn. case_decide as E; by destruct (is_thread_call c).
Qed.

Lemma translate_0 r : pthread_error_code2sch_error_code r ≠ err_code SCH_OK → r ≠ 0.
Proof. intros Hr ->. by apply Hr. Qed.

(** The system: memory is granted, the set of signals is a set, and a thread that was
    made has a non-zero id. *)
Hypothesis malloc_works : ∀ n w, ans_ret (fst (sys (c_malloc n) w)) ≠ NULL.
Hypothesis emptyset_works : ∀ p w, ans_ret (fst (sys (c_sigemptyset p) w)) = 0.
Hypothesis create_stores : ∀ f p w, ans_ret (fst (sys (c_pthread_create f p) w)) = 0 →
  ∃ t out, ans_out (fst (sys (c_pthread_create f p) w)) = t :: out ∧ t ≠ NULL.

Lemma wp_malloc_checked n (k : Z → M (env W) (Z * Z)) Q e :
  (∀ p e', p ≠ NULL → went [] False e e' → wp (k p) Q e') →
  wp (p ← ret_of (c_malloc n); _ ← assert_e NDEBUG (mret (truthy p)); k p) Q e.
Proof.
  intros HQ. apply wp_bind, wp_ret_of. pose proof (malloc_works n (world e)) as Hp.
  apply wp_bind. unfold assert_e. rewrite (proj2 (truthy_spec _) Hp).
  assert (went [] False e (after (c_malloc n) e)) as Hw.
  { eapply went_weaken; [|apply (went_call (c_malloc n))]. done. }
  destruct NDEBUG; wp_steps; by apply HQ.
Qed.

Lemma wp_create_mutex_went e :
  wp (schCreateMutex NDEBUG) (λ r e', r.2 ≠ NULL ∧ went [] (truthy r.1 = false) e e') e.
Proof.
  unfold schCreateMutex. apply wp_malloc_checked. intros p e1 Hp H1. wp_steps. split; [done|].
  eapply went_weaken, (went_app _ _ _ _ _ _ _ H1 (went_call (c_mutex_init p) e1)).
  cbn. intros Hr. right. apply translate_0. intros Heq. by rewrite Heq in Hr.
Qed.

Lemma wp_create_signal_went e :
  wp (schCreateSignal NDEBUG) (λ p e', p ≠ NULL ∧ went [] False e e') e.
Proof.
  unfold schCreateSignal. apply wp_bind, wp_ret_of. apply wp_bind. unfold assert_e.
  rewrite (proj2 (truthy_spec _) (malloc_works _ _)).
  assert (went [] False e (after (c_malloc sizeof_sigset) e)) as Hw.
  { eapply went_weaken; [|apply (went_call (c_malloc sizeof_sigset))]. done. }
  destruct NDEBUG; wp_steps; (split; [apply malloc_works|done]).
Qed.

(** [schCreateThread]: a thread, or a refused request. *)
Lemma wp_create_thread_went affinity f arg e :
  wp (schCreateThread affinity f arg) (λ t e',
    (t ≠ NULL ∧ went [c_pthread_create f arg] False e e') ∨
    (t = NULL ∧ ∃ ts, went ts True e e' ∧ ts ⊆+ [c_pthread_create f arg])) e.
Proof.
  unfold schCreateThread. wp_steps.
  assert (went [] False e (after c_attr_init e)) as H0.
  { eapply went_weaken; [|apply (went_call c_attr_init)]. done. }
  apply (wp_mono _ (λ failed e1, went [] (failed = true) e e1)).
  { case_decide.
    - wp_steps. eapply went_weaken, (went_app _ _ _ _ _ _ _ H0 (went_call (c_attr_setaffinity affinity) _)).
      cbn. intros Ht%truthy_spec. by right.
    - apply wp_ret. eapply went_weaken; [|exact H0]. done. }
  intros failed e1 H1. destruct failed.
  { apply wp_ret. right. split; [done|]. exists []. split; [by eapply went_weaken; [|exact H1]|].
    apply submseteq_nil_l. }
  apply wp_bind, wp_call. pose proof (went_app _ _ _ _ _ _ _ H1 (went_call (c_pthread_create f arg) e1)) as H2.
  case_decide as Hr.
  { apply wp_ret. right. split; [done|]. eexists. split; [|reflexivity].
    eapply went_weaken; [|exact H2]. by right. }
  destruct (create_stores f arg (world e1)) as (t & out & Hout & Ht); [lia|].
  apply wp_bind. unfold out_of. eapply wp_liftO; [by rewrite Hout|]. wp_steps. left. split; [done|].
  eapply went_weaken, (went_app _ _ _ _ _ _ _ H2 (went_call c_attr_destroy _)). done.
Qed.

(** A pool that was given a mutex, a signal set and a thread. *)
Definition is_started (pool pool' : schTaskPool) : Prop :=
  ∃ m st t, m ≠ NULL ∧ st ≠ NULL ∧ t ≠ NULL ∧
    pool' = pool <| tp_mutex := m |> <| tp_set := st |> <| tp_thread := t |>.

(** The thread of pool [i]. *)
Definition create_call (i : Z) : syscall := c_pthread_create schPoolExecutor_addr i.

(** A turn of the loop that did not go on: the status, and the thread calls it made. *)
Definition stops (t : run_turn) (i : Z) (pool' : schTaskPool) e e' : Prop :=
  ∃ ts, went ts True e e' ∧ ts ⊆+ [create_call i] ∧
    (t = ReturnWith (err_code SCH_ERROR_INTERNAL) ∨
     t = Failed (err_code SCH_ERROR_INVALID_SCH) ∧ tp_thread pool' = NULL).

Lemma wp_run_pool pre pool suf s :
  ts_pools (sc_ts s) = pre ++ pool :: suf →
  wp (run_pool NDEBUG (Z.of_nat (length pre))) (λ t s', ∃ pool', sc_addr s' = sc_addr s ∧
    sc_ts s' = (sc_ts s) <| ts_pools := pre ++ pool' :: suf |> ∧
    (t = Continue ∧ is_started pool pool' ∧
       went [create_call (Z.of_nat (length pre))] False (sc_env s) (sc_env s') ∨
     stops t (Z.of_nat (length pre)) pool' (sc_env s) (sc_env s'))) s.
Proof.
  intros Hpools.
  assert (∀ q (t : sched W), ts_pools (sc_ts t) = pre ++ q :: suf →
    at_index (ts_pools (sc_ts t)) (Z.of_nat (length pre)) = Some q) as Hat.
  { intros q t Ht. rewrite at_index_nat, Nat2Z.id, Ht by lia. by apply list_lookup_middle. }
  unfold run_pool. apply wp_bind, wp_plat. eapply wp_mono; [apply wp_create_mutex_went|].
  intros [ok m] e1 [Hm H1]. cbn [fst snd] in *. apply wp_bind. eapply wp_set_pool; [by apply (Hat pool)|].
  rewrite Nat2Z.id. destruct (truthy ok); cbn [negb].
  2: { apply wp_ret. eexists. split_and!; [done|cbn; by rewrite Hpools, insert_middle|]. right.
    exists []. split_and!; [by eapply went_weaken; [|exact H1]|apply submseteq_nil_l|by left]. }
  apply wp_bind, wp_plat. eapply wp_mono; [apply wp_create_signal_went|]. intros st e2 [Hst H2].
  pose proof (went_app _ _ _ _ _ _ _ H1 H2) as H12. cbn in H12.
  apply wp_bind. eapply wp_set_pool.
  { eapply Hat. cbn. by rewrite Hpools, insert_middle. }
  rewrite Nat2Z.id. unfold flag_has. apply wp_bind, wp_get_ts.
  lazymatch goal with |- context [schCreateThread ?a ?f ?i] => set (affinity := a) end.
  apply wp_bind, wp_plat. eapply wp_mono; [apply wp_create_thread_went|]. intros t e3 Ht.
  apply wp_bind. eapply wp_set_pool.
  { eapply Hat. cbn. by rewrite Hpools, !insert_middle. }
  rewrite Nat2Z.id. destruct Ht as [[Ht H3]|[-> (ts & H3 & Hts)]].
  - rewrite decide_False by done.
    pose proof (went_app _ _ _ _ _ _ _ H12 H3) as H123. cbn in H123.
    unfold schSetThreadName. wp_steps. eexists. split_and!; [done|cbn; by rewrite Hpools, !insert_middle|].
    left. split; [done|]. split; [by exists m, st, t|].
    eapply went_weaken, (went_app _ _ _ _ _ _ _ H123 (went_call (c_pthread_setname _ _) _)). done.
  - rewrite decide_True by done. wp_steps.
    eexists. split_and!; [done|cbn; by rewrite Hpools, !insert_middle|]. right. exists ts.
    split_and!; [|done|by right]. eapply went_weaken, (went_app _ _ _ _ _ _ _ H12 H3). by right.
Qed.

(** How the loop over the pools stops early: the pools before position [length new] have
    their threads, the pool there does not, and no thread was told anything. *)
Definition stopped (t : run_turn) (pools : list schTaskPool) e e' : Prop :=
  ∃ ts, went ts True e e' ∧ Forall (λ c, ∃ i, c = create_call i) ts ∧
    (t = ReturnWith (err_code SCH_ERROR_INTERNAL) ∨
     t = Failed (err_code SCH_ERROR_INVALID_SCH) ∧
     ∃ new pool' rest, pools = new ++ pool' :: rest ∧ tp_thread pool' = NULL ∧
       Forall (λ pool, tp_thread pool ≠ NULL) new).

Lemma is_started_thread pools new :
  Forall2 is_started pools new → Forall (λ pool, tp_thread pool ≠ NULL) new.
Proof.
  intros Hall. induction Hall as [|pool pool' pools new Hp _ IH]; [constructor|].
  constructor; [|exact IH]. by destruct Hp as (m & st & t & _ & _ & Ht & ->).
Qed.

Lemma stopped_after i t pools e e1 e2 :
  went [create_call i] False e e1 → stopped t pools e1 e2 → stopped t pools e e2.
Proof.
  intros H1 (ts & H2 & Hts & Ht). exists (create_call i :: ts). split_and!; [| |done].
  - eapply went_weaken, (went_app [_] _ _ _ _ _ _ H1 H2). by right.
  - constructor; [by exists i|done].
Qed.

Lemma stops_stopped t pre pool' suf e e' :
  Forall (λ pool, tp_thread pool ≠ NULL) pre →
  stops t (Z.of_nat (length pre)) pool' e e' → stopped t (pre ++ pool' :: suf) e e'.
Proof.
  intros Hpre (ts & H1 & Hsub & Ht). exists ts. split_and!; [done| |].
  - apply Forall_forall. intros c Hc. apply (elem_of_submseteq _ _ _ Hc) in Hsub.
    apply list_elem_of_singleton in Hsub. by eexists.
  - destruct Ht as [?|[? ?]]; [by left|]. right. split; [done|]. by exists pre, pool', suf.
Qed.

Lemma went_creates k (n : nat) e e1 e2 :
  went [create_call k] False e e1 → went (create_call <$> seqZ (k + 1) (Z.of_nat n)) False e1 e2 →
  went (create_call <$> seqZ k (Z.of_nat (S n))) False e e2.
Proof.
  intros H1 H2. rewrite seqZ_cons by lia. replace (Z.pred (Z.of_nat (S n))) with (Z.of_nat n) by lia.
  replace (Z.succ k) with (k + 1) by lia.
  eapply (went_weaken _ (False ∨ False)); [by left|]. exact (went_app [_] _ _ _ _ _ _ H1 H2).
Qed.

Lemma wp_run_pools suf pre s :
  ts_pools (sc_ts s) = pre ++ suf → Forall (λ pool, tp_thread pool ≠ NULL) pre →
  wp (run_pools NDEBUG (length suf) (Z.of_nat (length pre))) (λ t s', ∃ new,
    sc_addr s' = sc_addr s ∧ length new = length suf ∧
    sc_ts s' = (sc_ts s) <| ts_pools := pre ++ new |> ∧
    (t = Continue ∧ Forall2 is_started suf new ∧
       went (create_call <$> seqZ (Z.of_nat (length pre)) (Z.of_nat (length suf))) False (sc_env s) (sc_env s') ∨
     stopped t (pre ++ new) (sc_env s) (sc_env s'))) s.
Proof.
  revert pre s. induction suf as [|pool suf IH]; intros pre s Hpools Hpre; cbn [length run_pools].
  { apply wp_ret. exists []. split_and!; [done|done| |left; split_and!; [done|constructor|apply went_nil]].
    destruct s as [? [] ?]. cbn in *. by rewrite Hpools. }
  apply wp_bind. eapply wp_mono; [by apply (wp_run_pool pre pool suf)|].
  intros t s1 (pool' & Ha1 & Hts1 & Hcase). destruct Hcase as [(-> & Hst & H1)|Hstop].
  - assert (Z.of_nat (length pre) + 1 = Z.of_nat (length (pre ++ [pool']))) as Hnext
      by (rewrite length_app; cbn; lia).
    rewrite Hnext. eapply wp_mono; [apply (IH (pre ++ [pool']))|].
    + rewrite Hts1. cbn. by rewrite <-app_assoc.
    + apply Forall_app. split; [done|]. constructor; [|constructor].
      by destruct Hst as (? & ? & ? & _ & _ & ? & ->).
    + intros t s2 (new & Ha2 & Hlen & Hts2 & Hcase). exists (pool' :: new).
      rewrite Hts2, Hts1, <-app_assoc in *. cbn in *. split_and!; [congruence|lia|done|].
      destruct Hcase as [(-> & Hall & H2)|Hstop]; [left|right; by eapply stopped_after].
      split_and!; [done|by constructor|]. eapply went_creates; [exact H1|]. by rewrite Hnext.
  - apply (stops_stopped _ _ _ suf) in Hstop as Hstopped; [|done].
    destruct Hstop as (_ & _ & _ & [->|[-> _]]); apply wp_ret; exists (pool' :: suf); auto.
Qed.

(** The CONTINUE signals. *)
Definition continue_call (pool : schTaskPool) : syscall :=
  c_pthread_kill (tp_thread pool) SCH_SIGNAL_CONTINUE.

Lemma wp_continue_pools suf pre s :
  ts_pools (sc_ts s) = pre ++ suf →
  wp (continue_pools (length suf) (Z.of_nat (length pre))) (λ ok s',
    s' = s <| sc_env := sc_env s' |> ∧
    if ok : bool then went (continue_call <$> suf) False (sc_env s) (sc_env s')
    else ∃ ts, went ts True (sc_env s) (sc_env s')) s.
Proof.
  revert pre s. induction suf as [|pool suf IH]; intros pre s Hpools; cbn [length continue_pools].
  { apply wp_ret. split; [by destruct s|apply went_nil]. }
  apply wp_bind. eapply wp_get_pool.
  { rewrite at_index_nat, Nat2Z.id, Hpools by lia. by apply list_lookup_middle. }
  apply wp_bind, wp_plat. unfold schRaiseThreadSignal. apply wp_checked_call.
  pose proof (went_call (continue_call pool) (sc_env s)) as H1. cbn [is_thread_call continue_call] in H1.
  case_decide as Hr.
  { apply wp_ret. split; [done|]. eexists. eapply went_weaken; [|exact H1]. intros _. by apply translate_0. }
  replace (Z.of_nat (length pre) + 1) with (Z.of_nat (length (pre ++ [pool])))
    by (rewrite length_app; cbn; lia).
  eapply wp_mono; [apply IH; cbn; by rewrite Hpools, <-app_assoc|].
  intros ok s1 [Hs1 Hok]. split; [by rewrite Hs1|]. destruct ok.
  - eapply went_weaken, (went_app [_] _ _ _ _ _ _ H1 Hok). done.
  - destruct Hok as [ts Hok]. eexists. eapply went_weaken, (went_app [_] _ _ _ _ _ _ H1 Hok). by right.
Qed.

(** The signal mask. *)
Lemma wp_add_signals set_ signals e :
  wp (add_signals set_ signals) (λ r e', went [] (r ≠ None) e e') e.
Proof.
  revert e. induction signals as [|x signals IH]; intros e; cbn [add_signals].
  { apply wp_ret. eapply went_weaken; [|apply went_nil]. by intros []. }
  apply wp_bind, wp_ret_of. pose proof (went_call (c_sigaddset set_ x) e) as H1. case_decide as Hr.
  - apply wp_bind, wp_call, wp_ret.
    eapply went_weaken, (went_app _ _ _ _ _ _ _ H1 (went_call (c_sigemptyset set_) _)). by left.
  - eapply wp_mono; [apply IH|]. intros r e' H2.
    eapply went_weaken, (went_app _ _ _ _ _ _ _ H1 H2). by right.
Qed.

Lemma wp_signal_mask set_ signals e :
  wp (schSetSignalThreadMask NDEBUG set_ signals) (λ r e', went [] (r ≠ err_code SCH_OK) e e') e.
Proof.
  unfold schSetSignalThreadMask. apply wp_bind. apply (wp_mono _ (λ _ e1, went [] False e e1)).
  { unfold assert_e. destruct NDEBUG; [apply wp_ret, went_nil|]. wp_steps.
    rewrite bool_decide_eq_true_2 by apply emptyset_works. apply wp_ret.
    eapply went_weaken; [|apply (went_call (c_sigemptyset set_))]. done. }
  intros _ e1 H1. apply wp_bind. eapply wp_mono; [apply wp_add_signals|]. intros failed e2 H2.
  pose proof (went_app _ _ _ _ _ _ _ H1 H2) as H12. destruct failed.
  { apply wp_ret. eapply went_weaken; [|exact H12]. by right. }
  apply wp_bind, wp_ret_of. pose proof (went_call (c_sigmask_block set_) e2) as H3.
  case_decide as Hr; apply wp_ret; eapply went_weaken, (went_app _ _ _ _ _ _ _ H12 H3).
  - intros _. by right.
  - intros Hr'%translate_0. by right.
Qed.
End running.

(** ** The property *)

(** A successful run: every pool has its mutex, signal set and thread; the threads were
    started in the order of the pools, and all of them were before the first CONTINUE. *)
Definition run_done {W} (s s' : sched W) : Prop :=
  ∃ new, Forall2 is_started (ts_pools (sc_ts s)) new ∧
    sc_ts s' = (sc_ts s) <| ts_pools := new |> <| ts_flag ::= λ f, Z.lor f SCH_FLAG_RUNNING |> ∧
    went ((create_call <$> seqZ 0 (ts_num (sc_ts s))) ++ (continue_call <$> new)) False
      (sc_env s) (sc_env s').

(** A run that could not start all threads: those before the failure run on. *)
Definition run_left_threads {W} (s s' : sched W) : Prop :=
  ∃ new pool' rest ts, ts_pools (sc_ts s') = new ++ pool' :: rest ∧
    Forall (λ pool, tp_thread pool ≠ NULL) new ∧ tp_thread pool' = NULL ∧
    went ts True (sc_env s) (sc_env s') ∧ Forall (λ c, ∃ i, c = create_call i) ts.

(** What a run leaves. *)
Lemma wp_run {W} `{Posix W} NDEBUG others fuel (s : sched W) :
  (∀ n w, ans_ret (fst (sys (c_malloc n) w)) ≠ NULL) →
  (∀ p w, ans_ret (fst (sys (c_sigemptyset p) w)) = 0) →
  (∀ f p w, ans_ret (fst (sys (c_pthread_create f p) w)) = 0 →
     ∃ t out, ans_out (fst (sys (c_pthread_create f p) w)) = t :: out ∧ t ≠ NULL) →
  life_of (flag_of s) = Ready → ts_num (sc_ts s) = Z.of_nat (length (ts_pools (sc_ts s))) →
  wp (schRunTaskSch NDEBUG others fuel) (λ r s',
    (r = err_code SCH_OK ∧ run_done s s') ∨
    (flag_of s' = flag_of s ∧ (∃ ts, went ts True (sc_env s) (sc_env s')) ∧
     (r = err_code SCH_ERROR_INTERNAL ∨
      r = err_code SCH_ERROR_INVALID_SCH ∧ run_left_threads s s'))) s.
Proof.
  intros Hmalloc Hempty Hcreate Hready Hnum.
  destruct (life_of_cases (flag_of s)) as [(_ & ?)|[(Hi & Hr & _)|(_ & _ & ?)]]; [congruence| |congruence].
  unfold schRunTaskSch, flag_has. unfold flag_of in Hi. apply wp_bind, wp_get_ts. rewrite Hi. cbn [negb].
  apply wp_bind, wp_get_ts, wp_bind, wp_plat.
  eapply wp_mono; [by apply wp_signal_mask|]. intros st e1 H1. case_decide as Hst.
  { apply wp_ret. right. split_and!; [done| |by left]. exists []. by eapply went_weaken; [|exact H1]. }
  apply wp_bind, wp_get_ts. cbn [sc_ts set tset const]. rewrite Hnum, Nat2Z.id. apply wp_bind.
  eapply wp_mono; [by apply (wp_run_pools NDEBUG Hmalloc Hcreate (ts_pools (sc_ts s)) [])|].
  intros t s2 (new & Ha2 & Hlen & Hts2 & Hcase). cbn [app sc_ts sc_env set tset const] in *.
  destruct Hcase as [(-> & Hall & H2)|(ts & H2 & Hts & Ht)].
  - apply wp_bind, wp_get_ts. rewrite Hts2. cbn [ts_num set tset const]. rewrite Hnum, Nat2Z.id, <-Hlen.
    apply wp_bind. eapply wp_mono; [apply (wp_continue_pools new []); by rewrite Hts2|].
    intros ok s3 [Hs3 Hok]. pose proof (went_app _ _ _ _ _ _ _ H1 H2) as H12.
    assert (sc_ts s3 = sc_ts s2) as Hts3 by (by rewrite Hs3). destruct ok; cbn [negb].
    + apply wp_bind, wp_set_ts, wp_ret. left. split; [done|].
      exists new. split_and!; [done|cbn; by rewrite Hts3, Hts2|]. rewrite Hnum. cbn.
      eapply went_weaken, (went_app _ _ _ _ _ _ _ H12 Hok). done.
    + destruct Hok as [ts Hok]. apply wp_ret. right. unfold flag_of. rewrite Hts3, Hts2.
      split_and!; [done| |by left]. eexists.
      eapply went_weaken, (went_app _ _ _ _ _ _ _ H12 Hok). by right.
  - pose proof (went_app _ _ _ _ _ _ _ H1 H2) as H12.
    assert (went ts True (sc_env s) (sc_env s2)) as Hw by (eapply went_weaken, H12; by right).
    assert (flag_of s2 = flag_of s) as Hflag by (unfold flag_of; by rewrite Hts2).
    destruct Ht as [->|(-> & new1 & pool' & rest & Hnew & Hnull & Hth)].
    + apply wp_ret. right. split_and!; [done|by exists ts|by left].
    + apply wp_bind. unfold wp at 1. rewrite terminate_idle_eq by (by rewrite Hflag, Hready).
      apply wp_ret. right. split_and!; [done|by exists ts|right]. split; [done|].
      exists new1, pool', rest, ts. split_and!; try done. rewrite Hts2. exact Hnew.
Qed.

(** C29: [schRunTaskSch] on an initialised scheduler that does not run returns, and fails
    only when the system refused a request.  Answered [SCH_OK], it has started one thread
    per pool, in order, before it signalled all of them, and the RUNNING flag is set; the
    queues are as they were.  Otherwise the flags are unchanged.  When a thread could not
    be made ([SCH_ERROR_INVALID_SCH]) the threads made before it are neither signalled nor
    joined: the cleanup calls [schTerminateTaskSch], which does nothing as the scheduler
    does not run yet. *)
Theorem schRunTaskSch_outcomes {W} `{Posix W} NDEBUG others fuel (s : sched W) :
  (∀ n w, ans_ret (fst (sys (c_malloc n) w)) ≠ NULL) →
  (∀ p w, ans_ret (fst (sys (c_sigemptyset p) w)) = 0) →
  (∀ f p w, ans_ret (fst (sys (c_pthread_create f p) w)) = 0 →
     ∃ t out, ans_out (fst (sys (c_pthread_create f p) w)) = t :: out ∧ t ≠ NULL) →
  life_of (flag_of s) = Ready → ts_num (sc_ts s) = Z.of_nat (length (ts_pools (sc_ts s))) →
  wp (schRunTaskSch NDEBUG others fuel) (λ r s',
    (r = err_code SCH_OK ∧ life_of (flag_of s') = Running ∧ run_done s s') ∨
    (flag_of s' = flag_of s ∧ (∃ ts, went ts True (sc_env s) (sc_env s')) ∧
     (r = err_code SCH_ERROR_INTERNAL ∨
      r = err_code SCH_ERROR_INVALID_SCH ∧ run_left_threads s s'))) s.
Proof.
  intros Hmalloc Hempty Hcreate Hready Hnum. eapply wp_mono; [by apply wp_run|].
  intros r s' [(-> & Hdone)|Hfail]; [left|by right]. split_and!; [done| |done].
  destruct Hdone as (new & _ & Hts & _). unfold flag_of. rewrite Hts. cbn. apply flag_started.
  by destruct (life_of_cases (flag_of s)) as [(_ & ?)|[(Hi & _)|(_ & _ & ?)]]; [congruence|exact Hi|congruence].
Qed.

(** *** Witness: the second thread of two is refused *)

(** Threads get odd ids, and the creation of the thread of pool 1 fails. *)
Definition one_thread_posix : Posix () := {|
  sys c w := (match c with
              | c_malloc _ => mkAnswer 4096 []
              | c_pthread_create _ 1 => mkAnswer EAGAIN []
              | c_pthread_create _ i => mkAnswer 0 [2 * i + 1]
              | _ => mkAnswer 0 []
              end, w);
  errno _ := 0;
  indet _ := 0;
|}.
Definition two_pools : sched () :=
  mkSched 512 (running_sch <| ts_flag := SCH_FLAG_INIT |>) (mkEnv () []).

Lemma schRunTaskSch_outcomes_witness :
  wp (schRunTaskSch (H := one_thread_posix) true all_idle 3) (λ r s',
    (r = err_code SCH_OK ∧ life_of (flag_of s') = Running ∧ run_done two_pools s') ∨
    (flag_of s' = flag_of two_pools ∧ (∃ ts, went ts True (sc_env two_pools) (sc_env s')) ∧
     (r = err_code SCH_ERROR_INTERNAL ∨
      r = err_code SCH_ERROR_INVALID_SCH ∧ run_left_threads two_pools s'))) two_pools.
Proof.
  apply (schRunTaskSch_outcomes (H := one_thread_posix) true all_idle 3 two_pools).
  - discriminate.
  - reflexivity.
  - intros f p w. assert (∀ i, 2 * i + 1 ≠ NULL) as Hodd by (unfold NULL; lia).
    destruct p as [|[p|p|]|p]; cbn [sys one_thread_posix fst ans_ret ans_out]; intros Hp;
      try (eexists _, _; split; [reflexivity|apply Hodd]). discriminate Hp.
  - reflexivity.
  - reflexivity.
Defined.
