(* ===== verification/Executor.v ===== *)
(** * The pool threads (src/sch.c)

    [schPoolExecutor], the code every pool thread runs, as state-passing code on the
    scheduler object.  The functions of the user are calls of the environment
    ([c_task], [c_pool_callback]); whatever they and the other threads do to the object is
    the section variable [others], applied after each call that may take time: a task, a
    callback, a wait.  The interleavings inside a turn are those of Concurrency.v. *)
From S2P Require Import Prelude Errors Flags Structures Heapify TaskQueue Platform.
From S2P Require Import Scheduler SchedulerFacts Examples.

Section executor.
Context {W : Type} `{Posix W}.
Variable NDEBUG : bool.
(** The submitting thread, the other pools and the functions of the user. *)
Variable others : schTaskSch → W → schTaskSch.

#[local] Abbreviation MS := (M (sched W)).

(** [atomic_fetch_xor] on [pool->flag], as the state functions do it. *)
Definition update_flag (p : Z) (f : Z → Z) : MS () := set_pool p (λ pool, pool <| tp_flag ::= f |>).

(** [while (isRunning(pool)) schConditionalWait(sch->conditional, pool->mutex);] *)
Fixpoint align_wait (fuel : nat) (p : Z) : MS () :=
  pool ← get_pool p;
  if negb (truthy (SchC.isRunning (tp_flag pool))) then mret () else
  match fuel with
  | O => out_of_fuel
  | S fuel =>
      conditional ← get_ts ts_conditional;
      _ ← plat (schConditionalWait conditional (tp_mutex pool));
      _ ← interfere others;
      align_wait fuel p
  end.

(** [if (pool->init) pool->init(pool);] *)
Definition pool_callback (callback p : Z) : MS () :=
  if decide (callback = NULL) then mret () else
  _ ← plat (call (c_pool_callback callback p)); interfere others.

(** The branch of the main loop for a queue that is not empty. *)
Definition run_task (p index : Z) : MS () :=
  package ← schQueueMutexEnDeQueue p 1 None;
  match package with
  | Argument => undef
  | Cell cell =>
      pool ← get_pool p;
      task ← liftO (deref (at_index (tp_packages pool) cell));
      let task := task <| pk_index := index |> in
      _ ← set_pool p (write_cell cell task);
      start ← plat schGetTime;
      _ ← (if decide (pk_callback task = NULL) then undef else
             _ ← plat (call (c_task p cell task)); interfere others);
      stop ← plat schGetTime;
      taskInvoke ← liftO (checked is_long (stop - start));
      set_pool p (λ pool, pool <| tp_avergeDeque := 0 |> <| tp_dheapPriority := taskInvoke |>)
  end.

(** The branch for an empty queue, up to the wait. *)
Definition go_idle (p : Z) : MS () :=
  _ ← set_pool p (λ pool, pool <| tp_dheapPriority := 0 |>);
  _ ← update_flag p SchC.setPoolIdle;
  mutex ← get_ts ts_mutex;
  _ ← plat (schMutexUnLock mutex);
  conditional ← get_ts ts_conditional;
  _ ← plat (schConditionalSignal conditional);
  _ ← update_flag p SchC.setPoolIdle;
  pool ← get_pool p;
  _ ← plat (schRaiseThreadSignal (tp_schRefThread pool) SCH_SIGNAL_DONE);
  mret ().

(** What the loop of the idle branch does with a signal: leave the executor, wait for
    another one, or go on with the main loop. *)
Inductive signal_turn : Type := Leave | WaitMore | GoOn.

(** [while (signal != SCH_SIGNAL_CONTINUE)]: also where [continue] goes. *)
Definition loop_test (signal : Z) : signal_turn :=
  if decide (signal = SCH_SIGNAL_CONTINUE) then GoOn else WaitMore.

Definition on_signal (signal : Z) : signal_turn :=
  if decide (signal = SIGQUIT) then Leave
  else if decide (signal = SIGINT) then
    (if decide (u32 signal = SCH_SIGNAL_QUIT) then Leave else loop_test signal)
  else if decide (signal = SIGTERM) then Leave
  else loop_test signal.

(** The wait for CONTINUE: [false] when the executor is to leave. *)
Fixpoint wait_continue (fuel : nat) (p : Z) : MS bool :=
  match fuel with
  | O => out_of_fuel
  | S fuel =>
      pool ← get_pool p;
      signal ← plat (schSignalWait (tp_set pool));
      _ ← interfere others;
      match on_signal signal with
      | Leave => mret false
      | WaitMore => wait_continue fuel p
      | GoOn => mret true
      end
  end.

(** The main loop. *)
Fixpoint executor_loop (fuel : nat) (p index : Z) : MS () :=
  match fuel with
  | O => out_of_fuel
  | S fuel =>
      pool ← get_pool p;
      if decide (0 < tp_size pool) then
        _ ← run_task p index; executor_loop fuel p index
      else
        _ ← go_idle p;
        go ← wait_continue fuel p;
        if (go : bool) then _ ← update_flag p SchC.setPoolRunning; executor_loop fuel p index
        else mret ()
  end.

(** From the label [done] on. *)
Definition executor_done (p status : Z) : MS Z :=
  pool ← get_pool p;
  _ ← pool_callback (tp_deinit pool) p;
  _ ← update_flag p SchC.setPoolTerminated;
  mret status.

(** [handle] is [None] for [NULL], or the pool's index. *)
Definition schPoolExecutor (fuel : nat) (handle : option Z) : MS Z :=
  _ ← plat schTimeResolution;
  match handle with
  | None => if NDEBUG then undef else abort
  | Some p =>
      pool ← get_pool p;
      self ← gets sc_addr;
      if decide (tp_sch pool ≠ self) then undef else
      let index := tp_index pool in
      garbage ← gets (λ s, indet (world (sc_env s)));
      masked ← plat (schSetSignalThreadMask NDEBUG (tp_set pool)
        [SCH_SIGNAL_CONTINUE; SCH_SIGNAL_DONE; SCH_SIGNAL_RUNNING; SCH_SIGNAL_QUIT; SIGTERM]);
      if decide (masked <= 0) then executor_done p garbage else
      status ← plat (ret_of c_sigaction_int);
      _ ← align_wait fuel p;
      pool ← get_pool p;
      _ ← pool_callback (tp_init pool) p;
      _ ← executor_loop fuel p index;
      executor_done p status
  end.
End executor.
