(* ===== verification/ExecutorFacts.v ===== *)
(** * What a pool thread does: the theorems about [schPoolExecutor] *)
From S2P Require Import Prelude Errors Flags Structures Heapify TaskQueue Platform.
From S2P Require Import Scheduler SchedulerFacts Examples Executor.

#[local] Opaque get_pool set_pool.

(** The tasks started so far, in order. *)
Definition task_of (c : syscall) : option schTaskPackage :=
  match c with c_task _ _ package => Some package | _ => None end.
Definition tasks {W} (e : env W) : list schTaskPackage := omap task_of (calls e).

(** The task as its function sees it. *)
Definition stamp (index : Z) (x : schTaskPackage) : schTaskPackage := x <| pk_index := index |>.

Section facts.
Context {W : Type} `{Posix W}.
Variable NDEBUG : bool.
Variable others : schTaskSch → W → schTaskSch.
Variable p : nat.
(** Nobody else touches pool [p]. *)
Hypothesis others_pool : ∀ ts w, ts_pools (others ts w) !! p = ts_pools ts !! p.
(** How many signals the thread can still get before it is told to leave: no call increases it. *)
Variable patience : W → nat.
Hypothesis patient : ∀ c w, (patience (snd (sys c w)) <= patience w)%nat.
Implicit Types (s : sched W) (e : env W) (k : nat).

(** No task was started meanwhile. *)
Definition no_task e e' : Prop := tasks e' = tasks e ∧ (patience (world e') <= patience (world e))%nat.

Lemma no_task_trans e1 e2 e3 : no_task e1 e2 → no_task e2 e3 → no_task e1 e3.
Proof. intros [H1 ?] [H2 ?]. split; [congruence|lia]. Qed.

Lemma tasks_after c e : task_of c = None → no_task e (after c e).
Proof.
  intros Hc. split; [|apply patient]. unfold tasks. rewrite calls_after, omap_app. cbn. by rewrite Hc, app_nil_r.
Qed.

(** Pool [p] of [s] is [pool], [xs] are the tasks started so far, and at most [k] signals come
    before the one to leave. *)
Definition at_pool s (pool : schTaskPool) (addr : Z) (xs : list schTaskPackage) k : Prop :=
  ts_pools (sc_ts s) !! p = Some pool ∧ sc_addr s = addr ∧ tasks (sc_env s) = xs ∧
  (patience (world (sc_env s)) <= k)%nat.

(** The clock, as documented: a time of day that fits the arithmetic of the library. *)
Definition clock_works : Prop := ∀ w, ∃ sec usec out,
  fst (sys c_gettimeofday w) = mkAnswer 0 (sec :: usec :: out) ∧
  0 <= sec <= INT_MAX ∧ 0 <= usec < 1000000.
Hypothesis clock : clock_works.

Lemma wp_get_time Q e :
  (∀ t, 0 <= t <= 2 ^ 62 → Q t (after c_gettimeofday e)) → wp schGetTime Q e.
Proof.
  intros HQ. unfold schGetTime. apply wp_bind, wp_call.
  destruct (clock (world e)) as (sec & usec & out & -> & Hsec & Husec). cbn [ans_ret].
  rewrite decide_True by done. unfold INT_MAX in Hsec.
  assert (∀ z, 0 <= z <= 2 ^ 62 → checked is_long z = Done z) as Hl.
  { intros z Hz. unfold checked. rewrite (proj2 (is_long_spec z)); [done|].
    unfold LONG_MIN, LONG_MAX. lia. }
  unfold out_of. cbn [ans_out]. apply wp_bind. eapply wp_liftO; [done|].
  apply wp_bind. eapply wp_liftO; [done|].
  apply wp_bind. eapply wp_liftO; [apply Hl; lia|]. apply wp_bind. eapply wp_liftO; [apply Hl; lia|].
  eapply wp_liftO; [apply Hl; lia|]. apply HQ. lia.
Qed.

(** Access to the pool. *)
Lemma wp_get_at Q s pool addr xs k :
  at_pool s pool addr xs k → Q pool s → wp (get_pool (Z.of_nat p)) Q s.
Proof. intros (Hp & _) HQ. eapply wp_get_pool; [|exact HQ]. by rewrite at_index_nat, Nat2Z.id by lia. Qed.

Lemma wp_set_at Q s f pool addr xs k :
  at_pool s pool addr xs k → (∀ s', at_pool s' (f pool) addr xs k → Q () s') →
  wp (set_pool (Z.of_nat p) f) Q s.
Proof.
  intros (Hp & Ha & Hx) HQ. eapply wp_set_pool; [by rewrite at_index_nat, Nat2Z.id by lia|].
  apply HQ. split; [|done]. cbn. rewrite Nat2Z.id.
  apply list_lookup_insert_eq. by eapply lookup_lt_Some.
Qed.

(** A call of the system that starts no task. *)
Lemma at_pool_env s e pool addr xs k :
  at_pool s pool addr xs k → no_task (sc_env s) e → at_pool (s <| sc_env := e |>) pool addr xs k.
Proof. intros (? & ? & <- & ?) [He ?]. split_and!; [done..|cbn; lia]. Qed.

Lemma wp_interfere Q s pool addr xs k :
  at_pool s pool addr xs k → (∀ s', at_pool s' pool addr xs k → Q () s') → wp (interfere others) Q s.
Proof.
  intros (Hp & Ha & Hx) HQ. unfold interfere. apply wp_modify, HQ. split; [|done].
  cbn. by rewrite others_pool.
Qed.

(** Taking the next task under the lock. *)
Lemma wp_dequeue Q s pool addr xs k :
  at_pool s pool addr xs k → tp_sch pool = addr → ring_wf pool → 0 < tp_size pool →
  (∀ s', at_pool s' (popped pool) addr xs k → Q (Cell (tp_head pool)) s') →
  wp (schQueueMutexEnDeQueue (Z.of_nat p) 1 None) Q s.
Proof.
  intros Hat Hsch Hwf Hs HQ. unfold schQueueMutexEnDeQueue.
  apply wp_bind. eapply wp_get_at; [exact Hat|]. apply wp_bind, wp_gets.
  rewrite decide_False by (intros Hn; apply Hn; destruct Hat as (_ & -> & _); done).
  apply wp_bind, wp_get_ts, wp_bind, wp_plat, wp_checked_call.
  apply (at_pool_env _ (after (c_spin_lock (ts_spinlock (sc_ts s))) (sc_env s))) in Hat;
    [|by apply tasks_after].
  apply wp_bind. eapply wp_get_at; [exact Hat|].
  apply wp_bind. eapply wp_liftO; [by apply queue_dequeue|].
  apply wp_bind. eapply wp_set_at; [exact Hat|]. clear Hat. intros s1 Hat.
  apply wp_bind, wp_plat, wp_checked_call, wp_ret, HQ. apply at_pool_env; [done|by apply tasks_after].
Qed.

(** What changes in the pool besides its queue while it runs tasks. *)
Record same_pool (pool pool' : schTaskPool) : Prop := {
  sp_flag : tp_flag pool' = tp_flag pool;
  sp_sch : tp_sch pool' = tp_sch pool;
  sp_set : tp_set pool' = tp_set pool;
  sp_deinit : tp_deinit pool' = tp_deinit pool;
  sp_reserved : tp_reserved pool' = tp_reserved pool;
}.

Lemma same_pool_trans a b c : same_pool a b → same_pool b c → same_pool a c.
Proof. intros [] []. split; congruence. Qed.

(** One task. *)
Lemma wp_run_task Q s pool addr xs index x ys k :
  at_pool s pool addr xs k → tp_sch pool = addr → ring_wf pool →
  ring_contents pool = x :: ys → pk_callback x ≠ NULL →
  (∀ s' pool', at_pool s' pool' addr (xs ++ [stamp index x]) k → ring_wf pool' →
     ring_contents pool' = ys → same_pool pool pool' → is_long (tp_dheapPriority pool') = true → Q () s') →
  wp (run_task others (Z.of_nat p) index) Q s.
Proof.
  intros Hat Hsch Hwf Hc Hcb HQ.
  assert (0 < tp_size pool) as Hs.
  { pose proof (length_ring_contents pool) as Hl. rewrite Hc in Hl. cbn in Hl. lia. }
  destruct (popped_contents pool Hwf Hs) as (x' & Hx & Hc'). rewrite Hc in Hc'. injection Hc' as <- ->.
  unfold run_task. apply wp_bind. eapply wp_dequeue; [done..|]. clear Hat. intros s1 Hat.
  apply wp_bind. eapply wp_get_at; [exact Hat|]. apply wp_bind. eapply wp_liftO; [exact (f_equal deref Hx)|].
  fold (stamp index x). destruct (popped_write pool (stamp index x) Hwf Hs) as [Hwf' Hc'].
  apply wp_bind. eapply wp_set_at; [exact Hat|]. clear Hat. intros s2 Hat.
  apply wp_bind, wp_plat, wp_get_time. intros t1 Ht1.
  apply (at_pool_env _ (after c_gettimeofday (sc_env s2))) in Hat; [|by apply tasks_after].
  set (s3 := s2 <| sc_env := _ |>) in *. clearbody s3.
  rewrite decide_False by done. apply wp_bind, wp_bind, wp_plat, wp_call.
  eapply (wp_interfere _ _ _ addr (xs ++ [stamp index x])).
  { destruct Hat as (Hp & Ha & Hx' & Hk). split_and!; [exact Hp|exact Ha| |].
    - cbn [sc_env set tset const]. unfold tasks. rewrite calls_after, omap_app. cbn. by rewrite <-Hx'.
    - etransitivity; [apply patient|exact Hk]. }
  clear s3 Hat. intros s4 Hat. apply wp_bind, wp_plat, wp_get_time. intros t2 Ht2.
  apply (at_pool_env _ (after c_gettimeofday (sc_env s4))) in Hat; [|by apply tasks_after].
  assert (is_long (t2 - t1) = true) as Hlong by (apply is_long_spec; unfold LONG_MIN, LONG_MAX; lia).
  apply wp_bind. eapply wp_liftO; [unfold checked; by rewrite Hlong|].
  eapply wp_set_at; [exact Hat|]. intros s5 Hat5. eapply HQ; [exact Hat5| | | |].
  - destruct Hwf'. by split.
  - exact Hc'.
  - by split.
  - exact Hlong.
Qed.

(** Running until the queue is empty. *)
Lemma wp_drain n Q s pool addr xs index ys k :
  at_pool s pool addr xs k → tp_sch pool = addr → ring_wf pool → ring_contents pool = ys →
  Forall (λ x, pk_callback x ≠ NULL) ys → 
  (∀ s' pool', at_pool s' pool' addr (xs ++ (stamp index <$> ys)) k → ring_wf pool' →
     ring_contents pool' = [] → same_pool pool pool' →
     wp (executor_loop others n (Z.of_nat p) index) Q s') →
  wp (executor_loop others (length ys + n) (Z.of_nat p) index) Q s.
Proof.
  revert s pool xs. induction ys as [|y ys IH]; intros s pool xs Hat Hsch Hwf Hc Hcb HQ.
  { cbn [length Nat.add]. eapply HQ; [|done|done|by split]. cbn. by rewrite app_nil_r. }
  apply Forall_cons in Hcb as [Hy Hcb]. cbn [length Nat.add executor_loop].
  apply wp_bind. eapply wp_get_at; [exact Hat|]. rewrite decide_True; cycle 1.
  { pose proof (length_ring_contents pool) as Hl. rewrite Hc in Hl. cbn in Hl. lia. }
  apply wp_bind. eapply wp_run_task; [done..|]. clear Hat. intros s1 pool1 Hat Hwf1 Hc1 Hsame _.
  eapply IH; [exact Hat|by destruct Hsame; congruence|done..|].
  intros s2 pool2 Hat2 Hwf2 Hc2 Hsame2. eapply HQ; [|done|done|by eapply same_pool_trans].
  cbn [fmap list_fmap]. by rewrite <-app_assoc in Hat2.
Qed.

(** Going idle: the flag word is as before, since it is flipped twice. *)
Lemma wp_go_idle Q s pool addr xs k :
  at_pool s pool addr xs k →
  (∀ s' , at_pool s' (pool <| tp_dheapPriority := 0 |>) addr xs k → Q () s') →
  wp (go_idle (Z.of_nat p)) Q s.
Proof.
  intros Hat HQ. unfold go_idle, update_flag.
  apply wp_bind. eapply wp_set_at; [exact Hat|]. clear Hat. intros s1 Hat.
  apply wp_bind. eapply wp_set_at; [exact Hat|]. clear Hat s1. intros s1 Hat.
  apply wp_bind, wp_get_ts, wp_bind, wp_plat, wp_mutex_unlock. intros _.
  apply (at_pool_env _ (after (c_mutex_unlock (ts_mutex (sc_ts s1))) (sc_env s1))) in Hat; [|by apply tasks_after].
  set (s2 := s1 <| sc_env := _ |>) in *. clearbody s2.
  apply wp_bind, wp_get_ts, wp_bind, wp_plat, wp_checked_call.
  apply (at_pool_env _ (after (c_cond_signal (ts_conditional (sc_ts s2))) (sc_env s2))) in Hat; [|by apply tasks_after].
  set (s3 := s2 <| sc_env := _ |>) in *. clearbody s3.
  apply wp_bind. eapply wp_set_at; [exact Hat|]. clear Hat. intros s4 Hat.
  apply wp_bind. eapply wp_get_at; [exact Hat|].
  apply wp_bind, wp_plat, wp_checked_call, wp_ret, HQ. apply at_pool_env; [|by apply tasks_after].
  cbn in Hat. by rewrite setPoolIdle_twice in Hat.
Qed.

(** A callback of the user, if there is one. *)
Lemma wp_pool_callback Q s pool addr xs cb k :
  at_pool s pool addr xs k → (∀ s', at_pool s' pool addr xs k → Q () s') →
  wp (pool_callback others cb (Z.of_nat p)) Q s.
Proof.
  intros Hat HQ. unfold pool_callback. case_decide; [by apply wp_ret, HQ|].
  apply wp_bind, wp_plat, wp_call. eapply wp_interfere; [|exact HQ].
  apply at_pool_env; [exact Hat|by apply tasks_after].
Qed.

(** The signals: the mask can be set; and a wait answers a signal to leave, or one of those
    that may still come before it. *)
Hypothesis mask_works : ∀ c w, is_signal_call c = true → ans_ret (fst (sys c w)) = 0.
Definition signals_come : Prop := ∀ set w, ∃ signal,
  fst (sys (c_sigwait set) w) = mkAnswer 0 [signal] ∧
  (on_signal signal = Leave ∨ (patience (snd (sys (c_sigwait set) w)) < patience w)%nat).
Hypothesis signalled : signals_come.

Lemma tasks_add_signals set signals e :
  wp (add_signals set signals) (λ r e', r = None ∧ no_task e e') e.
Proof.
  revert e. induction signals as [|x signals IH]; intros e; cbn [add_signals]; [by apply wp_ret|].
  apply wp_bind, wp_ret_of. rewrite mask_works, decide_False by (done || intros []; done).
  eapply wp_mono; [apply IH|]. intros r e' [-> He]. split; [done|]. eapply no_task_trans; [|exact He].
  by apply tasks_after.
Qed.

Lemma wp_mask set signals Q e :
  (∀ e', no_task e e' → Q (err_code SCH_OK) e') → wp (schSetSignalThreadMask NDEBUG set signals) Q e.
Proof.
  intros HQ. unfold schSetSignalThreadMask. apply wp_bind. apply (wp_mono _ (λ _ e1, no_task e e1)).
  { unfold assert_e. destruct NDEBUG; [by apply wp_ret|]. wp_steps. rewrite mask_works by done.
    apply wp_ret. by apply tasks_after. }
  intros _ e1 H1. apply wp_bind. eapply wp_mono; [apply tasks_add_signals|]. intros r e2 [-> H2].
  apply wp_bind, wp_ret_of. rewrite mask_works, decide_False by (done || intros []; done).
  apply wp_ret, HQ. do 2 (eapply no_task_trans; [eassumption|]). by apply tasks_after.
Qed.

(** A pool whose RUNNING bit is clear does not wait to start. *)
Lemma align_wait_eq fuel s pool addr xs k :
  at_pool s pool addr xs k → has (tp_flag pool) SCH_POOL_RUNNING = false →
  align_wait others fuel (Z.of_nat p) s = Done ((), s).
Proof.
  intros (Hp & _) Hf. destruct fuel; cbn [align_wait]; rewrite (bind_get_pool _ pool)
    by (by rewrite at_index_nat, Nat2Z.id by lia); fold (has (tp_flag pool) SCH_POOL_RUNNING);
    unfold SchC.isRunning; fold (has (tp_flag pool) SCH_POOL_RUNNING); by rewrite Hf.
Qed.

(** The wait for a signal ends: the thread leaves, or was told to continue. *)
Lemma wp_wait_continue n k Q s pool addr xs :
  at_pool s pool addr xs k →
  (∀ s' j, at_pool s' pool addr xs j → Q false s') →
  (∀ s' j, (j < k)%nat → at_pool s' pool addr xs j → Q true s') →
  wp (wait_continue others (S (k + n)) (Z.of_nat p)) Q s.
Proof.
  revert n s. induction k as [k IH] using lt_wf_ind. intros n s Hat HQ1 HQ2. cbn [wait_continue].
  apply wp_bind. eapply wp_get_at; [exact Hat|].
  apply wp_bind, wp_plat. unfold schSignalWait. apply wp_bind, wp_call.
  destruct (signalled (tp_set pool) (world (sc_env s))) as (signal & Hans & Hless). rewrite Hans.
  cbn [ans_ret]. rewrite decide_True by done. unfold out_of. cbn [ans_out].
  eapply wp_liftO; [done|]. apply wp_bind.
  set (s1 := s <| sc_env := _ |>).
  assert (at_pool s1 pool addr xs k) as Hat1 by (apply at_pool_env; [exact Hat|by apply tasks_after]).
  assert (on_signal signal ≠ Leave → ∃ j, (j < k)%nat ∧ at_pool s1 pool addr xs j) as Hfew.
  { intros Hne. destruct Hless as [?|Hless]; [done|]. destruct Hat as (_ & _ & _ & Hk).
    exists (pred k). split; [lia|]. destruct Hat1 as (? & ? & ? & _). split_and!; [done..|]. cbn. lia. }
  destruct (on_signal signal) eqn:Hsig.
  - eapply wp_interfere; [exact Hat1|]. intros s2 Hat2. by eapply wp_ret, HQ1.
  - destruct Hfew as (j & Hj & Hatj); [done|]. eapply wp_interfere; [exact Hatj|]. intros s2 Hat2.
    replace (k + n)%nat with (S (j + (k + n - j - 1)))%nat by lia.
    apply (IH j Hj); [exact Hat2|exact HQ1|]. intros s3 j' Hj'. apply HQ2. lia.
  - destruct Hfew as (j & Hj & Hatj); [done|]. eapply wp_interfere; [exact Hatj|]. intros s2 Hat2.
    by eapply wp_ret, HQ2.
Qed.

(** A thread with an empty queue sleeps until it is told to leave; each time it wakes up for
    nothing, its flag word changes. *)
Lemma wp_sleep n k Q s pool addr xs index :
  at_pool s pool addr xs k → ring_wf pool → ring_contents pool = [] →
  (∀ s' pool' j k', at_pool s' pool' addr xs k' → (j <= k)%nat → ring_wf pool' → ring_contents pool' = [] →
     tp_flag pool' = Nat.iter j SchC.setPoolRunning (tp_flag pool) → Q () s') →
  wp (executor_loop others (S (S (k + n))) (Z.of_nat p) index) Q s.
Proof.
  revert n s pool. induction k as [k IH] using lt_wf_ind. intros n s pool Hat Hwf Hc HQ.
  remember (S (k + n))%nat as fuel eqn:Hfuel. cbn [executor_loop].
  apply wp_bind. eapply wp_get_at; [exact Hat|]. rewrite decide_False; cycle 1.
  { pose proof (length_ring_contents pool) as Hl. rewrite Hc in Hl. cbn in Hl. lia. }
  apply wp_bind. eapply wp_go_idle; [exact Hat|]. clear Hat s. intros s Hat. rewrite Hfuel.
  apply wp_bind. eapply wp_wait_continue; [exact Hat|..].
  - intros s1 j Hat1. apply wp_ret. eapply (HQ s1 _ 0%nat); [exact Hat1|lia|by destruct Hwf|exact Hc|done].
  - clear s Hat. intros s j Hj Hat. unfold update_flag. apply wp_bind.
    eapply wp_set_at; [exact Hat|]. clear s Hat. intros s Hat.
    replace (S (k + n))%nat with (S (S (j + (k + n - j - 1))))%nat by lia.
    apply (IH j Hj) with (1 := Hat); [by destruct Hwf|exact Hc|].
    intros s' pool' i k' Hat' Hi Hwf' Hc' Hf. eapply (HQ s' pool' (S i)); [exact Hat'|lia|done..|].
    by rewrite Hf, Nat.iter_succ_r.
Qed.

(** The executor up to its end, from the main loop on. *)
Lemma wp_executor_loop n k Q s pool addr xs index ys :
  at_pool s pool addr xs k → tp_sch pool = addr → ring_wf pool → ring_contents pool = ys →
  Forall (λ x, pk_callback x ≠ NULL) ys →
  (∀ s' pool' j k', at_pool s' pool' addr (xs ++ (stamp index <$> ys)) k' → (j <= k)%nat → ring_wf pool' →
     ring_contents pool' = [] → tp_flag pool' = Nat.iter j SchC.setPoolRunning (tp_flag pool) → Q () s') →
  wp (executor_loop others (length ys + S (S (k + n))) (Z.of_nat p) index) Q s.
Proof.
  intros Hat Hsch Hwf Hc Hcb HQ. eapply wp_drain; [done..|]. clear Hat Hc.
  intros s1 pool1 Hat Hwf1 Hc1 Hsame. eapply wp_sleep; [done..|].
  intros s2 pool2 j k' Hat2 Hj Hwf2 Hc2 Hf. eapply HQ; [done..|]. by rewrite Hf, (sp_flag _ _ Hsame).
Qed.
End facts.

(** ** Properties *)

(** The system a pool thread runs on: a resolution of the clock that is not 0, a clock,
    signal masks that can be set, and, when the thread waits, any signals, such as CONTINUE, of
    which [patience] bounds the number, and then one to leave: SIGTERM or SIGQUIT. *)
Record thread_system (W : Type) `{Posix W} (patience : W → nat) : Prop := {
  sy_resolution : ∀ w, ∃ sec nsec out, ans_out (fst (sys c_clock_getres w)) = sec :: nsec :: out ∧ nsec ≠ 0;
  sy_clock : clock_works;
  sy_mask : ∀ c w, is_signal_call c = true → ans_ret (fst (sys c w)) = 0;
  sy_patience c w : (patience (snd (sys c w)) <= patience w)%nat;
  sy_signals : signals_come patience;
}.



(** *** Witness *)

(** Three signals wait for the thread: a CONTINUE, a DONE, and the SIGTERM. *)
Definition worker_posix : Posix nat := {|
  sys c w :=
    match c with
    | c_sigwait _ =>
        match w with
        | O => (mkAnswer 0 [SIGTERM], O)
        | S O => (mkAnswer 0 [SCH_SIGNAL_DONE], O)
        | S w => (mkAnswer 0 [SCH_SIGNAL_CONTINUE], w)
        end
    | c_gettimeofday => (mkAnswer 0 [100; 250], w)
    | c_clock_getres => (mkAnswer 0 [0; 1], w)
    | _ => (mkAnswer 0 [], w)
    end;
  errno _ := 0;
  indet _ := 0;
|}.

Lemma worker_system : thread_system nat (H := worker_posix) id.
Proof.
  split.
  - intros w. exists 0, 1, []. split; [reflexivity|discriminate].
  - intros w. exists 100, 250, []. split; [reflexivity|]. unfold INT_MAX. lia.
  - intros [] w Hc; (discriminate || reflexivity).
  - intros [] w; try (cbn; lia). destruct w as [|[|w]]; cbn; lia.
  - intros set [|[|w]].
    + exists SIGTERM. split; [reflexivity|]. left. reflexivity.
    + exists SCH_SIGNAL_DONE. split; [reflexivity|]. right. cbn. lia.
    + exists SCH_SIGNAL_CONTINUE. split; [reflexivity|]. right. cbn. lia.
Qed.

(** Pool 1 holds two tasks; the first is in the last cell of the ring. *)
Definition two_tasks : schTaskPool :=
  (idle_pool 1 2000 2) <| tp_flag := 0 |> <| tp_head := 1 |> <| tp_tail := 1 |>
    <| tp_packages := [some_task <| pk_callback := 78 |>; some_task] |>.
Definition worker_sched : sched nat :=
  mkSched 512 (running_sch <| ts_pools := [idle_pool 0 3000 1; two_tasks] |>) (mkEnv 2%nat []).

(** Woken once, the pool ends with the word 1, as a run of it shows. *)
Example worker_flag :
  match schPoolExecutor (H := worker_posix) true (λ ts _, ts) 6 (Some (Z.of_nat 1)) worker_sched with
  | Done (_, s) => tp_flag <$> ts_pools (sc_ts s) !! 1%nat
  | _ => None
  end = Some (SchC.setPoolTerminated (SchC.setPoolRunning 0)).
Proof. vm_compute. reflexivity. Qed.

