(* ===== verification/Sleeping.v ===== *)
(** * How a pool thread sleeps: signals and the flag word

    What the signals do to [schPoolExecutor] (src/sch.c), and the flag word a pool sleeps
    with, for every behaviour of the operating system. *)
From S2P Require Import Prelude Errors Flags Structures Heapify TaskQueue Platform.
From S2P Require Import Scheduler SchedulerFacts Examples SchedulerSubmit Waiting Executor.

#[local] Opaque get_pool set_pool.

(** The signals a thread has received, in order. *)
Definition signal_of (ev : syscall * answer) : option Z :=
  match ev.1 with
  | c_sigwait _ => Some (if decide (ans_ret ev.2 = 0) then default 0 (head (ans_out ev.2)) else -1)
  | _ => None
  end.
Definition signals {W} (e : env W) : list Z := omap signal_of (trace e).

(** How often it was told to continue. *)
Definition wakes (l : list Z) : nat := length (filter (λ x, x = SCH_SIGNAL_CONTINUE) l).

Section sleep.
Context {W : Type} `{Posix W}.
Variable others : schTaskSch → W → schTaskSch.
Variable p : nat.
(** Nobody else writes the flag word of pool [p]. *)
Hypothesis others_flag : ∀ ts w,
  tp_flag <$> (ts_pools (others ts w) !! p) = tp_flag <$> (ts_pools ts !! p).

(** The word of pool [p], with the signals received. *)
Definition word (s : sched W) : option Z * list Z :=
  (tp_flag <$> (ts_pools (sc_ts s) !! p), signals (sc_env s)).

Definition quiet {A} (m : M (env W) A) : Prop := keeps signals m.

Lemma quiet_call c : (∀ a, signal_of (c, a) = None) → quiet (call c).
Proof.
  intros Hc e. unfold wlp. rewrite call_eq. unfold signals, after. cbn [trace].
  rewrite omap_app. cbn. by rewrite Hc, app_nil_r.
Qed.

Lemma keeps_word_plat {A} (m : M (env W) A) : quiet m → keeps word (plat m).
Proof.
  intros Hm s. unfold plat, wlp. pose proof (Hm (sc_env s)) as Hs. unfold wlp in Hs.
  destruct (m (sc_env s)) as [[a e]| | |]; [|done..]. unfold word. cbn. by rewrite Hs.
Qed.

Lemma keeps_word_get_pool i : keeps word (get_pool i).
Proof. intros s. by apply wlp_get_pool. Qed.

(** Writing a pool: the word changes by [g]. *)
Lemma wlp_set_pool_word i f g s :
  (∀ pool, tp_flag (f pool) = g (tp_flag pool)) →
  wlp (set_pool i f) (λ _ s', word s' = (if decide (Z.to_nat i = p) then g <$> (word s).1 else (word s).1, (word s).2)) s.
Proof.
  intros Hf. apply wlp_set_pool. intros pool [_ Hp]%at_index_Some. unfold word. cbn. f_equal.
  case_decide as Heq.
  - subst. rewrite list_lookup_insert_eq by (by eapply lookup_lt_Some). rewrite Hp. cbn. by rewrite Hf.
  - by rewrite list_lookup_insert_ne by done.
Qed.

Lemma keeps_word_set_pool i f :
  (∀ pool, tp_flag (f pool) = tp_flag pool) → keeps word (set_pool i f).
Proof.
  intros Hf s. eapply wlp_mono; [by apply (wlp_set_pool_word i f id)|].
  intros ? s' Hw. cbn beta in Hw. rewrite Hw. destruct (word s) as [[x|] l]; by case_decide.
Qed.

Lemma keeps_word_interfere : keeps word (interfere others).
Proof. apply keeps_modify. intros s. unfold word. cbn. by rewrite others_flag. Qed.

(** Walk through code that neither waits for a signal nor touches the word. *)
Ltac calm :=
  repeat first
    [ apply keeps_ret | apply keeps_liftO | apply keeps_undef | apply keeps_out_of_fuel
    | apply keeps_gets | apply keeps_word_get_pool | apply keeps_word_interfere
    | apply keeps_word_plat | apply quiet_call; reflexivity
    | apply keeps_word_set_pool; intros ?; reflexivity
    | apply keeps_bind; [|intros ?]
    | progress case_match | progress case_decide ].

Lemma quiet_checked_call c : (∀ a, signal_of (c, a) = None) → quiet (checked_call c).
Proof. intros Hc. unfold checked_call, ret_of. calm. by apply quiet_call. Qed.

Lemma quiet_get_time : quiet schGetTime.
Proof. unfold schGetTime, out_of. calm. Qed.

Lemma keeps_word_queue d x : keeps word (schQueueMutexEnDeQueue (Z.of_nat p) d x).
Proof.
  unfold schQueueMutexEnDeQueue. do 2 (apply keeps_bind; [calm|intros ?]).
  case_decide; [apply keeps_undef|]. apply keeps_bind; [calm|intros ?].
  apply keeps_bind; [apply keeps_word_plat, quiet_checked_call; done|intros _].
  intros s. apply wlp_bind, wlp_get_pool. intros pool Hp. apply wlp_bind, wlp_liftO.
  intros [ptr pool'] Hq. apply wlp_bind.
  apply wlp_set_pool. intros pool2 Hp2. rewrite Hp in Hp2. injection Hp2 as <-.
  eapply (keeps_wlp word).
  { apply keeps_bind; [apply keeps_word_plat, quiet_checked_call; done|intros; apply keeps_ret]. }
  intros ? s' ->. unfold word. cbn. rewrite Nat2Z.id in *. f_equal.
  apply at_index_Some in Hp as [_ Hp]. rewrite Nat2Z.id in Hp.
  rewrite list_lookup_insert_eq by (by eapply lookup_lt_Some). rewrite Hp. cbn.
  by rewrite (queue_critical_flag _ _ _ _ _ Hq).
Qed.

Lemma keeps_word_run_task index : keeps word (run_task others (Z.of_nat p) index).
Proof.
  unfold run_task. apply keeps_bind; [apply keeps_word_queue|intros ?]. calm; apply quiet_get_time.
Qed.

(** Going idle flips the word twice. *)
Lemma keeps_word_go_idle : keeps word (go_idle (Z.of_nat p)).
Proof.
  unfold go_idle, update_flag. intros s.
  apply wlp_bind. eapply keeps_wlp; [by apply keeps_word_set_pool|intros ? s1 H1].
  apply wlp_bind. eapply wlp_mono; [by apply (wlp_set_pool_word _ _ SchC.setPoolIdle)|].
  intros ? s2 H2. cbn beta in H2.
  apply wlp_bind, wlp_gets. apply wlp_bind.
  eapply (keeps_wlp word); [apply keeps_word_plat; unfold schMutexUnLock, ret_of; calm|intros ? s3 H3].
  apply wlp_bind, wlp_gets. apply wlp_bind.
  eapply (keeps_wlp word); [by apply keeps_word_plat, quiet_checked_call|intros ? s4 H4].
  apply wlp_bind. eapply wlp_mono; [by apply (wlp_set_pool_word _ _ SchC.setPoolIdle)|].
  intros ? s5 H5. cbn beta in H5. eapply (keeps_wlp word).
  { apply keeps_bind; [apply keeps_word_get_pool|intros pool].
    apply keeps_bind; [by apply keeps_word_plat, quiet_checked_call|intros; apply keeps_ret]. }
  intros ? s6 ->. rewrite H5, H4, H3, H2, H1, Nat2Z.id, decide_True by done.
  rewrite decide_True by done. cbn [fst snd]. destruct (word s) as [[f|] l]; [|done]. cbn [fst snd]. unfold fmap, option_fmap, option_map.
  by rewrite setPoolIdle_twice.
Qed.

(** Waiting for a signal. *)
Lemma wlp_signal_wait set (e : env W) :
  wlp (schSignalWait set) (λ x e', signals e' = signals e ++ [x]) e.
Proof.
  unfold schSignalWait, wlp. erewrite M_bind_eq by apply call_eq.
  assert (signals (after (c_sigwait set) e)
    = signals e ++ option_list (signal_of (c_sigwait set, fst (sys (c_sigwait set) (world e))))) as Hs.
  { unfold signals, after. cbn [trace]. rewrite omap_app. cbn. by case_decide. }
  destruct (fst (sys (c_sigwait set) (world e))) as [r out].
  unfold signal_of in Hs. cbn [fst snd ans_ret ans_out option_list] in *.
  case_decide; [|exact Hs]. destruct out; [done|exact Hs].
Qed.

Lemma wlp_wait_continue fuel s :
  wlp (wait_continue others fuel (Z.of_nat p)) (λ go s', (word s').1 = (word s).1 ∧
    ∃ ignored last, (word s').2 = (word s).2 ++ ignored ++ [last] ∧
      Forall (λ x, on_signal x = WaitMore) ignored ∧
      on_signal last = if go : bool then GoOn else Leave) s.
Proof.
  revert s. induction fuel as [|fuel IH]; intros s; [done|]. cbn [wait_continue].
  apply wlp_bind, wlp_get_pool. intros pool Hp. apply wlp_bind, wlp_plat.
  eapply wlp_mono; [apply wlp_signal_wait|]. intros x e He. apply wlp_bind.
  eapply (keeps_wlp word); [apply keeps_word_interfere|]. intros ? s1 H1.
  assert (word s1 = ((word s).1, (word s).2 ++ [x])) as Hw by (rewrite H1; unfold word; cbn; by rewrite He).
  destruct (on_signal x) eqn:Hx.
  - apply wlp_ret. rewrite Hw. split; [done|]. by exists [], x.
  - eapply wlp_mono; [apply IH|]. intros go s2 (Hf & ign & last & Hs & Hign & Hlast).
    rewrite Hw in Hf, Hs. cbn [fst snd] in *. split; [done|]. exists (x :: ign), last.
    split_and!; [by rewrite Hs, <-app_assoc|by constructor|done].
  - apply wlp_ret. rewrite Hw. split; [done|]. by exists [], x.
Qed.

(** What the signals do. *)
Lemma on_signal_cases x :
  (on_signal x = GoOn ↔ x = SCH_SIGNAL_CONTINUE) ∧
  (on_signal x = Leave ↔ x = SIGQUIT ∨ x = SIGTERM).
Proof.
  unfold on_signal, loop_test. repeat case_decide; subst; try (vm_compute; intuition congruence).
  all: vm_compute in *; intuition congruence.
Qed.

(** The word after [n] wake-ups. *)
Definition word_after (n : nat) (f : Z) : Z :=
  if Nat.odd n then Z.lxor f (Z.lor SCH_POOL_SLEEP SCH_FLAG_RUNNING) else f.

Lemma word_after_S n f : word_after n (SchC.setPoolRunning f) = word_after (S n) f.
Proof.
  unfold word_after, SchC.setPoolRunning. rewrite Nat.odd_succ, <-Nat.negb_odd.
  destruct (Nat.odd n); cbn [negb]; [|done].
  by rewrite Z.lxor_assoc, Z.lxor_nilpotent, Z.lxor_0_r.
Qed.

Lemma wakes_app l l' : wakes (l ++ l') = (wakes l + wakes l')%nat.
Proof. unfold wakes. by rewrite filter_app, length_app. Qed.

Lemma wakes_ignored l : Forall (λ x, on_signal x = WaitMore) l → wakes l = 0%nat.
Proof.
  induction 1 as [|x l Hx _ IH]; [done|]. unfold wakes in *. rewrite filter_cons_False; [done|].
  intros Heq. apply on_signal_cases in Heq. congruence.
Qed.

Lemma wlp_executor_loop fuel index s f :
  (word s).1 = Some f →
  wlp (executor_loop others fuel (Z.of_nat p) index) (λ _ s', ∃ sigs last,
    signals (sc_env s') = signals (sc_env s) ++ sigs ++ [last] ∧
    Forall (λ x, on_signal x ≠ Leave) sigs ∧ on_signal last = Leave ∧
    (word s').1 = Some (word_after (wakes sigs) f)) s.
Proof.
  revert s f. induction fuel as [|fuel IH]; intros s f Hf; [done|]. cbn [executor_loop].
  apply wlp_bind, wlp_get_pool. intros pool Hp. case_decide.
  { apply wlp_bind. eapply (keeps_wlp word); [apply keeps_word_run_task|]. intros ? s1 H1.
    eapply wlp_mono; [apply (IH s1 f); by rewrite H1|]. intros ? s' (sigs & last & Hs & Hrest).
    exists sigs, last. split; [|done]. change (signals (sc_env s)) with (word s).2. by rewrite <-H1. }
  apply wlp_bind. eapply (keeps_wlp word); [apply keeps_word_go_idle|]. intros ? s1 H1.
  apply wlp_bind. eapply wlp_mono; [apply wlp_wait_continue|].
  intros go s2 (Hf2 & ign & last & Hs2 & Hign & Hlast). rewrite H1 in Hf2, Hs2.
  assert (Forall (λ x, on_signal x ≠ Leave) ign) as Hign' by (eapply Forall_impl; [exact Hign|]; cbn; congruence).
  destruct go; cycle 1.
  { apply wlp_ret. exists ign, last. split_and!; [exact Hs2|done|done|].
    by rewrite (wakes_ignored _ Hign), Hf2. }
  unfold update_flag. apply wlp_bind. eapply wlp_mono; [by apply (wlp_set_pool_word _ _ SchC.setPoolRunning)|].
  intros ? s3 H3. cbn beta in H3. rewrite Nat2Z.id, decide_True, Hf2, Hf in H3 by done.
  eapply wlp_mono; [apply (IH s3 (SchC.setPoolRunning f)); by rewrite H3|].
  intros ? s4 (sigs & last' & Hs4 & Hsigs & Hlast' & Hw4).
  exists (ign ++ [last] ++ sigs), last'. split_and!.
  - change (signals (sc_env s3)) with (word s3).2 in Hs4. rewrite Hs4, H3. cbn [snd]. rewrite Hs2.
    by rewrite <-!app_assoc.
  - apply Forall_app. split; [done|]. constructor; [by rewrite Hlast|done].
  - done.
  - apply on_signal_cases in Hlast as ->. rewrite Hw4, word_after_S, !wakes_app, (wakes_ignored _ Hign). done.
Qed.
End sleep.

(** ** Properties *)

(** C33: a pool thread, in its main loop, leaves on SIGTERM or SIGQUIT and on nothing else:
    every other signal, [SCH_SIGNAL_QUIT] included, keeps it.  Each CONTINUE received while
    asleep flips the pool's RUNNING and SLEEP bits once, and nothing else changes them
    between two sleeps: going idle flips them twice.  So the flag word a pool sleeps with
    tells how often it was woken, modulo 2. *)
Theorem worker_signals {W} `{Posix W} others fuel p index f (s s' : sched W) :
  (∀ ts w, tp_flag <$> (ts_pools (others ts w) !! p) = tp_flag <$> (ts_pools ts !! p)) →
  tp_flag <$> (ts_pools (sc_ts s) !! p) = Some f →
  executor_loop others fuel (Z.of_nat p) index s = Done ((), s') →
  ∃ sigs last, signals (sc_env s') = signals (sc_env s) ++ sigs ++ [last] ∧
    (last = SIGTERM ∨ last = SIGQUIT) ∧ Forall (λ x, x ≠ SIGTERM ∧ x ≠ SIGQUIT) sigs ∧
    tp_flag <$> (ts_pools (sc_ts s') !! p) = Some (word_after (wakes sigs) f).
Proof.
  intros Hothers Hf Hrun.
  destruct (wlp_elim _ _ _ _ _ (wlp_executor_loop others p Hothers fuel index s f Hf) Hrun)
    as (sigs & last & Hs & Hsigs & Hlast & Hw).
  exists sigs, last. split_and!; [exact Hs| | |exact Hw].
  - apply on_signal_cases in Hlast as [?|?]; auto.
  - eapply Forall_impl; [exact Hsigs|]. cbn. intros x Hx.
    split; intros ->; apply Hx; reflexivity.
Qed.

(** A wake-up can be lost.  Let the worker of an idle pool sleep after an even number of
    wake-ups, as it does before its first one.  A task submitted to the pool is accepted
    with [SCH_OK] and queued, but no signal is sent; the worker sleeps on, and
    [schWaitTask] polls for ever. *)
Theorem lost_wakeup {W} `{Posix W} (s : sched W) p pool pkg n :
  submit_pre s pkg (Some p) → ts_pools (sc_ts s) !! p = Some pool →
  tp_size pool = 0 → tp_flag pool = word_after n 0 → Nat.odd n = false →
  wp (schSubmitTask (Some pkg) (Some p)) (λ r s',
    r.1 = err_code SCH_OK ∧ calls (sc_env s') = calls (sc_env s) ++ queue_calls (sc_ts s) ∧
    ring_contents <$> (ts_pools (sc_ts s') !! p) = Some [queued_package pool pkg] ∧
    ∀ fuel, schWaitTask (λ ts _, ts) fuel s' = OutOfFuel) s.
Proof.
  intros Hpre Hp Hs Hflag Hn. unfold word_after in Hflag. rewrite Hn in Hflag.
  eapply wp_mono; [by apply wp_schSubmitTask|]. destruct Hpre as [Hok _ Hrun _ _ _ _].
  pose proof (Forall_lookup_1 _ _ _ _ (ok_rings _ _ Hok) Hp) as Hwf.
  intros r s' (arr & q & pool' & _ & _ & [= <-] & Hp' & _ & _ & Hok' & Hcases).
  rewrite Hp in Hp'. injection Hp' as <-.
  destruct Hcases as [(Hfull & _)|(_ & _ & [Hst Hc _] & Hcalls & Hwake)].
  { destruct Hwf. lia. }
  assert (wake_needed (submitted_pool pool pkg) = false) as Hno.
  { unfold wake_needed. cbn. by rewrite Hflag, andb_false_r. }
  unfold wake_calls, wake_status in *. rewrite Hno in Hcalls, Hwake.
  assert (ts_pools (sc_ts s') !! p = Some (submitted_pool pool pkg)) as Hp'.
  { rewrite Hst. cbn. apply list_lookup_insert_eq. by eapply lookup_lt_Some. }
  split_and!; [exact Hwake|by rewrite Hcalls, app_nil_r| |].
  - rewrite Hp'. unfold fmap, option_fmap, option_map. rewrite Hc.
    unfold ring_contents at 1. by rewrite Hs.
  - intros fuel. apply (wait_stuck _ p); try done.
    + apply (ok_num _ _ Hok').
    + by rewrite Hst.
    + exists (submitted_pool pool pkg). split; [done|]. unfold is_idle. cbn. by rewrite Hflag.
Qed.

(** *** Witnesses *)

(** The signals to come, one per wait; SIGTERM when there are no more. *)
Definition signal_posix : Posix (list Z) := {|
  sys c w :=
    match c with
    | c_sigwait _ => (mkAnswer 0 [default SIGTERM (head w)], tail w)
    | c_gettimeofday => (mkAnswer 0 [100; 250], w)
    | _ => (mkAnswer 0 [], w)
    end;
  errno _ := 0;
  indet _ := 0;
|}.

(** Two idle pools whose workers have not been woken. *)
Definition sleepy_sched {W} (e : env W) : sched W :=
  mkSched 512 (running_sch <| ts_pools := [idle_pool 0 3000 1; (idle_pool 1 0 0) <| tp_flag := 0 |>] |>) e.
Definition signal_env : env (list Z) :=
  mkEnv [SCH_SIGNAL_QUIT; SCH_SIGNAL_CONTINUE; SCH_SIGNAL_DONE; SCH_SIGNAL_CONTINUE; SCH_SIGNAL_CONTINUE] [].

Lemma worker_signals_witness :
  ∃ (s' : sched (list Z)) sigs last,
    signals (sc_env s') = signals signal_env ++ sigs ++ [last] ∧
    (last = SIGTERM ∨ last = SIGQUIT) ∧ Forall (λ x, x ≠ SIGTERM ∧ x ≠ SIGQUIT) sigs ∧
    tp_flag <$> (ts_pools (sc_ts s') !! 1%nat) = Some (word_after (wakes sigs) 0).
Proof.
  eexists.
  apply (worker_signals (H := signal_posix) (λ ts _, ts) 10 1 1 0 (sleepy_sched signal_env)).
  - reflexivity.
  - reflexivity.
  - vm_compute. reflexivity.
Defined.

Lemma lost_wakeup_witness :
  wp (schSubmitTask (Some some_task) (Some 1%nat)) (λ r s',
    r.1 = err_code SCH_OK ∧ calls (sc_env s') = [] ++ [c_spin_lock 660; c_spin_unlock 660] ∧
    ring_contents <$> (ts_pools (sc_ts s') !! 1%nat) = Some [some_task <| pk_index := 1 |>] ∧
    ∀ fuel, schWaitTask (λ ts _, ts) fuel s' = OutOfFuel) (sleepy_sched good_os).
Proof.
  eapply wp_mono.
  - apply (lost_wakeup (sleepy_sched good_os) 1 ((idle_pool 1 0 0) <| tp_flag := 0 |>) some_task 0).
    + split; [|reflexivity|reflexivity|reflexivity|discriminate|intros p [= <-]; cbn; lia|].
      * assert (ring_wf ((idle_pool 1 0 0) <| tp_flag := 0 |>)) as Hwf by (split; cbn; (lia || done)).
        exact (sched_ok_pool 512 running_sch 1 _ running_sch_ok Hwf eq_refl eq_refl).
      * repeat (apply List.Forall_cons; [vm_compute; discriminate|]). apply List.Forall_nil.
    + reflexivity.
    + reflexivity.
    + reflexivity.
    + reflexivity.
  - intros r s' (Hr & Hc & Hq & Hw). split; [exact Hr|split; [exact Hc|split; [exact Hq|exact Hw]]].
Defined.
