(* ===== verification/Unlocking.v ===== *)
(** * What a pool thread does to the mutex of the scheduler

    The calls on mutexes of the main loop of [schPoolExecutor] (src/sch.c). *)
From S2P Require Import Prelude Errors Flags Structures Heapify TaskQueue Platform.
From S2P Require Import Scheduler SchedulerFacts Examples Executor Sleeping.

#[local] Opaque get_pool set_pool.

(** The calls that lock or unlock a mutex. *)
Definition is_mutex_call (c : syscall) : bool :=
  match c with
  | c_mutex_lock _ | c_mutex_timedlock _ _ _ | c_mutex_unlock _ | c_cond_wait _ _ => true
  | _ => false
  end.
Definition mutex_calls {W} (e : env W) : list syscall := filter (λ c, is_mutex_call c) (calls e).

Section unlocking.
Context {W : Type} `{Posix W}.
Variable others : schTaskSch → W → schTaskSch.
Hypothesis others_mutex : ∀ ts w, ts_mutex (others ts w) = ts_mutex ts.

(** The mutex, and what was done to mutexes. *)
Definition locks (s : sched W) : Z * list syscall := (ts_mutex (sc_ts s), mutex_calls (sc_env s)).

Definition lockless {A} (m : M (env W) A) : Prop := keeps mutex_calls m.

Lemma mutex_calls_after c (e : env W) :
  mutex_calls (after c e) = mutex_calls e ++ (if is_mutex_call c then [c] else []).
Proof. unfold mutex_calls. rewrite calls_after, filter_app. cbn. by destruct (is_mutex_call c). Qed.

Lemma lockless_call c : is_mutex_call c = false → lockless (call c).
Proof. intros Hc e. unfold wlp. rewrite call_eq, mutex_calls_after, Hc. by rewrite app_nil_r. Qed.

Lemma keeps_locks_plat {A} (m : M (env W) A) : lockless m → keeps locks (plat m).
Proof.
  intros Hm s. unfold plat, wlp. pose proof (Hm (sc_env s)) as Hs. unfold wlp in Hs.
  destruct (m (sc_env s)) as [[a e]| | |]; [|done..]. unfold locks. cbn. by rewrite Hs.
Qed.

Lemma keeps_locks_get_pool i : keeps locks (get_pool i).
Proof. intros s. by apply wlp_get_pool. Qed.

Lemma keeps_locks_set_pool i f : keeps locks (set_pool i f).
Proof. intros s. by apply wlp_set_pool. Qed.

Lemma keeps_locks_interfere : keeps locks (interfere others).
Proof. apply keeps_modify. intros s. unfold locks. cbn. by rewrite others_mutex. Qed.

(** Walk through code that does nothing to a mutex. *)
Ltac calm :=
  repeat first
    [ apply keeps_ret | apply keeps_liftO | apply keeps_undef | apply keeps_out_of_fuel | apply keeps_abort
    | apply keeps_gets | apply keeps_locks_get_pool | apply keeps_locks_set_pool
    | apply keeps_locks_interfere | apply keeps_locks_plat | apply lockless_call; reflexivity
    | apply keeps_bind; [|intros ?]
    | progress case_match | progress case_decide ].

Lemma keeps_locks_queue p d x : keeps locks (schQueueMutexEnDeQueue p d x).
Proof. unfold schQueueMutexEnDeQueue, schLockSpinLock, schUnlockSpinLock, checked_call, ret_of. calm. Qed.

Lemma keeps_locks_run_task p index : keeps locks (run_task others p index).
Proof.
  unfold run_task. apply keeps_bind; [apply keeps_locks_queue|intros ?].
  unfold schGetTime, ret_of, out_of. calm.
Qed.

Lemma keeps_locks_wait_continue fuel p : keeps locks (wait_continue others fuel p).
Proof.
  induction fuel as [|fuel IH]; cbn [wait_continue]; [calm|]. unfold schSignalWait, out_of. calm. exact IH.
Qed.

(** Going idle unlocks the mutex of the scheduler. *)
Lemma wlp_go_idle p s :
  wlp (go_idle p) (λ _ s', locks s' = ((locks s).1, (locks s).2 ++ [c_mutex_unlock (locks s).1])) s.
Proof.
  unfold go_idle, update_flag.
  apply wlp_bind. eapply (keeps_wlp locks); [apply keeps_locks_set_pool|intros ? s1 H1].
  apply wlp_bind. eapply (keeps_wlp locks); [apply keeps_locks_set_pool|intros ? s2 H2]. rewrite <-H1, <-H2.
  apply wlp_bind, wlp_gets, wlp_bind, wlp_plat. unfold wlp at 1.
  destruct (mutex_unlock_eq (ts_mutex (sc_ts s2)) (sc_env s2)) as [r ->].
  eapply (keeps_wlp locks); [unfold schConditionalSignal, schRaiseThreadSignal, checked_call, ret_of; calm|].
  intros ? s3 ->. unfold locks. cbn [sc_ts sc_env set tset const fst snd]. f_equal.
  exact (mutex_calls_after (c_mutex_unlock (ts_mutex (sc_ts s2))) (sc_env s2)).
Qed.

Lemma wlp_main_loop fuel p index s :
  wlp (executor_loop others fuel p index) (λ _ s', ∃ k, locks s' =
    ((locks s).1, (locks s).2 ++ replicate (S k) (c_mutex_unlock (locks s).1))) s.
Proof.
  revert s. induction fuel as [|fuel IH]; intros s; [done|]. cbn [executor_loop].
  apply wlp_bind, wlp_get_pool. intros pool Hp. case_decide.
  { apply wlp_bind. eapply (keeps_wlp locks); [apply keeps_locks_run_task|]. intros ? s1 <-. apply IH. }
  apply wlp_bind. eapply wlp_mono; [apply wlp_go_idle|]. intros ? s1 H1.
  apply wlp_bind. eapply (keeps_wlp locks); [apply keeps_locks_wait_continue|]. intros go s2 H2.
  rewrite H1 in H2. destruct go.
  - apply wlp_bind. eapply (keeps_wlp locks); [apply keeps_locks_set_pool|]. intros ? s3 H3. rewrite H2 in H3.
    eapply wlp_mono; [apply IH|]. intros ? s4 [k H4]. exists (S k). rewrite H4, H3. cbn [fst snd].
    by rewrite <-app_assoc.
  - apply wlp_ret. by exists 0%nat.
Qed.
End unlocking.

(** ** Property *)

(** C36: a pool thread unlocks the mutex of the scheduler each time it goes idle, and never locks it
    or any other mutex: when its main loop has ended, all it has done to mutexes is to unlock
    this one, at least once.  POSIX leaves that undefined for a mutex of the default kind. *)
Theorem worker_only_unlocks {W} `{Posix W} others fuel p index (s s' : sched W) :
  (∀ ts w, ts_mutex (others ts w) = ts_mutex ts) →
  executor_loop others fuel p index s = Done ((), s') →
  ∃ k, mutex_calls (sc_env s') =
    mutex_calls (sc_env s) ++ replicate (S k) (c_mutex_unlock (ts_mutex (sc_ts s))).
Proof.
  intros Hothers Hrun. destruct (wlp_elim _ _ _ _ _ (wlp_main_loop others Hothers fuel p index s) Hrun) as [k Hk].
  exists k. exact (f_equal snd Hk).
Qed.

(** A thread that is woken three times. *)
Lemma worker_only_unlocks_witness :
  ∃ (s' : sched (list Z)) k, mutex_calls (sc_env s') =
    mutex_calls signal_env ++ replicate (S k) (c_mutex_unlock (ts_mutex (sc_ts (sleepy_sched signal_env)))).
Proof.
  eexists.
  apply (worker_only_unlocks (H := signal_posix) (λ ts _, ts) 10 1 1 (sleepy_sched signal_env)).
  - reflexivity.
  - vm_compute. reflexivity.
Defined.
