(* ===== verification/Sync.v ===== *)
(** * The semaphores of the platform layer

    What POSIX promises of its semaphores is an interface, the class [PosixSem]; against it the
    wrappers of src/unix/thread.c implement a counter, [sem_spec].  The interface states the
    documented behaviour only: [sem_wait] on the value 0 blocks, of which the model says nothing. *)
From S2P Require Import Prelude Errors Structures Platform Scheduler SchedulerFacts.

Definition SEM_VALUE_MAX : Z := INT_MAX.
Definition EOVERFLOW : Z := 75.

(** The semaphore at an address, if there is one, and the calendar in seconds, as a system has
    them; and how the calls change them.  The deadline of [sem_timedwait] is a point of the
    calendar. *)
Class PosixSem (W : Type) `{Posix W} : Type := {
  sem_count : W → Z → option Z;
  calendar : W → Z;
  ps_init p w : ans_ret (fst (sys (c_sem_init p) w)) = 0 →
    sem_count (snd (sys (c_sem_init p) w)) p = Some 0;
  ps_post p w v : sem_count w p = Some v → v < SEM_VALUE_MAX →
    ans_ret (fst (sys (c_sem_post p) w)) = 0 ∧ sem_count (snd (sys (c_sem_post p) w)) p = Some (v + 1);
  ps_post_max p w : sem_count w p = Some SEM_VALUE_MAX →
    ans_ret (fst (sys (c_sem_post p) w)) = -1 ∧ errno (snd (sys (c_sem_post p) w)) = EOVERFLOW ∧
    sem_count (snd (sys (c_sem_post p) w)) p = Some SEM_VALUE_MAX;
  ps_wait p w v : sem_count w p = Some v → 0 < v →
    ans_ret (fst (sys (c_sem_wait p) w)) = 0 ∧ sem_count (snd (sys (c_sem_wait p) w)) p = Some (v - 1);
  ps_trywait p w v : sem_count w p = Some v → 0 < v →
    ans_ret (fst (sys (c_sem_trywait p) w)) = 0 ∧ sem_count (snd (sys (c_sem_trywait p) w)) p = Some (v - 1);
  ps_trywait_0 p w : sem_count w p = Some 0 →
    ans_ret (fst (sys (c_sem_trywait p) w)) = -1 ∧ errno (snd (sys (c_sem_trywait p) w)) = EAGAIN ∧
    sem_count (snd (sys (c_sem_trywait p) w)) p = Some 0;
  ps_timedwait p sec nsec w v : sem_count w p = Some v → 0 < v →
    ans_ret (fst (sys (c_sem_timedwait p sec nsec) w)) = 0 ∧
    sem_count (snd (sys (c_sem_timedwait p sec nsec) w)) p = Some (v - 1);
  ps_timedwait_past p sec nsec w : sem_count w p = Some 0 → 0 <= nsec < NSEC → sec < calendar w →
    ans_ret (fst (sys (c_sem_timedwait p sec nsec) w)) = -1 ∧
    errno (snd (sys (c_sem_timedwait p sec nsec) w)) = ETIMEDOUT ∧
    sem_count (snd (sys (c_sem_timedwait p sec nsec) w)) p = Some 0;
  ps_timedwait_invalid p sec nsec w : sem_count w p = Some 0 → ¬ 0 <= nsec < NSEC →
    ans_ret (fst (sys (c_sem_timedwait p sec nsec) w)) = -1 ∧
    errno (snd (sys (c_sem_timedwait p sec nsec) w)) = EINVAL ∧
    sem_count (snd (sys (c_sem_timedwait p sec nsec) w)) p = Some 0;
  ps_getvalue p w v : sem_count w p = Some v →
    fst (sys (c_sem_getvalue p) w) = mkAnswer 0 [v] ∧ sem_count (snd (sys (c_sem_getvalue p) w)) p = Some v;
}.

(** The calls of the library on a semaphore, and what they answer: the status and, for
    [schSemaphoreValue], the value. *)
Inductive sem_op : Type :=
  | SemWait
  | SemTryWait
  | SemTimedWait (timeout : Z)
  | SemPost
  | SemValue.

(** A counter.  A timed wait that cannot go on never waits: its timeout is taken for a point of
    the calendar.  [None]: the call blocks. *)
Definition sem_spec (op : sem_op) (v : Z) : option ((Z * option Z) * Z) :=
  match op with
  | SemWait => if decide (0 < v) then Some ((err_code SCH_OK, None), v - 1) else None
  | SemTryWait =>
      if decide (0 < v) then Some ((err_code SCH_OK, None), v - 1)
      else Some ((err_code SCH_ERROR_LACK_OF_RESOURCES, None), v)
  | SemTimedWait timeout =>
      if decide (0 < v) then Some ((err_code SCH_OK, None), v - 1)
      else Some ((if decide (timeout `rem` NSEC < 0) then err_code SCH_ERROR_INVALID_ARG
                  else err_code SCH_ERROR_TIMEOUT, None), v)
  | SemPost =>
      if decide (v < SEM_VALUE_MAX) then Some ((err_code SCH_OK, None), v + 1)
      else Some ((err_code SCH_ERROR_UNKNOWN, None), v)
  | SemValue => Some ((err_code SCH_OK, Some v), v)
  end.

Fixpoint sem_specs (ops : list sem_op) (v : Z) : option (list (Z * option Z) * Z) :=
  match ops with
  | [] => Some ([], v)
  | op :: ops =>
      '(r, v) ← sem_spec op v;
      '(rs, v) ← sem_specs ops v;
      Some (r :: rs, v)
  end.

Section semaphores.
Context {W : Type} `{PosixSem W}.

(** A call of the library. *)
Definition sem_call (p : Z) (op : sem_op) : M (env W) (Z * option Z) :=
  match op with
  | SemWait => r ← schSemaphoreWait p; mret (r, None)
  | SemTryWait => r ← schSemaphoreTryWait p; mret (r, None)
  | SemTimedWait timeout => r ← schSemaphoreTimedWait p timeout; mret (r, None)
  | SemPost => r ← schSemaphorePost p; mret (r, None)
  | SemValue => schSemaphoreValue p
  end.

Fixpoint sem_calls (p : Z) (ops : list sem_op) : M (env W) (list (Z * option Z)) :=
  match ops with
  | [] => mret []
  | op :: ops => r ← sem_call p op; rs ← sem_calls p ops; mret (r :: rs)
  end.

(** The timeout, as a point of the calendar, has passed. *)
Definition past (op : sem_op) : Prop :=
  match op with SemTimedWait timeout => ∀ w, timeout `quot` NSEC < calendar w | _ => True end.

(** The semaphore at [p] has the value [v]. *)
Definition sem_is (p v : Z) (e : env W) : Prop := sem_count (world e) p = Some v ∧ 0 <= v <= SEM_VALUE_MAX.

(** A call that succeeds, and one that fails. *)
Lemma wp_errno_ok c p v (Q : Z → env W → Prop) (e : env W) :
  ans_ret (fst (sys c (world e))) = 0 ∧ sem_count (snd (sys c (world e))) p = Some v →
  0 <= v <= SEM_VALUE_MAX → (∀ e', sem_is p v e' → Q (err_code SCH_OK) e') → wp (errno_call c) Q e.
Proof.
  intros [Hr Hv] Hb HQ. apply wp_bind, wp_ret_of. rewrite Hr, decide_True by done. by apply wp_ret, HQ.
Qed.

Lemma wp_errno_fail c err p v (Q : Z → env W → Prop) (e : env W) :
  ans_ret (fst (sys c (world e))) = -1 ∧ errno (snd (sys c (world e))) = err ∧
    sem_count (snd (sys c (world e))) p = Some v →
  0 <= v <= SEM_VALUE_MAX → (∀ e', sem_is p v e' → Q (pthread_error_code2sch_error_code err) e') →
  wp (errno_call c) Q e.
Proof.
  intros (Hr & <- & Hv) Hb HQ. apply wp_bind, wp_ret_of. rewrite Hr, decide_False by done.
  apply wp_bind, wp_gets, wp_ret. by apply (HQ (after c e)).
Qed.

(** One call does what the counter does. *)
Lemma wp_sem_call op p v r v' (e : env W) :
  past op → sem_is p v e → sem_spec op v = Some (r, v') → wp (sem_call p op) (λ r' e', r' = r ∧ sem_is p v' e') e.
Proof.
  intros Hpast [Hv Hb] Hspec. destruct op as [| |timeout| |]; cbn [sem_call sem_spec] in *; try apply wp_bind.
  - case_decide; [|done]. injection Hspec as <- <-.
    eapply wp_errno_ok; [by apply ps_wait|lia|]. intros e' He'. by apply wp_ret.
  - case_decide; injection Hspec as <- <-.
    + eapply wp_errno_ok; [by apply ps_trywait|lia|]. intros e' He'. by apply wp_ret.
    + assert (v = 0) as -> by lia. eapply wp_errno_fail; [by apply ps_trywait_0|done|].
      intros e' He'. by apply wp_ret.
  - pose proof (Z.rem_bound_abs timeout NSEC ltac:(done)) as Hrem. unfold schSemaphoreTimedWait, timespec_of. cbn [fst snd].
    case_decide; [injection Hspec as <- <-|assert (v = 0) as -> by lia; case_decide; injection Hspec as <- <-].
    + eapply wp_errno_ok; [by apply ps_timedwait|lia|]. intros e' He'. by apply wp_ret.
    + eapply wp_errno_fail; [apply ps_timedwait_invalid; [done|lia]|done|]. intros e' He'. by apply wp_ret.
    + eapply wp_errno_fail; [apply ps_timedwait_past; [done| |apply Hpast]|done|].
      * unfold NSEC in *. lia.
      * intros e' He'. by apply wp_ret.
  - case_decide; injection Hspec as <- <-.
    + eapply wp_errno_ok; [by apply ps_post|lia|]. intros e' He'. by apply wp_ret.
    + assert (v = SEM_VALUE_MAX) as -> by lia. eapply wp_errno_fail; [by apply ps_post_max|done|].
      intros e' He'. by apply wp_ret.
  - injection Hspec as <- <-. destruct (ps_getvalue p (world e) v Hv) as [Hans Hv'].
    apply wp_call. rewrite Hans. cbn [ans_ret ans_out]. rewrite decide_True by done. by apply wp_ret.
Qed.

Lemma wp_sem_calls ops p v rs v' (e : env W) :
  Forall past ops → sem_is p v e → sem_specs ops v = Some (rs, v') →
  wp (sem_calls p ops) (λ rs' e', rs' = rs ∧ sem_is p v' e') e.
Proof.
  intros Hpast. revert v rs e. induction Hpast as [|op ops Hop _ IH]; intros v rs e Hv Hspec; cbn [sem_calls sem_specs] in *.
  { injection Hspec as <- <-. by apply wp_ret. }
  destruct (sem_spec op v) as [[r v1]|] eqn:Hr; [|done]. cbn in Hspec.
  destruct (sem_specs ops v1) as [[rs1 v2]|] eqn:Hrs; [|done]. cbn in Hspec. injection Hspec as <- <-.
  apply wp_bind. eapply wp_mono; [by apply (wp_sem_call op p v r v1)|]. intros ? e1 [-> He1].
  apply wp_bind. eapply wp_mono; [by apply (IH v1 rs1)|]. intros ? e2 [-> He2]. by apply wp_ret.
Qed.

(** A semaphore is created and used. *)
Definition use_semaphore (NDEBUG : bool) (ops : list sem_op) : M (env W) (Z * list (Z * option Z)) :=
  '(status, p) ← schCreateSemaphore NDEBUG;
  if decide (status = err_code SCH_OK) then rs ← sem_calls p ops; mret (status, rs) else mret (status, []).

(** C35: the semaphores of the library are counters that start from 0.  On a system that gives
    memory and whose [sem_init] succeeds, every sequence of calls that does not block answers
    what [sem_specs] says: a post that would overflow is refused with [SCH_ERROR_UNKNOWN]; a
    failed try answers [SCH_ERROR_LACK_OF_RESOURCES]; and a timed wait never waits, for any
    timeout below the age of the calendar: it answers [SCH_ERROR_TIMEOUT] at once.  A post
    adds one to the counter, as [sem_post] does; the comment on [schSemaphorePost] in
    include/taskSch.h says that it decreases the counter, which no counter that lets a waiter
    continue can do. *)
Theorem semaphore_refines NDEBUG ops rs v (e : env W) :
  (∀ n w, ans_ret (fst (sys (c_malloc n) w)) ≠ NULL) →
  (∀ p w, ans_ret (fst (sys (c_sem_init p) w)) = 0) →
  Forall past ops → sem_specs ops 0 = Some (rs, v) →
  wp (use_semaphore NDEBUG ops) (λ r e', r = (err_code SCH_OK, rs) ∧ ∃ p, sem_is p v e') e.
Proof.
  intros Hmalloc Hinit Hpast Hspec. unfold use_semaphore, schCreateSemaphore.
  apply wp_bind, wp_bind, wp_ret_of. set (p := ans_ret _). apply wp_bind.
  assert (wp (assert_e NDEBUG (mret (truthy p))) (λ _ e', e' = after (c_malloc sizeof_sem) e)
    (after (c_malloc sizeof_sem) e)) as Hassert.
  { unfold assert_e. destruct NDEBUG; [by apply wp_ret|]. apply wp_bind, wp_ret.
    assert (truthy p = true) as -> by (apply truthy_spec, Hmalloc). by apply wp_ret. }
  eapply wp_mono; [exact Hassert|]. clear Hassert. intros _ e1 ->. apply wp_bind.
  eapply wp_errno_ok; [split; [apply Hinit|apply ps_init, Hinit]|done|]. intros e1 He1. apply wp_ret.
  rewrite decide_True by done. apply wp_bind. eapply wp_mono; [by apply (wp_sem_calls ops p 0 rs v)|].
  intros ? e2 [-> He2]. apply wp_ret. split; [done|by exists p].
Qed.
End semaphores.

(** *** Witness: a system with semaphores *)

(** The values of its semaphores, and [errno]. *)
Definition sem_os : Type := (Z → option Z) * Z.

Definition set_sem (p v err : Z) (w : sem_os) : sem_os := (λ q, if decide (q = p) then Some v else w.1 q, err).

(** Take one unit, or fail with [err]. *)
Definition take_sem (p err : Z) (w : sem_os) : answer * sem_os :=
  match w.1 p with
  | Some v => if decide (0 < v) then (mkAnswer 0 [], set_sem p (v - 1) w.2 w) else (mkAnswer (-1) [], (w.1, err))
  | None => (mkAnswer (-1) [], (w.1, EINVAL))
  end.

Definition sem_sys (c : syscall) (w : sem_os) : answer * sem_os :=
  match c with
  | c_malloc _ => (mkAnswer 4096 [], w)
  | c_sem_init p => (mkAnswer 0 [], set_sem p 0 w.2 w)
  | c_sem_wait p => take_sem p EINTR w
  | c_sem_trywait p => take_sem p EAGAIN w
  | c_sem_timedwait p sec nsec => take_sem p (if decide (0 <= nsec < NSEC) then ETIMEDOUT else EINVAL) w
  | c_sem_post p =>
      match w.1 p with
      | Some v => if decide (v < SEM_VALUE_MAX) then (mkAnswer 0 [], set_sem p (v + 1) w.2 w)
                  else (mkAnswer (-1) [], (w.1, EOVERFLOW))
      | None => (mkAnswer (-1) [], (w.1, EINVAL))
      end
  | c_sem_getvalue p => (mkAnswer 0 (option_list (w.1 p)), w)
  | _ => (mkAnswer 0 [], w)
  end.

Definition sem_posix : Posix sem_os := {| sys := sem_sys; errno := snd; indet _ := 0 |}.

Lemma take_sem_some p err w v :
  w.1 p = Some v → 0 < v → ans_ret (fst (take_sem p err w)) = 0 ∧ (snd (take_sem p err w)).1 p = Some (v - 1).
Proof. intros Hp Hv. unfold take_sem. rewrite Hp, decide_True by done. cbn. by rewrite decide_True. Qed.

Lemma take_sem_none p err w :
  w.1 p = Some 0 → ans_ret (fst (take_sem p err w)) = -1 ∧ (snd (take_sem p err w)).2 = err ∧
    (snd (take_sem p err w)).1 p = Some 0.
Proof. intros Hp. unfold take_sem. by rewrite Hp. Qed.

(** It is the year 2023 of the calendar. *)
Definition sem_contract : PosixSem sem_os (H := sem_posix).
Proof.
  refine {| sem_count w := w.1; calendar _ := 1700000000 |}; cbn.
  - intros p w _. by rewrite decide_True.
  - intros p w v Hp Hv. rewrite Hp, decide_True by done. cbn. by rewrite decide_True.
  - intros p w Hp. by rewrite Hp.
  - intros p w v. apply take_sem_some.
  - intros p w v. apply take_sem_some.
  - intros p w. apply take_sem_none.
  - intros p sec nsec w v. apply take_sem_some.
  - intros p sec nsec w Hp Hn _. rewrite decide_True by done. by apply take_sem_none.
  - intros p sec nsec w Hp Hn. rewrite decide_False by done. by apply take_sem_none.
  - intros p w v Hp. by rewrite Hp.
Defined.

(** A wait of ten minutes on a semaphore that nobody posts is over at once. *)
Definition sem_use : list sem_op :=
  [SemTryWait; SemPost; SemValue; SemWait; SemTimedWait 600000000000; SemTimedWait (-1)].

Lemma semaphore_refines_witness :
  wp (use_semaphore (H := sem_posix) false sem_use) (λ r e',
    r = (1, [(-11, None); (1, None); (1, Some 1); (1, None); (-8, None); (-1, None)]) ∧
    ∃ p, sem_is (H0 := sem_contract) p 0 e') (mkEnv (λ _, None, 0) []).
Proof.
  apply (semaphore_refines (H0 := sem_contract) false sem_use _ 0).
  - discriminate.
  - reflexivity.
  - repeat constructor.
  - reflexivity.
Defined.
