(* ===== verification/Concurrency.v ===== *)
(** * Submitters and the worker of a pool, interleaved

    The shared accesses of [schSubmitTask] (src/taskSch.c, for a pool the caller names) and
    of the main loop of [schPoolExecutor] (src/sch.c) on one pool, as a step relation: one
    step per access of the pool, of the spin lock and of the signal of the worker.  The
    critical sections are one step each, since the lock excludes the other writers and the
    accesses outside the lock read the size only, which the section writes once.  A
    CONTINUE that is pending already is not sent twice: standard signals do not queue. *)
From S2P Require Import Prelude Errors Flags Structures Heapify TaskQueue Platform.
From S2P Require Import Scheduler SchedulerFacts Examples SchedulerSubmit Executor ExecutorFacts.

(** Where a submitting thread is in [schSubmitTask], with the tasks it submits next. *)
Inductive submitter : Type :=
  | SubCheck (todo : list schTaskPackage)
  | SubLock (pkg : schTaskPackage) (todo : list schTaskPackage)
  | SubCritical (pkg : schTaskPackage) (todo : list schTaskPackage)
  | SubUnlock (todo : list schTaskPackage)
  | SubPrio (todo : list schTaskPackage)
  | SubReadSize (todo : list schTaskPackage)
  | SubReadFlag (todo : list schTaskPackage)
  | SubKill (todo : list schTaskPackage).

(** Where the worker is in its main loop. *)
Inductive worker : Type :=
  | WkCheck
  | WkLock
  | WkCritical
  | WkUnlock (cell : Z)
  | WkFetch (cell : Z)
  | WkRunning
  | WkIdle
  | WkFlip1
  | WkFlip2
  | WkSleep
  | WkWake.

(** The shared state.  The last three fields record the tasks accepted, dequeued, and
    started, in order. *)
Record cstate : Type := mkCState {
  cs_pool : schTaskPool;
  cs_locked : bool;
  cs_pending : bool;
  cs_subs : list submitter;
  cs_worker : worker;
  cs_accepted : list schTaskPackage;
  cs_taken : list schTaskPackage;
  cs_ran : list schTaskPackage;
}.

(** *** The steps of a submitter: the program counter, and the effect on the shared state *)
Inductive sub_step : submitter → cstate → submitter → cstate → Prop :=
  | sub_full s pkg todo :
      tp_size (cs_pool s) >= tp_reserved (cs_pool s) →
      sub_step (SubCheck (pkg :: todo)) s (SubCheck todo) s
  | sub_room s pkg todo :
      tp_size (cs_pool s) < tp_reserved (cs_pool s) →
      sub_step (SubCheck (pkg :: todo)) s (SubLock (queued_package (cs_pool s) pkg) todo) s
  | sub_lock s pkg todo :
      cs_locked s = false →
      sub_step (SubLock pkg todo) s (SubCritical pkg todo) (s <| cs_locked := true |>)
  | sub_critical s pkg todo ptr pool :
      queue_critical (cs_pool s) 0 (Some pkg) = Done (ptr, pool) →
      sub_step (SubCritical pkg todo) s (SubUnlock todo)
        (s <| cs_pool := pool |> <| cs_accepted ::= λ l, l ++ [pkg] |>)
  | sub_unlock s todo : sub_step (SubUnlock todo) s (SubPrio todo) (s <| cs_locked := false |>)
  | sub_prio s todo z :
      checked is_long (tp_dheapPriority (cs_pool s) + 1000) = Done z →
      sub_step (SubPrio todo) s (SubReadSize todo)
        (s <| cs_pool ::= λ pool, pool <| tp_dheapPriority := z |> |>)
  | sub_read_size s todo :
      sub_step (SubReadSize todo) s
        (if tp_size (cs_pool s) <=? 1 then SubReadFlag todo else SubCheck todo) s
  | sub_read_flag s todo :
      sub_step (SubReadFlag todo) s
        (if has (tp_flag (cs_pool s)) SCH_POOL_SLEEP then SubKill todo else SubCheck todo) s
  | sub_kill s todo : sub_step (SubKill todo) s (SubCheck todo) (s <| cs_pending := true |>).

(** *** The steps of the worker *)
Inductive worker_step : worker → cstate → worker → cstate → Prop :=
  | wk_check s :
      worker_step WkCheck s (if decide (0 < tp_size (cs_pool s)) then WkLock else WkIdle) s
  | wk_lock s : cs_locked s = false → worker_step WkLock s WkCritical (s <| cs_locked := true |>)
  | wk_critical s cell x pool :
      queue_critical (cs_pool s) 1 None = Done (Cell cell, pool) →
      at_index (tp_packages pool) cell = Some x →
      worker_step WkCritical s (WkUnlock cell)
        (s <| cs_pool := pool |> <| cs_taken ::= λ l, l ++ [x] |>)
  | wk_unlock s cell : worker_step (WkUnlock cell) s (WkFetch cell) (s <| cs_locked := false |>)
  | wk_fetch s cell x :
      at_index (tp_packages (cs_pool s)) cell = Some x →
      let task := stamp (tp_index (cs_pool s)) x in
      worker_step (WkFetch cell) s WkRunning
        (s <| cs_pool ::= write_cell cell task |> <| cs_ran ::= λ l, l ++ [task] |>)
  | wk_finish s taskInvoke :
      is_long taskInvoke = true →
      worker_step WkRunning s WkCheck
        (s <| cs_pool ::= λ pool, pool <| tp_avergeDeque := 0 |> <| tp_dheapPriority := taskInvoke |> |>)
  | wk_idle s :
      worker_step WkIdle s WkFlip1 (s <| cs_pool ::= λ pool, pool <| tp_dheapPriority := 0 |> |>)
  | wk_flip1 s :
      worker_step WkFlip1 s WkFlip2 (s <| cs_pool ::= λ pool, pool <| tp_flag ::= SchC.setPoolIdle |> |>)
  | wk_flip2 s :
      worker_step WkFlip2 s WkSleep (s <| cs_pool ::= λ pool, pool <| tp_flag ::= SchC.setPoolIdle |> |>)
  | wk_signal s : cs_pending s = true → worker_step WkSleep s WkWake (s <| cs_pending := false |>)
  | wk_wake s :
      worker_step WkWake s WkCheck (s <| cs_pool ::= λ pool, pool <| tp_flag ::= SchC.setPoolRunning |> |>).

(** *** One step of the system *)
Inductive step (s : cstate) : cstate → Prop :=
  | step_sub i pc pc' s' :
      cs_subs s !! i = Some pc → sub_step pc s pc' s' →
      step s (s' <| cs_subs ::= <[i := pc']> |>)
  | step_worker pc' s' :
      worker_step (cs_worker s) s pc' s' → step s (s' <| cs_worker := pc' |>).

(** Before any submit: an empty queue, and the worker about to look at it. *)
Definition initial (s : cstate) : Prop :=
  ring_wf (cs_pool s) ∧ tp_size (cs_pool s) = 0 ∧
  (tp_flag (cs_pool s) = 0 ∨ tp_flag (cs_pool s) = 6) ∧
  cs_locked s = false ∧ cs_worker s = WkCheck ∧
  Forall (λ pc, ∃ todo, pc = SubCheck todo) (cs_subs s) ∧
  cs_accepted s = [] ∧ cs_taken s = [] ∧ cs_ran s = [].

(** ** The invariant, for any number of submitters *)

(** The threads inside the critical section. *)
Definition sub_holds (pc : submitter) : bool :=
  match pc with SubCritical _ _ | SubUnlock _ => true | _ => false end.
Definition worker_holds (pc : worker) : bool :=
  match pc with WkCritical | WkUnlock _ => true | _ => false end.
Definition holders (s : cstate) : nat :=
  sum_list_with (λ pc, Nat.b2n (sub_holds pc)) (cs_subs s) + Nat.b2n (worker_holds (cs_worker s)).

(** The task a submitter has prepared is stamped already. *)
Definition sub_stamped (index : Z) (pc : submitter) : Prop :=
  match pc with SubLock pkg _ | SubCritical pkg _ => pk_index pkg = index | _ => True end.

(** The cell of a dequeued task still holds a task of this pool. *)
Definition cell_stamped (pool : schTaskPool) (cell : Z) : Prop :=
  ∃ x, at_index (tp_packages pool) cell = Some x ∧ pk_index x = tp_index pool.

Definition worker_ok (s : cstate) : Prop :=
  match cs_worker s with
  | WkLock | WkCritical => 0 < tp_size (cs_pool s)
  | WkUnlock cell | WkFetch cell => cell_stamped (cs_pool s) cell
  | _ => True
  end.

Record cinv (s : cstate) : Prop := {
  inv_ring : ring_wf (cs_pool s);
  inv_flag : tp_flag (cs_pool s) = 0 ∨ tp_flag (cs_pool s) = 6;
  inv_lock : holders s = Nat.b2n (cs_locked s);
  inv_subs : Forall (sub_stamped (tp_index (cs_pool s))) (cs_subs s);
  inv_worker : worker_ok s;
  inv_stamped : Forall (λ x, pk_index x = tp_index (cs_pool s)) (cs_accepted s);
  inv_fifo : cs_accepted s = cs_taken s ++ ring_contents (cs_pool s);
}.

(** No submitter is about to write a full queue. *)
Definition room (s : cstate) : Prop :=
  ∀ pkg todo, SubCritical pkg todo ∈ cs_subs s → tp_size (cs_pool s) < tp_reserved (cs_pool s).

Lemma initial_cinv s : initial s → cinv s.
Proof.
  intros (Hwf & Hs & Hflag & Hlock & Hwk & Hsubs & Hacc & Htk & _).
  assert (ring_contents (cs_pool s) = []) as Hc by (by apply nil_length_inv; rewrite length_ring_contents, Hs).
  split; [done|done| | | | |].
  - unfold holders. rewrite Hwk, Hlock. cbn. rewrite Nat.add_0_r.
    induction Hsubs as [|? ? [? ->]]; [done|]. by cbn.
  - apply (Forall_impl _ _ _ Hsubs). by intros ? [? ->].
  - unfold worker_ok. by rewrite Hwk.
  - by rewrite Hacc.
  - by rewrite Hacc, Htk, Hc.
Qed.

Lemma write_cell_same pool cell x :
  at_index (tp_packages pool) cell = Some x → write_cell cell x pool = pool.
Proof.
  intros [_ Hx]%at_index_Some. destruct pool. unfold write_cell. cbn in *.
  by rewrite list_insert_id.
Qed.

Lemma stamp_same index x : pk_index x = index → stamp index x = x.
Proof. destruct x. cbn. by intros ->. Qed.

(** What a step outside the critical section changes of the pool. *)
Definition queue_same (p p' : schTaskPool) : Prop :=
  p' = p <| tp_flag := tp_flag p' |> <| tp_dheapPriority := tp_dheapPriority p' |>
         <| tp_avergeDeque := tp_avergeDeque p' |>.

Lemma queue_same_refl p : queue_same p p.
Proof. by destruct p. Qed.
#[local] Hint Resolve queue_same_refl : core.

Lemma queue_same_ring p p' : queue_same p p' → ring_wf p → ring_wf p' ∧ ring_contents p' = ring_contents p.
Proof. intros -> []. by split. Qed.

(** The cell of a dequeued task during an enqueue: the task, or the new one. *)
Lemma cell_stamped_pushed p cell x :
  ring_wf p → pk_index x = tp_index p → cell_stamped p cell → cell_stamped (pushed p x) cell.
Proof.
  intros Hp Hx (y & Hy & Hiy). pose proof (at_index_lt _ _ _ Hy) as Hlt.
  rewrite (ring_length p Hp) in Hlt.
  unfold cell_stamped. rewrite pushed_cell by (done || lia).
  change (tp_index (pushed p x)) with (tp_index p). case_decide; eauto.
Qed.

Section sub_step.
Context (s : cstate) (Hs : cinv s) (i : nat) (pc : submitter) (Hi : cs_subs s !! i = Some pc).

(** The number of holders after a submitter has moved. *)
Lemma holders_sub pc' s' :
  cs_subs s' = cs_subs s → cs_worker s' = cs_worker s →
  (holders (s' <| cs_subs ::= <[i := pc']> |>) + Nat.b2n (sub_holds pc)
   = holders s + Nat.b2n (sub_holds pc'))%nat.
Proof.
  intros Hsubs Hwk. unfold holders. cbn. rewrite Hsubs, Hwk.
  pose proof (sum_list_with_insert (λ pc, Nat.b2n (sub_holds pc)) _ _ _ pc' Hi) as H. cbn in H. lia.
Qed.

(** A step of a submitter outside the critical section. *)
Lemma sub_outside pc' s' :
  queue_same (cs_pool s) (cs_pool s') → tp_flag (cs_pool s') = tp_flag (cs_pool s) →
  cs_subs s' = cs_subs s → cs_worker s' = cs_worker s →
  cs_accepted s' = cs_accepted s → cs_taken s' = cs_taken s →
  sub_stamped (tp_index (cs_pool s)) pc' →
  (Nat.b2n (cs_locked s) + Nat.b2n (sub_holds pc')
   = Nat.b2n (cs_locked s') + Nat.b2n (sub_holds pc))%nat →
  cinv (s' <| cs_subs ::= <[i := pc']> |>).
Proof.
  intros Hq Hflag Hsubs Hwk Hacc Htk Hst Hlk. destruct Hs as [Hwf Hf Hl Hsub Hw Hsa Hfifo].
  destruct (queue_same_ring _ _ Hq Hwf) as [Hwf' Hc'].
  pose proof (holders_sub pc' s' Hsubs Hwk) as Hh.
  assert (tp_index (cs_pool s') = tp_index (cs_pool s)) as Hidx by (by rewrite Hq).
  split.
  - done.
  - cbn. by rewrite Hflag.
  - change (cs_locked (s' <| cs_subs ::= <[i := pc']> |>)) with (cs_locked s'). lia.
  - cbn. rewrite Hsubs, Hidx. by apply Forall_insert.
  - unfold worker_ok in *. cbn. rewrite Hwk. unfold cell_stamped in *. by rewrite Hq.
  - cbn. by rewrite Hacc, Hidx.
  - cbn. by rewrite Hacc, Htk, Hc'.
Qed.

(** Who is inside the critical section holds the lock. *)
Lemma sub_holds_locked : sub_holds pc = true → cs_locked s = true.
Proof.
  intros Hpc. pose proof (holders_sub (SubCheck []) s eq_refl eq_refl) as Hh.
  rewrite Hpc, (inv_lock _ Hs) in Hh. by destruct (cs_locked s); [|cbn in Hh; lia].
Qed.

Lemma sub_critical_cinv pkg todo :
  pc = SubCritical pkg todo → tp_size (cs_pool s) < tp_reserved (cs_pool s) →
  cinv (s <| cs_pool := pushed (cs_pool s) pkg |> <| cs_accepted ::= λ l, l ++ [pkg] |>
          <| cs_subs ::= <[i := SubUnlock todo]> |>).
Proof.
  intros Hpc Hroom. destruct Hs as [Hwf Hf Hl Hsub Hw Hsa Hfifo].
  assert (pk_index pkg = tp_index (cs_pool s)) as Hpkg.
  { pose proof (Forall_lookup_1 _ _ _ _ Hsub Hi) as Hst. by rewrite Hpc in Hst. }
  pose proof (holders_sub (SubUnlock todo) s eq_refl eq_refl) as Hh. rewrite Hpc in Hh.
  split.
  - by apply pushed_wf.
  - done.
  - change (holders (s <| cs_subs ::= <[i := SubUnlock todo]> |>) = Nat.b2n (cs_locked s)).
    cbn [sub_holds Nat.b2n] in Hh. lia.
  - by apply Forall_insert.
  - unfold worker_ok in *. cbn. destruct (cs_worker s); try done.
    + lia.
    + lia.
    + by apply cell_stamped_pushed.
    + by apply cell_stamped_pushed.
  - apply Forall_app. by rewrite Forall_singleton.
  - cbn -[ring_contents pushed]. by rewrite pushed_contents, Hfifo, app_assoc.
Qed.

End sub_step.

Lemma sub_step_cinv s i pc pc' s' :
  cinv s → cs_subs s !! i = Some pc → room s → sub_step pc s pc' s' →
  cinv (s' <| cs_subs ::= <[i := pc']> |>).
Proof.
  intros Hs Hi Hroom Hstep. pose proof (sub_holds_locked s Hs i pc Hi) as Hlk.
  pose proof (sub_outside s Hs i pc Hi) as Hout.
  pose proof (Forall_lookup_1 _ _ _ _ (inv_subs _ Hs) Hi) as Hst.
  destruct Hstep as [s pkg todo|s pkg todo|s pkg todo Hfree|s pkg todo ptr pool Hq|s todo
    |s todo z Hz|s todo|s todo|s todo].
  - by apply Hout.
  - by apply Hout.
  - apply Hout; cbn; auto. by rewrite Hfree.
  - assert (tp_size (cs_pool s) < tp_reserved (cs_pool s)) as Hsz.
    { apply (Hroom pkg todo). by eapply list_elem_of_lookup_2. }
    rewrite queue_enqueue in Hq by (done || apply Hs). simplify_eq. by eapply sub_critical_cinv.
  - apply Hout; cbn; auto. by rewrite Hlk.
  - apply Hout; cbn; auto. by destruct (cs_pool s).
  - apply Hout; auto; by destruct (_ <=? _).
  - apply Hout; auto; by destruct (has _ _).
  - apply Hout; cbn; auto.
Qed.

(** A step of the worker outside the critical section. *)
Lemma worker_outside s pc' s' :
  cinv s → queue_same (cs_pool s) (cs_pool s') →
  (tp_flag (cs_pool s') = 0 ∨ tp_flag (cs_pool s') = 6) →
  cs_subs s' = cs_subs s → cs_accepted s' = cs_accepted s → cs_taken s' = cs_taken s →
  worker_ok (s <| cs_worker := pc' |>) →
  (Nat.b2n (cs_locked s) + Nat.b2n (worker_holds pc')
   = Nat.b2n (cs_locked s') + Nat.b2n (worker_holds (cs_worker s)))%nat →
  cinv (s' <| cs_worker := pc' |>).
Proof.
  intros [Hwf Hf Hl Hsub Hw Hsa Hfifo] Hq Hflag Hsubs Hacc Htk Hw' Hlk.
  destruct (queue_same_ring _ _ Hq Hwf) as [Hwf' Hc'].
  assert (tp_index (cs_pool s') = tp_index (cs_pool s)) as Hidx by (by rewrite Hq).
  split; cbn.
  - done.
  - done.
  - unfold holders in *. cbn. rewrite Hsubs. lia.
  - by rewrite Hsubs, Hidx.
  - unfold worker_ok in *. cbn in *. unfold cell_stamped in *. by rewrite Hq.
  - by rewrite Hacc, Hidx.
  - by rewrite Hacc, Htk, Hc'.
Qed.

Lemma worker_critical_cinv s x :
  cinv s → cs_worker s = WkCritical → at_index (tp_packages (cs_pool s)) (tp_head (cs_pool s)) = Some x →
  cinv (s <| cs_pool := popped (cs_pool s) |> <| cs_taken ::= λ l, l ++ [x] |>
          <| cs_worker := WkUnlock (tp_head (cs_pool s)) |>).
Proof.
  intros [Hwf Hf Hl Hsub Hw Hsa Hfifo] Hpc Hx. unfold worker_ok in Hw. rewrite Hpc in Hw.
  destruct (popped_contents _ Hwf Hw) as (y & Hy & Hc). simplify_eq.
  split; cbn -[ring_contents popped].
  - by apply popped_wf.
  - done.
  - unfold holders in *. cbn. by rewrite Hpc in Hl.
  - done.
  - exists x. split; [done|]. rewrite Hfifo, Hc in Hsa.
    apply Forall_app in Hsa as [_ Hsa]. by apply Forall_cons in Hsa as [? _].
  - done.
  - by rewrite Hfifo, Hc, <-app_assoc.
Qed.

Lemma worker_step_cinv s pc' s' :
  cinv s → worker_step (cs_worker s) s pc' s' → cinv (s' <| cs_worker := pc' |>).
Proof.
  intros Hs Hstep. pose proof (inv_flag s Hs) as Hf. pose proof (inv_worker s Hs) as Hw.
  pose proof (worker_outside s) as Hout. unfold worker_ok in *.
  remember (cs_worker s) as pc eqn:Hpc. symmetry in Hpc.
  destruct Hstep as [s|s Hfree|s cell x pool Hq Hx|s cell|s cell x Hx task|s t Ht|s|s|s|s Hp|s].
  - apply Hout; auto; case_decide; done.
  - apply Hout; cbn; auto. by rewrite Hfree.
  - rewrite queue_dequeue in Hq by (done || apply Hs). simplify_eq. by apply worker_critical_cinv.
  - apply Hout; cbn; auto. pose proof (inv_lock s Hs) as Hl. unfold holders in Hl.
    rewrite Hpc in Hl. cbn in Hl. destruct (cs_locked s); [done|cbn in Hl; lia].
  - destruct Hw as (y & Hy & Hiy). simplify_eq. subst task. rewrite stamp_same by done.
    apply Hout; cbn; auto; by rewrite write_cell_same.
  - apply Hout; cbn; auto. by destruct (cs_pool s).
  - apply Hout; cbn; auto. by destruct (cs_pool s).
  - apply Hout; cbn; auto; [by destruct (cs_pool s)|]. by destruct Hf as [-> | ->]; [right|left].
  - apply Hout; cbn; auto; [by destruct (cs_pool s)|]. by destruct Hf as [-> | ->]; [right|left].
  - apply Hout; cbn; auto.
  - apply Hout; cbn; auto; [by destruct (cs_pool s)|]. by destruct Hf as [-> | ->]; [right|left].
Qed.

Lemma step_cinv s s' : cinv s → room s → step s s' → cinv s'.
Proof. intros Hs Hroom []; eauto using sub_step_cinv, worker_step_cinv. Qed.

(** *** One submitter: the size it has checked is an upper bound *)

(** The worker never makes the queue longer. *)
Lemma worker_step_size s pc' s' :
  cinv s → worker_step (cs_worker s) s pc' s' →
  cs_subs s' = cs_subs s ∧ tp_reserved (cs_pool s') = tp_reserved (cs_pool s) ∧
  tp_size (cs_pool s') <= tp_size (cs_pool s).
Proof.
  intros Hs Hstep. pose proof (inv_worker s Hs) as Hw. unfold worker_ok in Hw.
  destruct Hstep as [| |? ? ? ? Hq| | | | | | | |]; try (by split_and!).
  rewrite queue_dequeue in Hq by (done || apply Hs). simplify_eq. cbn. split_and!; [done..|lia].
Qed.

Definition sub_has_room (pool : schTaskPool) (pc : submitter) : Prop :=
  match pc with
  | SubLock _ _ | SubCritical _ _ => tp_size pool < tp_reserved pool
  | _ => True
  end.

Lemma single_room s pc : cs_subs s = [pc] → sub_has_room (cs_pool s) pc → room s.
Proof. intros Hsubs Hpc pkg todo. rewrite Hsubs, list_elem_of_singleton. by intros <-. Qed.

Lemma single_step s s' pc :
  cinv s → cs_subs s = [pc] → sub_has_room (cs_pool s) pc → step s s' →
  ∃ pc', cs_subs s' = [pc'] ∧ sub_has_room (cs_pool s') pc'.
Proof.
  intros Hs Hsubs Hpc [i pc0 pc' s1 Hi Hstep|pc' s1 Hstep].
  - rewrite Hsubs in Hi. destruct i; [|done]. simplify_eq/=. exists pc'.
    destruct Hstep; cbn; rewrite Hsubs; (split; [done|]); cbn in *; try done.
    + by destruct (_ <=? _).
    + by destruct (has _ _).
  - destruct (worker_step_size s pc' s1 Hs Hstep) as (Hs1 & Hr & Hsz). exists pc.
    cbn. split; [by rewrite Hs1|]. destruct pc; cbn in *; lia || done.
Qed.

Lemma single_reach s s' pc :
  cinv s → cs_subs s = [pc] → sub_has_room (cs_pool s) pc → rtc step s s' →
  cinv s' ∧ ∃ pc', cs_subs s' = [pc'] ∧ sub_has_room (cs_pool s') pc'.
Proof.
  intros Hs Hsubs Hpc Hrtc. revert pc Hs Hsubs Hpc.
  induction Hrtc as [s|s s1 s2 Hstep _ IH]; intros pc Hs Hsubs Hpc; [by eauto|].
  destruct (single_step s s1 pc) as (pc1 & Hsubs1 & Hpc1); [done..|].
  apply (IH pc1); [|done..]. by eapply step_cinv, Hstep; [|eapply single_room].
Qed.

(** *** A queue that never fills: each task runs once *)

(** The task the worker has taken and not started, and the cell it is in: the one
    before the head, which the next enqueue does not reach. *)
Definition held (s : cstate) : list schTaskPackage :=
  match cs_worker s with
  | WkUnlock cell | WkFetch cell => default [] ((λ x, [x]) <$> at_index (tp_packages (cs_pool s)) cell)
  | _ => []
  end.

Definition held_cell (s : cstate) : Prop :=
  match cs_worker s with
  | WkUnlock cell | WkFetch cell =>
      0 <= cell < tp_reserved (cs_pool s) ∧
      tp_head (cs_pool s) = (cell + 1) mod tp_reserved (cs_pool s)
  | _ => True
  end.

Record once_inv (s : cstate) : Prop := {
  once_cinv : cinv s;
  once_cell : held_cell s;
  once_ran : cs_taken s = cs_ran s ++ held s;
}.

(** A step to a state whose queue is not full. *)
Definition roomy_step (s s' : cstate) : Prop :=
  tp_size (cs_pool s) < tp_reserved (cs_pool s) ∧ step s s' ∧
  tp_size (cs_pool s') < tp_reserved (cs_pool s').

(** An enqueue that leaves a cell free does not touch the cell before the head. *)
Lemma pushed_before_head p cell x :
  ring_wf p → 0 <= cell < tp_reserved p → tp_head p = (cell + 1) mod tp_reserved p →
  tp_size p + 1 < tp_reserved p →
  at_index (tp_packages (pushed p x)) cell = at_index (tp_packages p) cell.
Proof.
  intros Hp Hc Hh Hs. rewrite pushed_cell by done. apply decide_False. intros Heq.
  pose proof (ring_size p Hp). rewrite (ring_tail p Hp), Hh, Zplus_mod_idemp_l in Heq.
  assert (0 = 1 + tp_size p); [|lia]. apply (ring_pos_inj (tp_reserved p) cell); [lia..|].
  rewrite Z.add_assoc, <-Heq. by rewrite Z.add_0_r, Z.mod_small.
Qed.

Lemma once_sub_step s i pc pc' s' :
  once_inv s → cs_subs s !! i = Some pc → tp_size (cs_pool s) < tp_reserved (cs_pool s) →
  sub_step pc s pc' s' → tp_size (cs_pool s') < tp_reserved (cs_pool s') →
  once_inv (s' <| cs_subs ::= <[i := pc']> |>).
Proof.
  intros [Hs Hcell Hran] Hi Hsz Hstep Hsz'. split.
  { eapply sub_step_cinv; [done..| |done]. by intros ???. }
  all: unfold held_cell, held in *; destruct Hstep as [| | |s pkg todo ptr pool Hq| | | | |]; try done.
  all: rewrite queue_enqueue in Hq by (done || apply Hs); simplify_eq; cbn -[pushed] in *.
  - by destruct (cs_worker s).
  - destruct (cs_worker s); try done.
    + destruct Hcell. by rewrite pushed_before_head by (done || apply Hs).
    + destruct Hcell. by rewrite pushed_before_head by (done || apply Hs).
Qed.

Lemma once_worker_step s pc' s' :
  once_inv s → worker_step (cs_worker s) s pc' s' → once_inv (s' <| cs_worker := pc' |>).
Proof.
  intros [Hs Hcell Hran] Hstep. split; [by eapply worker_step_cinv| |].
  all: unfold held_cell, held in *; pose proof (inv_worker s Hs) as Hw; unfold worker_ok in Hw;
    remember (cs_worker s) as pc eqn:Hpc; symmetry in Hpc.
  all: destruct Hstep as [s|s Hfree|s cell x pool Hq Hx|s cell|s cell x Hx task|s t Ht|s|s|s|s Hp|s];
    cbn -[queue_critical] in *; try done; try (case_decide; done).
  - rewrite queue_dequeue in Hq by (done || apply Hs). simplify_eq. cbn.
    split; [apply (ring_head (cs_pool s) (inv_ring s Hs))|done].
  - rewrite app_nil_r in Hran. by rewrite Hx, Hran.
  - destruct Hw as (y & Hy & Hiy). rewrite Hx in Hran, Hy.
    injection Hy as ->. cbn in Hran. subst task. by rewrite stamp_same, app_nil_r.
Qed.

Lemma once_reach s s' : once_inv s → rtc roomy_step s s' → once_inv s'.
Proof.
  intros Hs Hrtc. induction Hrtc as [|s s1 s2 (Hsz & Hstep & Hsz1) _ IH]; [done|].
  apply IH. destruct Hstep; eauto using once_sub_step, once_worker_step.
Qed.

Lemma initial_once s : initial s → once_inv s.
Proof.
  intros Hs. split; [by apply initial_cinv| |]; destruct Hs as (_ & _ & _ & _ & Hwk & _ & _ & Htk & Hran).
  - unfold held_cell. by rewrite Hwk.
  - unfold held. by rewrite Hwk, Htk, Hran.
Qed.

(** *** Runs *)

(** The threads at their start, with a pool and the submits to make. *)
Definition start (pool : schTaskPool) (todos : list (list schTaskPackage)) : cstate :=
  mkCState pool false false (SubCheck <$> todos) WkCheck [] [] [].

(** An empty queue of one cell. *)
Definition one_cell : schTaskPool := mkPool 0 0 0 0 0 0 0 1 0 [ex_task 0] 0 0 0 0 0 0 0 0.

Lemma one_cell_wf : ring_wf one_cell.
Proof. split; vm_compute; intuition discriminate. Qed.

Lemma start_initial pool todos :
  ring_wf pool → tp_size pool = 0 → tp_flag pool = 0 → initial (start pool todos).
Proof.
  intros Hwf Hs Hf. split_and!; try done; [by left|]. apply Forall_fmap, Forall_true. by eexists.
Qed.

(** One step of submitter [i], of the worker, by the named rule. *)
Ltac sub_goes i rule :=
  eapply rtc_l; [eapply (step_sub _ i); [reflexivity|eapply rule; reflexivity]|]; cbn.
Ltac sub_moves i rule := eapply rtc_l; [eapply (step_sub _ i); [reflexivity|eapply rule]|]; cbn.
Ltac worker_goes rule := eapply rtc_l; [eapply step_worker, rule; reflexivity|]; cbn.
Ltac worker_ends :=
  eapply rtc_l; [eapply step_worker, wk_finish with (taskInvoke := 0); reflexivity|]; cbn.
Ltac worker_moves rule := eapply rtc_l; [eapply step_worker, rule|]; cbn.

(** ** Properties *)

(** With one submitting thread, in every state the threads can reach: the ring is well
    formed, the spin lock is held exactly when one thread is in the critical section and
    never by two, no enqueue meets a full queue and no dequeue an empty one, and the tasks
    accepted are the tasks dequeued followed by the queue, in order: none is lost, repeated
    or reordered between the submitter and the worker. *)
Theorem single_submitter_safe s0 s pc0 :
  initial s0 → cs_subs s0 = [pc0] → rtc step s0 s →
  ring_wf (cs_pool s) ∧
  holders s = Nat.b2n (cs_locked s) ∧
  (∀ pkg todo, SubCritical pkg todo ∈ cs_subs s → tp_size (cs_pool s) < tp_reserved (cs_pool s)) ∧
  (cs_worker s = WkCritical → 0 < tp_size (cs_pool s)) ∧
  cs_accepted s = cs_taken s ++ ring_contents (cs_pool s).
Proof.
  intros H0 Hsubs Hreach. pose proof H0 as (_ & _ & _ & _ & _ & Hpcs & _).
  rewrite Hsubs in Hpcs. apply Forall_singleton in Hpcs as [todo ->].
  destruct (single_reach s0 s (SubCheck todo)) as (Hs & pc & Hpc & Hroom); [by apply initial_cinv|done..|].
  split_and!; try apply Hs.
  - by eapply single_room.
  - intros Hwk. pose proof (inv_worker s Hs) as Hw. unfold worker_ok in Hw. by rewrite Hwk in Hw.
Qed.

(** The submitter about to write its task into the queue of three cells. *)
Definition ex_writing : cstate :=
  mkCState ex_ring true false [SubCritical (ex_task 5) []] WkIdle [] [] [].

Lemma ex_writing_reached : rtc step (start ex_ring [[ex_task 5]]) ex_writing.
Proof.
  sub_goes 0%nat sub_room. worker_moves wk_check. sub_goes 0%nat sub_lock. apply rtc_refl.
Qed.

Lemma single_submitter_safe_witness :
  ring_wf (cs_pool ex_writing) ∧ holders ex_writing = 1%nat ∧
  (∀ pkg todo, SubCritical pkg todo ∈ cs_subs ex_writing →
     tp_size (cs_pool ex_writing) < tp_reserved (cs_pool ex_writing)) ∧
  (cs_worker ex_writing = WkCritical → 0 < tp_size (cs_pool ex_writing)) ∧
  cs_accepted ex_writing = cs_taken ex_writing ++ ring_contents (cs_pool ex_writing).
Proof.
  apply (single_submitter_safe (start ex_ring [[ex_task 5]]) ex_writing (SubCheck [ex_task 5])).
  - by apply start_initial; [exact ex_ring_wf|..].
  - reflexivity.
  - exact ex_writing_reached.
Defined.

(** With any number of submitting threads, while the queue does not fill up, each
    accepted task is started by the worker once, in the order of the submits: the started
    tasks, the one the worker holds, and the queue are together the accepted tasks. *)
Theorem tasks_start_once s0 s :
  initial s0 → rtc roomy_step s0 s →
  cs_accepted s = cs_ran s ++ held s ++ ring_contents (cs_pool s) ∧
  (length (held s) <= 1)%nat ∧
  (cs_worker s = WkSleep ∨ cs_worker s = WkCheck → held s = []) ∧
  ring_wf (cs_pool s) ∧ holders s = Nat.b2n (cs_locked s).
Proof.
  intros H0 Hreach. destruct (once_reach s0 s (initial_once _ H0) Hreach) as [Hs Hcell Hran].
  split_and!; try apply Hs.
  - by rewrite (inv_fifo s Hs), Hran, app_assoc.
  - unfold held. destruct (cs_worker s); try (cbn; lia); destruct (at_index _ _); cbn; lia.
  - unfold held. by intros [-> | ->].
Qed.

(** Two submitters have each put a task into the queue of three cells, and the worker has
    taken the first. *)
Definition ex_taken : list schTaskPackage := [ex_task 6; ex_task 0; ex_task 5].
Definition ex_pool_taken : schTaskPool :=
  ex_ring <| tp_packages := ex_taken |> <| tp_size := 1 |> <| tp_tail := 1 |> <| tp_head := 0 |>.
Definition ex_holding : cstate :=
  mkCState ex_pool_taken false false [SubPrio []; SubPrio []] (WkFetch 2)
    [ex_task 5; ex_task 6] [ex_task 5] [].

Ltac roomy_sub i rule :=
  eapply rtc_l; [split_and!; [reflexivity|eapply (step_sub _ i); [reflexivity|eapply rule; reflexivity]|
    reflexivity]|]; cbn.
Ltac roomy_worker rule :=
  eapply rtc_l; [split_and!; [reflexivity|eapply step_worker, rule; reflexivity|reflexivity]|]; cbn.

Lemma ex_holding_reached : rtc roomy_step (start ex_ring [[ex_task 5]; [ex_task 6]]) ex_holding.
Proof.
  roomy_sub 0%nat sub_room. roomy_sub 1%nat sub_room.
  roomy_sub 0%nat sub_lock. roomy_sub 0%nat sub_critical. roomy_sub 0%nat sub_unlock.
  eapply rtc_l; [split_and!; [reflexivity|eapply step_worker, wk_check|reflexivity]|]; cbn.
  roomy_worker wk_lock. roomy_worker wk_critical. roomy_worker wk_unlock.
  roomy_sub 1%nat sub_lock. roomy_sub 1%nat sub_critical. roomy_sub 1%nat sub_unlock.
  apply rtc_refl.
Qed.

Lemma tasks_start_once_witness :
  cs_accepted ex_holding = cs_ran ex_holding ++ held ex_holding ++ ring_contents (cs_pool ex_holding) ∧
  (length (held ex_holding) <= 1)%nat ∧
  (cs_worker ex_holding = WkSleep ∨ cs_worker ex_holding = WkCheck → held ex_holding = []) ∧
  ring_wf (cs_pool ex_holding) ∧ holders ex_holding = 0%nat.
Proof.
  apply (tasks_start_once (start ex_ring [[ex_task 5]; [ex_task 6]]) ex_holding).
  - by apply start_initial; [exact ex_ring_wf|..].
  - exact ex_holding_reached.
Defined.

(** C31: two submitting threads can both find room in the last free cell, which the check
    outside the lock does not reserve: the second enqueue writes over the first task, the
    size exceeds the number of cells, and the queue holds the second task twice. *)
Theorem two_submitters_overflow x y :
  initial (start one_cell [[x]; [y]]) ∧
  ∃ s, rtc step (start one_cell [[x]; [y]]) s ∧
    tp_size (cs_pool s) = 2 ∧ tp_reserved (cs_pool s) = 1 ∧
    cs_accepted s = [queued_package one_cell x; queued_package one_cell y] ∧
    ring_contents (cs_pool s) = [queued_package one_cell y; queued_package one_cell y].
Proof.
  split; [by apply start_initial; [exact one_cell_wf|..]|]. eexists. split.
  - sub_goes 0%nat sub_room. sub_goes 1%nat sub_room.
    sub_goes 0%nat sub_lock. sub_goes 0%nat sub_critical. sub_moves 0%nat sub_unlock.
    sub_goes 1%nat sub_lock. sub_goes 1%nat sub_critical. apply rtc_refl.
  - done.
Qed.

(** C32: one submitting thread is enough to lose a task that was accepted: when the queue
    fills up between the dequeue of a task and the read of its cell, the worker starts the
    new task in its place, and then once more when its turn comes. *)
Theorem task_repeated_when_full x y :
  initial (start one_cell [[x; y]]) ∧
  ∃ s, rtc step (start one_cell [[x; y]]) s ∧
    cs_subs s = [SubCheck []] ∧ cs_worker s = WkCheck ∧ tp_size (cs_pool s) = 0 ∧
    cs_accepted s = [queued_package one_cell x; queued_package one_cell y] ∧
    cs_taken s = [queued_package one_cell x; queued_package one_cell y] ∧
    cs_ran s = [queued_package one_cell y; queued_package one_cell y].
Proof.
  split; [by apply start_initial; [exact one_cell_wf|..]|]. eexists. split.
  - sub_goes 0%nat sub_room. sub_goes 0%nat sub_lock. sub_goes 0%nat sub_critical.
    sub_moves 0%nat sub_unlock. sub_goes 0%nat sub_prio. sub_moves 0%nat sub_read_size.
    sub_moves 0%nat sub_read_flag.
    worker_moves wk_check. worker_goes wk_lock. worker_goes wk_critical. worker_moves wk_unlock.
    sub_goes 0%nat sub_room. sub_goes 0%nat sub_lock. sub_goes 0%nat sub_critical.
    sub_moves 0%nat sub_unlock. sub_goes 0%nat sub_prio. sub_moves 0%nat sub_read_size.
    sub_moves 0%nat sub_read_flag.
    worker_goes wk_fetch. worker_ends.
    worker_moves wk_check. worker_goes wk_lock. worker_goes wk_critical. worker_moves wk_unlock.
    worker_goes wk_fetch. worker_ends. apply rtc_refl.
  - done.
Qed.
