(* ===== verification/Threads.v ===== *)
(** * Threads as programs of shared accesses

    A thread is a program whose actions are single accesses of a shared state; threads run
    interleaved, one action at a time.  Four ways to reason about them: [tracks], a program
    logic in which every thread carries a ghost state and every action keeps an invariant of
    the shared state and of all ghost states; [alone], a thread that nobody interrupts;
    [exec], a run along a given schedule, by computation; and [costs], the steps of one thread
    whatever the others do. *)
From S2P Require Import Prelude.

(** What an access does: wait, reach undefined behaviour, or answer an integer. *)
Inductive access (S : Type) : Type :=
  | Blocks
  | Faults
  | Goes (z : Z) (s : S).
Arguments Blocks {_}.
Arguments Faults {_}.
Arguments Goes {_} _ _.

(** A turn of a loop: go on with the local variables [x], or leave with [z]. *)
Inductive turn (X : Type) : Type :=
  | Again (x : X)
  | Stop (z : Z).
Arguments Again {_} _.
Arguments Stop {_} _.

(** [Fail] is undefined behaviour that involves no access, [Choose] takes any value that
    [ok] allows, and [Iter] is a loop with local variables of type [X]. *)
Inductive proc (S A : Type) : Type :=
  | Ret (a : A)
  | Fail
  | Act (f : S → access S) (k : Z → proc S A)
  | Choose (ok : Z → bool) (k : Z → proc S A)
  | Iter (X : Set) (x : X) (body : X → proc S (turn X)) (k : Z → proc S A).
Arguments Ret {_ _} _.
Arguments Fail {_ _}.
Arguments Act {_ _} _ _.
Arguments Choose {_ _} _ _.
Arguments Iter {_ _ _} _ _ _.

Fixpoint proc_bind {S A B} (k : A → proc S B) (p : proc S A) : proc S B :=
  match p with
  | Ret a => k a
  | Fail => Fail
  | Act f h => Act f (λ z, proc_bind k (h z))
  | Choose ok h => Choose ok (λ z, proc_bind k (h z))
  | Iter x body h => Iter x body (λ z, proc_bind k (h z))
  end.

#[export] Instance proc_mret {S} : MRet (proc S) := λ A, Ret.
#[export] Instance proc_mbind {S} : MBind (proc S) := λ A B, proc_bind.

(** Single actions, loops, and computations on local variables. *)
Definition act {S} (f : S → access S) : proc S Z := Act f Ret.
Definition choose {S} (ok : Z → bool) : proc S Z := Choose ok Ret.
Definition iter {S} {X : Set} (x : X) (body : X → proc S (turn X)) : proc S Z := Iter x body Ret.
Definition local {S A} (o : outcome A) : proc S A :=
  match o with Done a => Ret a | _ => Fail end.

(** The program after one turn of a loop. *)
Definition after_turn {S A} {X : Set} (body : X → proc S (turn X)) (k : Z → proc S A) (t : turn X) : proc S A :=
  match t with Again x => Iter x body k | Stop z => k z end.

(** ** Running *)

Inductive thread_step {S A} : proc S A → S → proc S A → S → Prop :=
  | step_act f k s z s' : f s = Goes z s' → thread_step (Act f k) s (k z) s'
  | step_choose ok k s z : ok z = true → thread_step (Choose ok k) s (k z) s
  | step_iter (X : Set) (x : X) body k s :
      thread_step (Iter x body k) s (proc_bind (after_turn body k) (body x)) s.

(** A thread that is about to reach undefined behaviour. *)
Definition faults {S A} (p : proc S A) (s : S) : Prop :=
  match p with Fail => True | Act f _ => f s = Faults | _ => False end.

(** The threads and the state they share. *)
Definition config (S : Type) : Type := list (proc S ()) * S.

Inductive sys_step {S} : config S → config S → Prop :=
  | sys_thread ps s i p p' s' :
      ps !! i = Some p → thread_step p s p' s' → sys_step (ps, s) (<[i := p']> ps, s').

(** *** Along a schedule *)

(** One step; [z] is the value of a choice. *)
Definition thread_go {S A} (z : Z) (p : proc S A) (s : S) : option (proc S A * S) :=
  match p with
  | Ret _ | Fail => None
  | Act f k => match f s with Goes z s' => Some (k z, s') | _ => None end
  | Choose ok k => if ok z then Some (k z, s) else None
  | Iter x body k => Some (proc_bind (after_turn body k) (body x), s)
  end.

Fixpoint thread_run {S A} (n : nat) (z : Z) (p : proc S A) (s : S) : option (proc S A * S) :=
  match n with
  | O => Some (p, s)
  | S n => '(p', s') ← thread_go z p s; thread_run n z p' s'
  end.

(** A schedule: which thread runs, for how many steps, with which value for choices. *)
Fixpoint exec {S} (schedule : list (nat * nat * Z)) (c : config S) : option (config S) :=
  match schedule with
  | [] => Some c
  | (i, n, z) :: schedule =>
      p ← c.1 !! i;
      '(p', s') ← thread_run n z p c.2;
      exec schedule (<[i := p']> c.1, s')
  end.

Lemma thread_go_step {S A} z (p p' : proc S A) s s' :
  thread_go z p s = Some (p', s') → thread_step p s p' s'.
Proof.
  destruct p as [a| |f k|ok k|X x body k]; cbn; try done.
  - destruct (f s) eqn:Hf; try done. intros [= <- <-]. by constructor.
  - destruct (ok z) eqn:Hok; try done. intros [= <- <-]. by constructor.
  - intros [= <- <-]. constructor.
Qed.

Lemma thread_run_steps {S} n z (ps : list (proc S ())) i p p' s s' :
  ps !! i = Some p → thread_run n z p s = Some (p', s') →
  rtc sys_step (ps, s) (<[i := p']> ps, s').
Proof.
  revert ps p s. induction n as [|n IH]; intros ps p s Hi Hrun; cbn in Hrun.
  { simplify_eq. rewrite list_insert_id by done. apply rtc_refl. }
  destruct (thread_go z p s) as [[p1 s1]|] eqn:Hgo; [|done]. cbn in Hrun.
  eapply rtc_l; [eapply sys_thread; [done|by eapply thread_go_step]|].
  rewrite <-(list_insert_insert_eq ps i p' p1). apply (IH _ p1); [|done].
  apply list_lookup_insert_eq. by eapply lookup_lt_Some.
Qed.

Lemma exec_steps {S} schedule (c c' : config S) : exec schedule c = Some c' → rtc sys_step c c'.
Proof.
  revert c. induction schedule as [|[[i n] z] schedule IH]; intros [ps s] Hex; cbn in Hex.
  { simplify_eq. apply rtc_refl. }
  destruct (ps !! i) as [p|] eqn:Hi; [|done]. cbn in Hex.
  destruct (thread_run n z p s) as [[p' s']|] eqn:Hrun; [|done]. cbn in Hex.
  etransitivity; [by eapply thread_run_steps|by apply IH].
Qed.

(** Where a schedule leads; nowhere, if it cannot be followed. *)
Definition run {S} (schedule : list (nat * nat * Z)) (c : config S) : config S :=
  default c (exec schedule c).

Lemma run_steps {S} schedule (c : config S) : rtc sys_step c (run schedule c).
Proof.
  unfold run. destruct (exec schedule c) eqn:Hex; [by eapply exec_steps|apply rtc_refl].
Qed.

(** *** Without interruption *)

Inductive alone {S A : Type} : proc S A → S → A → S → Prop :=
  | alone_ret a s : alone (Ret a) s a s
  | alone_act f k s z s1 a s2 : f s = Goes z s1 → alone (k z) s1 a s2 → alone (Act f k) s a s2
  | alone_choose ok k s z a s2 : ok z = true → alone (k z) s a s2 → alone (Choose ok k) s a s2
  | alone_iter (X : Set) (x : X) body k s t s1 a s2 :
      alone (body x) s t s1 → alone (after_turn body k t) s1 a s2 → alone (Iter x body k) s a s2.

Lemma alone_bind {S A B} (p : proc S A) (k : A → proc S B) s a s1 b s2 :
  alone p s a s1 → alone (k a) s1 b s2 → alone (p ≫= k) s b s2.
Proof.
  intros Hp. revert k. induction Hp as [A a s|A f h s z s' a s1 Hf _ IH|A ok h s z a s1 Hok _ IH
    |A X x body h s t s' a s1 Hbody _ Hafter IH]; intros k Hk.
  - done.
  - econstructor; [done|by apply IH].
  - econstructor; [done|by apply IH].
  - econstructor; [done|]. specialize (IH k Hk). by destruct t.
Qed.

(** A thread that reaches undefined behaviour if nobody interrupts it. *)
Inductive doomed {S A : Type} : proc S A → S → Prop :=
  | doomed_here p s : faults p s → doomed p s
  | doomed_step p s p' s' : thread_step p s p' s' → doomed p' s' → doomed p s.

Lemma doomed_act {S A} f (k : Z → proc S A) s z s1 : f s = Goes z s1 → doomed (k z) s1 → doomed (Act f k) s.
Proof. intros Hf. apply doomed_step. by constructor. Qed.

Lemma doomed_after {S A B} (p : proc S A) (k : A → proc S B) s a s1 :
  alone p s a s1 → doomed (k a) s1 → doomed (p ≫= k) s.
Proof.
  intros Hp. revert k. induction Hp as [A a s|A f h s z s' a s1 Hf _ IH|A ok h s z a s1 Hok _ IH
    |A X x body h s t s' a s1 _ IHbody _ IH]; intros k Hk.
  - done.
  - eapply doomed_act; [exact Hf|by apply IH].
  - eapply doomed_step; [by constructor|by apply IH].
  - eapply doomed_step; [constructor|]. apply IHbody. specialize (IH k Hk). by destruct t.
Qed.

Lemma doomed_steps {S} (ps : list (proc S ())) i p s :
  ps !! i = Some p → doomed p s →
  ∃ ps' s' th, rtc sys_step (ps, s) (ps', s') ∧ ps' !! i = Some th ∧ faults th s'.
Proof.
  intros Hi Hd. revert ps Hi. induction Hd as [p s Hf|p s p' s' Hstep _ IH]; intros ps Hi.
  - exists ps, s, p. split_and!; [apply rtc_refl|done..].
  - destruct (IH (<[i := p']> ps)) as (ps2 & s2 & th & Hsteps & Hth).
    { apply list_lookup_insert_eq. by eapply lookup_lt_Some. }
    exists ps2, s2, th. split; [|done]. eapply rtc_l; [by econstructor|done].
Qed.

(** ** Tracking threads with ghost states *)

Section tracks.
Context {S L : Type}.
(** The shared state and the ghost states of the threads. *)
Variable Inv : S → list L → Prop.
(** When a thread may have to wait, and whether it may reach undefined behaviour. *)
Variable May : nat → S → list L → Prop.
Variable Undef : Prop.

(** Thread [i], with ghost state [ℓ], runs [p]: each action, from any state that satisfies
    the invariant, faults and waits only when it may, and keeps the invariant with a
    new ghost state for the thread; a choice is possible; at the end [Q] holds of the result and the ghost state. *)
Fixpoint tracks {A : Type} (i : nat) (p : proc S A) (ℓ : L) (Q : A → L → Prop) {struct p} : Prop :=
  match p with
  | Ret a => Q a ℓ
  | Fail => Undef
  | Act f k => ∀ s ls, Inv s ls → ls !! i = Some ℓ →
      match f s with
      | Blocks => May i s ls
      | Faults => Undef
      | Goes z s' => ∃ ℓ', Inv s' (<[i := ℓ']> ls) ∧ tracks i (k z) ℓ' Q
      end
  | Choose ok k => (∃ z, ok z = true) ∧ ∀ z, ok z = true → tracks i (k z) ℓ Q
  | Iter x body k => ∃ P : _ → L → Prop, P x ℓ ∧ ∀ y m, P y m →
      tracks i (body y) m (λ t m', match t with Again y' => P y' m' | Stop z => tracks i (k z) m' Q end)
  end.

Lemma tracks_mono {A : Type} i (p : proc S A) ℓ (Q R : A → L → Prop) :
  tracks i p ℓ Q → (∀ a m, Q a m → R a m) → tracks i p ℓ R.
Proof.
  revert ℓ Q R. induction p as [A a|A|A f k IH|A ok k IH|A X x body IHb k IHk]; intros ℓ Q R Hp HQR; cbn in *.
  - auto.
  - done.
  - intros s ls Hs Hi. specialize (Hp s ls Hs Hi). destruct (f s) as [| |z s']; try done.
    destruct Hp as (m & Hm & Hp). eauto.
  - destruct Hp. eauto.
  - destruct Hp as (P & HP & Hbody). exists P. split; [done|]. intros y m Hy.
    eapply IHb; [by apply Hbody|]. intros [y'|z] m' Ht; [done|]. by eapply IHk.
Qed.

Lemma tracks_bind {A B} i (p : proc S A) (k : A → proc S B) ℓ Q :
  tracks i p ℓ (λ a m, tracks i (k a) m Q) → tracks i (p ≫= k) ℓ Q.
Proof.
  revert k ℓ Q. induction p as [A a|A|A f h IH|A ok h IH|A X x body IHb h IHk]; intros k ℓ Q Hp; cbn in *.
  - done.
  - done.
  - intros s ls Hs Hi. specialize (Hp s ls Hs Hi). destruct (f s); try done.
    destruct Hp as (m & Hm & Hp). exists m. split; [done|]. by apply IH.
  - split; [apply Hp|]. intros z Hz. by apply IH, Hp.
  - destruct Hp as (P & HP & Hbody). exists P. split; [done|]. intros y m Hy.
    eapply tracks_mono; [by apply Hbody|]. intros [y'|z] m' Ht; [done|]. by apply IHk.
Qed.

Lemma tracks_step {A} i (p p' : proc S A) s s' ls ℓ Q :
  Inv s ls → ls !! i = Some ℓ → tracks i p ℓ Q → thread_step p s p' s' →
  ∃ ℓ', Inv s' (<[i := ℓ']> ls) ∧ tracks i p' ℓ' Q.
Proof.
  intros Hs Hi Hp Hstep. destruct Hstep as [f k s z s' Hf|ok k s z Hok|X x body k s]; cbn in Hp.
  - specialize (Hp s ls Hs Hi). by rewrite Hf in Hp.
  - exists ℓ. rewrite list_insert_id by done. split; [done|by apply Hp].
  - exists ℓ. rewrite list_insert_id by done. split; [done|].
    destruct Hp as (P & HP & Hbody). apply tracks_bind. eapply tracks_mono; [by apply Hbody|].
    intros [y|z] m Ht; cbn; [by exists P|done].
Qed.

(** Every thread tracks, to an end where [Post] holds of its ghost state. *)
Variable Post : nat → L → Prop.
Definition tracked (c : config S) : Prop :=
  ∃ ls, Inv c.2 ls ∧ length ls = length c.1 ∧
    ∀ i p ℓ, c.1 !! i = Some p → ls !! i = Some ℓ → tracks i p ℓ (λ _, Post i).

Lemma tracked_step c c' : tracked c → sys_step c c' → tracked c'.
Proof.
  intros Hc Hstep. destruct Hstep as [ps s i p p' s' Hp Hstep].
  destruct Hc as (ls & Hs & Hlen & Hls). cbn [fst snd] in *.
  destruct (lookup_lt_is_Some_2 ls i) as [ℓ Hℓ].
  { rewrite Hlen. by eapply lookup_lt_Some. }
  destruct (tracks_step i p p' s s' ls ℓ _ Hs Hℓ (Hls _ _ _ Hp Hℓ) Hstep) as (ℓ' & Hs' & Hp').
  exists (<[i := ℓ']> ls). cbn [fst snd]. split_and!; [done|by rewrite !length_insert|].
  intros j q m Hq Hm. destruct (decide (i = j)) as [<-|Hij].
  - rewrite list_lookup_insert_eq in Hq by (by eapply lookup_lt_Some).
    rewrite list_lookup_insert_eq in Hm by (by eapply lookup_lt_Some). by simplify_eq.
  - rewrite list_lookup_insert_ne in Hq by done.
    rewrite list_lookup_insert_ne in Hm by done. eauto.
Qed.

Lemma tracked_steps c c' : tracked c → rtc sys_step c c' → tracked c'.
Proof. intros Hc Hsteps. induction Hsteps; eauto using tracked_step. Qed.

Lemma tracked_no_fault c i p : ¬ Undef → tracked c → c.1 !! i = Some p → ¬ faults p c.2.
Proof.
  intros Hu (ls & Hs & Hlen & Hls) Hp Hfault. destruct (lookup_lt_is_Some_2 ls i) as [ℓ Hℓ].
  { rewrite Hlen. by eapply lookup_lt_Some. }
  specialize (Hls i p ℓ Hp Hℓ). destruct p as [a| |f k|ok k|X x body k]; cbn in *; try done.
  specialize (Hls _ _ Hs Hℓ). by rewrite Hfault in Hls.
Qed.

(** A thread that cannot step has ended, or waits where it may. *)
Lemma tracks_stuck {A : Type} i (p : proc S A) s ls ℓ (Q : A → L → Prop) :
  ¬ Undef → Inv s ls → ls !! i = Some ℓ → tracks i p ℓ Q → (∀ p' s', ¬ thread_step p s p' s') →
  (∃ a, p = Ret a ∧ Q a ℓ) ∨ May i s ls.
Proof.
  intros Hu Hs Hi Hp Hstuck. destruct p as [a| |f k|ok k|X x body k]; cbn in Hp.
  - eauto.
  - done.
  - specialize (Hp s ls Hs Hi). destruct (f s) as [| |z s'] eqn:Hf; [auto|done|].
    by destruct (Hstuck (k z) s'); constructor.
  - destruct Hp as [[z Hz] _]. by destruct (Hstuck (k z) s); constructor.
  - by destruct (Hstuck (proc_bind (after_turn body k) (body x)) s); constructor.
Qed.

(** *** Rules *)

Lemma tracks_ret {A} i (a : A) ℓ (Q : A → L → Prop) : Q a ℓ → tracks i (Ret a) ℓ Q.
Proof. done. Qed.

Lemma tracks_local {A} i (o : outcome A) a ℓ (Q : A → L → Prop) :
  o = Done a → Q a ℓ → tracks i (local o) ℓ Q.
Proof. by intros ->. Qed.

(** A loop, with its invariant. *)
Lemma tracks_iter {X : Set} (P : X → L → Prop) i x body ℓ (Q : Z → L → Prop) :
  P x ℓ → (∀ y m, P y m →
    tracks i (body y) m (λ t m', match t with Again y' => P y' m' | Stop z => Q z m' end)) →
  tracks i (iter x body) ℓ Q.
Proof. intros HP Hbody. by exists P. Qed.

(** An action that keeps the state and the ghost state. *)
Lemma tracks_act i f ℓ (Q : Z → L → Prop) :
  (∀ s ls, Inv s ls → ls !! i = Some ℓ →
    match f s with
    | Blocks => May i s ls
    | Faults => Undef
    | Goes z s' => ∃ ℓ', Inv s' (<[i := ℓ']> ls) ∧ Q z ℓ'
    end) → tracks i (act f) ℓ Q.
Proof. done. Qed.
End tracks.

(** ** How many steps a thread can make, whatever the others do *)

(** A run, with the thread that makes each step. *)
Inductive sys_run {S} : config S → list nat → config S → Prop :=
  | sys_run_nil c : sys_run c [] c
  | sys_run_cons ps s i p p' s' l c :
      ps !! i = Some p → thread_step p s p' s' → sys_run (<[i := p']> ps, s') l c →
      sys_run (ps, s) (i :: l) c.

Lemma sys_run_steps {S} (c c' : config S) l : sys_run c l c' → rtc sys_step c c'.
Proof.
  induction 1 as [c|ps s i p p' s' l c Hp Hstep _ IH]; [apply rtc_refl|].
  eapply rtc_l; [by eapply sys_thread|exact IH].
Qed.

(** The steps of a schedule. *)
Definition steps_of (schedule : list (nat * nat * Z)) : list nat :=
  schedule ≫= λ '(i, k, _), replicate k i.

Lemma sys_run_app {S} (c1 c2 c3 : config S) l1 l2 :
  sys_run c1 l1 c2 → sys_run c2 l2 c3 → sys_run c1 (l1 ++ l2) c3.
Proof. intros H1 H2. induction H1; [done|]. cbn. econstructor; eauto. Qed.

Lemma thread_run_run {S} k z (ps : list (proc S ())) i p p' s s' :
  ps !! i = Some p → thread_run k z p s = Some (p', s') →
  sys_run (ps, s) (replicate k i) (<[i := p']> ps, s').
Proof.
  revert ps p s. induction k as [|k IH]; intros ps p s Hi Hrun; cbn in Hrun.
  { simplify_eq. rewrite list_insert_id by done. constructor. }
  destruct (thread_go z p s) as [[p1 s1]|] eqn:Hgo; [|done]. cbn in Hrun.
  econstructor; [done|by eapply thread_go_step|].
  rewrite <-(list_insert_insert_eq ps i p' p1). apply (IH _ p1); [|done].
  apply list_lookup_insert_eq. by eapply lookup_lt_Some.
Qed.

Lemma exec_run {S} schedule (c c' : config S) :
  exec schedule c = Some c' → sys_run c (steps_of schedule) c'.
Proof.
  revert c. induction schedule as [|[[i k] z] schedule IH]; intros [ps s] Hex; cbn in Hex.
  { simplify_eq. constructor. }
  destruct (ps !! i) as [p|] eqn:Hi; [|done]. cbn in Hex.
  destruct (thread_run k z p s) as [[p' s']|] eqn:Hrun; [|done]. cbn in Hex.
  eapply sys_run_app; [by eapply thread_run_run|by apply IH].
Qed.

Lemma run_run {S} schedule (c : config S) :
  (if exec schedule c is Some _ then true else false) = true →
  sys_run c (steps_of schedule) ((run schedule c).1, (run schedule c).2).
Proof.
  unfold run. intros Hex. apply exec_run. destruct (exec schedule c) as [[]|]; done.
Qed.

Section costs.
Context {S : Type}.
(** What the others keep. *)
Variable J : S → Prop.

(** From states that satisfy [J], [p] ends within [k] steps of its own, and then [Q] holds of
    its result and of what is left of [k]. *)
Fixpoint costs {A : Type} (p : proc S A) (k : nat) (Q : A → nat → Prop) {struct p} : Prop :=
  match p with
  | Ret a => Q a k
  | Fail => True
  | Act f h => (0 < k)%nat ∧ ∀ s z s', J s → f s = Goes z s' → costs (h z) (pred k) Q
  | Choose ok h => (0 < k)%nat ∧ ∀ z, ok z = true → costs (h z) (pred k) Q
  | Iter x body h => ∃ P : _ → nat → Prop, P x k ∧ ∀ y m, P y m → (0 < m)%nat ∧
      costs (body y) (pred m) (λ t m', match t with Again y' => P y' m' | Stop z => costs (h z) m' Q end)
  end.

Lemma costs_mono {A : Type} (p : proc S A) k (Q R : A → nat → Prop) :
  costs p k Q → (∀ a m, Q a m → R a m) → costs p k R.
Proof.
  revert k Q R. induction p as [A a|A|A f h IH|A ok h IH|A X x body IHb h IHk]; intros k Q R Hp HQR; cbn in *.
  - auto.
  - done.
  - destruct Hp as [Hk Hp]. split; [done|]. intros s z s' Hs Hf. eapply IH; [by eapply Hp|done].
  - destruct Hp as [Hk Hp]. split; [done|]. intros z Hz. eapply IH; [by apply Hp|done].
  - destruct Hp as (P & HP & Hbody). exists P. split; [done|]. intros y m Hy.
    destruct (Hbody y m Hy) as [Hm Hb]. split; [done|].
    eapply IHb; [exact Hb|]. intros [y'|z] m' Ht; [done|]. by eapply IHk.
Qed.

Lemma costs_bind {A B} (p : proc S A) (g : A → proc S B) k Q :
  costs p k (λ a m, costs (g a) m Q) → costs (p ≫= g) k Q.
Proof.
  revert g k Q. induction p as [A a|A|A f h IH|A ok h IH|A X x body IHb h IHk]; intros g k Q Hp; cbn in *.
  - done.
  - done.
  - destruct Hp as [Hk Hp]. split; [done|]. intros s z s' Hs Hf. by eapply IH, Hp.
  - destruct Hp as [Hk Hp]. split; [done|]. intros z Hz. by eapply IH, Hp.
  - destruct Hp as (P & HP & Hbody). exists P. split; [done|]. intros y m Hy.
    destruct (Hbody y m Hy) as [Hm Hb]. split; [done|].
    eapply costs_mono; [exact Hb|]. intros [y'|z] m' Ht; [done|]. by apply IHk.
Qed.

Lemma costs_step {A} (p p' : proc S A) s s' k Q :
  J s → costs p k Q → thread_step p s p' s' → (0 < k)%nat ∧ costs p' (pred k) Q.
Proof.
  intros Hs Hp Hstep. destruct Hstep as [f h s z s' Hf|ok h s z Hok|X x body h s]; cbn in Hp.
  - destruct Hp as [Hk Hp]. split; [done|by eapply Hp].
  - destruct Hp as [Hk Hp]. split; [done|by eapply Hp].
  - destruct Hp as (P & HP & Hbody). destruct (Hbody x k HP) as [Hk Hb]. split; [done|].
    apply costs_bind. eapply costs_mono; [exact Hb|].
    intros [y|z] m Ht; cbn; [by exists P|done].
Qed.

(** A thread makes no more steps than it costs. *)
Lemma costs_run c l c' i p k Q :
  sys_run c l c' → (∀ c1, rtc sys_step c c1 → J c1.2) → c.1 !! i = Some p → costs p k Q →
  (length (filter (λ j, j = i) l) <= k)%nat.
Proof.
  intros Hrun. revert p k. induction Hrun as [c|ps s j q q' s' l c Hq Hstep _ IH]; intros p k HJ Hp Hc.
  { cbn. lia. }
  assert (∀ c1, rtc sys_step (<[j := q']> ps, s') c1 → J c1.2) as HJ'.
  { intros c1 Hc1. apply HJ. eapply rtc_l; [exact (sys_thread _ _ _ _ _ _ Hq Hstep)|done]. }
  pose proof (HJ _ (rtc_refl _ _)) as Hs. cbn [fst snd] in *. rewrite filter_cons. case_decide as Hji.
  - subst. rewrite Hq in Hp. injection Hp as <-.
    destruct (costs_step _ _ _ _ _ _ Hs Hc Hstep) as [Hk Hc']. cbn [length].
    assert (length (filter (λ j, j = i) l) <= pred k)%nat; [|lia].
    apply (IH q'); [done| |done]. cbn. apply list_lookup_insert_eq. by eapply lookup_lt_Some.
  - apply (IH p); [done| |done]. cbn. by rewrite list_lookup_insert_ne.
Qed.

(** *** Rules *)

Lemma costs_act r f k (Q : Z → nat → Prop) :
  (r < k)%nat → (∀ z m, (r <= m)%nat → Q z m) → costs (act f) k Q.
Proof. intros Hk HQ. split; [lia|]. intros s z s' _ _. apply HQ. lia. Qed.

Lemma costs_next f k (Q : Z → nat → Prop) :
  (0 < k)%nat → (∀ z, Q z (pred k)) → costs (act f) k Q.
Proof. intros Hk HQ. split; [done|]. intros s z s' _ _. apply HQ. Qed.

Lemma costs_read r f k (Q : Z → nat → Prop) :
  (r < k)%nat → (∀ s z s' m, J s → f s = Goes z s' → (r <= m)%nat → Q z m) → costs (act f) k Q.
Proof. intros Hk HQ. split; [lia|]. intros s z s' Hs Hf. eapply HQ; [done..|lia]. Qed.

Lemma costs_local {A} (o : outcome A) k (Q : A → nat → Prop) :
  (∀ a, o = Done a → Q a k) → costs (local o) k Q.
Proof. destruct o; cbn; auto. Qed.

Lemma costs_done {A} (o : outcome A) a k (Q : A → nat → Prop) :
  o = Done a → Q a k → costs (local o) k Q.
Proof. by intros ->. Qed.

Lemma costs_iter {X : Set} (P : X → nat → Prop) x body k (Q : Z → nat → Prop) :
  P x k → (∀ y m, P y m → (0 < m)%nat ∧
    costs (body y) (pred m) (λ t m', match t with Again y' => P y' m' | Stop z => Q z m' end)) →
  costs (iter x body) k Q.
Proof. intros HP Hbody. by exists P. Qed.
End costs.
