(* ===== verification/Potential.v ===== *)
(** * How many steps the threads make together

    [costs] of Threads.v bounds the steps of one thread, whatever the others do; but a thread
    that serves the others has no such bound.  Here a thread may also be paid by the shared
    state: [pays] gives every thread a budget, and the state a potential [Φ]; each step takes
    at least one from the sum of the two. *)
From S2P Require Import Prelude Threads.

Section pays.
Context {S : Type}.
(** What always holds, and the potential. *)
Variable J : S → Prop.
Variable Φ : S → Z.

(** From a budget of [b], which never becomes negative, [p] pays for its steps, and then [Q] holds
    of its result and of what is left. *)
Fixpoint pays {A : Type} (p : proc S A) (b : Z) (Q : A → Z → Prop) {struct p} : Prop :=
  0 <= b ∧
  match p with
  | Ret a => Q a b
  | Fail => True
  | Act f h => ∀ s z s', J s → J s' → f s = Goes z s' → ∃ b', b' + Φ s' < b + Φ s ∧ pays (h z) b' Q
  | Choose ok h => ∀ z, ok z = true → pays (h z) (b - 1) Q
  | Iter x body h => ∃ P : _ → Z → Prop, P x b ∧ ∀ y c, P y c →
      pays (body y) (c - 1) (λ t c', match t with Again y' => 0 <= c' ∧ P y' c' | Stop z => pays (h z) c' Q end)
  end.

Lemma pays_nonneg {A : Type} (p : proc S A) b Q : pays p b Q → 0 <= b.
Proof. by destruct p; intros [? _]. Qed.

Lemma pays_mono {A : Type} (p : proc S A) b (Q R : A → Z → Prop) :
  pays p b Q → (∀ a c, 0 <= c → Q a c → R a c) → pays p b R.
Proof.
  revert b Q R. induction p as [A a|A|A f h IH|A ok h IH|A X x body IHb h IHk]; intros b Q R [Hb Hp] HQR;
    (split; [done|]).
  - auto.
  - done.
  - intros s z s' Hs Hs' Hf. destruct (Hp s z s' Hs Hs' Hf) as (b' & Hb' & Hp'). exists b'. split; [done|]. by eapply IH.
  - intros z Hz. eapply IH; [by apply Hp|done].
  - destruct Hp as (P & HP & Hbody). exists P. split; [done|]. intros y c Hy.
    eapply IHb; [by apply Hbody|]. intros [y'|z] c' Hc Ht; [done|]. by eapply IHk.
Qed.

Lemma pays_bind {A B} (p : proc S A) (g : A → proc S B) b Q :
  pays p b (λ a c, pays (g a) c Q) → pays (p ≫= g) b Q.
Proof.
  revert g b Q. induction p as [A a|A|A f h IH|A ok h IH|A X x body IHb h IHk]; intros g b Q [Hb Hp]; cbn.
  - exact Hp.
  - done.
  - split; [done|]. intros s z s' Hs Hs' Hf. destruct (Hp s z s' Hs Hs' Hf) as (b' & Hb' & Hp'). exists b'. split; [done|]. by apply IH.
  - split; [done|]. intros z Hz. by apply IH, Hp.
  - split; [done|]. destruct Hp as (P & HP & Hbody). exists P. split; [done|]. intros y c Hy.
    eapply pays_mono; [by apply Hbody|]. intros [y'|z] c' Hc Ht; [done|]. by apply IHk.
Qed.

Lemma pays_step {A} (p p' : proc S A) s s' b Q :
  J s → J s' → pays p b Q → thread_step p s p' s' → ∃ b', b' + Φ s' < b + Φ s ∧ pays p' b' Q.
Proof.
  intros Hs Hs' Hp Hstep. destruct Hstep as [f h s z s' Hf|ok h s z Hok|X x body h s]; destruct Hp as [Hb Hp].
  - by eapply (Hp s).
  - exists (b - 1). split; [lia|by apply Hp].
  - destruct Hp as (P & HP & Hbody). exists (b - 1). split; [lia|]. apply pays_bind.
    eapply pays_mono; [by apply Hbody|]. intros [y|z] c Hc Ht; cbn; [|done].
    destruct Ht as [Hc' Ht]. split; [done|]. by exists P.
Qed.

(** *** A run of all the threads *)

Definition total (bs : list Z) : Z := foldr Z.add 0 bs.

Lemma total_insert bs i b b' : bs !! i = Some b → total (<[i := b']> bs) = total bs - b + b'.
Proof.
  unfold total. revert i. induction bs as [|c bs IH]; intros [|i] Hi; simpl in *; try done.
  - injection Hi as ->. lia.
  - rewrite (IH i Hi). lia.
Qed.

Lemma total_app bs cs : total (bs ++ cs) = total bs + total cs.
Proof. unfold total. induction bs as [|b bs IH]; simpl; [done|]. rewrite IH. lia. Qed.

Lemma total_replicate k b : total (replicate k b) = Z.of_nat k * b.
Proof. unfold total. induction k as [|k IH]; [done|]. simpl. rewrite IH. lia. Qed.

Lemma total_nonneg bs : Forall (λ b, 0 <= b) bs → 0 <= total bs.
Proof. unfold total. induction 1; cbn; lia. Qed.

Lemma pays_run c l c' bs :
  sys_run c l c' → (∀ c1, rtc sys_step c c1 → J c1.2) → length bs = length c.1 →
  (∀ i p b, c.1 !! i = Some p → bs !! i = Some b → pays p b (λ _ _, True)) →
  Z.of_nat (length l) + Φ c'.2 <= total bs + Φ c.2.
Proof.
  intros Hrun. revert bs. induction Hrun as [[ps s]|ps s i p p' s' l c Hp Hstep _ IH]; intros bs HJ Hlen Hall.
  { cbn in *. enough (0 <= total bs) by lia. apply total_nonneg, Forall_lookup. intros i b Hb.
    destruct (lookup_lt_is_Some_2 ps i) as [p Hp]; [rewrite <-Hlen; by eapply lookup_lt_Some|].
    eapply pays_nonneg, Hall; done. }
  destruct (lookup_lt_is_Some_2 bs i) as [b Hb]; [rewrite Hlen; by eapply lookup_lt_Some|].
  pose proof (HJ _ (rtc_once _ _ (sys_thread _ _ _ _ _ _ Hp Hstep))) as HJ'. cbn in HJ'.
  destruct (pays_step p p' s s' b _ (HJ _ (rtc_refl _ _)) HJ' (Hall i p b Hp Hb) Hstep) as (b' & Hless & Hp').
  specialize (IH (<[i := b']> bs)). cbn [fst snd length] in *. rewrite (total_insert _ _ _ _ Hb) in IH.
  enough (Z.of_nat (length l) + Φ c.2 <= total bs - b + b' + Φ s') by lia. apply IH.
  - intros c1 Hc1. apply HJ. eapply rtc_l; [exact (sys_thread _ _ _ _ _ _ Hp Hstep)|done].
  - by rewrite !length_insert.
  - intros j q c0 Hq Hc. destruct (decide (i = j)) as [<-|Hne].
    + rewrite list_lookup_insert_eq in Hq by (by eapply lookup_lt_Some).
      rewrite list_lookup_insert_eq in Hc by (by eapply lookup_lt_Some). injection Hq as <-. by injection Hc as <-.
    + rewrite list_lookup_insert_ne in Hq by done. rewrite list_lookup_insert_ne in Hc by done. by eapply Hall.
Qed.

(** *** Programs that leave the potential alone *)

Definition still (f : S → access S) : Prop := ∀ s z s', f s = Goes z s' → Φ s' = Φ s.

Fixpoint stills {A : Type} (p : proc S A) {struct p} : Prop :=
  match p with
  | Ret _ | Fail => True
  | Act f h => still f ∧ ∀ z, stills (h z)
  | Choose _ h => ∀ z, stills (h z)
  | Iter x body h => (∀ y, stills (body y)) ∧ ∀ z, stills (h z)
  end.

Lemma stills_bind {A B} (p : proc S A) (g : A → proc S B) : stills p → (∀ a, stills (g a)) → stills (p ≫= g).
Proof.
  intros Hp Hg. induction p as [A a|A|A f h IH|A ok h IH|A X x body IHb h IHk]; cbn in *.
  - apply Hg.
  - done.
  - destruct Hp as [Hf Hp]. split; [done|]. intros z. by apply IH.
  - intros z. by apply IH.
  - destruct Hp as [Hbody Hp]. split; [done|]. intros z. by apply IHk.
Qed.

(** Such a program pays what it costs. *)
Lemma costs_pays {A : Type} (p : proc S A) k e (Q : A → nat → Prop) :
  0 <= e → costs J p k Q → stills p →
  pays p (Z.of_nat k + e) (λ a b, ∃ m, b = Z.of_nat m + e ∧ Q a m).
Proof.
  intros He. revert k Q. induction p as [A a|A|A f h IH|A ok h IH|A X x body IHb h IHk]; intros k Q Hc Hp;
    cbn in Hc, Hp; (split; [lia|]).
  - eauto.
  - done.
  - destruct Hc as [Hk Hc], Hp as [Hf Hp]. intros s z s' Hs _ Hz. exists (Z.of_nat (pred k) + e).
    rewrite (Hf s z s' Hz). split; [lia|]. apply IH; [by eapply Hc|done].
  - destruct Hc as [Hk Hc]. intros z Hz. replace (Z.of_nat k + e - 1) with (Z.of_nat (pred k) + e) by lia.
    apply IH; [by apply Hc|done].
  - destruct Hc as (P & HP & Hbody), Hp as [Hb Hp].
    exists (λ y b, ∃ m, b = Z.of_nat m + e ∧ P y m). split; [eauto|]. intros y c (m & -> & Hy).
    destruct (Hbody y m Hy) as [Hm Hcb]. replace (Z.of_nat m + e - 1) with (Z.of_nat (pred m) + e) by lia.
    eapply pays_mono; [by apply IHb|]. intros [y'|z] c Hc (m' & -> & Ht); [split; [done|]; eauto|].
    by apply IHk.
Qed.

(** *** Rules *)

Lemma pays_ret {A} (a : A) b (Q : A → Z → Prop) : 0 <= b → Q a b → pays (Ret a) b Q.
Proof. by split. Qed.

(** An action that takes at most [d] out of the budget, or gives it. *)
Lemma pays_act f b d (Q : Z → Z → Prop) :
  0 <= b → (∀ s z s', J s → f s = Goes z s' → Φ s' <= Φ s + d) → 0 <= b - 1 - d →
  (∀ z, Q z (b - 1 - d)) → pays (act f) b Q.
Proof.
  intros Hb Hf Hd HQ. split; [done|]. intros s z s' Hs _ Hz. exists (b - 1 - d).
  specialize (Hf s z s' Hs Hz). split; [lia|]. by split.
Qed.

Lemma pays_still f b (Q : Z → Z → Prop) : still f → 0 < b → (∀ z, Q z (b - 1)) → pays (act f) b Q.
Proof.
  intros Hf Hb HQ. split; [lia|]. intros s z s' _ _ Hz. exists (b - 1). rewrite (Hf s z s' Hz).
  split; [lia|]. split; [lia|done].
Qed.

Lemma pays_local {A} (o : outcome A) b (Q : A → Z → Prop) :
  0 <= b → (∀ a, o = Done a → Q a b) → pays (local o) b Q.
Proof. intros Hb HQ. destruct o; (split; [done|]); cbn; auto. Qed.

Lemma pays_choose ok b (Q : Z → Z → Prop) :
  0 < b → (∀ z, ok z = true → Q z (b - 1)) → pays (choose ok) b Q.
Proof. intros Hb HQ. split; [lia|]. intros z Hz. split; [lia|auto]. Qed.

Lemma pays_iter {X : Set} (P : X → Z → Prop) x body b (Q : Z → Z → Prop) :
  0 <= b → P x b → (∀ y c, P y c →
    pays (body y) (c - 1) (λ t c', match t with Again y' => P y' c' | Stop z => Q z c' end)) →
  pays (iter x body) b Q.
Proof.
  intros Hb HP Hbody. split; [done|]. exists P. split; [done|]. intros y c Hy.
  eapply pays_mono; [by apply Hbody|]. by intros [y'|z] c' Hc Ht; split.
Qed.
End pays.
