(* ===== verification/System.v ===== *)
(** * The whole scheduler, interleaved access by access

    Client threads that submit to, wait for, stop and terminate a running scheduler
    ([schSubmitTask], [schWaitTaskWait], [schStopTaskSch] and [schTerminateTaskSch] of
    src/taskSch.c, with [schHeapify] of src/heapify.c), and the pool threads
    ([schPoolExecutor] of src/sch.c), as programs whose actions are the single accesses of the
    scheduler object.  The spin lock of the scheduler, the CONTINUE and the SIGTERM of each
    pool thread, and whether the thread lives, are part of the shared state; so are the mutex,
    the condition and the barrier of the scheduler.  Where the code calls these in a way that
    POSIX leaves undefined, the call does what the C library makes of it, and the misuse is
    recorded.  Accesses are sequentially consistent; the copy of a task by [memcpy] is one of
    them.  The DONE signal, which only wakes a client that polls anyway, has no effect but that
    its receiver has to be a thread.  A pool thread starts with its signal mask set
    ([Executor.schPoolExecutor] has that part too). *)
From S2P Require Import Prelude Errors Flags Structures Heapify TaskQueue Platform Executor Threads.

(** What happened: a task was written into a cell of pool [p], to be the [size]-th of its
    queue; it was counted, and the queue of [p] has [size] tasks;
    the worker of [p] called the function [callback] with the task [x]; it returned;
    [schWaitTask] is about to return; [schTerminateTaskSch] has stopped every pool; the thread
    of [p] called the [init] or the [deinit] function of its pool. *)
Inductive event : Type :=
  | Stored (p : Z) (size : Z)
  | Queued (p : Z) (x : schTaskPackage) (size : Z)
  | Started (p : Z) (callback : Z) (x : schTaskPackage)
  | Finished (p : Z)
  | Waited
  | Terminated
  | Prepared (p : Z) (init : Z)
  | Cleaned (p : Z) (deinit : Z).

(** A thread: it runs; it has returned; another thread has joined it. *)
Inductive life : Type := Alive | Returned | Joined.
#[export] Instance life_eq_dec : EqDecision life.
Proof. solve_decision. Defined.

(** Who uses the mutex, the condition or the barrier: a client, or the thread of a pool. *)
Inductive who : Type := Client (i : nat) | Pool (p : Z).
#[export] Instance who_eq_dec : EqDecision who.
Proof. solve_decision. Defined.

(** Calls that POSIX leaves undefined: the unlock of a mutex by a thread that does not hold
    it, a wait on a condition with such a mutex, the initialisation of a barrier that is
    initialised. *)
Inductive misuse : Type :=
  | UnlockUnheld (w : who)
  | WaitUnheld (w : who)
  | BarrierAgain.

(** [sch->mutex] with the thread that holds it; of every pool, whether [pool->mutex] is locked,
    which only the thread of the pool uses; the threads that wait on [sch->conditional], and
    how many of them a signal has woken; the count of [sch->barrier], if it is initialised; the
    misuses so far. *)
Record sync : Type := mkSync {
  sn_mutex : option who;
  sn_pmutex : list bool;
  sn_waiters : nat;
  sn_wakes : nat;
  sn_barrier : option Z;
  sn_misuse : list misuse;
}.

(** The object and the spin lock; of every pool thread, whether CONTINUE and SIGTERM are
    pending, and its life; the history; the mutex, the condition and the barrier. *)
Record sys : Type := mkSys {
  sy_ts : schTaskSch;
  sy_spin : bool;
  sy_pending : list bool;
  sy_terms : list bool;
  sy_life : list life;
  sy_events : list event;
  sy_sync : sync;
}.

#[local] Abbreviation P := (proc sys).

(** ** Accesses *)

(** An access of the object, or undefined behaviour. *)
Definition read_or_fault (f : schTaskSch → option Z) (s : sys) : access sys :=
  match f (sy_ts s) with Some z => Goes z s | None => Faults end.
Definition write_or_fault (f : schTaskSch → outcome schTaskSch) (s : sys) : access sys :=
  match f (sy_ts s) with Done ts => Goes 0 (s <| sy_ts := ts |>) | _ => Faults end.

(** [sch->field], read and, for the flag word, changed. *)
Definition rd (f : schTaskSch → Z) : P Z := act (read_or_fault (λ ts, Some (f ts))).
Definition wr_flag (f : Z → Z) : P Z :=
  act (write_or_fault (λ ts, Done (ts <| ts_flag ::= f |>))).

(** [sch->pool[p].field], read and written. *)
Definition rd_pool (p : Z) (f : schTaskPool → Z) : P Z :=
  act (read_or_fault (λ ts, f <$> at_index (ts_pools ts) p)).
Definition wr_pool (p : Z) (f : schTaskPool → schTaskPool) : P Z :=
  act (write_or_fault (λ ts,
    pool ← deref (at_index (ts_pools ts) p);
    Done (ts <| ts_pools ::= <[Z.to_nat p := f pool]> |>))).

(** [sch->dheap[i]]; a pointer is the index of its pool. *)
Definition rd_dheap (i : Z) : P Z :=
  act (read_or_fault (λ ts, Z.of_nat <$> at_index (ts_dheaps ts) i)).
Definition wr_dheap (i p : Z) : P Z :=
  act (write_or_fault (λ ts, arr ← store (ts_dheaps ts) i (Z.to_nat p); Done (ts <| ts_dheaps := arr |>))).

(** [sch->pool[p].package[i]]: a field of it, and the whole of it written. *)
Definition rd_cell (p i : Z) (f : schTaskPackage → Z) : P Z :=
  act (read_or_fault (λ ts, pool ← at_index (ts_pools ts) p; f <$> at_index (tp_packages pool) i)).
Definition wr_cell (p i : Z) (f : schTaskPackage → schTaskPackage) : P Z :=
  act (write_or_fault (λ ts,
    pool ← deref (at_index (ts_pools ts) p);
    x ← deref (at_index (tp_packages pool) i);
    Done (ts <| ts_pools ::= <[Z.to_nat p := write_cell i (f x) pool]> |>))).

(** The spin lock of the scheduler. *)
Definition spin_lock : P Z :=
  act (λ s, if sy_spin s then Blocks else Goes 0 (s <| sy_spin := true |>)).
Definition spin_unlock : P Z := act (λ s, Goes 0 (s <| sy_spin := false |>)).

(** *** The mutex, the condition and the barrier *)

Definition misused (m : misuse) (y : sync) : sync := y <| sn_misuse ::= λ ms, ms ++ [m] |>.

(** An action on the mutex, the condition or the barrier: [None] waits. *)
Definition sync_act (f : sync → option sync) : P Z :=
  act (λ s, match f (sy_sync s) with Some y => Goes 0 (s <| sy_sync := y |>) | None => Blocks end).

(** [schMutexLock(sch->mutex)] and [schMutexUnLock(sch->mutex)].  The mutex does not check who
    unlocks it: it is free afterwards, whoever held it. *)
Definition mutex_take (w : who) (y : sync) : option sync :=
  match sn_mutex y with None => Some (y <| sn_mutex := Some w |>) | Some _ => None end.
Definition mutex_drop (m : misuse) (w : who) (y : sync) : sync :=
  (if decide (sn_mutex y = Some w) then y else misused m y) <| sn_mutex := None |>.
Definition mutex_lock (w : who) : P Z := sync_act (mutex_take w).
Definition mutex_unlock (w : who) : P Z := sync_act (λ y, Some (mutex_drop (UnlockUnheld w) w y)).

(** The same of [pool->mutex]. *)
Definition pmutex_take (p : Z) (y : sync) : option sync :=
  if default false (at_index (sn_pmutex y) p) then None else Some (y <| sn_pmutex ::= <[Z.to_nat p := true]> |>).
Definition pmutex_drop (m : misuse) (p : Z) (y : sync) : sync :=
  (if default false (at_index (sn_pmutex y) p) then y else misused m y) <| sn_pmutex ::= <[Z.to_nat p := false]> |>.

(** [schConditionalSignal]: it wakes a thread that waits, if there is one. *)
Definition cond_signal : P Z :=
  sync_act (λ y, Some (if (sn_wakes y <? sn_waiters y)%nat then y <| sn_wakes ::= S |> else y)).

(** [schConditionalWait]: it unlocks the mutex and starts to wait, both at once; it wakes up by
    a signal, or without one if [spurious]; then it locks the mutex again. *)
Definition cond_wake (spurious : bool) (y : sync) : option sync :=
  if (0 <? sn_wakes y)%nat then Some (y <| sn_wakes ::= pred |> <| sn_waiters ::= pred |>)
  else if spurious then Some (y <| sn_waiters ::= pred |>) else None.
Definition conditional_wait (drop : sync → sync) (take : sync → option sync) : P Z :=
  _ ← sync_act (λ y, Some ((drop y) <| sn_waiters ::= S |>));
  spurious ← choose (λ _, true);
  _ ← sync_act (cond_wake (spurious =? 0));
  sync_act take.

(** [schInitBarrier]. *)
Definition barrier_init (count : Z) : P Z :=
  sync_act (λ y, Some ((match sn_barrier y with None => y | Some _ => misused BarrierAgain y end)
                         <| sn_barrier := Some count |>)).

(** *** Threads

    [thread] is the handle read from pool [p]: undefined when it is null, or when the thread
    of [p] has been joined. *)
Definition thread_of (s : sys) (p thread : Z) : option life :=
  if decide (thread = NULL) then None else
  t ← at_index (sy_life s) p; if decide (t = Joined) then None else Some t.

(** [schRaiseThreadSignal]: a signal that is pending is not sent twice. *)
Definition raise (p thread : Z) (signal : Z) : P Z :=
  act (λ s, match thread_of s p thread with
            | None => Faults
            | Some _ =>
                Goes (err_code SCH_OK)
                  (if decide (signal = SIGTERM) then s <| sy_terms ::= <[Z.to_nat p := true]> |>
                   else s <| sy_pending ::= <[Z.to_nat p := true]> |>)
            end).

(** [schWaitThread]. *)
Definition join (p thread : Z) : P Z :=
  act (λ s, match thread_of s p thread with
            | None => Faults
            | Some Alive => Blocks
            | Some _ => Goes (err_code SCH_OK) (s <| sy_life ::= <[Z.to_nat p := Joined]> |>)
            end).

(** [schSignalWait] in the thread of pool [p], which waits for both signals; if both are
    pending, it may take either. *)
Definition take_signal (p : Z) (signal : Z) (s : sys) : option sys :=
  if decide (signal = SIGTERM) then
    if default false (at_index (sy_terms s) p) then Some (s <| sy_terms ::= <[Z.to_nat p := false]> |>) else None
  else
    if default false (at_index (sy_pending s) p) then Some (s <| sy_pending ::= <[Z.to_nat p := false]> |>) else None.
Definition receive (p first second : Z) : P Z :=
  act (λ s, match take_signal p first s with
            | Some s => Goes first s
            | None => match take_signal p second s with Some s => Goes second s | None => Blocks end
            end).
Definition signal_wait (p : Z) : P Z :=
  first ← choose (λ z, (z =? SCH_SIGNAL_CONTINUE) || (z =? SIGTERM));
  if first =? SIGTERM then receive p SIGTERM SCH_SIGNAL_CONTINUE else receive p SCH_SIGNAL_CONTINUE SIGTERM.

(** The thread of pool [p] returns. *)
Definition exit_thread (p : Z) : P Z :=
  act (λ s, Goes 0 (s <| sy_life ::= <[Z.to_nat p := Returned]> |>)).

(** The DONE signal to [schRefThread], the thread that created the scheduler. *)
Definition notify (thread : Z) : P Z :=
  act (λ s, if decide (thread = NULL) then Faults else Goes (err_code SCH_OK) s).

(** An entry of the history; the call of a task, undefined without a function. *)
Definition log (e : event) : P Z := act (λ s, Goes 0 (s <| sy_events ::= λ es, es ++ [e] |>)).
Definition log_started (p i callback : Z) : P Z :=
  act (λ s, match pool ← at_index (ts_pools (sy_ts s)) p; at_index (tp_packages pool) i with
            | Some x => if decide (callback = NULL) then Faults
                        else Goes 0 (s <| sy_events ::= λ es, es ++ [Started p callback x] |>)
            | None => Faults
            end).

(** ** The queue of a pool: [schQueueMutexEnDeQueue] *)

(** [memcpy(&package[tail], ...)] and [size++], with their entries in the history. *)
Definition store_task (p tail : Z) (x : schTaskPackage) : P Z :=
  act (λ s, match pool ← at_index (ts_pools (sy_ts s)) p; _ ← at_index (tp_packages pool) tail; Some pool with
            | None => Faults
            | Some pool =>
                Goes 0 (s <| sy_ts ::= λ ts, ts <| ts_pools ::= <[Z.to_nat p := write_cell tail x pool]> |> |>
                          <| sy_events ::= λ es, es ++ [Stored p (tp_size pool + 1)] |>)
            end).
Definition count_task (p size : Z) (x : schTaskPackage) : P Z :=
  act (λ s, match at_index (ts_pools (sy_ts s)) p with
            | None => Faults
            | Some pool =>
                Goes 0 (s <| sy_ts ::= λ ts, ts <| ts_pools ::= <[Z.to_nat p := pool <| tp_size := size |>]> |> |>
                          <| sy_events ::= λ es, es ++ [Queued p x size] |>)
            end).

Definition enqueue (p : Z) (x : schTaskPackage) : P () :=
  _ ← spin_lock;
  tail ← rd_pool p tp_tail;
  _ ← store_task p tail x;
  tail ← rd_pool p tp_tail;
  reserved ← rd_pool p tp_reserved;
  tail ← local (umod (u32 (tail + 1)) reserved);
  _ ← wr_pool p (λ pool, pool <| tp_tail := tail |>);
  size ← rd_pool p tp_size;
  _ ← count_task p (u32 (size + 1)) x;
  _ ← spin_unlock;
  mret ().

Definition dequeue (p : Z) : P Z :=
  _ ← spin_lock;
  size ← rd_pool p tp_size;
  _ ← wr_pool p (λ pool, pool <| tp_size := u32 (size - 1) |>);
  cell ← rd_pool p tp_head;
  head ← rd_pool p tp_head;
  reserved ← rd_pool p tp_reserved;
  head ← local (umod (u32 (head + 1)) reserved);
  _ ← wr_pool p (λ pool, pool <| tp_head := head |>);
  _ ← spin_unlock;
  mret cell.

(** ** The heap: [restoreDown] and [schHeapify] *)

(** [arr[i]->dheapPriority]. *)
Definition heap_key_at (i : Z) : P Z := p ← rd_dheap i; rd_pool p tp_dheapPriority.

(** The search for the smallest child reads the key of a smaller child again. *)
Fixpoint min_child_at (child : list Z) (min_child : Z) (min_child_index : option Z) :
    P (Z * option Z) :=
  match child with
  | [] => mret (min_child, min_child_index)
  | c :: child =>
      if decide (c ≠ -1) then
        key ← heap_key_at c;
        if key <? min_child then key ← heap_key_at c; min_child_at child key (Some c)
        else min_child_at child min_child min_child_index
      else min_child_at child min_child min_child_index
  end.

(** One turn of [while (1)]. *)
Definition restore_turn (len k index : Z) : P (turn Z) :=
  child ← local (fill_children len index k);
  '(min_child, min_child_index) ← min_child_at child LONG_MAX None;
  if min_child =? LONG_MAX then mret (Stop 0) else
  m ← local (deref min_child_index);
  a ← rd_dheap index;
  b ← rd_dheap m;
  ka ← rd_pool a tp_dheapPriority;
  kb ← rd_pool b tp_dheapPriority;
  _ ← (if kb <? ka then _ ← wr_dheap index b; wr_dheap m a else mret 0);
  mret (Again m).

Definition restore_down (len index k : Z) : P Z := iter index (restore_turn len k).

Fixpoint heapify_from (n : Z) (idxs : list Z) : P () :=
  match idxs with
  | [] => mret ()
  | i :: idxs => _ ← restore_down n i SCH_HEAP_BREATH; heapify_from n idxs
  end.

Definition heapify_all : P () :=
  num ← rd ts_num;
  let n := s32 num in
  n1 ← local (checked is_int (n - 1));
  heapify_from n (heapify_indices (n1 `quot` SCH_HEAP_BREATH)).

(** ** The clients *)

(** [schSubmitTask] from the point where the pool is chosen. *)
Definition submit_pool (p : Z) (pkg : schTaskPackage) : P Z :=
  size ← rd_pool p tp_size;
  reserved ← rd_pool p tp_reserved;
  if decide (size >= reserved) then mret (err_code SCH_ERROR_POOL_FULL) else
  index ← rd_pool p tp_index;
  _ ← enqueue p (pkg <| pk_index := index |>);
  prio ← rd_pool p tp_dheapPriority;
  prio ← local (checked is_long (prio + 1000));
  _ ← wr_pool p (λ pool, pool <| tp_dheapPriority := prio |>);
  size ← rd_pool p tp_size;
  if size <=? 1 then
    flag ← rd_pool p tp_flag;
    if has flag SCH_POOL_SLEEP then
      thread ← rd_pool p tp_thread;
      sent ← raise p thread SCH_SIGNAL_CONTINUE;
      if negb (truthy sent) then mret (err_code SCH_ERROR_SIGNAL) else
      num ← rd ts_num;
      _ ← barrier_init (s32 num);
      mret (err_code SCH_OK)
    else mret (err_code SCH_OK)
  else mret (err_code SCH_OK).

Definition submit (pkg : schTaskPackage) (pPool : option Z) : P Z :=
  flag ← rd ts_flag;
  if negb (has flag SCH_FLAG_RUNNING) then mret (err_code SCH_ERROR_INVALID_STATE) else
  flag ← rd ts_flag;
  if negb (has flag SCH_FLAG_INIT) then mret (err_code SCH_ERROR_INVALID_STATE) else
  if decide (pk_callback pkg = NULL) then mret (err_code SCH_ERROR_INVALID_ARG) else
  _ ← heapify_all;
  p ← (match pPool with None => rd_dheap 0 | Some p => mret p end);
  submit_pool p pkg.

(** The signal that the poll of [schWaitTaskWait] waits for, up to a time, may come or not. *)
Definition poll : P Z := choose (λ _, true).

(** [schWaitTaskWait]; [i--] and the [i++] of the loop stay at the pool. *)
Definition wait_turn (i : Z) : P (turn Z) :=
  num ← rd ts_num;
  if decide (num <= i) then mret (Stop 0) else
  flag ← rd_pool i tp_flag;
  if has flag SCH_POOL_SLEEP then
    size ← rd_pool i tp_size;
    if size <=? 0 then mret (Again (i + 1)) else _ ← poll; mret (Again i)
  else _ ← poll; mret (Again i).

(** [while (!(sch->flag & SCH_FLAG_RUNNING)) schConditionalWait(..)]. *)
Definition await_turn (w : who) (_ : ()) : P (turn ()) :=
  flag ← rd ts_flag;
  if has flag SCH_FLAG_RUNNING then mret (Stop 0) else
  _ ← conditional_wait (mutex_drop (WaitUnheld w) w) (mutex_take w);
  mret (Again ()).
Definition await_running (w : who) : P Z := iter () (await_turn w).

Definition wait_all (w : who) : P Z :=
  flag ← rd ts_flag;
  if negb (has flag SCH_FLAG_RUNNING) then mret (err_code SCH_ERROR_INVALID_STATE) else
  _ ← mutex_lock w;
  _ ← await_running w;
  _ ← mutex_unlock w;
  _ ← iter 0 wait_turn;
  _ ← log Waited;
  mret (err_code SCH_OK).

(** [schStopTaskSch], which wakes every pool. *)
Definition stop_turn (i : Z) : P (turn Z) :=
  num ← rd ts_num;
  if decide (num <= i) then mret (Stop (err_code SCH_OK)) else
  thread ← rd_pool i tp_thread;
  status ← raise i thread SCH_SIGNAL_CONTINUE;
  if decide (status ≠ err_code SCH_OK) then mret (Stop (err_code SCH_ERROR_INTERNAL)) else mret (Again (i + 1)).

Definition stop_all : P Z :=
  flag ← rd ts_flag;
  if negb (has flag SCH_FLAG_INIT) then mret (err_code SCH_ERROR_INVALID_STATE) else
  flag ← rd ts_flag;
  if negb (has flag SCH_FLAG_RUNNING) then mret (err_code SCH_ERROR_INVALID_STATE) else
  iter 0 stop_turn.

(** [schTerminateTaskSch].  An object that nobody uses is destroyed without an error. *)
Definition destroy (x : Z) (field : schTaskPool → Z) (status : Z) : P Z :=
  object ← rd_pool x field;
  if decide (object = NULL) then mret status else
  object ← rd_pool x field;
  mret (Z.land status (err_code SCH_OK)).

Definition terminate_turn (i : Z * Z) : P (turn (Z * Z)) :=
  let '(x, status) := i in
  num ← rd ts_num;
  if decide (num <= x) then mret (Stop status) else
  thread ← rd_pool x tp_thread;
  if decide (thread = NULL) then mret (Again (x + 1, status)) else
  thread ← rd_pool x tp_thread;
  r ← raise x thread SIGTERM;
  let status := Z.land status r in
  thread ← rd_pool x tp_thread;
  r ← join x thread;
  let status := Z.land status r in
  _ ← wr_pool x (λ pool, pool <| tp_thread := NULL |>);
  _ ← wr_pool x (λ pool, pool <| tp_schRefThread := NULL |>);
  status ← destroy x tp_mutex status;
  status ← destroy x tp_set status;
  _ ← wr_pool x (λ pool, pool <| tp_mutex := NULL |>);
  _ ← wr_pool x (λ pool, pool <| tp_set := NULL |>);
  mret (Again (x + 1, status)).

Definition terminate_all (w : who) : P Z :=
  flag ← rd ts_flag;
  if negb (has flag SCH_FLAG_INIT) then mret (err_code SCH_OK) else
  flag ← rd ts_flag;
  if negb (has flag SCH_FLAG_RUNNING) then mret (err_code SCH_OK) else
  status ← wait_all w;
  status ← iter (0, status) terminate_turn;
  _ ← wr_flag (λ flag, Z.land flag (Z.lnot SCH_FLAG_RUNNING));
  _ ← log Terminated;
  mret (if truthy status then err_code SCH_OK else err_code SCH_ERROR_UNKNOWN).

(** The calls a client makes, one after the other. *)
Inductive client_op : Type :=
  | CSubmit (pkg : schTaskPackage) (pPool : option Z)
  | CWait
  | CStop
  | CTerminate.

Definition client_call (w : who) (op : client_op) : P Z :=
  match op with
  | CSubmit pkg pPool => submit pkg pPool
  | CWait => wait_all w
  | CStop => stop_all
  | CTerminate => terminate_all w
  end.

Fixpoint client (w : who) (ops : list client_op) : P () :=
  match ops with
  | [] => mret ()
  | op :: ops => _ ← client_call w op; client w ops
  end.

(** ** The pool threads *)

Section worker.
(** The values the measured time of a task may have. *)
Variable clock : Z → bool.

(** [setPoolIdle] and [setPoolRunning], atomic operations on the flag word. *)
Definition set_flag (p : Z) (f : Z → Z) : P Z := wr_pool p (λ pool, pool <| tp_flag ::= f |>).

(** The wait for CONTINUE: zero when the thread is to leave. *)
Definition sleep_turn (p : Z) (_ : ()) : P (turn ()) :=
  signal ← signal_wait p;
  match on_signal signal with
  | Leave => mret (Stop 0)
  | WaitMore => mret (Again ())
  | GoOn => mret (Stop 1)
  end.

Definition worker_turn (p index : Z) (_ : ()) : P (turn ()) :=
  size ← rd_pool p tp_size;
  if decide (0 < size) then
    cell ← dequeue p;
    callback ← rd_cell p cell pk_callback;
    _ ← wr_cell p cell (λ x, x <| pk_index := index |>);
    _ ← log_started p cell callback;
    taskInvoke ← choose clock;
    _ ← log (Finished p);
    _ ← wr_pool p (λ pool, pool <| tp_avergeDeque := 0 |>);
    _ ← wr_pool p (λ pool, pool <| tp_dheapPriority := taskInvoke |>);
    mret (Again ())
  else
    _ ← wr_pool p (λ pool, pool <| tp_dheapPriority := 0 |>);
    _ ← set_flag p SchC.setPoolIdle;
    _ ← mutex_unlock (Pool p);
    _ ← cond_signal;
    _ ← set_flag p SchC.setPoolIdle;
    thread ← rd_pool p tp_schRefThread;
    _ ← notify thread;
    go ← iter () (sleep_turn p);
    if decide (go = 0) then mret (Stop 0) else
    _ ← set_flag p SchC.setPoolRunning;
    mret (Again ()).

(** [while (isRunning(pool)) schConditionalWait(..)], at the start of the thread. *)
Definition align_turn (p : Z) (_ : ()) : P (turn ()) :=
  flag ← rd_pool p tp_flag;
  if truthy (SchC.isRunning flag) then
    _ ← conditional_wait (pmutex_drop (WaitUnheld (Pool p)) p) (pmutex_take p);
    mret (Again ())
  else mret (Stop 0).
Definition align (p : Z) : P Z := iter () (align_turn p).

(** [if (pool->init) pool->init(pool)], and [if (pool->deinit) pool->deinit(pool)]. *)
Definition hook (p : Z) (field : schTaskPool → Z) (called : Z → event) : P Z :=
  callback ← rd_pool p field;
  if decide (callback = NULL) then mret 0 else
  callback ← rd_pool p field;
  log (called callback).

(** The thread of pool [p]: its start, the main loop, and what follows the label [done]. *)
Definition pool_thread (p : Z) : P () :=
  index ← rd_pool p tp_index;
  _ ← align p;
  _ ← hook p tp_init (Prepared p);
  _ ← iter () (worker_turn p index);
  _ ← hook p tp_deinit (Cleaned p);
  _ ← set_flag p SchC.setPoolTerminated;
  _ ← exit_thread p;
  mret ().

(** The clients first, then one thread per pool. *)
Definition threads (clients : list (list client_op)) (pools : nat) : list (P ()) :=
  imap (λ i, client (Client i)) clients ++ (pool_thread <$> seqZ 0 (Z.of_nat pools)).
End worker.
