(* ===== verification/SystemQueue.v ===== *)
(** * One queue of the interleaved scheduler

    What the invariant of the interleaved scheduler says of one pool: the ring, the history
    of the pool, and the tasks its worker has taken, with the worker's position.  The ring
    may hold more tasks than it has cells, as it does after two clients have both passed the
    check for the last cell. *)
From S2P Require Import Prelude Errors Flags Structures Heapify TaskQueue Threads.
From S2P Require Import System ExecutorFacts Concurrency.

(** ** The history of a pool *)

Definition queued (p : Z) (es : list event) : list schTaskPackage :=
  omap (λ e, match e with Queued q x _ => if decide (q = p) then Some x else None | _ => None end) es.
Definition started (p : Z) (es : list event) : list (Z * schTaskPackage) :=
  omap (λ e, match e with Started q c x => if decide (q = p) then Some (c, x) else None | _ => None end) es.
Definition finished (p : Z) (es : list event) : list () :=
  omap (λ e, match e with Finished q => if decide (q = p) then Some () else None | _ => None end) es.

(** The enqueues never overflowed the [r] cells; they never went to the last free one. *)
Definition fits (p r : Z) (es : list event) : Prop := ∀ x size, Queued p x size ∈ es → size <= r.
Definition roomy (p r : Z) (es : list event) : Prop := ∀ size, Stored p size ∈ es → size < r.

Lemma fits_app p r es1 es2 : fits p r (es1 ++ es2) → fits p r es1 ∧ fits p r es2.
Proof. intros H. split; intros x size He; apply (H x), elem_of_app; auto. Qed.

Lemma fits_snoc p r es e :
  fits p r es → (∀ x size, e = Queued p x size → size <= r) → fits p r (es ++ [e]).
Proof.
  intros Hes He x size [Hin|Hin]%elem_of_app; [by eapply Hes|].
  apply list_elem_of_singleton in Hin. by eapply He.
Qed.

Lemma roomy_app p r es1 es2 : roomy p r (es1 ++ es2) ↔ roomy p r es1 ∧ roomy p r es2.
Proof.
  unfold roomy. setoid_rewrite elem_of_app. split; [|by intros [H1 H2] size [?|?]; auto].
  intros H. split; auto.
Qed.

Lemma roomy_snoc p r es size : roomy p r (es ++ [Stored p size]) → size < r.
Proof. intros H. apply H, elem_of_app. right. by left. Qed.

Lemma queued_app p es1 es2 : queued p (es1 ++ es2) = queued p es1 ++ queued p es2.
Proof. apply omap_app. Qed.
Lemma started_app p es1 es2 : started p (es1 ++ es2) = started p es1 ++ started p es2.
Proof. apply omap_app. Qed.
Lemma finished_app p es1 es2 : finished p (es1 ++ es2) = finished p es1 ++ finished p es2.
Proof. apply omap_app. Qed.

(** The pool an event is about. *)
Definition event_pool (e : event) : option Z :=
  match e with
  | Stored p _ | Queued p _ _ | Started p _ _ | Finished p => Some p
  | Waited | Terminated | Prepared _ _ | Cleaned _ _ => None
  end.

Lemma events_other p e es :
  event_pool e ≠ Some p →
  queued p (es ++ [e]) = queued p es ∧ started p (es ++ [e]) = started p es ∧
  finished p (es ++ [e]) = finished p es ∧
  (∀ r, fits p r (es ++ [e]) ↔ fits p r es) ∧ (∀ r, roomy p r (es ++ [e]) ↔ roomy p r es).
Proof.
  intros He. rewrite queued_app, started_app, finished_app.
  assert (∀ e', event_pool e' = Some p → e' ∈ es ++ [e] ↔ e' ∈ es) as Hin.
  { intros e' He'. rewrite elem_of_app, list_elem_of_singleton. split; [|auto].
    by intros [|<-]. }
  split_and!.
  - destruct e; cbn in *; rewrite ?decide_False by congruence; by rewrite app_nil_r.
  - destruct e; cbn in *; rewrite ?decide_False by congruence; by rewrite app_nil_r.
  - destruct e; cbn in *; rewrite ?decide_False by congruence; by rewrite app_nil_r.
  - intros r. unfold fits. split; intros H x size; specialize (H x size); by rewrite Hin in *.
  - intros r. unfold roomy. split; intros H size; specialize (H size); by rewrite Hin in *.
Qed.

(** ** The ring *)

(** A task that was put into the queue of the pool with index [idx]. *)
Definition good (idx : Z) (x : schTaskPackage) : Prop := pk_callback x ≠ NULL ∧ pk_index x = idx.

(** A ring of [r] cells, whose queued cells hold such tasks. *)
Record wring (r idx : Z) (v : schTaskPool) : Prop := {
  wr_reserved : tp_reserved v = r;
  wr_index : tp_index v = idx;
  wr_pos : 0 < r < UINT_MOD;
  wr_length : Z.of_nat (length (tp_packages v)) = r;
  wr_head : 0 <= tp_head v < r;
  wr_size : 0 <= tp_size v < UINT_MOD;
  wr_tail : tp_tail v = (tp_head v + tp_size v) mod r;
  wr_good : ∀ j, 0 <= j < tp_size v →
    ∃ x, at_index (tp_packages v) ((tp_head v + j) mod r) = Some x ∧ good idx x;
}.

Section wring.
Context (r idx : Z).

Lemma wring_tail v : wring r idx v → 0 <= tp_tail v < r.
Proof. intros [Hr Hi Hp Hl Hh Hsz -> Hg]. apply Z.mod_pos_bound. lia. Qed.

Lemma wring_wf v : wring r idx v → tp_size v <= r → ring_wf v.
Proof. intros [Hr Hi Hp Hl Hh Hsz Ht Hg] Hs. split; rewrite ?Hr; try done; lia. Qed.

(** The position after [i], as the code computes it. *)
Lemma wring_next v i : wring r idx v → 0 <= i < r → umod (u32 (i + 1)) r = Done ((i + 1) mod r).
Proof. intros [] Hi. rewrite u32_small by lia. unfold umod. by rewrite decide_False by lia. Qed.

(** A cell after a write at [tail]. *)
Lemma pushed_cell_at v x j :
  wring r idx v → 0 <= j < r →
  at_index (tp_packages (pushed v x)) j = if decide (j = tp_tail v) then Some x else at_index (tp_packages v) j.
Proof.
  intros Hv Hj. pose proof (wring_tail v Hv). pose proof (wr_length _ _ _ Hv).
  unfold pushed. cbn. rewrite !at_index_nat by lia. case_decide as Hjt.
  - subst. apply list_lookup_insert_eq. lia.
  - apply list_lookup_insert_ne. lia.
Qed.

(** A cell that holds a task keeps holding one. *)
Definition cell_good (v : schTaskPool) (h : Z) : Prop :=
  0 <= h < r ∧ ∃ x, at_index (tp_packages v) h = Some x ∧ good idx x.

Lemma cell_good_pushed v x h : wring r idx v → good idx x → cell_good v h → cell_good (pushed v x) h.
Proof.
  intros Hv Hx [Hh (y & Hy & Hg)]. split; [done|]. rewrite pushed_cell_at by done.
  case_decide; eauto.
Qed.

Lemma wring_push v x : wring r idx v → good idx x → tp_size v + 1 < UINT_MOD → wring r idx (pushed v x).
Proof.
  intros Hv Hx Hs. pose proof Hv as [Hr Hi Hpos Hl Hh Hsz Ht Hg].
  split; cbn -[at_index]; try done; try lia.
  - by rewrite length_insert.
  - rewrite Hr, Ht, Zplus_mod_idemp_l. f_equal. lia.
  - intros j Hj. enough (cell_good (pushed v x) ((tp_head v + j) mod r)) as [_ H] by exact H.
    destruct (decide (j = tp_size v)) as [->|].
    + split; [apply Z.mod_pos_bound; lia|]. rewrite pushed_cell_at; [|done|apply Z.mod_pos_bound; lia].
      rewrite decide_True by done. eauto.
    + apply cell_good_pushed; [done..|]. split; [apply Z.mod_pos_bound; lia|]. apply Hg. lia.
Qed.

Lemma wring_pop v : wring r idx v → 0 < tp_size v → wring r idx (popped v) ∧ cell_good v (tp_head v).
Proof.
  intros [Hr Hi Hpos Hl Hh Hsz Ht Hg] Hs. split.
  - split; cbn -[at_index]; try done; try lia.
    + rewrite Hr. apply Z.mod_pos_bound. lia.
    + rewrite Hr, Ht, Zplus_mod_idemp_l. f_equal. lia.
    + intros j Hj. destruct (Hg (j + 1)) as (x & Hx & Hgx); [lia|]. exists x. split; [|done].
      rewrite Hr, Zplus_mod_idemp_l. rewrite <-Hx. do 2 f_equal. lia.
  - split; [done|]. destruct (Hg 0) as (x & Hx & Hgx); [lia|]. exists x. split; [|done].
    rewrite <-Hx. by rewrite Z.add_0_r, Z.mod_small.
Qed.
End wring.

(** ** Positions *)

(** Where a thread is in its use of a queue.  A client: it has found room in the queue of
    pool [p]; it holds the lock, with the value of [tail] once it has read it; it has
    written the cell; it has advanced [tail], with the value of [size] once it has read it;
    it has written [size].  A worker: it has seen a task; it holds the lock; it has written
    [size], and takes the cell [h]; it has advanced [head]; it has released the lock; it has
    read the function of the task; it runs the task of the cell [h]; it leaves, after a
    SIGTERM; it has returned; it has not passed the alignment. *)
Inductive qpc : Type :=
  | QNone
  | QRoom (p : nat)
  | QLock (p : nat) (x : schTaskPackage) (tail : option Z)
  | QCell (p : nat) (x : schTaskPackage) (tail : option Z)
  | QTail (p : nat) (x : schTaskPackage) (size : option Z)
  | QDone (p : nat)
  | WSome (p : nat)
  | WLock (p : nat) (size : option Z)
  | WSize (p : nat) (h : Z)
  | WHold (p : nat) (h : Z)
  | WCell (p : nat) (h : Z)
  | WCall (p : nat) (h c : Z)
  | WRun (p : nat) (h : Z)
  | WLeave (p : nat)
  | WGone (p : nat)
  | WNew (p : nat).

(** Inside the critical section. *)
Definition holds (q : qpc) : bool :=
  match q with
  | QLock _ _ _ | QCell _ _ _ | QTail _ _ _ | QDone _ | WLock _ _ | WSize _ _ | WHold _ _ => true
  | _ => false
  end.

(** A client that has found room in the queue of [p] and has not counted its task yet. *)
Definition inflight (p : nat) (q : qpc) : bool :=
  match q with
  | QRoom p' | QLock p' _ _ | QCell p' _ _ | QTail p' _ _ => bool_decide (p' = p)
  | _ => false
  end.

(** The pool in memory, from the pool [v] that results when the thread inside the critical
    section has not begun ([QCell], [QTail]) or has ended ([WSize]). *)
Definition edit (q : qpc) (p : nat) (v : schTaskPool) : schTaskPool :=
  match q with
  | QCell p' x _ =>
      if decide (p' = p) then v <| tp_packages ::= <[Z.to_nat (tp_tail v) := x]> |> else v
  | QTail p' x _ =>
      if decide (p' = p)
      then v <| tp_packages ::= <[Z.to_nat (tp_tail v) := x]> |>
             <| tp_tail := (tp_tail v + 1) mod tp_reserved v |>
      else v
  | WSize p' h => if decide (p' = p) then v <| tp_head := h |> else v
  | _ => v
  end.

(** A worker that has taken a task and not started it, or that runs one, and the cell of that
    task. *)
Definition cell_of (q : qpc) : option Z :=
  match q with WSize _ h | WHold _ h | WCell _ h | WCall _ h _ => Some h | _ => None end.
Definition running (q : qpc) : option Z := match q with WRun _ h => Some h | _ => None end.
(** Whether a worker has passed the alignment, leaves, or has returned. *)
Inductive phase : Type := PNew | PWork | PLeave | PGone.
#[export] Instance phase_eq_dec : EqDecision phase.
Proof. solve_decision. Defined.

Definition left_of (q : qpc) : phase :=
  match q with WNew _ => PNew | WLeave _ => PLeave | WGone _ => PGone | _ => PWork end.

Definition held_task (v : schTaskPool) (q : qpc) : list schTaskPackage :=
  match cell_of q with Some h => option_list (at_index (tp_packages v) h) | None => [] end.

(** What a worker knows of its ring. *)
Definition worker_pc (r idx : Z) (v : schTaskPool) (q : qpc) : Prop :=
  match q with
  | WSome _ | WLock _ None => 0 < tp_size v
  | WLock _ (Some size) => 0 < tp_size v ∧ tp_size v = size
  | WSize _ h | WHold _ h | WCell _ h | WRun _ h => cell_good r idx v h ∧ tp_head v = (h + 1) mod r
  | WCall _ h c => cell_good r idx v h ∧ tp_head v = (h + 1) mod r ∧ c ≠ NULL
  | _ => True
  end.

(** The function that is called, with the task. *)
Definition call_of (x : schTaskPackage) : Z * schTaskPackage := (pk_callback x, x).

(** The history of pool [p], the tasks [tk] its worker has taken, and the worker. *)
Record worker_inv (r idx : Z) (p : nat) (v : schTaskPool) (q : qpc)
    (tk : list schTaskPackage) (es : list event) : Prop := {
  wi_queued : Z.of_nat (length (queued (Z.of_nat p) es)) = Z.of_nat (length tk) + tp_size v;
  wi_started : (length (started (Z.of_nat p) es) + Nat.b2n (bool_decide (is_Some (cell_of q))) = length tk)%nat;
  wi_finished : (length (finished (Z.of_nat p) es) + Nat.b2n (bool_decide (is_Some (running q)))
                 = length (started (Z.of_nat p) es))%nat;
  wi_pc : worker_pc r idx v q;
  wi_roomy : roomy (Z.of_nat p) r es → fits (Z.of_nat p) r es;
  wi_size : fits (Z.of_nat p) r es → tp_size v <= r;
  wi_fifo : fits (Z.of_nat p) r es → queued (Z.of_nat p) es = tk ++ ring_contents v;
  wi_once : roomy (Z.of_nat p) r es →
    ∃ pre, started (Z.of_nat p) es = call_of <$> pre ∧ tk = pre ++ held_task v q;
  wi_call : roomy (Z.of_nat p) r es → ∀ h c, q = WCall p h c →
    ∃ x, at_index (tp_packages v) h = Some x ∧ pk_callback x = c;
  wi_run : roomy (Z.of_nat p) r es → ∀ h, running q = Some h →
    ∃ c x, last (started (Z.of_nat p) es) = Some (c, x) ∧ at_index (tp_packages v) h = Some x;
}.

Section worker_inv.
Context (r idx : Z) (p : nat).
Implicit Types (v : schTaskPool) (q : qpc) (es : list event).

Lemma worker_pc_cell v q h :
  worker_pc r idx v q → cell_of q = Some h ∨ running q = Some h →
  cell_good r idx v h ∧ tp_head v = (h + 1) mod r.
Proof. destruct q; cbn; intros ? [[= ->]|[= ->]]; intuition. Qed.

(** A task that is taken stays in its cell while the queue has room. *)
Lemma taken_pushed v q x h :
  wring r idx v → tp_size v + 1 < r → worker_pc r idx v q → cell_of q = Some h ∨ running q = Some h →
  at_index (tp_packages (pushed v x)) h = at_index (tp_packages v) h.
Proof.
  intros Hv Hs Hq Hh. destruct (worker_pc_cell v q h Hq Hh) as [[Hhr _] Hhead].
  pose proof (wr_reserved _ _ _ Hv) as Hr. apply pushed_before_head; rewrite ?Hr; try done.
  apply (wring_wf r idx); [done|lia].
Qed.

Lemma held_task_pushed v q x :
  wring r idx v → tp_size v + 1 < r → worker_pc r idx v q → held_task (pushed v x) q = held_task v q.
Proof.
  intros Hv Hs Hq. unfold held_task. destruct (cell_of q) as [h|] eqn:Hh; [|done].
  f_equal. apply (taken_pushed v q); auto.
Qed.

(** A client puts a task into the queue. *)
Lemma worker_inv_push v q tk es x :
  wring r idx v → good idx x → tp_size v + 1 < UINT_MOD → holds q = false →
  (roomy (Z.of_nat p) r es → tp_size v + 1 < r) →
  worker_inv r idx p v q tk es →
  worker_inv r idx p (pushed v x) q tk (es ++ [Queued (Z.of_nat p) x (tp_size v + 1)]).
Proof.
  intros Hv Hx Hs Hq Hroom [Hqd Hst Hfin Hpc Hrf Hsz Hfifo Honce Hcall Hrun].
  set (e := Queued _ _ _).
  assert (queued (Z.of_nat p) [e] = [x]) as He by (cbn; by rewrite decide_True).
  assert (∀ P : Z → Prop, (∀ y size, Queued (Z.of_nat p) y size ∈ [e] → P size) → P (tp_size v + 1)) as Hlast.
  { intros P HP. apply (HP x). by apply list_elem_of_singleton. }
  split.
  - rewrite queued_app, He, length_app. cbn. lia.
  - by rewrite started_app, app_nil_r.
  - by rewrite finished_app, started_app, !app_nil_r.
  - destruct q; cbn in Hpc |- *; try done; try lia; try (by destruct Hpc; eauto using cell_good_pushed).
  - intros [Hf _]%roomy_app. apply fits_snoc; [auto|]. intros y z [= <- <-]. specialize (Hroom Hf). lia.
  - intros [_ He1]%fits_app. by apply (Hlast (λ z, z <= r)) in He1.
  - intros [Hf He1]%fits_app. apply (Hlast (λ z, z <= r)) in He1.
    rewrite queued_app, He, Hfifo, pushed_contents, app_assoc; [done| | |done].
    + apply (wring_wf r idx); [done|lia].
    + rewrite (wr_reserved _ _ _ Hv). lia.
  - intros [Hf _]%roomy_app.
    rewrite started_app, app_nil_r, held_task_pushed by auto. by apply Honce.
  - intros [Hf _]%roomy_app h c ->.
    destruct (Hcall Hf h c eq_refl) as (y & Hy & Hc). exists y. split; [|done].
    rewrite <-Hy. apply (taken_pushed v (WCall p h c)); auto.
  - intros [Hf _]%roomy_app h Hh. destruct (Hrun Hf h Hh) as (c & y & Hsl & Hy). exists c, y.
    rewrite started_app, app_nil_r. split; [done|]. rewrite <-Hy. apply (taken_pushed v q); auto.
Qed.

(** The worker takes the oldest task: it has read [size] under the lock. *)
Lemma worker_inv_pop v tk es size :
  wring r idx v → worker_inv r idx p v (WLock p (Some size)) tk es →
  ∃ x, worker_inv r idx p (popped v) (WSize p (tp_head v)) (tk ++ [x]) es.
Proof.
  intros Hv [Hqd Hst Hfin [Hpos Hsize] Hrf Hsz Hfifo Honce Hcall Hrun].
  destruct (wring_pop r idx v Hv Hpos) as [Hv' [Hh (x & Hx & Hgx)]]. exists x. split.
  - rewrite length_app. cbn. lia.
  - rewrite length_app. cbn in *. lia.
  - done.
  - cbn. rewrite (wr_reserved _ _ _ Hv). split; [|done]. split; [done|]. eauto.
  - done.
  - intros Hf. cbn. specialize (Hsz Hf). lia.
  - intros Hf. rewrite (Hfifo Hf), <-app_assoc. f_equal.
    destruct (popped_contents v) as (y & Hy & Hc); [by eapply wring_wf, Hsz|done|].
    rewrite Hx in Hy. by simplify_eq.
  - intros Hf. destruct (Honce Hf) as (pre & Hpre & Htk). cbn in Htk. rewrite app_nil_r in Htk.
    exists pre. split; [done|]. rewrite Htk. unfold held_task. cbn [cell_of]. cbn. by rewrite Hx.
  - done.
  - done.
Qed.

(** Moves of the worker that no other thread sees. *)
Lemma worker_inv_move v q q' tk es :
  worker_inv r idx p v q tk es → cell_of q' = cell_of q → running q' = running q →
  worker_pc r idx v q' →
  (roomy (Z.of_nat p) r es → ∀ h c, q' = WCall p h c →
     ∃ x, at_index (tp_packages v) h = Some x ∧ pk_callback x = c) →
  worker_inv r idx p v q' tk es.
Proof.
  intros [Hqd Hst Hfin Hpc Hrf Hsz Hfifo Honce Hcall Hrun] Hc Hr Hpc' Hcall'. split; try done.
  - by rewrite Hc.
  - by rewrite Hr.
  - unfold held_task. by rewrite Hc.
  - by rewrite Hr.
Qed.

(** The call of the task in the cell, and its return. *)
Lemma worker_inv_start v h c x tk es :
  worker_inv r idx p v (WCall p h c) tk es →
  (roomy (Z.of_nat p) r es → at_index (tp_packages v) h = Some x) →
  worker_inv r idx p v (WRun p h) tk (es ++ [Started (Z.of_nat p) c x]).
Proof.
  intros [Hqd Hst Hfin Hpc Hrf Hsz Hfifo Honce Hcall Hrun] Hx.
  assert (started (Z.of_nat p) [Started (Z.of_nat p) c x] = [(c, x)]) as He by (cbn; by rewrite decide_True).
  split.
  - by rewrite queued_app, app_nil_r.
  - rewrite started_app, He, length_app. cbn in *. lia.
  - rewrite started_app, finished_app, He, !length_app. cbn in *. lia.
  - by destruct Hpc as (? & ? & _).
  - intros [Hf _]%roomy_app. apply fits_snoc; auto || done.
  - intros [Hf _]%fits_app. auto.
  - intros [Hf _]%fits_app. rewrite queued_app, app_nil_r. auto.
  - intros [Hf _]%roomy_app. destruct (Honce Hf) as (pre & Hpre & Htk).
    specialize (Hx Hf).
    destruct (Hcall Hf h c eq_refl) as (y & Hy & Hc). rewrite Hx in Hy. injection Hy as <-. exists (pre ++ [x]). rewrite started_app, He, Hpre, fmap_app. unfold call_of at 3. cbn. rewrite Hc.
    split; [done|]. rewrite Htk. unfold held_task. cbn [cell_of]. rewrite Hx. by rewrite app_nil_r.
  - done.
  - intros [Hf _]%roomy_app h' [= <-]. exists c, x. rewrite started_app, He, last_snoc. auto.
Qed.

Lemma worker_inv_finish v h tk es :
  worker_inv r idx p v (WRun p h) tk es → worker_inv r idx p v QNone tk (es ++ [Finished (Z.of_nat p)]).
Proof.
  intros [Hqd Hst Hfin Hpc Hrf Hsz Hfifo Honce Hcall Hrun]. split.
  - by rewrite queued_app, app_nil_r.
  - by rewrite started_app, app_nil_r.
  - rewrite started_app, finished_app, !length_app. cbn in *. rewrite decide_True by done. cbn. lia.
  - done.
  - intros [Hf _]%roomy_app. apply fits_snoc; auto || done.
  - intros [Hf _]%fits_app. auto.
  - intros [Hf _]%fits_app. rewrite queued_app, app_nil_r. auto.
  - intros [Hf _]%roomy_app. rewrite started_app, app_nil_r. auto.
  - done.
  - done.
Qed.

(** A task is written into a cell. *)
Lemma worker_inv_store v q tk es size :
  worker_inv r idx p v q tk es → worker_inv r idx p v q tk (es ++ [Stored (Z.of_nat p) size]).
Proof.
  intros [Hqd Hst Hfin Hpc Hrf Hsz Hfifo Honce Hcall Hrun].
  split; rewrite ?queued_app, ?started_app, ?finished_app, ?app_nil_r; try done.
  - intros [Hf _]%roomy_app. apply fits_snoc; auto || done.
  - intros [Hf _]%fits_app. auto.
  - intros [Hf _]%fits_app. auto.
  - intros [Hf _]%roomy_app. auto.
  - intros [Hf _]%roomy_app. auto.
  - intros [Hf _]%roomy_app. auto.
Qed.

(** An event of another pool. *)
Lemma worker_inv_other v q tk es e :
  event_pool e ≠ Some (Z.of_nat p) → worker_inv r idx p v q tk es → worker_inv r idx p v q tk (es ++ [e]).
Proof.
  intros He [Hqd Hst Hfin Hpc Hrf Hsz Hfifo Honce Hcall Hrun].
  destruct (events_other _ _ es He) as (E1 & E2 & E3 & E4 & E5).
  split; rewrite ?E1, ?E2, ?E3, ?E4, ?E5; auto.
Qed.
End worker_inv.
