(* ===== verification/SystemInv.v ===== *)
(** * The invariant of the interleaved scheduler: queues and lock

    One pool [v] per queue, the ring as it is between critical sections; the memory differs
    from it only in what the thread inside the critical section has done so far ([edit]).
    [N] clients and [n] pools; the threads are numbered with the clients first. *)
From S2P Require Import Prelude Errors Flags Structures Heapify TaskQueue Threads.
From S2P Require Import System ExecutorFacts Concurrency SystemQueue.

(** What a step outside the queue may change of a pool. *)
Definition q_of (pool : schTaskPool) : schTaskPool :=
  pool <| tp_flag := 0 |> <| tp_dheapPriority := 0 |> <| tp_avergeDeque := 0 |>
    <| tp_thread := 0 |> <| tp_schRefThread := 0 |> <| tp_mutex := 0 |> <| tp_set := 0 |>.

Definition pools (s : sys) : list schTaskPool := ts_pools (sy_ts s).

(** Clients with room in the queue of [p], not counted yet. *)
Definition inflights (p : nat) (qs : list qpc) : Z :=
  Z.of_nat (sum_list_with (λ q, Nat.b2n (inflight p q)) qs).

(** *** Who holds the lock *)

Section holder.
Implicit Types (qs : list qpc) (q : qpc) (hd : option qpc).

Definition holder qs hd : Prop := filter (λ q, holds q) qs = option_list hd.

Lemma filter_insert_split {A} (P : A → Prop) `{∀ x, Decision (P x)} (l : list A) i x y :
  l !! i = Some x → ∃ l1 l2, filter P l = l1 ++ filter P [x] ++ l2 ∧
    filter P (<[i := y]> l) = l1 ++ filter P [y] ++ l2.
Proof.
  intros Hi. apply list_elem_of_split_length in Hi as (l1 & l2 & -> & ->).
  exists (filter P l1), (filter P l2). rewrite insert_middle.
  rewrite !filter_app, !filter_cons, filter_nil.
  split; by destruct (decide _).
Qed.

Lemma filter_holds q : filter (λ q, holds q) [q] = if holds q then [q] else [].
Proof. rewrite filter_cons, filter_nil. by destruct (holds q). Qed.

Lemma holder_none qs hd i q q' :
  holder qs hd → qs !! i = Some q → holds q = false → holds q' = false → holder (<[i := q']> qs) hd.
Proof.
  unfold holder. intros Hh Hi Hq Hq'.
  destruct (filter_insert_split (λ q, holds q) qs i q q' Hi) as (l1 & l2 & E1 & E2).
  rewrite E2, <-Hh, E1. by rewrite !filter_holds, Hq, Hq'.
Qed.

Lemma holder_take qs i q q' :
  holder qs None → qs !! i = Some q → holds q = false → holds q' = true →
  holder (<[i := q']> qs) (Some q').
Proof.
  unfold holder. intros Hh Hi Hq Hq'.
  destruct (filter_insert_split (λ q, holds q) qs i q q' Hi) as (l1 & l2 & E1 & E2).
  rewrite E1, filter_holds, Hq in Hh. cbn in Hh. apply app_nil in Hh as [-> ->].
  by rewrite E2, filter_holds, Hq'.
Qed.

(** The thread inside the critical section is the holder. *)
Lemma holder_is qs hd i q : holder qs hd → qs !! i = Some q → holds q = true → hd = Some q.
Proof.
  unfold holder. intros Hh Hi Hq. assert (q ∈ option_list hd) as Hin.
  { rewrite <-Hh. apply list_elem_of_filter. rewrite Hq. split; [done|by eapply list_elem_of_lookup_2]. }
  destruct hd; cbn in Hin; [|by apply elem_of_nil in Hin]. by apply list_elem_of_singleton in Hin as ->.
Qed.

Lemma holder_keep qs hd i q q' :
  holder qs hd → qs !! i = Some q → holds q = true →
  holder (<[i := q']> qs) (if holds q' then Some q' else None).
Proof.
  intros Hh Hi Hq. pose proof (holder_is _ _ _ _ Hh Hi Hq) as ->. unfold holder in *.
  destruct (filter_insert_split (λ q, holds q) qs i q q' Hi) as (l1 & l2 & E1 & E2).
  rewrite E1, filter_holds, Hq in Hh. cbn in Hh.
  assert (l1 = [] ∧ l2 = []) as [-> ->].
  { destruct l1 as [|? l1]; [by destruct l2|]. injection Hh as _ Hh. by destruct l1. }
  rewrite E2, filter_holds. by destruct (holds q').
Qed.

(** Nobody else is inside. *)
Lemma holder_others qs hd i j q q' :
  holder qs hd → qs !! i = Some q → holds q = true → qs !! j = Some q' → j ≠ i → holds q' = false.
Proof.
  intros Hh Hi Hq Hj Hij. pose proof (holder_keep _ _ _ _ QNone Hh Hi Hq) as Hh'. cbn in Hh'.
  unfold holder in Hh'. cbn in Hh'. destruct (holds q') eqn:Hq'; [|done].
  assert (q' ∈ filter (λ q, holds q) (<[i := QNone]> qs)) as Hin.
  { apply list_elem_of_filter. rewrite Hq'. split; [done|]. apply (list_elem_of_lookup_2 _ j).
    by rewrite list_lookup_insert_ne. }
  rewrite Hh' in Hin. by apply elem_of_nil in Hin.
Qed.
End holder.

Lemma inflights_le N p qs :
  (∀ j q, qs !! j = Some q → inflight p q = true → (j < N)%nat) → 0 <= inflights p qs <= Z.of_nat N.
Proof.
  intros Hlt. unfold inflights. rewrite <-(take_drop N qs), sum_list_with_app.
  assert (∀ l : list qpc, (sum_list_with (λ q, Nat.b2n (inflight p q)) l <= length l)%nat) as Hle.
  { induction l as [|q l IH]; [done|]. cbn [sum_list_with length]. destruct (inflight p q); cbn; lia. }
  pose proof (Hle (take N qs)) as H1. rewrite length_take in H1.
  assert (sum_list_with (λ q, Nat.b2n (inflight p q)) (drop N qs) = 0%nat) as H2; [|lia].
  assert (∀ q, q ∈ drop N qs → inflight p q = false) as Hf.
  { intros q Hq. apply list_elem_of_lookup in Hq as [j Hj]. rewrite lookup_drop in Hj.
    destruct (inflight p q) eqn:Hq; [|done]. apply (Hlt _ _ Hj) in Hq. lia. }
  revert Hf. generalize (drop N qs). induction l as [|q l IH]; intros Hf; [done|].
  cbn [sum_list_with]. rewrite Hf by (by left). cbn. apply IH. intros ? ?. apply Hf. by right.
Qed.

Section inv.
(** The numbers of clients and pools; the capacity and the index of each pool. *)
Context (N n : nat) (res idx : nat → Z).

(** What a client knows of the queue it works on. *)
Definition client_pc (vs : list schTaskPool) (es : list event) (q : qpc) : Prop :=
  match q with
  | QNone => True
  | QRoom p | QDone p => (p < n)%nat
  | QLock p x tail =>
      good (idx p) x ∧ ∃ v, vs !! p = Some v ∧ ∀ z, tail = Some z → tp_tail v = z
  | QCell p x tail =>
      good (idx p) x ∧ ∃ v, vs !! p = Some v ∧ (∀ z, tail = Some z → tp_tail v = z) ∧
        (roomy (Z.of_nat p) (res p) es → tp_size v + 1 < res p)
  | QTail p x size =>
      good (idx p) x ∧ ∃ v, vs !! p = Some v ∧ (∀ z, size = Some z → tp_size v = z) ∧
        (roomy (Z.of_nat p) (res p) es → tp_size v + 1 < res p)
  | _ => False
  end.

Lemma client_pc_events vs es es' q :
  (∀ p r, roomy p r es' → roomy p r es) → client_pc vs es q → client_pc vs es' q.
Proof.
  intros Hes. destruct q; cbn; try done.
  - intros (? & v & ? & ? & Hr). split; [done|]. exists v. auto.
  - intros (? & v & ? & ? & Hr). split; [done|]. exists v. auto.
Qed.

(** The worker of pool [p] works on the queue of [p]. *)
Definition worker_at (p : nat) (q : qpc) : Prop :=
  match q with
  | QNone => True
  | WSome p' | WLock p' _ | WSize p' _ | WHold p' _ | WCell p' _ | WCall p' _ _ | WRun p' _
  | WLeave p' | WGone p' | WNew p' => p' = p
  | _ => False
  end.

Definition thread_ok (vs : list schTaskPool) (es : list event) (i : nat) (q : qpc)
    (tk : list schTaskPackage) : Prop :=
  ((i < N)%nat → client_pc vs es q) ∧
  (∀ p, i = (N + p)%nat → worker_at p q ∧
     ∀ v, vs !! p = Some v → worker_inv (res p) (idx p) p v q tk es).

Record queues_inv (s : sys) (qs : list qpc) (tks : list (list schTaskPackage))
    (vs : list schTaskPool) (hd : option qpc) : Prop := {
  qi_holder : holder qs hd;
  qi_spin : sy_spin s = bool_decide (is_Some hd);
  qi_lengths : length vs = n ∧ length (pools s) = n ∧ length qs = (N + n)%nat ∧ length tks = (N + n)%nat;
  qi_pool p v pool : vs !! p = Some v → pools s !! p = Some pool →
    q_of pool = q_of (match hd with Some q => edit q p v | None => v end);
  qi_ring p v : vs !! p = Some v → wring (res p) (idx p) v;
  qi_room p v : vs !! p = Some v → tp_size v + inflights p qs <= res p + Z.of_nat N - 1;
  qi_thread i q tk : qs !! i = Some q → tks !! i = Some tk → thread_ok vs (sy_events s) i q tk;
}.

(** A step that does not touch the queues. *)
Lemma queues_frame s s' qs tks vs hd :
  queues_inv s qs tks vs hd → q_of <$> pools s' = q_of <$> pools s → sy_spin s' = sy_spin s →
  sy_events s' = sy_events s → queues_inv s' qs tks vs hd.
Proof.
  intros [Hh Hs (Hl1 & Hl2 & Hl3) Hp Hr Hrm Ht] Hpools Hspin Hes. split; try done.
  - by rewrite Hspin.
  - split_and!; try done; try apply Hl3. rewrite <-Hl2. by apply (f_equal length) in Hpools; autorewrite with sch in Hpools.
  - intros p v pool' Hv Hpool'.
    assert ((q_of <$> pools s) !! p = Some (q_of pool')) as Hq.
    { by rewrite <-Hpools, list_lookup_fmap, Hpool'. }
    rewrite list_lookup_fmap in Hq. destruct (pools s !! p) as [pool|] eqn:Hpool; [|done].
    apply (inj Some) in Hq. rewrite <-Hq. by apply Hp.
  - by rewrite Hes.
Qed.
Section use.
Context (s : sys) (qs : list qpc) (tks : list (list schTaskPackage)) (vs : list schTaskPool) (hd : option qpc).
Context (Hinv : queues_inv s qs tks vs hd).

(** Every pool of the object has its ring, and the fields that no critical section is in
    the middle of writing are those of the ring. *)
Lemma queues_lookup p :
  (p < n)%nat → ∃ v pool, vs !! p = Some v ∧ pools s !! p = Some pool ∧ wring (res p) (idx p) v ∧
    q_of pool = q_of (match hd with Some q => edit q p v | None => v end) ∧
    tp_size pool = tp_size v ∧ tp_reserved pool = res p ∧ tp_index pool = idx p.
Proof.
  intros Hp. destruct Hinv as [_ _ (Hl1 & Hl2 & _) Hpool Hring _ _].
  destruct (lookup_lt_is_Some_2 vs p) as [v Hv]; [lia|].
  destruct (lookup_lt_is_Some_2 (pools s) p) as [pool Hpl]; [lia|].
  exists v, pool. pose proof (Hring p v Hv) as Hw. pose proof (Hpool p v pool Hv Hpl) as Hq.
  assert (∀ q : qpc, tp_size (edit q p v) = tp_size v ∧ tp_reserved (edit q p v) = tp_reserved v ∧
    tp_index (edit q p v) = tp_index v) as Hedit.
  { intros []; cbn; try done; by case_decide. }
  split_and!; try done.
  - apply (f_equal tp_size) in Hq. cbn in Hq. rewrite Hq. destruct hd; [apply Hedit|done].
  - apply (f_equal tp_reserved) in Hq. cbn in Hq. rewrite Hq, <-(wr_reserved _ _ _ Hw).
    destruct hd; [apply Hedit|done].
  - apply (f_equal tp_index) in Hq. cbn in Hq. rewrite Hq, <-(wr_index _ _ _ Hw).
    destruct hd; [apply Hedit|done].
Qed.

Lemma queues_thread_lt i q : qs !! i = Some q → (i < N + n)%nat.
Proof. intros Hi%lookup_lt_Some. by rewrite (proj1 (proj2 (proj2 (qi_lengths _ _ _ _ _ Hinv)))) in Hi. Qed.

(** Only clients have room in flight. *)
Lemma thread_inflight es i q tk p : thread_ok vs es i q tk → inflight p q = true → (i < N)%nat.
Proof.
  intros [_ Hw] Hq. destruct (decide (i < N)%nat) as [|Hge]; [done|].
  destruct (Hw (i - N)%nat) as [Hat _]; [lia|]. by destruct q.
Qed.

Lemma inflight_client i q p : qs !! i = Some q → inflight p q = true → (i < N)%nat.
Proof.
  intros Hi Hq. pose proof (qi_lengths _ _ _ _ _ Hinv) as (_ & _ & Hlq & Hlt).
  destruct (lookup_lt_is_Some_2 tks i) as [tk Htk].
  { rewrite Hlt, <-Hlq. by eapply lookup_lt_Some. }
  eapply thread_inflight; [by eapply (qi_thread _ _ _ _ _ Hinv)|done].
Qed.

(** The new number of clients in flight, after thread [i] has moved to [q']. *)
Lemma inflights_insert i q q' p :
  qs !! i = Some q →
  inflights p (<[i := q']> qs) + Z.of_nat (Nat.b2n (inflight p q))
  = inflights p qs + Z.of_nat (Nat.b2n (inflight p q')).
Proof.
  intros Hi. pose proof (sum_list_with_insert (λ q, Nat.b2n (inflight p q)) qs i q q' Hi). unfold inflights. lia.
Qed.

(** A step of thread [i] that leaves the rings and the history alone. *)
Lemma queues_step s' hd' i q q' tk :
  qs !! i = Some q → tks !! i = Some tk → sy_events s' = sy_events s → length (pools s') = n →
  holder (<[i := q']> qs) hd' → sy_spin s' = bool_decide (is_Some hd') →
  (∀ p v pool, vs !! p = Some v → pools s' !! p = Some pool →
     q_of pool = q_of (match hd' with Some q => edit q p v | None => v end)) →
  (∀ p, inflight p q' = inflight p q ∨ inflight p q' = false ∨ ∃ v, vs !! p = Some v ∧ tp_size v < res p) →
  thread_ok vs (sy_events s) i q' tk →
  queues_inv s' (<[i := q']> qs) tks vs hd'.
Proof.
  intros Hi Htk Hes Hlen Hhd Hspin Hpool Hroom Hok.
  pose proof Hinv as [_ _ (Hl1 & Hl2 & Hl3 & Hl4) _ Hring Hrm Hthread].
  assert (∀ j r tk', <[i := q']> qs !! j = Some r → tks !! j = Some tk' → thread_ok vs (sy_events s) j r tk') as Hth.
  { intros j r tk' Hj Htk'. destruct (decide (i = j)) as [<-|].
    - rewrite list_lookup_insert_eq in Hj by (by eapply lookup_lt_Some). by simplify_eq.
    - rewrite list_lookup_insert_ne in Hj by done. by eapply Hthread. }
  split; try done.
  - by rewrite length_insert.
  - intros p v Hv. pose proof (inflights_insert i q q' p Hi) as Hins. specialize (Hrm p v Hv).
    destruct (Hroom p) as [He|[He|(v' & Hv' & Hlt)]].
    + rewrite He in Hins. lia.
    + rewrite He in Hins. destruct (inflight p q); cbn in Hins; lia.
    + simplify_eq. enough (inflights p (<[i:=q']> qs) <= Z.of_nat N) by lia.
      apply inflights_le. intros j r Hj Hr. destruct (lookup_lt_is_Some_2 tks j) as [tk' Htk'].
      { rewrite Hl4, <-Hl3, <-(length_insert qs i q'). by eapply lookup_lt_Some. }
      eapply thread_inflight; [by eapply Hth|done].
  - by rewrite Hes.
Qed.

End use.

(** The thread learns something. *)
Lemma queues_move s qs tks vs hd i q q' tk :
  queues_inv s qs tks vs hd →
  qs !! i = Some q → tks !! i = Some tk → holds q' = holds q →
  (holds q = true → ∀ p v, edit q' p v = edit q p v) →
  (∀ p, inflight p q' = inflight p q ∨ inflight p q' = false ∨ ∃ v, vs !! p = Some v ∧ tp_size v < res p) →
  thread_ok vs (sy_events s) i q' tk →
  ∃ hd', queues_inv s (<[i := q']> qs) tks vs hd'.
Proof.
  intros Hinv Hi Htk Hh Hedit Hroom Hok. pose proof Hinv as [Hhd Hspin (_ & Hl2 & _) Hpool _ _ _].
  destruct (holds q) eqn:Hq.
  - pose proof (holder_is _ _ _ _ Hhd Hi Hq) as ->. exists (Some q').
    eapply queues_step; try done.
    + pose proof (holder_keep _ _ _ _ q' Hhd Hi Hq) as Hk. by rewrite Hh in Hk.
    + intros p v pool Hv Hpl. rewrite Hedit by done. by apply (Hpool p).
  - exists hd. eapply queues_step; try done. by eapply holder_none.
Qed.

(** The thread enters the critical section. *)
Lemma queues_lock s qs tks vs hd i q q' tk :
  queues_inv s qs tks vs hd →
  qs !! i = Some q → tks !! i = Some tk → sy_spin s = false →
  holds q' = true → (∀ p v, edit q' p v = v) → (∀ p, inflight p q' = inflight p q) →
  thread_ok vs (sy_events s) i q' tk →
  queues_inv (s <| sy_spin := true |>) (<[i := q']> qs) tks vs (Some q').
Proof.
  intros Hinv Hi Htk Hfree Hq' Hedit Hin Hok. pose proof Hinv as [Hhd Hspin (_ & Hl2 & _) Hpool _ _ _].
  assert (hd = None) as -> by (destruct hd; [by rewrite Hspin in Hfree|done]).
  assert (holds q = false) as Hq.
  { destruct (holds q) eqn:Hq; [|done]. by pose proof (holder_is _ _ _ _ Hhd Hi Hq). }
  eapply queues_step; try done.
  - by eapply holder_take.
  - intros p v pool Hv Hpl. rewrite Hedit. by apply (Hpool p).
  - auto.
Qed.

(** The thread leaves it. *)
Lemma queues_unlock s qs tks vs hd i q q' tk :
  queues_inv s qs tks vs hd →
  qs !! i = Some q → tks !! i = Some tk → holds q = true → holds q' = false →
  (∀ p v, edit q p v = v) → (∀ p, inflight p q' = inflight p q) →
  thread_ok vs (sy_events s) i q' tk →
  queues_inv (s <| sy_spin := false |>) (<[i := q']> qs) tks vs None.
Proof.
  intros Hinv Hi Htk Hq Hq' Hedit Hin Hok. pose proof Hinv as [Hhd Hspin (_ & Hl2 & _) Hpool _ _ _].
  pose proof (holder_is _ _ _ _ Hhd Hi Hq) as ->.
  eapply queues_step; try done.
  - pose proof (holder_keep _ _ _ _ q' Hhd Hi Hq) as Hk. by rewrite Hq' in Hk.
  - intros p v pool Hv Hpl. rewrite (Hpool p v pool) by done. by rewrite Hedit.
  - auto.
Qed.

(** The thread writes a field of pool [p], inside the critical section. *)
Lemma queues_write s qs tks vs hd i q q' tk p pool pool' v :
  queues_inv s qs tks vs hd →
  qs !! i = Some q → tks !! i = Some tk → holds q = true → holds q' = true →
  pools s !! p = Some pool → vs !! p = Some v → q_of pool' = q_of (edit q' p v) →
  (∀ p0 v0, p0 ≠ p → edit q' p0 v0 = edit q p0 v0) → (∀ p, inflight p q' = inflight p q) →
  thread_ok vs (sy_events s) i q' tk →
  queues_inv (s <| sy_ts ::= λ ts, ts <| ts_pools ::= <[p := pool']> |> |>) (<[i := q']> qs) tks vs (Some q').
Proof.
  intros Hinv Hi Htk Hq Hq' Hpl Hv Hpool' Hedit Hin Hok. pose proof Hinv as [Hhd Hspin (_ & Hl2 & _) Hpool _ _ _].
  pose proof (holder_is _ _ _ _ Hhd Hi Hq) as ->.
  eapply queues_step; try done.
  - cbn. by rewrite length_insert.
  - pose proof (holder_keep _ _ _ _ q' Hhd Hi Hq) as Hk. by rewrite Hq' in Hk.
  - intros p0 v0 pool0 Hv0 Hpl0. cbn in Hpl0. destruct (decide (p = p0)) as [<-|Hne].
    + rewrite list_lookup_insert_eq in Hpl0 by exact (lookup_lt_Some _ _ _ Hpl).
      injection Hpl0 as <-. rewrite Hv in Hv0. by injection Hv0 as <-.
    + rewrite list_lookup_insert_ne in Hpl0 by done. rewrite Hedit by done. by apply (Hpool p0).
  - auto.
Qed.

(** [schWaitTask] or [schTerminateTaskSch] is about to return. *)
Lemma queues_marked s qs tks vs hd e :
  event_pool e = None → queues_inv s qs tks vs hd →
  queues_inv (s <| sy_events ::= λ es, es ++ [e] |>) qs tks vs hd.
Proof.
  intros He [Hhd Hspin Hl Hpool Hring Hroom Hth]. split; try done.
  intros i q tk Hi Htk. destruct (Hth i q tk Hi Htk) as [Hc Hw]. split.
  { intros Hlt. specialize (Hc Hlt). eapply client_pc_events; [|exact Hc].
    intros p r. apply (events_other _ e). by rewrite He. }
  intros p Hp. destruct (Hw p Hp) as [Hat Hwi]. split; [done|]. intros v Hv.
  apply worker_inv_other; [by rewrite He|by apply Hwi].
Qed.

(** The worker of pool [p] calls or has called a task. *)
Lemma queues_log s qs tks vs hd i q q' tk p e :
  queues_inv s qs tks vs hd →
  qs !! i = Some q → tks !! i = Some tk → i = (N + p)%nat → event_pool e = Some (Z.of_nat p) →
  (∀ p r, roomy p r (sy_events s ++ [e]) → roomy p r (sy_events s)) → holds q = false → holds q' = false → worker_at p q' →
  (∀ v, vs !! p = Some v → worker_inv (res p) (idx p) p v q tk (sy_events s) →
     worker_inv (res p) (idx p) p v q' tk (sy_events s ++ [e])) →
  queues_inv (s <| sy_events ::= λ es, es ++ [e] |>) (<[i := q']> qs) tks vs hd.
Proof.
  intros Hinv Hi Htk Hip He Hrm Hq Hq' Hat Hwi. pose proof Hinv as [Hhd Hspin (Hl1 & Hl2 & Hl3 & Hl4) Hpool Hring Hroom Hth].
  split; try done.
  - by eapply holder_none.
  - by rewrite length_insert.
  - intros p0 v0 Hv0. pose proof (inflights_insert qs i q q' p0 Hi) as Hins. specialize (Hroom p0 v0 Hv0).
    assert (inflight p0 q' = false) as Hin by (by destruct q'). rewrite Hin in Hins.
    destruct (inflight p0 q); cbn in Hins; lia.
  - cbn [sy_events set tset const]. intros j r tk' Hj Htk'.
    destruct (decide (i = j)) as [<-|Hne].
    + rewrite list_lookup_insert_eq in Hj by (by eapply lookup_lt_Some). injection Hj as <-.
      rewrite Htk in Htk'. injection Htk' as <-. destruct (Hth _ q tk Hi Htk) as [_ Hw]. split; [lia|]. intros p' Hp'.
      assert (p' = p) as -> by lia. split; [done|]. intros v Hv. apply Hwi; [done|]. by apply Hw.
    + rewrite list_lookup_insert_ne in Hj by done. destruct (Hth j r tk' Hj Htk') as [Hc Hw].
      split; [intros Hlt; eapply client_pc_events, Hc; auto|]. intros p' Hp'. destruct (Hw p' Hp') as [Hat' Hwi']. split; [done|].
      intros v Hv. apply worker_inv_other; [|by apply Hwi']. rewrite He. intros [= Hpp]. lia.
Qed.

(** What the other threads know does not mention the ring of a pool, unless they are inside
    the critical section or its worker. *)
Lemma thread_ok_other vs vs' es es' j r tk :
  holds r = false → thread_ok vs es j r tk →
  (∀ p v', j = (N + p)%nat → vs' !! p = Some v' →
     worker_at p r → (∀ v, vs !! p = Some v → worker_inv (res p) (idx p) p v r tk es) →
     worker_inv (res p) (idx p) p v' r tk es') →
  thread_ok vs' es' j r tk.
Proof.
  intros Hr [Hc Hw] Hnew. split.
  - intros Hj. specialize (Hc Hj). by destruct r.
  - intros p Hp. destruct (Hw p Hp) as [Hat Hwi]. split; [done|]. intros v' Hv'. by eapply Hnew.
Qed.

(** A client counts the task it has written: it is in the queue now. *)
Lemma queues_push s qs tks vs hd i p x z tk pool :
  queues_inv s qs tks vs hd → res p + Z.of_nat N <= UINT_MOD → (i < N)%nat →
  qs !! i = Some (QTail p x (Some z)) → tks !! i = Some tk → pools s !! p = Some pool →
  ∃ vs', queues_inv
    (s <| sy_ts ::= λ ts, ts <| ts_pools ::= <[p := pool <| tp_size := u32 (z + 1) |>]> |> |>
       <| sy_events ::= λ es, es ++ [Queued (Z.of_nat p) x (u32 (z + 1))] |>)
    (<[i := QDone p]> qs) tks vs' (Some (QDone p)).
Proof.
  intros Hinv HN Hlt Hi Htk Hpl. pose proof Hinv as [Hhd Hspin (Hl1 & Hl2 & Hl3 & Hl4) Hpool Hring Hroom Hth].
  pose proof (holder_is _ _ _ _ Hhd Hi eq_refl) as ->.
  destruct (proj1 (Hth _ _ _ Hi Htk) Hlt) as (Hx & v & Hv & Hz & Hrm). specialize (Hz z eq_refl). subst z.
  pose proof (Hring p v Hv) as Hw. pose proof (wr_size _ _ _ Hw) as Hsz.
  assert (tp_size v + 1 < UINT_MOD) as Hmax.
  { specialize (Hroom p v Hv). pose proof (inflights_insert qs i _ QNone p Hi) as Hins.
    cbn in Hins. rewrite bool_decide_true in Hins by done. cbn in Hins. unfold inflights in *. lia. }
  rewrite u32_small by lia. exists (<[p := pushed v x]> vs).
  assert (∀ p0 v0, <[p := pushed v x]> vs !! p0 = Some v0 →
    p0 = p ∧ v0 = pushed v x ∨ p0 ≠ p ∧ vs !! p0 = Some v0) as Hvs.
  { intros p0 v0 Hv0. apply list_lookup_insert_Some in Hv0 as [(<- & <- & _)|[? ?]]; auto. }
  split.
  - by apply (holder_keep _ _ _ _ (QDone p) Hhd Hi).
  - done.
  - cbn. by rewrite !length_insert.
  - intros p0 v0 pool0 [[-> ->]|[Hne Hv0]]%Hvs Hpl0; cbn in Hpl0.
    + rewrite list_lookup_insert_eq in Hpl0 by exact (lookup_lt_Some _ _ _ Hpl).
      injection Hpl0 as <-. specialize (Hpool p v pool Hv Hpl). cbn [edit] in Hpool.
      rewrite decide_True in Hpool by done.
      change ((q_of pool) <| tp_size := tp_size v + 1 |> = q_of (pushed v x)). by rewrite Hpool.
    + rewrite list_lookup_insert_ne in Hpl0 by done. specialize (Hpool p0 v0 pool0 Hv0 Hpl0).
      cbn [edit] in *. by rewrite decide_False in Hpool.
  - intros p0 v0 [[-> ->]|[Hne Hv0]]%Hvs; [by apply wring_push|by apply Hring].
  - intros p0 v0 Hv0. pose proof (inflights_insert qs i _ (QDone p) p0 Hi) as Hins. cbn in Hins.
    destruct (Hvs _ _ Hv0) as [[-> ->]|[Hne Hv0']].
    + rewrite bool_decide_true in Hins by done. specialize (Hroom p v Hv). cbn in *. lia.
    + specialize (Hroom p0 v0 Hv0'). rewrite bool_decide_false in Hins by done. cbn in Hins. lia.
  - cbn [sy_events set tset const]. intros j r tk' Hj Htk'. destruct (decide (i = j)) as [<-|Hne].
    + rewrite list_lookup_insert_eq in Hj by (by eapply lookup_lt_Some). injection Hj as <-.
      split; [|lia]. intros _. cbn. rewrite <-Hl1. by eapply lookup_lt_Some.
    + rewrite list_lookup_insert_ne in Hj by done.
      pose proof (holder_others _ _ i j _ r Hhd Hi eq_refl Hj (not_eq_sym Hne)) as Hr.
      eapply thread_ok_other; [done|by eapply Hth|].
      intros p0 v0 -> [[-> ->]|[Hne0 Hv0]]%Hvs Hat Hwi.
      * by apply worker_inv_push; auto.
      * apply worker_inv_other; [cbn; intros [= ?]; lia|auto].
Qed.

(** A worker takes the oldest task. *)
Lemma queues_pop s qs tks vs hd i p z tk pool :
  queues_inv s qs tks vs hd → i = (N + p)%nat →
  qs !! i = Some (WLock p (Some z)) → tks !! i = Some tk → pools s !! p = Some pool →
  ∃ vs' x, queues_inv
    (s <| sy_ts ::= λ ts, ts <| ts_pools ::= <[p := pool <| tp_size := u32 (z - 1) |>]> |> |>)
    (<[i := WSize p (tp_head pool)]> qs) (<[i := tk ++ [x]]> tks) vs' (Some (WSize p (tp_head pool))).
Proof.
  intros Hinv Hip Hi Htk Hpl. pose proof Hinv as [Hhd Hspin (Hl1 & Hl2 & Hl3 & Hl4) Hpool Hring Hroom Hth].
  pose proof (holder_is _ _ _ _ Hhd Hi eq_refl) as ->.
  destruct (lookup_lt_is_Some_2 vs p) as [v Hv].
  { rewrite Hl1, <-Hl2. by eapply lookup_lt_Some. }
  pose proof (Hring p v Hv) as Hw. pose proof (wr_size _ _ _ Hw) as Hsz.
  pose proof (proj2 (proj2 (Hth _ _ _ Hi Htk) p Hip) v Hv) as Hwi.
  pose proof (wi_pc _ _ _ _ _ _ _ Hwi) as [Hpos <-].
  destruct (worker_inv_pop _ _ _ _ _ _ _ Hw Hwi) as [x Hwi']. rewrite u32_small by lia.
  pose proof (Hpool p v pool Hv Hpl) as Hq. cbn [edit] in Hq.
  assert (tp_head pool = tp_head v) as Hhead by (by apply (f_equal tp_head) in Hq).
  rewrite Hhead. exists (<[p := popped v]> vs), x.
  assert (∀ p0 v0, <[p := popped v]> vs !! p0 = Some v0 →
    p0 = p ∧ v0 = popped v ∨ p0 ≠ p ∧ vs !! p0 = Some v0) as Hvs.
  { intros p0 v0 Hv0. apply list_lookup_insert_Some in Hv0 as [(<- & <- & _)|[? ?]]; auto. }
  split.
  - by apply (holder_keep _ _ _ _ (WSize p (tp_head v)) Hhd Hi).
  - done.
  - cbn. by rewrite !length_insert.
  - intros p0 v0 pool0 [[-> ->]|[Hne Hv0]]%Hvs Hpl0; cbn in Hpl0.
    + rewrite list_lookup_insert_eq in Hpl0 by exact (lookup_lt_Some _ _ _ Hpl).
      injection Hpl0 as <-. cbn [edit]. rewrite decide_True by done.
      change ((q_of pool) <| tp_size := tp_size v - 1 |> = q_of ((popped v) <| tp_head := tp_head v |>)).
      rewrite Hq. by destruct v.
    + rewrite list_lookup_insert_ne in Hpl0 by done. specialize (Hpool p0 v0 pool0 Hv0 Hpl0).
      cbn [edit] in *. by rewrite decide_False.
  - intros p0 v0 [[-> ->]|[Hne Hv0]]%Hvs; [by apply wring_pop|by apply Hring].
  - intros p0 v0 Hv0. pose proof (inflights_insert qs i _ (WSize p (tp_head v)) p0 Hi) as Hins. cbn in Hins.
    destruct (Hvs _ _ Hv0) as [[-> ->]|[Hne Hv0']].
    + specialize (Hroom p v Hv). cbn in *. lia.
    + specialize (Hroom p0 v0 Hv0'). lia.
  - cbn [sy_events set tset const]. intros j r tk' Hj Htk'. destruct (decide (i = j)) as [<-|Hne].
    + rewrite list_lookup_insert_eq in Hj by (by eapply lookup_lt_Some).
      rewrite list_lookup_insert_eq in Htk' by (by eapply lookup_lt_Some).
      injection Hj as <-. injection Htk' as <-. split; [lia|]. intros p' Hp'. assert (p' = p) as -> by lia. split; [done|].
      intros v' [[_ ->]|[? _]]%Hvs; done.
    + rewrite list_lookup_insert_ne in Hj by done. rewrite list_lookup_insert_ne in Htk' by done.
      pose proof (holder_others _ _ i j _ r Hhd Hi eq_refl Hj (not_eq_sym Hne)) as Hr.
      eapply thread_ok_other; [done|by eapply Hth|].
      intros p0 v0 -> [[-> ->]|[Hne0 Hv0]]%Hvs Hat Hwi0; [lia|auto].
Qed.

(** A task is written into a cell: the event, and then the cell. *)
Lemma queues_stored s qs tks vs hd p size :
  queues_inv s qs tks vs hd →
  queues_inv (s <| sy_events ::= λ es, es ++ [Stored (Z.of_nat p) size] |>) qs tks vs hd.
Proof.
  intros [Hhd Hspin Hl Hpool Hring Hroom Hth]. split; try done.
  intros i q tk Hi Htk. destruct (Hth i q tk Hi Htk) as [Hc Hw]. split.
  { intros Hlt. eapply client_pc_events, Hc; [|done]. by intros p0 r [? _]%roomy_app. }
  intros p0 Hp0. destruct (Hw p0 Hp0) as [Hat Hwi]. split; [done|]. intros v Hv. specialize (Hwi v Hv).
  destruct (decide (p0 = p)) as [->|Hne]; [by apply worker_inv_store|].
  apply worker_inv_other; [|done]. intros [= ?]. lia.
Qed.

Lemma queues_store s qs tks vs hd i p x z tk pool :
  queues_inv s qs tks vs hd → (i < N)%nat →
  qs !! i = Some (QLock p x (Some z)) → tks !! i = Some tk → pools s !! p = Some pool →
  is_Some (at_index (tp_packages pool) z) ∧
  queues_inv
    (s <| sy_ts ::= λ ts, ts <| ts_pools ::= <[p := write_cell z x pool]> |> |>
       <| sy_events ::= λ es, es ++ [Stored (Z.of_nat p) (tp_size pool + 1)] |>)
    (<[i := QCell p x None]> qs) tks vs (Some (QCell p x None)).
Proof.
  intros Hinv Hlt Hi Htk Hpl. pose proof Hinv as [Hhd Hspin (Hl1 & Hl2 & Hl3 & Hl4) Hpool Hring Hroom Hth].
  pose proof (holder_is _ _ _ _ Hhd Hi eq_refl) as ->.
  destruct (proj1 (Hth _ _ _ Hi Htk) Hlt) as (Hx & v & Hv & Hz). specialize (Hz z eq_refl). subst z.
  pose proof (Hring p v Hv) as Hw. pose proof (wring_tail _ _ _ Hw) as Ht.
  pose proof (Hpool p v pool Hv Hpl) as Hq. cbn [edit] in Hq.
  assert (tp_packages pool = tp_packages v) as Hpk by exact (f_equal tp_packages Hq).
  assert (tp_size pool = tp_size v) as Hsz by exact (f_equal tp_size Hq).
  split.
  { rewrite Hpk. destruct (at_index_is_Some (tp_packages v) (tp_tail v)) as [y Hy]; [|by rewrite Hy].
    rewrite (wr_length _ _ _ Hw). lia. }
  set (s1 := s <| sy_events ::= λ es, es ++ [Stored (Z.of_nat p) (tp_size pool + 1)] |>).
  pose proof (queues_stored s qs tks vs _ p (tp_size pool + 1) Hinv) as Hinv1. fold s1 in Hinv1.
  eapply (queues_write s1 qs tks vs _ i _ (QCell p x None) tk p pool _ v Hinv1 Hi Htk); try done.
  - cbn [edit]. rewrite decide_True by done. unfold write_cell.
    change ((q_of pool) <| tp_packages ::= <[Z.to_nat (tp_tail v) := x]> |>
            = (q_of v) <| tp_packages ::= <[Z.to_nat (tp_tail v) := x]> |>). by rewrite Hq.
  - intros p0 v0 Hne. cbn [edit]. by rewrite decide_False.
  - split; [|lia]. intros _. split; [done|]. exists v. split_and!; [done..|].
    intros Hr. apply roomy_app in Hr as [_ Hr]. rewrite <-Hsz. apply Hr. by apply list_elem_of_singleton.
Qed.

(** The cell of the task a worker has taken or runs, as it is in memory: it holds a task of
    the pool, and the same one unless the queue fills up. *)
Lemma queues_cell s qs tks vs hd i q tk p h v pool :
  queues_inv s qs tks vs hd → i = (N + p)%nat → qs !! i = Some q → tks !! i = Some tk →
  holds q = false → cell_of q = Some h ∨ running q = Some h → vs !! p = Some v → pools s !! p = Some pool →
  ∃ y, at_index (tp_packages pool) h = Some y ∧ good (idx p) y ∧
    (roomy (Z.of_nat p) (res p) (sy_events s) → at_index (tp_packages v) h = Some y).
Proof.
  intros Hinv Hip Hi Htk Hq Hh Hv Hpl. pose proof Hinv as [Hhd Hspin (Hl1 & Hl2 & Hl3 & Hl4) Hpool Hring Hroom Hth].
  pose proof (Hring p v Hv) as Hw.
  pose proof (wi_pc _ _ _ _ _ _ _ (proj2 (proj2 (Hth _ _ _ Hi Htk) p Hip) v Hv)) as Hpc.
  destruct (worker_pc_cell _ _ v q h Hpc Hh) as [[Hhr (y & Hy & Hg)] Hhead].
  pose proof (Hpool p v pool Hv Hpl) as Hqo.
  assert (∀ x, good (idx p) x → (roomy (Z.of_nat p) (res p) (sy_events s) → tp_size v + 1 < res p) →
    tp_packages pool = <[Z.to_nat (tp_tail v) := x]> (tp_packages v) →
    ∃ y, at_index (tp_packages pool) h = Some y ∧ good (idx p) y ∧
      (roomy (Z.of_nat p) (res p) (sy_events s) → at_index (tp_packages v) h = Some y)) as Hwritten.
  { intros x Hx Hrm Hpk. change (tp_packages pool = tp_packages (pushed v x)) in Hpk. rewrite Hpk.
    destruct (cell_good_pushed (res p) (idx p) v x h Hw Hx) as [_ (y' & Hy' & Hg')]; [split; eauto|].
    exists y'. split_and!; [done..|]. intros Hr. rewrite <-Hy'. symmetry.
    pose proof (wr_reserved _ _ _ Hw) as Hrs.
    apply pushed_before_head; rewrite ?Hrs; auto. apply (wring_wf _ _ _ Hw). specialize (Hrm Hr). lia. }
  assert (tp_packages pool = tp_packages v →
    ∃ y, at_index (tp_packages pool) h = Some y ∧ good (idx p) y ∧
      (roomy (Z.of_nat p) (res p) (sy_events s) → at_index (tp_packages v) h = Some y)) as Hsame.
  { intros ->. eauto. }
  destruct hd as [qh|]; [|apply Hsame; exact (f_equal tp_packages Hqo)].
  assert (∃ j tkj, qs !! j = Some qh ∧ tks !! j = Some tkj) as (j & tkj & Hj & Htkj).
  { assert (qh ∈ qs) as Hin.
    { assert (qh ∈ filter (λ q, holds q) qs) as Hf by (unfold holder in Hhd; rewrite Hhd; by left).
      by apply list_elem_of_filter in Hf as [_ Hf]. }
    apply list_elem_of_lookup in Hin as [j Hj]. exists j.
    destruct (lookup_lt_is_Some_2 tks j) as [tkj ?]; [|by eauto].
    rewrite Hl4, <-Hl3. by eapply lookup_lt_Some. }
  destruct (Hth j qh tkj Hj Htkj) as [Hcl Hwk].
  assert (∀ p' x o, qh = QCell p' x o ∨ qh = QTail p' x o → (j < N)%nat) as Hclient.
  { intros p' x o Hqh. destruct (decide (j < N)%nat) as [|Hge]; [done|].
    destruct (Hwk (j - N)%nat) as [Hat _]; [lia|]. by destruct Hqh as [-> | ->]. }
  destruct qh; cbn [edit] in Hqo; try (by apply Hsame; exact (f_equal tp_packages Hqo)).
  - case_decide as Hp; [|by apply Hsame; exact (f_equal tp_packages Hqo)]. subst.
    destruct (Hcl (Hclient _ _ _ (or_introl eq_refl))) as (Hx & v' & Hv' & _ & Hrm).
    rewrite Hv in Hv'. injection Hv' as <-. apply (Hwritten x); auto. exact (f_equal tp_packages Hqo).
  - case_decide as Hp; [|by apply Hsame; exact (f_equal tp_packages Hqo)]. subst.
    destruct (Hcl (Hclient _ _ _ (or_intror eq_refl))) as (Hx & v' & Hv' & _ & Hrm).
    rewrite Hv in Hv'. injection Hv' as <-. apply (Hwritten x); auto. exact (f_equal tp_packages Hqo).
  - apply Hsame. case_decide; exact (f_equal tp_packages Hqo).
Qed.
(** The worker of pool [p] is the one that writes [head]. *)
Lemma queues_writer s qs tks vs p h q h' :
  queues_inv s qs tks vs (Some (WSize p h)) → qs !! (N + p)%nat = Some q → running q = Some h' → False.
Proof.
  intros Hinv Hq Hrun. pose proof Hinv as [Hhd Hspin (Hl1 & Hl2 & Hl3 & Hl4) Hpool Hring Hroom Hth].
  assert (WSize p h ∈ qs) as Hin.
  { assert (WSize p h ∈ filter (λ q, holds q) qs) as Hf by (unfold holder in Hhd; rewrite Hhd; by left).
    by apply list_elem_of_filter in Hf as [_ Hf]. }
  apply list_elem_of_lookup in Hin as [j Hj].
  destruct (lookup_lt_is_Some_2 tks j) as [tkj Htj]; [rewrite Hl4, <-Hl3; by eapply lookup_lt_Some|].
  destruct (Hth j _ tkj Hj Htj) as [Hcl Hwk].
  destruct (decide (j < N)%nat) as [Hlt|Hge]; [by apply Hcl|].
  destruct (Hwk (j - N)%nat) as [Hat _]; [lia|]. cbn in Hat.
  assert (j = (N + p)%nat) as -> by lia. rewrite Hq in Hj. injection Hj as ->. done.
Qed.
End inv.
