(* ===== verification/SystemLife.v ===== *)
(** * The lives of the pool threads in the interleaved scheduler

    What the invariant says of the thread handles, of the signals that are pending and of the
    threads' lives, while a client terminates the scheduler.  Only a single client may do so:
    a second one could still submit. *)
From S2P Require Import Prelude Errors Flags Structures Heapify TaskQueue Platform Executor Threads.
From S2P Require Import System ExecutorFacts Concurrency SystemQueue SystemInv.

(** Where a client is.  It knows nothing; it has seen the RUNNING flag.  Terminating, it has
    stopped the pools before [x]; it is about to signal the thread of [x], which lives; it
    has signalled it; it has joined it; it has forgotten it, but not whom it told; it has
    cleared RUNNING. *)
Inductive stage : Type :=
  | SRest
  | SUp
  | SDown (x : nat)
  | SKill (x : nat)
  | SJoin (x : nat)
  | SFree (x : nat)
  | SWipe (x : nat)
  | SClosed.

#[export] Instance stage_eq_dec : EqDecision stage.
Proof. solve_decision. Defined.

Definition closing (c : stage) : bool := match c with SRest | SUp => false | _ => true end.

(** A wait or a termination has stopped waiting, and nothing was counted since; the scheduler
    was terminated. *)
Definition waited_step (b : bool) (e : event) : bool :=
  match e with Waited | Terminated => true | Queued _ _ _ => false | _ => b end.
Definition waited (es : list event) : bool := foldl waited_step false es.
Definition terminated (es : list event) : Prop := Terminated ∈ es.

Lemma waited_snoc es e : waited (es ++ [e]) = waited_step (waited es) e.
Proof. unfold waited. by rewrite foldl_app. Qed.

Lemma terminated_snoc es e : terminated (es ++ [e]) ↔ terminated es ∨ e = Terminated.
Proof. unfold terminated. rewrite elem_of_app, list_elem_of_singleton. split; (intros [?|?]; [by left|by right]). Qed.

Definition handles (s : sys) : list Z := tp_thread <$> pools s.
Definition refs (s : sys) : list Z := tp_schRefThread <$> pools s.
Definition flags (s : sys) : list Z := tp_flag <$> pools s.
Definition up (s : sys) : bool := has (ts_flag (sy_ts s)) SCH_FLAG_RUNNING.

Section life.
Context (N n : nat).
Implicit Types (s : sys) (lv : list phase) (st : list stage).

(** The pools before [x] have been stopped; the thread of [x] has its handle. *)
Definition stopped s (x : nat) : Prop := ∀ p h, (p < x)%nat → handles s !! p = Some h → h = NULL.
Definition wiped s : Prop := ∀ p h, refs s !! p = Some h → h = NULL.
Definition threaded s (x : nat) : Prop := ∃ h, handles s !! x = Some h ∧ h ≠ NULL.

Definition stage_ok s lv (c : stage) : Prop :=
  match c with
  | SRest => True
  | SUp => up s = true
  | SDown x => stopped s x
  | SWipe x => stopped s (S x)
  | SFree x => stopped s x ∧ sy_life s !! x = Some Joined
  | SKill x => stopped s x ∧ threaded s x
  | SJoin x => stopped s x ∧ threaded s x ∧
      (sy_life s !! x ≠ Some Alive ∨ sy_terms s !! x = Some true ∨ lv !! (N + x)%nat = Some PLeave)
  | SClosed => up s = false ∧ stopped s n
  end.

(** [lv]: how far the workers are; [st]: the stages of the clients. *)
Record life_inv s lv st : Prop := {
  li_lengths : length (handles s) = n ∧ length (sy_pending s) = n ∧ length (sy_terms s) = n ∧ length (sy_life s) = n;
  li_alive p b : lv !! (N + p)%nat = Some b → (p < n)%nat → sy_life s !! p = Some Alive ↔ b ≠ PGone;
  li_one i c : st !! i = Some c → closing c = true → N = 1%nat;
  li_worker p c : st !! (N + p)%nat = Some c → c = SRest;
  li_null p : handles s !! p = Some NULL → sy_life s !! p = Some Joined;
  li_open : up s = true → (∀ c, st !! 0%nat = Some c → closing c = false) →
    ∀ p, (p < n)%nat → threaded s p;
  li_joined p : threaded s p → sy_life s !! p = Some Joined → st !! 0%nat = Some (SFree p);
  li_stage i c : st !! i = Some c → stage_ok s lv c;
  li_end : terminated (sy_events s) → up s = false ∧ stopped s n ∧ wiped s ∧ waited (sy_events s) = true;
  li_ref p h : sy_life s !! p = Some Alive → refs s !! p = Some h → h ≠ NULL;
  li_fresh p f : lv !! (N + p)%nat = Some PNew → flags s !! p = Some f → truthy (SchC.isRunning f) = false;
  li_wiped p : handles s !! p = Some NULL → refs s !! p = Some NULL ∨ st !! 0%nat = Some (SWipe p);
}.

(** All that the invariant mentions of the state, its history apart. *)
Definition life_of s := (up s, handles s, sy_pending s, sy_terms s, sy_life s, refs s, flags s).

Lemma life_of_eq s a b x y z r f :
  life_of s = (a, b, x, y, z, r, f) →
  up s = a ∧ handles s = b ∧ sy_pending s = x ∧ sy_terms s = y ∧ sy_life s = z ∧ refs s = r ∧ flags s = f.
Proof.
  intros Heq. split_and!; [exact (f_equal (λ x, x.1.1.1.1.1.1) Heq)|exact (f_equal (λ x, x.1.1.1.1.1.2) Heq)
    |exact (f_equal (λ x, x.1.1.1.1.2) Heq)|exact (f_equal (λ x, x.1.1.1.2) Heq)|exact (f_equal (λ x, x.1.1.2) Heq)
    |exact (f_equal (λ x, x.1.2) Heq)|exact (f_equal snd Heq)].
Qed.

Lemma life_frame s s' lv st :
  life_inv s lv st → life_of s' = life_of s →
  (terminated (sy_events s') → terminated (sy_events s) ∧ (waited (sy_events s) = true → waited (sy_events s') = true)) →
  life_inv s' lv st.
Proof.
  intros [Hl Ha Ho Hw Hn Hop Hj Hst He Hrf Hfr Hwp] Heq Hes.
  apply life_of_eq in Heq as (E1 & E2 & E3 & E4 & E5 & E6 & E7).
  assert (∀ x, stopped s' x ↔ stopped s x) as Es by (intros x; unfold stopped; by rewrite E2).
  assert (∀ x, threaded s' x ↔ threaded s x) as Et by (intros x; unfold threaded; by rewrite E2).
  split; rewrite ?E1, ?E2, ?E3, ?E4, ?E5, ?E6, ?E7; try done.
  - intros Hup Hc p Hp. apply Et. by apply Hop.
  - intros p Hp. apply Hj. by apply Et.
  - intros i c Hi. specialize (Hst i c Hi). destruct c; cbn in *; rewrite ?E1, ?E4, ?E5, ?Es, ?Et; done.
  - intros [Ht Hwt]%Hes. destruct (He Ht) as (? & ? & ? & ?). rewrite Es. unfold wiped. rewrite E6. auto.
Qed.

(** The fields of the pools that only their threads use. *)
Lemma life_fields s s' lv st :
  life_inv s lv st → sy_events s' = sy_events s →
  up s' = up s → handles s' = handles s → sy_pending s' = sy_pending s → sy_terms s' = sy_terms s → sy_life s' = sy_life s →
  refs s' = refs s →
  (∀ p f, lv !! (N + p)%nat = Some PNew → flags s' !! p = Some f → truthy (SchC.isRunning f) = false) →
  life_inv s' lv st.
Proof.
  intros [Hl Ha Ho Hw Hn Hop Hj Hst He Hrf _ Hwp] Hes E1 E2 E3 E4 E5 E6 Hfr.
  assert (∀ x, stopped s' x ↔ stopped s x) as Es by (intros x; unfold stopped; by rewrite E2).
  assert (∀ x, threaded s' x ↔ threaded s x) as Et by (intros x; unfold threaded; by rewrite E2).
  unfold wiped in He. split; unfold wiped; rewrite ?E1, ?E2, ?E3, ?E4, ?E5, ?E6, ?Es, ?Hes; try done.
  - intros Hup Hc p Hp. apply Et. by apply Hop.
  - intros p Hp. apply Hj. by apply Et.
  - intros i c Hi. specialize (Hst i c Hi). destruct c; cbn in *; rewrite ?E1, ?E4, ?E5, ?Es, ?Et; done.
Qed.

Lemma life_lookup s lv st p :
  life_inv s lv st → (p < n)%nat → ∃ t, sy_life s !! p = Some t.
Proof.
  intros Hl Hp. apply lookup_lt_is_Some_2. by destruct (li_lengths _ _ _ Hl) as (_ & _ & _ & ->).
Qed.

Lemma stage_lookup st i j c' c1 : <[i := c']> st !! j = Some c1 → j = i ∧ c1 = c' ∨ j ≠ i ∧ st !! j = Some c1.
Proof. intros [(-> & -> & _)|[? ?]]%list_lookup_insert_Some; auto. Qed.

(** Only what the client knows changes. *)
Lemma life_stage s lv st i c c' :
  life_inv s lv st → st !! i = Some c →
  stage_ok s lv c' → (closing c' = true → N = 1%nat) → (c' ≠ SRest → (i < N)%nat) →
  (closing c = true → closing c' = true ∨ up s = false) → (∀ p, c = SFree p → ¬ threaded s p) → (∀ p, c ≠ SWipe p) →
  life_inv s lv (<[i := c']> st).
Proof.
  intros Hs Hi Hok Hone Hlt Hc Hf Hne0. pose proof Hs as [Hl Ha Ho Hw Hn Hop Hj Hst He Hrf Hfr Hwp]. split; try done.
  - intros j c1 [[-> ->]|[_ Hj']]%stage_lookup Hcl; [auto|by eapply Ho].
  - intros p c1 [[Hp ->]|[_ Hj']]%stage_lookup; [|by eapply Hw].
    destruct (decide (c' = SRest)) as [|Hne]; [done|]. specialize (Hlt Hne). lia.
  - intros Hup Hcl p Hp. apply Hop; [done| |done]. intros c0 H0.
    destruct (decide (i = 0%nat)) as [->|Hne].
    + rewrite Hi in H0. injection H0 as <-. destruct (closing c) eqn:Hcc; [|done].
      destruct (Hc eq_refl) as [Hc'|]; [|congruence].
      by rewrite (Hcl c') in Hc' by (apply list_lookup_insert_eq; by eapply lookup_lt_Some).
    + apply Hcl. by rewrite list_lookup_insert_ne.
  - intros p Hp Hjp. pose proof (Hj p Hp Hjp) as H0. destruct (decide (i = 0%nat)) as [->|Hne].
    + rewrite Hi in H0. injection H0 as ->. by destruct (Hf p eq_refl).
    + by rewrite list_lookup_insert_ne.
  - intros j c1 [[-> ->]|[_ Hj']]%stage_lookup; [done|by eapply Hst].
  - intros p Hp. destruct (Hwp p Hp) as [|H0]; [by left|right]. rewrite list_lookup_insert_ne; [done|].
    intros ->. rewrite Hi in H0. by apply (Hne0 p), (inj Some).
Qed.

(** Thread [i] is at stage [c], and goes to [c']. *)
Section thread.
Context s lv st (Hs : life_inv s lv st) (i : nat) (c : stage) (Hi : st !! i = Some c).

Lemma thread_client : c ≠ SRest → (i < N)%nat.
Proof.
  intros Hc. destruct (decide (i < N)%nat) as [|Hge]; [done|]. destruct Hc.
  apply (li_worker _ _ _ Hs (i - N)). by replace (N + (i - N))%nat with i by lia.
Qed.

Lemma closing_zero : closing c = true → N = 1%nat ∧ i = 0%nat.
Proof.
  intros Hc. pose proof (li_one _ _ _ Hs i c Hi Hc) as HN.
  assert (c ≠ SRest) as Hr by (by intros ->). apply thread_client in Hr. lia.
Qed.

(** A client that is up has threads to signal. *)
Lemma up_thread p : c = SUp → (p < n)%nat → threaded s p ∧ sy_life s !! p ≠ Some Joined.
Proof.
  intros Hcu Hp. assert (i < N)%nat as Hlt by (apply thread_client; by rewrite Hcu). rewrite Hcu in Hi.
  assert (∀ c, st !! 0%nat = Some c → closing c = false) as Hc.
  { intros c0 Hc. destruct (closing c0) eqn:Hcl; [|done].
    pose proof (li_one _ _ _ Hs 0%nat c0 Hc Hcl). assert (i = 0%nat) as -> by lia.
    rewrite Hi in Hc. by injection Hc as <-. }
  assert (threaded s p) as Hp'.
  { apply (li_open _ _ _ Hs); [|done..]. exact (li_stage _ _ _ Hs i SUp Hi). }
  split; [done|]. intros Hj%(li_joined _ _ _ Hs); [|done]. by apply Hc in Hj.
Qed.

(** So has one that is about to stop a pool. *)
Lemma closing_thread p : c = SKill p ∨ c = SJoin p → sy_life s !! p ≠ Some Joined.
Proof.
  intros Hc Hj. assert (closing c = true) as [HN Hz]%closing_zero by (by destruct Hc as [-> | ->]).
  assert (threaded s p) as Hp.
  { pose proof (li_stage _ _ _ Hs i c Hi) as Hok. destruct Hc; subst c; cbn in Hok; apply Hok. }
  apply (li_joined _ _ _ Hs _ Hp) in Hj. rewrite Hz, Hj in Hi. destruct Hc as [-> | ->]; discriminate Hi.
Qed.

(** While a client terminates the scheduler, the others are pool threads. *)
Lemma other_rest j c1 : N = 1%nat → i = 0%nat → j ≠ i → st !! j = Some c1 → c1 = SRest.
Proof. intros HN Hz Hne Hj. apply (li_worker _ _ _ Hs (j - 1)). rewrite HN. by replace (1 + (j - 1))%nat with j by lia. Qed.

Lemma closed_zero c' :
  i = 0%nat → (∀ c, <[i := c']> st !! 0%nat = Some c → closing c = false) → closing c' = false.
Proof. intros Hz Hc. apply Hc. rewrite <-Hz. apply list_lookup_insert_eq. by eapply lookup_lt_Some. Qed.

(** The client at [c] is the first one: it wipes only at its own stage. *)
Lemma wiping p : i = 0%nat → st !! 0%nat = Some (SWipe p) → c = SWipe p.
Proof. intros -> H0. rewrite Hi in H0. by apply (inj Some). Qed.

(** It signals CONTINUE, or the thread of pool [p] has received it. *)
Lemma life_pending f :
  (∀ l, length (f l) = length l) → life_inv (s <| sy_pending ::= f |>) lv st.
Proof.
  intros Hf. destruct Hs as [(H1 & H2 & H3 & H4) Ha Ho Hw Hn Hop Hj Hst He Hrf Hfr Hwp].
  split; try done. cbn. by rewrite Hf.
Qed.

(** It signals SIGTERM. *)
Lemma life_kill x :
  c = SKill x → (x < n)%nat → life_inv (s <| sy_terms ::= <[x := true]> |>) lv (<[i := SJoin x]> st).
Proof.
  intros Hc Hx. assert (closing c = true) as [HN Hz]%closing_zero by by rewrite Hc.
  pose proof (li_stage _ _ _ Hs i c Hi) as Hok. rewrite Hc in Hok. destruct Hok as [Hstop Hth].
  pose proof Hs as [(H1 & H2 & H3 & H4) Ha Ho Hw Hn Hop Hj Hst He Hrf Hfr Hwp].
  assert ((<[x := true]> (sy_terms s)) !! x = Some true) as Hterm by (apply list_lookup_insert_eq; lia).
  assert (life_inv (s <| sy_terms ::= <[x := true]> |>) lv st) as Hs'.
  { split; try done; cbn.
    - by rewrite length_insert.
    - intros j c1 Hj1. specialize (Hst j c1 Hj1). destruct c1 as [| | | |y| | |]; try done. cbn in *.
      destruct (decide (y = x)) as [->|]; [tauto|]. by rewrite list_lookup_insert_ne by done. }
  eapply (life_stage _ _ _ _ _ _ Hs' Hi); rewrite ?Hc; cbn; try done; [|lia|auto].
  split; [done|]. split; [done|]. auto.
Qed.

(** It joins the thread of [x], which has returned. *)
Lemma life_join x :
  c = SJoin x → (x < n)%nat → sy_life s !! x = Some Returned →
  life_inv (s <| sy_life ::= <[x := Joined]> |>) lv (<[i := SFree x]> st).
Proof.
  intros Hc Hx Hret. assert (closing c = true) as [HN Hz]%closing_zero by by rewrite Hc.
  pose proof (li_stage _ _ _ Hs i c Hi) as Hok. rewrite Hc in Hok. destruct Hok as (Hstop & Hth & _).
  pose proof Hs as [(H1 & H2 & H3 & H4) Ha Ho Hw Hn Hop Hj Hst He Hrf Hfr Hwp].
  assert (∀ p t, (<[x := Joined]> (sy_life s)) !! p = Some t → p = x ∧ t = Joined ∨ p ≠ x ∧ sy_life s !! p = Some t) as Hl.
  { intros p t [(-> & -> & _)|[? ?]]%list_lookup_insert_Some; auto. }
  assert ((<[x := Joined]> (sy_life s)) !! x = Some Joined) as Hlx by (apply list_lookup_insert_eq; lia).
  split; try done; cbn.
  - by rewrite length_insert.
  - intros p b Hp Hlt. rewrite <-(Ha p b Hp Hlt). destruct (decide (p = x)) as [->|].
    + rewrite Hlx, Hret. split; discriminate.
    + by rewrite list_lookup_insert_ne.
  - intros p c1 [[Hp _]|[_ Hp]]%stage_lookup; [lia|by eapply Hw].
  - intros p Hp%Hn. destruct (decide (p = x)) as [->|]; [done|]. by rewrite list_lookup_insert_ne.
  - intros Hup Hcl. by apply (closed_zero _ Hz) in Hcl.
  - intros p Hp [[-> _]|[Hne Hlp]]%Hl.
    + rewrite Hz. apply list_lookup_insert_eq. rewrite <-Hz. by eapply lookup_lt_Some.
    + apply Hj in Hlp; [|done]. rewrite Hz, Hlp in Hi. rewrite Hc in Hi. discriminate Hi.
  - intros j c1 [[-> ->]|[Hne Hj1]]%stage_lookup; [done|]. by rewrite (other_rest j c1 HN Hz Hne Hj1).
  - intros p h [[_ ?]|[_ Hp]]%Hl; [done|by apply Hrf].
  - intros p Hp. destruct (Hwp p Hp) as [|H0]; [by left|]. apply (wiping _ Hz) in H0. congruence.
Qed.

(** It forgets the thread of [x], which it has joined. *)
Lemma life_forget s' x :
  c = SFree x → (x < n)%nat → life_of s' = (up s, <[x := NULL]> (handles s), sy_pending s, sy_terms s, sy_life s, refs s, flags s) →
  sy_events s' = sy_events s → life_inv s' lv (<[i := SWipe x]> st).
Proof.
  intros Hc Hx Heq Hes. assert (closing c = true) as [HN Hz]%closing_zero by by rewrite Hc.
  pose proof (li_stage _ _ _ Hs i c Hi) as Hok. rewrite Hc in Hok. destruct Hok as [Hstop Hjx].
  pose proof Hs as [(H1 & H2 & H3 & H4) Ha Ho Hw Hn Hop Hj Hst He Hrf Hfr Hwp].
  apply life_of_eq in Heq as (E1 & E2 & E3 & E4 & E5 & E6 & E7).
  assert (∀ p h, handles s' !! p = Some h → p = x ∧ h = NULL ∨ p ≠ x ∧ handles s !! p = Some h) as Hh.
  { rewrite E2. intros p h [(-> & -> & _)|[? ?]]%list_lookup_insert_Some; auto. }
  assert (∀ y, stopped s y → stopped s' y) as Hmono.
  { intros y Hy p h Hp [[_ ->]|[_ ?]]%Hh; [done|by eapply Hy]. }
  split; rewrite ?E1, ?E3, ?E4, ?E5, ?E6, ?E7, ?Hes; try done.
  - by rewrite E2, length_insert.
  - intros p c1 [[Hp _]|[_ Hp]]%stage_lookup; [lia|by eapply Hw].
  - intros p [[-> _]|[_ Hp]]%Hh; [done|by apply Hn].
  - intros Hup Hcl. by apply (closed_zero _ Hz) in Hcl.
  - intros p (h & [[_ ->]|[Hne Hp]]%Hh & Hnn) Hlp; [done|].
    assert (st !! 0%nat = Some (SFree p)) as H0 by (apply Hj; [by exists h|done]).
    rewrite Hz, H0, Hc in Hi. by injection Hi as ->.
  - intros j c1 [[-> ->]|[Hne Hj1]]%stage_lookup; [|by rewrite (other_rest j c1 HN Hz Hne Hj1)].
    intros p h Hp [[_ ->]|[Hpx Hp']]%Hh; [done|]. apply (Hstop p h); [lia|done].
  - intros Ht. destruct (He Ht) as (? & ? & Hwd & ?). unfold wiped. rewrite E6. auto.
  - intros p [[-> _]|[_ Hp]]%Hh.
    + right. rewrite Hz. apply list_lookup_insert_eq. rewrite <-Hz. by eapply lookup_lt_Some.
    + destruct (Hwp p Hp) as [|H0]; [by left|]. apply (wiping _ Hz) in H0. congruence.
Qed.

(** It forgets whom the thread of [x] was to tell. *)
Lemma life_wipe s' x :
  c = SWipe x → (x < n)%nat → life_of s' = (up s, handles s, sy_pending s, sy_terms s, sy_life s, <[x := NULL]> (refs s), flags s) →
  sy_events s' = sy_events s → life_inv s' lv (<[i := SDown (S x)]> st).
Proof.
  intros Hc Hx Heq Hes. assert (closing c = true) as [HN Hz]%closing_zero by by rewrite Hc.
  assert (stopped s (S x)) as Hstop by (pose proof (li_stage _ _ _ Hs i c Hi) as Hok; by rewrite Hc in Hok).
  pose proof Hs as [(H1 & H2 & H3 & H4) Ha Ho Hw Hn Hop Hj Hst He Hrf Hfr Hwp].
  apply life_of_eq in Heq as (E1 & E2 & E3 & E4 & E5 & E6 & E7).
  assert (∀ y, stopped s' y ↔ stopped s y) as Es by (intros y; unfold stopped; by rewrite E2).
  assert (∀ y, threaded s' y ↔ threaded s y) as Et by (intros y; unfold threaded; by rewrite E2).
  assert (∀ p h, refs s' !! p = Some h → p = x ∧ h = NULL ∨ p ≠ x ∧ refs s !! p = Some h) as Hr.
  { rewrite E6. intros p h [(-> & -> & _)|[? ?]]%list_lookup_insert_Some; auto. }
  split; rewrite ?E1, ?E2, ?E3, ?E4, ?E5, ?E7, ?Es, ?Hes; try done.
  - intros p c1 [[Hp _]|[_ Hp]]%stage_lookup; [lia|by eapply Hw].
  - intros Hup Hcl. by apply (closed_zero _ Hz) in Hcl.
  - intros p Hp%Et Hlp. apply (Hj p Hp) in Hlp. rewrite Hz, Hlp in Hi. congruence.
  - intros j c1 [[-> ->]|[Hne Hj1]]%stage_lookup; [by apply Es|]. by rewrite (other_rest j c1 HN Hz Hne Hj1).
  - intros Ht. destruct (He Ht) as (? & ? & Hwd & ?). split_and!; [done..| |done].
    intros p h [[_ ->]|[_ Hp]]%Hr; [done|by eapply Hwd].
  - intros p h Hp [[-> _]|[_ Hh]]%Hr; [|by eapply Hrf].
    destruct (lookup_lt_is_Some_2 (handles s) x) as [h' Hh']; [lia|].
    rewrite (Hstop x h' ltac:(lia) Hh') in Hh'. apply Hn in Hh'. congruence.
  - intros p Hp. rewrite E6. left. destruct (decide (p = x)) as [->|Hne].
    + apply list_lookup_insert_eq. unfold refs. rewrite length_fmap. unfold handles in H1. rewrite length_fmap in H1. lia.
    + rewrite list_lookup_insert_ne by done. destruct (Hwp p Hp) as [|H0]; [done|].
      apply (wiping _ Hz) in H0. congruence.
Qed.

(** It clears RUNNING. *)
Lemma life_close s' :
  c = SDown n → life_of s' = (false, handles s, sy_pending s, sy_terms s, sy_life s, refs s, flags s) →
  sy_events s' = sy_events s → life_inv s' lv (<[i := SClosed]> st).
Proof.
  intros Hc Heq Hes. assert (closing c = true) as [HN Hz]%closing_zero by by rewrite Hc.
  assert (stopped s n) as Hstop by (pose proof (li_stage _ _ _ Hs i c Hi) as Hok; by rewrite Hc in Hok).
  pose proof Hs as [(H1 & H2 & H3 & H4) Ha Ho Hw Hn Hop Hj Hst He Hrf Hfr Hwp].
  apply life_of_eq in Heq as (E1 & E2 & E3 & E4 & E5 & E6 & E7).
  assert (∀ x, stopped s' x ↔ stopped s x) as Es by (intros x; unfold stopped; by rewrite E2).
  assert (∀ x, threaded s' x ↔ threaded s x) as Et by (intros x; unfold threaded; by rewrite E2).
  split; rewrite ?E1, ?E2, ?E3, ?E4, ?E5, ?E6, ?E7, ?Es, ?Hes; try done.
  - intros p c1 [[Hp _]|[_ Hp]]%stage_lookup; [lia|by eapply Hw].
  - intros p Hp%Et Hlp. apply (Hj p Hp) in Hlp. rewrite Hz, Hlp, Hc in Hi. discriminate Hi.
  - intros j c1 [[-> ->]|[Hne Hj1]]%stage_lookup; [split; [done|by apply Es]|].
    by rewrite (other_rest j c1 HN Hz Hne Hj1).
  - intros Ht. destruct (He Ht) as (? & ? & ? & ?). unfold wiped. rewrite E6. auto.
  - intros p Hp. destruct (Hwp p Hp) as [|H0]; [by left|]. apply (wiping _ Hz) in H0. congruence.
Qed.

(** It has terminated the scheduler. *)
Lemma life_terminated :
  c = SClosed →
  life_inv (s <| sy_events ::= λ es, es ++ [Terminated] |>) lv (<[i := SRest]> st).
Proof.
  intros Hc. pose proof (li_stage _ _ _ Hs i c Hi) as Hok. rewrite Hc in Hok. destruct Hok as [Hup Hstop].
  assert (closing c = true) as [HN Hz]%closing_zero by by rewrite Hc.
  assert (wiped s) as Hwd.
  { intros p h Hp. destruct (lookup_lt_is_Some_2 (handles s) p) as [h' Hh'].
    { unfold handles. rewrite length_fmap. unfold refs in Hp. apply lookup_lt_Some in Hp. by rewrite length_fmap in Hp. }
    assert (p < n)%nat as Hlt by (rewrite <-(proj1 (li_lengths _ _ _ Hs)); by eapply lookup_lt_Some).
    rewrite (Hstop p h' Hlt Hh') in Hh'. destruct (li_wiped _ _ _ Hs p Hh') as [|H0]; [congruence|].
    apply (wiping _ Hz) in H0. congruence. }
  assert (life_inv (s <| sy_events ::= λ es, es ++ [Terminated] |>) lv st) as Hs'.
  { destruct Hs as [? Ha Ho Hw Hn Hop Hj Hst He Hrf Hfr Hwp]. split; try done.
    intros _. split_and!; [done|done|exact Hwd|]. cbn. by rewrite waited_snoc. }
  eapply (life_stage _ _ _ _ _ _ Hs' Hi); rewrite ?Hc; cbn; try done. auto.
Qed.
End thread.

(** ** The pool threads *)

(** The thread of pool [p] takes a SIGTERM. *)
Lemma life_leave s lv st p :
  life_inv s lv st → (p < n)%nat → lv !! (N + p)%nat = Some PWork →
  life_inv (s <| sy_terms ::= <[p := false]> |>) (<[(N + p)%nat := PLeave]> lv) st.
Proof.
  intros [(H1 & H2 & H3 & H4) Ha Ho Hw Hn Hop Hj Hst He Hrf Hfr Hwp] Hp Hlv.
  assert (∀ q b, <[(N + p)%nat := PLeave]> lv !! (N + q)%nat = Some b →
    q = p ∧ b = PLeave ∨ q ≠ p ∧ lv !! (N + q)%nat = Some b) as Hlook.
  { intros q b [(Hq & -> & _)|[? ?]]%list_lookup_insert_Some; [left|right]; split; try done; lia. }
  split; try done; cbn.
  - by rewrite length_insert.
  - intros q b [[-> ->]|[_ Hq]]%Hlook Hlt; [|by eapply Ha].
    rewrite (Ha p _ Hlv Hp). split; done.
  - intros j c Hc. specialize (Hst j c Hc). destruct c as [| | | |y| | |]; try done. cbn in *.
    destruct Hst as (? & ? & Hy). split_and!; [done..|]. destruct (decide (y = p)) as [->|Hne].
    + right. right. apply list_lookup_insert_eq. by eapply lookup_lt_Some.
    + rewrite !list_lookup_insert_ne by lia. done.
  - intros q f [[_ ?]|[_ Hq]]%Hlook; [done|by apply Hfr].
Qed.

(** It passes the alignment. *)
Lemma life_begin s lv st p :
  life_inv s lv st → (p < n)%nat → lv !! (N + p)%nat = Some PNew → life_inv s (<[(N + p)%nat := PWork]> lv) st.
Proof.
  intros [(H1 & H2 & H3 & H4) Ha Ho Hw Hn Hop Hj Hst He Hrf Hfr Hwp] Hp Hlv.
  assert (∀ q b, <[(N + p)%nat := PWork]> lv !! (N + q)%nat = Some b →
    q = p ∧ b = PWork ∨ q ≠ p ∧ lv !! (N + q)%nat = Some b) as Hlook.
  { intros q b [(Hq & -> & _)|[? ?]]%list_lookup_insert_Some; [left|right]; split; try done; lia. }
  split; try done.
  - intros q b [[-> ->]|[_ Hq]]%Hlook Hlt; [|by eapply Ha]. rewrite (Ha p _ Hlv Hp). split; done.
  - intros j c Hc. specialize (Hst j c Hc). destruct c as [| | | |y| | |]; try done. cbn in *.
    destruct Hst as (? & ? & Hy). split_and!; [done..|]. destruct (decide (y = p)) as [->|Hne].
    + rewrite Hlv in Hy. destruct Hy as [?|[?|?]]; [by left|by right; left|discriminate].
    + by rewrite list_lookup_insert_ne by lia.
  - intros q f [[_ ?]|[_ Hq]]%Hlook; [done|by apply Hfr].
Qed.

(** It returns. *)
Lemma life_exit s lv st p :
  life_inv s lv st → (p < n)%nat → lv !! (N + p)%nat = Some PLeave →
  life_inv (s <| sy_life ::= <[p := Returned]> |>) (<[(N + p)%nat := PGone]> lv) st.
Proof.
  intros [(H1 & H2 & H3 & H4) Ha Ho Hw Hn Hop Hj Hst He Hrf Hfr Hwp] Hp Hlv.
  assert (sy_life s !! p = Some Alive) as Halive by by apply (Ha p _ Hlv Hp).
  assert (∀ q b, <[(N + p)%nat := PGone]> lv !! (N + q)%nat = Some b →
    q = p ∧ b = PGone ∨ q ≠ p ∧ lv !! (N + q)%nat = Some b) as Hlook.
  { intros q b [(Hq & -> & _)|[? ?]]%list_lookup_insert_Some; [left|right]; split; try done; lia. }
  assert ((<[p := Returned]> (sy_life s)) !! p = Some Returned) as Hlp by (apply list_lookup_insert_eq; lia).
  assert (∀ q, q ≠ p → <[p := Returned]> (sy_life s) !! q = sy_life s !! q) as Hlq.
  { intros q Hq. by apply list_lookup_insert_ne. }
  split; try done; cbn.
  - by rewrite length_insert.
  - intros q b [[-> ->]|[Hne Hq]]%Hlook Hlt.
    + rewrite Hlp. split; done.
    + rewrite Hlq by done. by apply Ha.
  - intros q Hq%Hn. rewrite Hlq; [done|]. intros ->. by rewrite Halive in Hq.
  - intros q Hq Hjq. apply Hj; [done|]. destruct (decide (q = p)) as [->|Hne]; [by rewrite Hlp in Hjq|].
    by rewrite Hlq in Hjq.
  - intros j c Hc. specialize (Hst j c Hc). destruct c as [| | | |y|y| |]; try done; cbn in *.
    + destruct Hst as (? & ? & Hy). split_and!; [done..|]. destruct (decide (y = p)) as [->|Hne].
      * left. by rewrite Hlp.
      * rewrite Hlq, list_lookup_insert_ne by lia. done.
    + destruct Hst as [? Hy]. split; [done|]. rewrite Hlq; [done|]. intros ->. by rewrite Halive in Hy.
  - intros q h Hq. apply Hrf. destruct (decide (q = p)) as [->|Hne]; [done|]. by rewrite Hlq in Hq.
  - intros q f [[_ ?]|[_ Hq]]%Hlook; [done|by apply Hfr].
Qed.
End life.
