(* ===== verification/SystemTracks.v ===== *)
(** * The invariant of the interleaved scheduler, and the accesses that keep it

    To the queues (SystemInv.v) and the lives of the pool threads (SystemLife.v) it adds the
    heap of pools, the progress of a waiting client and the priorities.  The heap and the wait
    are about a single client: two of them can lose a pool from the heap, and submit while the
    other waits. *)
From S2P Require Import Prelude Errors Flags Structures Heapify TaskQueue Platform Executor Threads.
From S2P Require Import System ExecutorFacts Concurrency SystemQueue SystemInv SystemLife.

(** Where a client is in a swap of [restoreDown]: it has read [arr[index]] in [a]; it has
    read [arr[m]] in [b] too; it has written [arr[index]], and [arr[m]] has yet to become
    [a]. *)
Inductive hpc : Type :=
  | HNone
  | HAt (index a : nat)
  | HBoth (index m a b : nat)
  | HSwap (m a : nat).

(** The ghost state of a thread: its use of a queue; the tasks a worker has taken; a swap of
    the heap; the pools a waiting client has seen idle; the submits a client has left; the
    priority it is about to increase; how far it is in a termination; whether it is between
    [schMutexLock] and [schMutexUnLock] of a wait. *)
Record ghost : Type := mkGhost {
  g_q : qpc;
  g_taken : list schTaskPackage;
  g_heap : hpc;
  g_wait : Z;
  g_left : nat;
  g_prio : option Z;
  g_stage : stage;
  g_mx : bool;
}.

Definition heap_pc (n : nat) (arr : list nat) (h : hpc) : Prop :=
  match h with
  | HNone => arr ≡ₚ seq 0 n
  | HAt index a => arr ≡ₚ seq 0 n ∧ arr !! index = Some a
  | HBoth index m a b => arr ≡ₚ seq 0 n ∧ arr !! index = Some a ∧ arr !! m = Some b ∧ index ≠ m
  | HSwap m a => <[m := a]> arr ≡ₚ seq 0 n
  end.

Definition sizes (s : sys) : list Z := tp_size <$> pools s.
Definition prios (s : sys) : list Z := tp_dheapPriority <$> pools s.

Lemma fmap_insert_same {A B} (f : A → B) (l : list A) i x y :
  l !! i = Some x → f y = f x → f <$> <[i := y]> l = f <$> l.
Proof. intros Hi Hf. rewrite list_fmap_insert, Hf. apply list_insert_id. by rewrite list_lookup_fmap, Hi. Qed.

Section tracks.
(** [T] bounds the measured times, [total] the number of submits. *)
Context (N n : nat) (res idx : nat → Z) (T total : Z).
Definition heap_inv (arr : list nat) (hs : list hpc) : Prop :=
  length arr = n ∧ Forall (λ p, (p < n)%nat) arr ∧
  (N = 1%nat → ∀ h, hs !! 0%nat = Some h → heap_pc n arr h).

Definition wait_inv (szs : list Z) (es : list event) (ws : list Z) : Prop :=
  N = 1%nat →
  (∀ w p z, ws !! 0%nat = Some w → szs !! p = Some z → Z.of_nat p < w → z = 0) ∧
  (waited es = true → ∀ p z, szs !! p = Some z → z = 0).

(** Each increment of a priority is one of the submits that are over. *)
Definition prio_ok (lefts : list nat) (z : Z) : Prop :=
  0 <= z <= T + 1000 * (total - Z.of_nat (sum_list_with id lefts)).
Definition prio_inv (prs : list Z) (lefts : list nat) (reads : list (option Z)) : Prop :=
  Z.of_nat (sum_list_with id lefts) <= total ∧
  Forall (prio_ok lefts) prs ∧ Forall (λ o, ∀ z, o = Some z → prio_ok lefts z) reads.

(** Only a client inside a wait holds the mutex, and nobody ever waits on the condition.  As long as
    no pool thread has unlocked the mutex, every client inside a wait holds it, and unlocks
    it only then. *)
Definition pool_unlocks (y : sync) : Prop := ∃ p, UnlockUnheld (Pool p) ∈ sn_misuse y.
Record mx_inv (y : sync) (mxs : list bool) : Prop := {
  mx_client i : mxs !! i = Some true → (i < N)%nat;
  mx_holder w : sn_mutex y = Some w → ∃ i, w = Client i ∧ mxs !! i = Some true;
  mx_waiters : sn_waiters y = 0%nat;
  mx_waits w : WaitUnheld w ∉ sn_misuse y;
  mx_unlocks i : UnlockUnheld (Client i) ∈ sn_misuse y → pool_unlocks y;
  mx_inside i : mxs !! i = Some true → sn_mutex y = Some (Client i) ∨ pool_unlocks y;
}.

Record inv (s : sys) (ls : list ghost) : Prop := {
  inv_num : ts_num (sy_ts s) = Z.of_nat n;
  inv_queues : ∃ vs hd, queues_inv N n res idx s (g_q <$> ls) (g_taken <$> ls) vs hd;
  inv_heap : heap_inv (ts_dheaps (sy_ts s)) (g_heap <$> ls);
  inv_wait : wait_inv (sizes s) (sy_events s) (g_wait <$> ls);
  inv_prio : prio_inv (prios s) (g_left <$> ls) (g_prio <$> ls);
  inv_life : life_inv N n s (left_of <$> (g_q <$> ls)) (g_stage <$> ls);
  inv_mx : mx_inv (sy_sync s) (g_mx <$> ls);
}.

(** A thread may wait while another one holds the lock, or the mutex; a client, to join a thread that
    lives; a worker, between two turns, for a signal.  It holds neither itself. *)
Definition may (i : nat) (s : sys) (ls : list ghost) : Prop :=
  ∃ ℓ, ls !! i = Some ℓ ∧ (holds (g_q ℓ) = false ∧ g_mx ℓ = false) ∧
  (sy_spin s = true ∨ is_Some (sn_mutex (sy_sync s)) ∨
   (∃ x, (x < n)%nat ∧ g_stage ℓ = SJoin x ∧ sy_life s !! x = Some Alive) ∨
   (∃ p, i = (N + p)%nat ∧ g_q ℓ = QNone ∧ default false (at_index (sy_pending s) (Z.of_nat p)) = false ∧
      default false (at_index (sy_terms s) (Z.of_nat p)) = false)).

(** ** One thread moves *)

Section update.
Context (s : sys) (ls : list ghost) (i : nat) (ℓ : ghost).
Context (Hs : inv s ls) (Hi : ls !! i = Some ℓ).

Lemma ghost_lookup {A} (f : ghost → A) : (f <$> ls) !! i = Some (f ℓ).
Proof. by rewrite list_lookup_fmap, Hi. Qed.

Lemma ghost_id {A} (f : ghost → A) (ℓ' : ghost) : f ℓ' = f ℓ → <[i := f ℓ']> (f <$> ls) = f <$> ls.
Proof. intros ->. apply list_insert_id, ghost_lookup. Qed.

Lemma inv_update (s' : sys) (ℓ' : ghost) :
  ts_num (sy_ts s') = ts_num (sy_ts s) → sy_sync s' = sy_sync s → g_mx ℓ' = g_mx ℓ →
  (∃ vs hd, queues_inv N n res idx s' (<[i := g_q ℓ']> (g_q <$> ls)) (<[i := g_taken ℓ']> (g_taken <$> ls)) vs hd) →
  heap_inv (ts_dheaps (sy_ts s')) (<[i := g_heap ℓ']> (g_heap <$> ls)) →
  wait_inv (sizes s') (sy_events s') (<[i := g_wait ℓ']> (g_wait <$> ls)) →
  prio_inv (prios s') (<[i := g_left ℓ']> (g_left <$> ls)) (<[i := g_prio ℓ']> (g_prio <$> ls)) →
  life_inv N n s' (<[i := left_of (g_q ℓ')]> (left_of <$> (g_q <$> ls))) (<[i := g_stage ℓ']> (g_stage <$> ls)) →
  inv s' (<[i := ℓ']> ls).
Proof.
  intros Hn Hy Hm Hq Hh Hw Hp Hl. split; rewrite ?list_fmap_insert; try done.
  - by rewrite Hn, (inv_num _ _ Hs).
  - rewrite Hy, ghost_id by done. apply Hs.
Qed.

Lemma heap_same (s' : sys) (ℓ' : ghost) :
  ts_dheaps (sy_ts s') = ts_dheaps (sy_ts s) → g_heap ℓ' = g_heap ℓ →
  heap_inv (ts_dheaps (sy_ts s')) (<[i := g_heap ℓ']> (g_heap <$> ls)).
Proof. intros -> Hg. rewrite ghost_id by done. apply Hs. Qed.

Lemma wait_same (s' : sys) (ℓ' : ghost) :
  sizes s' = sizes s → waited (sy_events s') = waited (sy_events s) → g_wait ℓ' = g_wait ℓ →
  wait_inv (sizes s') (sy_events s') (<[i := g_wait ℓ']> (g_wait <$> ls)).
Proof. intros -> He Hg. unfold wait_inv. rewrite ghost_id, He by done. apply Hs. Qed.

Lemma prio_same (s' : sys) (ℓ' : ghost) :
  prios s' = prios s → g_left ℓ' = g_left ℓ → g_prio ℓ' = g_prio ℓ →
  prio_inv (prios s') (<[i := g_left ℓ']> (g_left <$> ls)) (<[i := g_prio ℓ']> (g_prio <$> ls)).
Proof. intros -> Hl Hp. rewrite (ghost_id g_left), (ghost_id g_prio) by done. apply Hs. Qed.

Lemma left_lookup : (left_of <$> (g_q <$> ls)) !! i = Some (left_of (g_q ℓ)).
Proof. by rewrite !list_lookup_fmap, Hi. Qed.

Lemma left_id (ℓ' : ghost) :
  left_of (g_q ℓ') = left_of (g_q ℓ) →
  <[i := left_of (g_q ℓ')]> (left_of <$> (g_q <$> ls)) = left_of <$> (g_q <$> ls).
Proof. intros ->. apply list_insert_id, left_lookup. Qed.

(** An action on the mutex, the condition or the barrier. *)
Lemma inv_sync (y : sync) (b : bool) :
  mx_inv y (<[i := b]> (g_mx <$> ls)) → inv (s <| sy_sync := y |>) (<[i := ℓ <| g_mx := b |>]> ls).
Proof.
  intros Hy. destruct Hs as [Hn (vs & hd & Hq) Hh Hw Hp Hl Hm].
  split; rewrite ?list_fmap_insert; cbn [g_q g_taken g_heap g_wait g_left g_prio g_stage g_mx set]; try done.
  - exists vs, hd. rewrite (ghost_id g_q), (ghost_id g_taken) by done. by eapply queues_frame.
  - by rewrite (ghost_id g_heap).
  - by rewrite (ghost_id g_wait).
  - by rewrite (ghost_id g_left), (ghost_id g_prio).
  - rewrite (ghost_id g_stage) by done. rewrite (left_id ℓ) by done. by apply (life_frame N n s).
Qed.

Lemma life_same (s' : sys) (ℓ' : ghost) :
  life_of s' = life_of s →
  (terminated (sy_events s') → terminated (sy_events s) ∧ (waited (sy_events s) = true → waited (sy_events s') = true)) →
  left_of (g_q ℓ') = left_of (g_q ℓ) → g_stage ℓ' = g_stage ℓ →
  life_inv N n s' (<[i := left_of (g_q ℓ')]> (left_of <$> (g_q <$> ls))) (<[i := g_stage ℓ']> (g_stage <$> ls)).
Proof.
  intros Hl He Hq Hg. rewrite left_id, (ghost_id g_stage) by done.
  by apply (life_frame N n s); [apply Hs|..].
Qed.

(** An event that neither counts a task nor ends a termination. *)
Lemma life_event (s' : sys) (ℓ' : ghost) e :
  life_of s' = life_of s → sy_events s' = sy_events s ++ [e] → waited_step true e = true → e ≠ Terminated →
  left_of (g_q ℓ') = left_of (g_q ℓ) → g_stage ℓ' = g_stage ℓ →
  life_inv N n s' (<[i := left_of (g_q ℓ')]> (left_of <$> (g_q <$> ls))) (<[i := g_stage ℓ']> (g_stage <$> ls)).
Proof.
  intros Hl He Hw Hne Hq Hg. apply life_same; [done| |done..].
  rewrite He, terminated_snoc, waited_snoc. intros [?|?]; [|done]. split; [done|]. by intros ->.
Qed.

Lemma queues_same (s' : sys) (ℓ' : ghost) :
  q_of <$> pools s' = q_of <$> pools s → sy_spin s' = sy_spin s → sy_events s' = sy_events s →
  g_q ℓ' = g_q ℓ → g_taken ℓ' = g_taken ℓ →
  ∃ vs hd, queues_inv N n res idx s' (<[i := g_q ℓ']> (g_q <$> ls)) (<[i := g_taken ℓ']> (g_taken <$> ls)) vs hd.
Proof.
  intros Hp Hsp He Hq Ht. rewrite (ghost_id g_q), (ghost_id g_taken) by done.
  destruct (inv_queues _ _ Hs) as (vs & hd & Hqs). exists vs, hd. by eapply queues_frame.
Qed.

(** Only the stage of the client changes, or the state without the queues. *)
Lemma inv_life_only (s' : sys) (c : stage) :
  ts_num (sy_ts s') = ts_num (sy_ts s) → sy_sync s' = sy_sync s →
  q_of <$> pools s' = q_of <$> pools s → sy_spin s' = sy_spin s →
  sy_events s' = sy_events s → ts_dheaps (sy_ts s') = ts_dheaps (sy_ts s) → sizes s' = sizes s → prios s' = prios s →
  life_inv N n s' (left_of <$> (g_q <$> ls)) (<[i := c]> (g_stage <$> ls)) →
  inv s' (<[i := ℓ <| g_stage := c |>]> ls).
Proof.
  intros Hn Hy Hp Hsp He Hd Hz Hpr Hl.
  apply inv_update; [done..|by apply queues_same|by apply heap_same|apply wait_same; [done|by rewrite He|done]
    |by apply prio_same|]. by rewrite left_id.
Qed.

(** The ghost state stays, and so does the invariant. *)
Lemma inv_stay : inv s (<[i := ℓ]> ls).
Proof. by rewrite list_insert_id. Qed.

Lemma inv_pools p : (p < n)%nat → ∃ pool, pools s !! p = Some pool ∧ at_index (pools s) (Z.of_nat p) = Some pool.
Proof.
  intros Hp. destruct (inv_queues _ _ Hs) as (vs & hd & Hqs).
  destruct (queues_lookup _ _ _ _ _ _ _ _ _ Hqs p Hp) as (v & pool & _ & Hpool & _).
  exists pool. split; [done|]. by rewrite at_index_nat, Nat2Z.id by lia.
Qed.
End update.

(** A worker is never inside a wait. *)
Lemma outside s ls i ℓ : inv s ls → ls !! i = Some ℓ → (N <= i)%nat ∨ g_mx ℓ = false → g_mx ℓ = false.
Proof.
  intros Hs Hi [Hge|]; [|done]. destruct (g_mx ℓ) eqn:Hm; [|done].
  pose proof (mx_client _ _ (inv_mx _ _ Hs) i) as Hc. rewrite list_lookup_fmap, Hi, <-Hm in Hc. cbn in Hc.
  rewrite Hm in Hc. specialize (Hc eq_refl). lia.
Qed.

(** ** Reads *)

Section reads.
Context (i : nat) (ℓ : ghost).
Implicit Types (Q : Z → ghost → Prop).

(** A field of the object. *)
Lemma tracks_rd f Q : (∀ z, Q z ℓ) → tracks inv may False i (rd f) ℓ Q.
Proof. intros HQ. apply tracks_act. intros s ls Hs Hi. cbn. exists ℓ. split; [by apply inv_stay|done]. Qed.

Lemma tracks_rd_num Q : Q (Z.of_nat n) ℓ → tracks inv may False i (rd ts_num) ℓ Q.
Proof.
  intros HQ. apply tracks_act. intros s ls Hs Hi. cbn. exists ℓ.
  rewrite (inv_num _ _ Hs). split; [by apply inv_stay|done].
Qed.

(** A field of a pool, with what the thread learns from it. *)
Lemma tracks_learn p f Q :
  (p < n)%nat →
  (∀ s ls pool, inv s ls → ls !! i = Some ℓ → pools s !! p = Some pool →
     ∃ ℓ', inv s (<[i := ℓ']> ls) ∧ Q (f pool) ℓ') →
  tracks inv may False i (rd_pool (Z.of_nat p) f) ℓ Q.
Proof.
  intros Hp HQ. apply tracks_act. intros s ls Hs Hi. unfold read_or_fault.
  destruct (inv_pools s ls Hs p Hp) as (pool & Hpool & Hat). fold (pools s).
  rewrite Hat. cbn. by eapply HQ.
Qed.

Lemma tracks_rd_pool p f Q : (p < n)%nat → (∀ z, Q z ℓ) → tracks inv may False i (rd_pool (Z.of_nat p) f) ℓ Q.
Proof. intros Hp HQ. apply tracks_learn; [done|]. intros s ls pool Hs Hi _. exists ℓ. split; [by apply inv_stay|done]. Qed.

(** The fields that never change. *)
Lemma tracks_rd_reserved p Q : (p < n)%nat → Q (res p) ℓ → tracks inv may False i (rd_pool (Z.of_nat p) tp_reserved) ℓ Q.
Proof.
  intros Hp HQ. apply tracks_learn; [done|]. intros s ls pool Hs Hi Hpool. exists ℓ. split; [by apply inv_stay|].
  destruct (inv_queues _ _ Hs) as (vs & hd & Hqs).
  destruct (queues_lookup _ _ _ _ _ _ _ _ _ Hqs p Hp) as (v & pool' & _ & Hpool' & _ & _ & _ & Hr & _). congruence.
Qed.

Lemma tracks_rd_index p Q : (p < n)%nat → Q (idx p) ℓ → tracks inv may False i (rd_pool (Z.of_nat p) tp_index) ℓ Q.
Proof.
  intros Hp HQ. apply tracks_learn; [done|]. intros s ls pool Hs Hi Hpool. exists ℓ. split; [by apply inv_stay|].
  destruct (inv_queues _ _ Hs) as (vs & hd & Hqs).
  destruct (queues_lookup _ _ _ _ _ _ _ _ _ Hqs p Hp) as (v & pool' & _ & Hpool' & _ & _ & _ & _ & Hx). congruence.
Qed.
End reads.

(** ** Writes *)

(** The object with another pool [p]. *)
Definition upd (p : nat) (pool : schTaskPool) (s : sys) : sys :=
  s <| sy_ts ::= λ ts, ts <| ts_pools ::= <[p := pool]> |> |>.

(** What the lives of the threads depend on. *)
Definition marks (pool : schTaskPool) : Z * Z * Z := (tp_thread pool, tp_schRefThread pool, tp_flag pool).

Section upd.
Context (s : sys) (p : nat) (pool pool' : schTaskPool) (Hpool : pools s !! p = Some pool).

Lemma upd_field (g : schTaskPool → Z) : g pool' = g pool → g <$> pools (upd p pool' s) = g <$> pools s.
Proof. by apply fmap_insert_same. Qed.

Lemma upd_sizes : tp_size pool' = tp_size pool → sizes (upd p pool' s) = sizes s.
Proof. by apply fmap_insert_same. Qed.

Lemma upd_life_of : marks pool' = marks pool → life_of (upd p pool' s) = life_of s.
Proof.
  intros Hm. unfold life_of, handles, refs, flags.
  rewrite (upd_field tp_thread) by exact (f_equal (λ m, m.1.1) Hm).
  rewrite (upd_field tp_schRefThread) by exact (f_equal (λ m, m.1.2) Hm).
  by rewrite (upd_field tp_flag) by exact (f_equal snd Hm).
Qed.

Lemma upd_prios : tp_dheapPriority pool' = tp_dheapPriority pool → prios (upd p pool' s) = prios s.
Proof. by apply fmap_insert_same. Qed.

Lemma upd_q_of : q_of pool' = q_of pool → q_of <$> pools (upd p pool' s) = q_of <$> pools s.
Proof. by apply fmap_insert_same. Qed.
End upd.

Section writes.
Context (i : nat) (ℓ : ghost).

(** What the thread learns about its queue. *)
Lemma inv_move s ls q' :
  inv s ls → ls !! i = Some ℓ → holds q' = holds (g_q ℓ) → left_of q' = left_of (g_q ℓ) →
  (holds (g_q ℓ) = true → ∀ p v, edit q' p v = edit (g_q ℓ) p v) →
  (∀ p, inflight p q' = inflight p (g_q ℓ)) →
  (∀ vs hd, queues_inv N n res idx s (g_q <$> ls) (g_taken <$> ls) vs hd →
     thread_ok N n res idx vs (sy_events s) i (g_q ℓ) (g_taken ℓ) →
     thread_ok N n res idx vs (sy_events s) i q' (g_taken ℓ)) →
  inv s (<[i := ℓ <| g_q := q' |>]> ls).
Proof.
  intros Hs Hi Hh Hleft Hedit Hin Hok. destruct (inv_queues _ _ Hs) as (vs & hd & Hqs).
  eapply inv_update; [done..| |by eapply heap_same|by eapply wait_same|by eapply prio_same|by eapply life_same].
  pose proof (ghost_lookup ls i ℓ Hi g_q) as Hq. pose proof (ghost_lookup ls i ℓ Hi g_taken) as Ht.
  destruct (queues_move N n res idx _ _ _ _ _ _ _ q' _ Hqs Hq Ht) as [hd' Hqs']; [done|done|auto| |].
  { eapply Hok; [exact Hqs|by eapply (qi_thread _ _ _ _ _ _ _ _ _ Hqs)]. }
  exists vs, hd'. rewrite (ghost_id ls i ℓ Hi g_taken) by done. done.
Qed.

Lemma tracks_lock q' (Q : Z → ghost → Prop) :
  (N <= i)%nat ∨ g_mx ℓ = false →
  holds (g_q ℓ) = false → holds q' = true → left_of q' = left_of (g_q ℓ) → (∀ p v, edit q' p v = v) → (∀ p, inflight p q' = inflight p (g_q ℓ)) →
  (∀ vs es tk, length vs = n → thread_ok N n res idx vs es i (g_q ℓ) tk → thread_ok N n res idx vs es i q' tk) →
  Q 0 (ℓ <| g_q := q' |>) → tracks inv may False i spin_lock ℓ Q.
Proof.
  intros Hmx Hout Hq' Hleft Hedit Hin Hok HQ. apply tracks_act. intros s ls Hs Hi.
  destruct (sy_spin s) eqn:Hfree; [exists ℓ; split_and!; [done..|by eapply outside|by left]|]. eexists. split; [|exact HQ].
  destruct (inv_queues _ _ Hs) as (vs & hd & Hqs).
  eapply inv_update; [done..| |by eapply heap_same|by eapply wait_same|by eapply prio_same|by eapply life_same].
  pose proof (ghost_lookup ls i ℓ Hi g_q) as Hq. pose proof (ghost_lookup ls i ℓ Hi g_taken) as Ht.
  exists vs, (Some q'). rewrite (ghost_id ls i ℓ Hi g_taken) by done.
  eapply queues_lock; try done. apply Hok; [apply Hqs|by eapply (qi_thread _ _ _ _ _ _ _ _ _ Hqs)].
Qed.

Lemma tracks_unlock q' (Q : Z → ghost → Prop) :
  holds (g_q ℓ) = true → holds q' = false → left_of q' = left_of (g_q ℓ) → (∀ p v, edit (g_q ℓ) p v = v) →
  (∀ p, inflight p q' = inflight p (g_q ℓ)) →
  (∀ vs es tk, length vs = n → thread_ok N n res idx vs es i (g_q ℓ) tk → thread_ok N n res idx vs es i q' tk) →
  Q 0 (ℓ <| g_q := q' |>) → tracks inv may False i spin_unlock ℓ Q.
Proof.
  intros Hq Hq' Hleft Hedit Hin Hok HQ. apply tracks_act. intros s ls Hs Hi.
  eexists. split; [|exact HQ]. destruct (inv_queues _ _ Hs) as (vs & hd & Hqs).
  eapply inv_update; [done..| |by eapply heap_same|by eapply wait_same|by eapply prio_same|by eapply life_same].
  pose proof (ghost_lookup ls i ℓ Hi g_q) as Hqi. pose proof (ghost_lookup ls i ℓ Hi g_taken) as Ht.
  exists vs, None. rewrite (ghost_id ls i ℓ Hi g_taken) by done.
  eapply queues_unlock; try done. apply Hok; [apply Hqs|by eapply (qi_thread _ _ _ _ _ _ _ _ _ Hqs)].
Qed.

(** A write inside the critical section, not of [size]. *)
Lemma inv_write s ls p pool pool' q' :
  inv s ls → ls !! i = Some ℓ → pools s !! p = Some pool →
  tp_size pool' = tp_size pool → tp_dheapPriority pool' = tp_dheapPriority pool → marks pool' = marks pool →
  holds (g_q ℓ) = true → holds q' = true → left_of q' = left_of (g_q ℓ) → (∀ p, inflight p q' = inflight p (g_q ℓ)) →
  (∀ p0 v0, p0 ≠ p → edit q' p0 v0 = edit (g_q ℓ) p0 v0) →
  (∀ vs v tk, length vs = n → vs !! p = Some v → wring (res p) (idx p) v →
     q_of pool = q_of (edit (g_q ℓ) p v) → thread_ok N n res idx vs (sy_events s) i (g_q ℓ) tk →
     q_of pool' = q_of (edit q' p v) ∧ thread_ok N n res idx vs (sy_events s) i q' tk) →
  inv (upd p pool' s) (<[i := ℓ <| g_q := q' |>]> ls).
Proof.
  intros Hs Hi Hpool Hsize Hprio Hthread Hq Hq' Hleft Hin Hedit Hok.
  destruct (inv_queues _ _ Hs) as (vs & hd & Hqs).
  pose proof (ghost_lookup ls i ℓ Hi g_q) as Hqi. pose proof (ghost_lookup ls i ℓ Hi g_taken) as Ht.
  eapply inv_update; [done..| |by eapply heap_same| | |].
  - pose proof (qi_lengths _ _ _ _ _ _ _ _ _ Hqs) as (Hl1 & Hl2 & _).
    destruct (lookup_lt_is_Some_2 vs p) as [v Hv]; [rewrite Hl1, <-Hl2; by eapply lookup_lt_Some|].
    pose proof (holder_is _ _ _ _ (qi_holder _ _ _ _ _ _ _ _ _ Hqs) Hqi Hq) as ->.
    destruct (Hok vs v (g_taken ℓ)) as [Hpool' Hth]; [done|done| | |by eapply (qi_thread _ _ _ _ _ _ _ _ _ Hqs)|].
    { by eapply (qi_ring _ _ _ _ _ _ _ _ _ Hqs). }
    { by eapply (qi_pool _ _ _ _ _ _ _ _ _ Hqs). }
    exists vs, (Some q'). rewrite (ghost_id ls i ℓ Hi g_taken) by done. by eapply queues_write.
  - eapply wait_same; try done. by eapply upd_sizes.
  - eapply prio_same; try done. by eapply upd_prios.
  - eapply life_same; try done. by eapply upd_life_of.
Qed.

(** A write of a pool, in general; of a field that is not in the invariant. *)
Lemma tracks_wr_pool p f (Q : Z → ghost → Prop) :
  (p < n)%nat →
  (∀ s ls pool, inv s ls → ls !! i = Some ℓ → pools s !! p = Some pool →
     ∃ ℓ', inv (upd p (f pool) s) (<[i := ℓ']> ls) ∧ Q 0 ℓ') →
  tracks inv may False i (wr_pool (Z.of_nat p) f) ℓ Q.
Proof.
  intros Hp HQ. apply tracks_act. intros s ls Hs Hi. unfold write_or_fault.
  destruct (inv_pools s ls Hs p Hp) as (pool & Hpool & Hat). fold (pools s).
  rewrite Hat. cbn [deref]. rewrite Nat2Z.id. destruct (HQ s ls pool Hs Hi Hpool) as (ℓ' & Hs' & HQ').
  exists ℓ'. done.
Qed.

Lemma tracks_wr_misc p f (Q : Z → ghost → Prop) :
  (p < n)%nat →
  (∀ pool, q_of (f pool) = q_of pool ∧ tp_dheapPriority (f pool) = tp_dheapPriority pool ∧
     marks (f pool) = marks pool) →
  Q 0 ℓ → tracks inv may False i (wr_pool (Z.of_nat p) f) ℓ Q.
Proof.
  intros Hp Hf HQ. apply tracks_wr_pool; [done|]. intros s ls pool Hs Hi Hpool. exists ℓ.
  split; [|done]. destruct (Hf pool) as (Hq & Hpr & Hth).
  assert (tp_size (f pool) = tp_size pool) as Hsz by exact (f_equal tp_size Hq).
  eapply inv_update; [done..| |by eapply heap_same| | |].
  - eapply queues_same; try done. by eapply upd_q_of.
  - eapply wait_same; try done. by eapply upd_sizes.
  - eapply prio_same; try done. by eapply upd_prios.
  - eapply life_same; try done. by eapply upd_life_of.
Qed.

(** A write of the flag word of a pool. *)
Lemma inv_fields s ls p pool pool' :
  inv s ls → ls !! i = Some ℓ → pools s !! p = Some pool →
  q_of pool' = q_of pool → tp_dheapPriority pool' = tp_dheapPriority pool → tp_thread pool' = tp_thread pool →
  tp_schRefThread pool' = tp_schRefThread pool →
  ((left_of <$> (g_q <$> ls)) !! (N + p)%nat = Some PNew → truthy (SchC.isRunning (tp_flag pool')) = false) →
  inv (upd p pool' s) (<[i := ℓ]> ls).
Proof.
  intros Hs Hi Hpool Hq Hpr Hth Href Hfr. pose proof (inv_life _ _ Hs) as Hl.
  eapply inv_update; [done..| |by eapply heap_same| | |].
  - eapply queues_same; try done. by eapply upd_q_of.
  - eapply wait_same; try done. eapply upd_sizes; [done|]. exact (f_equal tp_size Hq).
  - eapply prio_same; try done. by eapply upd_prios.
  - rewrite (ghost_id ls i ℓ Hi g_stage), (left_id ls i ℓ Hi) by done.
    assert (∀ (g : schTaskPool → Z) q z, (g <$> pools (upd p pool' s)) !! q = Some z →
      q = p ∧ z = g pool' ∨ (g <$> pools s) !! q = Some z) as Hlook.
    { intros g q z. unfold pools. cbn. rewrite list_fmap_insert.
      intros [(-> & -> & _)|[_ ?]]%list_lookup_insert_Some; auto. }
    apply (life_fields N n s); try done.
    + by eapply fmap_insert_same.
    + by eapply fmap_insert_same.
    + intros q f Hnew [[-> ->]|Hf]%Hlook; [by apply Hfr|by eapply (li_fresh _ _ _ _ _ Hl)].
Qed.

(** *** Priorities *)

Lemma left_le ls : ls !! i = Some ℓ → (g_left ℓ <= sum_list_with id (g_left <$> ls))%nat.
Proof.
  intros Hi. pose proof (sum_list_with_insert id _ i _ 0%nat (ghost_lookup ls i ℓ Hi g_left)). cbn in *. lia.
Qed.

(** A worker writes the measured time, or 0. *)
Lemma tracks_wr_prio p t (Q : Z → ghost → Prop) :
  (p < n)%nat → 0 <= t <= T → Q 0 ℓ →
  tracks inv may False i (wr_pool (Z.of_nat p) (λ pool, pool <| tp_dheapPriority := t |>)) ℓ Q.
Proof.
  intros Hp Ht HQ. apply tracks_wr_pool; [done|]. intros s ls pool Hs Hi Hpool. exists ℓ. split; [|done].
  eapply inv_update; [done..| |by eapply heap_same| | |].
  - eapply queues_same; try done. by eapply upd_q_of.
  - eapply wait_same; try done. by eapply upd_sizes.
  - rewrite (ghost_id ls i ℓ Hi g_left), (ghost_id ls i ℓ Hi g_prio) by done.
    destruct (inv_prio _ _ Hs) as (Htot & Hpr & Hrd). split_and!; [done| |done].
    unfold prios, pools. cbn. rewrite list_fmap_insert. apply Forall_insert; [done|].
    cbn. unfold prio_ok. lia.
  - eapply life_same; try done. by eapply upd_life_of.
Qed.

(** A client reads a priority, with a submit left, and writes it increased. *)
Lemma tracks_rd_prio p (Q : Z → ghost → Prop) :
  T + 1000 * total <= LONG_MAX → (p < n)%nat → (0 < g_left ℓ)%nat →
  (∀ z, 0 <= z → z + 1000 <= LONG_MAX → Q z (ℓ <| g_prio := Some z |>)) →
  tracks inv may False i (rd_pool (Z.of_nat p) tp_dheapPriority) ℓ Q.
Proof.
  intros HT Hp Hleft HQ. apply tracks_learn; [done|]. intros s ls pool Hs Hi Hpool.
  destruct (inv_prio _ _ Hs) as (Htot & Hpr & Hrd). pose proof (left_le ls Hi) as Hle.
  assert (prio_ok (g_left <$> ls) (tp_dheapPriority pool)) as Hok.
  { eapply Forall_lookup_1; [exact Hpr|]. unfold prios. by rewrite list_lookup_fmap, Hpool. }
  eexists. split; [|apply HQ; unfold prio_ok in Hok; lia].
  eapply inv_update; [done..|by eapply queues_same|by eapply heap_same|by eapply wait_same| |by eapply life_same].
  rewrite (ghost_id ls i ℓ Hi g_left) by done. split_and!; [done..|].
  apply Forall_insert; [done|]. cbn. by intros z [= <-].
Qed.

Lemma tracks_wr_prio_inc p z k (Q : Z → ghost → Prop) :
  (p < n)%nat → g_prio ℓ = Some z → g_left ℓ = S k →
  Q 0 (ℓ <| g_left := k |> <| g_prio := None |>) →
  tracks inv may False i (wr_pool (Z.of_nat p) (λ pool, pool <| tp_dheapPriority := z + 1000 |>)) ℓ Q.
Proof.
  intros Hp Hz Hk HQ. apply tracks_wr_pool; [done|]. intros s ls pool Hs Hi Hpool. eexists. split; [|exact HQ].
  eapply inv_update; [done..| |by eapply heap_same| | |].
  - eapply queues_same; try done. by eapply upd_q_of.
  - eapply wait_same; try done. by eapply upd_sizes.
  - destruct (inv_prio _ _ Hs) as (Htot & Hpr & Hrd). cbn [g_left g_prio set tset const].
    pose proof (sum_list_with_insert id _ i _ k (ghost_lookup ls i ℓ Hi g_left)) as Hsum.
    rewrite Hk in Hsum. change (id (S k)) with (S k) in Hsum. change (id k) with k in Hsum.
    assert (∀ y, prio_ok (g_left <$> ls) y → prio_ok (<[i:=k]> (g_left <$> ls)) y) as Hmono.
    { unfold prio_ok. intros y Hy. lia. }
    split_and!; [lia| |].
    + unfold prios, pools. cbn. rewrite list_fmap_insert. apply Forall_insert.
      * eapply Forall_impl; [exact Hpr|exact Hmono].
      * cbn. pose proof (Forall_lookup_1 _ _ _ _ Hrd (ghost_lookup ls i ℓ Hi g_prio) z Hz) as Hok.
        unfold prio_ok in *. lia.
    + apply Forall_insert; [|done]. eapply Forall_impl; [exact Hrd|]. cbn. eauto.
  - eapply life_same; try done. by eapply upd_life_of.
Qed.

(** *** The RUNNING flag, and the threads *)

Lemma life_at s ls : inv s ls → ls !! i = Some ℓ →
  life_inv N n s (left_of <$> (g_q <$> ls)) (g_stage <$> ls) ∧ (g_stage <$> ls) !! i = Some (g_stage ℓ).
Proof. intros Hs Hi. split; [apply Hs|by apply ghost_lookup]. Qed.

(** A client that terminates nothing reads the flag word. *)
Lemma tracks_rd_flag (Q : Z → ghost → Prop) :
  (i < N)%nat → closing (g_stage ℓ) = false →
  (∀ z, has z SCH_FLAG_RUNNING = true → Q z (ℓ <| g_stage := SUp |>)) →
  (∀ z, has z SCH_FLAG_RUNNING = false → g_stage ℓ ≠ SUp → Q z ℓ) → tracks inv may False i (rd ts_flag) ℓ Q.
Proof.
  intros Hlt Hc HQ1 HQ2. apply tracks_act. intros s ls Hs Hi. cbn. destruct (life_at s ls Hs Hi) as [Hl Hst].
  destruct (has (ts_flag (sy_ts s)) SCH_FLAG_RUNNING) eqn:Hup.
  - eexists. split; [|by apply HQ1].
    eapply inv_life_only; try done. eapply life_stage; try done.
    + by rewrite Hc.
    + intros p Hp. by rewrite Hp in Hc.
    + intros p Hp. by rewrite Hp in Hc.
  - exists ℓ. split; [by apply inv_stay|]. apply HQ2; [done|]. intros Hc0.
    pose proof (li_stage _ _ _ _ _ Hl i _ Hst) as Hok. rewrite Hc0 in Hok. cbn in Hok. unfold up in Hok. congruence.
Qed.

(** A client that is up does not wait for RUNNING. *)
Lemma tracks_await w (Q : Z → ghost → Prop) :
  g_stage ℓ = SUp → Q 0 ℓ → tracks inv may False i (await_running w) ℓ Q.
Proof.
  intros Hup HQ. apply (tracks_iter _ _ _ (λ _ m, m = ℓ)); [done|]. intros [] m ->.
  apply tracks_bind, tracks_act. intros s ls Hs Hi. destruct (life_at s ls Hs Hi) as [Hl Hst]. cbn.
  pose proof (li_stage _ _ _ _ _ Hl i _ Hst) as Hok. rewrite Hup in Hok. cbn in Hok. unfold up in Hok.
  exists ℓ. split; [by apply inv_stay|]. rewrite Hok. by apply tracks_ret.
Qed.

(** *** The mutex, the condition and the barrier *)

Lemma mxs_insert s ls b k c :
  inv s ls → ls !! i = Some ℓ → <[i := b]> (g_mx <$> ls) !! k = Some c →
  k = i ∧ c = b ∨ k ≠ i ∧ (g_mx <$> ls) !! k = Some c.
Proof. intros Hs Hi [(-> & -> & _)|[Hne ?]]%list_lookup_insert_Some; auto. Qed.

(** An action that changes neither the holder of the mutex nor who is inside a wait. *)
Lemma tracks_sync f (Q : Z → ghost → Prop) :
  (∀ y, sn_waiters y = 0%nat → ∃ y', f y = Some y' ∧ sn_mutex y' = sn_mutex y ∧ sn_waiters y' = 0%nat ∧
     (sn_misuse y' = sn_misuse y ∨ sn_misuse y' = sn_misuse y ++ [BarrierAgain])) →
  Q 0 ℓ → tracks inv may False i (sync_act f) ℓ Q.
Proof.
  intros Hf HQ. apply tracks_act. intros s ls Hs Hi.
  destruct (inv_mx _ _ Hs) as [Hc Hh Hwt Hws Hu Hin].
  destruct (Hf (sy_sync s) Hwt) as (y' & -> & Hm & Hw' & Hms). exists ℓ. split; [|done].
  assert (∀ m, m ≠ BarrierAgain → m ∈ sn_misuse y' ↔ m ∈ sn_misuse (sy_sync s)) as Hel.
  { intros m Hne. destruct Hms as [-> | ->]; [done|]. rewrite elem_of_app, list_elem_of_singleton. by intuition. }
  assert (pool_unlocks y' ↔ pool_unlocks (sy_sync s)) as Hpu.
  { unfold pool_unlocks. by setoid_rewrite Hel. }
  assert (ℓ <| g_mx := g_mx ℓ |> = ℓ) as Hid by by destruct ℓ.
  rewrite <-Hid at 1. apply inv_sync; [done..|]. rewrite (ghost_id ls i ℓ Hi g_mx) by done.
  split; rewrite ?Hm; try done.
  - intros w. by rewrite Hel.
  - intros k. rewrite Hel, Hpu by done. apply Hu.
  - intros k. rewrite Hpu. apply Hin.
Qed.

(** A client locks the mutex, and unlocks it. *)
Lemma tracks_mutex_lock (Q : Z → ghost → Prop) :
  (i < N)%nat → holds (g_q ℓ) = false → g_mx ℓ = false → Q 0 (ℓ <| g_mx := true |>) →
  tracks inv may False i (mutex_lock (Client i)) ℓ Q.
Proof.
  intros Hlt Hq Hg HQ. apply tracks_act. intros s ls Hs Hi. unfold mutex_take.
  destruct (inv_mx _ _ Hs) as [Hc Hh Hwt Hws Hu Hin].
  destruct (sn_mutex (sy_sync s)) as [w|] eqn:Hm; [exists ℓ; split_and!; [done..|]; right; left; by rewrite Hm|].
  eexists. split; [|exact HQ]. apply inv_sync; [done..|].
  split; cbn; try done.
  - intros k [[-> _]|[_ Hk]]%(mxs_insert s ls); [done|by apply Hc|done..].
  - intros w [= <-]. exists i. split; [done|]. apply list_lookup_insert_eq.
    rewrite length_fmap. by eapply lookup_lt_Some.
  - intros k [[-> _]|[_ Hk]]%(mxs_insert s ls); [by left| |done..]. right.
    destruct (Hin k Hk) as [?|?]; [congruence|done].
Qed.

Lemma tracks_mutex_unlock (Q : Z → ghost → Prop) :
  g_mx ℓ = true → Q 0 (ℓ <| g_mx := false |>) → tracks inv may False i (mutex_unlock (Client i)) ℓ Q.
Proof.
  intros Hg HQ. apply tracks_act. intros s ls Hs Hi. cbn.
  destruct (inv_mx _ _ Hs) as [Hc Hh Hwt Hws Hu Hin].
  assert ((g_mx <$> ls) !! i = Some true) as Hme by (rewrite <-Hg; by apply ghost_lookup).
  eexists. split; [|exact HQ]. apply inv_sync; [done..|]. unfold mutex_drop. case_decide as Hd.
  - split; cbn; try done.
    + intros k [[-> ?]|[_ Hk]]%(mxs_insert s ls); [by apply Hc|by apply Hc|done..].
    + intros k [[_ ?]|[Hne Hk]]%(mxs_insert s ls); [done| |done..]. right.
      destruct (Hin k Hk) as [Hk'|?]; [|done]. congruence.
  - assert (pool_unlocks (sy_sync s)) as [p Hp] by by destruct (Hin i Hme).
    assert (∃ p, UnlockUnheld (Pool p) ∈ sn_misuse (sy_sync s) ++ [UnlockUnheld (Client i)]) as Hpu.
    { exists p. rewrite elem_of_app. by left. }
    split; cbn; try done.
    + intros k [[-> ?]|[_ Hk]]%(mxs_insert s ls); [by apply Hc|by apply Hc|done..].
    + intros w. rewrite elem_of_app, list_elem_of_singleton. by intros [?%Hws|?].
    + intros k _. right. exact Hpu.
Qed.

(** A pool thread unlocks the mutex. *)
Lemma tracks_pool_unlock p (Q : Z → ghost → Prop) :
  Q 0 ℓ → tracks inv may False i (mutex_unlock (Pool p)) ℓ Q.
Proof.
  intros HQ. apply tracks_act. intros s ls Hs Hi. cbn. exists ℓ. split; [|done].
  destruct (inv_mx _ _ Hs) as [Hc Hh Hwt Hws Hu Hin].
  assert (ℓ <| g_mx := g_mx ℓ |> = ℓ) as Hid by by destruct ℓ.
  rewrite <-Hid at 1. apply inv_sync; [done..|]. rewrite (ghost_id ls i ℓ Hi g_mx) by done.
  unfold mutex_drop. rewrite decide_False by (intros (k & ? & _)%Hh; congruence).
  assert (∃ q, UnlockUnheld (Pool q) ∈ sn_misuse (sy_sync s) ++ [UnlockUnheld (Pool p)]) as Hpu.
  { exists p. rewrite elem_of_app, list_elem_of_singleton. by right. }
  split; cbn; try done.
  - intros w. rewrite elem_of_app, list_elem_of_singleton. by intros [?%Hws|?].
  - intros k _. right. exact Hpu.
Qed.

Lemma tracks_cond_signal (Q : Z → ghost → Prop) : Q 0 ℓ → tracks inv may False i cond_signal ℓ Q.
Proof.
  apply tracks_sync. intros y Hw. eexists. split; [done|]. case_match; cbn; auto.
Qed.

Lemma tracks_barrier_init count (Q : Z → ghost → Prop) : Q 0 ℓ → tracks inv may False i (barrier_init count) ℓ Q.
Proof.
  apply tracks_sync. intros y Hw. eexists. split; [done|]. case_match; cbn; auto.
Qed.

Lemma inv_pending s ls f :
  inv s ls → (∀ l, length (f l) = length l) → inv (s <| sy_pending ::= f |>) ls.
Proof.
  intros [Hn (vs & hd & Hq) Hh Hw Hp Hl Hm] Hf. split; try done.
  - exists vs, hd. by eapply queues_frame.
  - destruct Hl as [(H1 & H2 & H3 & H4) ???????]. split; try done. cbn. by rewrite Hf.
Qed.

(** The handle of a pool. *)
Lemma threaded_handle s p pool : threaded s p → pools s !! p = Some pool → tp_thread pool ≠ NULL.
Proof.
  intros (h & Hh & Hne) Hpool. unfold handles in Hh. rewrite list_lookup_fmap, Hpool in Hh. by injection Hh as ->.
Qed.

Lemma handle_threaded s p pool : pools s !! p = Some pool → tp_thread pool ≠ NULL → threaded s p.
Proof. intros Hpool Hne. exists (tp_thread pool). split; [|done]. unfold handles. by rewrite list_lookup_fmap, Hpool. Qed.

Lemma thread_of_live s p h t :
  h ≠ NULL → sy_life s !! p = Some t → t ≠ Joined → thread_of s (Z.of_nat p) h = Some t.
Proof.
  intros Hh Ht Hne. unfold thread_of. rewrite decide_False by done.
  rewrite at_index_nat, Nat2Z.id by lia. rewrite Ht. cbn. by rewrite decide_False.
Qed.

(** A client that is up reads a handle, which it may signal. *)
Lemma tracks_rd_thread_up p (Q : Z → ghost → Prop) :
  g_stage ℓ = SUp → (p < n)%nat → (∀ z, z ≠ NULL → Q z ℓ) →
  tracks inv may False i (rd_pool (Z.of_nat p) tp_thread) ℓ Q.
Proof.
  intros Hup Hp HQ. apply tracks_learn; [done|]. intros s ls pool Hs Hi Hpool. exists ℓ.
  split; [by apply inv_stay|]. apply HQ. destruct (life_at s ls Hs Hi) as [Hl Hst].
  eapply threaded_handle; [|done]. by eapply (up_thread N n s).
Qed.

Lemma tracks_raise_continue p h (Q : Z → ghost → Prop) :
  g_stage ℓ = SUp → (p < n)%nat → h ≠ NULL → Q (err_code SCH_OK) ℓ →
  tracks inv may False i (raise (Z.of_nat p) h SCH_SIGNAL_CONTINUE) ℓ Q.
Proof.
  intros Hup Hp Hh HQ. apply tracks_act. intros s ls Hs Hi. destruct (life_at s ls Hs Hi) as [Hl Hst].
  destruct (life_lookup _ _ _ _ _ p Hl Hp) as [t Ht].
  destruct (up_thread _ _ _ _ _ Hl i _ Hst p Hup Hp) as [_ Hj].
  rewrite (thread_of_live s p h t) by congruence. exists ℓ. split; [|exact HQ].
  apply inv_pending; [by apply inv_stay|]. intros l. apply length_insert.
Qed.

(** *** Termination *)

(** The client starts, with every pool still to stop, or goes on. *)
Lemma tracks_rd_num_down x (Q : Z → ghost → Prop) :
  N = 1%nat → i = 0%nat → g_stage ℓ = SUp ∧ x = 0%nat ∨ g_stage ℓ = SDown x →
  Q (Z.of_nat n) (ℓ <| g_stage := SDown x |>) → tracks inv may False i (rd ts_num) ℓ Q.
Proof.
  intros HN Hz Hx HQ. apply tracks_act. intros s ls Hs Hi. cbn. rewrite (inv_num _ _ Hs).
  eexists. split; [|exact HQ]. destruct (life_at s ls Hs Hi) as [Hl Hst].
  eapply inv_life_only; try done. eapply life_stage; try done.
  - destruct Hx as [[_ ->]|Hx]; [intros p h Hp; lia|].
    pose proof (li_stage _ _ _ _ _ Hl i _ Hst) as Hok. by rewrite Hx in Hok.
  - lia.
  - auto.
  - intros p Hp. destruct Hx as [[Hx _]|Hx]; congruence.
  - intros p Hp. destruct Hx as [[Hx _]|Hx]; congruence.
Qed.

Lemma tracks_rd_thread_down x (Q : Z → ghost → Prop) :
  N = 1%nat → i = 0%nat → (x < n)%nat → g_stage ℓ = SDown x →
  Q NULL (ℓ <| g_stage := SDown (S x) |>) → (∀ z, z ≠ NULL → Q z (ℓ <| g_stage := SKill x |>)) →
  tracks inv may False i (rd_pool (Z.of_nat x) tp_thread) ℓ Q.
Proof.
  intros HN Hz Hx Hst0 HQ1 HQ2. apply tracks_learn; [done|]. intros s ls pool Hs Hi Hpool.
  destruct (life_at s ls Hs Hi) as [Hl Hst]. rewrite Hst0 in Hst.
  pose proof (li_stage _ _ _ _ _ Hl i _ Hst) as Hstop. cbn in Hstop.
  destruct (decide (tp_thread pool = NULL)) as [Hnull|Hne].
  - rewrite Hnull. eexists. split; [|exact HQ1].
    eapply inv_life_only; try done. eapply life_stage; try done; [|lia|auto].
    intros p h Hp Hh. destruct (decide (p = x)) as [->|]; [|apply (Hstop p h); [lia|done]].
    unfold handles in Hh. rewrite list_lookup_fmap, Hpool in Hh. injection Hh as <-. done.
  - eexists. split; [|by apply HQ2].
    eapply inv_life_only; try done. eapply life_stage; try done; [|lia|auto].
    split; [done|by eapply handle_threaded].
Qed.

(** The handle is read again before each use. *)
Lemma tracks_rd_thread_again x (Q : Z → ghost → Prop) :
  (x < n)%nat → g_stage ℓ = SKill x ∨ g_stage ℓ = SJoin x → (∀ z, z ≠ NULL → Q z ℓ) →
  tracks inv may False i (rd_pool (Z.of_nat x) tp_thread) ℓ Q.
Proof.
  intros Hx Hst0 HQ. apply tracks_learn; [done|]. intros s ls pool Hs Hi Hpool. exists ℓ.
  split; [by apply inv_stay|]. apply HQ. destruct (life_at s ls Hs Hi) as [Hl Hst].
  pose proof (li_stage _ _ _ _ _ Hl i _ Hst) as Hok.
  eapply threaded_handle; [|done]. by destruct Hst0 as [E|E]; rewrite E in Hok; apply Hok.
Qed.

Lemma tracks_raise_term x h (Q : Z → ghost → Prop) :
  (x < n)%nat → g_stage ℓ = SKill x → h ≠ NULL → Q (err_code SCH_OK) (ℓ <| g_stage := SJoin x |>) →
  tracks inv may False i (raise (Z.of_nat x) h SIGTERM) ℓ Q.
Proof.
  intros Hx Hst0 Hh HQ. apply tracks_act. intros s ls Hs Hi. destruct (life_at s ls Hs Hi) as [Hl Hst].
  destruct (life_lookup _ _ _ _ _ x Hl Hx) as [t Ht].
  pose proof (closing_thread _ _ _ _ _ Hl i _ Hst x (or_introl Hst0)) as Hj.
  rewrite (thread_of_live s x h t) by congruence. rewrite decide_True, Nat2Z.id by done.
  eexists. split; [|exact HQ]. eapply inv_life_only; try done. by eapply life_kill.
Qed.

Lemma tracks_join x h (Q : Z → ghost → Prop) :
  (x < n)%nat → holds (g_q ℓ) = false → g_mx ℓ = false → g_stage ℓ = SJoin x → h ≠ NULL → Q (err_code SCH_OK) (ℓ <| g_stage := SFree x |>) →
  tracks inv may False i (join (Z.of_nat x) h) ℓ Q.
Proof.
  intros Hx Hq Hmx Hst0 Hh HQ. apply tracks_act. intros s ls Hs Hi. destruct (life_at s ls Hs Hi) as [Hl Hst].
  destruct (life_lookup _ _ _ _ _ x Hl Hx) as [t Ht].
  pose proof (closing_thread _ _ _ _ _ Hl i _ Hst x (or_intror Hst0)) as Hj.
  rewrite (thread_of_live s x h t) by congruence. destruct t; [..|done].
  - exists ℓ. split_and!; [done..|]. right. right. left. by exists x.
  - rewrite Nat2Z.id. eexists. split; [|exact HQ]. eapply inv_life_only; try done. by eapply life_join.
Qed.

Lemma tracks_wr_thread x (Q : Z → ghost → Prop) :
  (x < n)%nat → g_stage ℓ = SFree x → Q 0 (ℓ <| g_stage := SWipe x |>) →
  tracks inv may False i (wr_pool (Z.of_nat x) (λ pool, pool <| tp_thread := NULL |>)) ℓ Q.
Proof.
  intros Hx Hst0 HQ. apply tracks_wr_pool; [done|]. intros s ls pool Hs Hi Hpool. eexists. split; [|exact HQ].
  destruct (life_at s ls Hs Hi) as [Hl Hst]. eapply inv_life_only; try done.
  - by eapply upd_q_of.
  - by eapply upd_sizes.
  - by eapply upd_prios.
  - eapply life_forget; try done. unfold life_of, refs, flags.
    rewrite (upd_field s x pool _ Hpool tp_schRefThread), (upd_field s x pool _ Hpool tp_flag) by done.
    do 5 f_equal. f_equal. unfold handles, pools. cbn. by rewrite list_fmap_insert.
Qed.

Lemma tracks_wr_ref x (Q : Z → ghost → Prop) :
  (x < n)%nat → g_stage ℓ = SWipe x → Q 0 (ℓ <| g_stage := SDown (S x) |>) →
  tracks inv may False i (wr_pool (Z.of_nat x) (λ pool, pool <| tp_schRefThread := NULL |>)) ℓ Q.
Proof.
  intros Hx Hst0 HQ. apply tracks_wr_pool; [done|]. intros s ls pool Hs Hi Hpool. eexists. split; [|exact HQ].
  destruct (life_at s ls Hs Hi) as [Hl Hst]. eapply inv_life_only; try done.
  - by eapply upd_q_of.
  - by eapply upd_sizes.
  - by eapply upd_prios.
  - eapply life_wipe; try done. unfold life_of, handles, flags.
    rewrite (upd_field s x pool _ Hpool tp_thread), (upd_field s x pool _ Hpool tp_flag) by done.
    f_equal. f_equal. unfold refs, pools. cbn. by rewrite list_fmap_insert.
Qed.

Lemma tracks_clear_running (Q : Z → ghost → Prop) :
  g_stage ℓ = SDown n → Q 0 (ℓ <| g_stage := SClosed |>) →
  tracks inv may False i (wr_flag (λ flag, Z.land flag (Z.lnot SCH_FLAG_RUNNING))) ℓ Q.
Proof.
  intros Hst0 HQ. apply tracks_act. intros s ls Hs Hi. cbn. eexists. split; [|exact HQ].
  destruct (life_at s ls Hs Hi) as [Hl Hst]. eapply inv_life_only; try done.
  eapply life_close; try done. unfold life_of. do 6 f_equal. unfold up. cbn. apply has_clear.
Qed.

(** Every pool has been seen idle. *)
Lemma wait_marked s s' ls ℓ' :
  sizes s' = sizes s → inv s ls → ls !! i = Some ℓ → (i < N)%nat → Z.of_nat n <= g_wait ℓ → g_wait ℓ' = g_wait ℓ →
  wait_inv (sizes s') (sy_events s') (<[i := g_wait ℓ']> (g_wait <$> ls)).
Proof.
  intros -> Hs Hi Hlt Hw Hg HN. rewrite (ghost_id ls i ℓ Hi g_wait) by done.
  destruct (inv_queues _ _ Hs) as (vs & hd & Hqs). destruct (inv_wait _ _ Hs HN) as [Hws _].
  split; [exact Hws|]. intros _ p z Hz. assert (i = 0%nat) as Hz0 by lia. rewrite Hz0 in Hi.
  eapply Hws; [by apply (ghost_lookup ls 0 ℓ Hi)|exact Hz|].
  apply lookup_lt_Some in Hz. unfold sizes in Hz. rewrite length_fmap in Hz.
  pose proof (qi_lengths _ _ _ _ _ _ _ _ _ Hqs) as (_ & Hl & _). unfold pools in *. cbn in *. lia.
Qed.

Lemma tracks_log_terminated (Q : Z → ghost → Prop) :
  (i < N)%nat → g_stage ℓ = SClosed → Z.of_nat n <= g_wait ℓ → Q 0 (ℓ <| g_stage := SRest |>) →
  tracks inv may False i (log Terminated) ℓ Q.
Proof.
  intros Hlt Hst0 Hw HQ. apply tracks_act. intros s ls Hs Hi. eexists. split; [|exact HQ].
  destruct (life_at s ls Hs Hi) as [Hl Hst]. destruct (inv_queues _ _ Hs) as (vs & hd & Hqs).
  apply (inv_update s ls i ℓ Hs Hi); [done..| |by eapply heap_same|by apply (wait_marked s)|by eapply prio_same|].
  - exists vs, hd. rewrite (ghost_id ls i ℓ Hi g_q), (ghost_id ls i ℓ Hi g_taken) by done.
    by apply queues_marked.
  - rewrite (left_id ls i ℓ Hi) by done. by eapply life_terminated.
Qed.

(** *** The pool threads *)

Lemma left_worker s ls p :
  inv s ls → ls !! i = Some ℓ → i = (N + p)%nat →
  (left_of <$> (g_q <$> ls)) !! (N + p)%nat = Some (left_of (g_q ℓ)).
Proof. intros Hs Hi <-. by apply left_lookup. Qed.

(** What the worker knows of its queue changes with the rest of the state. *)
Lemma inv_worker s s' ls p q' :
  inv s ls → ls !! i = Some ℓ → i = (N + p)%nat → holds (g_q ℓ) = false → holds q' = false →
  cell_of q' = None → running q' = None → cell_of (g_q ℓ) = None → running (g_q ℓ) = None → worker_at p q' →
  (∀ r x v, worker_pc r x v q') → (∀ p, inflight p q' = false) → (∀ h c, q' ≠ WCall p h c) →
  sy_ts s' = sy_ts s → sy_sync s' = sy_sync s → sy_spin s' = sy_spin s → sy_events s' = sy_events s →
  life_inv N n s' (<[(N + p)%nat := left_of q']> (left_of <$> (g_q <$> ls))) (g_stage <$> ls) →
  inv s' (<[i := ℓ <| g_q := q' |>]> ls).
Proof.
  intros Hs Hi Hip Hh Hh' Hc Hr Hc0 Hr0 Hat Hpc Hin Hnc Hts Hy Hsp Hes Hl.
  assert (pools s' = pools s) as Hps by (unfold pools; by rewrite Hts).
  apply (inv_update s ls i ℓ Hs Hi).
  - by rewrite Hts.
  - done.
  - done.
  - destruct (inv_queues _ _ Hs) as (vs & hd & Hqs).
    pose proof (ghost_lookup ls i ℓ Hi g_q) as Hqi. pose proof (ghost_lookup ls i ℓ Hi g_taken) as Ht.
    edestruct (queues_move N n res idx s _ _ vs hd i _ q' _ Hqs Hqi Ht) as [hd' Hqs'].
    + by rewrite Hh.
    + by rewrite Hh.
    + auto.
    + destruct (qi_thread _ _ _ _ _ _ _ _ _ Hqs _ _ _ Hqi Ht) as [_ Hw]. split; [lia|].
      intros p' Hp'. assert (p' = p) as -> by lia. split; [done|]. intros v Hv.
      eapply worker_inv_move; [by apply (Hw p Hip)|congruence|congruence|apply Hpc|].
      intros _ h c Hwc. by destruct (Hnc h c).
    + exists vs, hd'. rewrite (ghost_id ls i ℓ Hi g_taken) by done.
      eapply queues_frame; [exact Hqs'|by rewrite Hps|done|done].
  - apply (heap_same s ls i ℓ Hs Hi); [by rewrite Hts|done].
  - apply (wait_same s ls i ℓ Hs Hi); [unfold sizes; by rewrite Hps|by rewrite Hes|done].
  - apply (prio_same s ls i ℓ Hs Hi); [unfold prios; by rewrite Hps|done..].
  - cbn [g_q g_stage set]. rewrite (ghost_id ls i ℓ Hi g_stage), Hip by done. exact Hl.
Qed.

Lemma tracks_receive p first second (Q : Z → ghost → Prop) :
  i = (N + p)%nat → (p < n)%nat → g_q ℓ = QNone →
  first = SCH_SIGNAL_CONTINUE ∧ second = SIGTERM ∨ first = SIGTERM ∧ second = SCH_SIGNAL_CONTINUE →
  Q SCH_SIGNAL_CONTINUE ℓ → Q SIGTERM (ℓ <| g_q := WLeave p |>) →
  tracks inv may False i (receive (Z.of_nat p) first second) ℓ Q.
Proof.
  intros Hip Hp Hq Hsig HQ1 HQ2. apply tracks_act. intros s ls Hs Hi.
  set (got := λ z, ∀ s', take_signal (Z.of_nat p) z s = Some s' → ∃ ℓ', inv s' (<[i := ℓ']> ls) ∧ Q z ℓ').
  assert (got SCH_SIGNAL_CONTINUE) as Hcont.
  { intros s'. unfold take_signal. rewrite decide_False by done.
    destruct (default false (at_index (sy_pending s) (Z.of_nat p))); [|discriminate]. intros [= <-].
    exists ℓ. split; [|done]. apply inv_pending; [by apply inv_stay|]. intros l. apply length_insert. }
  assert (got SIGTERM) as Hterm.
  { intros s'. unfold take_signal. rewrite decide_True by done.
    destruct (default false (at_index (sy_terms s) (Z.of_nat p))); [|discriminate]. intros [= <-].
    eexists. split; [|exact HQ2]. rewrite Nat2Z.id.
    apply (inv_worker s _ ls p); rewrite ?Hq; try done.
    apply life_leave; [apply Hs|done|]. rewrite (left_worker s ls p Hs Hi Hip). by rewrite Hq. }
  assert (got first ∧ got second) as [H1 H2] by (by destruct Hsig as [[-> ->]|[-> ->]]).
  destruct (take_signal _ first s) as [s'|] eqn:E1; [by apply H1|].
  destruct (take_signal _ second s) as [s'|] eqn:E2; [by apply H2|].
  exists ℓ. split_and!; [done|by rewrite Hq|eapply outside; [done..|left; lia]|]. right. right. right. exists p. unfold take_signal in *.
  destruct Hsig as [[-> ->]|[-> ->]]; rewrite ?decide_True, ?decide_False in E1, E2 by done;
    by destruct (default false (at_index (sy_pending s) (Z.of_nat p))), (default false (at_index (sy_terms s) (Z.of_nat p))).
Qed.

Lemma tracks_signal_wait p (Q : Z → ghost → Prop) :
  i = (N + p)%nat → (p < n)%nat → g_q ℓ = QNone →
  Q SCH_SIGNAL_CONTINUE ℓ → Q SIGTERM (ℓ <| g_q := WLeave p |>) →
  tracks inv may False i (signal_wait (Z.of_nat p)) ℓ Q.
Proof.
  intros Hip Hp Hq HQ1 HQ2. apply tracks_bind. split; [by exists SIGTERM|]. intros z _. apply tracks_ret.
  destruct (z =? SIGTERM); apply (tracks_receive p); auto.
Qed.

Lemma tracks_exit p (Q : Z → ghost → Prop) :
  i = (N + p)%nat → (p < n)%nat → g_q ℓ = WLeave p → Q 0 (ℓ <| g_q := WGone p |>) →
  tracks inv may False i (exit_thread (Z.of_nat p)) ℓ Q.
Proof.
  intros Hip Hp Hq HQ. apply tracks_act. intros s ls Hs Hi. eexists. split; [|exact HQ]. rewrite Nat2Z.id.
  apply (inv_worker s _ ls p); rewrite ?Hq; try done.
  apply life_exit; [apply Hs|done|]. rewrite (left_worker s ls p Hs Hi Hip). by rewrite Hq.
Qed.

(** The thread of pool [p] updates the flag word, once it has passed the alignment. *)
Lemma tracks_set_flag p f (Q : Z → ghost → Prop) :
  i = (N + p)%nat → (p < n)%nat → left_of (g_q ℓ) ≠ PNew → Q 0 ℓ →
  tracks inv may False i (set_flag (Z.of_nat p) f) ℓ Q.
Proof.
  intros Hip Hp Hq HQ. apply tracks_wr_pool; [done|]. intros s ls pool Hs Hi Hpool. exists ℓ. split; [|done].
  apply (inv_fields _ _ _ pool); try done.
  rewrite (left_worker s ls p Hs Hi Hip). congruence.
Qed.

(** It passes the alignment at once: nobody else has touched its flag word. *)
Lemma tracks_align p (Q : Z → ghost → Prop) :
  i = (N + p)%nat → (p < n)%nat → g_q ℓ = WNew p → Q 0 (ℓ <| g_q := QNone |>) →
  tracks inv may False i (align (Z.of_nat p)) ℓ Q.
Proof.
  intros Hip Hp Hq HQ. apply (tracks_iter _ _ _ (λ _ m, m = ℓ)); [done|]. intros [] m ->.
  apply tracks_bind, tracks_learn; [done|]. intros s ls pool Hs Hi Hpool.
  pose proof (left_worker s ls p Hs Hi Hip) as Hlv. rewrite Hq in Hlv.
  rewrite (li_fresh _ _ _ _ _ (inv_life _ _ Hs) p (tp_flag pool) Hlv) by (unfold flags; by rewrite list_lookup_fmap, Hpool).
  eexists. split; [|apply tracks_ret, HQ]. apply (inv_worker s _ ls p); rewrite ?Hq; try done.
  apply life_begin; [apply Hs|done..].
Qed.

(** The thread that is told that the pool is idle. *)
Lemma tracks_rd_ref p (Q : Z → ghost → Prop) :
  i = (N + p)%nat → (p < n)%nat → left_of (g_q ℓ) ≠ PGone → (∀ z, z ≠ NULL → Q z ℓ) →
  tracks inv may False i (rd_pool (Z.of_nat p) tp_schRefThread) ℓ Q.
Proof.
  intros Hip Hp Hq HQ. apply tracks_learn; [done|]. intros s ls pool Hs Hi Hpool. exists ℓ.
  split; [by apply inv_stay|]. apply HQ. apply (li_ref _ _ _ _ _ (inv_life _ _ Hs) p).
  - by apply (li_alive _ _ _ _ _ (inv_life _ _ Hs) p _ (left_worker s ls p Hs Hi Hip)).
  - unfold refs. by rewrite list_lookup_fmap, Hpool.
Qed.

Lemma tracks_notify h (Q : Z → ghost → Prop) :
  h ≠ NULL → Q (err_code SCH_OK) ℓ → tracks inv may False i (notify h) ℓ Q.
Proof.
  intros Hh HQ. apply tracks_act. intros s ls Hs Hi. rewrite decide_False by done.
  exists ℓ. split; [by apply inv_stay|done].
Qed.

(** *** The queue: its cells, its size, and the history *)

Lemma tracks_store p x z (Q : Z → ghost → Prop) :
  (i < N)%nat → (p < n)%nat → g_q ℓ = QLock p x (Some z) →
  Q 0 (ℓ <| g_q := QCell p x None |>) → tracks inv may False i (store_task (Z.of_nat p) z x) ℓ Q.
Proof.
  intros Hlt Hp Hq HQ. apply tracks_act. intros s ls Hs Hi.
  destruct (inv_pools s ls Hs p Hp) as (pool & Hpool & Hat). fold (pools s). rewrite Hat. cbn [mbind option_bind].
  destruct (inv_queues _ _ Hs) as (vs & hd & Hqs).
  pose proof (ghost_lookup ls i ℓ Hi g_q) as Hqi. pose proof (ghost_lookup ls i ℓ Hi g_taken) as Ht.
  rewrite Hq in Hqi.
  destruct (queues_store _ _ _ _ _ _ _ _ _ _ _ _ _ _ _ Hqs Hlt Hqi Ht Hpool) as [[y Hy] Hqs'].
  rewrite Hy, Nat2Z.id. cbn [mbind option_bind]. eexists. split; [|exact HQ].
  eapply inv_update; [done..| |by eapply heap_same| | |].
  - exists vs, (Some (QCell p x None)). rewrite (ghost_id ls i ℓ Hi g_taken) by done. exact Hqs'.
  - eapply wait_same; [done..| | |done].
    + by eapply (upd_sizes s p pool).
    + cbn. by rewrite waited_snoc.
  - eapply prio_same; [done..| |done|done]. by eapply (upd_prios s p pool).
  - eapply life_event; try done; [by eapply (upd_life_of s p pool)|by rewrite Hq].
Qed.

Lemma tracks_count p x z (Q : Z → ghost → Prop) :
  (i < N)%nat → (p < n)%nat → res p + Z.of_nat N <= UINT_MOD →
  g_q ℓ = QTail p x (Some z) → g_wait ℓ = 0 → g_stage ℓ = SUp →
  Q 0 (ℓ <| g_q := QDone p |>) → tracks inv may False i (count_task (Z.of_nat p) (u32 (z + 1)) x) ℓ Q.
Proof.
  intros Hlt Hp Hres Hq Hw Hup HQ. apply tracks_act. intros s ls Hs Hi.
  destruct (inv_pools s ls Hs p Hp) as (pool & Hpool & Hat). fold (pools s). rewrite Hat, Nat2Z.id.
  destruct (inv_queues _ _ Hs) as (vs & hd & Hqs).
  pose proof (ghost_lookup ls i ℓ Hi g_q) as Hqi. pose proof (ghost_lookup ls i ℓ Hi g_taken) as Ht.
  rewrite Hq in Hqi.
  destruct (queues_push _ _ _ _ _ _ _ _ _ _ _ _ _ _ _ Hqs Hres Hlt Hqi Ht Hpool) as [vs' Hqs'].
  eexists. split; [|exact HQ].
  eapply inv_update; [done..| |by eapply heap_same| | |].
  - exists vs', (Some (QDone p)). rewrite (ghost_id ls i ℓ Hi g_taken) by done. exact Hqs'.
  - intros HN. assert (i = 0%nat) as -> by lia. split.
    + intros w p' z' Hw'. cbn [g_wait set tset const] in Hw'.
      rewrite list_lookup_insert_eq in Hw' by (rewrite length_fmap; by eapply lookup_lt_Some).
      injection Hw' as <-. lia.
    + cbn. by rewrite waited_snoc.
  - eapply prio_same; [done..| |done|done]. by eapply (upd_prios s p pool).
  - eapply life_same; try done; [by eapply (upd_life_of s p pool)| |by rewrite Hq].
    cbn. rewrite terminated_snoc, waited_snoc. intros [Hend|?]; [|done]. exfalso.
    destruct (life_at s ls Hs Hi) as [Hl Hst]. pose proof (li_stage _ _ _ _ _ Hl i _ Hst) as Hok.
    rewrite Hup in Hok. cbn in Hok. destruct (li_end _ _ _ _ _ Hl Hend). congruence.
Qed.

Lemma tracks_take p z (Q : Z → ghost → Prop) :
  (p < n)%nat → i = (N + p)%nat → g_q ℓ = WLock p (Some z) →
  (∀ h tk, Q 0 (ℓ <| g_q := WSize p h |> <| g_taken := tk |>)) →
  tracks inv may False i (wr_pool (Z.of_nat p) (λ pool, pool <| tp_size := u32 (z - 1) |>)) ℓ Q.
Proof.
  intros Hp Hip Hq HQ. apply tracks_wr_pool; [done|]. intros s ls pool Hs Hi Hpool.
  destruct (inv_queues _ _ Hs) as (vs & hd & Hqs).
  pose proof (ghost_lookup ls i ℓ Hi g_q) as Hqi. pose proof (ghost_lookup ls i ℓ Hi g_taken) as Ht.
  rewrite Hq in Hqi.
  destruct (queues_pop _ _ _ _ _ _ _ _ _ _ _ _ _ _ Hqs Hip Hqi Ht Hpool) as (vs' & x & Hqs').
  assert (tp_size pool ≠ 0) as Hne.
  { destruct (queues_lookup _ _ _ _ _ _ _ _ _ Hqs p Hp) as (v & pool' & Hv & Hpool' & _ & _ & Hsz & _).
    pose proof (wi_pc _ _ _ _ _ _ _ (proj2 (proj2 (qi_thread _ _ _ _ _ _ _ _ _ Hqs _ _ _ Hqi Ht) p Hip) v Hv)) as [Hpos _].
    assert (pool' = pool) as -> by congruence. lia. }
  eexists. split; [|apply (HQ (tp_head pool) (g_taken ℓ ++ [x]))].
  eapply inv_update; [done..| |by eapply heap_same| | |].
  - exists vs', (Some (WSize p (tp_head pool))). exact Hqs'.
  - intros HN. destruct (inv_wait _ _ Hs HN) as [Hws Hwd]. rewrite (ghost_id ls i ℓ Hi g_wait) by done.
    assert (∀ p' z', sizes (upd p (pool <| tp_size := u32 (z - 1) |>) s) !! p' = Some z' →
      sizes s !! p' = Some z' ∨ p' = p) as Hsizes.
    { intros p' z' Hz'. unfold sizes, pools in Hz'. cbn in Hz'. rewrite list_fmap_insert in Hz'.
      apply list_lookup_insert_Some in Hz' as [(<- & _)|[_ ?]]; auto. }
    assert (sizes s !! p = Some (tp_size pool)) as Hszp.
    { unfold sizes. by rewrite list_lookup_fmap, Hpool. }
    split.
    + intros w p' z' Hw Hz' Hlt. destruct (Hsizes p' z' Hz') as [?| ->]; [by eauto|].
      destruct Hne. by eapply Hws.
    + intros Hwt p' z' Hz'. destruct (Hsizes p' z' Hz') as [?| ->]; [by eauto|].
      destruct Hne. by eapply Hwd.
  - eapply prio_same; [done..| |done|done]. by eapply (upd_prios s p pool).
  - eapply life_same; try done; [by eapply (upd_life_of s p pool)|by rewrite Hq].
Qed.

(** *** The task a worker has taken *)

(** The cell of the task, in memory. *)
Lemma inv_cell s ls p h :
  inv s ls → ls !! i = Some ℓ → (p < n)%nat → i = (N + p)%nat →
  holds (g_q ℓ) = false → cell_of (g_q ℓ) = Some h ∨ running (g_q ℓ) = Some h →
  ∃ pool y, at_index (pools s) (Z.of_nat p) = Some pool ∧ pools s !! p = Some pool ∧
    at_index (tp_packages pool) h = Some y ∧ good (idx p) y ∧
    ∀ vs hd, queues_inv N n res idx s (g_q <$> ls) (g_taken <$> ls) vs hd →
      ∀ v, vs !! p = Some v → roomy (Z.of_nat p) (res p) (sy_events s) → at_index (tp_packages v) h = Some y.
Proof.
  intros Hs Hi Hp Hip Hq Hh. destruct (inv_pools s ls Hs p Hp) as (pool & Hpool & Hat).
  pose proof (ghost_lookup ls i ℓ Hi g_q) as Hqi. pose proof (ghost_lookup ls i ℓ Hi g_taken) as Ht.
  assert (∀ vs hd, queues_inv N n res idx s (g_q <$> ls) (g_taken <$> ls) vs hd → ∀ v, vs !! p = Some v →
    ∃ y, at_index (tp_packages pool) h = Some y ∧ good (idx p) y ∧
      (roomy (Z.of_nat p) (res p) (sy_events s) → at_index (tp_packages v) h = Some y)) as Hcell.
  { intros vs hd Hqs v Hv. by eapply queues_cell. }
  destruct (inv_queues _ _ Hs) as (vs & hd & Hqs).
  destruct (queues_lookup _ _ _ _ _ _ _ _ _ Hqs p Hp) as (v & _ & Hv & _).
  destruct (Hcell vs hd Hqs v Hv) as (y & Hy & Hg & _). exists pool, y. split_and!; [done..|].
  intros vs' hd' Hqs' v' Hv' Hr. destruct (Hcell vs' hd' Hqs' v' Hv') as (y' & Hy' & _ & Hr').
  rewrite Hy in Hy'. injection Hy' as <-. auto.
Qed.

(** [callback = package->callback]. *)
Lemma tracks_rd_callback p h (Q : Z → ghost → Prop) :
  (p < n)%nat → i = (N + p)%nat → g_q ℓ = WCell p h →
  (∀ c, Q c (ℓ <| g_q := WCall p h c |>)) →
  tracks inv may False i (rd_cell (Z.of_nat p) h pk_callback) ℓ Q.
Proof.
  intros Hp Hip Hq HQ. apply tracks_act. intros s ls Hs Hi.
  destruct (inv_cell s ls p h Hs Hi Hp Hip) as (pool & y & Hat & Hpool & Hy & Hg & Hr); [by rewrite Hq|left; by rewrite Hq|].
  unfold read_or_fault. fold (pools s). rewrite Hat. cbn [mbind option_bind]. rewrite Hy. cbn [fmap option_fmap option_map].
  eexists. split; [|apply HQ]. destruct (inv_queues _ _ Hs) as (vs & hd & Hqs).
  pose proof (ghost_lookup ls i ℓ Hi g_q) as Hqi. pose proof (ghost_lookup ls i ℓ Hi g_taken) as Ht. rewrite Hq in Hqi.
  eapply inv_update; [done..| |by eapply heap_same|by eapply wait_same|by eapply prio_same|eapply life_same; rewrite ?Hq; done].
  edestruct (queues_move N n res idx s _ _ vs hd i _ (WCall p h (pk_callback y)) _ Hqs Hqi Ht) as [hd' Hqs'];
    [done|done|auto| |].
  { destruct (qi_thread _ _ _ _ _ _ _ _ _ Hqs _ _ _ Hqi Ht) as [_ Hw]. split; [lia|].
    intros p' Hp'. assert (p' = p) as -> by lia. split; [done|]. intros v Hv.
    pose proof (proj2 (Hw p Hip) v Hv) as Hwi. pose proof (wi_pc _ _ _ _ _ _ _ Hwi) as [Hcg Hhd].
    eapply worker_inv_move; [exact Hwi|done|done|..].
    - split_and!; [done|done|]. apply Hg.
    - intros Hrm h' c [= <- <-]. exists y. split; [|done]. by eapply Hr. }
  exists vs, hd'. rewrite (ghost_id ls i ℓ Hi g_taken) by done. exact Hqs'.
Qed.

(** [package->index = index]: the task has that index already. *)
Lemma tracks_wr_index p h (Q : Z → ghost → Prop) :
  (p < n)%nat → i = (N + p)%nat → holds (g_q ℓ) = false → cell_of (g_q ℓ) = Some h → Q 0 ℓ →
  tracks inv may False i (wr_cell (Z.of_nat p) h (λ x, x <| pk_index := idx p |>)) ℓ Q.
Proof.
  intros Hp Hip Hq Hh HQ. apply tracks_act. intros s ls Hs Hi.
  destruct (inv_cell s ls p h Hs Hi Hp Hip Hq (or_introl Hh)) as (pool & y & Hat & Hpool & Hy & Hg & Hr).
  unfold write_or_fault. fold (pools s). rewrite Hat. cbn [deref mbind outcome_bind]. rewrite Hy.
  cbn [deref mbind outcome_bind]. rewrite Nat2Z.id. exists ℓ. split; [|done].
  assert (y <| pk_index := idx p |> = y) as -> by (destruct Hg as [_ <-]; by destruct y).
  rewrite write_cell_same by done.
  assert (s <| sy_ts := (sy_ts s) <| ts_pools ::= <[p := pool]> |> |> = s) as ->.
  { unfold pools in Hpool. destruct s as [[]]. cbn in *. by rewrite list_insert_id. }
  by apply inv_stay.
Qed.

(** The call of the task, and its return. *)
Lemma tracks_log_started p h c (Q : Z → ghost → Prop) :
  (p < n)%nat → i = (N + p)%nat → g_q ℓ = WCall p h c → Q 0 (ℓ <| g_q := WRun p h |>) →
  tracks inv may False i (log_started (Z.of_nat p) h c) ℓ Q.
Proof.
  intros Hp Hip Hq HQ. apply tracks_act. intros s ls Hs Hi.
  destruct (inv_cell s ls p h Hs Hi Hp Hip) as (pool & y & Hat & Hpool & Hy & Hg & Hr); [by rewrite Hq|left; by rewrite Hq|].
  fold (pools s). rewrite Hat. cbn [mbind option_bind]. rewrite Hy.
  destruct (inv_queues _ _ Hs) as (vs & hd & Hqs).
  pose proof (ghost_lookup ls i ℓ Hi g_q) as Hqi. pose proof (ghost_lookup ls i ℓ Hi g_taken) as Ht. rewrite Hq in Hqi.
  destruct (qi_thread _ _ _ _ _ _ _ _ _ Hqs _ _ _ Hqi Ht) as [_ Hw]. specialize (Hw p Hip) as [_ Hw].
  rewrite decide_False; cycle 1.
  { destruct (queues_lookup _ _ _ _ _ _ _ _ _ Hqs p Hp) as (v & _ & Hv & _).
    pose proof (wi_pc _ _ _ _ _ _ _ (Hw v Hv)) as (_ & _ & Hc). done. }
  eexists. split; [|exact HQ].
  eapply inv_update; [done..| |by eapply heap_same| |by eapply prio_same|by eapply life_event; rewrite ?Hq].
  - exists vs, hd. rewrite (ghost_id ls i ℓ Hi g_taken) by done.
    eapply queues_log; try done.
    + intros p' r [? _]%roomy_app. done.
    + intros v Hv Hwi. eapply worker_inv_start; [exact Hwi|]. intros Hrm. by eapply Hr.
  - eapply wait_same; [done..| |done]. cbn. by rewrite waited_snoc.
Qed.

Lemma tracks_log_finished p h (Q : Z → ghost → Prop) :
  (p < n)%nat → i = (N + p)%nat → g_q ℓ = WRun p h → Q 0 (ℓ <| g_q := QNone |>) →
  tracks inv may False i (log (Finished (Z.of_nat p))) ℓ Q.
Proof.
  intros Hp Hip Hq HQ. apply tracks_act. intros s ls Hs Hi. eexists. split; [|exact HQ].
  destruct (inv_queues _ _ Hs) as (vs & hd & Hqs).
  pose proof (ghost_lookup ls i ℓ Hi g_q) as Hqi. pose proof (ghost_lookup ls i ℓ Hi g_taken) as Ht. rewrite Hq in Hqi.
  eapply inv_update; [done..| |by eapply heap_same| |by eapply prio_same|by eapply life_event; rewrite ?Hq].
  - exists vs, hd. rewrite (ghost_id ls i ℓ Hi g_taken) by done.
    eapply queues_log; try done.
    + intros p' r [? _]%roomy_app. done.
    + intros v Hv Hwi. by eapply worker_inv_finish.
  - eapply wait_same; [done..| |done]. cbn. by rewrite waited_snoc.
Qed.

(** The wait returns, with every pool seen idle. *)
Lemma tracks_log_waited (Q : Z → ghost → Prop) :
  (i < N)%nat → Z.of_nat n <= g_wait ℓ → Q 0 ℓ → tracks inv may False i (log Waited) ℓ Q.
Proof.
  intros Hlt Hw HQ. apply tracks_act. intros s ls Hs Hi. exists ℓ. split; [|exact HQ].
  destruct (inv_queues _ _ Hs) as (vs & hd & Hqs).
  apply (inv_update s ls i ℓ Hs Hi);
    [done..| |by eapply heap_same|by apply (wait_marked s)|by eapply prio_same|by eapply life_event].
  exists vs, hd. rewrite (ghost_id ls i ℓ Hi g_q), (ghost_id ls i ℓ Hi g_taken) by done.
  by apply queues_marked.
Qed.

(** The call of an [init] or [deinit] function is in the history, and changes nothing else. *)
Lemma tracks_log_called p f e (Q : Z → ghost → Prop) :
  e = Prepared p f ∨ e = Cleaned p f → Q 0 ℓ → tracks inv may False i (log e) ℓ Q.
Proof.
  intros He HQ. apply tracks_act. intros s ls Hs Hi. exists ℓ. split; [|exact HQ].
  destruct (inv_queues _ _ Hs) as (vs & hd & Hqs).
  apply (inv_update s ls i ℓ Hs Hi); [done..| |by eapply heap_same| |by eapply prio_same|].
  - exists vs, hd. rewrite (ghost_id ls i ℓ Hi g_q), (ghost_id ls i ℓ Hi g_taken) by done.
    apply queues_marked; [by destruct He as [-> | ->]|done].
  - eapply wait_same; [done..| |done]. cbn. rewrite waited_snoc. by destruct He as [-> | ->].
  - apply (life_event s ls i ℓ Hs Hi _ _ e); try done; by destruct He as [-> | ->].
Qed.
End writes.
End tracks.
