(* ===== verification/SystemCalls.v ===== *)
(** * The calls of the interleaved scheduler keep its invariant

    What every access teaches the thread that makes it, and then, function by function, that
    the programs of System.v keep the invariant of SystemTracks.v and never fault. *)
From S2P Require Import Prelude Errors Flags Structures Heapify TaskQueue Platform Executor Threads.
From S2P Require Import System ExecutorFacts Concurrency SystemQueue SystemInv SystemLife SystemTracks.

(** Not between the two writes of a swap. *)
Definition quiet (h : hpc) : Prop := match h with HSwap _ _ => False | _ => True end.

Lemma heap_quiet n arr h : quiet h → heap_pc n arr h → arr ≡ₚ seq 0 n.
Proof. destruct h; cbn; intuition. Qed.

Section calls.
Context (N n : nat) (res idx : nat → Z) (T total : Z) (clock : Z → bool).
Hypothesis n_pos : (0 < n)%nat.
Hypothesis n_int : SCH_HEAP_BREATH * Z.of_nat n <= INT_MAX.
Hypothesis res_uint : ∀ p, (p < n)%nat → res p + Z.of_nat N <= UINT_MOD.
Hypothesis T_pos : 0 <= T.
Hypothesis clock_ok : ∀ t, clock t = true → 0 <= t <= T.
Hypothesis clock_time : ∃ t, clock t = true.
Hypothesis total_ok : T + 1000 * total <= LONG_MAX.

#[local] Abbreviation Inv := (inv N n res idx T total).
#[local] Abbreviation tracks := (tracks Inv (may N n) False).

(** ** What a thread knows while it is inside the critical section, or is the worker *)

Section know.
Context (s : sys) (ls : list ghost) (i p : nat) (ℓ : ghost) (pool : schTaskPool).
Context (vs : list schTaskPool) (hd : option qpc).
Context (Hqs : queues_inv N n res idx s (g_q <$> ls) (g_taken <$> ls) vs hd).
Context (Hi : ls !! i = Some ℓ) (Hpool : pools s !! p = Some pool).

Lemma know_ring : ∃ v, vs !! p = Some v ∧ wring (res p) (idx p) v ∧ tp_size pool = tp_size v.
Proof.
  destruct (queues_lookup _ _ _ _ _ _ _ _ _ Hqs p) as (v & pool' & Hv & Hp' & Hw & _ & Hsz & _).
  { pose proof (qi_lengths _ _ _ _ _ _ _ _ _ Hqs) as (_ & <- & _). by eapply lookup_lt_Some. }
  assert (pool' = pool) as -> by congruence. by exists v.
Qed.

Lemma know_pool v : vs !! p = Some v → holds (g_q ℓ) = true → q_of pool = q_of (edit (g_q ℓ) p v).
Proof.
  intros Hv Hh. pose proof (holder_is _ _ _ _ (qi_holder _ _ _ _ _ _ _ _ _ Hqs) (ghost_lookup ls i ℓ Hi g_q) Hh) as ->.
  by eapply (qi_pool _ _ _ _ _ _ _ _ _ Hqs).
Qed.

Lemma know_ok : thread_ok N n res idx vs (sy_events s) i (g_q ℓ) (g_taken ℓ).
Proof. eapply (qi_thread _ _ _ _ _ _ _ _ _ Hqs); by apply ghost_lookup. Qed.
End know.

Section access.
Context (i : nat) (ℓ : ghost).
Implicit Types (Q : Z → ghost → Prop).

(** A client reads [tail], before it writes the cell and after. *)
Lemma tracks_rd_tail_lock p x Q :
  (i < N)%nat → (p < n)%nat → g_q ℓ = QLock p x None →
  (∀ z, Q z (ℓ <| g_q := QLock p x (Some z) |>)) → tracks i (rd_pool (Z.of_nat p) tp_tail) ℓ Q.
Proof.
  intros Hlt Hp Hq HQ. apply tracks_learn; [done|]. intros s ls pool Hs Hi Hpool. eexists. split; [|apply HQ].
  apply inv_move; rewrite ?Hq; try done. intros vs hd Hqs [Hc _]. split; [|lia]. intros _.
  destruct (Hc Hlt) as (Hx & v & Hv & _). split; [done|]. exists v. split; [done|].
  intros z [= <-]. pose proof (know_pool s ls i p ℓ pool vs hd Hqs Hi Hpool v Hv) as Hpl.
  rewrite Hq in Hpl. symmetry. exact (f_equal tp_tail (Hpl eq_refl)).
Qed.

Lemma tracks_rd_tail_cell p x Q :
  (i < N)%nat → (p < n)%nat → g_q ℓ = QCell p x None →
  (∀ z, 0 <= z < res p → res p < UINT_MOD → Q z (ℓ <| g_q := QCell p x (Some z) |>)) →
  tracks i (rd_pool (Z.of_nat p) tp_tail) ℓ Q.
Proof.
  intros Hlt Hp Hq HQ. apply tracks_learn; [done|]. intros s ls pool Hs Hi Hpool.
  assert (∀ vs hd v, queues_inv N n res idx s (g_q <$> ls) (g_taken <$> ls) vs hd → vs !! p = Some v →
    tp_tail pool = tp_tail v) as Ht.
  { intros vs hd v Hqs Hv. pose proof (know_pool s ls i p ℓ pool vs hd Hqs Hi Hpool v Hv) as Hpl.
    rewrite Hq in Hpl. specialize (Hpl eq_refl). cbn [edit] in Hpl. rewrite decide_True in Hpl by done.
    exact (f_equal tp_tail Hpl). }
  destruct (inv_queues _ _ _ _ _ _ _ _ Hs) as (vs & hd & Hqs).
  destruct (know_ring s ls p pool vs hd Hqs Hpool) as (v & Hv & Hw & _).
  pose proof (wring_tail _ _ _ Hw). pose proof (wr_pos _ _ _ Hw). rewrite <-(Ht vs hd v Hqs Hv) in *.
  eexists. split; [|apply HQ; lia]. clear dependent vs.
  apply inv_move; rewrite ?Hq; try done. intros vs hd' Hqs [Hc _]. split; [|lia]. intros _.
  destruct (Hc Hlt) as (Hx & v' & Hv & _ & Hr). split; [done|]. exists v'. split_and!; [done| |done].
  intros z [= <-]. symmetry. by eapply Ht.
Qed.

Lemma tracks_wr_tail p x t Q :
  (i < N)%nat → (p < n)%nat → g_q ℓ = QCell p x (Some t) → Q 0 (ℓ <| g_q := QTail p x None |>) →
  tracks i (wr_pool (Z.of_nat p) (λ pool, pool <| tp_tail := (t + 1) mod res p |>)) ℓ Q.
Proof.
  intros Hlt Hp Hq HQ. apply tracks_wr_pool; [done|]. intros s ls pool Hs Hi Hpool. eexists. split; [|exact HQ].
  eapply inv_write; rewrite ?Hq; try done.
  - intros p0 v0 Hne. cbn [edit]. by rewrite !decide_False.
  - intros vs v tk Hl Hv Hw Hpl [Hc _]. destruct (Hc Hlt) as (Hx & v' & Hv' & Ht & Hr).
    rewrite Hv in Hv'. injection Hv' as <-. specialize (Ht t eq_refl). subst t.
    cbn [edit] in *. rewrite decide_True in Hpl |- * by done. split.
    + rewrite (wr_reserved _ _ _ Hw).
      change ((q_of pool) <| tp_tail := (tp_tail v + 1) mod res p |>
              = (q_of (v <| tp_packages ::= <[Z.to_nat (tp_tail v) := x]> |>)) <| tp_tail := (tp_tail v + 1) mod res p |>).
      by rewrite Hpl.
    + split; [|lia]. intros _. split; [done|]. exists v. done.
Qed.

(** A client, and the worker, read [size] inside the critical section. *)
Lemma tracks_rd_size_tail p x Q :
  (i < N)%nat → (p < n)%nat → g_q ℓ = QTail p x None →
  (∀ z, Q z (ℓ <| g_q := QTail p x (Some z) |>)) → tracks i (rd_pool (Z.of_nat p) tp_size) ℓ Q.
Proof.
  intros Hlt Hp Hq HQ. apply tracks_learn; [done|]. intros s ls pool Hs Hi Hpool. eexists. split; [|apply HQ].
  apply inv_move; rewrite ?Hq; try done. intros vs hd Hqs [Hc _]. split; [|lia]. intros _.
  destruct (Hc Hlt) as (Hx & v & Hv & _ & Hr). split; [done|]. exists v. split_and!; [done| |done].
  intros z [= <-]. destruct (know_ring s ls p pool vs hd Hqs Hpool) as (v' & Hv' & _ & Hsz). congruence.
Qed.

Lemma tracks_rd_size_lock p Q :
  i = (N + p)%nat → (p < n)%nat → g_q ℓ = WLock p None →
  (∀ z, Q z (ℓ <| g_q := WLock p (Some z) |>)) → tracks i (rd_pool (Z.of_nat p) tp_size) ℓ Q.
Proof.
  intros Hip Hp Hq HQ. apply tracks_learn; [done|]. intros s ls pool Hs Hi Hpool. eexists. split; [|apply HQ].
  apply inv_move; rewrite ?Hq; try done. intros vs hd Hqs [_ Hw]. split; [lia|].
  intros p' Hp'. assert (p' = p) as -> by lia. split; [done|]. intros v Hv.
  pose proof (proj2 (Hw p Hip) v Hv) as Hwi. pose proof (wi_pc _ _ _ _ _ _ _ Hwi) as Hpos.
  eapply worker_inv_move; [exact Hwi|done|done| |done]. split; [done|].
  destruct (know_ring s ls p pool vs hd Hqs Hpool) as (v' & Hv' & _ & Hsz). congruence.
Qed.

(** The worker looks at its queue. *)
Lemma tracks_rd_size_some p Q :
  i = (N + p)%nat → (p < n)%nat → g_q ℓ = QNone →
  (∀ z, 0 < z → Q z (ℓ <| g_q := WSome p |>)) → (∀ z, ¬ 0 < z → Q z ℓ) →
  tracks i (rd_pool (Z.of_nat p) tp_size) ℓ Q.
Proof.
  intros Hip Hp Hq HQ1 HQ2. apply tracks_learn; [done|]. intros s ls pool Hs Hi Hpool.
  destruct (decide (0 < tp_size pool)) as [Hpos|Hpos].
  - eexists. split; [|by apply HQ1]. apply inv_move; rewrite ?Hq; try done.
    intros vs hd Hqs [_ Hw]. split; [lia|].
    intros p' Hp'. assert (p' = p) as -> by lia. split; [done|]. intros v Hv.
    pose proof (proj2 (Hw p Hip) v Hv) as Hwi.
    eapply worker_inv_move; [exact Hwi|done|done| |done]. cbn.
    destruct (know_ring s ls p pool vs hd Hqs Hpool) as (v' & Hv' & _ & Hsz).
    assert (v' = v) as -> by congruence. lia.
  - exists ℓ. split; [by apply inv_stay|by apply HQ2].
Qed.

(** The worker reads [head], and writes it. *)
Lemma tracks_rd_head p h Q :
  i = (N + p)%nat → (p < n)%nat → g_q ℓ = WSize p h →
  (0 <= h < res p → res p < UINT_MOD → Q h ℓ) → tracks i (rd_pool (Z.of_nat p) tp_head) ℓ Q.
Proof.
  intros Hip Hp Hq HQ. apply tracks_learn; [done|]. intros s ls pool Hs Hi Hpool.
  exists ℓ. split; [by apply inv_stay|]. destruct (inv_queues _ _ _ _ _ _ _ _ Hs) as (vs & hd & Hqs).
  destruct (know_ring s ls p pool vs hd Hqs Hpool) as (v & Hv & Hw & _).
  pose proof (know_pool s ls i p ℓ pool vs hd Hqs Hi Hpool v Hv) as Hpl. rewrite Hq in Hpl.
  specialize (Hpl eq_refl). cbn [edit] in Hpl. rewrite decide_True in Hpl by done.
  assert (tp_head pool = h) as -> by exact (f_equal tp_head Hpl).
  destruct (know_ok s ls i ℓ vs hd Hqs Hi) as [_ Hwk]. rewrite Hq in Hwk.
  pose proof (wi_pc _ _ _ _ _ _ _ (proj2 (Hwk p Hip) v Hv)) as [[Hh _] _].
  pose proof (wr_pos _ _ _ Hw). apply HQ; lia.
Qed.

Lemma tracks_wr_head p h Q :
  i = (N + p)%nat → (p < n)%nat → g_q ℓ = WSize p h → Q 0 (ℓ <| g_q := WHold p h |>) →
  tracks i (wr_pool (Z.of_nat p) (λ pool, pool <| tp_head := (h + 1) mod res p |>)) ℓ Q.
Proof.
  intros Hip Hp Hq HQ. apply tracks_wr_pool; [done|]. intros s ls pool Hs Hi Hpool. eexists. split; [|exact HQ].
  eapply inv_write; rewrite ?Hq; try done.
  - intros p0 v0 Hne. cbn [edit]. by rewrite decide_False.
  - intros vs v tk Hl Hv Hw Hpl [_ Hwk]. cbn [edit] in *. rewrite decide_True in Hpl by done.
    pose proof (proj2 (Hwk p Hip) v Hv) as Hwi. pose proof (wi_pc _ _ _ _ _ _ _ Hwi) as [Hcg Hhd]. split.
    + change ((q_of pool) <| tp_head := (h + 1) mod res p |> = q_of v). rewrite Hpl, <-Hhd. by destruct v.
    + split; [lia|]. intros p' Hp'. assert (p' = p) as -> by lia. split; [done|]. intros v' Hv'.
      assert (v' = v) as -> by congruence. by eapply worker_inv_move.
Qed.

(** A client looks for room in the queue of [p]. *)
Lemma tracks_rd_room p Q :
  (i < N)%nat → (p < n)%nat → g_q ℓ = QNone →
  (∀ z, z < res p → Q z (ℓ <| g_q := QRoom p |> <| g_wait := 0 |>)) → (∀ z, z >= res p → Q z ℓ) →
  tracks i (rd_pool (Z.of_nat p) tp_size) ℓ Q.
Proof.
  intros Hlt Hp Hq HQ1 HQ2. apply tracks_learn; [done|]. intros s ls pool Hs Hi Hpool.
  destruct (decide (tp_size pool < res p)) as [Hroom|Hfull].
  - eexists. split; [|by apply HQ1]. destruct (inv_queues _ _ _ _ _ _ _ _ Hs) as (vs & hd & Hqs).
    destruct (know_ring s ls p pool vs hd Hqs Hpool) as (v & Hv & Hw & Hsz).
    eapply inv_update; [done..| |by eapply heap_same| |by eapply prio_same|eapply life_same; rewrite ?Hq; done].
    + pose proof (ghost_lookup ls i ℓ Hi g_q) as Hqi. pose proof (ghost_lookup ls i ℓ Hi g_taken) as Ht.
      rewrite Hq in Hqi.
      edestruct (queues_move N n res idx s _ _ vs hd i _ (QRoom p) _ Hqs Hqi Ht) as [hd' Hqs'];
        [done|done| |by split; [|lia]|].
      * intros p'. cbn. destruct (decide (p = p')) as [<-|Hne].
        -- right. right. exists v. split; [done|lia].
        -- left. by rewrite bool_decide_false.
      * exists vs, hd'. rewrite (ghost_id ls i ℓ Hi g_taken) by done. exact Hqs'.
    + intros HN. destruct (inv_wait _ _ _ _ _ _ _ _ Hs HN) as [_ Hwd]. split; [|exact Hwd].
      assert (i = 0%nat) as -> by lia. intros w p' z' Hw'. cbn [g_wait set tset const] in Hw'.
      rewrite list_lookup_insert_eq in Hw' by (rewrite length_fmap; by eapply lookup_lt_Some).
      injection Hw' as <-. lia.
  - exists ℓ. split; [by apply inv_stay|apply HQ2; lia].
Qed.

(** A waiting client sees that the queue of [p] is empty. *)
Lemma tracks_rd_empty p Q :
  (i < N)%nat → (p < n)%nat → Z.of_nat p <= g_wait ℓ →
  (∀ w, Z.of_nat p + 1 <= w → Q 0 (ℓ <| g_wait := w |>)) → (∀ z, 0 < z → Q z ℓ) →
  tracks i (rd_pool (Z.of_nat p) tp_size) ℓ Q.
Proof.
  intros Hlt Hp Hw HQ1 HQ2. apply tracks_learn; [done|]. intros s ls pool Hs Hi Hpool.
  destruct (decide (0 < tp_size pool)) as [Hpos|Hpos].
  { exists ℓ. split; [by apply inv_stay|by apply HQ2]. }
  assert (tp_size pool = 0) as Hz.
  { destruct (inv_queues _ _ _ _ _ _ _ _ Hs) as (vs & hd & Hqs).
    destruct (know_ring s ls p pool vs hd Hqs Hpool) as (v & Hv & Hwr & Hsz).
    pose proof (wr_size _ _ _ Hwr). lia. }
  rewrite Hz. exists (ℓ <| g_wait := Z.max (g_wait ℓ) (Z.of_nat p + 1) |>). split; [|apply HQ1; lia].
  eapply inv_update; [done..|by eapply queues_same|by eapply heap_same| |by eapply prio_same|eapply life_same; rewrite ?Hq; done].
  intros HN. destruct (inv_wait _ _ _ _ _ _ _ _ Hs HN) as [Hws Hwd]. split; [|exact Hwd].
  assert (i = 0%nat) as -> by lia. intros w p' z' Hw' Hz' Hp'. cbn [g_wait set tset const] in Hw'.
  rewrite list_lookup_insert_eq in Hw' by (rewrite length_fmap; by eapply lookup_lt_Some).
  injection Hw' as <-. destruct (decide (p' = p)) as [->|Hne].
  - unfold sizes in Hz'. rewrite list_lookup_fmap, Hpool in Hz'. injection Hz' as <-. done.
  - eapply Hws; [by eapply (ghost_lookup ls 0 ℓ Hi)|exact Hz'|lia].
Qed.

(** *** The heap *)

(** A cell of the heap, and what the thread may note of it. *)
Lemma tracks_rd_dheap j Q h' :
  0 <= j < Z.of_nat n →
  (∀ arr a, length arr = n → arr !! Z.to_nat j = Some a → heap_pc n arr (g_heap ℓ) → heap_pc n arr (h' a)) →
  (∀ a, (a < n)%nat → Q (Z.of_nat a) (ℓ <| g_heap := h' a |>)) → tracks i (rd_dheap j) ℓ Q.
Proof.
  intros Hj Hh HQ. apply tracks_act. intros s ls Hs Hi.
  pose proof (inv_heap _ _ _ _ _ _ _ _ Hs) as (Hlen & Hall & Hpc).
  destruct (at_index_is_Some (ts_dheaps (sy_ts s)) j) as [a Ha]; [lia|].
  unfold read_or_fault. rewrite Ha. cbn. apply at_index_Some in Ha as [_ Ha].
  exists (ℓ <| g_heap := h' a |>). split; [|apply HQ; by eapply (Forall_lookup_1 _ _ _ _ Hall)].
  eapply inv_update; [done..|by eapply queues_same| |by eapply wait_same|by eapply prio_same|eapply life_same; rewrite ?Hq; done].
  split_and!; [done..|]. intros HN h Hh0. destruct (decide (i = 0%nat)) as [->|Hne].
  - cbn [g_heap set tset const] in Hh0.
    rewrite list_lookup_insert_eq in Hh0 by (rewrite length_fmap; by eapply lookup_lt_Some).
    injection Hh0 as <-. apply Hh; [done..|]. by eapply Hpc, (ghost_lookup ls 0 ℓ Hi).
  - rewrite list_lookup_insert_ne in Hh0 by done. by eapply Hpc.
Qed.

(** A cell of the heap is written. *)
Lemma tracks_wr_dheap j a Q h' :
  (i < N)%nat → 0 <= j < Z.of_nat n → (a < n)%nat →
  (∀ arr, length arr = n → heap_pc n arr (g_heap ℓ) → heap_pc n (<[Z.to_nat j := a]> arr) h') →
  Q 0 (ℓ <| g_heap := h' |>) → tracks i (wr_dheap j (Z.of_nat a)) ℓ Q.
Proof.
  intros Hlt Hj Ha Hh HQ. apply tracks_act. intros s ls Hs Hi.
  pose proof (inv_heap _ _ _ _ _ _ _ _ Hs) as (Hlen & Hall & Hpc).
  unfold write_or_fault. rewrite store_in by lia. cbn. rewrite Nat2Z.id.
  eexists. split; [|exact HQ].
  eapply inv_update; [done..|by eapply queues_same| |by eapply wait_same|by eapply prio_same|eapply life_same; rewrite ?Hq; done].
  cbn. split_and!; [by rewrite length_insert|by apply Forall_insert|].
  intros HN h Hh0. assert (i = 0%nat) as -> by lia.
  rewrite list_lookup_insert_eq in Hh0 by (rewrite length_fmap; by eapply lookup_lt_Some).
  injection Hh0 as <-. apply Hh; [done..|]. by eapply Hpc, (ghost_lookup ls 0 ℓ Hi).
Qed.
End access.

(** ** [schHeapify] *)

Definition with_heap (ℓ : ghost) (h : hpc) : ghost := ℓ <| g_heap := h |>.

Lemma with_heap_same ℓ : ℓ <| g_heap := g_heap ℓ |> = ℓ.
Proof. by destruct ℓ. Qed.

Lemma tracks_heap_key i ℓ j (Q : Z → ghost → Prop) :
  0 <= j < Z.of_nat n → (∀ z, Q z ℓ) → tracks i (heap_key_at j) ℓ Q.
Proof.
  intros Hj HQ. apply tracks_bind, (tracks_rd_dheap _ _ _ _ (λ _, g_heap ℓ)); [done..|].
  intros a Ha. rewrite with_heap_same. by apply tracks_rd_pool.
Qed.

(** The smallest child is one of the children. *)
Lemma tracks_min_child i ℓ (P : Z → Prop) child mc mi (Q : Z * option Z → ghost → Prop) :
  (∀ c, c ∈ child → c ≠ -1 → P c ∧ 0 <= c < Z.of_nat n) →
  (mc ≠ LONG_MAX → ∃ m, mi = Some m ∧ P m ∧ 0 <= m < Z.of_nat n) →
  (∀ mc mi, (mc ≠ LONG_MAX → ∃ m, mi = Some m ∧ P m ∧ 0 <= m < Z.of_nat n) → Q (mc, mi) ℓ) →
  tracks i (min_child_at child mc mi) ℓ Q.
Proof.
  intros Hc Hm HQ. revert mc mi Hm. induction child as [|c child IH]; intros mc mi Hm; [by apply HQ|].
  assert (∀ c', c' ∈ child → c' ≠ -1 → P c' ∧ 0 <= c' < Z.of_nat n) as Hc' by (intros; apply Hc; [by right|done]).
  cbn [min_child_at]. destruct (decide (c ≠ -1)) as [Hne|]; [|by apply IH].
  destruct (Hc c) as [HP Hr]; [by left|done|].
  apply tracks_bind, tracks_heap_key; [done|]. intros key. destruct (key <? mc); [|by apply IH].
  apply tracks_bind, tracks_heap_key; [done|]. intros key'. apply IH; [done|]. eauto.
Qed.

Lemma tracks_restore_turn i ℓ index (Q : turn Z → ghost → Prop) :
  (i < N)%nat → quiet (g_heap ℓ) → 0 <= index < Z.of_nat n →
  (∀ h, quiet h → Q (Stop 0) (with_heap ℓ h)) →
  (∀ h m, quiet h → index < m < Z.of_nat n → Q (Again m) (with_heap ℓ h)) →
  tracks i (restore_turn (Z.of_nat n) SCH_HEAP_BREATH index) ℓ Q.
Proof.
  intros Hlt Hquiet Hix HQ1 HQ2. unfold restore_turn, SCH_HEAP_BREATH in *.
  apply tracks_bind. eapply tracks_local; [apply fill_children_spec; lia|].
  apply tracks_bind, (tracks_min_child _ _ (λ c, index < c)); [|done|].
  { intros c Hc Hne. apply elem_of_children in Hc as [Hch Hcn]; [|lia..].
    assert (index < c); [apply (is_child_lt 4); [lia..|done]|lia]. }
  intros mc mi Hmc. destruct (Z.eqb_spec mc LONG_MAX) as [|Hne].
  { rewrite <-(with_heap_same ℓ). by apply HQ1. }
  destruct (Hmc Hne) as (m & -> & Hm & Hmn). apply tracks_bind. eapply tracks_local; [done|].
  apply tracks_bind, (tracks_rd_dheap _ _ _ _ (λ a, HAt (Z.to_nat index) a)); [done| |].
  { intros arr a Hl Ha Hpc. split; [by eapply heap_quiet|done]. }
  intros a Ha. apply tracks_bind, (tracks_rd_dheap _ _ _ _ (λ b, HBoth (Z.to_nat index) (Z.to_nat m) a b)); [done| |].
  { intros arr b Hl Hb [Hp Ha']. split_and!; [done..|lia]. }
  intros b Hb. apply tracks_bind, tracks_rd_pool; [done|]. intros ka.
  apply tracks_bind, tracks_rd_pool; [done|]. intros kb.
  apply tracks_bind. destruct (kb <? ka); cycle 1.
  { refine (HQ2 (HBoth (Z.to_nat index) (Z.to_nat m) a b) m _ _); [done|lia]. }
  apply tracks_bind, (tracks_wr_dheap _ _ _ _ _ (HSwap (Z.to_nat m) a)); [done..| |].
  { cbn. intros arr Hl (Hp & Ha' & Hb' & Hnm). rewrite <-Hp. by apply swap_Permutation. }
  apply (tracks_wr_dheap _ _ _ _ _ HNone); [done..|].
  refine (HQ2 HNone m _ _); [done|lia].
Qed.

Lemma tracks_heapify i ℓ (Q : () → ghost → Prop) :
  (i < N)%nat → quiet (g_heap ℓ) → (∀ h, quiet h → Q () (with_heap ℓ h)) →
  tracks i heapify_all ℓ Q.
Proof.
  intros Hlt Hquiet HQ. unfold heapify_all. apply tracks_bind, tracks_rd_num.
  unfold SCH_HEAP_BREATH in *. rewrite s32_small by (unfold INT_MIN, INT_MAX in *; lia).
  apply tracks_bind. eapply tracks_local.
  { unfold checked. by rewrite (proj2 (is_int_spec _)) by (unfold INT_MIN, INT_MAX in *; lia). }
  assert (∀ i0, i0 ∈ heapify_indices ((Z.of_nat n - 1) `quot` SCH_HEAP_BREATH) → 0 <= i0 < Z.of_nat n) as Hidx.
  { intros i0. unfold heapify_indices, SCH_HEAP_BREATH. rewrite elem_of_reverse, elem_of_seqZ.
    rewrite Z.quot_div_nonneg by lia. pose proof (Z.div_le_upper_bound (Z.of_nat n - 1) 4 (Z.of_nat n - 1)). lia. }
  unfold SCH_HEAP_BREATH in Hidx. revert Hidx. generalize (heapify_indices ((Z.of_nat n - 1) `quot` 4)).
  intros idxs. revert ℓ Hquiet HQ. induction idxs as [|j idxs IH]; intros ℓ Hquiet HQ Hidx.
  { rewrite <-(with_heap_same ℓ). by apply HQ. }
  cbn [heapify_from]. apply tracks_bind.
  apply (tracks_iter _ _ _ (λ y m, 0 <= y < Z.of_nat n ∧ ∃ h, quiet h ∧ m = with_heap ℓ h)).
  { split; [apply Hidx; by left|]. exists (g_heap ℓ). split; [done|]. unfold with_heap. by rewrite with_heap_same. }
  intros y m [Hy (h & Hh & ->)]. apply tracks_restore_turn; [done..| |].
  - intros h' Hh'. apply IH; [done| |intros; apply Hidx; by right].
    intros h'' Hh''. by apply (HQ h'').
  - intros h' m' Hh' Hm'. split; [lia|]. by exists h'.
Qed.

(** ** [schQueueMutexEnDeQueue] *)

Lemma tracks_next i ℓ (r z : Z) (Q : Z → ghost → Prop) :
  0 <= z < r → r < UINT_MOD → Q ((z + 1) mod r) ℓ → tracks i (local (umod (u32 (z + 1)) r)) ℓ Q.
Proof.
  intros Hz Hr HQ. eapply tracks_local; [|exact HQ]. rewrite u32_small by lia. unfold umod.
  by rewrite decide_False by lia.
Qed.

Lemma tracks_enqueue i ℓ p x (Q : () → ghost → Prop) :
  (i < N)%nat → (p < n)%nat → good (idx p) x → g_q ℓ = QRoom p → g_wait ℓ = 0 → g_stage ℓ = SUp → g_mx ℓ = false →
  Q () (ℓ <| g_q := QNone |>) → tracks i (enqueue (Z.of_nat p) x) ℓ Q.
Proof.
  intros Hlt Hp Hx Hq Hw Hup Hmx HQ. unfold enqueue.
  apply tracks_bind, (tracks_lock _ _ _ _ _ _ _ _ (QLock p x None)); rewrite ?Hq; [by right|done..| |].
  { intros vs es tk Hl [_ _]. split; [|lia]. intros _. split; [done|].
    destruct (lookup_lt_is_Some_2 vs p) as [v Hv]; [by rewrite Hl|]. by exists v. }
  apply tracks_bind, (tracks_rd_tail_lock _ _ p x); [done..|]. intros t.
  apply tracks_bind, (tracks_store _ _ _ _ _ _ _ _ p x); [done..|].
  apply tracks_bind, (tracks_rd_tail_cell _ _ p x); [done..|]. intros t' Ht' Hr.
  apply tracks_bind, tracks_rd_reserved; [done|].
  apply tracks_bind, tracks_next; [done..|].
  apply tracks_bind, (tracks_wr_tail _ _ p x); [done..|].
  apply tracks_bind, (tracks_rd_size_tail _ _ p x); [done..|]. intros z.
  apply tracks_bind, (tracks_count _ _ _ _ _ _ _ _ p x); [done|done|by apply res_uint|done|done|done|].
  apply tracks_bind, (tracks_unlock _ _ _ _ _ _ _ _ QNone); [done..| |exact HQ].
  intros vs es tk Hl _. split; [done|lia].
Qed.

Lemma tracks_dequeue i ℓ p (Q : Z → ghost → Prop) :
  i = (N + p)%nat → (p < n)%nat → g_q ℓ = WSome p →
  (∀ h tk, Q h (ℓ <| g_q := WCell p h |> <| g_taken := tk |>)) →
  tracks i (dequeue (Z.of_nat p)) ℓ Q.
Proof.
  intros Hip Hp Hq HQ. unfold dequeue.
  assert (∀ q q' vs es tk, worker_at p q' → cell_of q' = cell_of q → running q' = running q →
    (∀ h c, q' ≠ WCall p h c) →
    (∀ v, worker_pc (res p) (idx p) v q → worker_pc (res p) (idx p) v q') →
    thread_ok N n res idx vs es i q tk → thread_ok N n res idx vs es i q' tk) as Hmove.
  { intros q q' vs es tk Hat Hc Hr Hnc Hpc [_ Hw]. split; [lia|]. intros p' Hp'.
    assert (p' = p) as -> by lia. split; [done|]. intros v Hv.
    pose proof (proj2 (Hw p Hip) v Hv) as Hwi. eapply worker_inv_move; [exact Hwi|done..| |].
    - apply Hpc, Hwi.
    - intros _ h c ->. by destruct (Hnc h c). }
  apply tracks_bind, (tracks_lock _ _ _ _ _ _ _ _ (WLock p None)); rewrite ?Hq; [left; lia|done..| |].
  { intros vs es tk _. by apply Hmove. }
  apply tracks_bind, (tracks_rd_size_lock _ _ p); [done..|]. intros z.
  apply tracks_bind, (tracks_take _ _ _ _ _ _ _ _ p); [done..|]. intros h tk.
  apply tracks_bind, (tracks_rd_head _ _ p h); [done..|]. intros Hh Hr.
  apply tracks_bind, (tracks_rd_head _ _ p h); [done..|]. intros _ _.
  apply tracks_bind, tracks_rd_reserved; [done|].
  apply tracks_bind, tracks_next; [done..|].
  apply tracks_bind, (tracks_wr_head _ _ p h); [done..|].
  apply tracks_bind, (tracks_unlock _ _ _ _ _ _ _ _ (WCell p h)); [done..| |].
  { intros vs es tk' _. by apply Hmove. }
  exact (HQ h tk).
Qed.

(** ** The pool threads *)

(** Between two turns of its main loop, a worker does nothing. *)
Definition at_rest (ℓ : ghost) : Prop := g_q ℓ = QNone.

(** It takes a signal: it goes on, waits for another one, or leaves. *)
Lemma tracks_sleep_turn i p ℓ (Q : turn () → ghost → Prop) :
  i = (N + p)%nat → (p < n)%nat → at_rest ℓ →
  Q (Stop 1) ℓ → Q (Stop 0) (ℓ <| g_q := WLeave p |>) → tracks i (sleep_turn (Z.of_nat p) ()) ℓ Q.
Proof. intros Hip Hp Hrest HQ1 HQ2. by apply tracks_bind, (tracks_signal_wait _ _ _ _ _ _ _ _ p). Qed.

Lemma tracks_worker_turn i p ℓ (Q : turn () → ghost → Prop) :
  i = (N + p)%nat → (p < n)%nat → at_rest ℓ →
  (∀ ℓ', at_rest ℓ' → Q (Again ()) ℓ') → (∀ ℓ', g_q ℓ' = WLeave p → Q (Stop 0) ℓ') →
  tracks i (worker_turn clock (Z.of_nat p) (idx p) ()) ℓ Q.
Proof.
  intros Hip Hp Hrest HQ1 HQ2. unfold worker_turn.
  apply tracks_bind, (tracks_rd_size_some _ _ p); [done..| |].
  - intros z Hz. rewrite decide_True by done.
    apply tracks_bind, (tracks_dequeue _ _ p); [done..|]. intros h tk.
    apply tracks_bind, (tracks_rd_callback _ _ _ _ _ _ _ _ p h); [done..|]. intros c.
    apply tracks_bind, (tracks_wr_index _ _ _ _ _ _ _ _ p h); [done..|].
    apply tracks_bind, (tracks_log_started _ _ _ _ _ _ _ _ p h c); [done..|].
    apply tracks_bind. split; [exact clock_time|]. intros t Ht. apply tracks_ret.
    apply tracks_bind, (tracks_log_finished _ _ _ _ _ _ _ _ p h); [done..|].
    apply tracks_bind, tracks_wr_misc; [done|done|].
    apply tracks_bind, tracks_wr_prio; [done|by apply clock_ok|].
    by apply HQ1.
  - intros z Hz. rewrite decide_False by done.
    apply tracks_bind, tracks_wr_prio; [done|done|].
    apply tracks_bind, (tracks_set_flag _ _ _ _ _ _ _ _ p); [done|done|by rewrite Hrest|].
    apply tracks_bind, tracks_pool_unlock.
    apply tracks_bind, tracks_cond_signal.
    apply tracks_bind, (tracks_set_flag _ _ _ _ _ _ _ _ p); [done|done|by rewrite Hrest|].
    apply tracks_bind, (tracks_rd_ref _ _ _ _ _ _ _ _ p); [done|done|by rewrite Hrest|]. intros h Hh.
    apply tracks_bind, tracks_notify; [done|].
    apply tracks_bind, (tracks_iter _ _ _ (λ _, at_rest)); [done|]. intros [] m Hm.
    apply (tracks_sleep_turn _ p); [done..| |by apply HQ2].
    rewrite decide_False by done.
    apply tracks_bind, (tracks_set_flag _ _ _ _ _ _ _ _ p); [done|done|by rewrite Hm|]. by apply HQ1.
Qed.

Lemma tracks_hook i p field called ℓ (Q : Z → ghost → Prop) :
  (p < n)%nat → (∀ f, called f = Prepared (Z.of_nat p) f ∨ called f = Cleaned (Z.of_nat p) f) →
  (∀ z, Q z ℓ) → tracks i (hook (Z.of_nat p) field called) ℓ Q.
Proof.
  intros Hp Hc HQ. apply tracks_bind, tracks_rd_pool; [done|]. intros f.
  case_decide; [by apply tracks_ret|]. apply tracks_bind, tracks_rd_pool; [done|]. intros f'.
  by eapply tracks_log_called.
Qed.

Lemma tracks_pool_thread i p ℓ :
  i = (N + p)%nat → (p < n)%nat → g_q ℓ = WNew p →
  tracks i (pool_thread clock (Z.of_nat p)) ℓ (λ _ ℓ', g_q ℓ' = WGone p).
Proof.
  intros Hip Hp Hnew. unfold pool_thread. apply tracks_bind, tracks_rd_index; [done|].
  apply tracks_bind, (tracks_align _ _ _ _ _ _ _ _ p); [done..|].
  apply tracks_bind, tracks_hook; [done|auto|]. intros _.
  apply tracks_bind, (tracks_iter _ _ _ (λ _, at_rest)); [done|]. intros [] m Hm.
  apply (tracks_worker_turn _ p); [done..|]. intros ℓ' Hq.
  apply tracks_bind, tracks_hook; [done|auto|]. intros _.
  apply tracks_bind, (tracks_set_flag _ _ _ _ _ _ _ _ p); [done|done|by rewrite Hq|].
  by apply tracks_bind, (tracks_exit _ _ _ _ _ _ _ _ p).
Qed.

(** ** The clients *)

(** Between two calls, a client that has at least [k] submits left. *)
Record idle (k : nat) (ℓ : ghost) : Prop := {
  idle_q : g_q ℓ = QNone;
  idle_heap : quiet (g_heap ℓ);
  idle_wait : 0 <= g_wait ℓ;
  idle_left : (k <= g_left ℓ)%nat;
  idle_stage : closing (g_stage ℓ) = false;
  idle_mx : g_mx ℓ = false;
}.

Lemma idle_to k c ℓ : closing c = false → idle k ℓ → idle k (ℓ <| g_stage := c |>).
Proof. by intros Hc []. Qed.

(** The pools a client may name; only a single client may terminate the scheduler. *)
Definition call_ok (op : client_op) : Prop :=
  match op with
  | CSubmit _ (Some p) => 0 <= p < Z.of_nat n
  | CTerminate => N = 1%nat
  | _ => True
  end.
Definition submits (ops : list client_op) : nat :=
  sum_list_with (λ op, match op with CSubmit _ _ => 1%nat | _ => 0%nat end) ops.

Lemma tracks_submit_pool i ℓ k p pkg (Q : Z → ghost → Prop) :
  (i < N)%nat → (p < n)%nat → pk_callback pkg ≠ NULL → idle (S k) ℓ → g_stage ℓ = SUp →
  (∀ z ℓ', idle k ℓ' → Q z ℓ') → tracks i (submit_pool (Z.of_nat p) pkg) ℓ Q.
Proof.
  intros Hlt Hp Hcb [Hq Hh Hw Hl Hcl Hmx] Hup HQ. unfold submit_pool.
  apply tracks_bind, (tracks_rd_room _ _ p); [done..| |].
  2: { intros z Hz. apply tracks_bind, tracks_rd_reserved; [done|]. rewrite decide_True by done.
       apply tracks_ret, HQ. split; [done..|lia|done|done]. }
  intros z Hz. apply tracks_bind, tracks_rd_reserved; [done|]. rewrite decide_False by lia.
  apply tracks_bind, tracks_rd_index; [done|].
  apply tracks_bind, (tracks_enqueue _ _ p); [done..|].
  apply tracks_bind, (tracks_rd_prio _ _ _ _ _ _ _ _ p); [done|done|cbn; lia|]. intros y Hy Hmax.
  apply tracks_bind. eapply tracks_local.
  { unfold checked. by rewrite (proj2 (is_long_spec _)) by (unfold LONG_MIN; lia). }
  destruct (g_left ℓ) as [|l] eqn:Hleft; [lia|].
  apply tracks_bind, (tracks_wr_prio_inc _ _ _ _ _ _ _ _ p y l); [done..|].
  apply tracks_bind, tracks_rd_pool; [done|]. intros size.
  assert (∀ ℓ' : ghost, g_q ℓ' = QNone → g_heap ℓ' = g_heap ℓ → g_wait ℓ' = 0 → g_left ℓ' = l →
    g_stage ℓ' = g_stage ℓ → g_mx ℓ' = g_mx ℓ → idle k ℓ') as Hidle.
  { intros ℓ' Hq' Hh' Hw' Hl' Hs' Hm'. split; [done|by rewrite Hh'|lia|lia|by rewrite Hs'|by rewrite Hm']. }
  destruct (size <=? 1); [|by apply tracks_ret, HQ, Hidle].
  apply tracks_bind, tracks_rd_pool; [done|]. intros flag.
  destruct (has flag SCH_POOL_SLEEP); [|by apply tracks_ret, HQ, Hidle].
  apply tracks_bind, tracks_rd_thread_up; [done..|]. intros thread Hth.
  apply tracks_bind, tracks_raise_continue; [done..|]. apply tracks_bind, tracks_rd_num.
  apply tracks_bind, tracks_barrier_init. by apply tracks_ret, HQ, Hidle.
Qed.

(** A test of the RUNNING flag: without it, the call ends. *)
Lemma tracks_running i ℓ k r (K : Z → proc sys Z) (Q : Z → ghost → Prop) :
  (i < N)%nat → idle k ℓ → (g_stage ℓ ≠ SUp → Q r ℓ) →
  (∀ z, idle k (ℓ <| g_stage := SUp |>) → tracks i (K z) (ℓ <| g_stage := SUp |>) Q) →
  tracks i (flag ← rd ts_flag; if negb (has flag SCH_FLAG_RUNNING) then mret r else K flag) ℓ Q.
Proof.
  intros Hlt Hidle HQ HK. apply tracks_bind, tracks_rd_flag; [done|apply Hidle|..].
  - intros z ->. by apply HK, idle_to.
  - intros z -> Hup. by apply HQ.
Qed.

(** A test of the INIT flag, which may teach the client that RUNNING is set. *)
Lemma tracks_init i ℓ k r (K : Z → proc sys Z) (Q : Z → ghost → Prop) :
  (i < N)%nat → idle k ℓ →
  (∀ z ℓ', idle k ℓ' → ℓ' = ℓ <| g_stage := SUp |> ∨ ℓ' = ℓ → Q r ℓ' ∧ tracks i (K z) ℓ' Q) →
  tracks i (flag ← rd ts_flag; if negb (has flag SCH_FLAG_INIT) then mret r else K flag) ℓ Q.
Proof.
  intros Hlt Hidle HK. apply tracks_bind, tracks_rd_flag; [done|apply Hidle|..].
  - intros z _. destruct (HK z (ℓ <| g_stage := SUp |>)); [by apply idle_to|by left|]. by destruct (negb _).
  - intros z _ _. destruct (HK z ℓ); [done|by right|]. by destruct (negb _).
Qed.

Lemma tracks_submit i ℓ k pkg pPool (Q : Z → ghost → Prop) :
  (i < N)%nat → call_ok (CSubmit pkg pPool) → idle (S k) ℓ →
  (∀ z ℓ', idle k ℓ' → Q z ℓ') → tracks i (submit pkg pPool) ℓ Q.
Proof.
  intros Hlt Hcall Hidle HQ. unfold submit.
  assert (∀ z ℓ', idle (S k) ℓ' → Q z ℓ') as HQ' by (intros z ℓ' []; apply HQ; split; auto; lia).
  apply (tracks_running _ _ (S k)); [done..|intros _; by apply HQ'|]. clear Hidle. intros _ Hidle.
  apply (tracks_init _ _ (S k)); [done..|]. clear Hidle. intros _ ℓ' Hidle Hℓ'. split; [by apply HQ'|].
  assert (g_stage ℓ' = SUp) as Hup by by destruct Hℓ' as [-> | ->]. clear Hℓ' ℓ.
  case_decide as Hcb; [by apply tracks_ret, HQ'|].
  apply tracks_bind, tracks_heapify; [done|apply Hidle|]. intros h Hh'.
  assert (∀ h', quiet h' → idle (S k) (with_heap ℓ' h')) as Hheap.
  { intros h' Hq'. destruct Hidle. by split. }
  apply tracks_bind. destruct pPool as [p|].
  - apply tracks_ret. cbn in Hcall. replace p with (Z.of_nat (Z.to_nat p)) by lia.
    apply (tracks_submit_pool _ _ k); [done|lia|done|by apply Hheap|done..].
  - apply (tracks_rd_dheap _ _ _ _ (λ _, HNone)); [lia| |].
    + intros arr a _ _ Hpc. by eapply heap_quiet.
    + intros a Ha. apply (tracks_submit_pool _ _ k); [done|done|done|by apply (Hheap HNone)|done|done].
Qed.

(** [schWaitTask]: without RUNNING it returns at once; otherwise with every pool seen idle. *)
Lemma tracks_wait i ℓ k (Q : Z → ghost → Prop) :
  (i < N)%nat → idle k ℓ → (g_stage ℓ ≠ SUp → Q (err_code SCH_ERROR_INVALID_STATE) ℓ) →
  (∀ ℓ', idle k ℓ' → g_stage ℓ' = SUp → Z.of_nat n <= g_wait ℓ' → Q (err_code SCH_OK) ℓ') →
  tracks i (wait_all (Client i)) ℓ Q.
Proof.
  intros Hlt Hidle HQ1 HQ2. unfold wait_all.
  apply (tracks_running _ _ k); [done..|]. clear HQ1 Hidle. intros _ Hidle.
  apply tracks_bind, tracks_mutex_lock; [done|exact (f_equal holds (idle_q _ _ Hidle))|exact (idle_mx _ _ Hidle)|].
  apply tracks_bind, tracks_await; [done|].
  apply tracks_bind, tracks_mutex_unlock; [done|].
  assert (idle k (ℓ <| g_stage := SUp |> <| g_mx := true |> <| g_mx := false |>)) as Hout by by destruct Hidle; split.
  clear Hidle. rename Hout into Hidle.
  apply tracks_bind, (tracks_iter _ _ _ (λ y m, 0 <= y <= g_wait m ∧ idle k m ∧ g_stage m = SUp)).
  { split; [|done]. pose proof (idle_wait _ _ Hidle). lia. }
  clear ℓ Hidle. intros y ℓ (Hy & Hidle & Hup). unfold wait_turn.
  apply tracks_bind, tracks_rd_num. case_decide as Hend.
  - apply tracks_ret, tracks_bind, tracks_log_waited; [done|lia|]. apply tracks_ret, HQ2; [done..|lia].
  - replace y with (Z.of_nat (Z.to_nat y)) by lia.
    apply tracks_bind, tracks_rd_pool; [lia|]. intros flag.
    assert (∀ z : Z, tracks i (mret (Again y)) ℓ (λ t m, match t with
      | Again y' => 0 <= y' <= g_wait m ∧ idle k m ∧ g_stage m = SUp
      | Stop z => tracks i (_ ← log Waited; mret (err_code SCH_OK)) m Q
      end)) as Hpoll by (intros _; apply tracks_ret; split; [lia|done]).
    replace (Z.of_nat (Z.to_nat y)) with y in * by lia.
    destruct (has flag SCH_POOL_SLEEP); [|by apply tracks_bind; split; [by exists 0|]].
    replace y with (Z.of_nat (Z.to_nat y)) by lia.
    apply tracks_bind, tracks_rd_empty; [done|lia|lia| |].
    + intros w Hw. apply tracks_ret. destruct Hidle as [Hq Hh Hw0 Hl Hc Hm]. split; [cbn; lia|].
      split; [|done]. split; cbn; [done|done|lia|done|done|done].
    + intros z Hz. destruct (Z.leb_spec z 0); [lia|]. replace (Z.of_nat (Z.to_nat y)) with y by lia.
      by apply tracks_bind; split; [by exists 0|].
Qed.

Lemma tracks_stop i ℓ k (Q : Z → ghost → Prop) :
  (i < N)%nat → idle k ℓ → (∀ z ℓ', idle k ℓ' → Q z ℓ') → tracks i stop_all ℓ Q.
Proof.
  intros Hlt Hidle HQ. unfold stop_all.
  apply (tracks_init _ _ k); [done..|]. clear Hidle. intros _ ℓ' Hidle _. split; [by apply HQ|]. clear ℓ.
  apply (tracks_running _ _ k); [done..|intros _; by apply HQ|]. clear Hidle. intros _ Hidle.
  apply (tracks_iter _ _ _ (λ y m, 0 <= y ∧ m = ℓ' <| g_stage := SUp |>)); [done|].
  intros y m [Hy ->]. unfold stop_turn. apply tracks_bind, tracks_rd_num. case_decide as Hend; [by apply tracks_ret, HQ|].
  replace y with (Z.of_nat (Z.to_nat y)) by lia.
  apply tracks_bind, tracks_rd_thread_up; [done|lia|]. intros h Hh.
  apply tracks_bind, tracks_raise_continue; [done|lia|done|].
  rewrite decide_False by (by intros []). apply tracks_ret. split; [lia|done].
Qed.

(** Terminating, whatever the stage. *)
Definition calm (k : nat) (ℓ : ghost) : Prop := idle k (ℓ <| g_stage := SRest |>) ∧ Z.of_nat n <= g_wait ℓ.

Lemma tracks_destroy i ℓ x f status (Q : Z → ghost → Prop) :
  (x < n)%nat → (∀ z, Q z ℓ) → tracks i (destroy (Z.of_nat x) f status) ℓ Q.
Proof.
  intros Hx HQ. apply tracks_bind, tracks_rd_pool; [done|]. intros h. case_decide; [by apply tracks_ret|].
  apply tracks_bind, tracks_rd_pool; [done|]. intros z. by apply tracks_ret.
Qed.

Lemma tracks_terminate_turn i ℓ k x status (Q : turn (Z * Z) → ghost → Prop) :
  N = 1%nat → i = 0%nat → calm k ℓ → (x <= n)%nat → g_stage ℓ = SUp ∧ x = 0%nat ∨ g_stage ℓ = SDown x →
  (∀ z ℓ', calm k ℓ' → g_stage ℓ' = SDown n → Q (Stop z) ℓ') →
  (∀ z ℓ', calm k ℓ' → (x < n)%nat → g_stage ℓ' = SDown (S x) → Q (Again (Z.of_nat x + 1, z)) ℓ') →
  tracks i (terminate_turn (Z.of_nat x, status)) ℓ Q.
Proof.
  intros HN Hz Hcalm Hle Hst HQ1 HQ2. unfold terminate_turn.
  apply tracks_bind, (tracks_rd_num_down _ _ _ _ _ _ _ _ x); [done..|]. case_decide as Hend.
  { apply tracks_ret, HQ1; [done|]. by assert (x = n) as -> by lia. }
  assert (x < n)%nat as Hx by lia. clear Hle Hend.
  apply tracks_bind, tracks_rd_thread_down; [done..| |].
  { rewrite decide_True by done. by apply tracks_ret, HQ2. }
  intros z1 H1. rewrite decide_False by done.
  apply tracks_bind, tracks_rd_thread_again; [done|by left|]. intros z2 H2.
  apply tracks_bind, tracks_raise_term; [done..|].
  apply tracks_bind, tracks_rd_thread_again; [done|by right|]. intros z3 H3.
  apply tracks_bind, (tracks_join _ _ _ _ _ _ _ _ x); [done|exact (f_equal holds (idle_q _ _ (proj1 Hcalm)))|exact (idle_mx _ _ (proj1 Hcalm))|done..|].
  apply tracks_bind, tracks_wr_thread; [done..|].
  apply tracks_bind, (tracks_wr_ref _ _ _ _ _ _ _ _ x); [done..|].
  apply tracks_bind, tracks_destroy; [done|]. intros z4.
  apply tracks_bind, tracks_destroy; [done|]. intros z5.
  apply tracks_bind, tracks_wr_misc; [done|done|].
  apply tracks_bind, tracks_wr_misc; [done|done|].
  by apply HQ2.
Qed.

Lemma tracks_terminate i ℓ k (Q : Z → ghost → Prop) :
  (i < N)%nat → call_ok CTerminate → idle k ℓ → (∀ z ℓ', idle k ℓ' → Q z ℓ') → tracks i (terminate_all (Client i)) ℓ Q.
Proof.
  intros Hlt HN Hidle HQ. cbn in HN. unfold terminate_all.
  apply (tracks_init _ _ k); [done..|]. clear Hidle. intros _ ℓ' Hidle _. split; [by apply HQ|]. clear ℓ.
  apply (tracks_running _ _ k); [done..|intros _; by apply HQ|]. clear Hidle. intros _ Hidle.
  apply tracks_bind, (tracks_wait _ _ k); [done..|]. clear ℓ' Hidle. intros ℓ Hidle Hup Hw.
  apply tracks_bind, (tracks_iter _ _ _ (λ y m, calm k m ∧ ∃ x, y.1 = Z.of_nat x ∧ (x <= n)%nat ∧
    (g_stage m = SUp ∧ x = 0%nat ∨ g_stage m = SDown x))).
  { split; [split; [by apply idle_to|done]|]. exists 0%nat. auto with lia. }
  clear ℓ Hidle Hup Hw. intros [y status] ℓ (Hcalm & x & Hy & Hle & Hst). cbn in Hy. subst y.
  apply (tracks_terminate_turn _ _ k); [done|lia|done..| |].
  - intros z ℓ' Hcalm' Hst'. apply tracks_bind, tracks_clear_running; [done|].
    apply tracks_bind, tracks_log_terminated; [done|done|apply Hcalm'|].
    apply tracks_ret, HQ, Hcalm'.
  - intros z ℓ' Hcalm' Hx Hst'. split; [done|]. exists (S x). cbn. split_and!; [lia|lia|auto].
Qed.

Lemma tracks_client i ℓ ops :
  (i < N)%nat → Forall call_ok ops → idle (submits ops) ℓ →
  tracks i (client (Client i) ops) ℓ (λ _ ℓ', idle 0 ℓ').
Proof.
  intros Hlt Hops. revert ℓ. induction Hops as [|op ops Hop _ IH]; intros ℓ Hidle; [done|].
  cbn [client]. apply tracks_bind. destruct op as [pkg pPool| | |]; cbn [client_call].
  - apply (tracks_submit _ _ (submits ops)); [done..|exact Hidle|]. intros z ℓ' Hl'. by apply IH.
  - apply (tracks_wait _ _ (submits ops)); [done|exact Hidle|intros _; by apply IH|].
    intros ℓ' Hl' _ _. by apply IH.
  - apply (tracks_stop _ _ (submits ops)); [done|exact Hidle|]. intros z ℓ' Hl'. by apply IH.
  - apply (tracks_terminate _ _ (submits ops)); [done..|exact Hidle|]. intros z ℓ' Hl'. by apply IH.
Qed.
End calls.
