(* ===== verification/SystemSafe.v ===== *)
(** * What holds of the interleaved scheduler, whatever the schedule

    Any number of clients, each with its sequence of calls, and one worker per pool, from a
    started scheduler with empty queues: no thread reaches undefined behaviour but for two
    misuses of the mutex and the barrier, the rings stay well-formed, tasks are neither lost nor duplicated, and each queue is a FIFO.  With a
    single client, the heap keeps its pools, a wait that returns leaves every queue empty, and
    a termination leaves no task behind. *)
From S2P Require Import Prelude Errors Flags Structures Heapify TaskQueue Platform Executor Threads.
From S2P Require Import System ExecutorFacts Concurrency SystemQueue SystemInv SystemLife SystemTracks SystemCalls.

(** A started scheduler: empty queues, every pool in the heap, a thread for every pool, which
    knows whom to tell that it is idle and finds its RUNNING bit clear; the mutex is free, and nobody
    waits on the condition.  [T] bounds the measured
    time of a task and the first priorities. *)
Record ready (clock : Z → bool) (T : Z) (clients : list (list client_op)) (s : sys) : Prop := {
  rd_pos : (0 < length (pools s))%nat;
  rd_num : ts_num (sy_ts s) = Z.of_nat (length (pools s));
  rd_int : SCH_HEAP_BREATH * Z.of_nat (length (pools s)) <= INT_MAX;
  rd_rings : Forall (λ pool, ring_wf pool ∧ tp_size pool = 0 ∧
    tp_reserved pool + Z.of_nat (length clients) <= UINT_MOD ∧ 0 <= tp_dheapPriority pool <= T) (pools s);
  rd_heap : ts_dheaps (sy_ts s) ≡ₚ seq 0 (length (pools s));
  rd_threads : Forall (λ pool, tp_thread pool ≠ NULL ∧ tp_schRefThread pool ≠ NULL ∧
    truthy (SchC.isRunning (tp_flag pool)) = false) (pools s);
  rd_signals : length (sy_pending s) = length (pools s) ∧ length (sy_terms s) = length (pools s);
  rd_life : sy_life s = replicate (length (pools s)) Alive;
  rd_spin : sy_spin s = false;
  rd_events : sy_events s = [];
  rd_sync : sn_mutex (sy_sync s) = None ∧ sn_waiters (sy_sync s) = 0%nat ∧ sn_misuse (sy_sync s) = [];
  rd_clock t : clock t = true → 0 <= t <= T;
  rd_time : ∃ t, clock t = true;
  rd_calls : Forall (Forall (call_ok (length clients) (length (pools s)))) clients;
  rd_long : T + 1000 * Z.of_nat (sum_list_with submits clients) <= LONG_MAX;
}.

(** The capacity and the index of pool [p]. *)
Definition capacity (s : sys) (p : nat) : Z := from_option tp_reserved 0 (pools s !! p).
Definition index_of (s : sys) (p : nat) : Z := from_option tp_index 0 (pools s !! p).

Section safe.
Context (clock : Z → bool) (T : Z) (clients : list (list client_op)) (s0 : sys).
#[local] Abbreviation N := (length clients).
#[local] Abbreviation n := (length (pools s0)).
#[local] Abbreviation total := (Z.of_nat (sum_list_with submits clients)).
#[local] Abbreviation Inv := (inv N n (capacity s0) (index_of s0) T total).

(** A client ends outside the critical section and its waits, not in the middle of a swap; a
    worker when it has left. *)
Definition ended (i : nat) (ℓ : ghost) : Prop :=
  (i < N)%nat ∧ g_q ℓ = QNone ∧ quiet (g_heap ℓ) ∧ closing (g_stage ℓ) = false ∧ g_mx ℓ = false ∨
  ∃ p, i = (N + p)%nat ∧ (p < n)%nat ∧ g_q ℓ = WGone p.

Definition ghosts : list ghost :=
  ((λ ops, mkGhost QNone [] HNone 0 (submits ops) None SRest false) <$> clients) ++
  ((λ p, mkGhost (WNew p) [] HNone 0 0 None SRest false) <$> seq 0 n).

Lemma length_ghosts : length ghosts = (N + n)%nat.
Proof. unfold ghosts. by rewrite length_app, !length_fmap, length_seq. Qed.

Lemma ghosts_start i ℓ :
  ghosts !! i = Some ℓ → ∃ q k, ℓ = mkGhost q [] HNone 0 k None SRest false ∧
    ((i < N)%nat ∧ q = QNone ∨ ∃ p, i = (N + p)%nat ∧ (p < n)%nat ∧ q = WNew p).
Proof.
  unfold ghosts. intros [Hi|[Hge Hi]]%lookup_app_Some.
  - rewrite list_lookup_fmap in Hi. destruct (clients !! i) eqn:Hc; [|done]. injection Hi as <-.
    eexists _, _. split; [done|]. left. split; [by eapply lookup_lt_Some|done].
  - rewrite length_fmap in *. rewrite list_lookup_fmap in Hi. destruct (seq 0 n !! _) eqn:Hc; [|done].
    injection Hi as <-. apply lookup_seq in Hc as [-> Hlt]. eexists _, _. split; [done|]. right.
    exists (i - N)%nat. split_and!; [lia|done|done].
Qed.

Lemma ghosts_fmap {A} (f : ghost → A) a :
  (∀ q k, f (mkGhost q [] HNone 0 k None SRest false) = a) → f <$> ghosts = replicate (N + n) a.
Proof.
  intros Hf. apply list_eq. intros i. rewrite list_lookup_fmap.
  destruct (ghosts !! i) as [ℓ|] eqn:Hi; cbn.
  - destruct (ghosts_start i ℓ Hi) as (q & k & -> & _). rewrite Hf. symmetry. apply lookup_replicate_2.
    apply lookup_lt_Some in Hi. by rewrite length_ghosts in Hi.
  - symmetry. apply lookup_replicate_None. apply lookup_ge_None_1 in Hi. by rewrite length_ghosts in Hi.
Qed.

(** Where the threads are in their queues. *)
Lemma ghosts_q i q :
  (g_q <$> ghosts) !! i = Some q →
  (i < N)%nat ∧ q = QNone ∨ ∃ p, i = (N + p)%nat ∧ (p < n)%nat ∧ q = WNew p.
Proof.
  rewrite list_lookup_fmap. destruct (ghosts !! i) as [ℓ|] eqn:Hi; [|done]. intros [= <-].
  by destruct (ghosts_start i ℓ Hi) as (q & k & -> & Hq).
Qed.

Lemma ghosts_out (f : qpc → bool) :
  f QNone = false → (∀ p, f (WNew p) = false) →
  filter (λ q, f q) (g_q <$> ghosts) = [] ∧ sum_list_with (λ q, Nat.b2n (f q)) (g_q <$> ghosts) = 0%nat.
Proof.
  intros H0 H1. assert (Forall (λ q, f q = false) (g_q <$> ghosts)) as Hall.
  { apply Forall_lookup. intros i q Hq. by destruct (ghosts_q i q Hq) as [[_ ->]|(p & _ & _ & ->)]. }
  clear H0 H1. induction Hall as [|q l Hq _ [IH1 IH2]]; [done|].
  rewrite filter_cons, Hq. cbn. rewrite Hq. done.
Qed.

Lemma ghosts_left : sum_list_with id (g_left <$> ghosts) = sum_list_with submits clients.
Proof.
  unfold ghosts. rewrite fmap_app, sum_list_with_app.
  assert (∀ l, sum_list_with id (g_left <$> ((λ p, mkGhost (WNew p) [] HNone 0 0 None SRest false) <$> l)) = 0%nat) as ->
    by (by intros l; induction l).
  rewrite Nat.add_0_r. rewrite <-list_fmap_compose. generalize clients. by intros l; induction l; cbn; auto.
Qed.

(** The ring of a pool at the start. *)
Lemma ring_start p v :
  ring_wf v → tp_size v = 0 → pools s0 !! p = Some v → wring (capacity s0 p) (index_of s0 p) v.
Proof.
  intros [Hr Hl Hh Hs Ht] H0 Hp. unfold capacity, index_of. rewrite Hp. cbn.
  split; try done; try lia.
Qed.

(** *** When nobody can move *)

Section stuck.
Context (s : sys) (ls : list ghost) (Hs : Inv s ls).
Context (Hall : ∀ i ℓ, ls !! i = Some ℓ → ended i ℓ ∨ may N n i s ls).

Lemma stuck_unlocked : sy_spin s = false.
Proof.
  destruct (inv_queues _ _ _ _ _ _ _ _ Hs) as (vs & hd & Hq).
  rewrite (qi_spin _ _ _ _ _ _ _ _ _ Hq). destruct hd as [q|]; [|done].
  pose proof (qi_holder _ _ _ _ _ _ _ _ _ Hq) as Hh. unfold holder in Hh. exfalso.
  assert (q ∈ filter (λ q, holds q) (g_q <$> ls)) as Hin by (rewrite Hh; by left).
  apply list_elem_of_filter in Hin as [Hq1 Hin]. apply list_elem_of_fmap in Hin as (ℓ & -> & Hin).
  apply list_elem_of_lookup in Hin as [i Hi].
  destruct (Hall i ℓ Hi) as [[(_ & Hn & _)|(p & _ & _ & Hn)]|(ℓ' & Hi' & [Hn _] & _)]; [by rewrite Hn in Hq1..|].
  rewrite Hi in Hi'. injection Hi' as <-. by rewrite Hn in Hq1.
Qed.

Lemma stuck_mutex : sn_mutex (sy_sync s) = None.
Proof.
  destruct (sn_mutex (sy_sync s)) as [w|] eqn:Hm; [|done]. exfalso.
  pose proof (inv_mx _ _ _ _ _ _ _ _ Hs) as Hmx. destruct (mx_holder _ _ _ Hmx w Hm) as (i & _ & Hi).
  pose proof (mx_client _ _ _ Hmx i Hi) as Hlt. rewrite list_lookup_fmap in Hi.
  destruct (ls !! i) as [ℓ|] eqn:Hℓ; [|done]. injection Hi as Hg.
  destruct (Hall i ℓ Hℓ) as [[(_ & _ & _ & _ & Hn)|(p & ? & _)]|(ℓ' & Hi' & [_ Hn] & _)]; [congruence|lia|].
  rewrite Hℓ in Hi'. injection Hi' as <-. congruence.
Qed.

(** What keeps a worker from moving: it has ended, or has no signal. *)
Lemma stuck_worker p ℓ :
  ls !! (N + p)%nat = Some ℓ → (p < n)%nat →
  g_q ℓ = WGone p ∧ sy_life s !! p ≠ Some Alive ∨
  g_q ℓ = QNone ∧ sy_life s !! p = Some Alive ∧ default false (at_index (sy_pending s) (Z.of_nat p)) = false ∧
    sy_terms s !! p ≠ Some true.
Proof.
  intros Hi Hp. pose proof (inv_life _ _ _ _ _ _ _ _ Hs) as Hl.
  pose proof (li_alive _ _ _ _ _ Hl p _ (left_lookup ls _ ℓ Hi) Hp) as Ha.
  destruct (Hall _ ℓ Hi) as [[(? & _)|(q & Hq & _ & Hn)]|(ℓ' & Hi' & _ & [Hsp|[[w Hm]|[(x & _ & Hst & _)|(q & Hq & Hn & Hpd & Ht)]]])].
  - lia.
  - assert (q = p) as -> by lia. left. split; [done|]. rewrite Ha, Hn. by intros [].
  - by rewrite stuck_unlocked in Hsp.
  - by rewrite stuck_mutex in Hm.
  - exfalso. rewrite Hi in Hi'. injection Hi' as <-.
    pose proof (li_worker _ _ _ _ _ Hl p _ (ghost_lookup ls _ ℓ Hi g_stage)). congruence.
  - assert (q = p) as -> by lia. rewrite Hi in Hi'. injection Hi' as <-. right. split_and!; [done| |done|].
    + by rewrite Ha, Hn.
    + intros Ht'. rewrite at_index_nat, Nat2Z.id, Ht' in Ht by lia. done.
Qed.

Lemma stuck_joined i ℓ x :
  ls !! i = Some ℓ → g_stage ℓ = SJoin x → (x < n)%nat → sy_life s !! x ≠ Some Alive.
Proof.
  intros Hi Hst Hx. pose proof (inv_life _ _ _ _ _ _ _ _ Hs) as Hl.
  pose proof (li_stage _ _ _ _ _ Hl i _ (ghost_lookup ls i ℓ Hi g_stage)) as Hok. rewrite Hst in Hok.
  destruct Hok as (_ & _ & Hok). destruct (inv_queues _ _ _ _ _ _ _ _ Hs) as (vs & hd & Hq).
  destruct (lookup_lt_is_Some_2 ls (N + x)) as [ℓw Hw].
  { destruct (qi_lengths _ _ _ _ _ _ _ _ _ Hq) as (_ & _ & Hlen & _). rewrite length_fmap in Hlen. lia. }
  destruct (stuck_worker x ℓw Hw Hx) as [[_ ?]|(Hn & _ & _ & Ht)]; [done|].
  destruct Hok as [?|[?|Hlv]]; [done..|]. rewrite (left_lookup ls _ ℓw Hw), Hn in Hlv. done.
Qed.
End stuck.

Section start.
Context (Hready : ready clock T clients s0).

Lemma ready_pool p v :
  pools s0 !! p = Some v →
  ring_wf v ∧ tp_size v = 0 ∧ tp_reserved v + Z.of_nat N <= UINT_MOD ∧ 0 <= tp_dheapPriority v <= T.
Proof. intros Hp. by apply (proj1 (Forall_lookup _ _) (rd_rings _ _ _ _ Hready) p). Qed.

Lemma ready_T : 0 <= T.
Proof.
  destruct (lookup_lt_is_Some_2 (pools s0) 0) as [v Hv]; [apply Hready|].
  pose proof (ready_pool 0 v Hv). lia.
Qed.

Lemma ready_queues :
  queues_inv N n (capacity s0) (index_of s0) s0 (g_q <$> ghosts) (replicate (N + n) []) (pools s0) None.
Proof.
  split.
  - unfold holder. exact (proj1 (ghosts_out holds eq_refl (λ _, eq_refl))).
  - apply Hready.
  - by rewrite length_fmap, length_ghosts, length_replicate.
  - by intros p v pool -> [= ->].
  - intros p v Hp. by apply ring_start; first [done|apply (ready_pool p v Hp)].
  - intros p v Hp. destruct (ready_pool p v Hp) as (Hw & H0 & _).
    assert (inflights p (g_q <$> ghosts) = 0) as ->.
    { unfold inflights. by rewrite (proj2 (ghosts_out (inflight p) eq_refl (λ _, eq_refl))). }
    unfold capacity. rewrite Hp. cbn. pose proof (ring_reserved _ Hw). lia.
  - intros i q tk Hi%ghosts_q Htk. apply lookup_replicate_1 in Htk as [-> _]. split.
    { intros Hlt. by destruct Hi as [[_ ->]|(p & ? & _)]; [|lia]. }
    intros p ->. destruct Hi as [[? _]|(p' & Hp' & _ & ->)]; [lia|]. assert (p' = p) as -> by lia.
    split; [done|]. intros v Hv. destruct (ready_pool p v Hv) as (Hw & H0 & _).
    rewrite (rd_events _ _ _ _ Hready).
    split; cbn; try done; try lia.
    + intros _ x size He. by apply elem_of_nil in He.
    + intros _. unfold capacity. rewrite Hv. cbn. pose proof (ring_reserved _ Hw). lia.
    + intros _. unfold ring_contents. by rewrite H0.
    + intros _. by exists [].
Qed.

Lemma ready_mark p (f : schTaskPool → Z) z :
  (f <$> pools s0) !! p = Some z → ∃ pool, z = f pool ∧
    tp_thread pool ≠ NULL ∧ tp_schRefThread pool ≠ NULL ∧ truthy (SchC.isRunning (tp_flag pool)) = false.
Proof.
  rewrite list_lookup_fmap. destruct (pools s0 !! p) as [pool|] eqn:Hp; [|done]. intros [= <-].
  exists pool. split; [done|]. by apply (proj1 (Forall_lookup _ _) (rd_threads _ _ _ _ Hready) p).
Qed.

Lemma ready_life :
  life_inv N n s0 (left_of <$> (g_q <$> ghosts)) (replicate (N + n) SRest).
Proof.
  assert (∀ p, (p < n)%nat → threaded s0 p) as Hth.
  { intros p Hp. destruct (lookup_lt_is_Some_2 (handles s0) p) as [h Hh]; [unfold handles; by rewrite length_fmap|].
    exists h. split; [done|]. by destruct (ready_mark _ _ _ Hh) as (pool & -> & ? & _). }
  destruct (rd_signals _ _ _ _ Hready) as [Hp Ht]. pose proof (rd_life _ _ _ _ Hready) as Hl.
  assert (∀ i c, replicate (N + n) SRest !! i = Some c → c = SRest) as Hc.
  { intros i c Hi. by apply lookup_replicate_1 in Hi as [-> _]. }
  split.
  - rewrite Hl, length_replicate. unfold handles. by rewrite length_fmap.
  - intros p b Hb Hlt. rewrite list_lookup_fmap in Hb. destruct ((g_q <$> ghosts) !! _) as [q|] eqn:Hq; [|done].
    injection Hb as <-. rewrite Hl, lookup_replicate_2 by done.
    by destruct (ghosts_q _ _ Hq) as [[_ ->]|(p' & _ & _ & ->)].
  - by intros i c ->%Hc.
  - intros p c. apply Hc.
  - intros p (pool & Hnull & ? & _)%ready_mark. by rewrite <-Hnull in *.
  - intros _ _ p. apply Hth.
  - intros p _ Hj. rewrite Hl in Hj. by apply lookup_replicate_1 in Hj as [? _].
  - by intros i c ->%Hc.
  - rewrite (rd_events _ _ _ _ Hready). by intros He%elem_of_nil.
  - by intros p h _ (pool & -> & _ & ? & _)%ready_mark.
  - by intros p f _ (pool & -> & _ & _ & ?)%ready_mark.
  - intros p (pool & Hnull & ? & _)%ready_mark. by rewrite <-Hnull in *.
Qed.

Lemma ready_inv : Inv s0 ghosts.
Proof.
  pose proof Hready as [Hn Hnum Hint Hrings Hheap Hthreads Hsig Hlife Hspin Hev Hsync Hclock Htime Hcalls Hlong]. split.
  - done.
  - exists (pools s0), None.
    rewrite (ghosts_fmap _ []) by done. apply ready_queues.
  - split_and!.
    + by rewrite Hheap, length_seq.
    + rewrite Hheap. apply Forall_forall. intros p Hp%elem_of_seq. lia.
    + intros _ h Hh. rewrite (ghosts_fmap _ HNone) in Hh by done.
      by apply lookup_replicate_1 in Hh as [-> _].
  - intros _. rewrite Hev. split; [|done]. intros w p z Hw _ Hp.
    rewrite (ghosts_fmap _ 0) in Hw by done. apply lookup_replicate_1 in Hw as [-> _]. lia.
  - unfold prio_inv. rewrite ghosts_left, (ghosts_fmap _ None) by done. split_and!; [done| |].
    + apply Forall_fmap. eapply Forall_impl; [exact Hrings|]. intros v (_ & _ & _ & Hp).
      unfold prio_ok. rewrite ghosts_left. cbn. lia.
    + apply Forall_forall. intros o Ho z ->. apply elem_of_replicate in Ho as [? _]. done.
  - rewrite (ghosts_fmap g_stage SRest) by done. apply ready_life.
  - rewrite (ghosts_fmap g_mx false) by done. destruct Hsync as (Hm & Hw & Hu).
    assert (∀ i, replicate (N + n) false !! i ≠ Some true) as Hout.
    { intros i Hi. by apply lookup_replicate_1 in Hi as [? _]. }
    split; rewrite ?Hm, ?Hw, ?Hu; try done.
    + intros i Hi. by destruct (Hout i).
    + intros w. apply not_elem_of_nil.
    + by intros i Hi%not_elem_of_nil.
    + intros i Hi. by destruct (Hout i).
Qed.

Lemma ready_tracked : tracked Inv (may N n) False ended (threads clock clients n, s0).
Proof.
  pose proof Hready as [Hn Hnum Hint Hrings Hheap Hthreads Hsig Hlife Hspin Hev Hsync Hclock Htime Hcalls Hlong].
  assert (∀ p, (p < n)%nat → capacity s0 p + Z.of_nat N <= UINT_MOD) as Hres.
  { intros p Hp. destruct (lookup_lt_is_Some_2 (pools s0) p) as [v Hv]; [done|].
    unfold capacity. rewrite Hv. cbn. by apply (ready_pool p v). }
  exists ghosts. split; [apply ready_inv|]. split.
  { unfold threads. cbn. by rewrite length_ghosts, length_app, length_imap, length_fmap, length_seqZ, Nat2Z.id. }
  unfold threads, ghosts. cbn. intros i p ℓ Hp Hℓ.
  destruct (decide (i < N)%nat) as [Hlt|Hge].
  - rewrite lookup_app_l in Hp by (by rewrite length_imap).
    rewrite lookup_app_l in Hℓ by (by rewrite length_fmap).
    rewrite list_lookup_imap in Hp. rewrite list_lookup_fmap in Hℓ.
    destruct (clients !! i) as [ops|] eqn:Hops; [|done]. injection Hp as <-. injection Hℓ as <-.
    eapply tracks_mono; [eapply tracks_client|]; try done.
    + by apply (proj1 (Forall_lookup _ _) Hcalls i).
    + intros [] ℓ' Hidle. left. split; [done|]. split_and!; apply Hidle.
  - rewrite lookup_app_r in Hp by (rewrite length_imap; lia).
    rewrite lookup_app_r in Hℓ by (rewrite length_fmap; lia).
    rewrite length_imap in Hp. rewrite length_fmap in Hℓ.
    rewrite list_lookup_fmap in Hℓ. destruct (seq 0 n !! (i - N)%nat) as [q|] eqn:Hq; [|done].
    apply lookup_seq in Hq as [-> Hlt]. injection Hℓ as <-. rewrite list_lookup_fmap, lookup_seqZ_lt in Hp by lia.
    replace (0 + Z.of_nat (i - N)) with (Z.of_nat (i - N)) in Hp by lia.
    injection Hp as <-. eapply tracks_mono; [eapply (tracks_pool_thread) with (p := (i - N)%nat)|]; try done.
    all: try lia.
    + by apply ready_T.
    + intros [] ℓ' Hq. right. exists (i - N)%nat. split_and!; [lia|lia|done].
Qed.

(** Everything that is ever reached. *)
Lemma reached_tracked c : rtc sys_step (threads clock clients n, s0) c → tracked Inv (may N n) False ended c.
Proof. intros Hc. eapply tracked_steps; [apply ready_tracked|done]. Qed.

Lemma reached_queues ps s :
  rtc sys_step (threads clock clients n, s0) (ps, s) →
  ∃ qs tks vs hd, queues_inv N n (capacity s0) (index_of s0) s qs tks vs hd.
Proof.
  intros (ls & Hs & _)%reached_tracked. destruct (inv_queues _ _ _ _ _ _ _ _ Hs) as (vs & hd & Hq). eauto.
Qed.

(** The queue of pool [p], its worker and its history. *)
Lemma reached_pool ps s p pool :
  rtc sys_step (threads clock clients n, s0) (ps, s) → pools s !! p = Some pool →
  ∃ v q tk, wring (capacity s0 p) (index_of s0 p) v ∧ tp_size pool = tp_size v ∧
    tp_size v <= capacity s0 p + Z.of_nat N - 1 ∧
    worker_inv (capacity s0 p) (index_of s0 p) p v q tk (sy_events s).
Proof.
  intros (qs & tks & vs & hd & Hq)%reached_queues Hp.
  pose proof (qi_lengths _ _ _ _ _ _ _ _ _ Hq) as (Hl1 & Hl2 & Hl3 & Hl4).
  assert (p < n)%nat as Hlt by (rewrite <-Hl2; by eapply lookup_lt_Some).
  destruct (queues_lookup _ _ _ _ _ _ _ _ _ Hq p Hlt) as (v & pool' & Hv & Hp' & Hw & _ & Hsz & _).
  rewrite Hp in Hp'. injection Hp' as <-.
  destruct (lookup_lt_is_Some_2 qs (N + p)) as [q Hqq]; [lia|].
  destruct (lookup_lt_is_Some_2 tks (N + p)) as [tk Htk]; [lia|].
  exists v, q, tk. split_and!; try done.
  - pose proof (qi_room _ _ _ _ _ _ _ _ _ Hq p v Hv). unfold inflights in *. lia.
  - by apply (proj2 (qi_thread _ _ _ _ _ _ _ _ _ Hq _ q tk Hqq Htk) p eq_refl).
Qed.
End start.
End safe.

(** Reached by some interleaving of the clients and the pool threads. *)
Definition reaches (clock : Z → bool) (clients : list (list client_op)) (s0 : sys)
    (ps : list (proc sys ())) (s : sys) : Prop :=
  rtc sys_step (threads clock clients (length (pools s0)), s0) (ps, s).

(** The flag and the priority of a pool are no part of its ring. *)
Lemma wring_q_of r idx v pool : wring r idx v → q_of pool = q_of v → wring r idx pool.
Proof.
  intros [Hr Hi Hpos Hl Hh Hs Ht Hg] Hq.
  assert (tp_reserved pool = tp_reserved v) as E1 by exact (f_equal tp_reserved Hq).
  assert (tp_index pool = tp_index v) as E2 by exact (f_equal tp_index Hq).
  assert (tp_packages pool = tp_packages v) as E3 by exact (f_equal tp_packages Hq).
  assert (tp_head pool = tp_head v) as E4 by exact (f_equal tp_head Hq).
  assert (tp_size pool = tp_size v) as E5 by exact (f_equal tp_size Hq).
  assert (tp_tail pool = tp_tail v) as E6 by exact (f_equal tp_tail Hq).
  split; rewrite ?E1, ?E2, ?E3, ?E4, ?E5, ?E6; done.
Qed.

Section theorems.
Context (clock : Z → bool) (T : Z) (clients : list (list client_op)) (s0 : sys).
Context (Hready : ready clock T clients s0) (ps : list (proc sys ())) (s : sys).
Context (Hreach : reaches clock clients s0 ps s).

(** C1: whatever the interleaving, the only calls of a started scheduler that are undefined are
    two misuses of its synchronisation objects.  No client and no pool thread ever makes an
    access outside the pools, a ring or the heap array, calls a null function, divides by a
    zero capacity, overflows a priority, reads the uninitialised [min_child_index] of
    [restoreDown], or signals or joins a null handle or a joined thread, be it a pool thread
    or the one that DONE is sent to; and no thread waits on the condition with a mutex that it
    does not hold.  What does happen is that a pool thread that goes idle unlocks the mutex of
    the scheduler, which it never locks, and that a submit initialises the initialised barrier
    again; only after such an unlock can a client, in a wait, unlock the mutex without holding
    it.  These calls act here as they do in glibc: the mutex is free, the barrier has the new
    count.  Any number of clients may submit, wait and stop, a single one may terminate the
    scheduler too.  This holds even after two clients have both passed the check for the last
    cell of a queue.  Accesses are sequentially consistent: that plain accesses of several
    threads are data races is not counted here. *)
Theorem system_safe :
  (∀ i th, ps !! i = Some th → ¬ faults th s) ∧
  ∀ m, m ∈ sn_misuse (sy_sync s) →
    m = BarrierAgain ∨ (∃ p, m = UnlockUnheld (Pool p)) ∨
    (∃ i, m = UnlockUnheld (Client i)) ∧ pool_unlocks (sy_sync s).
Proof.
  pose proof (reached_tracked _ _ _ _ Hready _ Hreach) as Hc. split.
  - intros i th Hp. by eapply (tracked_no_fault _ _ _ _ (ps, s) i th (λ H, H)).
  - destruct Hc as (ls & Hs & _). destruct (inv_mx _ _ _ _ _ _ _ _ Hs) as [_ _ _ Hw Hu _]. cbn [snd] in *.
    intros [[i|p]|w|] Hm; [right; right|right; left|by destruct (Hw w)|by left]; eauto.
Qed.

(** C10: the scheduler does not deadlock.  If no thread can move any more, the spin lock and the
    mutex are free, every client has returned from all its calls, and every pool thread either
    has ended or sleeps with neither CONTINUE nor SIGTERM pending; in particular no wait hangs
    in the lock of the mutex, and no termination in the join of a thread. *)
Theorem system_no_deadlock :
  (∀ c, ¬ sys_step (ps, s) c) →
  sy_spin s = false ∧ sn_mutex (sy_sync s) = None ∧
  ∀ i th, ps !! i = Some th → th = Ret () ∨
    ∃ p, i = (length clients + p)%nat ∧ sy_life s !! p = Some Alive ∧
      default false (at_index (sy_pending s) (Z.of_nat p)) = false ∧
      default false (at_index (sy_terms s) (Z.of_nat p)) = false.
Proof.
  intros Hstuck.
  destruct (reached_tracked _ _ _ _ Hready (ps, s) Hreach) as (ls & Hs & Hl & Hls). cbn [fst snd] in *.
  assert (∀ i p ℓ, ps !! i = Some p → ls !! i = Some ℓ →
    (p = Ret () ∧ ended clients s0 i ℓ) ∨ may (length clients) (length (pools s0)) i s ls) as Hall.
  { intros i p ℓ Hp Hℓ. destruct (tracks_stuck _ _ _ i p s ls ℓ _ (λ H, H) Hs Hℓ (Hls i p ℓ Hp Hℓ)) as [([] & -> & He)|]; auto.
    intros p' s' Hstep. apply (Hstuck (<[i := p']> ps, s')). exact (sys_thread _ _ _ _ _ _ Hp Hstep). }
  assert (∀ i ℓ, ls !! i = Some ℓ → ended clients s0 i ℓ ∨ may (length clients) (length (pools s0)) i s ls) as Hall'.
  { intros i ℓ Hi. destruct (lookup_lt_is_Some_2 ps i) as [p Hp]; [rewrite <-Hl; by eapply lookup_lt_Some|].
    destruct (Hall i p ℓ Hp Hi) as [[_ ?]|?]; auto. }
  assert (sy_spin s = false) as Hspin by by eapply stuck_unlocked.
  assert (sn_mutex (sy_sync s) = None) as Hmutex by by eapply stuck_mutex.
  split; [done|]. split; [done|]. intros i p Hp.
  destruct (lookup_lt_is_Some_2 ls i) as [ℓ Hℓ]; [rewrite Hl; by eapply lookup_lt_Some|].
  destruct (Hall i p ℓ Hp Hℓ) as [[-> _]|(ℓ' & Hℓ' & _ & [Hsp|[[w Hw]|[(x & Hx & Hst & Halive)|(q & -> & Hq & Hpend & Hterm)]]])];
    [by left|congruence|congruence| |].
  - rewrite Hℓ in Hℓ'. injection Hℓ' as <-. by destruct (stuck_joined _ _ _ s ls Hs Hall' i ℓ x Hℓ Hst Hx).
  - right. exists q. split_and!; [done| |done|done]. rewrite Hℓ in Hℓ'. injection Hℓ' as <-.
    assert (q < length (pools s0))%nat as Hlt.
    { destruct (inv_queues _ _ _ _ _ _ _ _ Hs) as (vs & hd & Hqs).
      pose proof (queues_thread_lt _ _ _ _ _ _ _ _ _ Hqs _ _ (ghost_lookup ls _ ℓ Hℓ g_q)). lia. }
    destruct (stuck_worker _ _ _ s ls Hs Hall' q ℓ Hℓ Hlt) as [[Hg _]|(_ & ? & _)]; [congruence|done].
Qed.

(** C22: the check for a full queue is outside the lock, so a queue can exceed its capacity; it
    does so by less than the number of clients, and never becomes negative. *)
Theorem system_sizes p pool :
  pools s !! p = Some pool →
  0 <= tp_size pool <= capacity s0 p + Z.of_nat (length clients) - 1.
Proof.
  intros Hp. destruct (reached_pool _ _ _ _ Hready _ _ _ _ Hreach Hp) as (v & q & tk & Hw & Hs & Hle & _).
  rewrite Hs. pose proof (wr_size _ _ _ Hw). lia.
Qed.

(** C21: the object keeps its shape.  The pools and the heap array keep their number, every cell
    of the heap points to a pool, and whenever the lock is free every ring is well formed:
    positions inside the ring, [tail] where [head] and [size] put it, and in each queued cell
    a task with a function that was stamped with the index of its pool. *)
Theorem system_wf :
  length (pools s) = length (pools s0) ∧
  length (ts_dheaps (sy_ts s)) = length (pools s0) ∧
  Forall (λ p, (p < length (pools s0))%nat) (ts_dheaps (sy_ts s)) ∧
  (sy_spin s = false → ∀ p pool, pools s !! p = Some pool →
     wring (capacity s0 p) (index_of s0 p) pool).
Proof.
  destruct (reached_tracked _ _ _ _ Hready (ps, s) Hreach) as (ls & Hs & _); cbn [fst snd] in Hs.
  destruct (inv_queues _ _ _ _ _ _ _ _ Hs) as (vs & hd & Hq).
  pose proof (qi_lengths _ _ _ _ _ _ _ _ _ Hq) as (Hl1 & Hl2 & _).
  destruct (inv_heap _ _ _ _ _ _ _ _ Hs) as (Hh1 & Hh2 & _).
  split_and!; try done. intros Hspin p pool Hp.
  rewrite (qi_spin _ _ _ _ _ _ _ _ _ Hq) in Hspin. destruct hd; [done|].
  destruct (lookup_lt_is_Some_2 vs p) as [v Hv]; [rewrite Hl1, <-Hl2; by eapply lookup_lt_Some|].
  apply (wring_q_of _ _ v); [by apply (qi_ring _ _ _ _ _ _ _ _ _ Hq)|].
  exact (qi_pool _ _ _ _ _ _ _ _ _ Hq p v pool Hv Hp).
Qed.

(** C11: for each pool, the tasks counted in its queue are those still in the queue and those
    its worker has taken; the worker has taken at most one task that has not returned yet. *)
Theorem system_conserves p pool :
  pools s !! p = Some pool →
  let es := sy_events s in
  let taken := Z.of_nat (length (queued (Z.of_nat p) es)) - tp_size pool in
  Z.of_nat (length (finished (Z.of_nat p) es)) <= Z.of_nat (length (started (Z.of_nat p) es)) <= taken ∧
  taken <= Z.of_nat (length (finished (Z.of_nat p) es)) + 1.
Proof.
  intros Hp. destruct (reached_pool _ _ _ _ Hready _ _ _ _ Hreach Hp) as (v & q & tk & Hw & -> & Hle & Hi).
  destruct Hi as [Hqd Hst Hfin _ _ _ _ _ _ _]. cbn zeta.
  assert (Nat.b2n (bool_decide (is_Some (cell_of q))) + Nat.b2n (bool_decide (is_Some (running q))) <= 1)%nat as H1 by (by destruct q; cbn; lia).
  lia.
Qed.

(** C3: while the queue of a pool has never been filled up, the functions its worker has called
    are those of the first tasks that were counted in it, each called once, in that order,
    with its own task, for any number of clients. *)
Theorem system_fifo p :
  (p < length (pools s0))%nat → roomy (Z.of_nat p) (capacity s0 p) (sy_events s) →
  let es := sy_events s in
  started (Z.of_nat p) es
  = call_of <$> take (length (started (Z.of_nat p) es)) (queued (Z.of_nat p) es).
Proof.
  intros Hp Hr. pose proof (reached_queues _ _ _ _ Hready _ _ Hreach) as (qs & tks & vs & hd & Hq).
  pose proof (qi_lengths _ _ _ _ _ _ _ _ _ Hq) as (Hl1 & Hl2 & _).
  destruct (lookup_lt_is_Some_2 (pools s) p) as [pool Hpool]; [lia|].
  destruct (reached_pool _ _ _ _ Hready _ _ _ _ Hreach Hpool) as (v & q & tk & _ & _ & _ & Hi).
  destruct (wi_once _ _ _ _ _ _ _ Hi Hr) as (pre & Hst & Htk). cbn zeta.
  rewrite Hst at 1 2. rewrite length_fmap, (wi_fifo _ _ _ _ _ _ _ Hi (wi_roomy _ _ _ _ _ _ _ Hi Hr)), Htk.
  by rewrite <-!app_assoc, take_app_length.
Qed.

(** C5: a task keeps its package while it runs: as long as the queue of a pool has never been
    filled up, the cell that was handed to a task which has not returned yet, the one before
    [head], still holds the task, whatever the clients enqueue meanwhile. *)
Theorem task_keeps_package p pool :
  pools s !! p = Some pool → roomy (Z.of_nat p) (capacity s0 p) (sy_events s) →
  (length (finished (Z.of_nat p) (sy_events s)) < length (started (Z.of_nat p) (sy_events s)))%nat →
  ∃ c x, last (started (Z.of_nat p) (sy_events s)) = Some (c, x) ∧
    at_index (tp_packages pool) ((tp_head pool - 1) mod tp_reserved pool) = Some x.
Proof.
  intros Hpool Hroomy Hlt.
  pose proof (reached_queues _ _ _ _ Hready _ _ Hreach) as (qs & tks & vs & hd & Hq).
  pose proof (qi_lengths _ _ _ _ _ _ _ _ _ Hq) as (Hl1 & Hl2 & Hl3 & Hl4).
  assert (p < length (pools s0))%nat as Hp by (rewrite <-Hl2; by eapply lookup_lt_Some).
  destruct (queues_lookup _ _ _ _ _ _ _ _ _ Hq p Hp) as (v & pool' & Hv & Hp' & Hw & Hqo & _ & Hrs & _).
  rewrite Hpool in Hp'. injection Hp' as <-.
  destruct (lookup_lt_is_Some_2 qs (length clients + p)) as [q Hqq]; [lia|].
  destruct (lookup_lt_is_Some_2 tks (length clients + p)) as [tk Htk]; [lia|].
  pose proof (proj2 (proj2 (qi_thread _ _ _ _ _ _ _ _ _ Hq _ q tk Hqq Htk) p eq_refl) v Hv) as Hwi.
  pose proof (wi_finished _ _ _ _ _ _ _ Hwi) as Hfin. destruct (running q) as [h|] eqn:Hrun; cbn in Hfin; [|lia].
  destruct (wi_run _ _ _ _ _ _ _ Hwi Hroomy h Hrun) as (c & x & Hlast & Hx). exists c, x. split; [done|].
  destruct (worker_pc_cell _ _ v q h (wi_pc _ _ _ _ _ _ _ Hwi) (or_intror Hrun)) as [[Hh _] Hhead].
  assert (holds q = false) as Hout by by destruct q.
  destruct (queues_cell _ _ _ _ _ _ _ _ _ _ _ _ _ _ _ _ Hq eq_refl Hqq Htk Hout (or_intror Hrun) Hv Hpool)
    as (y & Hy & _ & Hvy).
  rewrite (Hvy Hroomy) in Hx. injection Hx as <-.
  assert (tp_head pool = tp_head v) as ->.
  { enough (∀ q', hd = Some q' → tp_head (edit q' p v) = tp_head v) as He.
    { apply (f_equal tp_head) in Hqo. cbn in Hqo. rewrite Hqo. destruct hd; [by apply He|done]. }
    intros q' ->. destruct q' as [| | | | | | | |p' h'| | | | | | |]; cbn; try done; case_decide as Hpp; try done. subst p'.
    exfalso. eapply queues_writer; [exact Hq|exact Hqq|exact Hrun]. }
  rewrite Hhead, Hrs, Zminus_mod_idemp_l. replace (h + 1 - 1) with h by lia. by rewrite Z.mod_small.
Qed.
End theorems.

Section one_client.
Context (clock : Z → bool) (T : Z) (ops : list client_op) (s0 : sys).
Context (Hready : ready clock T [ops] s0) (ps : list (proc sys ())) (s : sys).
Context (Hreach : reaches clock [ops] s0 ps s).

(** C14: with one client, [schWaitTask] does what it promises of the queues: once it has
    returned, and until the next task is submitted, every queue is empty. *)
Theorem one_client_waited p pool :
  waited (sy_events s) = true → pools s !! p = Some pool → tp_size pool = 0.
Proof.
  intros Hw Hp. destruct (reached_tracked _ _ _ _ Hready (ps, s) Hreach) as (ls & Hs & _); cbn [fst snd] in Hs.
  apply (proj2 (inv_wait _ _ _ _ _ _ _ _ Hs eq_refl) Hw p).
  unfold sizes. by rewrite list_lookup_fmap, Hp.
Qed.

(** What is left of a terminated scheduler. *)
Lemma terminated_state :
  terminated (sy_events s) →
  up s = false ∧ length (pools s) = length (pools s0) ∧ ts_num (sy_ts s) = Z.of_nat (length (pools s)) ∧
  ∀ p pool, pools s !! p = Some pool →
    tp_thread pool = NULL ∧ tp_schRefThread pool = NULL ∧ tp_size pool = 0 ∧ sy_life s !! p = Some Joined.
Proof.
  intros Hend. destruct (reached_tracked _ _ _ _ Hready (ps, s) Hreach) as (ls & Hs & _); cbn [fst snd] in Hs.
  pose proof (inv_life _ _ _ _ _ _ _ _ Hs) as Hl. destruct (li_end _ _ _ _ _ Hl Hend) as (Hup & Hstop & Hwiped & Hwait).
  destruct (inv_queues _ _ _ _ _ _ _ _ Hs) as (vs & hd & Hq).
  destruct (qi_lengths _ _ _ _ _ _ _ _ _ Hq) as (_ & Hl2 & _).
  split; [done|]. split; [done|]. split; [by rewrite (inv_num _ _ _ _ _ _ _ _ Hs), Hl2|].
  intros p pool Hp. assert (p < length (pools s0))%nat as Hlt by (rewrite <-Hl2; by eapply lookup_lt_Some).
  assert (handles s !! p = Some (tp_thread pool)) as Hh by (unfold handles; by rewrite list_lookup_fmap, Hp).
  pose proof (Hstop p _ Hlt Hh) as Hn. rewrite Hn in Hh. split_and!; [done| | |by apply (li_null _ _ _ _ _ Hl)].
  - apply (Hwiped p). unfold refs. by rewrite list_lookup_fmap, Hp.
  - apply (proj2 (inv_wait _ _ _ _ _ _ _ _ Hs eq_refl) Hwait p). unfold sizes. by rewrite list_lookup_fmap, Hp.
Qed.

(** What became of its tasks. *)
Lemma terminated_tasks p :
  terminated (sy_events s) → (p < length (pools s0))%nat →
  let es := sy_events s in
  length (finished (Z.of_nat p) es) = length (queued (Z.of_nat p) es) ∧
  (roomy (Z.of_nat p) (capacity s0 p) es → started (Z.of_nat p) es = call_of <$> queued (Z.of_nat p) es).
Proof.
  intros Hend Hlt. destruct (terminated_state Hend) as (_ & _ & _ & Hpools).
  destruct (reached_tracked _ _ _ _ Hready (ps, s) Hreach) as (ls & Hs & _); cbn [fst snd] in Hs.
  pose proof (inv_life _ _ _ _ _ _ _ _ Hs) as Hl.
  destruct (inv_queues _ _ _ _ _ _ _ _ Hs) as (vs & hd & Hq).
  destruct (qi_lengths _ _ _ _ _ _ _ _ _ Hq) as (_ & _ & Hl3 & _).
  destruct (queues_lookup _ _ _ _ _ _ _ _ _ Hq p Hlt) as (v & pool & Hv & Hp & _ & _ & Hsv & _).
  destruct (Hpools p pool Hp) as (_ & _ & Hsz & Hj). rewrite Hsz in Hsv.
  destruct (lookup_lt_is_Some_2 ls (1 + p)) as [ℓ Hℓ]; [rewrite length_fmap in Hl3; cbn in Hl3; lia|].
  pose proof (proj2 (proj2 (qi_thread _ _ _ _ _ _ _ _ _ Hq _ _ _ (ghost_lookup ls _ ℓ Hℓ g_q)
    (ghost_lookup ls _ ℓ Hℓ g_taken)) p eq_refl) v Hv) as Hwi.
  assert (left_of (g_q ℓ) = PGone) as Hleft.
  { destruct (decide (left_of (g_q ℓ) = PGone)) as [|Hne]; [done|].
    apply (li_alive _ _ _ _ _ Hl p _ (left_lookup ls _ ℓ Hℓ) Hlt) in Hne. congruence. }
  destruct (g_q ℓ); try discriminate Hleft.
  destruct Hwi as [Hqd Hst Hfin _ Hrf _ Hfifo Honce _ _]. cbn in Hst, Hfin. cbn zeta. split; [lia|].
  intros Hr. destruct (Honce Hr) as (pre & Hst' & Htk). cbn in Htk. rewrite app_nil_r in Htk.
  rewrite Hst', (Hfifo (Hrf Hr)), Htk. unfold ring_contents. by rewrite <-Hsv, app_nil_r.
Qed.

Lemma terminated_joined : terminated (sy_events s) → Forall (λ t, t = Joined) (sy_life s).
Proof.
  intros Hend. destruct (terminated_state Hend) as (_ & Hl2 & _ & Hpools).
  destruct (reached_tracked _ _ _ _ Hready (ps, s) Hreach) as (ls & Hs & _); cbn [fst snd] in Hs.
  destruct (li_lengths _ _ _ _ _ (inv_life _ _ _ _ _ _ _ _ Hs)) as (_ & _ & _ & Hll).
  apply Forall_lookup. intros p t Ht.
  destruct (lookup_lt_is_Some_2 (pools s) p) as [pool Hpool]; [rewrite Hl2, <-Hll; by eapply lookup_lt_Some|].
  destruct (Hpools p pool Hpool) as (_ & _ & _ & Hj). congruence.
Qed.

(** C4: with one client, [schTerminateTaskSch] runs every task and stops every pool: once it
    has, every thread has returned and was joined, its handle and the handle of the thread it
    told are null; RUNNING is clear and every queue empty; the tasks counted in a queue have
    all been called and have all returned, and, if the queue has never been filled up, they
    were called in the order of the submits, each with its own task. *)
Theorem terminate_runs_all :
  terminated (sy_events s) →
  up s = false ∧ Forall (λ t, t = Joined) (sy_life s) ∧
  ∀ p pool, pools s !! p = Some pool →
    tp_thread pool = NULL ∧ tp_schRefThread pool = NULL ∧ tp_size pool = 0 ∧
    let es := sy_events s in
    length (finished (Z.of_nat p) es) = length (queued (Z.of_nat p) es) ∧
    (roomy (Z.of_nat p) (capacity s0 p) es → started (Z.of_nat p) es = call_of <$> queued (Z.of_nat p) es).
Proof.
  intros Hend. destruct (terminated_state Hend) as (Hup & Hl2 & _ & Hpools).
  split; [done|]. split; [by apply terminated_joined|]. intros p pool Hp.
  destruct (Hpools p pool Hp) as (Hth & Href & Hsz & _). split_and!; [done..|].
  apply terminated_tasks; [done|]. rewrite <-Hl2. by eapply lookup_lt_Some.
Qed.

(** C19: with one client, no pool is ever lost from the heap: at every moment at most one cell
    of [dheap] has yet to be written for it to hold every pool once, and it does hold every
    pool once when the client has ended. *)
Theorem one_client_heap :
  (∃ m a, <[m := a]> (ts_dheaps (sy_ts s)) ≡ₚ seq 0 (length (pools s0))) ∧
  (ps !! 0%nat = Some (Ret ()) → ts_dheaps (sy_ts s) ≡ₚ seq 0 (length (pools s0))).
Proof.
  destruct (reached_tracked _ _ _ _ Hready _ Hreach) as (ls & Hs & Hl & Hls). cbn [fst snd] in *.
  destruct (inv_heap _ _ _ _ _ _ _ _ Hs) as (Hh1 & Hh2 & Hh).
  destruct (inv_queues _ _ _ _ _ _ _ _ Hs) as (vs & hd & Hq).
  pose proof (qi_lengths _ _ _ _ _ _ _ _ _ Hq) as (_ & _ & Hlen & _). rewrite length_fmap in Hlen.
  destruct (lookup_lt_is_Some_2 ls 0) as [ℓ Hℓ]; [rewrite Hlen; cbn; lia|].
  assert (heap_pc (length (pools s0)) (ts_dheaps (sy_ts s)) (g_heap ℓ)) as Hpc.
  { apply Hh; [done|]. by rewrite list_lookup_fmap, Hℓ. }
  split.
  - assert (quiet (g_heap ℓ) ∨ ∃ m a, g_heap ℓ = HSwap m a) as [Hquiet|(m & a & Hg)].
    { destruct (g_heap ℓ); cbn; eauto. }
    + exists (length (ts_dheaps (sy_ts s))), 0%nat. rewrite list_insert_ge by lia. by eapply heap_quiet, Hpc.
    + exists m, a. by rewrite Hg in Hpc.
  - intros Hp. eapply heap_quiet; [|done].
    destruct (Hls 0%nat _ ℓ Hp Hℓ) as [(_ & _ & Hquiet & _)|(p & Hi & _)]; [done|cbn in Hi; lia].
Qed.
End one_client.
