(* ===== verification/SystemBounds.v ===== *)
(** * A submit ends, whatever the others do

    Heap, sizes and priorities may change between any two accesses of a submit.  The loop
    [while (1)] of [restoreDown] ends all the same, since [index] only grows; so a call of
    [schSubmitTask] makes a bounded number of steps. *)
From S2P Require Import Prelude Errors Flags Structures Heapify TaskQueue Platform Executor Threads.
From S2P Require Import System ExecutorFacts Concurrency SystemQueue SystemInv SystemLife SystemTracks SystemCalls SystemSafe.

(** The steps of a turn of [restoreDown], of a [schHeapify], of a [schSubmitTask] with [n] pools. *)
Definition turn_steps : nat := 23.
Definition heapify_steps (n : nat) : nat := S (n * (n * turn_steps)).
Definition submit_steps (n : nat) : nat := heapify_steps n + 25.

Section bounds.
Context (n : nat) (n_pos : (0 < n)%nat) (n_int : SCH_HEAP_BREATH * Z.of_nat n <= INT_MAX).

(** The number of pools does not change, and nobody waits on the condition. *)
Definition pools_fixed (s : sys) : Prop := ts_num (sy_ts s) = Z.of_nat n ∧ sn_waiters (sy_sync s) = 0%nat.
#[local] Abbreviation costs := (costs pools_fixed).
Implicit Types (k r : nat).

Lemma costs_heap_key j k r (Q : Z → nat → Prop) :
  (2 + r <= k)%nat → (∀ z m, (r <= m)%nat → Q z m) → costs (heap_key_at j) k Q.
Proof.
  intros Hk HQ. apply costs_bind, (costs_act _ (S r)); [lia|]. intros p m Hm.
  apply (costs_act _ r); [lia|done].
Qed.

(** The child that is found is one of those looked at. *)
Lemma costs_min_child child mc mi k r (Q : Z * option Z → nat → Prop) :
  (4 * length child + r <= k)%nat →
  (∀ mc' mi' m, (r <= m)%nat → mi' = mi ∨ (∃ c, mi' = Some c ∧ c ∈ child ∧ c ≠ -1) → Q (mc', mi') m) →
  costs (min_child_at child mc mi) k Q.
Proof.
  revert mc mi k. induction child as [|c child IH]; intros mc mi k Hk HQ; cbn [min_child_at length] in *.
  { apply HQ; [lia|auto]. }
  assert (∀ mc' mi' m, (r <= m)%nat → mi' = mi ∨ (∃ c, mi' = Some c ∧ c ∈ child ∧ c ≠ -1) → Q (mc', mi') m) as HQ'.
  { intros mc' mi' m Hm [->|(c' & -> & Hc' & Hne)]; apply HQ; [done|auto|done|].
    right. exists c'. split; [done|]. split; [by right|done]. }
  destruct (decide (c ≠ -1)) as [Hne|]; [|apply IH; [lia|done]].
  apply costs_bind, (costs_heap_key _ _ (2 + (4 * length child + r))); [lia|]. intros key m Hm.
  destruct (key <? mc); [|apply IH; [lia|done]].
  apply costs_bind, (costs_heap_key _ _ (4 * length child + r)); [lia|]. intros key' m' Hm'.
  apply IH; [lia|]. intros mc' mi' m'' Hm'' [->|(c' & -> & Hc' & Hne')]; apply HQ; [done| |done|].
  - right. exists c. split; [done|]. split; [by left|done].
  - right. exists c'. split; [done|]. split; [by right|done].
Qed.

(** A turn goes to a larger index, or stops. *)
Lemma costs_restore_turn index k r (Q : turn Z → nat → Prop) :
  0 <= index < Z.of_nat n → (22 + r <= k)%nat →
  (∀ m, (r <= m)%nat → Q (Stop 0) m) →
  (∀ c m, (r <= m)%nat → index < c < Z.of_nat n → Q (Again c) m) →
  costs (restore_turn (Z.of_nat n) SCH_HEAP_BREATH index) k Q.
Proof.
  intros Hix Hk HQ1 HQ2. unfold restore_turn, SCH_HEAP_BREATH in *.
  apply costs_bind. eapply costs_done; [apply fill_children_spec; lia|].
  apply costs_bind, (costs_min_child _ _ _ _ (6 + r)); [rewrite length_fmap, length_seqZ; lia|].
  intros mc mi m Hm Hmi. destruct (mc =? LONG_MAX); [apply HQ1; lia|].
  apply costs_bind, costs_local. intros c Hc%deref_Done.
  destruct Hmi as [->|(c' & -> & Hin & Hne)]; [done|]. injection Hc as ->.
  apply elem_of_children in Hin as [Hch Hcn]; [|lia..|done].
  assert (index < c) as Hlt by (apply (is_child_lt 4); [lia..|done]).
  apply costs_bind, (costs_act _ (5 + r)); [lia|]. intros a m1 Hm1.
  apply costs_bind, (costs_act _ (4 + r)); [lia|]. intros b m2 Hm2.
  apply costs_bind, (costs_act _ (3 + r)); [lia|]. intros ka m3 Hm3.
  apply costs_bind, (costs_act _ (2 + r)); [lia|]. intros kb m4 Hm4.
  apply costs_bind. destruct (kb <? ka); [|apply HQ2; lia].
  apply costs_bind, (costs_act _ (1 + r)); [lia|]. intros ? m5 Hm5.
  apply (costs_act _ r); [lia|]. intros ? m6 Hm6. apply HQ2; lia.
Qed.

Lemma costs_restore_down index k r (Q : Z → nat → Prop) :
  0 <= index < Z.of_nat n → (n * turn_steps + r <= k)%nat → (∀ z m, (r <= m)%nat → Q z m) →
  costs (restore_down (Z.of_nat n) index SCH_HEAP_BREATH) k Q.
Proof.
  intros Hix Hk HQ. unfold turn_steps in *.
  apply (costs_iter _ (λ y m, 0 <= y < Z.of_nat n ∧ ((n - Z.to_nat y) * 23 + r <= m)%nat)); [lia|].
  intros y m [Hy Hm]. split; [lia|].
  apply (costs_restore_turn _ _ ((n - Z.to_nat y - 1) * 23 + r)); [done|lia| |].
  - intros m' Hm'. apply HQ. lia.
  - intros c m' Hm' Hc. split; [lia|]. nia.
Qed.

Lemma costs_heapify_from idxs k r (Q : () → nat → Prop) :
  (∀ i, i ∈ idxs → 0 <= i < Z.of_nat n) → (length idxs * (n * turn_steps) + r <= k)%nat →
  (∀ m, (r <= m)%nat → Q () m) → costs (heapify_from (Z.of_nat n) idxs) k Q.
Proof.
  revert k. induction idxs as [|i idxs IH]; intros k Hin Hk HQ; cbn [heapify_from length] in *; [apply HQ; lia|].
  apply costs_bind, (costs_restore_down _ _ (length idxs * (n * turn_steps) + r)); [apply Hin; by left|lia|].
  intros z m Hm. apply IH; [|done|done]. intros j Hj. apply Hin. by right.
Qed.

Lemma costs_heapify k r (Q : () → nat → Prop) :
  (heapify_steps n + r <= k)%nat → (∀ m, (r <= m)%nat → Q () m) → costs heapify_all k Q.
Proof.
  intros Hk HQ. unfold heapify_steps, heapify_all in *.
  apply costs_bind, (costs_read _ (n * (n * turn_steps) + r)); [lia|].
  intros s z s' m [Hs _] [= <- <-] Hm. rewrite Hs. unfold SCH_HEAP_BREATH in *.
  rewrite s32_small by (unfold INT_MIN, INT_MAX in *; lia).
  apply costs_bind, costs_local. intros n1 Hn1%checked_Done. destruct Hn1 as [_ ->].
  rewrite Z.quot_div_nonneg by lia.
  assert (0 <= (Z.of_nat n - 1) / 4 <= Z.of_nat n - 1) as Hd by (split; [apply Z.div_pos|apply Z.div_le_upper_bound]; lia).
  apply (costs_heapify_from _ _ r); [| |done].
  - intros i. unfold heapify_indices. rewrite elem_of_reverse, elem_of_seqZ. lia.
  - unfold heapify_indices. rewrite length_reverse, length_seqZ. nia.
Qed.

(** Straight-line code: one access after the other. *)
Ltac spend :=
  repeat (cbn beta iota; lazymatch goal with
  | |- ∀ _, _ => intro
  | |- Threads.costs _ (_ ≫= _) _ _ => apply costs_bind
  | |- Threads.costs _ (mret _) _ _ => cbn [Threads.costs mret proc_mret]
  | |- Threads.costs _ (local _) _ _ => apply costs_local
  | |- Threads.costs _ (match ?x with _ => _ end) _ _ => destruct x
  | |- Threads.costs _ _ _ _ => apply costs_next; [lia|]
  end).

Lemma costs_submit_pool p pkg k (Q : Z → nat → Prop) :
  (20 <= k)%nat → (∀ z m, (k <= m + 20)%nat → Q z m) → costs (submit_pool p pkg) k Q.
Proof. intros Hk HQ. unfold submit_pool, enqueue. spend; apply HQ; lia. Qed.

Lemma costs_submit pkg pPool k r (Q : Z → nat → Prop) :
  (submit_steps n + r <= k)%nat → (∀ z m, (r <= m)%nat → Q z m) → costs (submit pkg pPool) k Q.
Proof.
  intros Hk HQ. unfold submit_steps, submit in *.
  apply costs_bind, costs_next; [lia|]. intros f1. destruct (negb _); [apply HQ; lia|].
  apply costs_bind, costs_next; [lia|]. intros f2. destruct (negb _); [apply HQ; lia|].
  case_decide; [apply HQ; lia|].
  apply costs_bind, (costs_heapify _ (21 + r)); [lia|]. intros m Hm. apply costs_bind.
  assert (∀ p m, (20 + r <= m)%nat → costs (submit_pool p pkg) m Q) as Hpool.
  { intros p m' Hm'. apply costs_submit_pool; [lia|]. intros z m'' ?. apply HQ. lia. }
  destruct pPool as [p|].
  - apply Hpool. lia.
  - apply costs_next; [lia|]. intros p. apply Hpool. lia.
Qed.

Lemma costs_stop k r (Q : Z → nat → Prop) :
  (submit_steps n + r <= k)%nat → (∀ z m, (r <= m)%nat → Q z m) → costs stop_all k Q.
Proof.
  intros Hk HQ. unfold stop_all, submit_steps, heapify_steps, turn_steps in *.
  assert (4 * n <= n * (n * 23))%nat as Hn by nia.
  apply costs_bind, (costs_act _ (4 * n + 5 + r)); [lia|]. intros f1 m1 H1. destruct (negb _); [apply HQ; lia|].
  apply costs_bind, (costs_act _ (4 * n + 4 + r)); [lia|]. intros f2 m2 H2. destruct (negb _); [apply HQ; lia|].
  apply (costs_iter _ (λ y m, 0 <= y <= Z.of_nat n ∧ (4 * (n - Z.to_nat y) + 4 + r <= m)%nat)); [lia|].
  clear k Hk m1 m2 H1 H2. intros y k [Hy Hk]. split; [lia|]. unfold stop_turn.
  apply costs_bind, (costs_read _ (4 * (n - Z.to_nat y) + 2 + r)); [lia|].
  intros s z s' m [Hs _] [= <- <-] Hm. rewrite Hs. case_decide; [apply HQ; lia|].
  apply costs_bind, (costs_act _ (4 * (n - Z.to_nat y) + 1 + r)); [lia|]. intros h m1 H1.
  apply costs_bind, (costs_act _ (4 * (n - Z.to_nat y) + r)); [lia|]. intros st m2 H2.
  case_decide; [apply HQ; lia|]. split; [lia|]. lia.
Qed.

(** A client that waits for nobody: it only submits and stops. *)
Definition only_submits (ops : list client_op) : Prop := Forall (λ op, op ≠ CWait ∧ op ≠ CTerminate) ops.

Lemma costs_client w ops k :
  only_submits ops → (length ops * submit_steps n <= k)%nat → costs (client w ops) k (λ _ _, True).
Proof.
  intros Hops. revert k. induction Hops as [|op ops Hop _ IH]; intros k Hk; cbn [client length] in *; [done|].
  apply costs_bind. destruct op as [pkg pPool| | |]; [|by destruct Hop| |by destruct Hop]; cbn [client_call].
  - apply (costs_submit _ _ _ (length ops * submit_steps n)); [lia|]. intros z m Hm. by apply IH.
  - apply (costs_stop _ (length ops * submit_steps n)); [lia|]. intros z m Hm. by apply IH.
Qed.
End bounds.

Lemma reached_fixed clock T clients s0 c :
  ready clock T clients s0 → rtc sys_step (threads clock clients (length (pools s0)), s0) c →
  pools_fixed (length (pools s0)) c.2.
Proof.
  intros Hready Hc. destruct (reached_tracked _ _ _ _ Hready _ Hc) as (ls & Hs & _).
  split; [apply Hs|exact (mx_waiters _ _ _ (inv_mx _ _ _ _ _ _ _ _ Hs))].
Qed.

(** C13: a call of [schSubmitTask] ends however the other threads interfere: in every run, a
    client that only submits and stops makes at most a fixed number of steps per call, which depends
    on the number of pools alone (a thread that waits for the lock makes no step).  In
    particular the [while (1)] of [restoreDown] ends although other threads change the heap
    and the priorities under it. *)
Theorem submit_bounded clock T clients s0 i ops l ps s :
  ready clock T clients s0 → clients !! i = Some ops → only_submits ops →
  sys_run (threads clock clients (length (pools s0)), s0) l (ps, s) →
  (length (filter (λ j, j = i) l) <= length ops * submit_steps (length (pools s0)))%nat.
Proof.
  intros Hready Hi Hops Hrun.
  eapply (costs_run (pools_fixed (length (pools s0))) _ _ _ _ (client (Client i) ops)); [exact Hrun| | |].
  - intros c Hc. by eapply reached_fixed.
  - cbn. unfold threads. rewrite lookup_app_l, list_lookup_imap, Hi; [done|].
    rewrite length_imap. by eapply lookup_lt_Some.
  - apply costs_client; [apply Hready..|done|done].
Qed.
