(* ===== verification/SystemEnds.v ===== *)
(** * A scheduler that is only submitted to comes to rest

    A pool thread may run for ever, but not by itself: each task it runs was submitted, and
    each time it wakes up a signal was sent.  With clients that submit and stop but do not
    wait, every run of clients and pool threads is finite, with a bound that the calls and the
    number of pools give. *)
From S2P Require Import Prelude Errors Flags Structures Heapify TaskQueue Platform Executor Threads Potential.
From S2P Require Import System ExecutorFacts Concurrency SystemQueue SystemInv SystemLife SystemTracks SystemCalls SystemSafe SystemBounds.

(** What a task that is counted, or a CONTINUE that is sent, pays to the thread that takes it;
    it is enough for a turn of the main loop. *)
Definition worth : Z := 40.

(** ** The potential *)

Section potential.
Context (n : nat).
Implicit Types (es : list event) (s : sys).

(** The sum of a count over the pools. *)
Definition over (g : Z → list event → nat) es : nat := sum_list_with (λ p, g (Z.of_nat p) es) (seq 0 n).
Definition tasks es : nat := over (λ p es, length (queued p es)) es.
Definition done_tasks es : nat := over (λ p es, length (finished p es)) es.
Definition signals s : nat := sum_list_with Nat.b2n (sy_pending s).

Definition potential s : Z :=
  worth * (Z.of_nat (tasks (sy_events s)) - Z.of_nat (done_tasks (sy_events s))) + worth * Z.of_nat (signals s).

Lemma over_same g es es' : (∀ p, g p es' = g p es) → over g es' = over g es.
Proof. intros Hg. unfold over. induction (seq 0 n) as [|p l IH]; cbn; [done|]. by rewrite Hg, IH. Qed.

Lemma over_one g es es' q :
  (∀ p, g p es' = (g p es + if decide (p = q) then 1 else 0)%nat) →
  over g es' = (over g es + if decide (0 <= q < Z.of_nat n)%Z then 1 else 0)%nat.
Proof.
  intros Hg. unfold over. induction n as [|m IH]; [cbn; by rewrite decide_False by lia|].
  rewrite seq_S, !sum_list_with_app, IH. cbn. rewrite Hg.
  destruct (decide (Z.of_nat m = q)), (decide (0 <= q < Z.of_nat m)), (decide (0 <= q < Z.of_nat (S m))); lia.
Qed.

Lemma potential_events s s' :
  (∀ p, length (queued p (sy_events s')) = length (queued p (sy_events s))) →
  (∀ p, length (finished p (sy_events s')) = length (finished p (sy_events s))) →
  sy_pending s' = sy_pending s → potential s' = potential s.
Proof.
  intros Hq Hf Hp. unfold potential, tasks, done_tasks, signals. rewrite Hp.
  by rewrite (over_same _ _ _ Hq), (over_same _ _ _ Hf).
Qed.

Lemma potential_same s s' :
  sy_events s' = sy_events s → sy_pending s' = sy_pending s → potential s' = potential s.
Proof. intros He Hp. apply potential_events; [intros p; by rewrite He..|done]. Qed.

Lemma potential_nonneg s :
  (∀ p, (p < n)%nat → (length (finished (Z.of_nat p) (sy_events s)) <= length (queued (Z.of_nat p) (sy_events s)))%nat) →
  0 <= potential s.
Proof.
  intros Hle. enough (done_tasks (sy_events s) <= tasks (sy_events s))%nat by (unfold potential, worth; lia).
  unfold done_tasks, tasks, over. assert (∀ p, p ∈ seq 0 n → (p < n)%nat) as Hlt by (intros p Hp%elem_of_seq; lia).
  induction (seq 0 n) as [|p l IH]; cbn; [done|].
  pose proof (Hle p (Hlt p (list_elem_of_here _ _))). enough
    (sum_list_with (λ p, length (finished (Z.of_nat p) (sy_events s))) l
     <= sum_list_with (λ p, length (queued (Z.of_nat p) (sy_events s))) l)%nat by lia.
  apply IH. intros q Hq. apply Hlt. by right.
Qed.

(** ** What the accesses do to it *)

#[local] Abbreviation still := (still potential).
#[local] Abbreviation stills := (stills potential).

Lemma still_read f : still (read_or_fault f).
Proof. intros s z s'. unfold read_or_fault. destruct (f _); [|done]. by intros [= <- <-]. Qed.

Lemma still_write f : still (write_or_fault f).
Proof. intros s z s'. unfold write_or_fault. destruct (f _); [|done..]. by intros [= <- <-]. Qed.

(** An event that neither counts a task nor ends one. *)
Lemma potential_event s s' e :
  sy_events s' = sy_events s ++ [e] → sy_pending s' = sy_pending s →
  (∀ p x size, e ≠ Queued p x size) → (∀ p, e ≠ Finished p) → potential s' = potential s.
Proof.
  intros He Hp Hq Hf. apply potential_events; [..|done]; intros p; rewrite He.
  - rewrite queued_app, length_app. destruct e; cbn; try lia. by destruct (Hq p0 x size).
  - rewrite finished_app, length_app. destruct e; cbn; try lia. by destruct (Hf p0).
Qed.

Lemma still_store p tail x :
  still (λ s, match pool ← at_index (ts_pools (sy_ts s)) p; _ ← at_index (tp_packages pool) tail; Some pool with
    | None => Faults
    | Some pool =>
        Goes 0 (s <| sy_ts ::= λ ts, ts <| ts_pools ::= <[Z.to_nat p := write_cell tail x pool]> |> |>
                  <| sy_events ::= λ es, es ++ [Stored p (tp_size pool + 1)] |>)
    end).
Proof. intros s z s'. destruct (_ ≫= _); [|done]. intros [= <- <-]. by eapply potential_event. Qed.

Lemma still_called e p f :
  e = Prepared p f ∨ e = Cleaned p f → still (λ s, Goes 0 (s <| sy_events ::= λ es, es ++ [e] |>)).
Proof. intros He s z s' [= <- <-]. destruct He as [-> | ->]; by eapply potential_event. Qed.

Lemma still_notify h : still (λ s, if decide (h = NULL) then Faults else Goes (err_code SCH_OK) s).
Proof. intros s z s'. case_decide; [done|]. by intros [= _ <-]. Qed.

Lemma still_sync f :
  still (λ s, match f (sy_sync s) with Some y => Goes 0 (s <| sy_sync := y |>) | None => Blocks end).
Proof. intros s z s'. destruct (f _); [|done]. by intros [= _ <-]. Qed.

Lemma still_started p i c :
  still (λ s, match pool ← at_index (ts_pools (sy_ts s)) p; at_index (tp_packages pool) i with
    | Some x => if decide (c = NULL) then Faults else Goes 0 (s <| sy_events ::= λ es, es ++ [Started p c x] |>)
    | None => Faults
    end).
Proof.
  intros s z s'. destruct (_ ≫= _); [|done]. case_decide; [done|]. intros [= <- <-]. by eapply potential_event.
Qed.

Lemma still_lock : still (λ s, if sy_spin s then Blocks else Goes 0 (s <| sy_spin := true |>)).
Proof. intros s z s'. destruct (sy_spin s); [done|]. by intros [= <- <-]. Qed.
Lemma still_unlock : still (λ s, Goes 0 (s <| sy_spin := false |>)).
Proof. by intros s z s' [= <- <-]. Qed.
Lemma still_exit p : still (λ s, Goes 0 (s <| sy_life ::= <[Z.to_nat p := Returned]> |>)).
Proof. by intros s z s' [= <- <-]. Qed.

(** A task is counted. *)
Lemma count_potential p size x s z s' :
  match at_index (ts_pools (sy_ts s)) p with
  | None => Faults
  | Some pool =>
      Goes 0 (s <| sy_ts ::= λ ts, ts <| ts_pools ::= <[Z.to_nat p := pool <| tp_size := size |>]> |> |>
                <| sy_events ::= λ es, es ++ [Queued p x size] |>)
  end = Goes z s' → potential s' <= potential s + worth.
Proof.
  destruct (at_index _ _) as [pool|]; [|done]. intros [= <- <-].
  unfold potential, tasks, done_tasks, signals. cbn [sy_events sy_pending set].
  rewrite (over_same (λ p es, length (finished p es)) (sy_events s)).
  2: { intros q. by rewrite finished_app, app_nil_r. }
  rewrite (over_one (λ p es, length (queued p es)) (sy_events s) _ p).
  2: { intros q. rewrite queued_app, length_app. cbn. destruct (decide (p = q)), (decide (q = p)); congruence || done. }
  unfold worth. case_decide; lia.
Qed.

(** A task ends. *)
Lemma finished_potential p s :
  (p < n)%nat → potential (s <| sy_events ::= λ es, es ++ [Finished (Z.of_nat p)] |>) = potential s - worth.
Proof.
  intros Hp. unfold potential, tasks, done_tasks, signals. cbn [sy_events sy_pending set].
  rewrite (over_same (λ p es, length (queued p es)) (sy_events s)).
  2: { intros q. by rewrite queued_app, app_nil_r. }
  rewrite (over_one (λ p es, length (finished p es)) (sy_events s) _ (Z.of_nat p)).
  2: { intros q. rewrite finished_app, length_app. cbn.
       destruct (decide (Z.of_nat p = q)), (decide (q = Z.of_nat p)); congruence || done. }
  rewrite decide_True by lia. lia.
Qed.

(** A signal is sent, or taken. *)
Lemma signals_insert s p b :
  sum_list_with Nat.b2n (<[p := b]> (sy_pending s)) =
  match sy_pending s !! p with Some b0 => (signals s + Nat.b2n b - Nat.b2n b0)%nat | None => signals s end.
Proof.
  unfold signals. destruct (sy_pending s !! p) as [b0|] eqn:Hp.
  - pose proof (sum_list_with_insert Nat.b2n _ p b0 b Hp). lia.
  - rewrite list_insert_ge; [done|]. by apply lookup_ge_None_1.
Qed.

Lemma pending_le s p : (Nat.b2n (default false (sy_pending s !! p)) <= signals s)%nat.
Proof.
  destruct (sy_pending s !! p) as [b|] eqn:Hp; [|cbn; lia].
  pose proof (sum_list_with_insert Nat.b2n _ p b false Hp). unfold signals. cbn in *. lia.
Qed.

Lemma raise_potential p thread s z s' :
  match thread_of s p thread with
  | None => Faults
  | Some _ => Goes (err_code SCH_OK)
      (if decide (SCH_SIGNAL_CONTINUE = SIGTERM) then s <| sy_terms ::= <[Z.to_nat p := true]> |>
       else s <| sy_pending ::= <[Z.to_nat p := true]> |>)
  end = Goes z s' → potential s' <= potential s + worth.
Proof.
  destruct (thread_of _ _ _); [|done]. rewrite decide_False by done. intros [= <- <-].
  unfold potential. cbn [sy_events]. unfold signals at 1. cbn [sy_pending set]. rewrite signals_insert.
  pose proof (pending_le s (Z.to_nat p)). unfold worth. destruct (sy_pending s !! _) as [[]|]; cbn in *; lia.
Qed.

Lemma take_potential p sig s s' :
  take_signal p sig s = Some s' →
  potential s' = potential s - if decide (sig = SIGTERM) then 0 else worth.
Proof.
  unfold take_signal. destruct (decide (sig = SIGTERM)) as [|Hne].
  - destruct (default false _); [|done]. intros [= <-]. rewrite (potential_same s) by done. lia.
  - destruct (at_index (sy_pending s) p) as [[]|] eqn:Hp; try done. cbn [default]. intros [= <-].
    apply at_index_Some in Hp as [_ Hp]. pose proof (pending_le s (Z.to_nat p)) as Hle. rewrite Hp in Hle.
    unfold potential. cbn [sy_events]. unfold signals at 1. cbn [sy_pending set]. rewrite signals_insert, Hp.
    cbn in *. unfold worth. lia.
Qed.
End potential.

(** ** The threads pay *)

Section threads.
Context (n : nat) (n_pos : (0 < n)%nat) (n_int : SCH_HEAP_BREATH * Z.of_nat n <= INT_MAX).
Context (clock : Z → bool).

#[local] Abbreviation pays := (pays (pools_fixed n) (potential n)).
#[local] Abbreviation stills := (stills (potential n)).

(** Single accesses. *)
Lemma stills_act f : still (potential n) f → stills (act f).
Proof. by split. Qed.

Lemma stills_local {A} (o : outcome A) : stills (local o).
Proof. by destruct o. Qed.

Lemma stills_iter {X : Set} (x : X) body : (∀ y, stills (body y)) → stills (iter x body).
Proof. by split. Qed.

Ltac stills_walk :=
  repeat (cbn beta iota; lazymatch goal with
  | |- ∀ _, _ => intro
  | |- Potential.stills _ ?p =>
      lazymatch p with
      | _ ≫= _ => apply stills_bind
      | mret _ => exact I
      | local _ => apply stills_local
      | iter _ _ => apply stills_iter
      | act (read_or_fault _) => apply stills_act, still_read
      | act (write_or_fault _) => apply stills_act, still_write
      | match ?x with _ => _ end => destruct x
      | let _ := _ in _ => cbn zeta
      end
  end).

Lemma stills_min_child child mc mi : stills (min_child_at child mc mi).
Proof.
  revert mc mi. induction child as [|c child IH]; intros mc mi; cbn [min_child_at]; [exact I|].
  unfold heap_key_at, rd_dheap, rd_pool. stills_walk; apply IH.
Qed.

Lemma stills_heapify : stills heapify_all.
Proof.
  unfold heapify_all, rd. stills_walk.
  match goal with |- Potential.stills _ (heapify_from _ ?l) => generalize l end.
  intros idxs. induction idxs as [|j idxs IH]; cbn [heapify_from]; [exact I|].
  unfold restore_down, restore_turn, rd_dheap, wr_dheap, rd_pool.
  stills_walk; try apply stills_min_child; try exact IH.
Qed.

Lemma pays_heapify b (Q : () → Z → Prop) :
  Z.of_nat (heapify_steps n) <= b → (∀ c, b - Z.of_nat (heapify_steps n) <= c → Q () c) → pays heapify_all b Q.
Proof.
  intros Hb HQ. replace b with (Z.of_nat (heapify_steps n) + (b - Z.of_nat (heapify_steps n))) by lia.
  eapply pays_mono.
  - apply costs_pays; [lia| |apply stills_heapify].
    apply (costs_heapify n n_pos n_int _ 0 (λ _ _, True)); [lia|done].
  - intros [] c Hc (m & -> & _). apply HQ. lia.
Qed.

Lemma pays_sync f b (Q : Z → Z → Prop) : 0 < b → (∀ z, Q z (b - 1)) → pays (sync_act f) b Q.
Proof. intros Hb HQ. by apply pays_still; [apply (still_sync n f)|..]. Qed.

(** Straight-line code: one access after the other. *)
Ltac spend :=
  repeat (cbn beta iota; lazymatch goal with
  | |- ∀ _, _ => intro
  | |- Potential.pays _ _ ?p _ _ =>
      lazymatch p with
      | _ ≫= _ => apply pays_bind
      | mret _ => apply pays_ret; [unfold worth in *; lia|]
      | local _ => apply pays_local; [unfold worth in *; lia|]
      | act (read_or_fault _) => apply pays_still; [apply still_read|unfold worth in *; lia|]
      | act (write_or_fault _) => apply pays_still; [apply still_write|unfold worth in *; lia|]
      | spin_lock => apply pays_still; [apply still_lock|unfold worth in *; lia|]
      | spin_unlock => apply pays_still; [apply still_unlock|unfold worth in *; lia|]
      | exit_thread _ => apply pays_still; [apply still_exit|unfold worth in *; lia|]
      | store_task _ _ _ => apply pays_still; [apply still_store|unfold worth in *; lia|]
      | log (Cleaned _ _) => eapply pays_still; [eapply still_called; by right|unfold worth in *; lia|]
      | log (Prepared _ _) => eapply pays_still; [eapply still_called; by left|unfold worth in *; lia|]
      | notify _ => apply pays_still; [apply still_notify|unfold worth in *; lia|]
      | mutex_unlock _ => apply pays_sync; [unfold worth in *; lia|]
      | cond_signal => apply pays_sync; [unfold worth in *; lia|]
      | barrier_init _ => apply pays_sync; [unfold worth in *; lia|]
      | log_started _ _ _ => apply pays_still; [apply still_started|unfold worth in *; lia|]
      | count_task _ _ _ => apply (pays_act _ _ _ _ worth); [unfold worth in *; lia|intros ? ? ? _ Hz; exact (count_potential _ _ _ _ _ _ _ Hz)|unfold worth; lia|]
      | raise _ _ _ => apply (pays_act _ _ _ _ worth); [unfold worth in *; lia|intros ? ? ? _ Hz; exact (raise_potential _ _ _ _ _ _ Hz)|unfold worth; lia|]
      | match ?x with _ => _ end => destruct x
      | let _ := _ in _ => cbn zeta
      end
  end).

Lemma pays_submit_pool p pkg b (Q : Z → Z → Prop) :
  100 <= b → (∀ z c, b - 100 <= c → Q z c) → pays (submit_pool p pkg) b Q.
Proof. intros Hb HQ. unfold submit_pool, enqueue, rd, rd_pool, wr_pool. spend; apply HQ; unfold worth; lia. Qed.

(** What a call that does not wait may take. *)
Definition call_worth : Z := Z.of_nat (submit_steps n) + worth * (Z.of_nat n + 2).

Lemma pays_submit pkg pPool b (Q : Z → Z → Prop) :
  call_worth <= b → (∀ z c, b - call_worth <= c → Q z c) → pays (submit pkg pPool) b Q.
Proof.
  unfold call_worth, submit_steps, worth, submit, rd, rd_dheap. intros Hb HQ.
  apply pays_bind, pays_still; [apply still_read|lia|]. intros f1. destruct (negb _); [apply pays_ret; [lia|apply HQ; lia]|].
  apply pays_bind, pays_still; [apply still_read|lia|]. intros f2. destruct (negb _); [apply pays_ret; [lia|apply HQ; lia]|].
  case_decide; [apply pays_ret; [lia|apply HQ; lia]|].
  apply pays_bind, pays_heapify; [lia|]. intros c Hc. apply pays_bind.
  assert (∀ p c, b - 3 - Z.of_nat (heapify_steps n) <= c → pays (submit_pool p pkg) c Q) as Hpool.
  { intros p c' Hc'. apply pays_submit_pool; [lia|]. intros z c'' ?. apply HQ. lia. }
  destruct pPool as [p|].
  - apply pays_ret; [lia|]. apply Hpool. lia.
  - apply pays_still; [apply still_read|lia|]. intros p. apply Hpool. lia.
Qed.

Lemma pays_stop b (Q : Z → Z → Prop) :
  call_worth <= b → (∀ z c, b - call_worth <= c → Q z c) → pays stop_all b Q.
Proof.
  unfold call_worth, submit_steps, heapify_steps, turn_steps, worth, stop_all, rd. intros Hb HQ.
  assert (4 * n <= n * (n * 23))%nat as Hn by nia.
  apply pays_bind, pays_still; [apply still_read|lia|]. intros f1. destruct (negb _); [apply pays_ret; [lia|apply HQ; lia]|].
  apply pays_bind, pays_still; [apply still_read|lia|]. intros f2. destruct (negb _); [apply pays_ret; [lia|apply HQ; lia]|].
  apply (pays_iter _ _ (λ y c, 0 <= y <= Z.of_nat n ∧ b - 4 - 44 * y <= c)); [lia|lia|].
  intros y c [Hy Hc]. unfold stop_turn, rd, rd_pool. apply pays_bind.
  split; [lia|]. intros s z s' [Hs _] _ [= <- <-]. exists (c - 2). split; [lia|]. split; [lia|]. rewrite Hs.
  case_decide; [apply pays_ret; [lia|apply HQ; lia]|].
  spend; [apply HQ; unfold worth; lia|unfold worth; lia].
Qed.

Lemma pays_client w ops b :
  only_submits ops → Z.of_nat (length ops) * call_worth <= b → pays (client w ops) b (λ _ _, True).
Proof.
  intros Hops. assert (0 <= call_worth) as H0 by (unfold call_worth, worth; lia).
  revert b. induction Hops as [|op ops Hop _ IH]; intros b Hb; cbn [client length] in *.
  { by apply pays_ret; [lia|]. }
  apply pays_bind. destruct op as [pkg pPool| | |]; [|by destruct Hop| |by destruct Hop]; cbn [client_call].
  - apply pays_submit; [nia|]. intros z c Hc. apply IH. lia.
  - apply pays_stop; [nia|]. intros z c Hc. apply IH. lia.
Qed.

(** A signal that is taken pays for the turn. *)
Lemma pays_receive p first second b (Q : Z → Z → Prop) :
  first = SCH_SIGNAL_CONTINUE ∧ second = SIGTERM ∨ first = SIGTERM ∧ second = SCH_SIGNAL_CONTINUE → 0 < b →
  Q SCH_SIGNAL_CONTINUE (b - 1 + worth) → Q SIGTERM (b - 1) → pays (receive p first second) b Q.
Proof.
  intros Hsig Hb HQ1 HQ2. split; [lia|]. intros s z s' _ _ Hz.
  assert (take_signal p z s = Some s' ∧ (z = SCH_SIGNAL_CONTINUE ∨ z = SIGTERM)) as [Ht Hc].
  { destruct (take_signal p first s) as [s1|] eqn:H1; [injection Hz as <- <-; split; [done|intuition]|].
    destruct (take_signal p second s) as [s1|] eqn:H2; [injection Hz as <- <-; split; [done|intuition]|done]. }
  apply (take_potential n) in Ht. destruct Hc as [-> | ->].
  - rewrite decide_False in Ht by done. exists (b - 1 + worth). unfold worth in *. split; [lia|]. split; [lia|done].
  - rewrite decide_True in Ht by done. exists (b - 1). split; [lia|]. split; [lia|done].
Qed.

Lemma pays_signal_wait p b (Q : Z → Z → Prop) :
  1 < b → Q SCH_SIGNAL_CONTINUE (b - 2 + worth) → Q SIGTERM (b - 2) → pays (signal_wait p) b Q.
Proof.
  intros Hb HQ1 HQ2. apply pays_bind, pays_choose; [lia|]. intros z _.
  replace (b - 2) with (b - 1 - 1) in * by lia.
  destruct (z =? SIGTERM); apply pays_receive; auto with lia.
Qed.

Lemma pays_worker_turn p index b (Q : turn () → Z → Prop) :
  (p < n)%nat → worth - 1 <= b → (∀ c, worth <= c → Q (Again ()) c) → (∀ c, 10 <= c → Q (Stop 0) c) →
  pays (worker_turn clock (Z.of_nat p) index ()) b Q.
Proof.
  unfold worth. intros Hp Hb HQ1 HQ2. unfold worker_turn, dequeue, set_flag, rd_pool, wr_pool, rd_cell, wr_cell.
  apply pays_bind, pays_still; [apply still_read|lia|]. intros size. case_decide.
  - spend. apply pays_choose; [lia|]. intros t _.
    apply pays_bind, (pays_act _ _ _ _ (- worth)); [lia| |unfold worth; lia|].
    { intros s r s' _ [= <- <-]. pose proof (finished_potential n p s Hp) as Hf. unfold worth in *. cbn -[potential] in *. lia. }
    spend. apply HQ1. unfold worth. lia.
  - apply pays_bind, pays_still; [apply still_write|lia|]. intros _.
    apply pays_bind, pays_still; [apply still_write|lia|]. intros _.
    apply pays_bind, pays_sync; [lia|]. intros _.
    apply pays_bind, pays_sync; [lia|]. intros _.
    apply pays_bind, pays_still; [apply still_write|lia|]. intros _.
    apply pays_bind, pays_still; [apply still_read|lia|]. intros h.
    apply pays_bind, pays_still; [apply still_notify|lia|]. intros _.
    apply pays_bind, (pays_iter _ _ (λ _ c, 30 <= c)); [lia..|]. intros [] c Hc. unfold sleep_turn.
    apply pays_bind, pays_signal_wait; [lia| |].
    + apply pays_ret; [unfold worth; lia|]. cbn beta iota. rewrite decide_False by done.
      apply pays_bind, pays_still; [apply still_write|unfold worth; lia|]. intros _.
      apply pays_ret; [unfold worth; lia|]. apply HQ1. unfold worth. lia.
    + apply pays_ret; [lia|]. cbn beta iota. rewrite decide_True by done. apply pays_ret; [lia|]. apply HQ2. lia.
Qed.

Lemma pays_hook p field called b (Q : Z → Z → Prop) :
  (∀ f, called f = Prepared p f ∨ called f = Cleaned p f) →
  3 <= b → (∀ z c, b - 3 <= c → Q z c) → pays (hook p field called) b Q.
Proof.
  intros Hc Hb HQ. unfold hook, rd_pool.
  apply pays_bind, pays_still; [apply still_read|lia|]. intros f. case_decide; [apply pays_ret; [lia|apply HQ; lia]|].
  apply pays_bind, pays_still; [apply still_read|lia|]. intros f'.
  eapply pays_still; [by eapply still_called|lia|intros z; apply HQ; lia].
Qed.

(** Nobody ever waits on the condition, so the thread passes the alignment at once. *)
Lemma pays_align p b (Q : Z → Z → Prop) : 2 <= b → Q 0 (b - 2) → pays (align p) b Q.
Proof.
  intros Hb HQ. apply (pays_iter _ _ (λ _ c, c = b)); [lia|done|]. intros [] c ->. unfold align_turn, rd_pool.
  apply pays_bind, pays_still; [apply still_read|lia|]. intros flag. replace (b - 1 - 1) with (b - 2) by lia.
  destruct (truthy _); [|apply pays_ret; [lia|done]].
  split; [lia|]. intros s z s' _ [_ Hs'] [= <- <-]. discriminate Hs'.
Qed.

Lemma pays_pool_thread p b :
  (p < n)%nat → worth + 6 <= b → pays (pool_thread clock (Z.of_nat p)) b (λ _ _, True).
Proof.
  intros Hp Hb. unfold pool_thread, worth in *.
  apply pays_bind, pays_still; [apply still_read|lia|]. intros index.
  apply pays_bind, pays_align; [lia|].
  apply pays_bind, pays_hook; [auto|lia|]. intros _ c0 Hc0.
  apply pays_bind, (pays_iter _ _ (λ _ c, 40 <= c)); [lia..|]. intros [] c Hc.
  apply pays_worker_turn; [done|unfold worth; lia|done|]. intros c' Hc'.
  apply pays_bind, pays_hook; [auto|lia|]. intros _ c1 Hc1. unfold set_flag, wr_pool.
  by spend.
Qed.
End threads.

(** ** The run as a whole *)

(** The most steps that clients and pool threads make together. *)
Definition run_bound (n : nat) (clients : list (list client_op)) : Z :=
  Z.of_nat (sum_list_with length clients) * call_worth n + Z.of_nat n * (worth + 6 + worth).

Section run.
Context (clock : Z → bool) (T : Z) (clients : list (list client_op)) (s0 : sys).
Context (Hready : ready clock T clients s0).
#[local] Abbreviation n := (length (pools s0)).

Definition budgets : list Z :=
  ((λ ops : list client_op, Z.of_nat (length ops) * call_worth n) <$> clients) ++ replicate n (worth + 6).

Lemma total_budgets : total budgets = Z.of_nat (sum_list_with length clients) * call_worth n + Z.of_nat n * (worth + 6).
Proof.
  unfold budgets. rewrite total_app, total_replicate. f_equal. generalize (call_worth n). intros w.
  clear Hready. unfold total. induction clients as [|ops l IH]; [done|].
  rewrite fmap_cons. cbn [foldr sum_list_with]. rewrite IH. lia.
Qed.

Lemma budgets_pay i p b :
  Forall only_submits clients → threads clock clients n !! i = Some p → budgets !! i = Some b →
  pays (pools_fixed n) (potential n) p b (λ _ _, True).
Proof.
  intros Hops Hp Hb. unfold threads, budgets in *. destruct (decide (i < length clients)%nat) as [Hlt|Hge].
  - rewrite lookup_app_l, list_lookup_imap in Hp by (by rewrite length_imap).
    rewrite lookup_app_l, list_lookup_fmap in Hb by (by rewrite length_fmap).
    destruct (clients !! i) as [ops|] eqn:Hi; [|done]. apply (inj Some) in Hp, Hb. rewrite <-Hp, <-Hb.
    apply pays_client; [apply Hready..| |done]. by apply (proj1 (Forall_lookup _ _) Hops i).
  - rewrite lookup_app_r, length_imap in Hp by (rewrite length_imap; lia).
    rewrite lookup_app_r, length_fmap in Hb by (rewrite length_fmap; lia).
    apply lookup_replicate_1 in Hb as [-> Hlt]. rewrite list_lookup_fmap, lookup_seqZ_lt in Hp by lia.
    apply (inj Some) in Hp. rewrite <-Hp. replace (0 + Z.of_nat (i - length clients)) with (Z.of_nat (i - length clients)) by lia.
    apply pays_pool_thread; [apply Hready..|done|lia].
Qed.

Lemma potential_start : potential n s0 <= Z.of_nat n * worth.
Proof.
  unfold potential, tasks, done_tasks, over, signals. rewrite (rd_events _ _ _ _ Hready). cbn.
  assert (∀ l : list bool, (sum_list_with Nat.b2n l <= length l)%nat) as Hle.
  { induction l as [|[] l IH]; cbn in *; lia. }
  pose proof (Hle (sy_pending s0)) as Hp. rewrite (proj1 (rd_signals _ _ _ _ Hready)) in Hp.
  assert (∀ l : list nat, sum_list_with (λ _, 0%nat) l = 0%nat) as -> by (by intros l; induction l).
  unfold worth. lia.
Qed.

Lemma reached_potential ps s : reaches clock clients s0 ps s → 0 <= potential n s.
Proof.
  intros Hreach. apply potential_nonneg. intros p Hp.
  pose proof (reached_queues _ _ _ _ Hready _ _ Hreach) as (qs & tks & vs & hd & Hq).
  destruct (qi_lengths _ _ _ _ _ _ _ _ _ Hq) as (_ & Hl & _).
  destruct (lookup_lt_is_Some_2 (pools s) p) as [pool Hpool]; [lia|].
  destruct (reached_pool _ _ _ _ Hready _ _ _ _ Hreach Hpool) as (v & q & tk & Hw & _ & _ & [Hqd Hst Hfin _ _ _ _ _ _ _]).
  pose proof (wr_size _ _ _ Hw). lia.
Qed.

(** The threads stand still, or one of them moves. *)
Lemma reached_moves ps s :
  reaches clock clients s0 ps s →
  (∀ c, ¬ sys_step (ps, s) c) ∨ ∃ i c, sys_run (ps, s) [i] c ∧ sys_step (ps, s) c.
Proof.
  intros Hreach. destruct (reached_tracked _ _ _ _ Hready (ps, s) Hreach) as (ls & Hs & Hl & Hls). cbn [fst snd] in *.
  set (moves := λ i, ∃ p, ps !! i = Some p ∧ ∃ p' s', thread_step p s p' s').
  assert (∀ k, (∃ i, (i < k)%nat ∧ moves i) ∨ ∀ i, (i < k)%nat → ¬ moves i) as Hdec.
  { induction k as [|k [(i & Hi & Hm)|Hno]]; [right; lia|left; exists i; auto with lia|].
    assert (moves k ∨ ¬ moves k) as [Hm|Hm]; [|left; exists k; auto with lia|].
    - destruct (ps !! k) as [p|] eqn:Hp; [|right; intros (p & ? & _); congruence].
      destruct (lookup_lt_is_Some_2 ls k) as [ℓ Hℓ]; [rewrite Hl; by eapply lookup_lt_Some|].
      specialize (Hls k p ℓ Hp Hℓ). unfold moves. rewrite Hp.
      destruct p as [a| |f g|ok g|X x body g].
      + right. intros (p & [= <-] & p' & s' & Hstep). inversion Hstep.
      + destruct Hls.
      + destruct (f s) as [| |z s'] eqn:Hf.
        * right. intros (p & [= <-] & p' & s' & Hstep). inversion Hstep; congruence.
        * right. intros (p & [= <-] & p' & s' & Hstep). inversion Hstep; congruence.
        * left. eexists. split; [done|]. exists (g z), s'. by constructor.
      + left. destruct Hls as [[z Hz] _]. eexists. split; [done|]. exists (g z), s. by constructor.
      + left. eexists. split; [done|]. eexists _, s. constructor.
    - right. intros i Hi. destruct (decide (i = k)) as [->|]; [done|]. apply Hno. lia. }
  destruct (Hdec (length ps)) as [(i & _ & p & Hp & p' & s' & Hstep)|Hno].
  - right. exists i, (<[i := p']> ps, s'). split; [|exact (sys_thread _ _ _ _ _ _ Hp Hstep)].
    econstructor; [exact Hp|exact Hstep|constructor].
  - left. intros c Hstep. inversion Hstep as [ps' s1 i p p' s2 Hp Hth]. subst.
    apply (Hno i); [by eapply lookup_lt_Some|]. by exists p; eauto.
Qed.
End run.

(** C8: a scheduler comes to rest.  When the clients submit and stop but do not wait, every run of
    all the threads together is finite: the clients and the pool threads make at most
    [run_bound] steps, which depends only on the number of calls and of pools, whatever the
    interleaving and whatever the tasks take.  And every run can be continued to a point from
    which no thread can move. *)
Theorem system_terminates clock T clients s0 l ps s :
  ready clock T clients s0 → Forall only_submits clients →
  sys_run (threads clock clients (length (pools s0)), s0) l (ps, s) →
  Z.of_nat (length l) <= run_bound (length (pools s0)) clients ∧
  ∃ l' c, sys_run (ps, s) l' c ∧ ∀ c', ¬ sys_step c c'.
Proof.
  intros Hready Hops.
  assert (∀ l ps s, sys_run (threads clock clients (length (pools s0)), s0) l (ps, s) →
    Z.of_nat (length l) <= run_bound (length (pools s0)) clients) as Hbound.
  { clear l ps s. intros l ps s Hrun.
    assert (Z.of_nat (length l) + potential (length (pools s0)) s
            <= total (budgets clients s0) + potential (length (pools s0)) s0) as Hpay.
    { apply (pays_run (pools_fixed (length (pools s0))) _ _ _ _ (budgets clients s0) Hrun).
      - intros c Hc. by eapply reached_fixed.
      - unfold budgets, threads. cbn. by rewrite !length_app, !length_fmap, length_imap, length_replicate, length_seqZ, Nat2Z.id.
      - intros i p b. by eapply budgets_pay. }
    rewrite total_budgets in Hpay. pose proof (potential_start _ _ _ _ Hready) as Hstart.
    pose proof (reached_potential _ _ _ _ Hready ps s (sys_run_steps _ _ _ Hrun)) as Hend.
    unfold run_bound. lia. }
  intros Hrun. split; [by eapply Hbound|].
  remember (Z.to_nat (run_bound (length (pools s0)) clients) - length l)%nat as k eqn:Hk.
  revert l ps s Hrun Hk. induction k as [k IH] using lt_wf_ind. intros l ps s Hrun Hk.
  destruct (reached_moves _ _ _ _ Hready ps s (sys_run_steps _ _ _ Hrun)) as [Hstuck|(i & [ps' s'] & Hmove & _)].
  { exists [], (ps, s). split; [constructor|done]. }
  pose proof (sys_run_app _ _ _ _ _ Hrun Hmove) as Hrun'. pose proof (Hbound _ _ _ Hrun') as Hb.
  rewrite length_app in Hb. cbn in Hb.
  destruct (IH (Z.to_nat (run_bound (length (pools s0)) clients) - length (l ++ [i]))%nat) with (l := l ++ [i]) (ps := ps') (s := s')
    as (l' & c & Hl' & Hc); [rewrite length_app; cbn; lia|done..|].
  exists (i :: l'), c. split; [|done]. by eapply (sys_run_app _ _ _ [i]).
Qed.
