(* ===== verification/SystemRuns.v ===== *)
(** * Runs of the interleaved scheduler

    A small scheduler as [schRunTask] leaves it, and runs of it by computation, to which the
    theorems on the interleaved scheduler apply. *)
From S2P Require Import Prelude Errors Flags Structures Heapify TaskQueue Platform Executor Threads.
From S2P Require Import System ExecutorFacts Concurrency SystemQueue SystemInv SystemLife SystemTracks SystemCalls SystemSafe SystemBounds SystemEnds.

(** A pool of two cells, with a [deinit] function, and its flag word clear. *)
Definition demo_pool (i : nat) (prio : Z) : schTaskPool :=
  mkPool (900 + Z.of_nat i) 7 600 601 0 0 0 2 700 (replicate 2 (mkPackage 0 0 0 0 0 0 0 0))
    0 0 88 0 prio 512 (Z.of_nat i) 0.

(** The mutex, the condition and the barrier as [schCreateTaskPool] leaves them for [n] pools. *)
Definition unused_sync (n : nat) : sync := mkSync None (replicate n false) 0 0 (Some (Z.of_nat n)) [].

(** One pool for every priority; each thread has its first CONTINUE pending. *)
Definition demo_sys (prios : list Z) : sys :=
  let n := length prios in
  mkSys (mkSch (Z.of_nat n) 640 (imap demo_pool prios) (Z.lor SCH_FLAG_INIT SCH_FLAG_RUNNING)
           650 (seq 0 n) 660 661 662 663 664)
    false (replicate n true) (replicate n false) (replicate n Alive) [] (unused_sync n).

Definition demo_clock (t : Z) : bool := (0 <=? t) && (t <=? 500).
Definition demo_task : schTaskPackage := mkPackage 0 0 77 1 0 0 0 0.

(** Thread [i] makes [k] steps; a worker measures 13, and takes CONTINUE first. *)
Definition by_steps (i k : nat) : nat * nat * Z := (i, k, SCH_SIGNAL_CONTINUE).

(** A run along a schedule. *)
Definition demo_run (clients : list (list client_op)) (prios : list Z)
    (schedule : list (nat * nat * Z)) : config sys :=
  run schedule (threads demo_clock clients (length prios), demo_sys prios).

Lemma demo_reaches clients prios schedule :
  let c := demo_run clients prios schedule in
  reaches demo_clock clients (demo_sys prios) c.1 c.2.
Proof.
  cbn zeta. unfold reaches. rewrite <-surjective_pairing. cbn [pools sy_ts ts_pools demo_sys].
  rewrite length_imap. apply run_steps.
Qed.

Definition demo_submit : client_op := CSubmit demo_task None.

(** ** The properties of SystemSafe.v on concrete runs *)

Lemma demo_ready clients prios :
  (0 < length prios <= 1000)%nat → (length clients <= 1000)%nat → Forall (λ z, 0 <= z <= 500) prios →
  Forall (Forall (call_ok (length clients) (length prios))) clients → (sum_list_with submits clients <= 1000)%nat →
  ready demo_clock 500 clients (demo_sys prios).
Proof.
  intros Hn Hc Hprios Hcalls Hsub.
  assert (length (pools (demo_sys prios)) = length prios) as Hl by (by cbn; rewrite length_imap).
  split; rewrite ?Hl; try done; try lia.
  - unfold SCH_HEAP_BREATH, INT_MAX. lia.
  - apply Forall_lookup. intros i v Hv. cbn in Hv. rewrite list_lookup_imap in Hv.
    destruct (prios !! i) as [z|] eqn:Hz; [|done]. injection Hv as <-. cbn.
    apply (proj1 (Forall_lookup _ _) Hprios) in Hz.
    split_and!; [by split; cbn|done|unfold UINT_MOD; lia|lia..].
  - apply Forall_lookup. intros i v Hv. cbn in Hv. rewrite list_lookup_imap in Hv.
    destruct (prios !! i) as [z|]; [|done]. injection Hv as <-. cbn. unfold NULL. split_and!; [lia..|done].
  - cbn. by rewrite !length_replicate.
  - unfold demo_clock. intros t. rewrite andb_true_iff, !Z.leb_le. lia.
  - by exists 0.
  - unfold LONG_MAX. lia.
Qed.

(** Two clients, two pools: a task of each client is counted in the same queue, whose worker
    runs the first; the second client has just left the critical section. *)
Definition demo_clients : list (list client_op) := [[demo_submit; CWait]; [CSubmit demo_task (Some 0)]].
Definition demo_two : config sys :=
  demo_run demo_clients [0; 20] [by_steps 0 32; by_steps 2 17; by_steps 1 27].
Definition demo_two_end : sys := Eval vm_compute in demo_two.2.

Lemma demo_two_ready : ready demo_clock 500 demo_clients (demo_sys [0; 20]).
Proof. apply demo_ready; cbn; try lia; repeat constructor; cbn; lia. Qed.

Lemma demo_two_reaches : reaches demo_clock demo_clients (demo_sys [0; 20]) demo_two.1 demo_two_end.
Proof. exact (demo_reaches demo_clients [0; 20] _). Qed.

Example demo_two_events :
  sy_events demo_two_end = [Stored 0 1; Queued 0 demo_task 1; Started 0 77 demo_task; Stored 0 1; Queued 0 demo_task 1].
Proof. reflexivity. Qed.

Lemma system_sizes_witness : ∃ pool, pools demo_two_end !! 0%nat = Some pool ∧ 0 <= tp_size pool <= 2 + 2 - 1.
Proof.
  eexists. split; [reflexivity|].
  eapply (system_sizes _ _ _ _ demo_two_ready _ _ demo_two_reaches 0%nat). reflexivity.
Defined.

Lemma system_wf_witness : ∃ pool, pools demo_two_end !! 0%nat = Some pool ∧ wring 2 0 pool.
Proof.
  eexists. split; [reflexivity|].
  eapply (proj2 (proj2 (proj2 (system_wf _ _ _ _ demo_two_ready _ _ demo_two_reaches))) eq_refl 0%nat).
  reflexivity.
Defined.

Lemma system_conserves_witness : ∃ pool, pools demo_two_end !! 0%nat = Some pool ∧
  let taken := Z.of_nat (length (queued 0 (sy_events demo_two_end))) - tp_size pool in
  taken = 1 ∧ taken <= Z.of_nat (length (finished 0 (sy_events demo_two_end))) + 1.
Proof.
  eexists. split; [reflexivity|]. split; [reflexivity|].
  eapply (system_conserves _ _ _ _ demo_two_ready _ _ demo_two_reaches 0%nat). reflexivity.
Defined.

Lemma roomy_by p r es :
  forallb (λ e, match e with Stored q z => negb (Z.eqb q p) || (z <? r) | _ => true end) es = true → roomy p r es.
Proof.
  intros Hall size Hs. apply list_elem_of_In in Hs. apply (proj1 (forallb_forall _ _) Hall) in Hs.
  rewrite Z.eqb_refl in Hs. by apply Z.ltb_lt.
Qed.

Lemma system_fifo_witness :
  started 0 (sy_events demo_two_end) = call_of <$> take 1 (queued 0 (sy_events demo_two_end)).
Proof.
  eapply (system_fifo _ _ _ _ demo_two_ready _ _ demo_two_reaches 0%nat); [cbn; lia|].
  by apply roomy_by.
Defined.

(** One client whose task has been run, with its worker asleep: nothing moves. *)
Definition demo_still : config sys :=
  demo_run [[demo_submit]] [0] [by_steps 1 28; by_steps 0 25; by_steps 1 30].

Lemma demo_one_ready ops :
  Forall (call_ok 1 1) ops → (submits ops <= 1000)%nat → ready demo_clock 500 [ops] (demo_sys [0]).
Proof. intros Hops Hs. apply demo_ready; cbn; try lia; repeat constructor; try lia; done. Qed.

Lemma no_step (ps : list (proc sys ())) s :
  forallb (λ p, match p with Ret _ => true | Act f _ => if f s is Blocks then true else false | _ => false end) ps = true →
  ∀ c, ¬ sys_step (ps, s) c.
Proof.
  intros Hps c Hstep. inversion Hstep as [ps' s1 i p p' s2 Hp Hth]. subst. clear Hstep.
  apply list_elem_of_lookup_2, list_elem_of_In in Hp. apply (proj1 (forallb_forall _ _) Hps) in Hp.
  destruct Hth as [f k s z s' Hf|ok k s z Hok|x body k s]; [|done..]. by rewrite Hf in Hp.
Qed.

Lemma demo_still_ready : ready demo_clock 500 [[demo_submit]] (demo_sys [0]).
Proof. apply demo_one_ready; [repeat constructor|cbn; lia]. Qed.

Lemma demo_still_reaches :
  reaches demo_clock [[demo_submit]] (demo_sys [0]) demo_still.1 demo_still.2.
Proof. apply demo_reaches. Qed.

(** The worker went idle three times, and the submit found it asleep. *)
Example demo_still_misuse :
  sn_misuse (sy_sync demo_still.2)
  = [UnlockUnheld (Pool 0); UnlockUnheld (Pool 0); BarrierAgain; UnlockUnheld (Pool 0)].
Proof. reflexivity. Qed.

Lemma system_safe_witness :
  (∃ th, demo_still.1 !! 1%nat = Some th ∧ ¬ faults th demo_still.2) ∧
  WaitUnheld (Client 0) ∉ sn_misuse (sy_sync demo_still.2).
Proof.
  destruct (system_safe _ _ _ _ demo_still_ready _ _ demo_still_reaches) as [Hsafe Hmisuse]. split.
  - eexists. split; [reflexivity|]. apply (Hsafe 1%nat). reflexivity.
  - intros Hm. destruct (Hmisuse _ Hm) as [Hb|[[p Hp]|[[i Hi] _]]]; [discriminate Hb|discriminate Hp|discriminate Hi].
Defined.

Lemma system_no_deadlock_witness :
  sy_spin demo_still.2 = false ∧ sn_mutex (sy_sync demo_still.2) = None ∧ default false (at_index (sy_pending demo_still.2) 0) = false.
Proof.
  destruct (system_no_deadlock _ _ _ _ demo_still_ready _ _ demo_still_reaches) as (Hs & Hm & Hall).
  - apply no_step. reflexivity.
  - split; [exact Hs|]. split; [exact Hm|]. destruct (Hall 1%nat _ eq_refl) as [Hr|([|p] & Hi & _ & Hp & _)]; [discriminate Hr|exact Hp|cbn in Hi; lia].
Defined.

(** One client submits a task and terminates the scheduler.  The worker starts late: it runs
    the task, sleeps twice, and leaves. *)
Definition demo_all_schedule : list (nat * nat * Z) :=
  [by_steps 0 24; by_steps 1 45; by_steps 0 17; by_steps 1 6; by_steps 0 13].
Definition demo_all : config sys := demo_run [[demo_submit; CTerminate]] [0] demo_all_schedule.
Definition demo_all_end : sys := Eval vm_compute in demo_all.2.

Lemma demo_all_ready : ready demo_clock 500 [[demo_submit; CTerminate]] (demo_sys [0]).
Proof. apply demo_one_ready; [repeat constructor|cbn; lia]. Qed.

Lemma demo_all_reaches :
  reaches demo_clock [[demo_submit; CTerminate]] (demo_sys [0]) demo_all.1 demo_all_end.
Proof. exact (demo_reaches [[demo_submit; CTerminate]] [0] demo_all_schedule). Qed.

Example demo_all_events :
  sy_events demo_all_end
  = [Stored 0 1; Queued 0 demo_task 1; Started 0 77 demo_task; Finished 0; Waited; Cleaned 0 88; Terminated].
Proof. reflexivity. Qed.

Lemma one_client_waited_witness : ∃ pool, pools demo_all_end !! 0%nat = Some pool ∧ tp_size pool = 0.
Proof.
  eexists. split; [reflexivity|].
  eapply (one_client_waited _ _ _ _ demo_all_ready _ _ demo_all_reaches 0%nat); reflexivity.
Defined.

Lemma one_client_heap_witness : ts_dheaps (sy_ts demo_all_end) ≡ₚ [0%nat].
Proof.
  eapply (proj2 (one_client_heap _ _ _ _ demo_all_ready _ _ demo_all_reaches)). reflexivity.
Defined.

Lemma terminate_runs_all_witness :
  sy_life demo_all_end = [Joined] ∧ started 0 (sy_events demo_all_end) = [call_of demo_task].
Proof.
  destruct (terminate_runs_all _ _ _ _ demo_all_ready _ _ demo_all_reaches) as (_ & _ & Hall).
  { apply list_elem_of_In. cbn. tauto. }
  split; [reflexivity|]. destruct (Hall 0%nat _ eq_refl) as (_ & _ & _ & _ & Hst). apply Hst.
  by apply roomy_by.
Defined.

(** The second task is queued while the first one runs. *)
Lemma task_keeps_package_witness :
  ∃ pool, pools demo_two_end !! 0%nat = Some pool ∧
    at_index (tp_packages pool) ((tp_head pool - 1) mod tp_reserved pool) = Some demo_task.
Proof.
  destruct (task_keeps_package _ _ _ _ demo_two_ready _ _ demo_two_reaches 0%nat _ eq_refl) as (c & x & Hl & Hx).
  - by apply roomy_by.
  - apply Nat.ltb_lt. reflexivity.
  - eexists. split; [reflexivity|]. cbn in Hl. injection Hl as _ <-. exact Hx.
Defined.

Definition demo_two_schedule : list (nat * nat * Z) := [by_steps 0 32; by_steps 2 17; by_steps 1 27].

Lemma submit_bounded_witness :
  length (filter (λ j, j = 1%nat) (steps_of demo_two_schedule)) = 27%nat ∧ (27 <= 1 * submit_steps 2)%nat.
Proof.
  split; [reflexivity|].
  refine (submit_bounded demo_clock 500 demo_clients (demo_sys [0; 20]) 1 [CSubmit demo_task (Some 0)]
    (steps_of demo_two_schedule) demo_two.1 demo_two.2 demo_two_ready eq_refl _ (run_run demo_two_schedule (threads demo_clock demo_clients 2, demo_sys [0; 20]) eq_refl)).
  by repeat constructor.
Defined.

(** Three steps of a client that submits twice are a part of a run that ends. *)
Lemma system_terminates_witness :
  let c := run [by_steps 0 3] (threads demo_clock [[demo_submit; demo_submit]] 1, demo_sys [0]) in
  3 <= run_bound 1 [[demo_submit; demo_submit]] ∧ ∃ l' c', sys_run (c.1, c.2) l' c' ∧ ∀ c'', ¬ sys_step c' c''.
Proof.
  refine (system_terminates demo_clock 500 [[demo_submit; demo_submit]] (demo_sys [0]) (steps_of [by_steps 0 3]) _ _
    (demo_one_ready _ _ _) _ (run_run [by_steps 0 3] (threads demo_clock [[demo_submit; demo_submit]] 1, demo_sys [0]) eq_refl)).
  - by repeat constructor.
  - cbn. lia.
  - by repeat constructor.
Defined.
