(* ===== verification/SystemStart.v ===== *)
(** * From a creation to the interleaved scheduler

    The theorems on System.v start from a scheduler that is [ready].  Here such a scheduler is
    what [schCreateTaskPool] and [schRunTaskSch], as Scheduler.v has them, make of any memory
    on a system that grants their requests. *)
From S2P Require Import Executor Threads System SystemQueue SystemInv SystemCalls SystemSafe SystemBounds SystemEnds SystemRuns.
From S2P Require Import Prelude Errors Flags Structures Heapify TaskQueue Platform.
From S2P Require Import Scheduler SchedulerFacts Examples Lifecycle Creation Running.

(** The interleaved scheduler that starts from the object [ts] of a successful run: no thread
    has moved, and to each one CONTINUE was sent. *)
Definition started_sys (ts : schTaskSch) : System.sys :=
  let n := length (ts_pools ts) in
  mkSys ts false (replicate n true) (replicate n false) (replicate n Alive) [] (unused_sync n).

(** ** The pools of a successful run *)

(** A pool that was created and then given its thread. *)
Record launched (n : Z) (i : nat) (pool : schTaskPool) : Prop := {
  la_ring : ring_wf pool;
  la_size : tp_size pool = 0;
  la_reserved : tp_reserved pool = n;
  la_prio : tp_dheapPriority pool = 0;
  la_index : tp_index pool = Z.of_nat i;
  la_thread : tp_thread pool ≠ NULL;
  la_ref : tp_schRefThread pool ≠ NULL;
  la_flag : tp_flag pool = 0;
}.

Section start.
Context {W : Type} `{Posix W}.
(** A thread has a handle. *)
Hypothesis self_handle : ∀ w, ans_ret (fst (sys c_pthread_self w)) ≠ NULL.

Lemma started_launched addr n i pool pool' :
  0 < n < UINT_MOD → created is_self addr n i pool → is_started pool pool' → launched n i pool'.
Proof.
  intros Hn Hc (m & st & t & _ & _ & Ht & ->). destruct (cr_ref _ _ _ _ _ Hc) as [w Hw].
  split; cbn; try apply Hc; [|done|by rewrite Hw].
  by destruct (created_ring_wf _ _ _ _ _ Hn Hc).
Qed.

Lemma run_done_launched addr num flag n (s s' : sched W) :
  0 < n < UINT_MOD → fresh is_self addr num flag n (sc_ts s) → run_done s s' →
  Z.of_nat (length (ts_pools (sc_ts s'))) = num ∧
  ∀ i pool, ts_pools (sc_ts s') !! i = Some pool → launched n i pool.
Proof.
  intros Hn Hf (new & Hall & Hts & _). rewrite Hts. cbn.
  split; [rewrite <-(Forall2_length _ _ _ Hall); apply Hf|].
  intros i pool' Hi. destruct (Forall2_lookup_r _ _ _ _ _ Hall Hi) as (pool & Hpool & Hst).
  eapply started_launched; [done| |exact Hst]. exact (fr_pools _ _ _ _ _ _ Hf i pool Hpool).
Qed.

(** ** The start *)

Context (clock : Z → bool) (T : Z) (clients : list (list client_op)).

(** What the caller sees to: the times of the tasks, the number of calls, and the pools they
    name, for [num] pools with queues of [n] cells. *)
Record usage (num n : Z) : Prop := {
  us_small : SCH_HEAP_BREATH * num <= INT_MAX;
  us_cells : 0 < n ∧ n + Z.of_nat (length clients) <= UINT_MOD ∧ n < UINT_MOD;
  us_clock t : clock t = true → 0 <= t <= T;
  us_time : ∃ t, clock t = true;
  us_calls : Forall (Forall (call_ok (length clients) (Z.to_nat num))) clients;
  us_long : T + 1000 * Z.of_nat (sum_list_with submits clients) <= LONG_MAX;
}.

Lemma run_done_ready addr num flag n (s s' : sched W) :
  0 < num → usage num n → fresh is_self addr num flag n (sc_ts s) → run_done s s' →
  ready clock T clients (started_sys (sc_ts s')).
Proof.
  intros Hnum [Hsmall Hcells Hclock Htime Hcalls Hlong] Hf Hdone.
  destruct (run_done_launched addr num flag n s s') as [Hl Hp]; [lia|done..|].
  assert (∀ P : schTaskPool → Prop, (∀ i pool, launched n i pool → P pool) → Forall P (ts_pools (sc_ts s'))) as HP.
  { intros P HP. apply Forall_lookup. intros i pool Hi. eapply HP, Hp, Hi. }
  destruct Hdone as (new & Hall & Hts & _). pose proof (Forall2_length _ _ _ Hall) as Hlen.
  split; unfold started_sys, pools; cbn; rewrite ?length_replicate; try done.
  - lia.
  - rewrite Hts at 1. cbn. by rewrite (fr_num _ _ _ _ _ _ Hf).
  - by rewrite Hl.
  - apply HP. intros i pool [Hr Hs Hres Hpr _ _ _ _]. destruct (Htime) as [t Ht]. specialize (Hclock t Ht).
    split_and!; [done|done|rewrite Hres; lia|lia|lia].
  - rewrite Hts. cbn. rewrite (fr_dheaps _ _ _ _ _ _ Hf). by rewrite Hlen.
  - apply HP. intros i pool [_ _ _ _ _ Ht Hr Hfl]. by rewrite Hfl.
  - replace (length (ts_pools (sc_ts s'))) with (Z.to_nat num) by lia. done.
Qed.
End start.

Section program.
Context {W : Type} `{Posix W} (NDEBUG : bool) (uninit_pool : nat → schTaskPool) (uninit_cell : nat → nat).
Context (uninit_package : nat → schTaskPackage) (others : schTaskSch → W → schTaskSch).

(** The beginning of a program that uses the library. *)
Definition create_and_run (fuel : nat) (cores flag n : Z) : M (sched W) Z :=
  r ← schCreateTaskPool NDEBUG uninit_pool uninit_cell uninit_package cores flag n;
  if decide (r = err_code SCH_OK) then schRunTaskSch NDEBUG others fuel else mret r.

(** The part of the caller's flags that a creation keeps. *)
Definition own_flag (flag : Z) : Z := Z.land flag (Z.lnot (Z.lor SCH_FLAG_INIT SCH_FLAG_RUNNING)).

(** On a system with memory that lets [schCreateTaskPool] create its objects, the object is
    created, and then runs, or the system refuses a request of the run. *)
Lemma wp_create_and_run ncpu cores flag n fuel (s : sched W) :
  (∀ m w, ans_ret (fst (sys (c_malloc m) w)) ≠ NULL) →
  (∀ c w, create_request c = true → ans_ret (fst (sys c w)) = 0) →
  (∀ w, ans_ret (fst (sys c_sysconf_nprocessors w)) = ncpu) →
  (∀ p w, ans_ret (fst (sys (c_sigemptyset p) w)) = 0) →
  (∀ f p w, ans_ret (fst (sys (c_pthread_create f p) w)) = 0 →
     ∃ t out, ans_out (fst (sys (c_pthread_create f p) w)) = t :: out ∧ t ≠ NULL) →
  SCH_HEAP_BREATH * ncpu <= INT_MAX → sc_addr s ≠ NULL → cores = -1 ∧ 0 < ncpu ∨ 0 < cores <= ncpu →
  0 < n < UINT_MOD →
  wp (create_and_run fuel cores flag n) (λ r s',
    (r = err_code SCH_OK ∧ ∃ s1, run_done s1 s' ∧
       fresh is_self (sc_addr s) (if decide (cores = -1) then ncpu else cores) (own_flag flag) n (sc_ts s1)) ∨
    (r = err_code SCH_ERROR_INTERNAL ∨ r = err_code SCH_ERROR_INVALID_SCH) ∧
    ∃ ts e, went ts True e (sc_env s')) s.
Proof.
  intros Hmalloc Hinit Hcpu Hempty Hthread Hsmall Haddr Hcores Hn.
  unfold create_and_run. apply wp_bind. eapply wp_mono; [by apply (wp_create _ _ _ _ ncpu)|].
  intros r1 s1 (-> & _ & Hf). rewrite decide_True by done. pose proof (flag_created flag) as [Hready _].
  eapply wp_mono; [apply wp_run; try done|].
  - unfold flag_of. by rewrite (fr_flag _ _ _ _ _ _ Hf).
  - by rewrite (fr_num _ _ _ _ _ _ Hf), (fr_length _ _ _ _ _ _ Hf).
  - intros r s' [(-> & Hdone)|(_ & [ts Hw] & Hr)]; [left; split; [done|by exists s1]|].
    right. split; [destruct Hr as [?|[? _]]; auto|]. by exists ts, (sc_env s1).
Qed.

(** What is then known of the flag word. *)
Lemma created_runs addr num flag n (s1 s' : sched W) :
  fresh is_self addr num (own_flag flag) n (sc_ts s1) → run_done s1 s' → life_of (flag_of s') = Running.
Proof.
  intros Hf (new & _ & Hts & _). pose proof (flag_created flag) as [Hready _].
  unfold flag_of. rewrite Hts. cbn. apply flag_started.
  rewrite (fr_flag _ _ _ _ _ _ Hf). revert Hready. unfold life_of. by destruct (has _ SCH_FLAG_INIT).
Qed.

(** C7: the composition of creation, run and use.  On a system with memory that lets
    [schCreateTaskPool] create its objects, the two calls return.  Either the run answers
    [SCH_OK], and the object is one that the theorems on the interleaved scheduler start from,
    for any clients whose calls fit: it runs, with one pool for each core, each with the queue
    of the requested size; or the system refused a request of the run.  The size may be any
    that is not zero and leaves room for the clients, up to the width of [unsigned int]: the
    creation has no other bound on it, although the test [MissUse] of test/unit-test/main.c
    expects [SCH_ERROR_INVALID_ARG] for (unsigned int)-2 cells. *)
Theorem create_run_ready clock T clients ncpu cores flag n fuel (s : sched W) :
  (∀ m w, ans_ret (fst (sys (c_malloc m) w)) ≠ NULL) →
  (∀ c w, create_request c = true → ans_ret (fst (sys c w)) = 0) →
  (∀ w, ans_ret (fst (sys c_sysconf_nprocessors w)) = ncpu) →
  (∀ w, ans_ret (fst (sys c_pthread_self w)) ≠ NULL) →
  (∀ p w, ans_ret (fst (sys (c_sigemptyset p) w)) = 0) →
  (∀ f p w, ans_ret (fst (sys (c_pthread_create f p) w)) = 0 →
     ∃ t out, ans_out (fst (sys (c_pthread_create f p) w)) = t :: out ∧ t ≠ NULL) →
  SCH_HEAP_BREATH * ncpu <= INT_MAX → sc_addr s ≠ NULL → cores = -1 ∧ 0 < ncpu ∨ 0 < cores <= ncpu →
  let num := if decide (cores = -1) then ncpu else cores in
  usage clock T clients num n →
  wp (create_and_run fuel cores flag n) (λ r s',
    (r = err_code SCH_OK ∧ life_of (flag_of s') = Running ∧
     ready clock T clients (started_sys (sc_ts s')) ∧ Z.of_nat (length (ts_pools (sc_ts s'))) = num ∧
     ∀ p, (p < Z.to_nat num)%nat →
       capacity (started_sys (sc_ts s')) p = n ∧ index_of (started_sys (sc_ts s')) p = Z.of_nat p) ∨
    (r = err_code SCH_ERROR_INTERNAL ∨ r = err_code SCH_ERROR_INVALID_SCH) ∧
    ∃ ts e, went ts True e (sc_env s')) s.
Proof.
  intros Hmalloc Hinit Hcpu Hself Hempty Hthread Hsmall Haddr Hcores num Hus.
  assert (0 < num) as Hnum by (unfold num; case_decide; lia).
  assert (0 < n < UINT_MOD) as Hn by (destruct Hus; lia).
  eapply wp_mono; [by apply (wp_create_and_run ncpu)|]. fold num.
  intros r s' [(-> & s1 & Hdone & Hf)|Hr]; [left|by right].
  destruct (run_done_launched Hself _ _ _ _ _ _ Hn Hf Hdone) as [Hl Hp].
  split_and!; [done|by eapply created_runs|by eapply run_done_ready|done|].
  intros p Hlt. destruct (lookup_lt_is_Some_2 (ts_pools (sc_ts s')) p) as [pool Hpool]; [lia|].
  unfold capacity, index_of, started_sys, pools. cbn. rewrite Hpool. cbn. split; by apply (Hp p pool).
Qed.
End program.

(** *** Witness: four cores, two clients *)

(** A system that grants everything; threads get odd ids. *)
Definition quad_posix : Posix () := {|
  sys c w := (match c with
              | c_malloc _ => mkAnswer 4096 []
              | c_sysconf_nprocessors => mkAnswer 4 []
              | c_pthread_self => mkAnswer 7 []
              | c_pthread_create _ i => mkAnswer 0 [2 * i + 1]
              | _ => mkAnswer 0 []
              end, w);
  errno _ := 0;
  indet _ := 0;
|}.

Definition quad_clients : list (list client_op) :=
  [[CSubmit demo_task None; CWait]; [CSubmit demo_task (Some 3); CStop]].

Lemma quad_usage : usage demo_clock 500 quad_clients 4 8.
Proof.
  split; unfold SCH_HEAP_BREATH, INT_MAX, UINT_MOD, LONG_MAX; cbn; try lia.
  - unfold demo_clock. intros t. rewrite andb_true_iff, !Z.leb_le. lia.
  - by exists 0.
  - repeat constructor; cbn; lia.
Qed.

Lemma quad_grants :
  (∀ m w, ans_ret (fst (@sys _ quad_posix (c_malloc m) w)) ≠ NULL) ∧
  (∀ c w, create_request c = true → ans_ret (fst (@sys _ quad_posix c w)) = 0) ∧
  (∀ f p w, ans_ret (fst (@sys _ quad_posix (c_pthread_create f p) w)) = 0 →
     ∃ t out, ans_out (fst (@sys _ quad_posix (c_pthread_create f p) w)) = t :: out ∧ t ≠ NULL).
Proof.
  split; [|split].
  - intros m w. unfold NULL. cbn. lia.
  - intros [] w; (discriminate || reflexivity).
  - intros f p w _. eexists _, _. split; [reflexivity|unfold NULL; lia].
Qed.

Definition quad_run : outcome (Z * sched ()) :=
  create_and_run (H := quad_posix) true raw_pool id raw_package all_idle 3 (-1) SCH_FLAG_NO_AFM 8 raw_unit.

Lemma quad_status : match quad_run with Done (r, _) => r | _ => 0 end = err_code SCH_OK.
Proof. vm_compute. reflexivity. Qed.

Lemma create_run_ready_witness :
  ∃ s', quad_run = Done (err_code SCH_OK, s') ∧ ready demo_clock 500 quad_clients (started_sys (sc_ts s')).
Proof.
  assert (SCH_HEAP_BREATH * 4 <= INT_MAX) as Hsmall by (unfold SCH_HEAP_BREATH, INT_MAX; lia).
  assert (7 ≠ NULL) as Hseven by (unfold NULL; lia).
  assert (sc_addr raw_unit ≠ NULL) as Haddr by (cbn; unfold NULL; lia).
  pose proof (create_run_ready (H := quad_posix) true raw_pool id raw_package all_idle demo_clock 500 quad_clients 4 (-1)
    SCH_FLAG_NO_AFM 8 3 raw_unit (proj1 quad_grants) (proj1 (proj2 quad_grants)) (λ _, eq_refl) (λ _, Hseven) (λ _ _, eq_refl)
    (proj2 (proj2 quad_grants)) Hsmall Haddr (or_introl (conj eq_refl eq_refl)) quad_usage) as Hwp.
  destruct (proj1 (wp_Done _ _ _) Hwp) as (r & s' & Hrun & Hcase). clear Hwp.
  assert (r = err_code SCH_OK) as ->.
  { pose proof quad_status as Hst. unfold quad_run in Hst. rewrite Hrun in Hst. exact Hst. }
  exists s'. split; [exact Hrun|].
  destruct Hcase as [(_ & _ & Hready & _)|[Hr _]]; [exact Hready|]. exfalso. clear -Hr. by destruct Hr.
Defined.
