(* ===== verification/Kept.v ===== *)
(** * Invariants that most accesses keep

    A predicate of the scheduler object and of the history, and the accesses that cannot harm
    it: the reads, and everything that only concerns locks, signals and threads.  For the
    writes it is enough to look at each kind of them once: then whole clients and whole pool
    threads keep the invariant. *)
From S2P Require Import Prelude Errors Flags Structures Heapify TaskQueue Platform Executor Threads System.

Section kept.
Context (I : sys → Prop).
Context (I_same : ∀ s s', sy_ts s' = sy_ts s → sy_events s' = sy_events s → I s → I s').

Definition kept_inv (s : sys) (_ : list ()) : Prop := I s.

#[local] Abbreviation tr := (tracks kept_inv (λ _ _ _, True) True).
Implicit Types (Q : Z → () → Prop).

Lemma kept_act i f Q :
  (∀ s z s', I s → f s = Goes z s' → I s' ∧ Q z tt) → tr i (act f) tt Q.
Proof.
  intros Hf. apply tracks_act. intros s ls Hs _. specialize (Hf s).
  destruct (f s) as [| |z s']; [done..|]. exists tt. by apply Hf.
Qed.

(** An access that leaves the object and the history alone. *)
Lemma kept_same i f Q :
  (∀ s z s', f s = Goes z s' → sy_ts s' = sy_ts s ∧ sy_events s' = sy_events s) →
  (∀ z, Q z tt) → tr i (act f) tt Q.
Proof.
  intros Hf HQ. apply kept_act. intros s z s' Hs [Hts He]%Hf. split; [by apply (I_same s)|done].
Qed.

Lemma kept_local {A} i (o : outcome A) (Q : A → () → Prop) :
  (∀ a, o = Done a → Q a tt) → tr i (local o) tt Q.
Proof. destruct o; cbn; auto. Qed.

Lemma read_same f s z s' : read_or_fault f s = Goes z s' → s' = s.
Proof. unfold read_or_fault. destruct (f _); congruence. Qed.

Lemma kept_rd i f Q : (∀ z, Q z tt) → tr i (rd f) tt Q.
Proof. apply kept_same. by intros s z s' ->%read_same. Qed.

Lemma kept_rd_pool i p f Q : (∀ z, Q z tt) → tr i (rd_pool p f) tt Q.
Proof. apply kept_same. by intros s z s' ->%read_same. Qed.

Lemma kept_rd_cell i p c f Q : (∀ z, Q z tt) → tr i (rd_cell p c f) tt Q.
Proof. apply kept_same. by intros s z s' ->%read_same. Qed.

Lemma kept_iter {X : Set} i (x : X) body Q :
  (∀ y, tr i (body y) tt (λ t m, match t with Again _ => True | Stop z => Q z m end)) →
  tr i (iter x body) tt Q.
Proof. intros Hb. apply (tracks_iter _ _ _ (λ _ _, True)); [done|]. by intros y [] _. Qed.

Lemma kept_choose i ok z Q : ok z = true → (∀ z, Q z tt) → tr i (choose ok) tt Q.
Proof. intros Hz HQ. split; [by exists z|]. intros y _. apply HQ. Qed.

Lemma kept_sync i f Q : (∀ z, Q z tt) → tr i (sync_act f) tt Q.
Proof. apply kept_same. intros s z s'. by destruct (f _); intros [= _ <-]. Qed.
Lemma kept_lock i Q : (∀ z, Q z tt) → tr i spin_lock tt Q.
Proof. apply kept_same. intros s z s'. by destruct (sy_spin s); intros [= _ <-]. Qed.
Lemma kept_unlock i Q : (∀ z, Q z tt) → tr i spin_unlock tt Q.
Proof. apply kept_same. by intros s z s' [= _ <-]. Qed.
Lemma kept_raise i p thread sig Q : (∀ z, Q z tt) → tr i (raise p thread sig) tt Q.
Proof.
  apply kept_same. intros s z s'. destruct (thread_of _ _ _); [|done].
  by case_decide; intros [= _ <-].
Qed.
Lemma kept_join i p thread Q : (∀ z, Q z tt) → tr i (join p thread) tt Q.
Proof. apply kept_same. intros s z s'. by destruct (thread_of _ _ _) as [[]|]; intros [= _ <-]. Qed.
Lemma kept_receive i p first second Q : (∀ z, Q z tt) → tr i (receive p first second) tt Q.
Proof.
  apply kept_same.
  assert (∀ sig s s', take_signal p sig s = Some s' → sy_ts s' = sy_ts s ∧ sy_events s' = sy_events s) as Hsame.
  { intros sig s s'. unfold take_signal. by case_decide; destruct (default _ _); intros [= <-]. }
  intros s z s'. destruct (take_signal p first s) as [s1|] eqn:H1.
  { intros [= _ <-]. by apply Hsame in H1. }
  destruct (take_signal p second s) as [s1|] eqn:H2; [|done]. intros [= _ <-]. by apply Hsame in H2.
Qed.
Lemma kept_exit i p Q : (∀ z, Q z tt) → tr i (exit_thread p) tt Q.
Proof. apply kept_same. by intros s z s' [= _ <-]. Qed.
Lemma kept_notify i thread Q : (∀ z, Q z tt) → tr i (notify thread) tt Q.
Proof. apply kept_same. intros s z s'. by case_decide; intros [= _ <-]. Qed.

End kept.

(** One access of a program; [same] is the hypothesis [I_same], [Ht] a measured time. *)
Ltac kept_step same Ht :=
  cbn beta iota;
  lazymatch goal with
  | |- True => exact I
  | |- ∀ _, _ => intro
  | |- tracks _ _ _ _ ?p _ _ =>
      lazymatch p with
      | _ ≫= _ => apply tracks_bind
      | mret _ => apply tracks_ret
      | rd _ => apply (kept_rd _ same)
      | rd_pool _ _ => apply (kept_rd_pool _ same)
      | rd_cell _ _ _ => apply (kept_rd_cell _ same)
      | local _ => apply kept_local
      | choose (λ _, _) => apply (kept_choose _ _ _ SIGTERM); [reflexivity|]
      | choose _ => apply (kept_choose _ _ _ _ _ Ht)
      | iter _ _ => apply kept_iter
      | spin_lock => apply (kept_lock _ same)
      | spin_unlock => apply (kept_unlock _ same)
      | raise _ _ _ => apply (kept_raise _ same)
      | join _ _ => apply (kept_join _ same)
      | receive _ _ _ => apply (kept_receive _ same)
      | exit_thread _ => apply (kept_exit _ same)
      | notify _ => apply (kept_notify _ same)
      | sync_act _ => apply (kept_sync _ same)
      | mutex_lock _ => apply (kept_sync _ same)
      | mutex_unlock _ => apply (kept_sync _ same)
      | cond_signal => apply (kept_sync _ same)
      | barrier_init _ => apply (kept_sync _ same)
      | conditional_wait _ _ => unfold conditional_wait
      | poll => unfold poll
      | align _ => unfold align, align_turn
      | await_running _ => unfold await_running, await_turn
      | match ?x with _ => _ end => destruct x
      | let _ := _ in _ => cbn zeta
      end
  end.

(** ** Whole threads *)

Section writes.
Context (I : sys → Prop).
Context (I_same : ∀ s s', sy_ts s' = sy_ts s → sy_events s' = sy_events s → I s → I s').
(** The pools that the heap may hold and the clients may name, and the pools whose thread may
    change its flag word and call tasks. *)
Context (named working : Z → Prop).

(** What an event may say. *)
Definition event_ok (e : event) : Prop :=
  match e with Queued p _ _ => named p | Started p _ _ => working p | _ => True end.

Record kept_writes : Prop := {
  kw_heap s j a : I s → at_index (ts_dheaps (sy_ts s)) j = Some a → named (Z.of_nat a);
  kw_wr_heap s j a arr : I s → named (Z.of_nat a) → store (ts_dheaps (sy_ts s)) j a = Done arr →
    I (s <| sy_ts ::= λ ts, ts <| ts_dheaps := arr |> |>);
  kw_pool s p pool pool' : I s → at_index (ts_pools (sy_ts s)) p = Some pool →
    tp_package pool' = tp_package pool → tp_flag pool' = tp_flag pool ∨ working p →
    I (s <| sy_ts ::= λ ts, ts <| ts_pools ::= <[Z.to_nat p := pool']> |> |>);
  kw_flag s f : I s → I (s <| sy_ts ::= λ ts, ts <| ts_flag ::= f |> |>);
  kw_event s e : I s → event_ok e → I (s <| sy_events ::= λ es, es ++ [e] |>);
}.
Context (Hkw : kept_writes) (clock : Z → bool) (t : Z) (Ht : clock t = true).

#[local] Abbreviation tr := (tracks (kept_inv I) (λ _ _ _, True) True).
Implicit Types (Q : Z → () → Prop).

Lemma kept_rd_dheap i j Q : (∀ a, 0 <= a → named a → Q a tt) → tr i (rd_dheap j) tt Q.
Proof.
  intros HQ. apply kept_act. intros s z s' Hs. unfold read_or_fault.
  destruct (at_index (ts_dheaps (sy_ts s)) j) as [a|] eqn:Ha; [|done]. intros [= <- <-].
  split; [done|]. apply HQ; [lia|]. eapply kw_heap; eauto.
Qed.

Lemma kept_wr_dheap i j a Q : 0 <= a → named a → Q 0 tt → tr i (wr_dheap j a) tt Q.
Proof.
  intros H0 Ha HQ. apply kept_act. intros s z s' Hs. unfold write_or_fault.
  destruct (store _ _ _) as [arr| | |] eqn:Harr; try done. cbn. intros [= <- <-].
  split; [|done]. eapply (kw_wr_heap Hkw); [done| |exact Harr]. by rewrite Z2Nat.id.
Qed.

Lemma kept_wr_pool i p f Q :
  (∀ pool, tp_package (f pool) = tp_package pool) → (∀ pool, tp_flag (f pool) = tp_flag pool) ∨ working p → Q 0 tt → tr i (wr_pool p f) tt Q.
Proof.
  intros Hk Hf HQ. apply kept_act. intros s z s' Hs. unfold write_or_fault.
  destruct (at_index _ _) as [pool|] eqn:Hp; cbn; [|done]. intros [= <- <-]. split; [|done].
  eapply (kw_pool Hkw); [done|done|apply Hk|]. destruct Hf; auto.
Qed.

Lemma kept_wr_cell i p c f Q : Q 0 tt → tr i (wr_cell p c f) tt Q.
Proof.
  intros HQ. apply kept_act. intros s z s' Hs. unfold write_or_fault.
  destruct (at_index _ _) as [pool|] eqn:Hp; [|done]. cbn. destruct (at_index _ c); [|done].
  intros [= <- <-]. split; [|done]. eapply (kw_pool Hkw); [done..|by left].
Qed.

Lemma kept_wr_flag i f Q : Q 0 tt → tr i (wr_flag f) tt Q.
Proof. intros HQ. apply kept_act. intros s z s' Hs [= <- <-]. split; [by apply (kw_flag Hkw)|done]. Qed.

Lemma kept_log i e Q : event_ok e → Q 0 tt → tr i (log e) tt Q.
Proof. intros He HQ. apply kept_act. intros s z s' Hs [= <- <-]. split; [by apply (kw_event Hkw)|done]. Qed.

Lemma kept_log_started i p c callback Q : working p → Q 0 tt → tr i (log_started p c callback) tt Q.
Proof.
  intros Hp HQ. apply kept_act. intros s z s' Hs. destruct (_ ≫= _) as [x|]; [|done].
  case_decide; [done|]. intros [= <- <-]. split; [by apply (kw_event Hkw)|done].
Qed.

Lemma kept_store i p c x Q : Q 0 tt → tr i (store_task p c x) tt Q.
Proof.
  intros HQ. apply kept_act. intros s z s' Hs. unfold store_task.
  destruct (at_index _ p) as [pool|] eqn:Hp; [|done]. cbn. destruct (at_index _ c); [|done].
  intros [= <- <-]. split; [|done].
  refine (kw_event Hkw (s <| sy_ts ::= λ ts, ts <| ts_pools ::= <[Z.to_nat p := write_cell c x pool]> |> |>) _ _ _); [|done].
  eapply (kw_pool Hkw); [done..|by left].
Qed.

Lemma kept_count i p size x Q : named p → Q 0 tt → tr i (count_task p size x) tt Q.
Proof.
  intros Hn HQ. apply kept_act. intros s z s' Hs. unfold count_task.
  destruct (at_index _ p) as [pool|] eqn:Hp; [|done]. intros [= <- <-]. split; [|done].
  refine (kw_event Hkw (s <| sy_ts ::= λ ts, ts <| ts_pools ::= <[Z.to_nat p := pool <| tp_size := size |>]> |> |>) _ _ _); [|done].
  eapply (kw_pool Hkw); [done..|by left].
Qed.

(** Walk through a program, access by access. *)
Ltac walk :=
  repeat first [kept_step I_same Ht | lazymatch goal with
  | |- tracks _ _ _ _ ?p _ _ =>
      lazymatch p with
      | rd_dheap _ => apply kept_rd_dheap
      | wr_pool _ _ => apply kept_wr_pool; [done|auto|]
      | wr_cell _ _ _ => apply kept_wr_cell
      | wr_dheap _ _ => apply kept_wr_dheap; [done..|]
      | wr_flag _ => apply kept_wr_flag
      | log _ => apply kept_log; [done|]
      | log_started _ _ _ => apply kept_log_started; [done|]
      | store_task _ _ _ => apply kept_store
      | count_task _ _ _ => apply kept_count; [done|]
      end
  end].

Lemma kept_min_child i child mc mi (Q : Z * option Z → () → Prop) :
  (∀ x, Q x tt) → tr i (min_child_at child mc mi) tt Q.
Proof.
  intros HQ. revert mc mi. induction child as [|c child IH]; intros mc mi; cbn [min_child_at]; [apply HQ|].
  unfold heap_key_at. walk; apply IH.
Qed.

Lemma kept_heapify i (Q : () → () → Prop) : Q () tt → tr i heapify_all tt Q.
Proof.
  intros HQ. unfold heapify_all. walk. generalize (heapify_indices (a ÷ SCH_HEAP_BREATH)). intros idxs.
  induction idxs as [|j idxs IH]; cbn [heapify_from]; [done|]. unfold restore_down, restore_turn.
  walk. apply kept_min_child. intros []. walk; exact IH.
Qed.

Lemma kept_submit_pool i p pkg Q : named p → (∀ z, Q z tt) → tr i (submit_pool p pkg) tt Q.
Proof. intros Hp HQ. unfold submit_pool, enqueue. walk; apply HQ. Qed.

(** A client that names such pools only. *)
Definition names_ok (op : client_op) : Prop :=
  match op with CSubmit _ (Some p) => named p | _ => True end.

Lemma kept_client i w ops : Forall names_ok ops → tr i (client w ops) tt (λ _ _, True).
Proof.
  intros Hops. induction Hops as [|op ops Hop _ IH]; cbn [client]; [done|]. apply tracks_bind.
  destruct op as [pkg [p|]| | |]; cbn [client_call];
    unfold submit, stop_all, terminate_all, wait_all, wait_turn, stop_turn, terminate_turn, destroy.
  - walk; try exact IH. apply kept_heapify. walk. by apply kept_submit_pool.
  - walk; try exact IH. apply kept_heapify. walk. by apply kept_submit_pool.
  - walk; exact IH.
  - walk; exact IH.
  - walk; exact IH.
Qed.

Lemma kept_worker i p : working p → tr i (pool_thread clock p) tt (λ _ _, True).
Proof.
  intros Hp. unfold pool_thread, hook, worker_turn, sleep_turn, signal_wait, dequeue, set_flag. walk.
Qed.

(** A run keeps the invariant; the threads of other pools are seen to on their own. *)
Lemma kept_steps clients n s ps s' :
  Forall (Forall names_ok) clients →
  (∀ p, (p < n)%nat → working (Z.of_nat p) ∨ tr (length clients + p)%nat (pool_thread clock (Z.of_nat p)) tt (λ _ _, True)) →
  I s → rtc sys_step (threads clock clients n, s) (ps, s') → I s'.
Proof.
  intros Hclients Hworkers Hs Hsteps.
  assert (tracked (kept_inv I) (λ _ _ _, True) True (λ _ _, True) (threads clock clients n, s)) as Hc.
  { exists (replicate (length (threads clock clients n)) ()). split_and!; [done|by rewrite length_replicate|].
    cbn. intros i p [] Hp _. unfold threads in Hp. apply lookup_app_Some in Hp as [Hp|[Hge Hp]].
    - rewrite list_lookup_imap in Hp. destruct (clients !! i) as [ops|] eqn:Hi; [|done]. injection Hp as <-.
      apply kept_client. by apply (proj1 (Forall_lookup _ _) Hclients i).
    - rewrite length_imap in *. rewrite list_lookup_fmap in Hp.
      destruct (seqZ _ _ !! _) as [z|] eqn:Hz; [|done]. injection Hp as <-.
      apply lookup_seqZ in Hz as [-> Hz].
      destruct (Hworkers (i - length clients)%nat) as [?|Hw]; [lia|by apply kept_worker|].
      by replace (length clients + (i - length clients))%nat with i in Hw by lia. }
  by destruct (tracked_steps _ _ _ _ _ _ Hc Hsteps) as (ls & Hs' & _).
Qed.
End writes.
