(* ===== verification/Races.v ===== *)
(** * Races of the interleaved scheduler

    Runs that no caller wants: a pool lost from the heap, a wait that returns early and one
    that never returns, two tasks that no pool is woken for, and a signal to a thread that was
    joined. *)
From S2P Require Import Prelude Errors Flags Structures Heapify TaskQueue Platform Executor Threads.
From S2P Require Import System ExecutorFacts Concurrency SystemQueue SystemInv SystemLife SystemTracks SystemCalls SystemSafe SystemBounds SystemRuns Kept.

(** ** A pool that is lost from the heap *)

Section lost.
(** Pool [q], to which the tasks [h] were submitted. *)
Context (q : nat) (h : list schTaskPackage).

Definition lost (s : sys) : Prop :=
  (q ∉ ts_dheaps (sy_ts s)) ∧ queued (Z.of_nat q) (sy_events s) = h.

Lemma lost_same s s' : sy_ts s' = sy_ts s → sy_events s' = sy_events s → lost s → lost s'.
Proof. unfold lost. by intros -> ->. Qed.

Lemma lost_kept : kept_writes lost (λ p, p ≠ Z.of_nat q) (λ _, True).
Proof.
  split.
  - intros s j a [Hq _] Ha ->%Nat2Z.inj. apply Hq. apply at_index_Some in Ha as [_ Ha].
    by eapply list_elem_of_lookup_2.
  - intros s j a arr [Hq Hh] Ha. unfold store. case_decide; [|done]. intros [= <-]. split; [|done]. cbn.
    intros [k Hk]%list_elem_of_lookup. apply list_lookup_insert_Some in Hk as [(_ & -> & _)|[_ Hk]]; [done|].
    by apply Hq, list_elem_of_lookup; exists k.
  - by intros s p pool pool' Hs _ _ _.
  - by intros s f Hs.
  - intros s e [Hq Hh] He. split; [done|]. cbn -[queued]. rewrite queued_app, Hh.
    destruct e; cbn; rewrite ?app_nil_r; try done. by rewrite decide_False, app_nil_r.
Qed.
End lost.

(** A client that does not name pool [q]. *)
Definition elsewhere (q : nat) (op : client_op) : Prop :=
  match op with CSubmit _ (Some p) => p ≠ Z.of_nat q | _ => True end.

Lemma lost_forever clock t clients n s q ps s' :
  clock t = true → Forall (Forall (elsewhere q)) clients → (q ∉ ts_dheaps (sy_ts s)) →
  rtc sys_step (threads clock clients n, s) (ps, s') →
  (q ∉ ts_dheaps (sy_ts s')) ∧
  queued (Z.of_nat q) (sy_events s') = queued (Z.of_nat q) (sy_events s).
Proof.
  intros Ht Hops Hq Hsteps.
  apply (kept_steps (lost q (queued (Z.of_nat q) (sy_events s))) (lost_same q _) _ _ (lost_kept q _)
    clock t Ht clients n s ps s'); [done|by left|by split|done].
Qed.

(** Two clients submit to three pools with priorities 500, 10 and 20.  The first one has read
    the two pools it is about to swap; the second submits twice, which moves both of them. *)
Definition heap_race_end : sys :=
  Eval vm_compute in
    (demo_run [[demo_submit]; [demo_submit; demo_submit]] [500; 10; 20]
       [by_steps 0 14; by_steps 1 70; by_steps 0 19]).2.

(** C20: [schHeapify] is not protected by the lock.  Two clients that submit at the same time
    can leave one pool twice in [dheap] and another one not at all; and the pool that is lost
    is lost for ever: whatever the clients do next, it never gets another task unless a caller
    names it. *)
Theorem heap_race ops1 ops2 :
  ts_dheaps (sy_ts heap_race_end) = [1; 0; 1]%nat ∧
  reaches demo_clock [demo_submit :: ops1; demo_submit :: demo_submit :: ops2] (demo_sys [500; 10; 20])
    (threads demo_clock [ops1; ops2] 3) heap_race_end ∧
  ∀ ps s, Forall (elsewhere 2) (ops1 ++ ops2) →
    rtc sys_step (threads demo_clock [ops1; ops2] 3, heap_race_end) (ps, s) →
    (2%nat ∉ ts_dheaps (sy_ts s)) ∧ queued 2 (sy_events s) = queued 2 (sy_events heap_race_end).
Proof.
  split; [done|]. split.
  - apply (exec_steps [by_steps 0 14; by_steps 1 70; by_steps 0 19]). reflexivity.
  - intros ps s [Hops1 Hops2]%Forall_app Hsteps. refine (lost_forever demo_clock 0 _ _ _ 2 _ _ eq_refl _ _ Hsteps).
    + by repeat constructor.
    + by apply (bool_decide_unpack _).
Qed.

(** One client submits a task and waits.  The worker has been woken once before and found
    nothing, so that its word says SLEEP while it is awake; it takes the task, and the
    client finds the pool asleep with an empty queue. *)
Definition early_wait_end : sys :=
  Eval vm_compute in
    (demo_run [[demo_submit; CWait]] [0] [by_steps 1 17; by_steps 0 30; by_steps 1 13; by_steps 0 7]).2.

(** C23: [schWaitTask] can return while the last task is still running: the pool thread has
    woken with the SLEEP bit set, and has taken the task from the queue. *)
Theorem wait_returns_early :
  (∃ ps, reaches demo_clock [[demo_submit; CWait]] (demo_sys [0]) ps early_wait_end ∧
     ps !! 0%nat = Some (Ret ())) ∧
  sy_events early_wait_end = [Stored 0 1; Queued 0 demo_task 1; Started 0 77 demo_task; Waited].
Proof.
  split; [|done].
  eexists. split.
  - exact (demo_reaches [[demo_submit; CWait]] [0] [by_steps 1 17; by_steps 0 30; by_steps 1 13; by_steps 0 7]).
  - reflexivity.
Qed.

(** ** A state that nothing changes *)

Section stays.
(** The state is [e]; the mutex, the condition and the barrier may be as [free] says. *)
Context (e : sys) (free : sync → Prop).
Definition stays (s : sys) (_ : list ()) : Prop := free (sy_sync s) ∧ s <| sy_sync := sy_sync e |> = e.
#[local] Abbreviation tr := (tracks stays (λ _ _ _, True) False).

Lemma stays_start ls : free (sy_sync e) → stays e ls.
Proof. intros Hf. split; [done|]. by destruct e. Qed.

Lemma stays_state s ls : stays s ls → s = e <| sy_sync := sy_sync s |>.
Proof. intros [_ Hs]. revert Hs. generalize e. clear. intros e <-. by destruct s. Qed.

Lemma stays_read i f z (Q : Z → () → Prop) :
  f (sy_ts e) = Some z → Q z tt → tr i (act (read_or_fault f)) tt Q.
Proof.
  intros Hf HQ. apply tracks_act. intros s ls Hs _. pose proof (stays_state s ls Hs) as He.
  assert (sy_ts s = sy_ts e) as Hts by by rewrite He. unfold read_or_fault. rewrite Hts, Hf. by exists tt.
Qed.

Lemma stays_sync i f (Q : Z → () → Prop) : (∀ y, free y) → Q 0 tt → tr i (sync_act f) tt Q.
Proof.
  intros Hfree HQ. apply tracks_act. intros s ls [_ Hs] _. destruct (f _); [|done].
  exists tt. split; [|done]. split; [apply Hfree|]. rewrite <-Hs at 2. by destruct s.
Qed.

Lemma stays_poll i (Q : Z → () → Prop) : (∀ z, Q z tt) → tr i poll tt Q.
Proof. intros HQ. split; [by exists 0|]. intros z _. apply HQ. Qed.

Definition blocked (s : sys) (th : proc sys ()) : bool :=
  match th with Act f _ => if f s is Blocks then true else false | _ => false end.

Lemma stays_blocked i th (Q : () → () → Prop) :
  (∀ y, blocked (e <| sy_sync := y |>) th = true) → tr i th tt Q.
Proof.
  intros Hb. destruct th as [a| |f k|ok k|X x body k]; try by specialize (Hb (sy_sync e)).
  intros s ls Hs _. specialize (Hb (sy_sync s)). rewrite <-(stays_state s ls Hs) in Hb.
  cbn in Hb. by destruct (f s).
Qed.

Lemma stays_steps ps ps' s' Post :
  tracked stays (λ _ _ _, True) False Post (ps, e) → rtc sys_step (ps, e) (ps', s') →
  stays s' [] ∧ tracked stays (λ _ _ _, True) False Post (ps', s').
Proof.
  intros Hc Hsteps. pose proof (tracked_steps _ _ _ _ _ _ Hc Hsteps) as Hc'.
  split; [|done]. by destruct Hc' as (ls & Hs & _).
Qed.
End stays.

Ltac stays_worker :=
  match goal with |- tracks _ _ _ _ ?th _ _ => let th := eval hnf in th in apply (stays_blocked _ _ 1 th) end.

(** The same calls; the worker was asleep for the second time when the task came, runs it,
    and goes to sleep for the third time. *)
Definition endless_wait_run : config sys :=
  demo_run [[demo_submit; CWait]] [0] [by_steps 1 28; by_steps 0 30; by_steps 1 30].

Lemma endless_wait_tracked :
  tracked (stays endless_wait_run.2 (λ y, y = sy_sync endless_wait_run.2)) (λ _ _ _, True) False (λ _ _, False) endless_wait_run.
Proof.
  exists [tt; tt]. split_and!; [exact (stays_start _ _ _ eq_refl)|reflexivity|].
  intros [|[|i]] p [] Hp Hi; [| |discriminate Hi]; apply (inj Some) in Hp; rewrite <-Hp.
  - exists (λ y _, y = 0). split; [done|]. intros y [] ->. unfold wait_turn.
    apply tracks_bind, (stays_read _ _ _ _ 1); [reflexivity|]. cbn -[tracks rd_pool has poll].
    apply tracks_bind, (stays_read _ _ _ _ 0); [reflexivity|].
    by apply tracks_bind, stays_poll.
  - stays_worker. intros y. reflexivity.
Qed.

(** C24: [schWaitTask] can wait for ever although all is done: the only task has been run, the
    pool thread sleeps with the SLEEP bit clear, and from this state the client never returns
    and nothing ever changes. *)
Theorem wait_never_returns :
  reaches demo_clock [[demo_submit; CWait]] (demo_sys [0]) endless_wait_run.1 endless_wait_run.2 ∧
  sy_events endless_wait_run.2
  = [Stored 0 1; Queued 0 demo_task 1; Started 0 77 demo_task; Finished 0] ∧
  ∀ ps s, rtc sys_step endless_wait_run (ps, s) → s = endless_wait_run.2 ∧ ps !! 0%nat ≠ Some (Ret ()).
Proof.
  split; [apply demo_reaches|]. split; [reflexivity|]. intros ps s Hsteps.
  destruct (tracked_steps _ _ _ _ _ _ endless_wait_tracked Hsteps) as (ls & Hs & Hl & Hls). cbn [fst snd] in *.
  split; [rewrite (stays_state _ _ _ _ Hs), (proj1 Hs); by destruct (endless_wait_run.2)|]. intros Hp.
  destruct (lookup_lt_is_Some_2 ls 0) as [ℓ Hℓ]; [rewrite Hl; by eapply lookup_lt_Some|].
  exact (Hls 0%nat _ ℓ Hp Hℓ).
Qed.

(** ** Tasks that nobody is woken for *)

(** The worker sleeps for the second time, with SLEEP set.  Two clients submit: both count
    their tasks before either looks at the size of the queue. *)
Definition unheard_schedule : list (nat * nat * Z) :=
  [by_steps 2 28; by_steps 0 19; by_steps 1 19; by_steps 0 1; by_steps 1 1].
Definition unheard_start (ops1 ops2 : list client_op) : config sys :=
  (threads demo_clock [demo_submit :: ops1; demo_submit :: ops2] 1, demo_sys [0]).
Definition unheard_end : sys := Eval vm_compute in (run unheard_schedule (unheard_start [] [])).2.
Definition unheard_worker : proc sys () :=
  default (mret ()) ((run unheard_schedule (unheard_start [] [])).1 !! 2%nat).

Definition unheard_threads (ops1 ops2 : list client_op) : list (proc sys ()) :=
  [client (Client 0) ops1; client (Client 1) ops2; unheard_worker].

(** Calls that wake nobody by themselves. *)
Definition submit_or_wait (op : client_op) : Prop :=
  match op with CSubmit _ None | CWait => True | CSubmit _ (Some p) => p = 0 | _ => False end.

Section unheard.
#[local] Abbreviation tr := (tracks (stays unheard_end (λ _, True)) (λ _ _ _, True) False).

Lemma unheard_heapify i (Q : () → () → Prop) : Q () tt → tr i heapify_all tt Q.
Proof.
  intros HQ. unfold heapify_all. apply tracks_bind, (stays_read _ _ _ _ 1); [reflexivity|].
  apply tracks_bind. eapply tracks_local; [reflexivity|].
  change (heapify_indices _) with [0]. cbn [heapify_from]. apply tracks_bind.
  apply (tracks_iter _ _ _ (λ y _, y = 0)); [done|]. intros y [] ->. unfold restore_turn.
  apply tracks_bind. eapply tracks_local; [reflexivity|]. exact HQ.
Qed.

Lemma unheard_submit i pkg pPool (Q : Z → () → Prop) :
  submit_or_wait (CSubmit pkg pPool) → (∀ z, Q z tt) → tr i (submit pkg pPool) tt Q.
Proof.
  intros Hp HQ. unfold submit.
  apply tracks_bind, (stays_read _ _ _ _ (Z.lor SCH_FLAG_INIT SCH_FLAG_RUNNING)); [reflexivity|].
  assert (negb (has (Z.lor SCH_FLAG_INIT SCH_FLAG_RUNNING) SCH_FLAG_RUNNING) = false) as -> by reflexivity.
  apply tracks_bind, (stays_read _ _ _ _ (Z.lor SCH_FLAG_INIT SCH_FLAG_RUNNING)); [reflexivity|].
  assert (negb (has (Z.lor SCH_FLAG_INIT SCH_FLAG_RUNNING) SCH_FLAG_INIT) = false) as -> by reflexivity.
  case_decide; [by apply tracks_ret|]. apply tracks_bind, unheard_heapify, tracks_bind.
  assert (tr i (submit_pool 0 pkg) tt Q) as Hpool.
  { apply tracks_bind, (stays_read _ _ _ _ 2); [reflexivity|].
    apply tracks_bind, (stays_read _ _ _ _ 2); [reflexivity|]. rewrite decide_True by done. by apply tracks_ret. }
  destruct pPool as [p|]; [apply tracks_ret; cbn in Hp; by rewrite Hp|].
  by apply (stays_read _ _ _ _ 0); [reflexivity|].
Qed.

Lemma unheard_wait i w (Q : Z → () → Prop) : tr i (wait_all w) tt Q.
Proof.
  unfold wait_all.
  apply tracks_bind, (stays_read _ _ _ _ (Z.lor SCH_FLAG_INIT SCH_FLAG_RUNNING)); [reflexivity|].
  assert (negb (has (Z.lor SCH_FLAG_INIT SCH_FLAG_RUNNING) SCH_FLAG_RUNNING) = false) as -> by reflexivity.
  apply tracks_bind, stays_sync; [done|]. apply tracks_bind.
  apply (tracks_iter _ _ _ (λ _ _, True)); [done|]. intros [] [] _. unfold await_turn.
  apply tracks_bind, (stays_read _ _ _ _ (Z.lor SCH_FLAG_INIT SCH_FLAG_RUNNING)); [reflexivity|].
  assert (has (Z.lor SCH_FLAG_INIT SCH_FLAG_RUNNING) SCH_FLAG_RUNNING = true) as -> by reflexivity.
  apply tracks_ret, tracks_bind, stays_sync; [done|].
  apply tracks_bind, (tracks_iter _ _ _ (λ y _, y = 0)); [done|]. intros y [] ->. unfold wait_turn.
  apply tracks_bind, (stays_read _ _ _ _ 1); [reflexivity|]. rewrite decide_False by lia.
  apply tracks_bind, (stays_read _ _ _ _ 6); [reflexivity|].
  assert (has 6 SCH_POOL_SLEEP = true) as -> by reflexivity.
  apply tracks_bind, (stays_read _ _ _ _ 2); [reflexivity|].
  by apply tracks_bind, stays_poll.
Qed.

Lemma unheard_client i w ops : Forall submit_or_wait ops → tr i (client w ops) tt (λ _ _, True).
Proof.
  intros Hops. induction Hops as [|op ops Hop _ IH]; cbn [client]; [done|]. apply tracks_bind.
  destruct op as [pkg pPool| | |]; [|apply unheard_wait|done..]. by apply unheard_submit.
Qed.

Lemma unheard_tracked ops1 ops2 :
  Forall submit_or_wait (ops1 ++ ops2) →
  tracked (stays unheard_end (λ _, True)) (λ _ _ _, True) False (λ _ _, True) (unheard_threads ops1 ops2, unheard_end).
Proof.
  intros [H1 H2]%Forall_app. exists [tt; tt; tt]. split_and!; [by apply stays_start|reflexivity|].
  intros [|[|[|i]]] p [] Hp Hi; [..|discriminate Hi]; apply (inj Some) in Hp; rewrite <-Hp.
  - by apply unheard_client.
  - by apply unheard_client.
  - apply stays_blocked. intros y. reflexivity.
Qed.
End unheard.

(** C25: two submits at the same time can miss each other: a submit wakes the pool only when it
    sees at most one task in the queue, which it reads outside the lock.  When both count their
    tasks before either reads, both answer SCH_OK, and the pool thread, which sleeps with SLEEP
    set, is not signalled.  From there nothing that the clients submit or wait for changes
    anything but the mutex of the waits: the two tasks never run, and further submits are
    refused. *)
Theorem two_submits_lost ops1 ops2 :
  sy_events unheard_end = [Stored 0 1; Queued 0 demo_task 1; Stored 0 2; Queued 0 demo_task 2] ∧
  reaches demo_clock [demo_submit :: ops1; demo_submit :: ops2] (demo_sys [0])
    (unheard_threads ops1 ops2) unheard_end ∧
  ∀ ps s, Forall submit_or_wait (ops1 ++ ops2) → rtc sys_step (unheard_threads ops1 ops2, unheard_end) (ps, s) →
    s <| sy_sync := sy_sync unheard_end |> = unheard_end.
Proof.
  split; [done|]. split.
  - apply (exec_steps unheard_schedule). reflexivity.
  - intros ps s Hops Hsteps. by destruct (stays_steps _ _ _ _ _ _ (unheard_tracked ops1 ops2 Hops) Hsteps) as [[_ ?] _].
Qed.

(** ** A submit beside a termination *)

(** A client terminates the scheduler: it has seen the pool idle.  Another one has counted its
    task and read the handle of the sleeping thread.  The first one stops and joins the thread. *)
Definition terminate_race_run : config sys :=
  demo_run [[CTerminate]; [demo_submit]] [0]
    [by_steps 2 28; by_steps 0 15; by_steps 1 22; by_steps 0 5; by_steps 2 6; by_steps 0 1].
Definition terminate_race_end : sys := Eval vm_compute in terminate_race_run.2.

(** The thread [th] is at an access that is undefined. *)
Definition faulting (s : sys) (th : proc sys ()) : bool :=
  match th with Act f _ => if f s is Faults then true else false | _ => false end.

Lemma faulting_faults s th : faulting s th = true → faults th s.
Proof. destruct th as [a| |f k|ok k|X x body k]; try done. cbn. by destruct (f s). Qed.

(** C26: [schTerminateTaskSch] excludes nobody: a submit that passed the check of RUNNING goes on
    beside it.  Its task can be counted after the wait of the termination, and its CONTINUE be
    sent to a thread that has been joined, which is undefined behaviour.  So a termination is
    safe only for a client that is alone, as in [system_safe]. *)
Theorem terminate_race :
  reaches demo_clock [[CTerminate]; [demo_submit]] (demo_sys [0]) terminate_race_run.1 terminate_race_end ∧
  sy_life terminate_race_end = [Joined] ∧
  sy_events terminate_race_end = [Waited; Stored 0 1; Queued 0 demo_task 1; Cleaned 0 88] ∧
  ∃ th, terminate_race_run.1 !! 1%nat = Some th ∧ faults th terminate_race_end.
Proof.
  split; [exact (demo_reaches [[CTerminate]; [demo_submit]] [0] _)|]. split; [done|]. split; [done|].
  assert (faulting terminate_race_end <$> terminate_race_run.1 !! 1%nat = Some true) as Hf by (vm_compute; reflexivity).
  destruct (terminate_race_run.1 !! 1%nat) as [th|]; [|discriminate Hf].
  exists th. split; [done|]. apply faulting_faults. by apply (inj Some).
Qed.

(** The first client goes on: it submits again, is refused, and waits. *)
Lemma two_submits_lost_witness :
  let c := run [by_steps 0 27] (unheard_threads [demo_submit; CWait] [], unheard_end) in
  c.2 <| sy_sync := sy_sync unheard_end |> = unheard_end ∧ length (sy_events c.2) = 4%nat ∧ c.1 !! 1%nat = Some (Ret ()).
Proof.
  split; [|by split].
  eapply (proj2 (proj2 (two_submits_lost [demo_submit; CWait] []))); [by repeat constructor|].
  rewrite <-surjective_pairing. apply run_steps.
Defined.

Lemma heap_race_witness :
  (2%nat ∉ ts_dheaps (sy_ts heap_race_end)) ∧ length (queued 2 (sy_events heap_race_end)) = 1%nat.
Proof.
  split; [|reflexivity].
  eapply (proj1 (proj2 (proj2 (heap_race [] [])) (threads demo_clock [[]; []] 3) _ (Forall_nil_2 _) (rtc_refl _ _))).
Defined.

