(* ===== verification/SystemAlone.v ===== *)
(** * A call that nobody interrupts

    The programs of System.v, run access by access without interruption, do what the
    sequential definitions say: [heapify_all] is [schHeapify], [enqueue] and [dequeue] are the
    critical section of [schQueueMutexEnDeQueue], and [submit] is [schSubmitTask]. *)
From S2P Require Import Prelude Errors Flags Structures Heapify TaskQueue Threads.
From S2P Require Import Platform Executor Scheduler SchedulerFacts Examples System.

(** ** Single accesses *)

Lemma alone_access {f : sys → access sys} {s z s'} : f s = Goes z s' → alone (act f) s z s'.
Proof. intros Hf. econstructor; [exact Hf|constructor]. Qed.

Lemma alone_read f s z : f (sy_ts s) = Some z → alone (act (read_or_fault f)) s z s.
Proof. intros Hf. apply alone_access. unfold read_or_fault. by rewrite Hf. Qed.

Lemma alone_write f s ts : f (sy_ts s) = Done ts → alone (act (write_or_fault f)) s 0 (s <| sy_ts := ts |>).
Proof. intros Hf. apply alone_access. unfold write_or_fault. by rewrite Hf. Qed.

Lemma alone_local {A} (o : outcome A) a (s : sys) : o = Done a → alone (local o) s a s.
Proof. intros ->. constructor. Qed.

Lemma alone_done {A} (a : A) (s s' : sys) : s = s' → alone (mret a) s a s'.
Proof. intros ->. constructor. Qed.

Lemma alone_stop {X : Set} {x : X} {body : X → proc sys (turn X)} {s z s'} :
  alone (body x) s (Stop z) s' → alone (iter x body) s z s'.
Proof. intros Hb. econstructor; [exact Hb|constructor]. Qed.

Lemma alone_again {X : Set} {x y : X} {body : X → proc sys (turn X)} {s s1 z s'} :
  alone (body x) s (Again y) s1 → alone (iter y body) s1 z s' → alone (iter x body) s z s'.
Proof. intros Hb Hr. econstructor; [exact Hb|exact Hr]. Qed.

(** ** [schHeapify] *)

Definition with_dheap (arr : list nat) (s : sys) : sys := s <| sy_ts ::= λ ts, ts <| ts_dheaps := arr |> |>.

Lemma with_dheap_same s : with_dheap (ts_dheaps (sy_ts s)) s = s.
Proof. by destruct s as [[] ?????]. Qed.

Section heap.
Implicit Types (s : sys).
#[local] Abbreviation ps s := (ts_pools (sy_ts s)).
#[local] Abbreviation hs s := (ts_dheaps (sy_ts s)).

Lemma alone_rd_dheap s i a : at_index (hs s) i = Some a → alone (rd_dheap i) s (Z.of_nat a) s.
Proof. intros Ha. apply alone_read. by rewrite Ha. Qed.

Lemma alone_wr_dheap s i a :
  0 <= i < Z.of_nat (length (hs s)) →
  alone (wr_dheap i (Z.of_nat a)) s 0 (with_dheap (<[Z.to_nat i := a]> (hs s)) s).
Proof. intros Hi. apply alone_write. by rewrite store_in, Nat2Z.id. Qed.

Lemma alone_rd_pool s p f pool : at_index (ps s) p = Some pool → alone (rd_pool p f) s (f pool) s.
Proof. intros Hp. apply alone_read. by rewrite Hp. Qed.

Lemma at_index_of_nat {A} (l : list A) i : at_index l (Z.of_nat i) = l !! i.
Proof. by rewrite at_index_nat, Nat2Z.id by lia. Qed.

Lemma alone_key s i a z :
  at_index (hs s) i = Some a → heap_key (ps s) (hs s) i = Done z →
  alone (rd_pool (Z.of_nat a) tp_dheapPriority) s z s.
Proof.
  unfold heap_key. intros Ha Hz. inv_done. injection Hz as <-.
  rewrite Ha in *. simplify_eq. apply alone_rd_pool. by rewrite at_index_of_nat.
Qed.

Lemma alone_heap_key s i z : heap_key (ps s) (hs s) i = Done z → alone (heap_key_at i) s z s.
Proof.
  intros Hz. pose proof Hz as Hz'. unfold heap_key in Hz'. inv_done. clear Hz'.
  eapply alone_bind; [by apply alone_rd_dheap|by eapply alone_key].
Qed.

Lemma alone_min_child s child mc mi r :
  find_min_child (ps s) (hs s) child mc mi = Done r → alone (min_child_at child mc mi) s r s.
Proof.
  revert mc mi. induction child as [|c child IH]; intros mc mi Hr; cbn [find_min_child min_child_at] in *.
  { injection Hr as <-. constructor. }
  destruct (decide (c ≠ -1)); [|by apply IH]. inv_done.
  eapply alone_bind; [by apply alone_heap_key|]. cbn beta. destruct (_ <? mc); [|by apply IH].
  eapply alone_bind; [by apply alone_heap_key|by apply IH].
Qed.

(** A turn of [restoreDown]: the exchange, or nothing. *)
Lemma alone_exchange s index m a b ka kb :
  at_index (hs s) index = Some a → at_index (hs s) m = Some b →
  alone (if kb <? ka then _ ← wr_dheap index (Z.of_nat b); wr_dheap m (Z.of_nat a) else mret 0) s 0
    (with_dheap (if kb <? ka then swap (Z.to_nat index) (Z.to_nat m) a b (hs s) else hs s) s).
Proof.
  intros [Hi Ha%lookup_lt_Some]%at_index_Some [Hm Hb%lookup_lt_Some]%at_index_Some. destruct (kb <? ka).
  - eapply alone_bind; [apply alone_wr_dheap; lia|].
    set (s1 := with_dheap _ s).
    assert (with_dheap (swap (Z.to_nat index) (Z.to_nat m) a b (hs s)) s
            = with_dheap (<[Z.to_nat m := a]> (hs s1)) s1) as -> by done.
    apply alone_wr_dheap. cbn. rewrite length_insert. lia.
  - rewrite with_dheap_same. constructor.
Qed.

Lemma alone_restoreDown fuel len k index s arr :
  restoreDown fuel (ps s) (hs s) len index k = Done arr →
  alone (restore_down len index k) s 0 (with_dheap arr s).
Proof.
  unfold restore_down. revert s index. induction fuel as [|fuel IH]; intros s index Hr; [done|].
  cbn [restoreDown] in Hr. apply outcome_bind_Done in Hr as (child & Hc & Hr).
  apply outcome_bind_Done in Hr as ([mc mi] & Hm & Hr).
  assert (∀ t s1, alone (if mc =? LONG_MAX then mret (Stop 0) else
      m ← local (deref mi); a ← rd_dheap index; b ← rd_dheap m;
      ka ← rd_pool a tp_dheapPriority; kb ← rd_pool b tp_dheapPriority;
      _ ← (if kb <? ka then _ ← wr_dheap index b; wr_dheap m a else mret 0); mret (Again m)) s t s1 →
    alone (restore_turn len k index) s t s1) as Hturn.
  { intros t s1 Ht. eapply alone_bind; [by apply alone_local|].
    eapply alone_bind; [by apply alone_min_child|exact Ht]. }
  destruct (mc =? LONG_MAX).
  { injection Hr as <-. rewrite with_dheap_same. eapply alone_stop, Hturn. constructor. }
  apply outcome_bind_Done in Hr as (m & Hmi & Hr). apply outcome_bind_Done in Hr as (a & Ha & Hr).
  apply outcome_bind_Done in Hr as (b & Hb & Hr). apply outcome_bind_Done in Hr as (ka & Hka & Hr).
  apply outcome_bind_Done in Hr as (kb & Hkb & Hr). apply deref_Done in Ha. apply deref_Done in Hb.
  eapply alone_again.
  - apply Hturn. eapply alone_bind; [by apply alone_local|].
    eapply alone_bind; [by apply alone_rd_dheap|]. eapply alone_bind; [by apply alone_rd_dheap|].
    eapply alone_bind; [by eapply alone_key|]. eapply alone_bind; [by eapply alone_key|].
    eapply alone_bind; [by apply alone_exchange|constructor].
  - change (with_dheap arr s) with (with_dheap arr (with_dheap
      (if kb <? ka then swap (Z.to_nat index) (Z.to_nat m) a b (hs s) else hs s) s)).
    apply IH. exact Hr.
Qed.

Lemma alone_heapify_from fuel n idxs s arr :
  heapify_loop fuel (ps s) n idxs (hs s) = Done arr →
  alone (heapify_from n idxs) s () (with_dheap arr s).
Proof.
  revert s. induction idxs as [|i idxs IH]; intros s Hr; cbn [heapify_loop heapify_from] in *.
  { injection Hr as <-. rewrite with_dheap_same. constructor. }
  apply outcome_bind_Done in Hr as (arr1 & H1 & Hr).
  eapply alone_bind; [by eapply alone_restoreDown|].
  change (with_dheap arr s) with (with_dheap arr (with_dheap arr1 s)). apply IH. exact Hr.
Qed.
End heap.

Lemma heapify_alone s ts :
  schHeapify (sy_ts s) = Done ts → alone heapify_all s () (s <| sy_ts := ts |>).
Proof.
  unfold schHeapify, schHeapify_fuel. intros H. apply outcome_bind_Done in H as (arr & H & [= <-]).
  apply outcome_bind_Done in H as (n1 & Hn1 & H).
  eapply alone_bind; [by apply alone_read|]. eapply alone_bind; [by apply alone_local|].
  change (alone (heapify_from (s32 (ts_num (sy_ts s))) (heapify_indices (n1 `quot` SCH_HEAP_BREATH)))
    s () (with_dheap arr s)). by eapply alone_heapify_from.
Qed.

(** ** [schQueueMutexEnDeQueue] *)

Definition with_pool (p : Z) (pool : schTaskPool) (s : sys) : sys :=
  s <| sy_ts ::= λ ts, ts <| ts_pools ::= <[Z.to_nat p := pool]> |> |>.
Definition pool_at (s : sys) (p : Z) : option schTaskPool := at_index (ts_pools (sy_ts s)) p.

Lemma pool_at_with p pool pool' s : pool_at s p = Some pool → pool_at (with_pool p pool' s) p = Some pool'.
Proof.
  unfold pool_at. intros [Hp Hl]%at_index_Some. cbn. rewrite at_index_nat by lia.
  apply list_lookup_insert_eq. by eapply lookup_lt_Some.
Qed.

Lemma with_pool_twice p pool1 pool2 s : with_pool p pool2 (with_pool p pool1 s) = with_pool p pool2 s.
Proof.
  destruct s as [[] ?????]. unfold with_pool. cbn. do 2 f_equal. apply list_insert_insert_eq.
Qed.

Lemma alone_pool_read s p f pool : pool_at s p = Some pool → alone (rd_pool p f) s (f pool) s.
Proof. apply alone_rd_pool. Qed.

Lemma alone_pool_write s p f pool :
  pool_at s p = Some pool → alone (wr_pool p f) s 0 (with_pool p (f pool) s).
Proof. intros Hp. apply alone_write. unfold pool_at in Hp. by rewrite Hp. Qed.

Lemma alone_lock s : sy_spin s = false → alone spin_lock s 0 (s <| sy_spin := true |>).
Proof. intros Hs. apply alone_access. by rewrite Hs. Qed.

(** The pool [p] after the critical section, and the entries of the history. *)
Definition enqueued (p : Z) (x : schTaskPackage) (size : Z) (pool : schTaskPool) (s : sys) : sys :=
  (with_pool p pool s) <| sy_events ::= λ es, es ++ [Stored p size; Queued p x (tp_size pool)] |>.

Lemma alone_store s p c x pool :
  pool_at s p = Some pool → 0 <= c < Z.of_nat (length (tp_packages pool)) →
  alone (store_task p c x) s 0
    ((with_pool p (write_cell c x pool) s) <| sy_events ::= λ es, es ++ [Stored p (tp_size pool + 1)] |>).
Proof.
  intros Hp Hc. apply alone_access. unfold pool_at in Hp. rewrite Hp. cbn -[at_index].
  destruct (at_index_is_Some (tp_packages pool) c) as [y Hy]; [lia|]. by rewrite Hy.
Qed.

Lemma alone_count s p size x pool :
  pool_at s p = Some pool →
  alone (count_task p size x) s 0
    ((with_pool p (pool <| tp_size := size |>) s) <| sy_events ::= λ es, es ++ [Queued p x size] |>).
Proof. intros Hp. apply alone_access. unfold pool_at in Hp. by rewrite Hp. Qed.

Lemma enqueue_alone s p x pool ptr pool' :
  sy_spin s = false → pool_at s p = Some pool →
  queue_critical pool 0 (Some x) = Done (ptr, pool') →
  ptr = Argument ∧ alone (enqueue p x) s () (enqueued p x (tp_size pool + 1) pool' s).
Proof.
  intros Hspin Hp Hq. cbn -[umod store] in Hq. apply outcome_bind_Done in Hq as (pk & Hpk & Hq).
  apply outcome_bind_Done in Hq as (tail & Ht & [= <- <-]). split; [done|]. cbn in Ht.
  unfold store in Hpk. case_decide as Hc; [|done]. injection Hpk as <-.
  eapply alone_bind; [by apply alone_lock|]. set (s0 := s <| sy_spin := true |>).
  assert (pool_at s0 p = Some pool) as Hp0 by done.
  eapply alone_bind; [by apply alone_pool_read|].
  eapply alone_bind; [by apply alone_store|]. set (s1 := set sy_events _ _).
  assert (pool_at s1 p = Some (write_cell (tp_tail pool) x pool)) as Hp1 by (by apply (pool_at_with p pool)).
  eapply alone_bind; [by apply alone_pool_read|]. eapply alone_bind; [by apply alone_pool_read|].
  eapply alone_bind; [by apply alone_local|].
  eapply alone_bind; [by apply alone_pool_write|]. set (s2 := with_pool p _ s1).
  assert (pool_at s2 p = Some ((write_cell (tp_tail pool) x pool) <| tp_tail := tail |>)) as Hp2
    by (by eapply pool_at_with).
  eapply alone_bind; [by apply alone_pool_read|]. eapply alone_bind; [by apply alone_count|].
  eapply alone_bind; [by apply alone_access|].
  eapply alone_done. unfold s2, s1, s0, enqueued, with_pool. destruct s as [[] sp pe te li es]. cbn in *. subst sp.
  by rewrite !list_insert_insert_eq, <-app_assoc.
Qed.

Lemma dequeue_alone s p pool ptr pool' :
  sy_spin s = false → pool_at s p = Some pool →
  queue_critical pool 1 None = Done (ptr, pool') →
  ∃ h, ptr = Cell h ∧ alone (dequeue p) s h (with_pool p pool' s).
Proof.
  intros Hspin Hp Hq. cbn -[umod] in Hq. apply outcome_bind_Done in Hq as (head & Hh & [= <- <-]).
  exists (tp_head pool). split; [done|]. cbn in Hh.
  eapply alone_bind; [by apply alone_lock|]. set (s0 := s <| sy_spin := true |>).
  assert (pool_at s0 p = Some pool) as Hp0 by done.
  eapply alone_bind; [by apply alone_pool_read|].
  eapply alone_bind; [by apply alone_pool_write|]. set (s1 := with_pool p _ s0).
  assert (pool_at s1 p = Some (pool <| tp_size := u32 (tp_size pool - 1) |>)) as Hp1 by (by eapply pool_at_with).
  eapply alone_bind; [by apply alone_pool_read|]. eapply alone_bind; [by apply alone_pool_read|].
  eapply alone_bind; [by apply alone_pool_read|]. eapply alone_bind; [by apply alone_local|].
  eapply alone_bind; [by apply alone_pool_write|]. eapply alone_bind; [by apply alone_access|].
  eapply alone_done. unfold s1, s0, with_pool. destruct s as [[] sp pe te li es]. cbn in *. subst sp.
  by rewrite !list_insert_insert_eq.
Qed.

(** ** [schSubmitTask] *)

Section submit.
Context {W : Type} `{Posix W}.
Implicit Types (s : sched W) (y : sys).

(** The two models agree, and the lock is free. *)
Definition same (s : sched W) (y : sys) : Prop := sy_ts y = sc_ts s ∧ sy_spin y = false.

(** Every pool has a thread that can be signalled. *)
Definition live (y : sys) : Prop := ∀ p pool, pool_at y p = Some pool →
  tp_thread pool ≠ NULL ∧ ∃ t, at_index (sy_life y) p = Some t ∧ t ≠ Joined.

Lemma live_with_pool y y' p pool pool' :
  live y → pool_at y p = Some pool → tp_thread pool' = tp_thread pool →
  ts_pools (sy_ts y') = <[Z.to_nat p := pool']> (ts_pools (sy_ts y)) → sy_life y' = sy_life y → live y'.
Proof.
  intros Hl Hp Ht Hps Hlf q pool1. unfold pool_at. rewrite Hps, Hlf.
  intros [Hq0 Hq]%at_index_Some. pose proof Hp as [Hp0 _]%at_index_Some.
  apply list_lookup_insert_Some in Hq as [(Hpq & <- & _)|[_ Hq]].
  - assert (q = p) as -> by lia. rewrite Ht. by apply Hl.
  - apply Hl. unfold pool_at. by rewrite at_index_nat.
Qed.

Lemma critical_thread pool x ptr pool' :
  queue_critical pool 0 (Some x) = Done (ptr, pool') → tp_thread pool' = tp_thread pool.
Proof.
  intros Hq. cbn -[umod store] in Hq. apply outcome_bind_Done in Hq as (pk & Hpk & Hq).
  by apply outcome_bind_Done in Hq as (tail & Ht & [= <- <-]).
Qed.

Lemma plat_same {A} (m : M (env W) A) s a s' : plat m s = Done (a, s') → sc_ts s' = sc_ts s.
Proof.
  unfold plat. intros Hm. apply outcome_bind_Done in Hm as ([a' e] & _ & Hm). by injection Hm as <- <-.
Qed.

Lemma get_pool_Done i s pool s' :
  get_pool i s = Done (pool, s') → s' = s ∧ at_index (ts_pools (sc_ts s)) i = Some pool.
Proof.
  unfold get_pool. intros Hg. apply M_bind_Done in Hg as (pools & s1 & [= <- <-] & Hg).
  apply outcome_bind_Done in Hg as (p & Hp & [= <- <-]). by apply deref_Done in Hp.
Qed.

Lemma set_pool_Done i f s u s' :
  set_pool i f s = Done (u, s') → ∃ pool, at_index (ts_pools (sc_ts s)) i = Some pool ∧
    sc_ts s' = (sc_ts s) <| ts_pools ::= <[Z.to_nat i := f pool]> |>.
Proof.
  unfold set_pool. intros Hs. apply M_bind_Done in Hs as (pool & s1 & Hg & [= <- <-]).
  apply get_pool_Done in Hg as [-> Hg]. eauto.
Qed.

Lemma queue_Done p x s ptr s' :
  schQueueMutexEnDeQueue p 0 (Some x) s = Done (ptr, s') →
  ∃ pool pool', at_index (ts_pools (sc_ts s)) p = Some pool ∧
    queue_critical pool 0 (Some x) = Done (ptr, pool') ∧
    sc_ts s' = (sc_ts s) <| ts_pools ::= <[Z.to_nat p := pool']> |>.
Proof.
  unfold schQueueMutexEnDeQueue. intros Hq.
  apply M_bind_Done in Hq as (pool0 & s0 & Hg & Hq). apply get_pool_Done in Hg as [-> _].
  apply M_bind_Done in Hq as (self & s1 & [= <- <-] & Hq). case_decide; [done|].
  apply M_bind_Done in Hq as (spin & s1 & [= <- <-] & Hq).
  apply M_bind_Done in Hq as (l & s1 & Hl%plat_same & Hq).
  apply M_bind_Done in Hq as (pool & s2 & Hg & Hq). apply get_pool_Done in Hg as [-> Hp].
  apply M_bind_Done in Hq as ([ptr' pool'] & s3 & Hc & Hq).
  apply outcome_bind_Done in Hc as ([ptr1 pool1] & Hc & [= <- <- <-]).
  apply M_bind_Done in Hq as (u & s4 & Hs & Hq). apply set_pool_Done in Hs as (pool2 & _ & Hs).
  apply M_bind_Done in Hq as (v & s5 & Hu%plat_same & [= <- <-]).
  rewrite Hl in Hp, Hs. exists pool, pool1. by rewrite Hu, Hs.
Qed.

Lemma alone_sync y f b :
  f (sy_sync y) = Some b →
  ∃ y', sy_ts y' = sy_ts y ∧ sy_spin y' = sy_spin y ∧ sy_events y' = sy_events y ∧ alone (sync_act f) y 0 y'.
Proof. intros Hf. exists (y <| sy_sync := b |>). split_and!; [done..|]. apply alone_access. by rewrite Hf. Qed.

Lemma wake_alone p s y r s' :
  same s y → live y → wake_pool p s = Done (r, s') → r ≠ err_code SCH_ERROR_SIGNAL →
  sc_ts s' = sc_ts s ∧ ∃ y', sy_ts y' = sy_ts y ∧ sy_spin y' = false ∧ sy_events y' = sy_events y ∧
    alone (size ← rd_pool p tp_size;
           if size <=? 1 then
             flag ← rd_pool p tp_flag;
             if has flag SCH_POOL_SLEEP then
               thread ← rd_pool p tp_thread;
               sent ← raise p thread SCH_SIGNAL_CONTINUE;
               if negb (truthy sent) then mret (err_code SCH_ERROR_SIGNAL) else
               num ← rd ts_num;
               _ ← barrier_init (s32 num);
               mret (err_code SCH_OK)
             else mret (err_code SCH_OK)
           else mret (err_code SCH_OK)) y r y'.
Proof.
  intros [Hts Hspin] Hlive Hw Hr. unfold wake_pool in Hw.
  apply M_bind_Done in Hw as (pool & s0 & Hg & Hw). apply get_pool_Done in Hg as [-> Hp].
  rewrite <-Hts in Hp. destruct (tp_size pool <=? 1) eqn:Hsz; cbn [andb] in Hw.
  - destruct (has (tp_flag pool) SCH_POOL_SLEEP) eqn:Hsl.
    + apply M_bind_Done in Hw as (sent & s1 & Hsent%plat_same & Hw).
      destruct (negb (truthy sent)); [by injection Hw as <- <-|].
      apply M_bind_Done in Hw as (b & s2 & [= <- <-] & Hw). apply M_bind_Done in Hw as (num & s3 & [= <- <-] & Hw).
      apply M_bind_Done in Hw as (u & s4 & Hb%plat_same & [= <- <-]). split; [congruence|].
      set (y1 := y <| sy_pending ::= <[Z.to_nat p := true]> |>).
      destruct (alone_sync y1 (λ b, Some ((match sn_barrier b with None => b | Some _ => misused BarrierAgain b end)
        <| sn_barrier := Some (s32 (ts_num (sy_ts y))) |>)) _ eq_refl) as (y2 & H1 & H2 & H3 & Hbar).
      exists y2. split_and!; [exact H1|by rewrite H2|exact H3|].
      eapply alone_bind; [by apply alone_pool_read|]. rewrite Hsz.
      eapply alone_bind; [by apply alone_pool_read|]. rewrite Hsl.
      eapply alone_bind; [by apply alone_pool_read|].
      destruct (Hlive p pool Hp) as (Hth & t & Ht & Hj).
      assert (thread_of y p (tp_thread pool) = Some t) as Hof.
      { unfold thread_of. rewrite decide_False, Ht by done. cbn. by rewrite decide_False. }
      eapply (alone_bind _ _ _ (err_code SCH_OK) y1); [apply alone_access; by rewrite Hof|].
      eapply (alone_bind _ _ _ _ y1); [by apply alone_read|].
      eapply alone_bind; [exact Hbar|apply alone_ret].
    + injection Hw as <- <-. split; [done|]. exists y. split_and!; [done..|].
      eapply alone_bind; [by apply alone_pool_read|]. rewrite Hsz.
      eapply alone_bind; [by apply alone_pool_read|]. rewrite Hsl. constructor.
  - injection Hw as <- <-. split; [done|]. exists y. split_and!; [done..|].
    eapply alone_bind; [by apply alone_pool_read|]. rewrite Hsz. constructor.
Qed.

(** The submit left its two entries in the history, for the package as it was stamped. *)
Definition counted (r : Z) (x : schTaskPackage) (y y' : sys) : Prop :=
  r = err_code SCH_OK → ∃ p size size', sy_events y' = sy_events y ++ [Stored p size; Queued p x size'].

Lemma submit_to_alone p pkg s y r pkg' s' :
  same s y → live y → submit_to p pkg s = Done ((r, pkg'), s') → r ≠ err_code SCH_ERROR_SIGNAL →
  ∃ x y', pkg' = Some x ∧ same s' y' ∧ alone (submit_pool p pkg) y r y' ∧ counted r x y y'.
Proof.
  intros [Hts Hspin] Hlive Hs Hr. unfold submit_to in Hs.
  apply M_bind_Done in Hs as (pool & s0 & Hg & Hs). apply get_pool_Done in Hg as [-> Hp].
  rewrite <-Hts in Hp. case_decide as Hfull.
  { injection Hs as <- <- <-. exists pkg, y. split_and!; [done|done| |done].
    eapply alone_bind; [by apply alone_pool_read|]. eapply alone_bind; [by apply alone_pool_read|].
    rewrite decide_True by done. constructor. }
  cbn zeta in Hs. apply M_bind_Done in Hs as (ptr & s1 & Hq & Hs).
  apply queue_Done in Hq as (pool0 & pool1 & Hp0 & Hq & Hs1). rewrite <-Hts, Hp in Hp0. injection Hp0 as <-.
  apply M_bind_Done in Hs as (pool2 & s2 & Hg & Hs). apply get_pool_Done in Hg as [-> Hp2].
  apply M_bind_Done in Hs as (prio & s3 & Hprio & Hs).
  apply outcome_bind_Done in Hprio as (z & Hz & [= <- <-]).
  apply M_bind_Done in Hs as (u & s4 & Hs4 & Hs). apply set_pool_Done in Hs4 as (pool3 & Hp3 & Hs4).
  rewrite Hp2 in Hp3. injection Hp3 as <-.
  apply M_bind_Done in Hs as (status & s5 & Hw & [= <- <- <-]).
  set (x := pkg <| pk_index := tp_index pool |>) in *.
  destruct (enqueue_alone y p x pool ptr pool1 Hspin Hp Hq) as [_ Henq].
  set (y1 := enqueued p x (tp_size pool + 1) pool1 y) in *.
  assert (same s1 y1) as [Hts1 Hspin1] by (split; [cbn; by rewrite Hs1, Hts|done]).
  set (y2 := with_pool p (pool2 <| tp_dheapPriority := z |>) y1).
  assert (same s4 y2) as Hsame2 by (split; [cbn; by rewrite Hs4, <-Hts1|done]).
  rewrite <-Hts1 in Hp2.
  assert (live y1) as Hlive1.
  { eapply (live_with_pool y); [exact Hlive|exact Hp|by eapply critical_thread|reflexivity|reflexivity]. }
  assert (live y2) as Hlive2.
  { apply (live_with_pool y1 y2 p pool2 (pool2 <| tp_dheapPriority := z |>)); [exact Hlive1|exact Hp2|reflexivity..]. }
  destruct (wake_alone p s4 y2 _ _ Hsame2 Hlive2 Hw Hr) as [Hts5 (y' & Hy1 & Hy2 & Hy3 & Hwake)].
  exists x, y'. split_and!; [done| | |].
  - split; [|done]. rewrite Hy1, Hts5. apply Hsame2.
  - eapply alone_bind; [by apply alone_pool_read|]. eapply alone_bind; [by apply alone_pool_read|].
    rewrite decide_False by done. eapply alone_bind; [by apply alone_pool_read|].
    eapply alone_bind; [exact Henq|]. eapply alone_bind; [by apply alone_pool_read|].
    eapply alone_bind; [by apply alone_local|]. eapply alone_bind; [by apply alone_pool_write|].
    exact Hwake.
  - intros _. rewrite Hy3. cbn. eauto.
Qed.

(** C9: the program of single accesses and the sequential model of [schSubmitTask] are the same
    function: whenever the sequential submit returns, other than because the signal was
    refused, the program that runs uninterrupted from the same object returns the same status,
    with the same object and the lock released; its history is the task, as it was stamped. *)
Theorem submit_alone pkg pPool s y r pkg' s' :
  same s y → live y → schSubmitTask (Some pkg) pPool s = Done ((r, pkg'), s') → r ≠ err_code SCH_ERROR_SIGNAL →
  ∃ x y', pkg' = Some x ∧ same s' y' ∧ alone (submit pkg (Z.of_nat <$> pPool)) y r y' ∧ counted r x y y'.
Proof.
  intros [Hts Hspin] Hlive Hs Hr. unfold schSubmitTask in Hs.
  apply M_bind_Done in Hs as (running & s0 & [= <- <-] & Hs).
  apply M_bind_Done in Hs as (init & s0 & [= <- <-] & Hs). rewrite <-Hts in Hs.
  destruct (has (ts_flag (sy_ts y)) SCH_FLAG_RUNNING) eqn:Hrun; cbn [negb orb] in Hs.
  2: { injection Hs as <- <- <-. exists pkg, y. split_and!; [done|done| |done].
       eapply alone_bind; [by apply alone_read|]. rewrite Hrun. constructor. }
  destruct (has (ts_flag (sy_ts y)) SCH_FLAG_INIT) eqn:Hinit; cbn [negb] in Hs.
  2: { injection Hs as <- <- <-. exists pkg, y. split_and!; [done|done| |done].
       eapply alone_bind; [by apply alone_read|]. rewrite Hrun. cbn [negb].
       eapply alone_bind; [by apply alone_read|]. rewrite Hinit. constructor. }
  assert (∀ pp y1,
    alone (if decide (pk_callback pkg = NULL) then mret (err_code SCH_ERROR_INVALID_ARG) else
           _ ← heapify_all; p ← (match pp with None => rd_dheap 0 | Some p => mret p end); submit_pool p pkg) y r y1 →
    alone (submit pkg pp) y r y1) as Hgo.
  { intros pp y1 Hq. eapply alone_bind; [by apply alone_read|]. rewrite Hrun. cbn [negb].
    eapply alone_bind; [by apply alone_read|]. by rewrite Hinit. }
  destruct (decide (pk_callback pkg = NULL)) as [Hcb|Hcb].
  { injection Hs as <- <- <-. exists pkg, y. split_and!; [done|done| |done]. apply Hgo. constructor. }
  apply M_bind_Done in Hs as (u & s1 & Hheap & Hs). unfold heapify in Hheap.
  apply M_bind_Done in Hheap as (ts & s2 & [= <- <-] & Hheap).
  apply M_bind_Done in Hheap as (ts' & s3 & Hh & [= <- <-]).
  apply outcome_bind_Done in Hh as (ts1 & Hh & [= <- <-]).
  apply M_bind_Done in Hs as (p & s4 & Hp & Hs).
  rewrite <-Hts in Hh. set (y1 := y <| sy_ts := ts1 |>). change (mkSched (sc_addr s) ts1 (sc_env s)) with (s <| sc_ts := ts1 |>) in Hp.
  set (s1 := s <| sc_ts := ts1 |>) in *.
  assert (same s1 y1) as Hsame by done.
  assert (s4 = s1 ∧ alone (match Z.of_nat <$> pPool with None => rd_dheap 0 | Some p => mret p end) y1 (Z.of_nat p) y1)
    as [-> Hpool].
  { destruct pPool as [p0|]; [injection Hp as <- <-; split; [done|constructor]|].
    apply M_bind_Done in Hp as (ds & s5 & [= <- <-] & Hp).
    apply outcome_bind_Done in Hp as (p0 & Hp0%deref_Done & [= <- <-]). split; [done|].
    by apply alone_rd_dheap. }
  assert (live y1) as Hlive1.
  { unfold schHeapify, schHeapify_fuel in Hh. apply outcome_bind_Done in Hh as (arr & _ & [= Hh]).
    unfold y1. rewrite <-Hh. exact Hlive. }
  destruct (submit_to_alone _ _ _ y1 _ _ _ Hsame Hlive1 Hs Hr) as (x & y' & Hx & Hs' & Hal & Hc).
  exists x, y'. split_and!; [done|done| |exact Hc]. apply Hgo.
  eapply alone_bind; [by apply heapify_alone|]. eapply alone_bind; [exact Hpool|exact Hal].
Qed.
End submit.

(** The sequential example, with nothing pending. *)
Definition running_sys : sys := mkSys running_sch false [false; false] [false; false] [Alive; Alive] [] (mkSync None [false; false] 0 0 (Some 2) []).

Lemma running_live : live running_sys.
Proof.
  intros p pool Hp. pose proof Hp as [Hp0 Hlt%lookup_lt_Some]%at_index_Some. cbn in Hlt.
  assert (p = 0 ∨ p = 1) as [-> | ->] by lia; apply (inj Some) in Hp; rewrite <-Hp; (split; [done|by exists Alive]).
Qed.

Lemma submit_alone_witness :
  ∃ x y', alone (submit some_task None) running_sys (err_code SCH_OK) y' ∧
    counted (err_code SCH_OK) x running_sys y'.
Proof.
  destruct (schSubmitTask (Some some_task) None running_sched) as [[[r pkg'] s']| | |] eqn:Hs;
    [|by vm_compute in Hs..].
  assert (r = err_code SCH_OK) as -> by (vm_compute in Hs; by injection Hs).
  destruct (submit_alone some_task None running_sched running_sys _ _ _
    (conj eq_refl eq_refl) running_live Hs) as (x & y' & _ & _ & Hal & Hc); [done|].
  by exists x, y'.
Defined.
