(* ===== verification/Restart.v ===== *)
(** * A scheduler that is terminated and run again

    [schTerminateTaskSch] forgets to whom each pool thread reports that it is idle, and leaves
    the flag words of the pools as the threads had them; [schRunTaskSch] restores neither. *)
From S2P Require Import Executor Threads System SystemQueue SystemInv SystemLife SystemCalls SystemSafe SystemRuns SystemStart Kept.
From S2P Require Import Prelude Errors Flags Structures Heapify TaskQueue Platform.
From S2P Require Import Scheduler SchedulerFacts Examples Lifecycle Running SystemAlone.

(** ** A pool thread that never starts *)

Section stranded.
(** The flag word of pool [q] says that it runs. *)
Context (q : nat) (flag : Z) (Hflag : truthy (SchC.isRunning flag) = true).

Definition stranded (s : System.sys) : Prop :=
  tp_flag <$> pools s !! q = Some flag ∧ started (Z.of_nat q) (sy_events s) = [].

Lemma stranded_same s s' : sy_ts s' = sy_ts s → sy_events s' = sy_events s → stranded s → stranded s'.
Proof. unfold stranded, pools. by intros -> ->. Qed.

(** Only the thread of the pool itself could change that. *)
Lemma stranded_kept : kept_writes stranded (λ _, True) (λ p, p ≠ Z.of_nat q).
Proof.
  split; try done.
  - intros s p pool pool' [Hq He] Hp _ Hpool. split; [|done]. unfold pools in *. cbn.
    destruct (decide (Z.to_nat p = q)) as [Heq|Hne]; [|by rewrite list_lookup_insert_ne].
    apply at_index_Some in Hp as [H0 Hp]. destruct Hpool as [Hpool|Hne]; [|lia].
    rewrite Heq in *. rewrite list_lookup_insert_eq by (by eapply lookup_lt_Some).
    rewrite Hp in Hq. cbn in *. by rewrite Hpool.
  - intros s e [Hq He] Hok. split; [done|]. cbn -[started]. unfold started in *. rewrite omap_app, He.
    destruct e; cbn; try done. by rewrite decide_False.
Qed.

(** It never gets past the alignment, whatever wakes it. *)
Lemma stranded_worker clock i :
  tracks (kept_inv stranded) (λ _ _ _, True) True i (pool_thread clock (Z.of_nat q)) tt (λ _ _, True).
Proof.
  apply tracks_bind, (kept_rd_pool _ stranded_same). intros z. apply tracks_bind, kept_iter. intros [].
  apply tracks_bind, kept_act. intros s a s' Hs. split; [by rewrite (read_same _ _ _ _ H)|].
  destruct Hs as [Hq _]. unfold pools in Hq. revert H. unfold read_or_fault.
  rewrite at_index_nat, Nat2Z.id by lia. destruct (ts_pools (sy_ts s) !! q) as [pool|]; [|done].
  apply (inj Some) in Hq. cbn in Hq. intros [= <- _]. rewrite Hq, Hflag. unfold conditional_wait.
  apply tracks_bind, tracks_bind, (kept_sync _ stranded_same). intros _.
  apply tracks_bind, (kept_choose _ _ _ 0); [done|]. intros sp.
  apply tracks_bind, (kept_sync _ stranded_same). intros _.
  apply (kept_sync _ stranded_same). intros _. by apply tracks_ret.
Qed.

Lemma stranded_forever clock t clients n s ps s' :
  clock t = true → stranded s → rtc sys_step (threads clock clients n, s) (ps, s') → stranded s'.
Proof.
  intros Ht Hs. apply (kept_steps stranded stranded_same _ _ stranded_kept clock t Ht); [| |done].
  - apply Forall_forall. intros ops _. apply Forall_forall. by intros [pkg [p|]| | |] _.
  - intros p _. destruct (decide (p = q)) as [->|Hne]; [right; apply stranded_worker|left; lia].
Qed.
End stranded.

(** ** A pool thread that has nobody to report to *)

Lemma alone_wr_pool s p f pool :
  at_index (ts_pools (sy_ts s)) p = Some pool →
  alone (wr_pool p f) s 0 (s <| sy_ts ::= λ ts, ts <| ts_pools ::= <[Z.to_nat p := f pool]> |> |>).
Proof. intros Hp. apply alone_access. unfold write_or_fault. by rewrite Hp. Qed.

Lemma alone_hook s p field called pool :
  at_index (ts_pools (sy_ts s)) p = Some pool →
  ∃ z es, alone (hook p field called) s z (s <| sy_events := es |>).
Proof.
  intros Hp. destruct (decide (field pool = NULL)) as [Hn|Hn].
  - exists 0, (sy_events s). eapply alone_bind; [by apply alone_rd_pool|]. rewrite decide_True by done.
    apply alone_done. by destruct s.
  - exists 0, (sy_events s ++ [called (field pool)]). eapply alone_bind; [by apply alone_rd_pool|].
    rewrite decide_False by done. eapply alone_bind; [by apply alone_rd_pool|]. by apply alone_access.
Qed.

(** One access of the thread. *)
Lemma doomed_rd_pool {A} p f (k : Z → proc System.sys A) s pool :
  at_index (ts_pools (sy_ts s)) p = Some pool → doomed (k (f pool)) s → doomed (rd_pool p f ≫= k) s.
Proof. intros Hp. by eapply doomed_after, alone_rd_pool. Qed.

Lemma doomed_wr_pool {A} p f (k : Z → proc System.sys A) s pool :
  at_index (ts_pools (sy_ts s)) p = Some pool →
  (∀ s', at_index (ts_pools (sy_ts s')) p = Some (f pool) → doomed (k 0) s') → doomed (wr_pool p f ≫= k) s.
Proof.
  intros Hp Hk. eapply doomed_after; [by apply alone_wr_pool|]. apply Hk. cbn.
  apply at_index_Some in Hp as [H0 Hp]. rewrite at_index_nat by done.
  apply list_lookup_insert_eq. by eapply lookup_lt_Some.
Qed.

Lemma doomed_sync {A} f (k : Z → proc System.sys A) s :
  is_Some (f (sy_sync s)) → (∀ y, doomed (k 0) (s <| sy_sync := y |>)) → doomed (sync_act f ≫= k) s.
Proof. intros [y Hf] Hk. eapply doomed_after; [|apply (Hk y)]. apply alone_access. by rewrite Hf. Qed.

(** The thread of pool [p] finds its queue empty, and signals a null thread. *)
Lemma report_doomed clock p s pool :
  pools s !! p = Some pool → tp_size pool = 0 → tp_schRefThread pool = NULL →
  truthy (SchC.isRunning (tp_flag pool)) = false → doomed (pool_thread clock (Z.of_nat p)) s.
Proof.
  intros Hp Hsize Href Hflag. unfold pool_thread.
  assert (at_index (ts_pools (sy_ts s)) (Z.of_nat p) = Some pool) as Hat.
  { by rewrite at_index_nat, Nat2Z.id by lia. }
  eapply doomed_rd_pool; [exact Hat|].
  eapply doomed_after.
  { eapply alone_stop, alone_bind; [by apply alone_rd_pool|]. rewrite Hflag. apply alone_ret. }
  destruct (alone_hook s _ tp_init (Prepared (Z.of_nat p)) _ Hat) as (z & es & Hhook).
  eapply doomed_after; [exact Hhook|]. clear Hhook.
  assert (at_index (ts_pools (sy_ts (s <| sy_events := es |>))) (Z.of_nat p) = Some pool) as Hat1 by exact Hat.
  revert Hat1. generalize (s <| sy_events := es |>). clear s Hp Hat Hflag es. intros s Hat.
  eapply doomed_step; [constructor|].
  lazymatch goal with |- doomed (proc_bind ?k _) _ => generalize k end. intros k.
  eapply doomed_rd_pool; [exact Hat|]. rewrite Hsize, decide_False by lia.
  eapply doomed_wr_pool; [exact Hat|]. clear s Hat. intros s Hat.
  eapply doomed_wr_pool; [exact Hat|]. clear s Hat. intros s Hat.
  eapply doomed_sync; [done|]. intros y1. eapply doomed_sync; [done|]. intros y2.
  set (s2 := s <| sy_sync := y1 |> <| sy_sync := y2 |>).
  assert (ts_pools (sy_ts s) = ts_pools (sy_ts s2)) as Hps by done.
  rewrite Hps in Hat. clearbody s2. clear s Hps y1 y2. rename s2 into s.
  eapply doomed_wr_pool; [exact Hat|]. clear s Hat. intros s Hat.
  eapply doomed_rd_pool; [exact Hat|]. apply doomed_here. cbn. by rewrite Href, decide_True.
Qed.

(** ** The second run *)

(** What the pool threads of a scheduler that was terminated come to, once it runs again with
    [clients]; [flag] is what the termination left of the flag word of pool [p]. *)
Definition hopeless (clock : Z → bool) (clients : list (list client_op)) (ts : schTaskSch) (p : nat) (flag : Z) : Prop :=
  let c := (threads clock clients (length (ts_pools ts)), started_sys ts) in
  if truthy (SchC.isRunning flag)
  then ∀ ps s, rtc sys_step c (ps, s) → started (Z.of_nat p) (sy_events s) = []
  else ∃ ps s th, rtc sys_step c (ps, s) ∧ ps !! (length clients + p)%nat = Some th ∧ faults th s.

Lemma pool_hopeless clock t clients ts p pool :
  clock t = true → ts_pools ts !! p = Some pool → tp_size pool = 0 → tp_schRefThread pool = NULL →
  hopeless clock clients ts p (tp_flag pool).
Proof.
  intros Ht Hp Hsize Href. unfold hopeless. destruct (truthy _) eqn:Hflag.
  - intros ps s Hsteps. eapply (stranded_forever p (tp_flag pool) Hflag clock t); [exact Ht| |exact Hsteps].
    split; [|done]. unfold pools. cbn. by rewrite Hp.
  - eapply doomed_steps; [|by eapply (report_doomed clock p (started_sys ts))].
    assert (p < length (ts_pools ts))%nat by (by eapply lookup_lt_Some).
    unfold threads. rewrite lookup_app_r by (rewrite length_imap; lia). rewrite length_imap.
    replace (length clients + p - length clients)%nat with p by lia.
    rewrite list_lookup_fmap, lookup_seqZ_lt by lia. cbn. do 2 f_equal.
Qed.

Section restart.
Context {W : Type} `{Posix W} (NDEBUG : bool) (others : schTaskSch → W → schTaskSch).

(** C27: a scheduler cannot be run again.  After a client has terminated it, [schRunTaskSch] can
    answer [SCH_OK]; but, whatever the clients do then, no pool works as it should: a pool whose flag
    word kept its RUNNING bit never calls a task, since its thread never passes the alignment,
    and the thread of any other pool can reach undefined behaviour before any call: it finds its
    queue empty and signals a null thread. *)
Theorem restart_broken clock T ops s0 ps (s : System.sys) fuel addr (e : env W) :
  (∀ n w, ans_ret (fst (sys (c_malloc n) w)) ≠ NULL) →
  (∀ p w, ans_ret (fst (sys (c_sigemptyset p) w)) = 0) →
  (∀ f p w, ans_ret (fst (sys (c_pthread_create f p) w)) = 0 →
     ∃ t out, ans_out (fst (sys (c_pthread_create f p) w)) = t :: out ∧ t ≠ NULL) →
  ready clock T [ops] s0 → reaches clock [ops] s0 ps s → terminated (sy_events s) →
  wp (schRunTaskSch NDEBUG others fuel) (λ r s', r = err_code SCH_OK →
    length (ts_pools (sc_ts s')) = length (pools s) ∧
    ∀ clients p pool, pools s !! p = Some pool → hopeless clock clients (sc_ts s') p (tp_flag pool))
    (mkSched addr (sy_ts s) e).
Proof.
  intros Hmalloc Hempty Hcreate Hready Hreach Hend.
  destruct (terminated_state _ _ _ _ Hready _ _ Hreach Hend) as (Hup & _ & Hnum & Hpools).
  destruct (rd_time _ _ _ _ Hready) as [t Ht].
  destruct (life_of_cases (ts_flag (sy_ts s))) as [(Hi & _)|[(_ & _ & Hl)|(_ & Hr & _)]].
  - unfold schRunTaskSch, flag_has. apply wp_bind, wp_get_ts. cbn [sc_ts]. rewrite Hi. by apply wp_ret.
  - eapply wp_mono; [by apply wp_run|]. intros r s' [(-> & Hdone)|(_ & _ & Hr)] Hok.
    2: { exfalso. rewrite Hok in Hr. by destruct Hr as [?|[? _]]. }
    destruct Hdone as (new & Hall & Hts & _). cbn [sc_ts] in *.
    assert (ts_pools (sc_ts s') = new) as Hnew by by rewrite Hts. clear Hts. subst new.
    split; [by rewrite <-(Forall2_length _ _ _ Hall)|]. intros clients p pool Hp.
    destruct (Hpools p pool Hp) as (_ & Href & Hsize & _).
    destruct (Forall2_lookup_l _ _ _ _ _ Hall Hp) as (pool' & Hp' & m & st & th & _ & _ & _ & ->).
    exact (pool_hopeless clock t clients _ p _ Ht Hp' Hsize Href).
  - unfold up in Hup. congruence.
Qed.
End restart.

(** *** Witness: one task, a termination, and a second run *)

Definition second_run : outcome (Z * sched ()) :=
  schRunTaskSch (H := quad_posix) true all_idle 3 (mkSched 512 (sy_ts demo_all_end) (mkEnv () [])).

(** The flag word is 1: the new thread of the pool signals a null thread. *)
Lemma restart_broken_witness :
  ∃ s', second_run = Done (err_code SCH_OK, s') ∧ hopeless demo_clock [[demo_submit]] (sc_ts s') 0 1.
Proof.
  destruct quad_grants as (Hmalloc & _ & Hthread).
  assert (terminated (sy_events demo_all_end)) as Hend by (apply list_elem_of_In; cbn; tauto).
  pose proof (restart_broken (H := quad_posix) true all_idle demo_clock 500 _ _ _ demo_all_end 3 512 (mkEnv () [])
    Hmalloc (λ _ _, eq_refl) Hthread demo_all_ready demo_all_reaches Hend) as Hwp.
  destruct (proj1 (wp_Done _ _ _) Hwp) as (r & s' & Hrun & Hall). clear Hwp.
  assert (r = err_code SCH_OK) as ->.
  { assert (match second_run with Done (r, _) => r | _ => 0 end = err_code SCH_OK) as Hst by (vm_compute; reflexivity).
    unfold second_run in Hst. rewrite Hrun in Hst. exact Hst. }
  exists s'. split; [exact Hrun|]. destruct (Hall eq_refl) as [_ Hp]. exact (Hp [[demo_submit]] 0%nat _ eq_refl).
Defined.

(** Both cases occur.  When the only client stops and then terminates the scheduler, the CONTINUE
    of the stop can wake the pool after the wait of the termination; its flag word is then 7. *)
Definition stopped_schedule : list (nat * nat * Z) :=
  [by_steps 1 28; by_steps 0 25; by_steps 1 13; by_steps 0 3; by_steps 1 6; by_steps 0 13].

Example terminated_flags :
  flags demo_all_end = [1] ∧ truthy (SchC.isRunning 1) = false ∧
  flags (demo_run [[CStop; CTerminate]] [0] stopped_schedule).2 = [7] ∧ truthy (SchC.isRunning 7) = true ∧
  sy_events (demo_run [[CStop; CTerminate]] [0] stopped_schedule).2 = [Waited; Cleaned 0 88; Terminated].
Proof. vm_compute. done. Qed.
