(* ===== verification/Session.v ===== *)
(** * A whole session: creation, run, use, termination, release

    The sequential model of the calls that create, run and release a scheduler, and the
    interleaved model of the time between them, put together. *)
From S2P Require Import Executor Threads System SystemQueue SystemInv SystemLife SystemCalls SystemSafe SystemRuns SystemStart Kept.
From S2P Require Import Prelude Errors Flags Structures Heapify TaskQueue Platform.
From S2P Require Import Scheduler SchedulerFacts Examples Lifecycle Creation Running.

(** ** What the scheduler holds *)

(** The addresses that it will have to free. *)
Definition holdings (ts : schTaskSch) : Z * Z * Z * Z * list Z :=
  (ts_pool ts, ts_dheap ts, ts_set ts, ts_spinlock ts, tp_package <$> ts_pools ts).

(** The calls that free them. *)
Definition free_calls (ts : schTaskSch) : list syscall :=
  ((λ pool, c_free (tp_package pool)) <$> ts_pools ts) ++ release_calls ts.

Lemma free_calls_holdings ts ts' : holdings ts' = holdings ts → free_calls ts' = free_calls ts.
Proof.
  intros Heq. unfold free_calls, release_calls.
  assert (ts_pool ts' = ts_pool ts) as -> by exact (f_equal (λ x, x.1.1.1.1) Heq).
  assert (ts_dheap ts' = ts_dheap ts) as -> by exact (f_equal (λ x, x.1.1.1.2) Heq).
  assert (ts_set ts' = ts_set ts) as -> by exact (f_equal (λ x, x.1.1.2) Heq).
  assert (ts_spinlock ts' = ts_spinlock ts) as -> by exact (f_equal (λ x, x.1.2) Heq).
  f_equal. pose proof (f_equal snd Heq) as Hp. cbn in Hp.
  change (λ pool, c_free (tp_package pool)) with (c_free ∘ tp_package). by rewrite !list_fmap_compose, Hp.
Qed.

(** Nothing that the threads do changes them. *)
Definition holds_on (h : Z * Z * Z * Z * list Z) (s : System.sys) : Prop := holdings (sy_ts s) = h.

Lemma holds_on_same h s s' :
  sy_ts s' = sy_ts s → sy_events s' = sy_events s → holds_on h s → holds_on h s'.
Proof. unfold holds_on. by intros -> _. Qed.

Lemma holds_on_kept h : kept_writes (holds_on h) (λ _, True) (λ _, True).
Proof.
  split; try done. intros s p pool pool' <- [_ Hp]%at_index_Some Hpk _. unfold holds_on, holdings. cbn. f_equal.
  rewrite list_fmap_insert. apply list_insert_id. by rewrite list_lookup_fmap, Hp, Hpk.
Qed.

Lemma holdings_kept clock t clients s0 ps s :
  clock t = true → reaches clock clients s0 ps s → holdings (sy_ts s) = holdings (sy_ts s0).
Proof.
  intros Ht Hreach.
  apply (kept_steps _ (holds_on_same _) _ _ (holds_on_kept (holdings (sy_ts s0))) clock t Ht _ _ _ _ _) in Hreach;
    [done| |by left|done].
  apply Forall_forall. intros ops _. apply Forall_forall. by intros [pkg [p|]| | |] _.
Qed.

Section session.
Context {W : Type} `{Posix W} (NDEBUG : bool) (uninit_pool : nat → schTaskPool) (uninit_cell : nat → nat).
Context (uninit_package : nat → schTaskPackage) (others : schTaskSch → W → schTaskSch).

(** C2: a session of one client.  On a system with memory that lets [schCreateTaskPool] create its
    objects, the scheduler is created and runs, or the run answers that the system refused a
    request.  If it runs, then, whatever the client calls and however it is interleaved with
    the pool threads, once it has terminated the scheduler every accepted task has been run to
    its end, every thread has been joined, and [schReleaseTaskSch] answers [SCH_OK] and frees
    the queues, the two arrays, the signal set and the spin lock, each at the address that the
    creation gave it.  The size of the queues is any that [usage] allows, up to the width of
    [unsigned int]; the test [MissUse] of test/unit-test/main.c, which expects the creation to
    refuse (unsigned int)-2 cells, disagrees with the code on that one size. *)
Theorem session_complete clock T ops ncpu cores flag n fuel (s0 : sched W) :
  (∀ m w, ans_ret (fst (sys (c_malloc m) w)) ≠ NULL) →
  (∀ c w, create_request c = true → ans_ret (fst (sys c w)) = 0) →
  (∀ w, ans_ret (fst (sys c_sysconf_nprocessors w)) = ncpu) →
  (∀ w, ans_ret (fst (sys c_pthread_self w)) ≠ NULL) →
  (∀ p w, ans_ret (fst (sys (c_sigemptyset p) w)) = 0) →
  (∀ f p w, ans_ret (fst (sys (c_pthread_create f p) w)) = 0 →
     ∃ t out, ans_out (fst (sys (c_pthread_create f p) w)) = t :: out ∧ t ≠ NULL) →
  SCH_HEAP_BREATH * ncpu <= INT_MAX → sc_addr s0 ≠ NULL → cores = -1 ∧ 0 < ncpu ∨ 0 < cores <= ncpu →
  usage clock T [ops] (if decide (cores = -1) then ncpu else cores) n →
  wp (create_and_run NDEBUG uninit_pool uninit_cell uninit_package others fuel cores flag n) (λ r s1,
    (r = err_code SCH_OK ∧
     ∀ ps s e, reaches clock [ops] (started_sys (sc_ts s1)) ps s → terminated (sy_events s) →
       Forall (λ t, t = Joined) (sy_life s) ∧
       (∀ p, (p < length (ts_pools (sc_ts s1)))%nat →
          length (finished (Z.of_nat p) (sy_events s)) = length (queued (Z.of_nat p) (sy_events s))) ∧
       wp (schReleaseTaskSch others fuel) (λ r2 s2, r2 = err_code SCH_OK ∧
         calls (sc_env s2) = calls e ++ free_calls (sc_ts s1)) (mkSched (sc_addr s1) (sy_ts s) e)) ∨
    (r = err_code SCH_ERROR_INTERNAL ∨ r = err_code SCH_ERROR_INVALID_SCH) ∧
    ∃ ts e, went ts True e (sc_env s1)) s0.
Proof.
  intros Hmalloc Hinit Hcpu Hself Hempty Hthread Hsmall Haddr Hcores Hus.
  set (num := if decide (cores = -1) then ncpu else cores) in *.
  assert (0 < num) as Hnum by (unfold num; case_decide; lia).
  assert (0 < n < UINT_MOD) as Hn by (destruct Hus; cbn in *; lia).
  eapply wp_mono; [by apply (wp_create_and_run _ _ _ _ _ ncpu)|]. fold num.
  intros r s1 [(-> & s' & Hdone & Hf)|Hr]; [left|by right]. split; [done|]. intros ps s e Hreach Hend.
  pose proof (run_done_ready Hself clock T [ops] _ _ _ _ _ _ Hnum Hus Hf Hdone) as Hready.
  destruct (us_time _ _ _ _ _ Hus) as [t Ht].
  destruct (terminated_state _ _ _ _ Hready _ _ Hreach Hend) as (Hup & _ & Hn' & _).
  split; [by eapply terminated_joined|].
  split; [intros p Hp; by apply (terminated_tasks _ _ _ _ Hready _ _ Hreach p Hend)|].
  apply wp_release; cbn [sc_ts sc_addr sc_env]; [|done|].
  - unfold flag_of. cbn. unfold life_of. unfold up in Hup. rewrite Hup. by destruct (has _ SCH_FLAG_INIT).
  - intros e' He'. split; [done|]. cbn [sc_env]. rewrite He'. f_equal.
    exact (free_calls_holdings _ _ (holdings_kept _ _ _ _ _ _ Ht Hreach)).
Qed.
End session.

(** *** Witness: one pool, one task *)

(** A system that grants everything: the [w]-th allocation gets an address of its own, and
    threads get odd ids. *)
Definition bump_posix : Posix nat := {|
  sys c w := match c with
             | c_malloc _ => (mkAnswer (4096 + 16 * Z.of_nat w) [], S w)
             | c_sysconf_nprocessors => (mkAnswer 4 [], w)
             | c_pthread_self => (mkAnswer 7 [], w)
             | c_pthread_create _ i => (mkAnswer 0 [2 * i + 1], w)
             | _ => (mkAnswer 0 [], w)
             end;
  errno _ := 0;
  indet _ := 0;
|}.

Lemma bump_grants :
  (∀ m w, ans_ret (fst (@sys _ bump_posix (c_malloc m) w)) ≠ NULL) ∧
  (∀ c w, create_request c = true → ans_ret (fst (@sys _ bump_posix c w)) = 0) ∧
  (∀ f p w, ans_ret (fst (@sys _ bump_posix (c_pthread_create f p) w)) = 0 →
     ∃ t out, ans_out (fst (@sys _ bump_posix (c_pthread_create f p) w)) = t :: out ∧ t ≠ NULL).
Proof.
  split; [|split].
  - intros m w. unfold NULL. cbn. lia.
  - intros [] w; (discriminate || reflexivity).
  - intros f p w _. eexists _, _. split; [reflexivity|unfold NULL; lia].
Qed.

Definition one_client : list client_op := [demo_submit; CTerminate].

Lemma one_usage : usage demo_clock 500 [one_client] 1 8.
Proof.
  split; unfold SCH_HEAP_BREATH, INT_MAX, UINT_MOD, LONG_MAX; cbn; try lia.
  - unfold demo_clock. intros t. rewrite andb_true_iff, !Z.leb_le. lia.
  - by exists 0.
  - repeat constructor; cbn; lia.
Qed.

Definition fresh_sched : sched nat := mkSched 512 (sc_ts raw_unit) (mkEnv 0%nat []).
Definition one_session : outcome (Z * sched nat) :=
  create_and_run (H := bump_posix) true raw_pool id raw_package all_idle 3 1 SCH_FLAG_NO_AFM 8 fresh_sched.
Definition one_start : sched nat :=
  Eval vm_compute in match one_session with Done (_, s) => s | _ => fresh_sched end.

Lemma one_session_eq : one_session = Done (err_code SCH_OK, one_start).
Proof. vm_compute. reflexivity. Qed.

Lemma one_session_start r s : one_session = Done (r, s) → r = err_code SCH_OK ∧ s = one_start.
Proof.
  rewrite one_session_eq. intros Heq. split.
  - exact (f_equal (λ o, match o with Done (r, _) => r | _ => r end) (eq_sym Heq)).
  - exact (f_equal (λ o, match o with Done (_, s) => s | _ => s end) (eq_sym Heq)).
Qed.

(** The client submits, the pool runs the task and sleeps twice, the client stops it. *)
Definition one_run : config System.sys :=
  run [by_steps 0 24; by_steps 1 45; by_steps 0 17; by_steps 1 4; by_steps 0 13]
    (threads demo_clock [one_client] 1, started_sys (sc_ts one_start)).
Definition one_end : System.sys := Eval vm_compute in one_run.2.

Lemma one_reaches : reaches demo_clock [one_client] (started_sys (sc_ts one_start)) one_run.1 one_end.
Proof.
  unfold reaches. change one_end with one_run.2. rewrite <-surjective_pairing. apply run_steps.
Qed.

Lemma one_terminated : terminated (sy_events one_end).
Proof. apply list_elem_of_In. cbn. tauto. Qed.

Lemma session_complete_witness :
  wp (schReleaseTaskSch (H := bump_posix) all_idle 3) (λ r s, r = err_code SCH_OK ∧
    calls (sc_env s) = [c_free 4208; c_free 4096; c_free 4112; c_free 4128; c_spin_destroy 4144; c_free 4144]) (mkSched 512 (sy_ts one_end) (mkEnv 0%nat [])).
Proof.
  destruct bump_grants as (Hmalloc & Hinit & Hthread).
  assert (SCH_HEAP_BREATH * 4 <= INT_MAX) as Hsmall by (unfold SCH_HEAP_BREATH, INT_MAX; lia).
  assert (7 ≠ NULL) as Hseven by (unfold NULL; lia).
  assert (sc_addr fresh_sched ≠ NULL) as Haddr by (cbn; unfold NULL; lia).
  assert (1 = -1 ∧ 0 < 4 ∨ 0 < 1 <= 4) as Hcores by lia.
  pose proof (session_complete (H := bump_posix) true raw_pool id raw_package all_idle demo_clock 500 one_client 4 1
    SCH_FLAG_NO_AFM 8 3 fresh_sched Hmalloc Hinit (λ _, eq_refl) (λ _, Hseven) (λ _ _, eq_refl) Hthread
    Hsmall Haddr Hcores one_usage) as Hwp.
  destruct (proj1 (wp_Done _ _ _) Hwp) as (r & s1 & Hrun & Hcase). clear Hwp.
  destruct (one_session_start _ _ Hrun) as [-> ->].
  destruct Hcase as [[_ Hall]|[Hr _]]; [|exfalso; clear -Hr; by destruct Hr].
  destruct (Hall _ _ (mkEnv 0%nat []) one_reaches one_terminated) as (_ & _ & Hrel).
  exact Hrel.
Defined.
